(* ===== verification/_CoqProject ===== *)
-Q . S2P
Prelude.v
GoStd.v
GoTime.v
Config.v
StatsModel.v
Crc16.v
Value.v
RespParse.v
RespFacts.v
RequestFacts.v
RespStream.v
StreamFacts.v
Pool.v
PoolFacts.v
Pipeline.v
PipelineFacts.v
Command.v
Topology.v
GoFlag.v
TopoLog.v
TopoManager.v
RespQueue.v
Mux.v
MuxFacts.v
Ledger.v
Router.v
RouterFacts.v
RouterMulti.v
RouterPipeline.v
Routing.v
RoutingFacts.v
Hub.v
HubFacts.v
Handler.v
HandlerFacts.v
TxFacts.v
Engine.v
EndToEnd.v
Redirects.v
AskOrder.v
FanOut.v
Server.v
Service.v
Process.v
