(* ===== verification/Prelude.v ===== *)
(** * Verification of pluster, a Redis Cluster proxy

    Pluster accepts Redis clients, finds the cluster node that owns the keys of each
    command, sends the command there and returns the reply, so that a client sees one
    server.  This library models the Go sources under [src/pkg] and [src/cmd] and proves the
    properties that make them correct.

    ** The program and its model

    A client's bytes are parsed ([pkg/proto]), the command's keys are hashed to a slot
    ([crc16.go]), the topology ([pkg/cluster]) names the node of the slot, and one of
    three paths carries the command: the shared connections of the event loop
    ([backend_mux.go], the common case), the router with its own pools ([pkg/router],
    [pkg/pool]; commands that need several nodes), or a connection of the client's own
    (transactions, blocking commands, [handler_tx.go], [handler_blocking.go]).  Replies
    come back in any order; the response queue of the client ([handler.go]) writes them in
    the order of the requests.  Subscriptions go through one hub per event loop
    ([pubsub_hub.go]).  [pkg/server] puts the parts together, [cmd/pluster] runs them as a
    process.

    - [Prelude], [GoStd], [GoTime]: what is modelled of Go: bytes, 64-bit integers with
      their wrap-around, the outcome of a call (a value, an error, a panic), the functions
      of strings, bytes, strconv, bufio, time and the [float64] arithmetic the sources use.
    - [Config]: [config.go] and what [main.go] makes of a file and flags; [GoFlag]: the
      command line, as the package flag reads it.
    - [StatsModel]: [stats.go], its counters as interleaved atomic operations.
    - [Crc16]: [crc16.go], against the polynomial definition of the checksum.
    - [Value], [RespParse], [RespFacts], [RequestFacts]: the values, encoders and buffer
      parsers of [resp.go]; [RespStream], [StreamFacts]: its [Reader] and [Writer] on
      blocking connections.
    - [Pool], [PoolFacts]: [pool.go] and [registry.go]; the code between two lock
      operations is a function, [thread] is the point a goroutine has reached, [pstep]
      interleaves them.  [Pipeline], [PipelineFacts]: [pipeline.go], one turn of the loop
      of a pipelined connection at a time, the turns included that end the loop or that
      do not end because a node stays silent ([pipe_step]).
    - [Command]: [command.go], the whole table.
    - [Topology], [TopoManager]: [topology.go]; the tables and queries, the parser of
      CLUSTER NODES, the refresh, the dialogue with a node and the manager's goroutines;
      [TopoLog]: the report of the topology it logs.
    - [RespQueue]: the response queue and its fan-in; [Mux], [MuxFacts]: [backend_mux.go];
      [Ledger]: its runs, and what becomes of every request in them.
    - [Router], [RouterFacts], [RouterMulti], [RouterPipeline]: [router.go] as a state and
      error monad over the interface [Nodes] of the connections.
    - [Routing], [RoutingFacts]: [routeToBackend] and the multi-key fan-out of
      [handler_routing.go].
    - [Hub], [HubFacts]: [pubsub_hub.go] and [handler_pubsub.go].
    - [Handler], [HandlerFacts], [TxFacts]: the callbacks and the client state machine of
      [handler.go], [handler_routing.go], [handler_tx.go], [handler_blocking.go] and
      [blocking_pool.go].
    - [Engine]: the rest of [handler.go], gnet's callbacks and the event loops together:
      the state of a loop is what its callbacks enter with, the counters are shared.
    - [EndToEnd], [Redirects], [AskOrder], [FanOut]: no code of their own; the paths of
      commands for one key, of redirected commands (and of two redirections that get out of
      order) and of multi-key commands through all of these.
    - [Server]: [server.go], the composition of topology, pools and pipelines; [Service]:
      what happens to it between its start and its stop, and the wait of the stop;
      [Process]: [main] of [main.go], from the command line to the exit.

    State is passed explicitly; one event loop is one thread, so its callbacks are
    functions on its state ([evloop], [proxy]).  What runs on several goroutines is a step
    relation and the theorems hold for every interleaving ([pstep], [mstep], [astep], [estep],
    [pipe_step], [serve_step]).
    Go ranges over maps in any order: the functions that do so take the order as an
    argument and the theorems hold for all orders.  A connection's context, a slot of a
    queue or a pending closure is a value of an inductive type ([respond], [job])
    where the code has a function literal.

    ** What is proved

    - From the client's bytes to the client's bytes: [pipeline_end_to_end] (commands for one
      key), [redirects_followed] (MOVED and ASK while slots move), [mget_end_to_end],
      [parts_end_to_end] (commands over several nodes).
    - The process, from its command line through whatever it serves to its end:
      [main_serves].
    - Order and delivery: [replies_in_request_order] and [queue_refines] (the response
      queue is a queue of promises), [onTraffic_delivers] and [requests_conserved] (a shared
      connection's replies go to the requests that wait; over a run every request is paid
      for once and its client gets the payment),
      [routeToBackend_owes], [blocking_defers], [ExecPipeline_in_order], [pipe_replies],
      [pipe_in_step], [message_delivery].
    - Multi-key commands: [multi_key_split], the lemmas [mget_fan_in] and [parts_fan_in]
      (a fan-in behind other requests of the client), [executeMGET_values].
    - Composition: [engine_invariant] (whatever the callbacks of several loops do, every
      loop keeps the entries of its hub registered and the guard of its clients, and the
      clients are counted and numbered; without an ASK after a MOVED in one read it also
      keeps the order of its shared connections), [clients_bounded].
    - Safety: [auth_guard], [pool_exclusive], [Execute_never_panics] and
      [ExecPipeline_total] (no panic but those of the calls on connections),
      [removed_nodes_closed], [hub_invariant],
      [topology_invariant], [stats_conserved].
    - Transactions: [multi_exec].
    - Termination and liveness: [pipe_drains] (when reads return), [route_bounded] (132
      commands), [pool_no_lost_wakeup].
    - Formats: [ParseRequest_EncodeCommand], [ParseValue_EncodeValue],
      [ParseValue_typed], [ReadValue_stream], [ScanValue_agrees], [Load_render],
      [fingerprint_detects], [HashSlot_redis].
    - Refresh: the lemma [refresh_first_answer].
    - Errors the code has: [ask_overtakes], and lemmas next to the definitions they concern
      ([exec_lost_on_close], [multi_start_panics], [qps_stale], [unsubscribe_shared],
      [pattern_message_twice], [mset_odd_panics], [close_drops_requests],
      [silent_node_hangs_stop], ...).

    ** Bounds and fuel

    Integers have their Go width ([wrap64], [wrapu64]).  Recursions that are not
    structural take fuel: parsers take a bound computed from the length of the buffer
    ([value_fuel]), loops over a buffer take its length, redirections take the code's own
    limit; the outcome [NoFuel] is excluded by theorems ([ReadValue_progress],
    [ParseRequest_progress], [duration_terms_fuel], [ExecPipeline_total]) or kept for a Go
    loop that does not end ([slot_field]).  Theorems on encodings assume lengths that fit
    the runtime's address space, [engine_invariant] fewer than 2^64 clients.

    ** Assumptions

    Code outside the repository is a parameter.  gnet: callbacks of an event loop run one
    at a time, closing a connection runs its close callback, a write to an open connection
    is delivered in order, [dial_error] and [register_ok] say what dialing gives, and
    accepted connections have the listener's address, dialled ones have not ([gnet_addrs]).  The
    Unicode tables ([GoUnicode]) and [path/filepath.Match] ([GoGlob]) are classes.  The
    nodes of the cluster are the class [Nodes] ([OrderedNodes] where replies are compared
    with requests; their calls may fail and panic).  A blocking connection is what its
    reader will still deliver and how much it will accept; that a read or write of a
    pipelined connection, which has no deadline, does not return at all is a step of its own
    ([stall_read], [stall_early]).  Time, memory and CPU figures are arguments, and so is what the
    process finds: files, the listener, the signals it is sent ([environment]), and which of the states it
    can reach by serving ([serve_reach]) it is in when a signal comes.

    ** Not modelled

    gnet and ants themselves, the profiling listener, the log adapter [warnLogger], the
    attributes of log records other than the topology's: input and output without state of
    the program's own.  Accessors that return a field ([Router.Topo], [Server.Router] and
    the like) have no definition of their own.  Contexts never expire in the router, as
    the proxy calls it.  What the hub writes to its clients is a list of the hub's own
    ([hub_out]): how messages interleave with the replies to the same client is left out.  In
    [Service] a request gets its pipelined pool and sends in one step, and a pool that was
    removed is followed no further (for a send after the removal see
    [send_after_close_panics]).  Buffer reuse ([sync.Pool]) is left out: buffers are values.

    ** This file

    Notations, tactics, hint databases and the lemmas on bytes, machine integers, outcomes
    and lists that the components share. *)

From Stdlib Require Export ZArith Lia Strings.Byte Strings.String.
From stdpp Require Export base tactics option list gmap.

#[global] Set Default Goal Selector "!".
Open Scope Z_scope.

(** ** Bytes

    A Go [[]byte] and a Go [string] are both byte sequences; one type serves
    both.  [bs] turns a literal into its bytes. *)

Abbreviation bytes := (list byte).

Definition bs (s : string) : bytes := list_byte_of_string s.

Definition CR : byte := x0d.
Definition LF : byte := x0a.
Definition CRLF : bytes := [CR; LF].

Definition zb (b : byte) : Z := Z.of_N (Byte.to_N b).

#[global] Instance byte_eq_decision : EqDecision byte := Byte.byte_eq_dec.

#[global] Program Instance byte_countable : Countable byte :=
  inj_countable Byte.to_N Byte.of_N _.
Next Obligation. intros b. apply Byte.of_to_N. Qed.

Declare Scope go_scope.
Delimit Scope go_scope with go.
Notation "a =b b" := (Byte.eqb a b) (at level 70) : go_scope.
Notation "'len' l" := (Z.of_nat (length l)) (at level 10, l at level 9) : go_scope.
Open Scope go_scope.

Definition bytes_eqb (a b : bytes) : bool := bool_decide (a = b).

Lemma bytes_eqb_eq a b : bytes_eqb a b = true <-> a = b.
Proof. apply bool_decide_eq_true. Qed.

Lemma bytes_eqb_refl a : bytes_eqb a a = true.
Proof. by apply bytes_eqb_eq. Qed.

Lemma bytes_eqb_sym a b : bytes_eqb a b = bytes_eqb b a.
Proof. apply eq_true_iff_eq. by rewrite !bytes_eqb_eq. Qed.

Lemma byte_eqb_eq a b : (a =b b) = true <-> a = b.
Proof. split; [apply Byte.byte_dec_bl | apply Byte.byte_dec_lb]. Qed.

Lemma byte_eqb_refl a : (a =b a) = true.
Proof. by apply byte_eqb_eq. Qed.

Lemma byte_eqb_neq a b : (a =b b) = false <-> a <> b.
Proof. rewrite <- byte_eqb_eq. destruct (a =b b); naive_solver. Qed.

Lemma zb_range b : 0 <= zb b < 256.
Proof. unfold zb. pose proof (Byte.to_N_bounded b). lia. Qed.

Lemma zb_inj a b : zb a = zb b -> a = b.
Proof.
  unfold zb. intros H. apply N2Z.inj in H.
  pose proof (Byte.of_to_N a) as Ha. rewrite H, Byte.of_to_N in Ha. congruence.
Qed.

(** ** Machine integers

    Go's [int] and [int64] are 64-bit two's complement, [uint64] and [uint16]
    are unsigned; every arithmetic result is reduced to its width. *)

Definition wrap64 (z : Z) : Z := (z + 2^63) mod 2^64 - 2^63.
Definition wrapu64 (z : Z) : Z := z mod 2^64.
Definition int64_range (z : Z) : Prop := - 2^63 <= z < 2^63.

Lemma wrap64_id z : int64_range z -> wrap64 z = z.
Proof. unfold int64_range, wrap64. intros. rewrite Z.mod_small; lia. Qed.

Lemma wrap64_range z : int64_range (wrap64 z).
Proof.
  unfold int64_range, wrap64.
  pose proof (Z.mod_pos_bound (z + 2^63) (2^64)). lia.
Qed.

Lemma wrap64_mod z : wrap64 z mod 2^64 = z mod 2^64.
Proof.
  unfold wrap64. rewrite Zminus_mod, Zmod_mod, <- Zminus_mod.
  by replace (z + 2^63 - 2^63) with z by lia.
Qed.

Lemma wrap64_cong a b : a mod 2^64 = b mod 2^64 -> wrap64 a = wrap64 b.
Proof.
  unfold wrap64. intros H. rewrite Zplus_mod, H, <- Zplus_mod. done.
Qed.

Lemma wrap64_wrap z : wrap64 (wrap64 z) = wrap64 z.
Proof. apply wrap64_cong, wrap64_mod. Qed.

Lemma wrap64_add_l a b : wrap64 (wrap64 a + b) = wrap64 (a + b).
Proof. apply wrap64_cong. by rewrite Zplus_mod, wrap64_mod, <- Zplus_mod. Qed.

Lemma wrap64_add_r a b : wrap64 (a + wrap64 b) = wrap64 (a + b).
Proof. rewrite Z.add_comm, wrap64_add_l. f_equal. lia. Qed.

Lemma wrap64_mul_l a b : wrap64 (wrap64 a * b) = wrap64 (a * b).
Proof. apply wrap64_cong. by rewrite Zmult_mod, wrap64_mod, <- Zmult_mod. Qed.

Lemma wrap64_opp a : wrap64 (- wrap64 a) = wrap64 (- a).
Proof.
  replace (- wrap64 a) with (wrap64 a * -1) by lia.
  rewrite wrap64_mul_l. f_equal. lia.
Qed.

Lemma wrapu64_id z : 0 <= z < 2^64 -> wrapu64 z = z.
Proof. apply Z.mod_small. Qed.

Lemma wrapu64_range z : 0 <= wrapu64 z < 2^64.
Proof. apply Z.mod_pos_bound. lia. Qed.

Create Rewrite HintDb wrap.
#[global] Hint Rewrite wrap64_add_l wrap64_add_r wrap64_mul_l wrap64_opp wrap64_wrap : wrap.
#[global] Opaque wrap64 wrapu64.

(** ** Outcomes of Go code

    A call returns a value, returns an error, or panics (an index or slice out
    of range, an allocation of an impossible size).  [NoFuel] is the outcome of
    a model whose fuel ran out; it is not a behaviour of the program, and the
    theorems exclude it. *)

Inductive goerror :=
| errIncomplete
| ErrInvalidProtocol
| EOF
| ErrUnexpectedEOF
| Errorf (msg : bytes).

#[global] Instance goerror_eq_decision : EqDecision goerror.
Proof. solve_decision. Defined.

(** [err.Error()] *)
Definition err_msg (e : goerror) : bytes :=
  match e with
  | errIncomplete => bs "incomplete"
  | ErrInvalidProtocol => bs "invalid RESP protocol"
  | EOF => bs "EOF"
  | ErrUnexpectedEOF => bs "unexpected EOF"
  | Errorf m => m
  end.

Inductive outcome (A : Type) :=
| Ok (a : A)
| Err (e : goerror)
| Panic
| NoFuel.
Arguments Ok {A} a.
Arguments Err {A} e.
Arguments Panic {A}.
Arguments NoFuel {A}.

#[global] Instance outcome_ret : MRet outcome := fun A a => Ok a.
#[global] Instance outcome_bind : MBind outcome := fun A B f c =>
  match c with
  | Ok a => f a
  | Err e => Err e
  | Panic => Panic
  | NoFuel => NoFuel
  end.

Lemma outcome_bind_Ok {A B} (a : A) (f : A -> outcome B) : (Ok a ≫= f) = f a.
Proof. done. Qed.

Lemma outcome_bind_Err {A B} e (f : A -> outcome B) : (Err e ≫= f) = Err e.
Proof. done. Qed.

Lemma outcome_bind_Panic {A B} (f : A -> outcome B) : (Panic ≫= f) = Panic.
Proof. done. Qed.

Lemma outcome_bind_NoFuel {A B} (f : A -> outcome B) : (NoFuel ≫= f) = NoFuel.
Proof. done. Qed.

Create Rewrite HintDb gobind.
#[global] Hint Rewrite @outcome_bind_Ok @outcome_bind_Err @outcome_bind_Panic
  @outcome_bind_NoFuel : gobind.

Lemma outcome_bind_inv {A B} (c : outcome A) (f : A -> outcome B) b :
  c ≫= f = Ok b -> exists a, c = Ok a /\ f a = Ok b.
Proof. destruct c; try done. eauto. Qed.

(** Go's [makeslice]: the length must be non-negative and the allocation must
    fit the 48-bit heap address space of the 64-bit runtime. *)
Definition makeslice (elem_size n : Z) : outcome unit :=
  if (0 <=? n) && (elem_size * n <=? 2^48) then Ok tt else Panic.

Lemma makeslice_ok elem_size n :
  0 <= n -> elem_size * n <= 2^48 -> makeslice elem_size n = Ok tt.
Proof.
  intros. unfold makeslice.
  rewrite (proj2 (Z.leb_le 0 n)), (proj2 (Z.leb_le _ _)) by lia. done.
Qed.

(** The slice expression [buf[i:j]] of a buffer whose capacity is its length. *)
Definition slice (buf : bytes) (i j : Z) : outcome bytes :=
  if (0 <=? i) && (i <=? j) && (j <=? len buf)
  then Ok (take (Z.to_nat (j - i)) (drop (Z.to_nat i) buf))
  else Panic.

Lemma slice_ok buf i j :
  0 <= i <= j -> j <= len buf ->
  slice buf i j = Ok (take (Z.to_nat (j - i)) (drop (Z.to_nat i) buf)).
Proof.
  intros. unfold slice.
  rewrite (proj2 (Z.leb_le 0 i)), (proj2 (Z.leb_le i j)), (proj2 (Z.leb_le _ _)) by lia.
  done.
Qed.

(** ** Lists *)

Section lists.
Context {A : Type}.
Implicit Types (l k : list A).

Lemma take_length_app l k : take (length l) (l ++ k) = l.
Proof. by rewrite take_app_length. Qed.

Lemma drop_length_app l k : drop (length l) (l ++ k) = k.
Proof. by rewrite drop_app_length. Qed.

Lemma last_snoc_inv l x : last l = Some x -> exists l', l = l' ++ [x].
Proof. destruct l as [|y l'] using rev_ind; [done|]. rewrite last_snoc. naive_solver. Qed.

Lemma prefix_cases l k m :
  l `prefix_of` k ++ m -> (l `prefix_of` k /\ l <> k) \/ exists l', l = k ++ l' /\ l' `prefix_of` m.
Proof.
  revert l. induction k as [|x k IH]; intros l H.
  { right. exists l. done. }
  destruct l as [|y l].
  { left. split; [apply prefix_nil | done]. }
  simpl in H. apply prefix_cons_inv_1 in H as Hy. apply prefix_cons_inv_2 in H. subst y.
  destruct (IH l H) as [[? ?]|(l' & -> & ?)].
  - left. split; [by apply prefix_cons | congruence].
  - right. exists l'. done.
Qed.

End lists.

Lemma concat_perm {A} (l k : list (list A)) : l ≡ₚ k -> concat l ≡ₚ concat k.
Proof.
  induction 1; cbn; [done|by f_equiv| |by etrans]. rewrite !app_assoc. f_equiv. apply Permutation_app_comm.
Qed.

Lemma imap_pair_fst {A} (l : list A) : (imap pair l).*1 = seq 0 (length l).
Proof.
  apply list_eq. intros i. rewrite list_lookup_fmap, list_lookup_imap.
  destruct (l !! i) eqn:E.
  - apply lookup_lt_Some in E. by rewrite lookup_seq_lt.
  - apply lookup_ge_None in E. by rewrite lookup_seq_ge.
Qed.

(** ** Tactics

    [go_simp] runs the outcome monad on values that are already known;
    [case_bool] splits on the boolean test a model branches on and turns it
    into arithmetic. *)

Ltac go_simp := autorewrite with gobind; cbv beta iota.
Ltac go_simp_in H := autorewrite with gobind in H; cbv beta iota in H.
Ltac go_simp_all := autorewrite with gobind in *; cbv beta iota in *.

Ltac bool_arith :=
  repeat match goal with
  | H : (_ && _) = true |- _ => apply andb_true_iff in H as [??]
  | H : (_ || _) = false |- _ => apply orb_false_iff in H as [??]
  | H : negb _ = true |- _ => apply negb_true_iff in H
  | H : negb _ = false |- _ => apply negb_false_iff in H
  | H : (_ <=? _)%Z = true |- _ => apply Z.leb_le in H
  | H : (_ <=? _)%Z = false |- _ => apply Z.leb_gt in H
  | H : (_ <? _)%Z = true |- _ => apply Z.ltb_lt in H
  | H : (_ <? _)%Z = false |- _ => apply Z.ltb_ge in H
  | H : (_ =? _)%Z = true |- _ => apply Z.eqb_eq in H
  | H : (_ =? _)%Z = false |- _ => apply Z.eqb_neq in H
  | H : (_ =b _) = true |- _ => apply byte_eqb_eq in H
  | H : (_ =b _) = false |- _ => apply byte_eqb_neq in H
  end.

Ltac case_bool :=
  match goal with
  | |- context [if ?b then _ else _] =>
      lazymatch b with context [if _ then _ else _] => fail | _ => idtac end;
      let E := fresh "E" in destruct b eqn:E; bool_arith
  end.

Ltac case_bool_in H :=
  match type of H with
  | context [if ?b then _ else _] =>
      let E := fresh "E" in destruct b eqn:E; bool_arith
  end.

Create HintDb go.
#[global] Hint Resolve byte_eqb_refl bytes_eqb_refl zb_range wrap64_range : go.
