(* ===== verification/GoStd.v ===== *)
(** * GoStd: the part of Go's standard library the proxy uses

    Models of the functions of [bytes], [strings] and [strconv] that the
    sources call, on byte sequences: searching, prefixes, splitting, white
    space, ASCII case, decimal integers.  The lemmas are the facts the
    components share: where a line ends, and that a decimal integer printed by
    [strconv.FormatInt] is read back. *)

From S2P Require Import Prelude.

(** ** Searching *)

(** [bytes.IndexByte]; [None] stands for -1. *)
Fixpoint IndexByte (l : bytes) (c : byte) : option nat :=
  match l with
  | [] => None
  | x :: l' => if x =b c then Some 0%nat else S <$> IndexByte l' c
  end.

Fixpoint HasPrefix (l p : bytes) {struct p} : bool :=
  match p, l with
  | [], _ => true
  | y :: p', x :: l' => (x =b y) && HasPrefix l' p'
  | _ :: _, [] => false
  end.

Definition HasSuffix (l p : bytes) : bool := HasPrefix (rev l) (rev p).

Definition TrimSuffix (l p : bytes) : bytes :=
  if HasSuffix l p then take (length l - length p) l else l.

(** [strings.Split(s, sep)] for a one-byte separator. *)
Fixpoint SplitByte (l : bytes) (c : byte) : list bytes :=
  match l with
  | [] => [[]]
  | x :: l' =>
      if x =b c then [] :: SplitByte l' c
      else match SplitByte l' c with
           | [] => [[x]]
           | p :: ps => (x :: p) :: ps
           end
  end.

(** [strings.SplitN(s, sep, n)] for a one-byte separator and [n > 0]. *)
Fixpoint SplitN (l : bytes) (c : byte) (n : nat) : list bytes :=
  match n with
  | O => []
  | S O => [l]
  | S n' =>
      match IndexByte l c with
      | None => [l]
      | Some i => take i l :: SplitN (drop (S i) l) c n'
      end
  end.

(** [bytes.TrimRight(l, cutset)]. *)
Fixpoint trim_left_set (l cutset : bytes) : bytes :=
  match l with
  | x :: l' => if existsb (Byte.eqb x) cutset then trim_left_set l' cutset else l
  | [] => []
  end.
Definition TrimRight (l cutset : bytes) : bytes := rev (trim_left_set (rev l) cutset).

(** ** White space

    [unicode.IsSpace] over UTF-8 text.  The white-space code points outside
    ASCII are U+0085, U+00A0, U+1680, U+2000-200A, U+2028, U+2029, U+202F,
    U+205F and U+3000; their encodings start with a byte that no continuation
    byte equals, so a byte scan finds exactly the white-space runes.
    [space_width l] is the width of the white-space rune [l] starts with. *)

Definition ascii_space (c : byte) : bool :=
  existsb (Byte.eqb c) [x09; x0a; x0b; x0c; x0d; x20].

Definition space_width (l : bytes) : nat :=
  match l with
  | c :: l' =>
      if ascii_space c then 1%nat
      else match c, l' with
           | xc2, d :: _ => if existsb (Byte.eqb d) [x85; xa0] then 2%nat else 0%nat
           | xe1, x9a :: x80 :: _ => 3%nat
           | xe2, x80 :: d :: _ =>
               if (zb d <=? 0x8a) && (0x80 <=? zb d) || existsb (Byte.eqb d) [xa8; xa9; xaf]
               then 3%nat else 0%nat
           | xe2, x81 :: x9f :: _ => 3%nat
           | xe3, x80 :: x80 :: _ => 3%nat
           | _, _ => 0%nat
           end
  | [] => 0%nat
  end.

(** [bytes.Fields].  [skip] counts the bytes of a white-space rune that are
    still to be passed over, [cur] is the field being collected, reversed. *)
Fixpoint fields_go (l : bytes) (skip : nat) (cur : bytes) : list bytes :=
  match l with
  | [] => if cur is [] then [] else [rev cur]
  | x :: l' =>
      match skip with
      | S k => fields_go l' k []
      | O => match space_width l with
             | O => fields_go l' 0 (x :: cur)
             | S k => match cur with
                      | [] => fields_go l' k []
                      | _ => rev cur :: fields_go l' k []
                      end
             end
      end
  end.
Definition Fields (l : bytes) : list bytes := fields_go l 0 [].

(** [bytes.TrimSpace]: the text from its first to its last non-space byte. *)
Fixpoint trim_space_left (l : bytes) (skip : nat) : bytes :=
  match l with
  | [] => []
  | _ :: l' =>
      match skip with
      | S k => trim_space_left l' k
      | O => match space_width l with O => l | S k => trim_space_left l' k end
      end
  end.
Fixpoint all_space (l : bytes) (skip : nat) : bool :=
  match l with
  | [] => true
  | _ :: l' =>
      match skip with
      | S k => all_space l' k
      | O => match space_width l with O => false | S k => all_space l' k end
      end
  end.
Fixpoint trim_space_right (l : bytes) : bytes :=
  if all_space l 0 then [] else
  match l with [] => [] | x :: l' => x :: trim_space_right l' end.
Definition TrimSpace (l : bytes) : bytes := trim_space_right (trim_space_left l 0).

(** ** Case *)

Definition upper_byte (c : byte) : byte :=
  if (97 <=? zb c) && (zb c <=? 122)
  then default c (Byte.of_N (Z.to_N (zb c - 32))) else c.
Definition lower_byte (c : byte) : byte :=
  if (65 <=? zb c) && (zb c <=? 90)
  then default c (Byte.of_N (Z.to_N (zb c + 32))) else c.

Definition is_ascii (l : bytes) : bool := forallb (fun c => zb c <? 128) l.

(** [strings.ToUpper] and [strings.ToLower] map ASCII text byte by byte; for
    text with other runes they consult the Unicode tables, which are a
    parameter. *)
Class GoUnicode := {
  unicode_upper : bytes -> bytes;
  unicode_lower : bytes -> bytes;
}.

(** The tables of a text without other letters, for concrete runs. *)
Definition ascii_unicode : GoUnicode := {| unicode_upper := fun l => l; unicode_lower := fun l => l |}.

Definition ToUpper `{GoUnicode} (l : bytes) : bytes :=
  if is_ascii l then map upper_byte l else unicode_upper l.
Definition ToLower `{GoUnicode} (l : bytes) : bytes :=
  if is_ascii l then map lower_byte l else unicode_lower l.

(** [bytes.EqualFold(l, t)] for an ASCII [t].  Two runes outside ASCII fold to
    ASCII letters: U+212A (kelvin sign) to k and U+017F (long s) to s. *)
Fixpoint EqualFold (l t : bytes) : bool :=
  match t, l with
  | [], [] => true
  | c :: t', x :: l' =>
      if lower_byte x =b lower_byte c then EqualFold l' t'
      else match x, l' with
           | xe2, x84 :: xaa :: l'' => (lower_byte c =b x6b) && EqualFold l'' t'
           | xc5, xbf :: l'' => (lower_byte c =b x73) && EqualFold l'' t'
           | _, _ => false
           end
  | _, _ => false
  end.

(** Go's string order, byte by byte. *)
Fixpoint bytes_ltb (a b : bytes) : bool :=
  match a, b with
  | _, [] => false
  | [], _ :: _ => true
  | x :: a', y :: b' => if zb x <? zb y then true else if zb y <? zb x then false else bytes_ltb a' b'
  end.

(** ** Decimal integers *)

Definition is_digit (c : byte) : bool := (48 <=? zb c) && (zb c <=? 57).
Definition digit_val (c : byte) : Z := zb c - 48.
Definition digit (d : Z) : byte := default x30 (Byte.of_N (Z.to_N (48 + d))).

(** The unsigned decimal digits of [n]; 20 of them cover every 64-bit value. *)
Fixpoint fmt_digits (fuel : nat) (n : Z) (acc : bytes) : bytes :=
  match fuel with
  | O => acc
  | S f =>
      let acc' := digit (n mod 10) :: acc in
      if n <? 10 then acc' else fmt_digits f (n / 10) acc'
  end.

(** [strconv.FormatInt(n, 10)], [strconv.Itoa], [%d]; [FormatUint] on [n >= 0]. *)
Definition FormatInt (n : Z) : bytes :=
  if n <? 0 then x2d :: fmt_digits 20 (- n) [] else fmt_digits 20 n [].

Fixpoint dec_value (acc : Z) (l : bytes) : Z :=
  match l with [] => acc | c :: l' => dec_value (acc * 10 + digit_val c) l' end.

(** [strconv.ParseUint(s, 10, 64)]: digits only, [None] on a syntax or range error. *)
Definition ParseUint (l : bytes) : option Z :=
  if (0 <? len l) && forallb is_digit l && (dec_value 0 l <? 2^64)
  then Some (dec_value 0 l) else None.

(** [strconv.ParseInt(s, 10, 64)] and [strconv.Atoi]: an optional sign, digits. *)
Definition Atoi (l : bytes) : option Z :=
  let '(neg, ds) := match l with
                    | x2d :: l' => (true, l')
                    | x2b :: l' => (false, l')
                    | _ => (false, l)
                    end in
  if (0 <? len ds) && forallb is_digit ds then
    let v := if (neg : bool) then - dec_value 0 ds else dec_value 0 ds in
    if (- 2^63 <=? v) && (v <? 2^63) then Some v else None
  else None.

(** ** Lemmas *)

Lemma IndexByte_notin l c : c ∉ l -> IndexByte l c = None.
Proof.
  induction l as [|x l IH]; [done|]. intros H. simpl.
  rewrite (proj2 (byte_eqb_neq x c)) by set_solver. rewrite IH; [done|set_solver].
Qed.

Lemma IndexByte_app l c r : c ∉ l -> IndexByte (l ++ c :: r) c = Some (length l).
Proof.
  induction l as [|x l IH]; intros H; simpl.
  { by rewrite byte_eqb_refl. }
  rewrite (proj2 (byte_eqb_neq x c)) by set_solver. rewrite IH; [done|set_solver].
Qed.

Lemma IndexByte_Some l c i :
  IndexByte l c = Some i -> l !! i = Some c /\ (i < length l)%nat /\ c ∉ take i l.
Proof.
  revert i. induction l as [|x l IH]; intros i; simpl; [done|].
  destruct (x =b c) eqn:E; bool_arith.
  { intros [= <-]. subst. split_and!; [done|lia|set_solver]. }
  destruct (IndexByte l c) as [j|]; [|done]. intros [= <-].
  destruct (IH j eq_refl) as (H1 & H2 & H3). simpl. split_and!; [done|lia|]. apply not_elem_of_cons. split; [congruence|auto].
Qed.

Lemma IndexByte_None l c : IndexByte l c = None -> c ∉ l.
Proof.
  induction l as [|x l IH]; simpl; [set_solver|].
  destruct (x =b c) eqn:E; bool_arith; [done|].
  destruct (IndexByte l c); [done|]. intros _. apply not_elem_of_cons. split; [congruence|auto].
Qed.

Lemma SplitByte_line l c r : c ∉ l -> SplitByte (l ++ c :: r) c = l :: SplitByte r c.
Proof.
  induction l as [|x l IH]; intros Hc; cbn [app SplitByte].
  { by rewrite byte_eqb_refl. }
  apply not_elem_of_cons in Hc as [Hx Hc].
  rewrite (proj2 (byte_eqb_neq x c)), IH by (done || congruence). done.
Qed.

Lemma HasPrefix_spec l p : HasPrefix l p = true <-> exists r, l = p ++ r.
Proof.
  revert l. induction p as [|y p IH]; intros l; simpl.
  { split; [|done]. intros _. by exists l. }
  destruct l as [|x l]; simpl.
  { split; [done|]. by intros [r ?]. }
  rewrite andb_true_iff, byte_eqb_eq, IH. split.
  - intros [-> [r ->]]. by exists r.
  - intros [r [= -> ->]]. eauto.
Qed.

Lemma zb_digit d : 0 <= d <= 9 -> zb (digit d) = 48 + d.
Proof.
  intros. unfold digit.
  assert (d = 0 \/ d = 1 \/ d = 2 \/ d = 3 \/ d = 4 \/ d = 5 \/ d = 6 \/ d = 7 \/ d = 8 \/ d = 9)
    as Hd by lia.
  repeat destruct Hd as [->|Hd]; try done. subst. done.
Qed.

Lemma digit_val_digit d : 0 <= d <= 9 -> digit_val (digit d) = d.
Proof. intros. unfold digit_val. rewrite zb_digit by done. lia. Qed.

Lemma is_digit_digit d : 0 <= d <= 9 -> is_digit (digit d) = true.
Proof.
  intros. unfold is_digit. rewrite zb_digit by done.
  apply andb_true_iff. split; apply Z.leb_le; lia.
Qed.

Lemma is_digit_neq c b : is_digit c = true -> is_digit b = false -> c <> b.
Proof. intros ? ? ->. congruence. Qed.

Lemma mod10_digit n : 0 <= n mod 10 <= 9.
Proof. pose proof (Z.mod_pos_bound n 10). lia. Qed.

Lemma fmt_digits_app fuel n acc : fmt_digits fuel n acc = fmt_digits fuel n [] ++ acc.
Proof.
  revert n acc. induction fuel as [|f IH]; intros n acc; [done|]. simpl.
  case_bool; [done|]. rewrite (IH _ [_]), IH, <- app_assoc. done.
Qed.

Lemma fmt_digits_digits fuel n : forallb is_digit (fmt_digits fuel n []) = true.
Proof.
  revert n. induction fuel as [|f IH]; intros n; [done|]. simpl.
  case_bool; simpl; [by rewrite is_digit_digit by apply mod10_digit|].
  rewrite fmt_digits_app, forallb_app, IH. simpl. by rewrite is_digit_digit by apply mod10_digit.
Qed.

Lemma fmt_digits_nonempty fuel n : (0 < length (fmt_digits (S fuel) n []))%nat.
Proof. simpl. case_bool; simpl; [lia|]. rewrite fmt_digits_app, length_app. simpl. lia. Qed.

Lemma fmt_digits_length fuel n : (length (fmt_digits fuel n []) <= fuel)%nat.
Proof.
  revert n. induction fuel as [|f IH]; intros n; [done|]. simpl.
  case_bool; simpl; [lia|]. rewrite fmt_digits_app, length_app. simpl.
  specialize (IH (n / 10)). lia.
Qed.

Lemma dec_value_app l a b : dec_value a (l ++ [b]) = dec_value a l * 10 + digit_val b.
Proof. revert a. induction l as [|x l IH]; intros a; simpl; [done|]. apply IH. Qed.

Lemma dec_value_fmt fuel n :
  0 <= n < 10 ^ Z.of_nat fuel -> dec_value 0 (fmt_digits fuel n []) = n.
Proof.
  revert n. induction fuel as [|f IH]; intros n Hn; [change (10 ^ Z.of_nat 0) with 1 in Hn; cbn; lia|].
  cbn [fmt_digits]. case_bool.
  { cbn [dec_value]. rewrite digit_val_digit by apply mod10_digit.
    rewrite Z.mod_small by lia. lia. }
  rewrite fmt_digits_app, dec_value_app, digit_val_digit by apply mod10_digit.
  rewrite IH; [pose proof (Z.div_mod n 10 ltac:(lia)); lia|].
  rewrite Nat2Z.inj_succ, Z.pow_succ_r in Hn by lia.
  split; [apply Z.div_pos; lia|]. apply Z.div_lt_upper_bound; lia.
Qed.

Lemma FormatInt_no_LF n : LF ∉ FormatInt n.
Proof.
  assert (forall l, forallb is_digit l = true -> LF ∉ l) as Hd.
  { intros l Hl Hin. rewrite forallb_forall in Hl.
    apply list_elem_of_In, Hl in Hin. done. }
  unfold FormatInt. case_bool.
  - intros Hin. apply elem_of_cons in Hin as [Hin|Hin]; [done|].
    by apply (Hd _ (fmt_digits_digits 20 (- n))).
  - apply Hd, fmt_digits_digits.
Qed.

Lemma FormatInt_length n : (0 < length (FormatInt n) <= 21)%nat.
Proof.
  unfold FormatInt.
  pose proof (fmt_digits_nonempty 19 n). pose proof (fmt_digits_length 20 n).
  pose proof (fmt_digits_length 20 (- n)).
  case_bool; cbn [length]; lia.
Qed.

Lemma map_upper_length l : length (map upper_byte l) = length l.
Proof. apply length_map. Qed.

Lemma Atoi_FormatInt n : int64_range n -> Atoi (FormatInt n) = Some n.
Proof.
  intros Hn. unfold int64_range in Hn.
  assert (Hd : forall m, 0 <= m <= 2^63 ->
    let ds := fmt_digits 20 m [] in
    0 < len ds /\ forallb is_digit ds = true /\ dec_value 0 ds = m).
  { intros m Hm. split; [pose proof (fmt_digits_nonempty 19 m); lia|]. split; [apply fmt_digits_digits|].
    apply dec_value_fmt. change (10 ^ Z.of_nat 20) with (10^20). lia. }
  unfold FormatInt. case_bool.
  - destruct (Hd (- n)) as (Hl & Hf & Hv); [lia|]. unfold Atoi. cbv beta iota zeta.
    rewrite Hf, Hv, (proj2 (Z.ltb_lt _ _)) by done. cbn [andb].
    rewrite Z.opp_involutive, (proj2 (Z.leb_le _ _)), (proj2 (Z.ltb_lt _ _)) by lia. done.
  - destruct (Hd n) as (Hl & Hf & Hv); [lia|]. unfold Atoi.
    destruct (fmt_digits 20 n []) as [|c l]; [done|].
    assert (Hc : is_digit c = true) by (cbn [forallb] in Hf; by bool_arith).
    replace (match c :: l with x2d :: l' => (true, l') | x2b :: l' => (false, l') | _ => (false, c :: l) end)
      with (false, c :: l) by (by destruct c).
    rewrite Hf, Hv, (proj2 (Z.ltb_lt _ _)) by done. cbn [andb].
    rewrite (proj2 (Z.leb_le _ _)), (proj2 (Z.ltb_lt _ _)) by lia. done.
Qed.

#[global] Hint Resolve FormatInt_no_LF FormatInt_length : go.
