(* ===== verification/GoTime.v ===== *)
(** * GoTime: durations and 64-bit floating point

    Models of [time.ParseDuration], of the [float64] operations the sources use and of
    the format [%.nf].  A [float64] is a binary64 value of the specification
    [Stdlib.Floats.SpecFloat] (53 bits of precision, exponents below 1024), whose
    operations round to nearest even, as Go's do.  A duration is a number of nanoseconds
    in 64 bits. *)

From Stdlib Require Import Floats.SpecFloat.
From S2P Require Import Prelude GoStd.

(** ** [float64] *)

Definition float64 := spec_float.

Definition f64_of_Z (n : Z) : float64 := binary_normalize 53 1024 n 0 false.
Definition f64_mul : float64 -> float64 -> float64 := SFmul 53 1024.
Definition f64_div : float64 -> float64 -> float64 := SFdiv 53 1024.
Definition f64_add : float64 -> float64 -> float64 := SFadd 53 1024.
Definition f64_sub : float64 -> float64 -> float64 := SFsub 53 1024.
Definition f64_ltb : float64 -> float64 -> bool := SFltb.

(** The conversion of a finite value to an integer drops the fraction. *)
Definition f64_trunc (x : float64) : Z :=
  match x with
  | S754_finite s m e =>
      let v := if 0 <=? e then Z.pos m * 2 ^ e else Z.pos m / 2 ^ (- e) in
      if s then - v else v
  | _ => 0
  end.

(** The integer nearest to [num / den], ties to even. *)
Definition round_even (num den : Z) : Z :=
  let q := num / den in
  let r := num mod den in
  if 2 * r <? den then q else if den <? 2 * r then q + 1 else if Z.even q then q else q + 1.

(** [%.nf]: the exact decimal value, rounded to [n] digits after the point; 330 digits
    before it are enough for every [float64]. *)
Definition format_fixed (n : nat) (x : float64) : bytes :=
  let digits (m : positive) (e : Z) :=
    let scaled := Z.pos m * 10 ^ Z.of_nat n in
    let v := if 0 <=? e then scaled * 2 ^ e else round_even scaled (2 ^ (- e)) in
    let frac := FormatInt (v mod 10 ^ Z.of_nat n) in
    fmt_digits 330 (v / 10 ^ Z.of_nat n) [] ++ bs "." ++ replicate (n - length frac) x30 ++ frac in
  let sign (s : bool) := if s then bs "-" else [] in
  match x with
  | S754_zero s => sign s ++ bs "0." ++ replicate n x30
  | S754_infinity s => (if s then bs "-" else bs "+") ++ bs "Inf"
  | S754_nan => bs "NaN"
  | S754_finite s m e => sign s ++ digits m e
  end.

(** ** [time.ParseDuration]

    [None] stands for the error, whose text only reaches the log. *)

Definition Second : Z := 1000000000.

Definition unitMap (u : bytes) : option Z :=
  if bytes_eqb u (bs "ns") then Some 1
  else if bytes_eqb u (bs "us") || bytes_eqb u [xc2; xb5; x73] || bytes_eqb u [xce; xbc; x73]
       then Some 1000
  else if bytes_eqb u (bs "ms") then Some 1000000
  else if bytes_eqb u (bs "s") then Some Second
  else if bytes_eqb u (bs "m") then Some (60 * Second)
  else if bytes_eqb u (bs "h") then Some (3600 * Second)
  else None.

(** The leading digits as a number of at most 2^63, and the rest of the text. *)
Fixpoint leadingInt (x : Z) (s : bytes) : option (Z * bytes) :=
  match s with
  | c :: s' =>
      if is_digit c then
        if 2^63 / 10 <? x then None
        else let x := x * 10 + digit_val c in
             if 2^63 <? x then None else leadingInt x s'
      else Some (x, s)
  | [] => Some (x, [])
  end.

(** The digits after the point: their value, its scale, and the rest of the text; the
    digits that would overflow are dropped. *)
Fixpoint leadingFraction (x : Z) (scale : float64) (overflow : bool) (s : bytes) : Z * float64 * bytes :=
  match s with
  | c :: s' =>
      if is_digit c then
        if overflow then leadingFraction x scale true s'
        else if (2^63 - 1) / 10 <? x then leadingFraction x scale true s'
        else let y := x * 10 + digit_val c in
             if 2^63 <? y then leadingFraction x scale true s'
             else leadingFraction y (f64_mul scale (f64_of_Z 10)) false s'
      else (x, scale, s)
  | [] => (x, scale, [])
  end.

Definition num_byte (c : byte) : bool := (c =b x2e) || is_digit c.

(** The unit that follows a number, up to the next number. *)
Fixpoint take_unit (s : bytes) : bytes * bytes :=
  match s with
  | c :: s' => if num_byte c then ([], s) else let '(u, r) := take_unit s' in (c :: u, r)
  | [] => ([], [])
  end.

(** One number with its unit: nanoseconds and the rest of the text. *)
Definition duration_term (s : bytes) : option (Z * bytes) :=
  match s with
  | c :: _ =>
      if negb (num_byte c) then None else
      '(v, s1) ← leadingInt 0 s;
      let pre := negb (len s =? len s1) in
      let '(f, scale, s2, post) :=
        match s1 with
        | x2e :: s1' => let '(f, scale, s2) := leadingFraction 0 (f64_of_Z 1) false s1' in
                        (f, scale, s2, negb (len s1' =? len s2))
        | _ => (0, f64_of_Z 1, s1, false)
        end in
      if negb (pre || post) then None else
      let '(u, s3) := take_unit s2 in
      if len u =? 0 then None else
      unit ← unitMap u;
      if 2^63 / unit <? v then None else
      let v := v * unit in
      let v := if 0 <? f then wrapu64 (v + f64_trunc (f64_mul (f64_of_Z f) (f64_div (f64_of_Z unit) scale)))
               else v in
      if 2^63 <? v then None else Some (v, s3)
  | [] => None
  end.

(** Each term takes at least one byte, so the length of the text is enough fuel. *)
Fixpoint duration_terms (fuel : nat) (d : Z) (s : bytes) : option Z :=
  match s, fuel with
  | [], _ => Some d
  | _, O => None
  | _, S f =>
      '(v, s') ← duration_term s;
      let d := wrapu64 (d + v) in
      if 2^63 <? d then None else duration_terms f d s'
  end.

Definition ParseDuration (s : bytes) : option Z :=
  let '(neg, s) := match s with
                   | x2d :: s' => (true, s')
                   | x2b :: s' => (false, s')
                   | _ => (false, s)
                   end in
  if bytes_eqb s (bs "0") then Some 0
  else if len s =? 0 then None
  else d ← duration_terms (length s) 0 s;
       if (neg : bool) then Some (wrap64 (- wrap64 d))
       else if 2^63 - 1 <? d then None else Some d.

Example duration_forms :
  map ParseDuration [bs "30s"; bs "1h30m"; bs "1.5s"; bs ".5ms"; bs "-2m"; bs "0"; bs "5"; bs "3 s"; bs "0.1h"]
  = [Some (30 * Second); Some (5400 * Second); Some 1500000000; Some 500000; Some (-120 * Second);
     Some 0; None; None; Some (360 * Second)].
Proof. vm_compute. reflexivity. Qed.

Example fixed_forms :
  map (format_fixed 2) [f64_div (f64_of_Z 1) (f64_of_Z 3); f64_of_Z (-12); f64_div (f64_of_Z 1) (f64_of_Z 8)]
  = [bs "0.33"; bs "-12.00"; bs "0.12"].
Proof. vm_compute. reflexivity. Qed.

(** ** Lemmas *)

Lemma leadingInt_rest s x v r : leadingInt x s = Some (v, r) -> (length r <= length s)%nat.
Proof.
  revert x. induction s as [|c s IH]; intros x; cbn [leadingInt].
  { by intros [= _ <-]. }
  destruct (is_digit c); [|by intros [= _ <-]].
  case_bool; [done|]. case_bool; [done|]. intros ?%IH. cbn. lia.
Qed.

Lemma leadingFraction_rest s x k o v q r :
  leadingFraction x k o s = (v, q, r) -> (length r <= length s)%nat.
Proof.
  revert x k o. induction s as [|c s IH]; intros x k o; cbn [leadingFraction].
  { by intros [= _ _ <-]. }
  destruct (is_digit c); [|by intros [= _ _ <-]].
  repeat case_bool; intros ?%IH; cbn; lia.
Qed.

Lemma take_unit_app s u r : take_unit s = (u, r) -> s = u ++ r.
Proof.
  revert u r. induction s as [|c s IH]; intros u r; cbn [take_unit].
  { by intros [= <- <-]. }
  destruct (num_byte c); [by intros [= <- <-]|].
  destruct (take_unit s) as [u' r'] eqn:E. intros [= <- <-]. cbn. f_equal. by apply IH.
Qed.

(** The fuel of [duration_terms] never runs out. *)
Lemma duration_term_consumes s v r : duration_term s = Some (v, r) -> (length r < length s)%nat.
Proof.
  destruct s as [|c s]; [done|]. unfold duration_term. case_bool; [done|].
  destruct (leadingInt 0 (c :: s)) as [[v0 s1]|] eqn:EI; [|done]. cbn [mbind option_bind].
  apply leadingInt_rest in EI.
  set (fr := match s1 with x2e :: _ => _ | _ => _ end).
  assert (length fr.1.2 <= length s1)%nat as Hfr.
  { subst fr. destruct s1 as [|b s1]; [done|]. destruct b; try done.
    destruct (leadingFraction _ _ _ s1) as [[f q] s2] eqn:EF. apply leadingFraction_rest in EF. cbn. lia. }
  destruct fr as [[[f q] s2] post]. cbn in Hfr. case_bool; [done|].
  destruct (take_unit s2) as [u s3] eqn:EU. apply take_unit_app in EU as ->.
  rewrite length_app in Hfr. case_bool; [done|].
  destruct (unitMap u); [|done]. cbn [mbind option_bind]. case_bool; [done|].
  destruct (2 ^ 63 <? _); [done|]. intros [= _ <-]. cbn [length] in *. lia.
Qed.

Lemma duration_terms_fuel s d fuel :
  (length s <= fuel)%nat -> duration_terms fuel d s = duration_terms (length s) d s.
Proof.
  revert s d. induction fuel as [fuel IH] using lt_wf_ind. intros s d Hf.
  destruct s as [|c s]; [by destruct fuel|]. destruct fuel as [|fuel]; cbn [length] in *; [lia|].
  cbn [duration_terms]. destruct (duration_term (c :: s)) as [[v r]|] eqn:E; [|done].
  cbn [mbind option_bind]. apply duration_term_consumes in E. cbn [length] in E.
  case_bool; [done|]. rewrite (IH fuel), (IH (length s)) by lia. done.
Qed.

Lemma dec_value_ge ds x : 0 <= x -> forallb is_digit ds = true -> x <= dec_value x ds.
Proof.
  revert x. induction ds as [|c ds IH]; intros x Hx; cbn; [lia|]. intros [Hc Hd]%andb_true_iff.
  assert (0 <= digit_val c) by (unfold is_digit in Hc; bool_arith; unfold digit_val; lia).
  specialize (IH (x * 10 + digit_val c) ltac:(lia) Hd). lia.
Qed.

Lemma leadingInt_digits ds x r :
  0 <= x -> forallb is_digit ds = true -> dec_value x ds <= 2^63 ->
  (match r with [] => True | c :: _ => is_digit c = false end) ->
  leadingInt x (ds ++ r) = Some (dec_value x ds, r).
Proof.
  revert x. induction ds as [|c ds IH]; intros x Hx Hd Hv Hr; cbn [app leadingInt dec_value].
  { destruct r as [|c r]; [done|]. cbn. by rewrite Hr. }
  cbn [forallb] in Hd. apply andb_true_iff in Hd as [Hc Hd]. rewrite Hc. cbn [dec_value] in Hv.
  assert (0 <= digit_val c) by (unfold is_digit in Hc; bool_arith; unfold digit_val; lia).
  pose proof (dec_value_ge ds (x * 10 + digit_val c) ltac:(lia) Hd).
  assert (2 ^ 63 / 10 = 922337203685477580) as E10 by done.
  rewrite (proj2 (Z.ltb_ge _ _)) by lia. cbv zeta. rewrite (proj2 (Z.ltb_ge _ _)) by lia.
  apply IH; auto with lia.
Qed.

(** A duration written in nanoseconds is read back. *)
Lemma duration_ns ds :
  forallb is_digit ds = true -> (0 < length ds)%nat -> dec_value 0 ds <= 2^63 ->
  duration_terms (length (ds ++ bs "ns")) 0 (ds ++ bs "ns") = Some (dec_value 0 ds).
Proof.
  intros Hd Hl Hv. pose proof (dec_value_ge ds 0 ltac:(lia) Hd) as Hge.
  assert (duration_term (ds ++ bs "ns") = Some (dec_value 0 ds, [])) as Ht.
  { destruct ds as [|c ds]; [cbn in Hl; lia|]. unfold duration_term. cbn [app].
    rewrite app_comm_cons, leadingInt_digits by done. cbn [mbind option_bind].
    cbn [forallb] in Hd. apply andb_true_iff in Hd as [Hc Hd].
    unfold num_byte. rewrite Hc, orb_true_r. cbn [negb].
    rewrite (proj2 (Z.eqb_neq _ _)) by (rewrite length_app; cbn; lia).
    cbn -[Z.pow Z.div dec_value unitMap]. change (unitMap _) with (Some 1). cbn -[Z.pow Z.div dec_value].
    rewrite Z.div_1_r. rewrite (proj2 (Z.ltb_ge _ _)) by lia. rewrite Z.mul_1_r.
    by rewrite (proj2 (Z.ltb_ge _ _)) by lia. }
  destruct (ds ++ bs "ns") as [|c s] eqn:E; [by destruct ds|].
  cbn [length duration_terms]. rewrite Ht. cbn [mbind option_bind].
  rewrite Z.add_0_l, wrapu64_id by (split; lia). rewrite (proj2 (Z.ltb_ge _ _)) by lia.
  by destruct (length s).
Qed.

Definition FormatNanos (n : Z) : bytes := FormatInt n ++ bs "ns".

Lemma digits_first l c r : forallb is_digit l = true -> l ++ bs "ns" = c :: r -> l <> [] -> is_digit c = true.
Proof. destruct l; [done|]. cbn. intros [??]%andb_true_iff [= <- _] _. done. Qed.

Lemma ParseDuration_FormatNanos n : int64_range n -> ParseDuration (FormatNanos n) = Some n.
Proof.
  unfold int64_range. intros Hn. unfold FormatNanos, FormatInt.
  pose proof (fmt_digits_digits 20 n) as Hd. pose proof (fmt_digits_digits 20 (- n)) as Hd'.
  pose proof (fmt_digits_nonempty 19 n) as Hl. pose proof (fmt_digits_nonempty 19 (- n)) as Hl'.
  assert (forall l, bytes_eqb (l ++ bs "ns") (bs "0") = false) as H0.
  { intros l. apply bool_decide_eq_false. intros E. apply (f_equal (@rev byte)) in E. rewrite rev_app_distr in E. done. }
  assert (forall l, (len (l ++ bs "ns") =? 0) = false) as Hlen.
  { intros l. apply Z.eqb_neq. rewrite length_app. cbn. lia. }
  destruct (n <? 0) eqn:E; bool_arith; unfold ParseDuration.
  - cbn [app]. rewrite H0, Hlen, duration_ns by (done || lia || (rewrite dec_value_fmt; lia)).
    cbn [mbind option_bind]. rewrite dec_value_fmt by lia.
    rewrite wrap64_opp. f_equal. rewrite wrap64_id by (unfold int64_range; lia). lia.
  - set (s := fmt_digits 20 n [] ++ bs "ns").
    assert (match s with x2d :: s' => (true, s') | x2b :: s' => (false, s') | _ => (false, s) end = (false, s)) as ->.
    { destruct s as [|c r] eqn:Es; [done|].
      pose proof (digits_first _ c r Hd Es ltac:(intros Hx; rewrite Hx in Hl; cbn in Hl; lia)) as Hc.
      by destruct c. }
    subst s. rewrite H0, Hlen, duration_ns by (done || lia || (rewrite dec_value_fmt; lia)).
    cbn [mbind option_bind]. rewrite dec_value_fmt by lia.
    by rewrite (proj2 (Z.ltb_ge _ _)) by lia.
Qed.

(** [Duration.Seconds] *)
Definition Seconds (d : Z) : float64 :=
  f64_add (f64_of_Z (Z.quot d Second)) (f64_div (f64_of_Z (Z.rem d Second)) (f64_of_Z Second)).
