(* ===== verification/Config.v ===== *)
(** * Config: the configuration of the proxy

    Model of [pkg/config/config.go] and of the part of [cmd/pluster/main.go] that makes
    the configuration from the flags.  A configuration file is a list of lines
    [key value] read by a [bufio.Scanner]; what the operating system gives for it is the
    argument of [Load]: the error of [os.Open], or the bytes and the error, if any, that
    ended the reading.  Errors are values of [load_error]; their texts only reach the
    log.

    [Load_render]: the text that [render_config] writes for a configuration is read back
    as this configuration. *)

From S2P Require Import Prelude GoStd GoTime.

Inductive ReadMode := ReadModeMasterOnly | ReadModeMasterSlave | ReadModeSlaveOnly.

Definition ParseReadMode (s : bytes) : ReadMode * bool :=
  if bytes_eqb s (bs "master-only") then (ReadModeMasterOnly, true)
  else if bytes_eqb s (bs "master-slave") then (ReadModeMasterSlave, true)
  else if bytes_eqb s (bs "slave-only") then (ReadModeSlaveOnly, true)
  else (ReadModeMasterOnly, false).

(** [ReadMode_] is the field [ReadMode]; durations are in nanoseconds. *)
Record Config := mkCfg {
  Bind : bytes;
  Port : Z;
  EntryPoints : list bytes;
  Username : bytes;
  Password : bytes;
  ClientPassword : bytes;
  PoolSize : Z;
  Workers : Z;
  IdleTimeout : Z;
  ReadTimeout : Z;
  RefreshInterval : Z;
  LogLevel : bytes;
  MaxRedirects : Z;
  ReadMode_ : ReadMode;
  MaxClients : Z;
}.

Definition Default : Config :=
  mkCfg (bs "0.0.0.0") 7777 [] [] [] [] 20 0 (30 * Second) (10 * Second) (5 * Second)
    (bs "info") 16 ReadModeMasterOnly 0.

Definition Addr (c : Config) : bytes := Bind c ++ bs ":" ++ FormatInt (Port c).

(** ** Assignments to one field *)

Definition set_Bind (v : bytes) (c : Config) : Config :=
  mkCfg v (Port c) (EntryPoints c) (Username c) (Password c) (ClientPassword c) (PoolSize c) (Workers c) (IdleTimeout c) (ReadTimeout c) (RefreshInterval c) (LogLevel c) (MaxRedirects c) (ReadMode_ c) (MaxClients c).
Definition set_Port (v : Z) (c : Config) : Config :=
  mkCfg (Bind c) v (EntryPoints c) (Username c) (Password c) (ClientPassword c) (PoolSize c) (Workers c) (IdleTimeout c) (ReadTimeout c) (RefreshInterval c) (LogLevel c) (MaxRedirects c) (ReadMode_ c) (MaxClients c).
Definition set_EntryPoints (v : list bytes) (c : Config) : Config :=
  mkCfg (Bind c) (Port c) v (Username c) (Password c) (ClientPassword c) (PoolSize c) (Workers c) (IdleTimeout c) (ReadTimeout c) (RefreshInterval c) (LogLevel c) (MaxRedirects c) (ReadMode_ c) (MaxClients c).
Definition set_Username (v : bytes) (c : Config) : Config :=
  mkCfg (Bind c) (Port c) (EntryPoints c) v (Password c) (ClientPassword c) (PoolSize c) (Workers c) (IdleTimeout c) (ReadTimeout c) (RefreshInterval c) (LogLevel c) (MaxRedirects c) (ReadMode_ c) (MaxClients c).
Definition set_Password (v : bytes) (c : Config) : Config :=
  mkCfg (Bind c) (Port c) (EntryPoints c) (Username c) v (ClientPassword c) (PoolSize c) (Workers c) (IdleTimeout c) (ReadTimeout c) (RefreshInterval c) (LogLevel c) (MaxRedirects c) (ReadMode_ c) (MaxClients c).
Definition set_ClientPassword (v : bytes) (c : Config) : Config :=
  mkCfg (Bind c) (Port c) (EntryPoints c) (Username c) (Password c) v (PoolSize c) (Workers c) (IdleTimeout c) (ReadTimeout c) (RefreshInterval c) (LogLevel c) (MaxRedirects c) (ReadMode_ c) (MaxClients c).
Definition set_PoolSize (v : Z) (c : Config) : Config :=
  mkCfg (Bind c) (Port c) (EntryPoints c) (Username c) (Password c) (ClientPassword c) v (Workers c) (IdleTimeout c) (ReadTimeout c) (RefreshInterval c) (LogLevel c) (MaxRedirects c) (ReadMode_ c) (MaxClients c).
Definition set_Workers (v : Z) (c : Config) : Config :=
  mkCfg (Bind c) (Port c) (EntryPoints c) (Username c) (Password c) (ClientPassword c) (PoolSize c) v (IdleTimeout c) (ReadTimeout c) (RefreshInterval c) (LogLevel c) (MaxRedirects c) (ReadMode_ c) (MaxClients c).
Definition set_IdleTimeout (v : Z) (c : Config) : Config :=
  mkCfg (Bind c) (Port c) (EntryPoints c) (Username c) (Password c) (ClientPassword c) (PoolSize c) (Workers c) v (ReadTimeout c) (RefreshInterval c) (LogLevel c) (MaxRedirects c) (ReadMode_ c) (MaxClients c).
Definition set_ReadTimeout (v : Z) (c : Config) : Config :=
  mkCfg (Bind c) (Port c) (EntryPoints c) (Username c) (Password c) (ClientPassword c) (PoolSize c) (Workers c) (IdleTimeout c) v (RefreshInterval c) (LogLevel c) (MaxRedirects c) (ReadMode_ c) (MaxClients c).
Definition set_RefreshInterval (v : Z) (c : Config) : Config :=
  mkCfg (Bind c) (Port c) (EntryPoints c) (Username c) (Password c) (ClientPassword c) (PoolSize c) (Workers c) (IdleTimeout c) (ReadTimeout c) v (LogLevel c) (MaxRedirects c) (ReadMode_ c) (MaxClients c).
Definition set_LogLevel (v : bytes) (c : Config) : Config :=
  mkCfg (Bind c) (Port c) (EntryPoints c) (Username c) (Password c) (ClientPassword c) (PoolSize c) (Workers c) (IdleTimeout c) (ReadTimeout c) (RefreshInterval c) v (MaxRedirects c) (ReadMode_ c) (MaxClients c).
Definition set_MaxRedirects (v : Z) (c : Config) : Config :=
  mkCfg (Bind c) (Port c) (EntryPoints c) (Username c) (Password c) (ClientPassword c) (PoolSize c) (Workers c) (IdleTimeout c) (ReadTimeout c) (RefreshInterval c) (LogLevel c) v (ReadMode_ c) (MaxClients c).
Definition set_ReadMode (v : ReadMode) (c : Config) : Config :=
  mkCfg (Bind c) (Port c) (EntryPoints c) (Username c) (Password c) (ClientPassword c) (PoolSize c) (Workers c) (IdleTimeout c) (ReadTimeout c) (RefreshInterval c) (LogLevel c) (MaxRedirects c) v (MaxClients c).
Definition set_MaxClients (v : Z) (c : Config) : Config :=
  mkCfg (Bind c) (Port c) (EntryPoints c) (Username c) (Password c) (ClientPassword c) (PoolSize c) (Workers c) (IdleTimeout c) (ReadTimeout c) (RefreshInterval c) (LogLevel c) (MaxRedirects c) (ReadMode_ c) v.

(** ** The configuration file *)

Inductive load_error :=
| OpenError (e : goerror)
| Invalid (setting value : bytes)
| ErrTooLong
| ScanError (e : goerror)
| NoEntryPoints.

(** [MaxScanTokenSize]: a line that fills the scanner's buffer without a line feed ends
    the scan with [bufio.ErrTooLong]. *)
Definition MaxScanTokenSize : Z := 65536.

(** The lines the scanner gives for the text between line feeds, and whether it stopped
    at a line that is too long; an empty text after the last line feed is not a line. *)
Fixpoint scan_lines (raws : list bytes) : list bytes * bool :=
  match raws with
  | [] => ([], false)
  | l :: raws' =>
      if MaxScanTokenSize <=? len l then ([], true)
      else match l, raws' with
           | [], [] => ([], false)
           | _, _ => let '(ls, long) := scan_lines raws' in (TrimSuffix l [CR] :: ls, long)
           end
  end.

Definition Scan (content : bytes) : list bytes * bool := scan_lines (SplitByte content LF).

Definition int_setting (name val : bytes) (set : Z -> Config -> Config) (c : Config) : load_error + Config :=
  match Atoi val with Some n => inr (set n c) | None => inl (Invalid name val) end.

Definition duration_setting (name val : bytes) (set : Z -> Config -> Config) (c : Config) : load_error + Config :=
  match ParseDuration val with Some d => inr (set d c) | None => inl (Invalid name val) end.

(** The [switch] over the key of a line. *)
Definition apply_setting (key val : bytes) (c : Config) : load_error + Config :=
  let key_is k := bytes_eqb key (bs k) in
  if key_is "bind"%string then inr (set_Bind val c)
  else if key_is "port"%string then int_setting (bs "port") val set_Port c
  else if key_is "cluster"%string then inr (set_EntryPoints (EntryPoints c ++ [val]) c)
  else if key_is "username"%string then inr (set_Username val c)
  else if key_is "password"%string || key_is "auth"%string then inr (set_Password val c)
  else if key_is "auth-user"%string then inr (set_Username val c)
  else if key_is "pool-size"%string || key_is "connections-pool-size"%string
       then int_setting (bs "pool-size") val set_PoolSize c
  else if key_is "idle-timeout"%string then duration_setting (bs "idle-timeout") val set_IdleTimeout c
  else if key_is "refresh-interval"%string then duration_setting (bs "refresh-interval") val set_RefreshInterval c
  else if key_is "log-level"%string then inr (set_LogLevel val c)
  else if key_is "max-redirects"%string then int_setting (bs "max-redirects") val set_MaxRedirects c
  else if key_is "read-timeout"%string then duration_setting (bs "read-timeout") val set_ReadTimeout c
  else if key_is "client-password"%string then inr (set_ClientPassword val c)
  else if key_is "read-replica"%string then
    inr (if bytes_eqb val (bs "yes") || bytes_eqb val (bs "1") || bytes_eqb val (bs "true")
         then set_ReadMode ReadModeMasterSlave c else c)
  else if key_is "read-mode"%string then
    inr (let '(m, ok) := ParseReadMode val in if ok then set_ReadMode m c else c)
  else if key_is "max-clients"%string then int_setting (bs "max-clients") val set_MaxClients c
  else if key_is "workers"%string then int_setting (bs "workers") val set_Workers c
  else inr c.

Section load.
Context `{GoUnicode}.

(** One turn of the loop of [Load]. *)
Definition load_line (text : bytes) (c : Config) : load_error + Config :=
  let line := TrimSpace text in
  if bytes_eqb line [] || HasPrefix line (bs "#") then inr c else
  match SplitN line x20 2 with
  | [k; v] => apply_setting (ToLower (TrimSpace k)) (TrimSpace v) c
  | _ => inr c
  end.

Fixpoint load_lines (lines : list bytes) (c : Config) : load_error + Config :=
  match lines with
  | [] => inr c
  | l :: ls => match load_line l c with inl e => inl e | inr c => load_lines ls c end
  end.

Definition Load (file : goerror + (bytes * option goerror)) : load_error + Config :=
  match file with
  | inl e => inl (OpenError e)
  | inr (content, rerr) =>
      let '(lines, long) := Scan content in
      match load_lines lines Default with
      | inl e => inl e
      | inr c =>
          if long then inl ErrTooLong
          else match rerr with
               | Some e => inl (ScanError e)
               | None => if bool_decide (EntryPoints c = []) then inl NoEntryPoints else inr c
               end
      end
  end.

End load.

(** ** Configuration from the arguments *)

Definition WithPort (port : Z) : Config -> Config := set_Port port.
Definition WithPassword (username password : bytes) (c : Config) : Config :=
  set_Password password (set_Username username c).
Definition WithClientPassword (password : bytes) : Config -> Config := set_ClientPassword password.
Definition WithPoolSize (n : Z) : Config -> Config := set_PoolSize n.
Definition WithReadMode (m : ReadMode) : Config -> Config := set_ReadMode m.

Definition FromArgs (entryPoints : list bytes) (opts : list (Config -> Config)) : Config :=
  foldl (fun c o => o c) (set_EntryPoints entryPoints Default) opts.

(** The values of the flags after [flag.Parse] (their defaults are those of
    [default_flags]), the names that were set, and the remaining arguments. *)
Record flags := mkFlags {
  flagPort : Z;
  flagBind : bytes;
  flagPassword : bytes;
  flagUsername : bytes;
  flagPoolSize : Z;
  flagConfig : bytes;
  flagLogLevel : bytes;
  flagVersion : bool;
  flagPprof : bytes;
  visited : list bytes;
  Args_ : list bytes;
}.

Definition default_flags : flags :=
  mkFlags 7777 (bs "0.0.0.0") [] [] 10 [] (bs "info") false [] [] [].

(** The function [flag.Visit] calls for a flag that was set. *)
Definition override_one (f : flags) (c : Config) (name : bytes) : Config :=
  if bytes_eqb name (bs "port") then set_Port (flagPort f) c
  else if bytes_eqb name (bs "bind") then set_Bind (flagBind f) c
  else if bytes_eqb name (bs "auth") then set_Password (flagPassword f) c
  else if bytes_eqb name (bs "auth-user") then set_Username (flagUsername f) c
  else if bytes_eqb name (bs "pool-size") then set_PoolSize (flagPoolSize f) c
  else if bytes_eqb name (bs "log-level") then set_LogLevel (flagLogLevel f) c
  else c.

Definition overrideFromFlags (f : flags) (c : Config) : Config := foldl (override_one f) c (visited f).

(** How [main] gets its configuration, or the status it exits with. *)
Inductive start := Exit (status : Z) | Run (c : Config).

Definition main_config `{GoUnicode} (f : flags) (open : bytes -> goerror + (bytes * option goerror)) : start :=
  if flagVersion f then Exit 0
  else if negb (bytes_eqb (flagConfig f) []) then
    match Load (open (flagConfig f)) with
    | inl _ => Exit 1
    | inr c => Run (overrideFromFlags f c)
    end
  else match Args_ f with
       | [] => Exit 1
       | eps =>
           let c := FromArgs eps [WithPort (flagPort f); WithPassword (flagUsername f) (flagPassword f);
                                  WithPoolSize (flagPoolSize f)] in
           Run (set_LogLevel (flagLogLevel f) (set_Bind (flagBind f) c))
       end.

Inductive Level := LevelDebug | LevelInfo | LevelWarn | LevelError.

Definition initLogger `{GoUnicode} (level : bytes) : Level :=
  let l := ToLower level in
  if bytes_eqb l (bs "debug") then LevelDebug
  else if bytes_eqb l (bs "warn") || bytes_eqb l (bs "warning") then LevelWarn
  else if bytes_eqb l (bs "error") then LevelError
  else LevelInfo.

(** ** Round trip

    The text of a configuration: a line per field that is set. *)

Definition read_mode_text (m : ReadMode) : bytes :=
  match m with
  | ReadModeMasterOnly => bs "master-only"
  | ReadModeMasterSlave => bs "master-slave"
  | ReadModeSlaveOnly => bs "slave-only"
  end.

Definition optional (key : bytes) (v : bytes) : list (bytes * bytes) :=
  match v with [] => [] | _ => [(key, v)] end.

Definition settings (c : Config) : list (bytes * bytes) :=
  [(bs "bind", Bind c); (bs "port", FormatInt (Port c))]
  ++ map (pair (bs "cluster")) (EntryPoints c)
  ++ optional (bs "username") (Username c)
  ++ optional (bs "password") (Password c)
  ++ optional (bs "client-password") (ClientPassword c)
  ++ [(bs "pool-size", FormatInt (PoolSize c)); (bs "workers", FormatInt (Workers c));
      (bs "idle-timeout", FormatNanos (IdleTimeout c)); (bs "read-timeout", FormatNanos (ReadTimeout c));
      (bs "refresh-interval", FormatNanos (RefreshInterval c)); (bs "log-level", LogLevel c);
      (bs "max-redirects", FormatInt (MaxRedirects c)); (bs "read-mode", read_mode_text (ReadMode_ c));
      (bs "max-clients", FormatInt (MaxClients c))].

Definition setting_line (kv : bytes * bytes) : bytes := kv.1 ++ x20 :: kv.2.

Definition render_config (c : Config) : bytes :=
  concat (map (fun kv => setting_line kv ++ [LF]) (settings c)).

(** A value that a line can carry: not empty, no line feed, no white space around it. *)
Definition plain (v : bytes) : Prop :=
  v <> [] /\ (LF ∉ v) /\ TrimSpace v = v /\ (len v <= 65000).

Definition plain_or_empty (v : bytes) : Prop := v = [] \/ plain v.

Definition config_ok (c : Config) : Prop :=
  plain (Bind c) /\ plain (LogLevel c) /\ EntryPoints c <> [] /\ Forall plain (EntryPoints c) /\
  Forall plain_or_empty [Username c; Password c; ClientPassword c] /\
  Forall int64_range [Port c; PoolSize c; Workers c; IdleTimeout c; ReadTimeout c; RefreshInterval c;
                      MaxRedirects c; MaxClients c].

(** *** White space *)

Lemma trim_space_left_suffix l k : exists p, l = p ++ trim_space_left l k.
Proof.
  revert k. induction l as [|x l IH]; intros k; [by exists []|]. cbn [trim_space_left].
  destruct k as [|k].
  - destruct (space_width (x :: l)) as [|k]; [by exists []|]. destruct (IH k) as [p E].
    exists (x :: p). cbn. by f_equal.
  - destruct (IH k) as [p E]. exists (x :: p). cbn. by f_equal.
Qed.

Lemma trim_space_right_length l : (length (trim_space_right l) <= length l)%nat.
Proof. induction l as [|x l IH]; [done|]. cbn [trim_space_right]. destruct (all_space _ _); cbn; lia. Qed.

Lemma trim_space_right_snoc l c :
  ascii_space c = true -> (length (trim_space_right (l ++ [c])) <= length l)%nat.
Proof.
  intros Hc. induction l as [|x l IH].
  - cbn [app trim_space_right all_space space_width]. rewrite Hc. cbn. lia.
  - cbn [app trim_space_right]. destruct (all_space _ _); cbn; [lia|]. by apply le_n_S.
Qed.

Lemma TrimSpace_id l : TrimSpace l = l -> trim_space_left l 0 = l /\ trim_space_right l = l.
Proof.
  unfold TrimSpace. intros E. destruct (trim_space_left_suffix l 0) as [p Ep].
  assert (p = []) as ->.
  { pose proof (trim_space_right_length (trim_space_left l 0)) as Hl. rewrite E in Hl.
    apply (f_equal length) in Ep. rewrite length_app in Ep.
    apply length_zero_iff_nil. lia. }
  cbn in Ep. rewrite <- Ep in *. done.
Qed.

Lemma trim_right_not_space l : l <> [] -> trim_space_right l = l -> all_space l 0 = false.
Proof. destruct l as [|x l]; [done|]. intros _. cbn [trim_space_right]. by destruct (all_space _ _). Qed.

(** The bytes of the keys and the blank after them. *)
Definition key_byte (c : byte) : bool := ((97 <=? zb c) && (zb c <=? 122)) || (c =b x2d) || (c =b x20).

Lemma all_space_key c l : key_byte c = true -> all_space l 0 = false -> all_space (c :: l) 0 = false.
Proof. destruct c; try done; cbn; auto. Qed.

Lemma trim_right_key p v :
  forallb key_byte p = true -> v <> [] -> trim_space_right v = v ->
  trim_space_right (p ++ v) = p ++ v /\ all_space (p ++ v) 0 = false.
Proof.
  intros Hp Hv E. induction p as [|c p IH]; cbn [app].
  { split; [done|by apply trim_right_not_space]. }
  cbn [forallb] in Hp. apply andb_true_iff in Hp as [Hc Hp]. destruct (IH Hp) as [E1 E2].
  pose proof (all_space_key c (p ++ v) Hc E2) as E3. split; [|done].
  cbn [trim_space_right]. by rewrite E3, E1.
Qed.

(** *** Lines *)

Lemma last_not_CR v : plain v -> last v <> Some CR.
Proof.
  intros (Hne & _ & Ht & _) [l ->]%last_snoc_inv. apply TrimSpace_id in Ht as [_ Ht].
  pose proof (trim_space_right_snoc l CR eq_refl) as Hl. rewrite Ht, length_app in Hl. cbn in Hl. lia.
Qed.

Lemma TrimSuffix_CR l : last l <> Some CR -> TrimSuffix l [CR] = l.
Proof.
  intros Hl. unfold TrimSuffix, HasSuffix. destruct l as [|x l _] using rev_ind; [done|].
  rewrite last_snoc in Hl. rewrite rev_app_distr. cbn [rev app HasPrefix].
  rewrite (proj2 (byte_eqb_neq x CR)) by congruence. done.
Qed.

Definition line_ok (l : bytes) : Prop :=
  (LF ∉ l) /\ last l <> Some CR /\ l <> [] /\ (len l < MaxScanTokenSize).

Lemma Scan_lines ls : Forall line_ok ls -> Scan (concat (map (fun l => l ++ [LF]) ls)) = (ls, false).
Proof.
  unfold Scan. induction 1 as [|l ls (Hlf & Hcr & Hne & Hlen) _ IH]; [done|].
  cbn [map concat]. rewrite <- app_assoc. cbn [app]. rewrite SplitByte_line by done.
  cbn [scan_lines]. rewrite (proj2 (Z.leb_gt _ _)) by done. rewrite IH, TrimSuffix_CR by done.
  by destruct l.
Qed.

(** A key as the lines spell it. *)
Definition key_ok (k : bytes) : Prop :=
  exists c k', k = c :: k' /\ (97 <= zb c <= 122) /\ forallb key_byte k = true /\ (x20 ∉ k) /\
    TrimSpace k = k /\ (len k <= 100) /\ forall U : GoUnicode, ToLower k = k.

Section line_facts.
Context (k v : bytes) (Hk : key_ok k) (Hv : plain v).

Lemma setting_line_ok : line_ok (setting_line (k, v)).
Proof.
  destruct Hk as (c & k' & Ek & Hc & Hb & Hsp & _ & Hlk & _). destruct Hv as (Hne & Hlf & Ht & Hlv).
  unfold setting_line, line_ok. cbn [fst snd]. split_and!.
  - rewrite elem_of_app, elem_of_cons. intros [Hin|[Hin|Hin]]; [|discriminate Hin|done].
    rewrite forallb_forall in Hb. apply list_elem_of_In, Hb in Hin. done.
  - replace (k ++ x20 :: v) with ((k ++ [x20]) ++ v) by (by rewrite <- app_assoc).
    rewrite last_app. pose proof (last_not_CR v Hv) as Hl.
    destruct (last v) eqn:El; [done|]. by apply last_None in El.
  - by rewrite Ek.
  - rewrite length_app. cbn. unfold MaxScanTokenSize. lia.
Qed.

Lemma load_setting_line `{GoUnicode} c : load_line (setting_line (k, v)) c = apply_setting k v c.
Proof.
  destruct Hk as (b & k' & Ek & Hc & Hb & Hsp & Htk & Hlk & Hlow). destruct Hv as (Hne & Hlf & Ht & Hlv).
  unfold load_line, setting_line. cbn [fst snd].
  assert (TrimSpace (k ++ x20 :: v) = k ++ x20 :: v) as ->.
  { unfold TrimSpace. apply TrimSpace_id in Ht as [_ Htr].
    assert (trim_space_left (k ++ x20 :: v) 0 = k ++ x20 :: v) as ->.
    { rewrite Ek. destruct b; try done; vm_compute in Hc; destruct Hc; done. }
    replace (k ++ x20 :: v) with ((k ++ [x20]) ++ v) by (by rewrite <- app_assoc).
    apply trim_right_key; [|done|done]. rewrite forallb_app, Hb. done. }
  assert (bytes_eqb (k ++ x20 :: v) [] || HasPrefix (k ++ x20 :: v) (bs "#") = false) as ->.
  { rewrite Ek. destruct b; try done; vm_compute in Hc; destruct Hc; done. }
  cbn [SplitN]. rewrite IndexByte_app by done. rewrite take_length_app.
  replace (S (length k)) with (length (k ++ [x20])) by (rewrite length_app; cbn; lia).
  replace (k ++ x20 :: v) with ((k ++ [x20]) ++ v) by (by rewrite <- app_assoc).
  by rewrite drop_length_app, Htk, Hlow, Ht.
Qed.

End line_facts.

(** *** Values *)

Definition solid (c : byte) : bool := (33 <=? zb c) && (zb c <=? 126).

Lemma solid_not_space c l : solid c = true -> space_width (c :: l) = 0%nat.
Proof. by destruct c. Qed.

Lemma solid_plain l : forallb solid l = true -> l <> [] -> len l <= 65000 -> plain l.
Proof.
  intros Hs Hne Hl. split_and!; [done| | |done].
  - intros Hin. rewrite forallb_forall in Hs. apply list_elem_of_In, Hs in Hin. done.
  - assert (trim_space_left l 0 = l) as E.
    { destruct l as [|c l]; [done|]. cbn [forallb] in Hs. apply andb_true_iff in Hs as [Hc _].
      cbn [trim_space_left]. by rewrite solid_not_space. }
    unfold TrimSpace. rewrite E. clear E Hne Hl. induction l as [|c l IH]; [done|].
    cbn [forallb] in Hs. apply andb_true_iff in Hs as [Hc Hs].
    cbn [trim_space_right all_space]. rewrite solid_not_space, IH by done. done.
Qed.

Lemma FormatInt_solid n : forallb solid (FormatInt n) = true.
Proof.
  assert (forall l, forallb is_digit l = true -> forallb solid l = true) as Hd.
  { intros l. rewrite !forallb_forall. intros Hl c Hc. specialize (Hl c Hc).
    unfold is_digit in Hl. bool_arith. unfold solid. apply andb_true_iff. split; apply Z.leb_le; lia. }
  unfold FormatInt. case_bool; cbn [forallb]; [apply andb_true_iff; split; [done|]|]; apply Hd, fmt_digits_digits.
Qed.

Lemma FormatInt_plain n : plain (FormatInt n).
Proof.
  pose proof (FormatInt_length n) as [??]. apply solid_plain; [apply FormatInt_solid| |lia].
  intros E. rewrite E in *. cbn in *. lia.
Qed.

Lemma FormatNanos_plain n : plain (FormatNanos n).
Proof.
  pose proof (FormatInt_length n) as [??]. unfold FormatNanos. apply solid_plain.
  - by rewrite forallb_app, FormatInt_solid.
  - by destruct (FormatInt n).
  - rewrite length_app. cbn. lia.
Qed.

Lemma read_mode_plain m : plain (read_mode_text m).
Proof. destruct m; apply solid_plain; done. Qed.

Definition keys : list bytes :=
  map bs ["bind"; "port"; "cluster"; "username"; "password"; "client-password"; "pool-size"; "workers";
          "idle-timeout"; "read-timeout"; "refresh-interval"; "log-level"; "max-redirects"; "read-mode";
          "max-clients"]%string.

Lemma keys_ok : Forall key_ok keys.
Proof.
  repeat (apply Forall_cons; split;
    [eexists _, _; split_and!; [reflexivity|done|done|reflexivity|by apply (bool_decide_eq_true _)|reflexivity|done|];
     intros U; reflexivity|]).
  constructor.
Qed.

Lemma optional_ok k v : k ∈ keys -> plain_or_empty v -> Forall (fun kv => kv.1 ∈ keys /\ plain kv.2) (optional k v).
Proof. intros Hk [->|Hv]; [constructor|]. destruct v; [constructor|]. by apply Forall_singleton. Qed.

Lemma settings_ok c : config_ok c -> Forall (fun kv => kv.1 ∈ keys /\ plain kv.2) (settings c).
Proof.
  intros (Hb & Hl & _ & He & Ho & _). unfold settings.
  assert (forall k, bool_decide (k ∈ keys) = true -> k ∈ keys) as Hk by (intros; by eapply bool_decide_eq_true).
  inversion_clear Ho as [|?? Hu Ho']. inversion_clear Ho' as [|?? Hp Ho]. inversion_clear Ho as [|?? Hc _].
  repeat apply Forall_app_2; try (apply optional_ok; [by apply Hk|done]).
  - repeat (apply Forall_cons; split; [split; [by apply Hk|cbn [snd]; auto using FormatInt_plain]|]).
    apply Forall_nil_2.
  - apply Forall_map. eapply Forall_impl; [done|]. intros e Hpe. split; [by apply Hk|done].
  - repeat (apply Forall_cons; split;
      [split; [by apply Hk|cbn [snd]; auto using FormatInt_plain, FormatNanos_plain, read_mode_plain]|]).
    apply Forall_nil_2.
Qed.

Fixpoint apply_settings (kvs : list (bytes * bytes)) (c : Config) : load_error + Config :=
  match kvs with
  | [] => inr c
  | kv :: kvs => match apply_setting kv.1 kv.2 c with inl e => inl e | inr c => apply_settings kvs c end
  end.

Lemma load_lines_settings `{GoUnicode} kvs c :
  Forall (fun kv => kv.1 ∈ keys /\ plain kv.2) kvs ->
  load_lines (map setting_line kvs) c = apply_settings kvs c.
Proof.
  intros Hk. revert c. induction Hk as [|[k v] kvs [Hk Hv] _ IH]; intros c; [done|].
  cbn [map load_lines apply_settings fst snd] in *.
  rewrite load_setting_line; [|by eapply Forall_forall; [apply keys_ok|]|done].
  by destruct (apply_setting k v c).
Qed.

Lemma apply_cons k v kvs c c' :
  apply_setting k v c = inr c' -> apply_settings ((k, v) :: kvs) c = apply_settings kvs c'.
Proof. intros E. cbn [apply_settings fst snd]. by rewrite E. Qed.

Lemma apply_settings_app l k c c' :
  apply_settings l c = inr c' -> apply_settings (l ++ k) c = apply_settings k c'.
Proof.
  revert c. induction l as [|kv l IH]; intros c; cbn [app apply_settings]; [by intros [= ->]|].
  destruct (apply_setting _ _ _); [done|]. apply IH.
Qed.

Lemma apply_clusters es c :
  apply_settings (map (pair (bs "cluster")) es) c = inr (set_EntryPoints (EntryPoints c ++ es) c).
Proof.
  revert c. induction es as [|e es IH]; intros c.
  { cbn. rewrite app_nil_r. by destruct c. }
  cbn [map apply_settings fst snd].
  change (apply_setting (bs "cluster") e c) with (inr load_error (set_EntryPoints (EntryPoints c ++ [e]) c)).
  cbv beta iota. rewrite IH. cbn. by rewrite <- app_assoc.
Qed.

Lemma apply_int k name set v (c : Config) :
  (forall w c, apply_setting k w c = int_setting name w set c) ->
  int64_range v -> apply_setting k (FormatInt v) c = inr (set v c).
Proof. intros -> Hv. unfold int_setting. by rewrite Atoi_FormatInt. Qed.

Lemma apply_duration k name set v (c : Config) :
  (forall w c, apply_setting k w c = duration_setting name w set c) ->
  int64_range v -> apply_setting k (FormatNanos v) c = inr (set v c).
Proof. intros -> Hv. unfold duration_setting. by rewrite ParseDuration_FormatNanos. Qed.

Lemma apply_optional k v set c :
  (forall w c, apply_setting k w c = inr (set w c)) -> (v = [] -> set v c = c) ->
  apply_settings (optional k v) c = inr (set v c).
Proof. intros Hs He. destruct v as [|b v]; cbn [optional apply_settings fst snd]; [by rewrite He|by rewrite Hs]. Qed.

Lemma apply_read_mode m c : apply_setting (bs "read-mode") (read_mode_text m) c = inr (set_ReadMode m c).
Proof. by destruct m. Qed.

(** The settings of a configuration, applied to the defaults, are the configuration. *)
Lemma apply_settings_of c : config_ok c -> apply_settings (settings c) Default = inr c.
Proof.
  intros (_ & _ & _ & _ & _ & Hi). rewrite !Forall_cons in Hi.
  destruct Hi as (H1 & H2 & H3 & H4 & H5 & H6 & H7 & H8 & _). unfold settings.
  cbn [app]. erewrite apply_cons; [|reflexivity].
  erewrite apply_cons; [|by apply (apply_int (bs "port") (bs "port") set_Port)].
  erewrite apply_settings_app; [|apply apply_clusters].
  erewrite apply_settings_app; [|by apply (apply_optional (bs "username") _ set_Username); [|intros ->]].
  erewrite apply_settings_app; [|by apply (apply_optional (bs "password") _ set_Password); [|intros ->]].
  erewrite apply_settings_app; [|by apply (apply_optional (bs "client-password") _ set_ClientPassword); [|intros ->]].
  erewrite apply_cons; [|by apply (apply_int (bs "pool-size") (bs "pool-size") set_PoolSize)].
  erewrite apply_cons; [|by apply (apply_int (bs "workers") (bs "workers") set_Workers)].
  erewrite apply_cons; [|by apply (apply_duration (bs "idle-timeout") (bs "idle-timeout") set_IdleTimeout)].
  erewrite apply_cons; [|by apply (apply_duration (bs "read-timeout") (bs "read-timeout") set_ReadTimeout)].
  erewrite apply_cons; [|by apply (apply_duration (bs "refresh-interval") (bs "refresh-interval") set_RefreshInterval)].
  erewrite apply_cons; [|reflexivity].
  erewrite apply_cons; [|by apply (apply_int (bs "max-redirects") (bs "max-redirects") set_MaxRedirects)].
  erewrite apply_cons; [|apply apply_read_mode].
  erewrite apply_cons; [|by apply (apply_int (bs "max-clients") (bs "max-clients") set_MaxClients)].
  cbn [apply_settings]. f_equal. by destruct c.
Qed.

Lemma load_rendered `{GoUnicode} c : config_ok c -> Load (inr (render_config c, None)) = inr c.
Proof.
  intros Hc. pose proof (settings_ok c Hc) as Hs. unfold Load, render_config.
  rewrite <- (map_map setting_line (fun l => l ++ [LF])), Scan_lines.
  - rewrite load_lines_settings, apply_settings_of by done. destruct Hc as (_ & _ & He & _).
    by rewrite bool_decide_eq_false_2.
  - apply Forall_map. eapply Forall_impl; [done|]. intros [k v] [Hk Hv].
    apply setting_line_ok; [|done]. by eapply Forall_forall; [apply keys_ok|].
Qed.

(** C35: a configuration whose values have no white space around them and whose numbers fit
    64 bits is read back from the file that names its settings: [Load] returns it, every
    field included, from the text [render_config] writes, whatever tables [ToLower] uses. *)
Theorem Load_render `{GoUnicode} c : config_ok c -> Load (inr (render_config c, None)) = inr c.
Proof. apply load_rendered. Qed.

Definition sample_config : Config :=
  FromArgs [bs "127.0.0.1:7000"; bs "127.0.0.1:7001"]
    [WithPassword (bs "default") (bs "s3cret pass"); WithPoolSize 30; WithReadMode ReadModeMasterSlave].

Lemma Load_render_witness :
  config_ok sample_config /\ @Load ascii_unicode (inr (render_config sample_config, None)) = inr sample_config.
Proof.
  assert (config_ok sample_config) as Hc.
  { unfold config_ok. cbn -[plain plain_or_empty]. split_and!; [by apply solid_plain..|done| | |].
    - repeat constructor; by apply solid_plain.
    - rewrite !Forall_cons. split_and!; [right|right|by left|constructor]; [by apply solid_plain|].
      split_and!; [done|by apply (bool_decide_eq_true _)|reflexivity|done].
    - rewrite !Forall_cons. split_and!; try constructor; done. }
  split; [exact Hc|]. exact (@Load_render ascii_unicode sample_config Hc).
Defined.

(** Lines whose key and value are separated by a tab are ignored without an error, and so
    is a read mode that does not exist. *)
Lemma Load_ignores :
  @Load ascii_unicode (inr (bs "cluster a:1" ++ [LF] ++ bs "port" ++ [x09] ++ bs "6379" ++ [LF] ++ bs "read-mode slaves", None))
  = inr (set_EntryPoints [bs "a:1"] Default).
Proof. vm_compute. reflexivity. Qed.

(** The default of the flag [pool-size] is not the default of the configuration, and it
    is applied whenever the entry points are given as arguments. *)
Lemma pool_size_default :
  PoolSize Default = 20 /\
  @main_config ascii_unicode (mkFlags 7777 (bs "0.0.0.0") [] [] 10 [] (bs "info") false [] [] [bs "a:1"]) (fun _ => inl EOF)
  = Run (set_PoolSize 10 (set_EntryPoints [bs "a:1"] Default)).
Proof. split; reflexivity. Qed.
