(* ===== verification/StatsModel.v ===== *)
(** * StatsModel: the counters of the proxy

    Model of [pkg/engine/stats.go].  The counters are atomic 64-bit integers that every
    event loop updates; [astep] is one atomic operation of a goroutine inside
    [addCommands], so that the theorems hold for every interleaving.  [s_retired] lists
    the counts of the seconds that were closed.  The figures of the run-time and of the
    operating system (memory, goroutines, CPU times) are the argument [sysinfo] of
    [Snapshot]; CPU times are [float64].

    [stats_conserved]: the seconds together count every command once. *)

From Stdlib Require Import Floats.SpecFloat.
From S2P Require Import Prelude GoStd GoTime.

Record Stats := mkStats {
  totalConnections : Z;
  currConnections : Z;
  totalCommands : Z;
  qpsBucketSec : Z;
  qpsBucketCount : Z;
  qpsLastValue : Z;
  startTime : Z;
  lastCPUSample : option Z;
  lastCPUSys : float64;
  lastCPUUser : float64;
  cpuSysPct : float64;
  cpuUserPct : float64;
  s_retired : list Z;
}.

Definition f_zero : float64 := S754_zero false.

Definition newStats (now : Z) : Stats :=
  mkStats 0 0 0 0 0 0 now None f_zero f_zero f_zero f_zero [].

Definition set_counters (total sec count last : Z) (retired : list Z) (s : Stats) : Stats :=
  mkStats (totalConnections s) (currConnections s) total sec count last (startTime s) (lastCPUSample s)
    (lastCPUSys s) (lastCPUUser s) (cpuSysPct s) (cpuUserPct s) retired.
Definition set_connections (total curr : Z) (s : Stats) : Stats :=
  mkStats total curr (totalCommands s) (qpsBucketSec s) (qpsBucketCount s) (qpsLastValue s) (startTime s)
    (lastCPUSample s) (lastCPUSys s) (lastCPUUser s) (cpuSysPct s) (cpuUserPct s) (s_retired s).
Definition set_cpu (sample : Z) (sys user sysPct userPct : float64) (s : Stats) : Stats :=
  mkStats (totalConnections s) (currConnections s) (totalCommands s) (qpsBucketSec s) (qpsBucketCount s)
    (qpsLastValue s) (startTime s) (Some sample) sys user sysPct userPct (s_retired s).

Definition incConnections (s : Stats) : Stats :=
  set_connections (wrap64 (totalConnections s + 1)) (wrap64 (currConnections s + 1)) s.
Definition decConnections (s : Stats) : Stats :=
  set_connections (totalConnections s) (wrap64 (currConnections s - 1)) s.

(** ** [addCommands], one atomic operation at a time *)

(** What a goroutine has still to do: [n] is the number of commands, [now] the second it
    read from the clock, [b] the second it loaded. *)
Inductive adding :=
| AAdd (n : Z)
| AClock (n : Z)
| ALoad (n now : Z)
| ACas (n now b : Z)
| ACount (n : Z)
| ASwap (n : Z)
| AStore (old : Z)
| ADone.

(** [now] is the second the clock shows. *)
Definition add_step (now : Z) (a : adding) (s : Stats) : adding * Stats :=
  let put := fun total sec count last => set_counters total sec count last (s_retired s) s in
  match a with
  | AAdd n => (AClock n, put (wrap64 (totalCommands s + n)) (qpsBucketSec s) (qpsBucketCount s) (qpsLastValue s))
  | AClock n => (ALoad n now, s)
  | ALoad n t => (if qpsBucketSec s =? t then ACount n else ACas n t (qpsBucketSec s), s)
  | ACas n t b =>
      if qpsBucketSec s =? b
      then (ASwap n, put (totalCommands s) t (qpsBucketCount s) (qpsLastValue s))
      else (ACount n, s)
  | ACount n => (ADone, put (totalCommands s) (qpsBucketSec s) (wrap64 (qpsBucketCount s + n)) (qpsLastValue s))
  | ASwap n => (AStore (qpsBucketCount s),
                set_counters (totalCommands s) (qpsBucketSec s) n (qpsLastValue s)
                  (s_retired s ++ [qpsBucketCount s]) s)
  | AStore old => (ADone, put (totalCommands s) (qpsBucketSec s) (qpsBucketCount s) old)
  | ADone => (ADone, s)
  end.

(** A goroutine that is not interrupted makes at most six steps. *)
Fixpoint add_run (fuel : nat) (now : Z) (a : adding) (s : Stats) : Stats :=
  match fuel with
  | O => s
  | S f => let '(a, s) := add_step now a s in add_run f now a s
  end.

(** [n] is a [uint64]. *)
Definition addCommands (now n : Z) (s : Stats) : Stats := add_run 6 now (AAdd (wrap64 n)) s.

Definition incCommands (now : Z) (s : Stats) : Stats := addCommands now 1 s.

Definition qps (now : Z) (s : Stats) : Z :=
  if qpsBucketSec s =? 0 then 0
  else if wrap64 (qpsBucketSec s + 1) <? now then 0
  else qpsLastValue s.

(** One goroutine makes a step, or a new call of [addCommands] arrives. *)
Inductive astep : Stats * list adding -> Stats * list adding -> Prop :=
| as_step now i s ts a : ts !! i = Some a ->
    astep (s, ts) (snd (add_step now a s), <[i := fst (add_step now a s)]> ts)
| as_new n s ts : int64_range n -> astep (s, ts) (s, ts ++ [AAdd n]).

Inductive areach (start : Z) : Stats * list adding -> Prop :=
| ar_init : areach start (newStats start, [])
| ar_step x y : areach start x -> astep x y -> areach start y.

(** ** Snapshot *)

(** Seconds and microseconds of a [Rusage] field. *)
Record timeval := mkTimeval { tv_sec : Z; tv_usec : Z }.

Definition cpu_seconds (t : timeval) : float64 :=
  f64_add (f64_of_Z (tv_sec t)) (f64_div (f64_of_Z (tv_usec t)) (f64_of_Z 1000000)).

Record sysinfo := mkSys {
  HeapAlloc : Z;
  HeapSys : Z;
  NumGoroutine : Z;
  NumCPU_ : Z;
  NumGC_ : Z;
  PauseTotal : Z;
  rusage : option (timeval * timeval);
}.

Record StatsSnapshot := mkSnapshot {
  UptimeSeconds : Z;
  TotalConnections : Z;
  CurrConnections : Z;
  TotalCommands : Z;
  QPS : Z;
  HeapAllocBytes : Z;
  HeapSysBytes : Z;
  NumGoroutines : Z;
  NumCPU : Z;
  NumGC : Z;
  PauseTotalNs : Z;
  UsedCPUSys : float64;
  UsedCPUUser : float64;
  CPUSysPct : float64;
  CPUUserPct : float64;
}.

(** The section under [cpuMu]: the percentages since the last sample. *)
Definition sample_cpu (now : Z) (sys user : float64) (s : Stats) : Stats :=
  let pct cur last elapsed := f64_mul (f64_div (f64_sub cur last) elapsed) (f64_of_Z 100) in
  match lastCPUSample s with
  | None => set_cpu now sys user (cpuSysPct s) (cpuUserPct s) s
  | Some t =>
      let elapsed := Seconds (now - t) in
      if f64_ltb f_zero elapsed
      then set_cpu now sys user (pct sys (lastCPUSys s) elapsed) (pct user (lastCPUUser s) elapsed) s
      else set_cpu now sys user (cpuSysPct s) (cpuUserPct s) s
  end.

(** [now] is the clock in nanoseconds. *)
Definition Snapshot (now : Z) (sy : sysinfo) (s : Stats) : StatsSnapshot * Stats :=
  let base := mkSnapshot (f64_trunc (Seconds (now - startTime s))) (totalConnections s) (currConnections s)
                (totalCommands s) (qps (now / Second) s) (wrap64 (HeapAlloc sy)) (wrap64 (HeapSys sy))
                (NumGoroutine sy) (NumCPU_ sy) (NumGC_ sy) (wrap64 (PauseTotal sy)) in
  match rusage sy with
  | None => (base f_zero f_zero f_zero f_zero, s)
  | Some (stime, utime) =>
      let sys := cpu_seconds stime in
      let user := cpu_seconds utime in
      let s := sample_cpu now sys user s in
      (base sys user (cpuSysPct s) (cpuUserPct s), s)
  end.

Definition info_line (name : string) (value : bytes) : bytes := bs name ++ bs ":" ++ value ++ CRLF.

Definition Format (p : StatsSnapshot) : bytes :=
  bs "# Stats" ++ CRLF ++
  info_line "uptime_in_seconds" (FormatInt (UptimeSeconds p)) ++
  info_line "total_connections_received" (FormatInt (TotalConnections p)) ++
  info_line "connected_clients" (FormatInt (CurrConnections p)) ++
  info_line "total_commands_processed" (FormatInt (TotalCommands p)) ++
  info_line "instantaneous_ops_per_sec" (FormatInt (QPS p)) ++
  CRLF ++ bs "# Memory" ++ CRLF ++
  info_line "heap_alloc_bytes" (FormatInt (HeapAllocBytes p)) ++
  info_line "heap_sys_bytes" (FormatInt (HeapSysBytes p)) ++
  CRLF ++ bs "# CPU" ++ CRLF ++
  info_line "num_cpu" (FormatInt (NumCPU p)) ++
  info_line "num_goroutines" (FormatInt (NumGoroutines p)) ++
  info_line "used_cpu_sys" (format_fixed 6 (UsedCPUSys p)) ++
  info_line "used_cpu_user" (format_fixed 6 (UsedCPUUser p)) ++
  info_line "used_cpu_sys_pct" (format_fixed 2 (CPUSysPct p)) ++
  info_line "used_cpu_user_pct" (format_fixed 2 (CPUUserPct p)) ++
  CRLF ++ bs "# GC" ++ CRLF ++
  info_line "total_gc_runs" (FormatInt (NumGC p)) ++
  info_line "gc_pause_total_ns" (FormatInt (PauseTotalNs p)).

(** ** Conservation *)

(** The commands a goroutine has added to the total but not yet to a second. *)
Definition in_flight (a : adding) : Z :=
  match a with
  | AClock n | ALoad n _ | ACas n _ _ | ACount n | ASwap n => n
  | AAdd _ | AStore _ | ADone => 0
  end.

Definition sumZ (l : list Z) : Z := foldr Z.add 0 l.

Lemma sumZ_app l k : sumZ (l ++ k) = sumZ l + sumZ k.
Proof. induction l as [|x l IH]; cbn; [done|]. unfold sumZ in *. lia. Qed.

Lemma sumZ_insert (f : adding -> Z) ts i a a' :
  ts !! i = Some a -> sumZ (f <$> <[i := a']> ts) = sumZ (f <$> ts) - f a + f a'.
Proof.
  revert i. induction ts as [|b ts IH]; intros [|i] H; cbn [lookup list_lookup] in H; [done|done| |].
  - injection H as ->. cbn. unfold sumZ. lia.
  - change (f b + sumZ (f <$> <[i := a']> ts) = f b + sumZ (f <$> ts) - f a + f a'). rewrite (IH i H). lia.
Qed.

Record ainv (x : Stats * list adding) : Prop := {
  ai_sum : totalCommands (fst x) mod 2^64
           = (qpsBucketCount (fst x) + sumZ (s_retired (fst x)) + sumZ (in_flight <$> snd x)) mod 2^64;
  ai_last : qpsLastValue (fst x) = 0 \/ qpsLastValue (fst x) ∈ s_retired (fst x);
  ai_store : forall old, AStore old ∈ snd x -> old ∈ s_retired (fst x);
}.

Lemma mod_shift a b a' b' : a mod 2^64 = b mod 2^64 -> (a' - a) mod 2^64 = (b' - b) mod 2^64 -> a' mod 2^64 = b' mod 2^64.
Proof.
  intros H1 H2. replace a' with ((a' - a) + a) by lia. replace b' with ((b' - b) + b) by lia.
  by rewrite Zplus_mod, H1, H2, <- Zplus_mod.
Qed.

Lemma wrap_mod_add a n : (wrap64 (a + n) - a) mod 2^64 = n mod 2^64.
Proof. rewrite Zminus_mod, wrap64_mod, <- Zminus_mod. f_equal. lia. Qed.

Lemma insert_elem (ts : list adding) i a' old :
  AStore old ∈ <[i := a']> ts -> AStore old = a' \/ AStore old ∈ ts.
Proof.
  intros [j H]%list_elem_of_lookup. destruct (decide (i = j)) as [->|Hne].
  - destruct (decide (j < length ts)%nat).
    + rewrite list_lookup_insert_eq in H by done. left. congruence.
    + rewrite list_insert_ge in H by lia. right. by eapply list_elem_of_lookup_2.
  - rewrite list_lookup_insert_ne in H by done. right. by eapply list_elem_of_lookup_2.
Qed.

(** The sums move together: what a step adds on the left it adds on the right. *)
Lemma ainv_step x y : ainv x -> astep x y -> ainv y.
Proof.
  intros [Hs Hl Ht]. destruct 1 as [now i s ts a Hi|n s ts Hn]; cbn [fst snd] in *.
  - pose proof (fun a' => sumZ_insert in_flight ts i a a' Hi) as Hsum.
    assert (forall a' (R : list Z), (forall old, a' <> AStore old) \/ (exists old, a' = AStore old /\ old ∈ R) ->
      (forall z, z ∈ s_retired s -> z ∈ R) ->
      forall old, AStore old ∈ <[i := a']> ts -> old ∈ R) as Hst.
    { intros a' R Ha' HR old [E|E]%insert_elem; [|by apply HR, Ht].
      destruct Ha' as [Ha'|(o & Eo & Ho)]; [by destruct (Ha' old)|congruence]. }
    assert (forall a', (forall old, a' <> AStore old) -> forall old, AStore old ∈ <[i := a']> ts -> old ∈ s_retired s) as Hst'
      by (intros a' Ha'; apply Hst; auto).
    destruct a; cbn [add_step fst snd];
      repeat match goal with |- context [if ?b then _ else _] => destruct b end; split; cbn -[sumZ]; auto;
      try (rewrite Hsum; cbn [in_flight]; eapply mod_shift; [exact Hs|]; rewrite ?wrap_mod_add; f_equal; lia);
      try (apply Hst'; intros ? [=]).
    + rewrite Hsum. cbn [in_flight]. eapply mod_shift; [exact Hs|]. rewrite Z.sub_diag.
      transitivity ((wrap64 (qpsBucketCount s + n) - qpsBucketCount s - n) mod 2^64); [|f_equal; lia].
      by rewrite Zminus_mod, wrap_mod_add, <- Zminus_mod, Z.sub_diag.
    + rewrite Hsum, sumZ_app. cbn [in_flight sumZ foldr]. eapply mod_shift; [exact Hs|]. f_equal. lia.
    + destruct Hl as [Hl|Hl]; [by left|right]. apply elem_of_app. by left.
    + apply Hst; [right; eexists; split; [done|]|intros z Hz]; apply elem_of_app; [right; by apply list_elem_of_singleton|by left].
    + right. apply Ht. by eapply list_elem_of_lookup_2.
  - split; cbn [fst snd]; [|done|].
    + rewrite fmap_app, sumZ_app. cbn. by rewrite Z.add_0_r.
    + intros old [H|H%list_elem_of_singleton]%elem_of_app; [by apply Ht|done].
Qed.

Lemma ainv_reach start x : areach start x -> ainv x.
Proof.
  induction 1 as [|x y _ IH Hst]; [|by eapply ainv_step].
  split; cbn; [done|by left|by intros old ?%elem_of_nil].
Qed.

(** ** Properties *)

(** C37: however the event loops interleave inside [addCommands], no command is dropped
    or counted twice: the total is the count of the running second plus the counts of
    the seconds that were closed plus what is still on its way, modulo the 64 bits of the
    counters; and the rate that is reported is 0 or the count of a second that was
    closed. *)
Theorem stats_conserved start s ts now :
  areach start (s, ts) ->
  totalCommands s mod 2^64
    = (qpsBucketCount s + sumZ (s_retired s) + sumZ (in_flight <$> ts)) mod 2^64 /\
  (qps now s = 0 \/ qps now s ∈ s_retired s).
Proof.
  intros [Hs Hl _]%ainv_reach. split; [exact Hs|]. unfold qps. cbn [fst] in Hl.
  repeat case_bool; auto.
Qed.

(** Goroutine [i] makes a step when the clock shows 10. *)
Definition run_one (x : Stats * list adding) (i : nat) : Stats * list adding :=
  match snd x !! i with
  | Some a => (snd (add_step 10 a (fst x)), <[i := fst (add_step 10 a (fst x))]> (snd x))
  | None => x
  end.

(** Two goroutines see a new second; the first wins the exchange. *)
Definition race : Stats * list adding :=
  foldl run_one (newStats 0, [AAdd 3; AAdd 4]) [0; 0; 0; 1; 1; 1; 0; 1]%nat.

Lemma race_reach : areach 0 race.
Proof.
  assert (forall l x, areach 0 x -> areach 0 (foldl run_one x l)) as Hl.
  { induction l as [|i l IH]; intros [s ts] Hx; [done|]. cbn [foldl]. apply IH. unfold run_one. cbn [fst snd].
    destruct (ts !! i) as [a|] eqn:E; [|done]. by apply ar_step with (s, ts); [|apply as_step]. }
  apply Hl. apply ar_step with (newStats 0, [AAdd 3]); [apply ar_step with (newStats 0, []); [apply ar_init|]|].
  - apply (as_new 3); split; lia.
  - apply (as_new 4 _ [AAdd 3]); split; lia.
Qed.

Lemma stats_conserved_witness :
  totalCommands (fst race) = 7 /\ qpsBucketSec (fst race) = 10 /\ in_flight <$> snd race = [3; 4] /\
  totalCommands (fst race) mod 2^64
    = (qpsBucketCount (fst race) + sumZ (s_retired (fst race)) + sumZ (in_flight <$> snd race)) mod 2^64.
Proof.
  split; [vm_compute; reflexivity|]. split; [vm_compute; reflexivity|]. split; [vm_compute; reflexivity|].
  refine (proj1 (stats_conserved 0 (fst race) (snd race) 11 _)).
  rewrite <- surjective_pairing. exact race_reach.
Defined.

(** After an idle time the rate of the last busy second is reported as the current one:
    the bucket that is closed need not be the one of the second before. *)
Lemma qps_stale : qps 20 (addCommands 20 1 (addCommands 10 1000 (newStats 0))) = 1000.
Proof. vm_compute. reflexivity. Qed.

(** A goroutine that is alone counts its commands in the current second. *)
Lemma addCommands_alone now n s :
  int64_range n -> qpsBucketSec s = now ->
  addCommands now n s
  = set_counters (wrap64 (totalCommands s + n)) now (wrap64 (qpsBucketCount s + n)) (qpsLastValue s) (s_retired s) s.
Proof.
  intros Hn <-. unfold addCommands. rewrite (wrap64_id n) by done. cbn. by rewrite Z.eqb_refl.
Qed.
