(* ===== verification/Crc16.v ===== *)
(** * Crc16: the cluster key slot

    Model of [pkg/proto/crc16.go]: the CRC16 lookup table, [CRC16], the hash-tag
    scan and [HashSlot].  The theorems: the table-driven CRC is the bit-by-bit
    CRC-16/XMODEM, slots are in range, keys that share a hash tag share a slot,
    and where the hash-tag scan agrees with the rule of the Redis Cluster
    specification. *)

From S2P Require Import Prelude GoStd.


(** ** Definitions *)

Definition crc16tab : list Z :=
  [
   0x0000; 0x1021; 0x2042; 0x3063; 0x4084; 0x50a5; 0x60c6; 0x70e7;
   0x8108; 0x9129; 0xa14a; 0xb16b; 0xc18c; 0xd1ad; 0xe1ce; 0xf1ef;
   0x1231; 0x0210; 0x3273; 0x2252; 0x52b5; 0x4294; 0x72f7; 0x62d6;
   0x9339; 0x8318; 0xb37b; 0xa35a; 0xd3bd; 0xc39c; 0xf3ff; 0xe3de;
   0x2462; 0x3443; 0x0420; 0x1401; 0x64e6; 0x74c7; 0x44a4; 0x5485;
   0xa56a; 0xb54b; 0x8528; 0x9509; 0xe5ee; 0xf5cf; 0xc5ac; 0xd58d;
   0x3653; 0x2672; 0x1611; 0x0630; 0x76d7; 0x66f6; 0x5695; 0x46b4;
   0xb75b; 0xa77a; 0x9719; 0x8738; 0xf7df; 0xe7fe; 0xd79d; 0xc7bc;
   0x4864; 0x5845; 0x6826; 0x7807; 0x08e0; 0x18c1; 0x28a2; 0x38c3;
   0xc92c; 0xd90d; 0xe96e; 0xf94f; 0x89a8; 0x99c9; 0xa9aa; 0xb98b;
   0x5a75; 0x4a54; 0x7a37; 0x6a16; 0x1af1; 0x0ad0; 0x3ab3; 0x2a92;
   0xdb6d; 0xcb4c; 0xfb2f; 0xeb0e; 0x9be9; 0x8bc8; 0xbbab; 0xab8a;
   0x6c66; 0x7c47; 0x4c24; 0x5c05; 0x2ce2; 0x3cc3; 0x0ca0; 0x1c81;
   0xed6e; 0xfd4f; 0xcd2c; 0xdd0d; 0xad6a; 0xbd4b; 0x8d28; 0x9d09;
   0x7ef7; 0x6ed6; 0x5eb5; 0x4e94; 0x3e73; 0x2e52; 0x1e31; 0x0e10;
   0xff9f; 0xefbe; 0xdfdd; 0xcffc; 0xbf1b; 0xaf3a; 0x9f59; 0x8f78;
   0x9188; 0x81a9; 0xb1ca; 0xa1eb; 0xd10c; 0xc12d; 0xf14e; 0xe16f;
   0x1080; 0x00a1; 0x30c2; 0x20e3; 0x5004; 0x4025; 0x7046; 0x6067;
   0x83b9; 0x9398; 0xa3fb; 0xb3da; 0xc33d; 0xd31c; 0xe37f; 0xf35e;
   0x02b1; 0x1290; 0x22f3; 0x32d2; 0x4235; 0x5214; 0x6277; 0x7256;
   0xb5ea; 0xa5cb; 0x95a8; 0x8589; 0xf56e; 0xe54f; 0xd52c; 0xc50d;
   0x34e2; 0x24c3; 0x14a0; 0x0481; 0x7466; 0x6447; 0x5424; 0x4405;
   0xa7db; 0xb7fa; 0x8799; 0x97b8; 0xe75f; 0xf77e; 0xc71d; 0xd73c;
   0x26d3; 0x36f2; 0x0691; 0x16b0; 0x6657; 0x7676; 0x4615; 0x5634;
   0xd94c; 0xc96d; 0xf90e; 0xe92f; 0x99c8; 0x89e9; 0xb98a; 0xa9ab;
   0x5844; 0x4865; 0x7806; 0x6827; 0x18c0; 0x08e1; 0x3882; 0x28a3;
   0xcb7d; 0xdb5c; 0xeb3f; 0xfb1e; 0x8bf9; 0x9bd8; 0xabbb; 0xbb9a;
   0x4a75; 0x5a54; 0x6a37; 0x7a16; 0x0af1; 0x1ad0; 0x2ab3; 0x3a92;
   0xfd2e; 0xed0f; 0xdd6c; 0xcd4d; 0xbdaa; 0xad8b; 0x9de8; 0x8dc9;
   0x7c26; 0x6c07; 0x5c64; 0x4c45; 0x3ca2; 0x2c83; 0x1ce0; 0x0cc1;
   0xef1f; 0xff3e; 0xcf5d; 0xdf7c; 0xaf9b; 0xbfba; 0x8fd9; 0x9ff8;
   0x6e17; 0x7e36; 0x4e55; 0x5e74; 0x2e93; 0x3eb2; 0x0ed1; 0x1ef0
  ].

Definition ClusterSlots : Z := 16384.

(** [crc = (crc<<8) ^ crc16tab[byte(crc>>8)^b]] on [uint16]. *)
Definition crc_step (crc : Z) (b : byte) : Z :=
  Z.lxor (Z.shiftl crc 8 mod 2^16)
         (nth (Z.to_nat (Z.lxor (Z.shiftr crc 8 mod 2^8) (zb b))) crc16tab 0).

Definition CRC16 (buf : bytes) : Z := foldl crc_step 0 buf.

Definition lbrace : byte := x7b.
Definition rbrace : byte := x7d.

(** The loop of [hashTag]: [i] is the index of the head of [rest] in [key], [s]
    the index of the last opening brace, or -1.  [nil] is the empty list. *)
Fixpoint hashTag_loop (key rest : bytes) (i s : Z) : bytes :=
  match rest with
  | [] => []
  | b :: rest' =>
      if b =b lbrace then hashTag_loop key rest' (i + 1) i
      else if (b =b rbrace) && (0 <=? s) then
        if s + 1 <? i
        then take (Z.to_nat (i - (s + 1))) (drop (Z.to_nat (s + 1)) key)
        else hashTag_loop key rest' (i + 1) (-1)
      else hashTag_loop key rest' (i + 1) s
  end.

Definition hashTag (key : bytes) : bytes := hashTag_loop key key 0 (-1).

Definition HashSlot (key : bytes) : Z :=
  let s := hashTag key in
  if 0 <? len s then CRC16 s mod ClusterSlots else CRC16 key mod ClusterSlots.

(** ** Specifications *)

(** One step of the bit-by-bit CRC with the polynomial x^16 + x^12 + x^5 + 1. *)
Definition bitstep (x : Z) : Z :=
  Z.lxor (Z.shiftl x 1 mod 2^16) (if Z.testbit x 15 then 0x1021 else 0).

Definition bitstep8 (x : Z) : Z :=
  bitstep (bitstep (bitstep (bitstep (bitstep (bitstep (bitstep (bitstep x))))))).

(** CRC-16/XMODEM: each byte enters at the top, then eight shifts. *)
Definition crc16_xmodem (buf : bytes) : Z :=
  foldl (fun crc b => bitstep8 (Z.lxor crc (Z.shiftl (zb b) 8))) 0 buf.

(** The rule of the Redis Cluster specification: the text between the first
    opening brace and the first closing brace after it, when there is any,
    and the whole key otherwise. *)
Definition redis_hash_part (key : bytes) : bytes :=
  match IndexByte key lbrace with
  | None => key
  | Some s =>
      let rest := drop (S s) key in
      match IndexByte rest rbrace with
      | None | Some O => key
      | Some n => take n rest
      end
  end.

(** Keys on which the scan and the rule pick the same text: no brace opens
    inside the tag, and none after an empty pair of braces. *)
Definition single_tag (key : bytes) : bool :=
  match IndexByte key lbrace with
  | None => true
  | Some s =>
      let rest := drop (S s) key in
      match IndexByte rest rbrace with
      | None => true
      | Some O => negb (existsb (Byte.eqb lbrace) rest)
      | Some n => negb (existsb (Byte.eqb lbrace) (take n rest))
      end
  end.

(** ** The table-driven CRC is the bitwise one *)

Lemma testbit_u16 x n : 0 <= n -> Z.testbit (x mod 2^16) n = (n <? 16) && Z.testbit x n.
Proof.
  intros. case_eq (n <? 16); intros E; bool_arith; simpl.
  - by rewrite Z.mod_pow2_bits_low by lia.
  - by rewrite Z.mod_pow2_bits_high by lia.
Qed.

Lemma bitstep_lxor a b : bitstep (Z.lxor a b) = Z.lxor (bitstep a) (bitstep b).
Proof.
  unfold bitstep. rewrite Z.lxor_spec, Z.shiftl_lxor.
  assert (Z.lxor (Z.shiftl a 1) (Z.shiftl b 1) mod 2^16
          = Z.lxor (Z.shiftl a 1 mod 2^16) (Z.shiftl b 1 mod 2^16)) as ->.
  { apply Z.bits_inj'. intros n Hn. rewrite !Z.lxor_spec, !testbit_u16 by done.
    rewrite Z.lxor_spec. destruct (n <? 16), (Z.testbit _ n), (Z.testbit _ n); done. }
  apply Z.bits_inj'. intros n _. rewrite !Z.lxor_spec.
  destruct (Z.testbit a 15), (Z.testbit b 15); cbn [xorb];
    rewrite ?Z.bits_0; repeat destruct (Z.testbit _ n); done.
Qed.

Lemma bitstep8_lxor a b : bitstep8 (Z.lxor a b) = Z.lxor (bitstep8 a) (bitstep8 b).
Proof. unfold bitstep8. by rewrite !bitstep_lxor. Qed.

Lemma forall_below (P : Z -> bool) (n : nat) :
  forallb P (map Z.of_nat (seq 0 n)) = true -> forall z, 0 <= z < Z.of_nat n -> P z = true.
Proof.
  rewrite forallb_forall. intros H z Hz. apply H, in_map_iff.
  exists (Z.to_nat z). split; [lia|]. apply in_seq. lia.
Qed.

(** The rows 64..119 of the table differ from the polynomial; every other row
    is right. *)
Definition row_good (i : Z) : bool := (i <? 64) || (120 <=? i).

Lemma table_rows i :
  0 <= i < 256 -> (nth (Z.to_nat i) crc16tab 0 =? bitstep8 (Z.shiftl i 8)) = row_good i.
Proof.
  intros Hi. apply Bool.eqb_prop.
  apply (forall_below (fun i => Bool.eqb
    (nth (Z.to_nat i) crc16tab 0 =? bitstep8 (Z.shiftl i 8)) (row_good i)) 256);
    [vm_compute; done | lia].
Qed.

Lemma bitstep8_high h :
  0 <= h < 256 -> row_good h = true -> bitstep8 (Z.shiftl h 8) = nth (Z.to_nat h) crc16tab 0.
Proof. intros Hh Hg. rewrite <- (table_rows h Hh) in Hg. bool_arith. done. Qed.

Lemma bitstep8_low l : 0 <= l < 256 -> bitstep8 l = Z.shiftl l 8.
Proof.
  intros Hl. apply Z.eqb_eq.
  apply (forall_below (fun l => bitstep8 l =? Z.shiftl l 8) 256); [vm_compute; done | lia].
Qed.

Lemma split_u16 x : 0 <= x < 2^16 -> x = Z.lxor (Z.shiftl (Z.shiftr x 8) 8) (x mod 2^8).
Proof.
  intros Hx. apply Z.bits_inj'. intros n Hn. rewrite Z.lxor_spec.
  destruct (Z.ltb_spec n 8).
  - rewrite Z.shiftl_spec_low, Z.mod_pow2_bits_low by lia. by destruct (Z.testbit x n).
  - rewrite Z.mod_pow2_bits_high, Z.shiftl_spec, Z.shiftr_spec by lia.
    replace (n - 8 + 8) with n by lia. by destruct (Z.testbit x n).
Qed.

Lemma shiftr8_range x : 0 <= x < 2^16 -> 0 <= Z.shiftr x 8 < 256.
Proof.
  intros. rewrite Z.shiftr_div_pow2 by lia.
  split; [apply Z.div_pos; lia | apply Z.div_lt_upper_bound; lia].
Qed.

Lemma bitstep8_table x :
  0 <= x < 2^16 -> row_good (Z.shiftr x 8) = true ->
  bitstep8 x = Z.lxor (Z.shiftl x 8 mod 2^16) (nth (Z.to_nat (Z.shiftr x 8)) crc16tab 0).
Proof.
  intros Hx Hg. rewrite (split_u16 x Hx) at 1.
  rewrite bitstep8_lxor, bitstep8_high by (done || by apply shiftr8_range).
  rewrite bitstep8_low by (apply Z.mod_pos_bound; lia).
  rewrite Z.lxor_comm. f_equal.
  rewrite !Z.shiftl_mul_pow2 by lia.
  change (2^16) with (2^8 * 2^8). by rewrite Z.mul_mod_distr_r by lia.
Qed.

Lemma lxor_range n a b : 0 <= n -> 0 <= a < 2^n -> 0 <= b < 2^n -> 0 <= Z.lxor a b < 2^n.
Proof.
  intros Hn Ha Hb. rewrite <- (Z.mod_small a (2^n)), <- (Z.mod_small b (2^n)) by done.
  assert (Z.lxor (a mod 2^n) (b mod 2^n) = Z.lxor a b mod 2^n) as ->;
    [|by apply Z.mod_pos_bound; lia].
  apply Z.bits_inj'. intros i Hi. rewrite Z.lxor_spec.
  destruct (Z.ltb_spec i n).
  - by rewrite !Z.mod_pow2_bits_low, Z.lxor_spec by lia.
  - by rewrite !Z.mod_pow2_bits_high by lia.
Qed.

Lemma table_range i : 0 <= nth i crc16tab 0 < 2^16.
Proof.
  assert (forallb (fun z => (0 <=? z) && (z <? 2^16)) crc16tab = true) as H
    by (vm_compute; done).
  rewrite forallb_forall in H.
  destruct (nth_in_or_default i crc16tab 0) as [Hin| ->]; [|lia].
  apply H in Hin. bool_arith. lia.
Qed.

Lemma crc_step_range crc b : 0 <= crc_step crc b < 2^16.
Proof.
  apply lxor_range; [lia | apply Z.mod_pos_bound; lia | apply table_range].
Qed.

(** The table row a step looks up. *)
Definition lookup_row (crc : Z) (b : byte) : Z := Z.lxor (Z.shiftr crc 8 mod 2^8) (zb b).

Lemma lookup_row_shiftr crc b :
  0 <= crc < 2^16 -> Z.shiftr (Z.lxor crc (Z.shiftl (zb b) 8)) 8 = lookup_row crc b.
Proof.
  intros Hc. unfold lookup_row.
  rewrite Z.shiftr_lxor, Z.shiftr_shiftl_l, Z.shiftl_0_r by lia.
  rewrite Z.mod_small; [done|]. by apply shiftr8_range.
Qed.

Lemma crc_step_bitwise crc b :
  0 <= crc < 2^16 -> row_good (lookup_row crc b) = true ->
  crc_step crc b = bitstep8 (Z.lxor crc (Z.shiftl (zb b) 8)).
Proof.
  intros Hc Hg. pose proof (zb_range b) as Hb.
  rewrite bitstep8_table, lookup_row_shiftr; [|done| |by rewrite lookup_row_shiftr].
  2:{ apply lxor_range; [lia|done|]. rewrite Z.shiftl_mul_pow2; lia. }
  unfold crc_step. f_equal.
  rewrite Z.shiftl_lxor. apply Z.bits_inj'. intros n Hn. rewrite !testbit_u16 by done.
  destruct (Z.ltb_spec n 16); [|done]. cbn [andb]. rewrite Z.lxor_spec.
  rewrite (Z.shiftl_spec (Z.shiftl _ _)) by done.
  destruct (Z.ltb_spec n 8).
  - rewrite Z.shiftl_spec_low, (Z.testbit_neg_r (Z.shiftl _ _)) by lia. done.
  - rewrite (Z.shiftl_spec_low (zb b)) by lia. by destruct (Z.testbit _ n).
Qed.

Lemma CRC16_foldl_range buf c : 0 <= c < 2^16 -> 0 <= foldl crc_step c buf < 2^16.
Proof.
  revert c. induction buf as [|b buf IH]; intros c Hc; [done|]. simpl.
  apply IH, crc_step_range.
Qed.

(** Whether every table row the run over [buf] looks up is a good one. *)
Fixpoint rows_good (crc : Z) (buf : bytes) : bool :=
  match buf with
  | [] => true
  | b :: buf' => row_good (lookup_row crc b) && rows_good (crc_step crc b) buf'
  end.

Lemma crc_foldl_bitwise buf c :
  0 <= c < 2^16 -> rows_good c buf = true ->
  foldl crc_step c buf
  = foldl (fun crc b => bitstep8 (Z.lxor crc (Z.shiftl (zb b) 8))) c buf.
Proof.
  revert c. induction buf as [|b buf IH]; intros c Hc Hg; [done|]. simpl in *. bool_arith.
  rewrite <- crc_step_bitwise by done. apply IH; [apply crc_step_range|done].
Qed.

Lemma CRC16_xmodem buf : rows_good 0 buf = true -> CRC16 buf = crc16_xmodem buf.
Proof. intros. apply crc_foldl_bitwise; [lia|done]. Qed.

(** ** The hash-tag scan *)

Section hash_tag.
Implicit Types (key p t rest : bytes).

Lemma loop_skip key p rest i :
  lbrace ∉ p -> hashTag_loop key (p ++ rest) i (-1) = hashTag_loop key rest (i + len p) (-1).
Proof.
  revert i. induction p as [|x p IH]; intros i Hp; simpl; [f_equal; lia|].
  rewrite (proj2 (byte_eqb_neq x lbrace)) by set_solver.
  rewrite andb_false_r, IH by set_solver. f_equal. lia.
Qed.

Lemma loop_tag key t rest i s :
  lbrace ∉ t -> rbrace ∉ t ->
  hashTag_loop key (t ++ rest) i s = hashTag_loop key rest (i + len t) s.
Proof.
  revert i. induction t as [|x t IH]; intros i Hl Hr; simpl; [f_equal; lia|].
  rewrite (proj2 (byte_eqb_neq x lbrace)), (proj2 (byte_eqb_neq x rbrace)) by set_solver.
  cbn [andb]. rewrite IH by set_solver. f_equal. lia.
Qed.

Lemma loop_no_rbrace key rest i s : rbrace ∉ rest -> hashTag_loop key rest i s = [].
Proof.
  revert i s. induction rest as [|x rest IH]; intros i s Hr; [done|]. simpl.
  rewrite (proj2 (byte_eqb_neq x rbrace)) by set_solver. cbn [andb].
  rewrite !IH by set_solver. by destruct (x =b lbrace).
Qed.

Lemma loop_no_lbrace key rest i : lbrace ∉ rest -> hashTag_loop key rest i (-1) = [].
Proof. intros H. rewrite <- (app_nil_r rest), loop_skip by done. done. Qed.

(** From just after an opening brace at [len p]: the tag is what precedes the
    next closing brace. *)
Lemma loop_after_open p t rest :
  lbrace ∉ t -> rbrace ∉ t -> t <> [] ->
  let key := p ++ lbrace :: t ++ rbrace :: rest in
  hashTag_loop key (t ++ rbrace :: rest) (len p + 1) (len p) = t.
Proof.
  intros Hl Hr Ht key. rewrite loop_tag by done. simpl.
  assert (0 < len t) by (destruct t; [done|simpl; lia]).
  rewrite (proj2 (Z.leb_le 0 (len p))), (proj2 (Z.ltb_lt _ _)) by lia.
  replace (Z.to_nat (len p + 1 + len t - (len p + 1))) with (length t) by lia.
  replace (Z.to_nat (len p + 1)) with (length (p ++ [lbrace])) by (rewrite length_app; simpl; lia).
  subst key. replace (p ++ lbrace :: t ++ rbrace :: rest)
    with ((p ++ [lbrace]) ++ t ++ rbrace :: rest) by by rewrite <- app_assoc.
  by rewrite drop_length_app, take_length_app.
Qed.

Lemma hashTag_spec p t q :
  lbrace ∉ p -> lbrace ∉ t -> rbrace ∉ t -> t <> [] ->
  hashTag (p ++ lbrace :: t ++ rbrace :: q) = t.
Proof.
  intros. unfold hashTag. rewrite loop_skip by done. cbn [hashTag_loop].
  rewrite byte_eqb_refl. by apply loop_after_open.
Qed.

Lemma IndexByte_split l c i :
  IndexByte l c = Some i -> exists a b, l = a ++ c :: b /\ length a = i /\ c ∉ a.
Proof.
  intros H. apply IndexByte_Some in H as (Hi & Hlt & Hn).
  exists (take i l), (drop (S i) l). split_and!; [|by rewrite length_take; lia|done].
  by rewrite take_drop_middle.
Qed.

Lemma drop_S_length_app (a : bytes) c b : drop (S (length a)) (a ++ c :: b) = b.
Proof.
  replace (a ++ c :: b) with ((a ++ [c]) ++ b) by by rewrite <- app_assoc.
  replace (S (length a)) with (length (a ++ [c])) by (rewrite length_app; simpl; lia).
  apply drop_length_app.
Qed.

Lemma existsb_notin (c : byte) l : existsb (Byte.eqb c) l = false -> c ∉ l.
Proof.
  intros H Hin. apply list_elem_of_In in Hin.
  assert (existsb (Byte.eqb c) l = true) by (apply existsb_exists; eauto using byte_eqb_refl).
  congruence.
Qed.

(** The scan returns the text the cluster specification hashes, or nothing when
    the specification hashes the whole key. *)
Lemma hashTag_redis key :
  single_tag key = true ->
  (hashTag key = [] /\ redis_hash_part key = key)
  \/ (hashTag key <> [] /\ redis_hash_part key = hashTag key).
Proof.
  unfold single_tag, redis_hash_part.
  destruct (IndexByte key lbrace) as [s|] eqn:Es.
  2:{ intros _. left. split; [|done]. by apply loop_no_lbrace, IndexByte_None. }
  apply IndexByte_split in Es as (p & rest & -> & <- & Hp).
  rewrite drop_S_length_app.
  destruct (IndexByte rest rbrace) as [n|] eqn:En.
  2:{ intros _. left. split; [|done]. unfold hashTag. rewrite loop_skip by done. simpl.
      by apply loop_no_rbrace, IndexByte_None. }
  apply IndexByte_split in En as (t & q & -> & <- & Ht).
  destruct t as [|c t'].
  - simpl. intros H. bool_arith. apply (existsb_notin lbrace q) in H. left. split; [|done].
    unfold hashTag. rewrite loop_skip by done. cbn [app hashTag_loop].
    rewrite !byte_eqb_refl. change (rbrace =b lbrace) with false. cbn [andb].
    rewrite (proj2 (Z.leb_le _ _)), (proj2 (Z.ltb_ge _ _)) by lia.
    by apply loop_no_lbrace.
  - cbn [length]. change (S (length t')) with (length (c :: t')).
    rewrite take_length_app. intros H. bool_arith. apply existsb_notin in H.
    right. by rewrite hashTag_spec.
Qed.

End hash_tag.

(** ** Properties *)

(** Every key hashes to a slot of the cluster, 0 to 16383, so the
    slot indexes the topology's slot array. *)
Lemma HashSlot_range key : 0 <= HashSlot key < ClusterSlots.
Proof. unfold HashSlot. case_bool; apply Z.mod_pos_bound; done. Qed.

(** Keys that share a hash tag share a slot: a key whose first '{' opens a
    non-empty tag hashes as the tag alone, whatever surrounds it. *)
Lemma HashSlot_tag_colocates p t q :
  lbrace ∉ p -> lbrace ∉ t -> rbrace ∉ t -> t <> [] ->
  HashSlot (p ++ lbrace :: t ++ rbrace :: q) = HashSlot t.
Proof.
  intros Hp Hl Hr Ht. unfold HashSlot. rewrite hashTag_spec by done.
  assert (hashTag t = []) as -> by by apply loop_no_lbrace.
  assert (0 < len t) by (destruct t; [done|simpl; lia]).
  by rewrite (proj2 (Z.ltb_lt _ _)).
Qed.

Lemma HashSlot_tag_colocates_witness :
  HashSlot (bs "user:{42}.name") = HashSlot (bs "42").
Proof.
  apply (HashSlot_tag_colocates (bs "user:") (bs "42") (bs ".name"));
    [apply existsb_notin; reflexivity..|discriminate].
Defined.

(** The slot of [key] by the Redis Cluster specification. *)
Definition redis_slot (key : bytes) : Z := crc16_xmodem (redis_hash_part key) mod ClusterSlots.

(** C38: the slot is the one of the Redis Cluster specification (CRC16/XMODEM of
    the hash part, modulo 16384) for every key with at most one '{' whose
    checksum does not read one of the damaged table rows. *)
Theorem HashSlot_redis key :
  single_tag key = true -> rows_good 0 (redis_hash_part key) = true ->
  HashSlot key = redis_slot key.
Proof.
  intros Hs Hg. unfold HashSlot, redis_slot. rewrite <- CRC16_xmodem by done.
  destruct (hashTag_redis key Hs) as [[Ht ->]|[Ht ->]].
  - by rewrite Ht.
  - destruct (hashTag key); [done|]. done.
Qed.

Lemma HashSlot_redis_witness : HashSlot (bs "user:{1}") = 9842.
Proof.
  rewrite (HashSlot_redis (bs "user:{1}")); [reflexivity|reflexivity|reflexivity].
Defined.

(** The 56 table rows 64 to 119 do not hold the CRC16/XMODEM values, so every
    one-byte key that reads one (among them '@', 'A' to 'Z' and 'a' to 'w') is
    sent to a slot other than the one Redis Cluster assigns. *)
Lemma HashSlot_corrupt_rows b : 64 <= zb b < 120 -> HashSlot [b] <> redis_slot [b].
Proof.
  intros Hb Heq.
  assert (implb ((64 <=? zb b) && (zb b <? 120)) (negb (HashSlot [b] =? redis_slot [b])) = true)
    as H by (destruct b; vm_compute; reflexivity).
  rewrite (proj2 (Z.leb_le _ _)), (proj2 (Z.ltb_lt _ _)), Heq, Z.eqb_refl in H by lia. done.
Qed.

Lemma HashSlot_corrupt_rows_witness : HashSlot (bs "a") <> redis_slot (bs "a").
Proof. apply (HashSlot_corrupt_rows x61). vm_compute. split; [discriminate|reflexivity]. Defined.

(** Of nested braces the proxy takes the innermost tag where Redis takes the
    bytes after the first one: {{t}} hashes as t here and as {t there. *)
Lemma HashSlot_nested_tag t :
  lbrace ∉ t -> rbrace ∉ t -> t <> [] ->
  hashTag (lbrace :: lbrace :: t ++ [rbrace]) = t /\
  redis_hash_part (lbrace :: lbrace :: t ++ [rbrace]) = lbrace :: t.
Proof.
  intros Hl Hr Ht. split.
  - unfold hashTag. cbn [hashTag_loop]. rewrite !byte_eqb_refl.
    exact (loop_after_open [lbrace] t [] Hl Hr Ht).
  - unfold redis_hash_part. cbn [IndexByte]. rewrite byte_eqb_refl. cbn [drop].
    change (lbrace :: t ++ [rbrace]) with ((lbrace :: t) ++ rbrace :: []).
    rewrite IndexByte_app by (apply not_elem_of_cons; done). cbn [length].
    change (S (length t)) with (length (lbrace :: t)). apply take_length_app.
Qed.


Lemma HashSlot_nested_tag_witness :
  hashTag (bs "{{ab}") = bs "ab" /\ redis_hash_part (bs "{{ab}") = bs "{ab".
Proof.
  apply (HashSlot_nested_tag (bs "ab"));
    [apply existsb_notin; reflexivity..|discriminate].
Defined.
