(* ===== verification/Value.v ===== *)
(** * Value: RESP values, requests and the encoders

    Model of the data types of [pkg/proto/resp.go], of the methods of [*Value]
    and of the functions that build encoded replies and commands.  A [*Value]
    that may be nil is an [option Value]; the elements of an array are such
    pointers.  The encoders append to a buffer, as the source does. *)

From S2P Require Import Prelude GoStd.


Definition TypeSimpleString : byte := x2b.
Definition TypeError : byte := x2d.
Definition TypeInteger : byte := x3a.
Definition TypeBulkString : byte := x24.
Definition TypeArray : byte := x2a.

#[warnings="-register-all"]
Inductive Value := mkValue {
  Type_ : byte;
  Str : bytes;
  Integer : Z;
  Array : list (option Value);
  IsNil : bool;
}.

(** Composite literals: the fields a literal does not name are zero. *)
Definition str_value (t : byte) (s : bytes) : Value := mkValue t s 0 [] false.
Definition nil_value (t : byte) : Value := mkValue t [] 0 [] true.
Definition array_value (a : list (option Value)) : Value := mkValue TypeArray [] 0 a false.

Definition ErrValue (msg : bytes) : Value := str_value TypeError msg.
Definition OKValue : Value := str_value TypeSimpleString (bs "OK").
Definition IntValue (n : Z) : Value := mkValue TypeInteger [] n [] false.
(** [None] is the nil slice. *)
Definition BulkValue (data : option bytes) : Value :=
  match data with
  | None => nil_value TypeBulkString
  | Some d => str_value TypeBulkString d
  end.

(** [v.String()] *)
Definition String_ (v : option Value) : bytes :=
  match v with
  | None => []
  | Some v =>
      if IsNil v then [] else
      if (Type_ v =b TypeSimpleString) || (Type_ v =b TypeError) || (Type_ v =b TypeBulkString)
      then Str v
      else if Type_ v =b TypeInteger then FormatInt (Integer v)
      else if Type_ v =b TypeArray then
        if len (Array v) =? 0 then bs "[]"
        else bs "[" ++ FormatInt (len (Array v)) ++ bs " elements]"
      else []
  end.

Definition IsError (v : option Value) : bool :=
  match v with None => false | Some v => Type_ v =b TypeError end.

(** [v.Error()] *)
Definition Error (v : option Value) : bytes :=
  match v with
  | Some w => if IsError v then Str w else []
  | None => []
  end.

Definition error_prefix (v : option Value) (p : bytes) : bool :=
  match v with
  | Some w => IsError v && HasPrefix (Str w) p
  | None => false
  end.
Definition IsMovedError (v : option Value) : bool := error_prefix v (bs "MOVED ").
Definition IsAskError (v : option Value) : bool := error_prefix v (bs "ASK ").
Definition IsClusterDownError (v : option Value) : bool := error_prefix v (bs "CLUSTERDOWN").
Definition IsLoadingError (v : option Value) : bool := error_prefix v (bs "LOADING").

(** The body shared by [Value.ParseRedirection] and [parseRedirectionMsg]:
    three space-separated parts, the second a decimal slot. *)
Definition parse_redirection (msg : bytes) (slot_err : bytes) : outcome (Z * bytes) :=
  match SplitN msg x20 3 with
  | [_; s; addr] =>
      match Atoi s with
      | None => Err (Errorf (slot_err ++ msg))
      | Some n => Ok (n, addr)
      end
  | _ => Err (Errorf (bs "invalid redirection: " ++ msg))
  end.

Definition ParseRedirection (v : option Value) : outcome (Z * bytes) :=
  match v with
  | Some w =>
      if IsError v then parse_redirection (Str w) (bs "invalid slot in redirection: ")
      else Err (Errorf (bs "not an error value"))
  | None => Err (Errorf (bs "not an error value"))
  end.

(** ** Requests *)

Record Request := mkRequest {
  Args : list bytes;
  Raw : bytes;
  Cmd : bytes;
}.

(** ** Encoders *)

Definition appendInt (b : bytes) (n : Z) : bytes := b ++ FormatInt n.

Definition appendBulk (b data : bytes) : bytes :=
  let b := b ++ [x24] in
  let b := appendInt b (len data) in
  let b := b ++ CRLF in
  let b := b ++ data in
  b ++ CRLF.

Definition nilBulk : bytes := bs "$-1" ++ CRLF.
Definition nilArray : bytes := bs "*-1" ++ CRLF.

Fixpoint appendValue (b : bytes) (v : Value) {struct v} : bytes :=
  if Type_ v =b TypeSimpleString then b ++ [x2b] ++ Str v ++ CRLF
  else if Type_ v =b TypeError then b ++ [x2d] ++ Str v ++ CRLF
  else if Type_ v =b TypeInteger then appendInt (b ++ [x3a]) (Integer v) ++ CRLF
  else if Type_ v =b TypeBulkString then
    if IsNil v then b ++ nilBulk else appendBulk b (Str v)
  else if Type_ v =b TypeArray then
    if IsNil v then b ++ nilArray else
    let b := appendInt (b ++ [x2a]) (len (Array v)) ++ CRLF in
    (fix elems (b : bytes) (l : list (option Value)) : bytes :=
       match l with
       | [] => b
       | None :: l' => elems (b ++ nilBulk) l'
       | Some e :: l' => elems (appendValue b e) l'
       end) b (Array v)
  else b.

Definition appendValuePtr (b : bytes) (v : option Value) : bytes :=
  match v with None => b ++ nilBulk | Some v => appendValue b v end.

(** The encode buffer comes from a pool and is reset to length 0 before use, so
    the result is what is appended to an empty buffer. *)
Definition EncodeValue (v : option Value) : bytes := appendValuePtr [] v.

Definition EncodeSimpleString (s : bytes) : bytes := [x2b] ++ s ++ CRLF.
Definition EncodeError (msg : bytes) : bytes := [x2d] ++ msg ++ CRLF.
Definition EncodeInteger (n : Z) : bytes := [x3a] ++ FormatInt n ++ CRLF.
Definition EncodeBulkString (data : bytes) : bytes := appendBulk [] data.

Definition EncodeCommandBytes (args : list bytes) : bytes :=
  let b := [x2a] in
  let b := appendInt b (len args) in
  let b := b ++ CRLF in
  foldl appendBulk b args.

(** ** Induction over values *)

Section value_ind.
Variable P : Value -> Prop.
Hypothesis H : forall t s n l b,
  (forall v, Some v ∈ l -> P v) -> P (mkValue t s n l b).

Fixpoint value_ind' (v : Value) : P v :=
  match v with
  | mkValue t s n l b =>
      H t s n l b
        ((fix go (l : list (option Value)) : forall v, Some v ∈ l -> P v :=
            match l with
            | [] => fun v Hin => False_ind _ (not_elem_of_nil _ Hin)
            | e :: l' => fun v Hin =>
                match proj1 (elem_of_cons l' (Some v) e) Hin with
                | or_introl Heq =>
                    match e as e0 return Some v = e0 -> P v with
                    | Some w => fun Heq => eq_ind_r P (value_ind' w) (Some_inj _ _ Heq)
                    | None => fun Heq => False_ind _ (Some_ne_None _ Heq)
                    end Heq
                | or_intror Hin' => go l' v Hin'
                end
            end) l)
  end.
End value_ind.

(** ** Lemmas *)

Definition appendElems (b : bytes) (l : list (option Value)) : bytes := foldl appendValuePtr b l.

Lemma appendValue_eq b t s n l k :
  appendValue b (mkValue t s n l k) =
  if t =b TypeSimpleString then b ++ [x2b] ++ s ++ CRLF
  else if t =b TypeError then b ++ [x2d] ++ s ++ CRLF
  else if t =b TypeInteger then appendInt (b ++ [x3a]) n ++ CRLF
  else if t =b TypeBulkString then if k then b ++ nilBulk else appendBulk b s
  else if t =b TypeArray then
    if k then b ++ nilArray
    else appendElems (appendInt (b ++ [x2a]) (len l) ++ CRLF) l
  else b.
Proof.
  cbn [appendValue Type_ Str Integer Array IsNil].
  assert (forall l b,
    (fix elems (b : bytes) (l : list (option Value)) : bytes :=
       match l with
       | [] => b
       | None :: l' => elems (b ++ nilBulk) l'
       | Some e :: l' => elems (appendValue b e) l'
       end) b l = appendElems b l) as Helems.
  { clear. induction l as [|[e|] l IH]; intros b; [done| |]; apply IH. }
  by rewrite Helems.
Qed.

Lemma appendBulk_app b d : appendBulk b d = b ++ appendBulk [] d.
Proof. unfold appendBulk, appendInt. by rewrite !app_nil_l, <- !app_assoc. Qed.

Lemma appendElems_app b l :
  (forall v b, Some v ∈ l -> appendValue b v = b ++ appendValue [] v) ->
  appendElems b l = b ++ appendElems [] l.
Proof.
  unfold appendElems. revert b. induction l as [|e l IH]; intros b Hl; simpl.
  { by rewrite app_nil_r. }
  rewrite IH, (IH (appendValuePtr [] e)) by (intros; apply Hl; set_solver).
  rewrite app_assoc. f_equal.
  destruct e as [v|]; simpl; [apply Hl; set_solver|done].
Qed.

Lemma appendValue_app b v : appendValue b v = b ++ appendValue [] v.
Proof.
  revert b. induction v as [t s n l k IH] using value_ind'. intros b.
  rewrite !appendValue_eq, (appendBulk_app b).
  rewrite (appendElems_app (appendInt (b ++ _) _ ++ _)),
    (appendElems_app (appendInt ([] ++ _) _ ++ _)) by auto.
  unfold appendInt. rewrite !app_nil_l. repeat case_bool; by rewrite <- ?app_assoc, ?app_nil_r.
Qed.

Lemma appendValuePtr_app b v : appendValuePtr b v = b ++ EncodeValue v.
Proof. destruct v; [apply appendValue_app|done]. Qed.

(** The encoding of an array is its header followed by its elements. *)
Lemma appendElems_concat b l : appendElems b l = b ++ concat (map EncodeValue l).
Proof.
  revert b. induction l as [|e l IH]; intros b; unfold appendElems in *; simpl.
  { by rewrite app_nil_r. }
  by rewrite IH, appendValuePtr_app, <- app_assoc.
Qed.

Lemma appendBulk_eq d : appendBulk [] d = x24 :: FormatInt (len d) ++ CRLF ++ d ++ CRLF.
Proof. unfold appendBulk, appendInt. by rewrite app_nil_l, <- !app_assoc. Qed.

Lemma EncodeCommandBytes_eq args :
  EncodeCommandBytes args =
  x2a :: FormatInt (len args) ++ CRLF ++ concat (map (appendBulk []) args).
Proof.
  unfold EncodeCommandBytes, appendInt.
  assert (forall l b, foldl appendBulk b l = b ++ concat (map (appendBulk []) l)) as ->.
  { induction l as [|d l IH]; intros b; simpl; [by rewrite app_nil_r|].
    by rewrite IH, appendBulk_app, <- app_assoc. }
  by rewrite <- !app_assoc.
Qed.

