(* ===== verification/RespParse.v ===== *)
(** * RespParse: the buffer parsers

    Model of the parsers of [pkg/proto/resp.go] that work on a byte slice which
    may hold an incomplete message: [ParseRequest] for clients, [ParseValue] and
    [ScanValue] for backends.  Positions are indices into the buffer; lengths
    read from the wire are [int64] and their arithmetic wraps, so a slice
    expression or an allocation can panic, and the models say when.

    The recursive functions take fuel.  A value takes at least one byte, so
    [2 * length buf + 1] covers the nesting and the element loops of any buffer
    ([parse_total] and its companions prove that the fuel never runs out). *)

From S2P Require Import Prelude GoStd Value.

(** ** Lines and integers *)

(** [if len(line) > 0 && line[len(line)-1] == '\r' { line = line[:len(line)-1] }] *)
Definition strip_cr (line : bytes) : bytes :=
  match last line with
  | Some c => if c =b CR then take (length line - 1) line else line
  | None => line
  end.

Definition readLine (buf : bytes) (pos : nat) : outcome (bytes * nat) :=
  match IndexByte (drop pos buf) LF with
  | None => Err errIncomplete
  | Some idx => Ok (strip_cr (take idx (drop pos buf)), (pos + idx + 1)%nat)
  end.

Fixpoint parse_digits (n : Z) (b : bytes) : outcome Z :=
  match b with
  | [] => Ok n
  | c :: b' =>
      if (zb c <? 48) || (57 <? zb c) then Err ErrInvalidProtocol
      else parse_digits (wrap64 (wrap64 (n * 10) + (zb c - 48))) b'
  end.

Definition parseIntBytes (b : bytes) : outcome Z :=
  match b with
  | [] => Err ErrInvalidProtocol
  | c :: b' =>
      if c =b x2d then n ← parse_digits 0 b'; Ok (wrap64 (- n))
      else parse_digits 0 b
  end.

(** ** Values *)

Definition parseInlineAt (buf : bytes) (pos : nat) : outcome (Value * nat) :=
  match IndexByte (drop pos buf) LF with
  | None => Err errIncomplete
  | Some idx =>
      let line := TrimSpace (strip_cr (take idx (drop pos buf))) in
      if len line =? 0 then Err ErrInvalidProtocol
      else Ok (array_value (map (fun p => Some (str_value TypeBulkString p)) (Fields line)),
               (pos + idx + 1)%nat)
  end.

(** The bulk payload of length [n] that starts at [end_]: its end, or
    incomplete; [int] arithmetic wraps. *)
Definition bulk_need (end_ : nat) (n : Z) : Z := wrap64 (wrap64 (Z.of_nat end_ + n) + 2).

Fixpoint parseValueAt (fuel : nat) (buf : bytes) (pos : nat) {struct fuel} : outcome (Value * nat) :=
  match fuel with
  | O => NoFuel
  | S fuel =>
      match buf !! pos with
      | None => Err errIncomplete
      | Some typ =>
          if typ =b TypeSimpleString then
            '(line, end_) ← readLine buf (S pos);
            Ok (str_value TypeSimpleString line, end_)
          else if typ =b TypeError then
            '(line, end_) ← readLine buf (S pos);
            Ok (str_value TypeError line, end_)
          else if typ =b TypeInteger then
            '(line, end_) ← readLine buf (S pos);
            n ← parseIntBytes line;
            Ok (IntValue n, end_)
          else if typ =b TypeBulkString then
            '(line, end_) ← readLine buf (S pos);
            n ← parseIntBytes line;
            if n <? 0 then Ok (nil_value TypeBulkString, end_) else
            let need := bulk_need end_ n in
            if len buf <? need then Err errIncomplete else
            _ ← makeslice 1 n;
            data ← slice buf (Z.of_nat end_) (wrap64 (Z.of_nat end_ + n));
            Ok (str_value TypeBulkString data, Z.to_nat need)
          else if typ =b TypeArray then
            '(line, end_) ← readLine buf (S pos);
            n ← parseIntBytes line;
            if n <? 0 then Ok (nil_value TypeArray, end_) else
            _ ← makeslice 8 n;
            '(arr, cur) ← parseElems fuel buf end_ n;
            Ok (array_value arr, cur)
          else parseInlineAt buf pos
      end
  end
(** [for i := 0; i < n; i++ { v, next, verr := parseValueAt(buf, cur); ... }] *)
with parseElems (fuel : nat) (buf : bytes) (cur : nat) (n : Z) {struct fuel}
    : outcome (list (option Value) * nat) :=
  match fuel with
  | O => NoFuel
  | S fuel =>
      if n <=? 0 then Ok ([], cur) else
      '(v, next) ← parseValueAt fuel buf cur;
      '(vs, cur') ← parseElems fuel buf next (n - 1);
      Ok (Some v :: vs, cur')
  end.

Definition value_fuel (buf : bytes) : nat := S (2 * length buf).

(** [Ok None] is [(nil, 0, nil)]: more data is needed. *)
Definition ParseValue (buf : bytes) : outcome (option (Value * nat)) :=
  if len buf =? 0 then Ok None else
  match parseValueAt (value_fuel buf) buf 0 with
  | Ok r => Ok (Some r)
  | Err errIncomplete => Ok None
  | Err e => Err e
  | Panic => Panic
  | NoFuel => NoFuel
  end.

(** ** Scanning for the end of a value *)

Inductive ErrorKind := ErrorKindNone | ErrorKindMoved | ErrorKindAsk | ErrorKindOther.

#[global] Instance ErrorKind_eq_decision : EqDecision ErrorKind.
Proof. solve_decision. Defined.

Definition scan_none : outcome (Z * ErrorKind * bytes) := Ok (0, ErrorKindNone, []).

Definition error_kind (line : bytes) : ErrorKind :=
  if HasPrefix line (bs "MOVED ") then ErrorKindMoved
  else if HasPrefix line (bs "ASK ") then ErrorKindAsk
  else ErrorKindOther.

(** The end is an [int]: it is 0 when the value is incomplete, and negative when
    the wire length overflowed. *)
Fixpoint scanValueAt (fuel : nat) (buf : bytes) (pos : Z) {struct fuel}
    : outcome (Z * ErrorKind * bytes) :=
  match fuel with
  | O => NoFuel
  | S fuel =>
      if len buf <=? pos then scan_none else
      match (if pos <? 0 then None else buf !! Z.to_nat pos) with
      | None => Panic
      | Some typ =>
          let p := S (Z.to_nat pos) in
          if (typ =b TypeSimpleString) || (typ =b TypeInteger) then
            match readLine buf p with
            | Ok (_, end_) => Ok (Z.of_nat end_, ErrorKindNone, [])
            | _ => scan_none
            end
          else if typ =b TypeError then
            match readLine buf p with
            | Ok (line, end_) => Ok (Z.of_nat end_, error_kind line, line)
            | _ => scan_none
            end
          else if typ =b TypeBulkString then
            match readLine buf p with
            | Ok (line, end2) =>
                match parseIntBytes line with
                | Ok n =>
                    if n <? 0 then Ok (Z.of_nat end2, ErrorKindNone, []) else
                    let need := bulk_need end2 n in
                    if len buf <? need then scan_none else Ok (need, ErrorKindNone, [])
                | _ => scan_none
                end
            | _ => scan_none
            end
          else if typ =b TypeArray then
            match readLine buf p with
            | Ok (line, cur) =>
                match parseIntBytes line with
                | Ok n =>
                    if n <? 0 then Ok (Z.of_nat cur, ErrorKindNone, []) else
                    end_ ← scanElems fuel buf (Z.of_nat cur) n;
                    Ok (end_, ErrorKindNone, [])
                | _ => scan_none
                end
            | _ => scan_none
            end
          else
            match IndexByte (drop (Z.to_nat pos) buf) LF with
            | None => scan_none
            | Some idx => Ok (pos + Z.of_nat idx + 1, ErrorKindNone, [])
            end
      end
  end
(** The element loop; 0 as soon as an element is incomplete. *)
with scanElems (fuel : nat) (buf : bytes) (cur n : Z) {struct fuel} : outcome Z :=
  match fuel with
  | O => NoFuel
  | S fuel =>
      if n <=? 0 then Ok cur else
      '(next, _, _) ← scanValueAt fuel buf cur;
      if next =? 0 then Ok 0 else scanElems fuel buf next (n - 1)
  end.

Definition ScanValue (buf : bytes) : outcome (Z * ErrorKind * bytes) :=
  scanValueAt (value_fuel buf) buf 0.

(** ** Requests *)

(** An argument is a window of the request's [Raw] buffer, which it shares, or
    bytes of its own. *)
Inductive argref := InRaw (start n : nat) | Own (b : bytes).

Definition deref (raw : bytes) (a : argref) : bytes :=
  match a with InRaw start n => take n (drop start raw) | Own b => b end.

Fixpoint parseArgs (fuel : nat) (buf : bytes) (cur : nat) (n : Z) {struct fuel}
    : outcome (list (nat * nat) * nat) :=
  match fuel with
  | O => NoFuel
  | S fuel =>
      if n <=? 0 then Ok ([], cur) else
      match buf !! cur with
      | None => Err errIncomplete
      | Some c =>
          if negb (c =b TypeBulkString) then Err errIncomplete else
          '(bline, bend) ← readLine buf (S cur);
          blen ← parseIntBytes bline;
          if blen <? 0 then Err ErrInvalidProtocol else
          let need := bulk_need bend blen in
          if len buf <? need then Err errIncomplete else
          _ ← slice buf (Z.of_nat bend) (wrap64 (Z.of_nat bend + blen));
          '(args, cur') ← parseArgs fuel buf (Z.to_nat need) (n - 1);
          Ok ((bend, Z.to_nat blen) :: args, cur')
      end
  end.

(** The arguments are rebased from [buf] onto the copy appended to [raw]; an
    empty argument keeps its empty slice. *)
Definition rebase (rawOffset : nat) (a : nat * nat) : argref :=
  if (snd a =? 0)%nat then Own [] else InRaw (rawOffset + fst a) (snd a).

Definition parseInlineRequest (buf raw : bytes) : outcome (list argref * bytes * nat) :=
  match IndexByte buf LF with
  | None => Err errIncomplete
  | Some idx =>
      let line := TrimSpace (strip_cr (take idx buf)) in
      if len line =? 0 then Err ErrInvalidProtocol
      else Ok (map Own (Fields line), raw ++ take (idx + 1) buf, (idx + 1)%nat)
  end.

Definition parseRequestDirect (buf raw : bytes) : outcome (list argref * bytes * nat) :=
  match buf with
  | [] => Err errIncomplete
  | c :: _ =>
      if negb (c =b TypeArray) then parseInlineRequest buf raw else
      '(line, pos) ← readLine buf 1;
      n ← parseIntBytes line;
      if n <=? 0 then Err ErrInvalidProtocol else
      _ ← makeslice 24 n;
      '(args, cur) ← parseArgs (S (length buf)) buf pos n;
      Ok (map (rebase (length raw)) args, raw ++ take cur buf, cur)
  end.

(** [upperASCIIInPlace] on the window [start, start+n) of [raw]. *)
Definition upper_window (raw : bytes) (start n : nat) : bytes :=
  take start raw ++ map upper_byte (take n (drop start raw)) ++ drop (start + n) raw.

(** [upperASCIIInPlace(val[0])]: the command name is raised in the buffer it
    lives in, so a window changes [Raw] too. *)
Definition upperASCIIInPlace (raw : bytes) (a : argref) : bytes * argref :=
  match a with
  | InRaw start n => (upper_window raw start n, a)
  | Own b => (raw, Own (map upper_byte b))
  end.

(** [Ok None] is [(nil, 0, nil)].  The pooled [raw] buffer is reset to length 0
    before the call.  [make] never returns a nil slice, so the [val == nil]
    branch of the source is not reached. *)
Definition ParseRequest (buf : bytes) : outcome (option (Request * nat)) :=
  if len buf =? 0 then Ok None else
  match parseRequestDirect buf [] with
  | Err errIncomplete => Ok None
  | Err e => Err e
  | Panic => Panic
  | NoFuel => NoFuel
  | Ok (val, raw, n) =>
      match val with
      | [] => Ok (Some (mkRequest [] raw [], n))
      | a :: val' =>
          let '(raw', a') := upperASCIIInPlace raw a in
          let args := map (deref raw') (a' :: val') in
          Ok (Some (mkRequest args raw' (deref raw' a'), n))
      end
  end.
