(* ===== verification/RespFacts.v ===== *)
(** * RespFacts: correctness of the buffer parsers

    What [RespParse] computes: the encoders' output is read back (round trips),
    a partial message is never an error (prefixes), bytes that follow a message
    do not change its reading (chunking), the scan that forwards backend replies
    agrees with the full parser, and the fuel of the models never runs out. *)

From S2P Require Import Prelude GoStd Value RespParse.

(** A buffer the runtime can hold: [makeslice] refuses 2^48 bytes, and 2^45
    pointers fit below it. *)
Definition buffer_ok (buf : bytes) : Prop := len buf <= 2^45.

(** ** Lines *)

Lemma strip_cr_snoc l : strip_cr (l ++ [CR]) = l.
Proof.
  unfold strip_cr. rewrite last_snoc, byte_eqb_refl, length_app. simpl.
  replace (length l + 1 - 1)%nat with (length l) by lia. apply take_length_app.
Qed.

Lemma readLine_at pre line rest :
  LF ∉ line ->
  readLine (pre ++ line ++ CRLF ++ rest) (length pre)
  = Ok (line, (length pre + length line + 2)%nat).
Proof.
  intros Hl. unfold readLine. rewrite drop_length_app.
  replace (line ++ CRLF ++ rest) with ((line ++ [CR]) ++ LF :: rest)
    by by rewrite <- app_assoc.
  rewrite IndexByte_app by (apply not_elem_of_app; split; [done|by rewrite list_elem_of_singleton]).
  rewrite take_length_app, strip_cr_snoc, length_app. do 2 f_equal. simpl. lia.
Qed.

Lemma readLine_bounds buf pos line e :
  readLine buf pos = Ok (line, e) -> (pos < e <= length buf)%nat.
Proof.
  unfold readLine. destruct (IndexByte _ _) as [i|] eqn:E; [|done].
  intros [= <- <-]. apply IndexByte_Some in E as (_ & Hi & _).
  rewrite length_drop in Hi. lia.
Qed.

Lemma IndexByte_ext l m c i : IndexByte l c = Some i -> IndexByte (l ++ m) c = Some i.
Proof.
  revert i. induction l as [|x l IH]; intros i; simpl; [done|].
  destruct (x =b c); [done|]. destruct (IndexByte l c) as [j|] eqn:E; [|done].
  intros [= <-]. by rewrite (IH j eq_refl).
Qed.

Lemma readLine_ext buf more pos r :
  readLine buf pos = Ok r -> readLine (buf ++ more) pos = Ok r.
Proof.
  unfold readLine. destruct (IndexByte _ _) as [i|] eqn:E; [|done]. intros [= <-].
  apply IndexByte_Some in E as Hi. destruct Hi as (_ & Hi & _). rewrite length_drop in Hi.
  rewrite drop_app_le, (IndexByte_ext _ _ _ _ E), take_app_le by (rewrite ?length_drop; lia).
  done.
Qed.

Lemma readLine_cases buf pos :
  (exists line e, readLine buf pos = Ok (line, e)) \/ readLine buf pos = Err errIncomplete.
Proof. unfold readLine. destruct (IndexByte _ _); eauto. Qed.

(** ** Integers *)

Lemma parse_digits_value l n :
  forallb is_digit l = true -> parse_digits (wrap64 n) l = Ok (wrap64 (dec_value n l)).
Proof.
  revert n. induction l as [|c l IH]; intros n Hl; [done|].
  cbn [forallb dec_value parse_digits] in *. bool_arith.
  unfold is_digit in *. bool_arith.
  rewrite (proj2 (Z.ltb_ge _ 48)), (proj2 (Z.ltb_ge 57 _)) by lia. cbn [orb].
  autorewrite with wrap. by rewrite IH.
Qed.

Lemma parseIntBytes_FormatInt n : int64_range n -> parseIntBytes (FormatInt n) = Ok n.
Proof.
  intros Hn. unfold FormatInt.
  assert (Hd : forall m, parse_digits 0 (fmt_digits 20 m []) = Ok (wrap64 (dec_value 0 (fmt_digits 20 m [])))).
  { intros m. rewrite <- (wrap64_id 0) at 1 by done. apply parse_digits_value, fmt_digits_digits. }
  unfold int64_range in Hn. case_bool; cbn [parseIntBytes].
  - rewrite byte_eqb_refl, Hd, dec_value_fmt by (change (10 ^ Z.of_nat 20) with (10^20); lia).
    go_simp. rewrite wrap64_opp, Z.opp_involutive, wrap64_id by done. done.
  - specialize (Hd n).
    rewrite dec_value_fmt, wrap64_id in Hd by (done || change (10 ^ Z.of_nat 20) with (10^20); lia).
    rewrite <- Hd. pose proof (fmt_digits_digits 20 n) as Hf.
    pose proof (fmt_digits_nonempty 19 n). destruct (fmt_digits 20 n []) as [|c l]; [simpl in *; lia|].
    simpl in Hf. bool_arith. cbn [parseIntBytes].
    rewrite (proj2 (byte_eqb_neq c x2d)); [done|]. by apply is_digit_neq.
Qed.

Lemma parse_digits_cases l n :
  (exists m, parse_digits n l = Ok m) \/ parse_digits n l = Err ErrInvalidProtocol.
Proof. revert n. induction l as [|c l IH]; intros n; simpl; [eauto|]. case_bool; eauto. Qed.

Lemma parseIntBytes_cases l :
  (exists n, parseIntBytes l = Ok n) \/ parseIntBytes l = Err ErrInvalidProtocol.
Proof.
  unfold parseIntBytes. destruct l as [|c l]; [eauto|]. case_bool.
  - destruct (parse_digits_cases l 0) as [[m ->]| ->]; go_simp; eauto.
  - apply parse_digits_cases.
Qed.

Lemma parse_digits_range l n m : int64_range n -> parse_digits n l = Ok m -> int64_range m.
Proof.
  revert n. induction l as [|c l IH]; intros n Hn; simpl; [by intros [= <-]|].
  case_bool; [done|]. apply IH, wrap64_range.
Qed.

Lemma parseIntBytes_range l n : parseIntBytes l = Ok n -> int64_range n.
Proof.
  unfold parseIntBytes. destruct l as [|c l]; [done|]. case_bool.
  - intros (m & _ & [= <-])%outcome_bind_inv. apply wrap64_range.
  - by apply parse_digits_range.
Qed.

(** ** Bulk payloads *)

Lemma bulk_need_small e n :
  0 <= n -> Z.of_nat e + n + 2 < 2^63 -> bulk_need e n = Z.of_nat e + n + 2.
Proof.
  intros. unfold bulk_need. rewrite wrap64_add_l. apply wrap64_id.
  unfold int64_range. lia.
Qed.

Lemma slice_mid pre d rest :
  slice (pre ++ d ++ rest) (len pre) (len pre + len d) = Ok d.
Proof.
  rewrite slice_ok by (rewrite ?length_app; lia).
  rewrite Nat2Z.id, drop_length_app.
  replace (Z.to_nat (len pre + len d - len pre)) with (length d) by lia.
  by rewrite take_length_app.
Qed.

(** A payload whose slice exists was not subject to overflow. *)
Lemma bulk_slice_ok buf e n d :
  buffer_ok buf -> (e <= length buf)%nat -> 0 <= n ->
  slice buf (Z.of_nat e) (wrap64 (Z.of_nat e + n)) = Ok d -> int64_range n ->
  bulk_need e n = Z.of_nat e + n + 2 /\ Z.of_nat e + n <= len buf.
Proof.
  unfold buffer_ok, slice, int64_range. intros Hb He Hn Hs Hr. case_bool_in Hs; [|done].
  destruct (Z.lt_ge_cases (Z.of_nat e + n) (2^63)) as [Hlt|Hge].
  - rewrite wrap64_id in * by (unfold int64_range; lia).
    split; [apply bulk_need_small; lia|lia].
  - exfalso. assert (wrap64 (Z.of_nat e + n) = Z.of_nat e + n - 2^64) as Hw.
    { rewrite <- (wrap64_id (Z.of_nat e + n - 2^64)) by (unfold int64_range; lia).
      apply wrap64_cong. rewrite Zminus_mod, Z_mod_same_full, Z.sub_0_r. by rewrite Zmod_mod. }
    lia.
Qed.

(** ** Bounds: a parsed value ends after it starts, inside the buffer *)

Ltac parse_step H :=
  lazymatch type of H with
  | (readLine ?b ?p ≫= _) = _ =>
      let line := fresh "line" in let e := fresh "e" in let E := fresh "Eline" in
      destruct (readLine_cases b p) as [(line & e & E)|E]; rewrite E in H; go_simp_in H
  | (parseIntBytes ?l ≫= _) = _ =>
      let n := fresh "n" in let E := fresh "Eint" in
      destruct (parseIntBytes_cases l) as [[n E]|E]; rewrite E in H; go_simp_in H
  | (makeslice ?s ?n ≫= _) = _ =>
      let E := fresh "Emk" in
      destruct (makeslice s n) as [[]| | |] eqn:E; go_simp_in H
  | (slice ?b ?i ?j ≫= _) = _ =>
      let d := fresh "d" in let E := fresh "Eslice" in
      destruct (slice b i j) as [d| | |] eqn:E; go_simp_in H
  | (if _ then _ else _) = _ => case_bool_in H
  end.

(** An error that is not [errIncomplete] is so at every result type. *)
Ltac neq_err := first [done | by intros [= ->]].

Ltac parse_cases H := repeat (parse_step H; try discriminate H).

Lemma parse_bounds fuel buf :
  buffer_ok buf ->
  (forall pos v e, parseValueAt fuel buf pos = Ok (v, e) -> (pos < e <= length buf)%nat) /\
  (forall cur n l e, (cur <= length buf)%nat -> parseElems fuel buf cur n = Ok (l, e) ->
     (cur <= e <= length buf)%nat).
Proof.
  intros Hb. induction fuel as [|fuel [IHv IHe]]; [done|]. split.
  - intros pos v e H. cbn [parseValueAt] in H.
    destruct (buf !! pos) as [typ|] eqn:Etyp; [|done]. apply lookup_lt_Some in Etyp.
    parse_cases H;
      repeat match goal with E : readLine _ _ = Ok _ |- _ => apply readLine_bounds in E end;
      try (injection H as <- <-; lia).
    + pose proof (parseIntBytes_range _ _ Eint).
      destruct (bulk_slice_ok buf e0 n d) as [Hn ?]; try done; try lia.
      rewrite Hn in H. injection H as <- <-. lia.
    + apply outcome_bind_inv in H as ([arr cur] & Hel & [= <- <-]).
      apply IHe in Hel; lia.
    + unfold parseInlineAt in H. destruct (IndexByte _ _) as [i|] eqn:Ei; [|done].
      apply IndexByte_Some in Ei as (_ & Hi & _). rewrite length_drop in Hi.
      case_bool_in H; [done|]. injection H as <- <-. lia.
  - intros cur n l e Hc H. cbn [parseElems] in H. case_bool_in H; [injection H as <- <-; lia|].
    apply outcome_bind_inv in H as ([v next] & Hv & H).
    apply outcome_bind_inv in H as ([vs cur'] & Hvs & [= <- <-]).
    apply IHv in Hv. apply IHe in Hvs; lia.
Qed.

(** ** Fuel *)

Lemma parse_fuel fuel buf :
  buffer_ok buf ->
  (forall pos, (2 * (length buf - pos) < fuel)%nat -> parseValueAt fuel buf pos <> NoFuel) /\
  (forall cur n, (cur <= length buf)%nat -> (2 * (length buf - cur) + 1 < fuel)%nat ->
     parseElems fuel buf cur n <> NoFuel).
Proof.
  intros Hb. induction fuel as [|fuel [IHv IHe]]; [split; intros; lia|]. split.
  - intros pos Hf H. cbn [parseValueAt] in H.
    destruct (buf !! pos) as [typ|] eqn:Etyp; [|done]. apply lookup_lt_Some in Etyp.
    parse_cases H;
      repeat match goal with E : readLine _ _ = Ok _ |- _ => apply readLine_bounds in E end.
    all: try (unfold makeslice in *; repeat case_match; done).
    all: try (unfold slice in *; repeat case_match; done).
    + specialize (IHe e n). destruct (parseElems _ _ _ _) as [[]| | |]; try done.
      apply IHe; [lia|lia|done].
    + unfold parseInlineAt in H. repeat case_match; done.
  - intros cur n Hc Hf H. cbn [parseElems] in H. case_bool_in H; [done|].
    specialize (IHv cur). destruct (parseValueAt fuel buf cur) as [[v next]| | |] eqn:Ev; try done.
    2:{ apply IHv; [lia|done]. }
    apply (parse_bounds fuel buf Hb) in Ev. go_simp_in H.
    specialize (IHe next (n - 1)). destruct (parseElems _ _ _ _) as [[]| | |]; try done.
    apply IHe; [lia|lia|done].
Qed.

(** More fuel does not change an outcome. *)
Lemma parse_fuel_mono f buf :
  (forall pos f' r, (f <= f')%nat -> parseValueAt f buf pos = r -> r <> NoFuel ->
     parseValueAt f' buf pos = r) /\
  (forall cur n f' r, (f <= f')%nat -> parseElems f buf cur n = r -> r <> NoFuel ->
     parseElems f' buf cur n = r).
Proof.
  induction f as [|f [IHv IHe]]; [by split; intros; subst|]. split.
  - intros pos f' r Hf <- Hr. destruct f' as [|f']; [lia|]. cbn [parseValueAt] in *.
    repeat (case_match; try done).
    destruct (readLine buf (S pos)) as [[line e]| | |]; try done. go_simp_all.
    destruct (parseIntBytes line) as [n| | |]; try done. go_simp_all.
    case_match; [done|]. destruct (makeslice 8 n); try done. go_simp_all.
    destruct (parseElems f buf e n) as [[arr cur]| | |] eqn:Ee; try done;
      rewrite (IHe e n f' _ ltac:(lia) Ee) by done; done.
  - intros cur n f' r Hf <- Hr. destruct f' as [|f']; [lia|]. cbn [parseElems] in *.
    case_match; [done|].
    destruct (parseValueAt f buf cur) as [[v next]| | |] eqn:Ev; try done;
      rewrite (IHv cur f' _ ltac:(lia) Ev) by done; try done.
    go_simp_all.
    destruct (parseElems f buf next (n - 1)) as [[arr cur']| | |] eqn:Ee; try done;
      rewrite (IHe next (n - 1) f' _ ltac:(lia) Ee) by done; done.
Qed.

(** ** Chunking: bytes after a message do not change its reading *)

Lemma wrap64_high x : 2^63 <= x < 2^64 + 2^63 -> wrap64 x = x - 2^64.
Proof.
  intros. rewrite <- (wrap64_id (x - 2^64)) by (unfold int64_range; lia).
  apply wrap64_cong. rewrite Zminus_mod, Z_mod_same_full, Z.sub_0_r. by rewrite Zmod_mod.
Qed.

(** Once the payload's end is not past the buffer, its slice no longer depends on
    what follows the buffer. *)
Lemma bulk_slice_ext buf more e n :
  buffer_ok (buf ++ more) -> (e <= length buf)%nat -> 0 <= n -> int64_range n ->
  bulk_need e n <= len buf ->
  slice (buf ++ more) (Z.of_nat e) (wrap64 (Z.of_nat e + n))
  = slice buf (Z.of_nat e) (wrap64 (Z.of_nat e + n)).
Proof.
  unfold buffer_ok, int64_range. rewrite length_app. intros Hb He Hn Hr Hneed.
  unfold bulk_need in Hneed. rewrite wrap64_add_l in Hneed. unfold slice. rewrite length_app.
  destruct (Z.lt_ge_cases (Z.of_nat e + n + 2) (2^63)) as [Hlt|Hge].
  - rewrite wrap64_id in Hneed by (unfold int64_range; lia).
    rewrite wrap64_id by (unfold int64_range; lia).
    rewrite (proj2 (Z.leb_le 0 _)), (proj2 (Z.leb_le (Z.of_nat e) _)) by lia. cbn [andb].
    rewrite !(proj2 (Z.leb_le _ _)) by lia. rewrite drop_app_le, take_app_le; [done| |lia].
    rewrite length_drop. lia.
  - destruct (Z.lt_ge_cases (Z.of_nat e + n) (2^63)) as [Hlt|Hge'].
    + rewrite wrap64_id by (unfold int64_range; lia).
      rewrite !(proj2 (Z.leb_gt (Z.of_nat e + n) _)) by lia. by rewrite !andb_false_r.
    + rewrite wrap64_high by lia.
      rewrite (proj2 (Z.leb_gt (Z.of_nat e) _)) by lia. by rewrite !andb_false_r.
Qed.

Lemma parseInlineAt_ext buf more pos r :
  parseInlineAt buf pos = r -> r <> Err errIncomplete -> parseInlineAt (buf ++ more) pos = r.
Proof.
  unfold parseInlineAt. intros <- Hr. destruct (IndexByte _ _) as [i|] eqn:E; [|done].
  apply IndexByte_Some in E as Hi. destruct Hi as (_ & Hi & _). rewrite length_drop in Hi.
  rewrite drop_app_le, (IndexByte_ext _ _ _ _ E), take_app_le by (rewrite ?length_drop; lia).
  done.
Qed.

Lemma parse_ext fuel buf more :
  buffer_ok (buf ++ more) ->
  (forall pos r, parseValueAt fuel buf pos = r -> r <> Err errIncomplete -> r <> NoFuel ->
     parseValueAt fuel (buf ++ more) pos = r) /\
  (forall cur n r, parseElems fuel buf cur n = r -> r <> Err errIncomplete -> r <> NoFuel ->
     parseElems fuel (buf ++ more) cur n = r).
Proof.
  intros Hb. induction fuel as [|fuel [IHv IHe]]; [by split; intros; subst|]. split.
  - intros pos r <- Hi Hf. cbn [parseValueAt] in *.
    destruct (buf !! pos) as [typ|] eqn:Etyp; [|done].
    rewrite (lookup_app_l_Some _ _ _ _ Etyp).
    destruct (readLine_cases buf (S pos)) as [(line & e & El)|El].
    + rewrite El, (readLine_ext _ _ _ _ El) in *. go_simp_all.
      apply readLine_bounds in El as [_ He].
      repeat (case_bool; try done).
      * destruct (parseIntBytes_cases line) as [[n En]|En]; rewrite En in *; go_simp_all; [|done].
        apply parseIntBytes_range in En. go_simp_all.
        case_bool; [done|]. destruct (len buf <? bulk_need e n) eqn:En2; [done|].
        bool_arith. rewrite (proj2 (Z.ltb_ge (len (buf ++ more)) _)) by (rewrite length_app; lia).
        by rewrite bulk_slice_ext.
      * destruct (parseIntBytes_cases line) as [[n En]|En]; rewrite En in *; go_simp_all; [|done]. case_bool; [done|].
        destruct (makeslice 8 n) as [[]| | |]; try done. go_simp_all.
        destruct (parseElems fuel buf e n) as [[arr cur]| | |] eqn:Ee; go_simp_all; try done;
          (rewrite (IHe _ _ _ Ee); [done|neq_err|done]).
      * by apply parseInlineAt_ext.
    + rewrite El in *. go_simp_all. repeat (case_bool; try done). by apply parseInlineAt_ext.
  - intros cur n r <- Hi Hf. cbn [parseElems] in *. case_bool; [done|].
    destruct (parseValueAt fuel buf cur) as [[v next]| | |] eqn:Ev; go_simp_all; try done;
      (rewrite (IHv _ _ Ev); [|neq_err|done]); try done.
    go_simp_all.
    destruct (parseElems fuel buf next (n - 1)) as [[arr cur']| | |] eqn:Ee; go_simp_all; try done;
      (rewrite (IHe _ _ _ Ee); [done|neq_err|done]).
Qed.

(** ** Round trip of values *)

(** Values RESP2 can carry: line payloads hold no newline, integers are 64-bit,
    the type is one of the five. *)
Fixpoint wf_value (v : Value) : bool :=
  if (Type_ v =b TypeSimpleString) || (Type_ v =b TypeError)
  then negb (existsb (Byte.eqb LF) (Str v))
  else if Type_ v =b TypeInteger then (- 2^63 <=? Integer v) && (Integer v <? 2^63)
  else if Type_ v =b TypeBulkString then true
  else if Type_ v =b TypeArray then
    IsNil v || forallb (fun e => match e with Some e => wf_value e | None => true end) (Array v)
  else false.

(** What the wire keeps of a value: the fields its type uses; a nil element
    becomes a nil bulk string. *)
Fixpoint canon (v : Value) : Value :=
  if (Type_ v =b TypeSimpleString) || (Type_ v =b TypeError) then str_value (Type_ v) (Str v)
  else if Type_ v =b TypeInteger then IntValue (Integer v)
  else if Type_ v =b TypeBulkString then
    if IsNil v then nil_value TypeBulkString else str_value TypeBulkString (Str v)
  else if IsNil v then nil_value TypeArray
  else array_value (map (fun e => Some match e with
                                       | Some e => canon e
                                       | None => nil_value TypeBulkString
                                       end) (Array v)).

Definition canon_ptr (e : option Value) : Value :=
  match e with Some e => canon e | None => nil_value TypeBulkString end.
Definition wf_ptr (e : option Value) : bool :=
  match e with Some e => wf_value e | None => true end.

Lemma existsb_LF_notin l : existsb (Byte.eqb LF) l = false -> LF ∉ l.
Proof.
  intros H Hin. apply list_elem_of_In in Hin.
  assert (existsb (Byte.eqb LF) l = true) by (apply existsb_exists; eauto using byte_eqb_refl).
  congruence.
Qed.

Lemma encode_nonempty e : wf_ptr e = true -> (3 <= length (EncodeValue e))%nat.
Proof.
  destruct e as [[t s n l k]|]; [|by cbn; lia]. cbn [wf_ptr EncodeValue appendValuePtr wf_value Type_].
  intros H. rewrite appendValue_eq. unfold appendInt, nilBulk, nilArray.
  repeat case_bool; rewrite ?appendBulk_eq, ?appendElems_concat;
    rewrite ?length_app; cbn [length]; rewrite ?length_app; cbn; try lia; done.
Qed.

Lemma concat_encode_length l :
  forallb wf_ptr l = true -> (3 * length l <= length (concat (map EncodeValue l)))%nat.
Proof.
  induction l as [|e l IH]; intros H; simpl in *; [lia|]. bool_arith.
  rewrite length_app. pose proof (encode_nonempty e ltac:(done)). specialize (IH ltac:(done)). lia.
Qed.

Lemma parse_elems_encode l pre rest fuel :
  (forall e pre rest fuel, e ∈ l -> wf_ptr e = true ->
     buffer_ok (pre ++ EncodeValue e ++ rest) -> (2 * length (EncodeValue e) <= fuel)%nat ->
     parseValueAt fuel (pre ++ EncodeValue e ++ rest) (length pre)
     = Ok (canon_ptr e, (length pre + length (EncodeValue e))%nat)) ->
  forallb wf_ptr l = true ->
  buffer_ok (pre ++ concat (map EncodeValue l) ++ rest) ->
  (1 + 2 * length (concat (map EncodeValue l)) <= fuel)%nat ->
  parseElems fuel (pre ++ concat (map EncodeValue l) ++ rest) (length pre) (len l)
  = Ok (map (fun e => Some (canon_ptr e)) l,
        (length pre + length (concat (map EncodeValue l)))%nat).
Proof.
  revert pre fuel. induction l as [|e l IH]; intros pre fuel Hl Hwf Hb Hf.
  { destruct fuel; [simpl in Hf; lia|]. simpl. by rewrite Nat.add_0_r. }
  destruct fuel as [|fuel]; [simpl in Hf; lia|].
  cbn [map concat] in *. rewrite length_app in Hf. simpl in Hwf. bool_arith.
  pose proof (encode_nonempty e ltac:(done)) as Hne.
  cbn [parseElems]. rewrite (proj2 (Z.leb_gt _ _)) by (simpl; lia).
  rewrite <- (app_assoc (EncodeValue e)) in Hb |- *.
  rewrite Hl; [|set_solver|done|done|lia]. go_simp.
  rewrite (app_assoc pre) in Hb |- *. rewrite <- length_app.
  replace (len (e :: l) - 1) with (len l) by (simpl; lia).
  rewrite IH; [go_simp|..].
  - do 2 f_equal. rewrite !length_app. lia.
  - intros. apply Hl; [set_solver|done..].
  - done.
  - done.
  - lia.
Qed.

(** The type byte and the header line of a value that starts at [length pre]. *)
Lemma lookup_at (pre : bytes) t rest : (pre ++ t :: rest) !! length pre = Some t.
Proof. by rewrite lookup_app_r, Nat.sub_diag by lia. Qed.

Lemma readLine_hdr pre t line rest :
  LF ∉ line ->
  readLine (pre ++ t :: line ++ CRLF ++ rest) (S (length pre))
  = Ok (line, (length pre + length line + 3)%nat).
Proof.
  intros H. replace (pre ++ t :: line ++ CRLF ++ rest)
    with ((pre ++ [t]) ++ line ++ CRLF ++ rest) by by rewrite <- app_assoc.
  replace (S (length pre)) with (length (pre ++ [t])) by (rewrite length_app; simpl; lia).
  rewrite readLine_at by done. do 2 f_equal. rewrite length_app. simpl. lia.
Qed.

Lemma parseIntBytes_nil : parseIntBytes (bs "-1") = Ok (-1).
Proof. by vm_compute. Qed.

Lemma LF_notin_nil : LF ∉ bs "-1".
Proof. by apply existsb_LF_notin. Qed.

(** The header of a nil bulk string or array, and of a bulk string or array of
    length [n]. *)
Lemma parse_bulk_at pre d rest fuel :
  buffer_ok (pre ++ appendBulk [] d ++ rest) ->
  parseValueAt (S fuel) (pre ++ appendBulk [] d ++ rest) (length pre)
  = Ok (str_value TypeBulkString d, (length pre + length (appendBulk [] d))%nat).
Proof.
  intros Hb. rewrite appendBulk_eq in *. cbn [app] in *. rewrite <- !app_assoc in *.
  pose proof (FormatInt_length (len d)) as Hfl.
  cbn [parseValueAt]. rewrite lookup_at.
  change (x24 =b TypeSimpleString) with false. change (x24 =b TypeError) with false.
  change (x24 =b TypeInteger) with false. change (x24 =b TypeBulkString) with true. cbv iota.
  rewrite readLine_hdr by auto with go. go_simp.
  unfold buffer_ok in Hb. rewrite length_app in Hb. cbn [length] in Hb.
  rewrite !length_app in Hb. cbn [length] in Hb.
  rewrite parseIntBytes_FormatInt by (unfold int64_range; lia). go_simp.
  rewrite (proj2 (Z.ltb_ge _ 0)), bulk_need_small by (rewrite ?length_app; cbn; lia).
  rewrite (proj2 (Z.ltb_ge _ _)).
  2:{ rewrite !length_app. cbn [length]. rewrite !length_app. cbn. lia. }
  rewrite makeslice_ok by lia. go_simp.
  rewrite wrap64_id by (unfold int64_range; lia).
  set (e := (length pre + length (FormatInt (len d)) + 3)%nat).
  replace (pre ++ x24 :: FormatInt (len d) ++ CRLF ++ d ++ CRLF ++ rest)
    with ((pre ++ x24 :: FormatInt (len d) ++ CRLF) ++ d ++ CRLF ++ rest)
    by (rewrite <- !app_assoc; cbn [app]; by rewrite <- !app_assoc).
  replace (Z.of_nat e) with (len (pre ++ x24 :: FormatInt (len d) ++ CRLF)).
  2:{ rewrite length_app. cbn [length]. rewrite length_app. subst e. cbn. lia. }
  rewrite slice_mid. go_simp. do 2 f_equal.
  rewrite length_app. cbn [length]. rewrite !length_app. cbn. lia.
Qed.

Lemma parse_nil_bulk_at pre rest fuel :
  parseValueAt (S fuel) (pre ++ nilBulk ++ rest) (length pre)
  = Ok (nil_value TypeBulkString, (length pre + length nilBulk)%nat).
Proof.
  change nilBulk with (x24 :: bs "-1" ++ CRLF). cbn [app]. rewrite <- !app_assoc.
  cbn [parseValueAt]. rewrite lookup_at, readLine_hdr by apply LF_notin_nil. go_simp.
  rewrite parseIntBytes_nil. go_simp. do 2 f_equal. cbn. lia.
Qed.

Lemma parse_nil_array_at pre rest fuel :
  parseValueAt (S fuel) (pre ++ nilArray ++ rest) (length pre)
  = Ok (nil_value TypeArray, (length pre + length nilArray)%nat).
Proof.
  change nilArray with (x2a :: bs "-1" ++ CRLF). cbn [app]. rewrite <- !app_assoc.
  cbn [parseValueAt]. rewrite lookup_at, readLine_hdr by apply LF_notin_nil. go_simp.
  rewrite parseIntBytes_nil. go_simp. do 2 f_equal. cbn. lia.
Qed.

(** A line value: its type byte, a payload without newline, CRLF. *)
Lemma parse_line_at pre t s rest fuel :
  LF ∉ s -> t = TypeSimpleString \/ t = TypeError ->
  parseValueAt (S fuel) (pre ++ (t :: s ++ CRLF) ++ rest) (length pre)
  = Ok (str_value t s, (length pre + length (t :: s ++ CRLF))%nat).
Proof.
  intros Hs Ht. cbn [app]. rewrite <- !app_assoc.
  cbn [parseValueAt]. rewrite lookup_at, readLine_hdr by done.
  destruct Ht as [-> | ->]; go_simp; do 2 f_equal; cbn [length]; rewrite length_app; cbn; lia.
Qed.

Lemma parse_int_at pre n rest fuel :
  int64_range n ->
  parseValueAt (S fuel) (pre ++ (x3a :: FormatInt n ++ CRLF) ++ rest) (length pre)
  = Ok (IntValue n, (length pre + length (x3a :: FormatInt n ++ CRLF))%nat).
Proof.
  intros Hn. cbn [app]. rewrite <- !app_assoc.
  cbn [parseValueAt]. rewrite lookup_at, readLine_hdr by auto with go. go_simp.
  rewrite parseIntBytes_FormatInt by done. go_simp.
  do 2 f_equal. cbn [length]. rewrite length_app. cbn. lia.
Qed.

Lemma parse_array_at l pre rest fuel :
  (forall e pre rest fuel, e ∈ l -> wf_ptr e = true ->
     buffer_ok (pre ++ EncodeValue e ++ rest) -> (2 * length (EncodeValue e) <= fuel)%nat ->
     parseValueAt fuel (pre ++ EncodeValue e ++ rest) (length pre)
     = Ok (canon_ptr e, (length pre + length (EncodeValue e))%nat)) ->
  forallb wf_ptr l = true ->
  let enc := x2a :: FormatInt (len l) ++ CRLF ++ concat (map EncodeValue l) in
  buffer_ok (pre ++ enc ++ rest) -> (2 * length enc <= fuel)%nat ->
  parseValueAt fuel (pre ++ enc ++ rest) (length pre)
  = Ok (array_value (map (fun e => Some (canon_ptr e)) l), (length pre + length enc)%nat).
Proof.
  intros Hl Hwf enc Hb Hf.
  pose proof (concat_encode_length l Hwf) as Hcl.
  assert (Hlen : length enc = (1 + length (FormatInt (len l)) + 2
                               + length (concat (map EncodeValue l)))%nat).
  { subst enc. cbn [length]. rewrite !length_app. cbn. lia. }
  assert (Hsmall : len l <= 2^45).
  { unfold buffer_ok in Hb. rewrite !length_app in Hb. lia. }
  assert (Henc : pre ++ enc ++ rest
    = pre ++ x2a :: FormatInt (len l) ++ CRLF ++ concat (map EncodeValue l) ++ rest).
  { subst enc. cbn [app]. by rewrite <- !app_assoc. }
  rewrite Henc, Hlen in *. destruct fuel as [|fuel]; [lia|].
  cbn [parseValueAt]. rewrite lookup_at, readLine_hdr by auto with go. go_simp.
  change (x2a =b TypeSimpleString) with false. change (x2a =b TypeError) with false.
  change (x2a =b TypeInteger) with false. change (x2a =b TypeBulkString) with false.
  change (x2a =b TypeArray) with true. cbv iota.
  rewrite parseIntBytes_FormatInt by (unfold int64_range; lia). go_simp.
  rewrite (proj2 (Z.ltb_ge _ 0)), makeslice_ok by lia. go_simp.
  replace (length pre + length (FormatInt (len l)) + 3)%nat
    with (length (pre ++ x2a :: FormatInt (len l) ++ CRLF))
    by (rewrite length_app; cbn [length]; rewrite length_app; cbn; lia).
  replace (pre ++ x2a :: FormatInt (len l) ++ CRLF ++ concat (map EncodeValue l) ++ rest)
    with ((pre ++ x2a :: FormatInt (len l) ++ CRLF) ++ concat (map EncodeValue l) ++ rest) in *
    by (rewrite <- !app_assoc; cbn [app]; by rewrite <- !app_assoc).
  rewrite parse_elems_encode by (done || lia). go_simp.
  do 2 f_equal. rewrite length_app. cbn [length]. rewrite length_app. cbn. lia.
Qed.

Lemma parse_encode_at e pre rest fuel :
  wf_ptr e = true -> buffer_ok (pre ++ EncodeValue e ++ rest) ->
  (2 * length (EncodeValue e) <= fuel)%nat ->
  parseValueAt fuel (pre ++ EncodeValue e ++ rest) (length pre)
  = Ok (canon_ptr e, (length pre + length (EncodeValue e))%nat).
Proof.
  intros Hwf. pose proof (encode_nonempty e Hwf) as Hne.
  destruct e as [v|].
  2:{ intros _ Hf. destruct fuel; [simpl in Hf; lia|]. apply parse_nil_bulk_at. }
  revert pre rest fuel. induction v as [t s n l k IH] using value_ind'.
  intros pre rest fuel Hb Hf. destruct fuel as [|fuel]; [lia|].
  cbn [wf_ptr wf_value canon_ptr canon Type_ Str Integer IsNil Array] in *.
  unfold EncodeValue in *. cbn [appendValuePtr] in *. rewrite appendValue_eq in *.
  unfold appendInt in *. rewrite ?app_nil_l in *.
  destruct (t =b TypeSimpleString) eqn:E1; bool_arith.
  { cbn [orb] in *. bool_arith. apply existsb_LF_notin in Hwf. subst. by apply parse_line_at; auto. }
  destruct (t =b TypeError) eqn:E2; bool_arith.
  { cbn [orb] in *. bool_arith. apply existsb_LF_notin in Hwf. subst. by apply parse_line_at; auto. }
  cbn [orb] in *. destruct (t =b TypeInteger) eqn:E3; bool_arith.
  { apply (parse_int_at pre n rest fuel). unfold int64_range. lia. }
  destruct (t =b TypeBulkString) eqn:E4; bool_arith.
  { destruct k; [apply parse_nil_bulk_at | by apply parse_bulk_at]. }
  destruct (t =b TypeArray) eqn:E5; bool_arith; [|done].
  destruct k; [apply parse_nil_array_at|]. cbn [orb] in Hwf.
  rewrite appendElems_concat in *.
  assert (Heq : (([x2a] ++ FormatInt (len l)) ++ CRLF) ++ concat (map EncodeValue l)
    = x2a :: FormatInt (len l) ++ CRLF ++ concat (map EncodeValue l))
    by by rewrite <- !app_assoc.
  rewrite Heq in *. apply parse_array_at; [|done|done|lia].
  intros [v|] pre' rest' fuel' Hin Hv Hb' Hf'.
  - apply IH; try done. exact (encode_nonempty (Some v) Hv).
  - destruct fuel'; [simpl in Hf'; lia|]. apply parse_nil_bulk_at.
Qed.

(** ** The scan agrees with the parser *)

Definition value_kind (v : Value) : ErrorKind :=
  if Type_ v =b TypeError then error_kind (Str v) else ErrorKindNone.
Definition value_msg (v : Value) : bytes := if Type_ v =b TypeError then Str v else [].

Lemma scan_parse fuel buf :
  buffer_ok buf ->
  (forall pos v e, parseValueAt fuel buf pos = Ok (v, e) ->
     scanValueAt fuel buf (Z.of_nat pos) = Ok (Z.of_nat e, value_kind v, value_msg v)) /\
  (forall cur n l e, parseElems fuel buf cur n = Ok (l, e) ->
     scanElems fuel buf (Z.of_nat cur) n = Ok (Z.of_nat e)).
Proof.
  intros Hb. induction fuel as [|fuel [IHv IHe]]; [done|]. split.
  - intros pos v e H. pose proof (proj1 (parse_bounds _ _ Hb) _ _ _ H) as Hbd.
    cbn [parseValueAt scanValueAt] in *.
    rewrite (proj2 (Z.leb_gt _ _)), (proj2 (Z.ltb_ge _ 0)), Nat2Z.id by lia.
    destruct (buf !! pos) as [typ|] eqn:Etyp; [|done].
    parse_cases H; cbn [orb]; try (injection H as <- <-);
      repeat match goal with E : ?x = Ok _ |- context [?x] => rewrite E end; subst;
      try (rewrite (proj2 (Z.ltb_lt _ 0)) by done); try done.
    + rewrite (proj2 (Z.ltb_ge _ 0)) by done.
      pose proof (parseIntBytes_range _ _ Eint). apply readLine_bounds in Eline.
      destruct (bulk_slice_ok buf e0 n d) as [Hn ?]; try done; try lia.
      rewrite Hn in *. rewrite (proj2 (Z.ltb_ge (len buf) _)) by lia.
      do 3 f_equal. lia.
    + rewrite (proj2 (Z.ltb_ge _ 0)) by done.
      apply outcome_bind_inv in H as ([arr cur] & Hel & [= <- <-]).
      by rewrite (IHe _ _ _ _ Hel).
    + unfold parseInlineAt in H.
      destruct (IndexByte (drop pos buf) LF) as [i|]; [|done].
      case_bool_in H; [done|]. injection H as <- <-.
      do 3 f_equal. lia.
  - intros cur n l e H. cbn [parseElems scanElems] in *. case_bool; [by injection H as <- <-|].
    apply outcome_bind_inv in H as ([v next] & Hv & H).
    apply outcome_bind_inv in H as ([vs cur'] & Hvs & [= <- <-]).
    rewrite (IHv _ _ _ Hv). go_simp. apply (parse_bounds _ _ Hb) in Hv.
    rewrite (proj2 (Z.eqb_neq _ 0)) by lia. by apply IHe in Hvs.
Qed.

Lemma scan_incomplete fuel buf :
  buffer_ok buf ->
  (forall pos, parseValueAt fuel buf pos = Err errIncomplete ->
     scanValueAt fuel buf (Z.of_nat pos) = scan_none) /\
  (forall cur n, (0 < cur)%nat -> parseElems fuel buf cur n = Err errIncomplete ->
     scanElems fuel buf (Z.of_nat cur) n = Ok 0).
Proof.
  intros Hb. induction fuel as [|fuel [IHv IHe]]; [done|]. split.
  - intros pos H. cbn [parseValueAt scanValueAt] in *.
    destruct (buf !! pos) as [typ|] eqn:Etyp.
    2:{ apply lookup_ge_None in Etyp. by rewrite (proj2 (Z.leb_le _ _)) by lia. }
    apply lookup_lt_Some in Etyp as Hlt.
    rewrite (proj2 (Z.leb_gt _ _)), (proj2 (Z.ltb_ge _ 0)), Nat2Z.id, Etyp by lia.
    parse_cases H; subst; cbn [orb];
      repeat match goal with E : ?x = _ |- context [match ?x with _ => _ end] => rewrite E end;
      rewrite ?byte_eqb_refl; cbn [orb]; try done.
    + rewrite (proj2 (Z.ltb_ge _ 0)), (proj2 (Z.ltb_lt _ _)) by done. done.
    + unfold slice in Eslice. by case_bool_in Eslice.
    + unfold makeslice in Emk. by case_bool_in Emk.
    + rewrite (proj2 (Z.ltb_ge _ 0)) by done. apply readLine_bounds in Eline.
      destruct (parseElems fuel buf e n) as [[arr cur]|[]| |] eqn:Ee; try done.
      by rewrite (IHe e n ltac:(lia) Ee).
    + unfold makeslice in Emk. by case_bool_in Emk.
    + unfold parseInlineAt in H.
      destruct (IndexByte (drop pos buf) LF) as [i|]; [by case_bool_in H|].
      done.
  - intros cur n Hc H. cbn [parseElems scanElems] in *. case_bool; [done|].
    destruct (parseValueAt fuel buf cur) as [[v next]|[]| |] eqn:Ev; try done.
    + rewrite (proj1 (scan_parse _ _ Hb) _ _ _ Ev). go_simp_all.
      apply (parse_bounds _ _ Hb) in Ev. rewrite (proj2 (Z.eqb_neq _ 0)) by lia.
      destruct (parseElems fuel buf next (n - 1)) as [[arr cur']|[]| |] eqn:Ee; try done.
      apply IHe; [lia|done].
    + by rewrite (IHv _ Ev).
Qed.

(** ** The values a buffer yields *)

Lemma IndexByte_take l c i : IndexByte l c = Some i -> c ∉ take i l.
Proof.
  revert i. induction l as [|x l IH]; intros i; simpl; [done|]. destruct (x =b c) eqn:Ex.
  { intros [= <-]. by apply not_elem_of_nil. }
  destruct (IndexByte l c) as [j|]; [|done]. intros [= <-]. cbn [take]. apply not_elem_of_cons. split; [|by apply IH].
  intros ->. by rewrite byte_eqb_refl in Ex.
Qed.

Lemma strip_cr_sub l c : c ∉ l -> c ∉ strip_cr l.
Proof.
  intros Hc. unfold strip_cr. repeat case_match; try done. intros Hin. apply Hc.
  eapply elem_of_submseteq; [exact Hin|]. apply sublist_submseteq, sublist_take.
Qed.

Lemma readLine_no_LF buf pos line e : readLine buf pos = Ok (line, e) -> existsb (Byte.eqb LF) line = false.
Proof.
  unfold readLine. destruct (IndexByte _ _) as [i|] eqn:E; [|done]. intros [= <- _].
  apply IndexByte_take, strip_cr_sub in E. apply not_true_is_false. intros (x & Hx & He)%existsb_exists.
  apply byte_eqb_eq in He as <-. by apply E, list_elem_of_In.
Qed.

(** A value the wire carries as it is. *)
Definition stable (v : Value) : Prop := wf_value v = true /\ canon v = v.

Lemma stable_array l : Forall (fun e => exists v, e = Some v /\ stable v) l -> stable (array_value l).
Proof.
  intros Hl. split.
  - cbn. apply forallb_forall. intros e He. apply list_elem_of_In in He.
    by destruct (proj1 (Forall_forall _ _) Hl e He) as (v & -> & Hv & _).
  - cbn. f_equal. induction Hl as [|e l (v & -> & _ & Hc) _ IH]; [done|]. cbn. by rewrite Hc, IH.
Qed.

Lemma parse_stable fuel buf :
  (forall pos v e, parseValueAt fuel buf pos = Ok (v, e) -> stable v) /\
  (forall cur n l e, parseElems fuel buf cur n = Ok (l, e) -> Forall (fun e => exists v, e = Some v /\ stable v) l).
Proof.
  induction fuel as [|fuel [IHv IHe]]; [done|]. split.
  - intros pos v e H. cbn [parseValueAt] in H. destruct (buf !! pos) as [typ|]; [|done].
    parse_cases H; try (injection H as <- <-);
      repeat match goal with
             | E : readLine _ _ = Ok _ |- _ => apply readLine_no_LF in E
             | E : parseIntBytes _ = Ok _ |- _ => apply parseIntBytes_range in E
             end; try (by split; cbn; rewrite ?Eline).
    + unfold int64_range in *. split; cbn; [|done]. lia.
    + apply outcome_bind_inv in H as ([arr cur] & Hel & [= <- <-]). apply stable_array. by eapply IHe.
    + unfold parseInlineAt in H. destruct (IndexByte _ _); [|done]. case_bool_in H; [done|]. injection H as <- <-.
      apply stable_array, Forall_fmap, Forall_true. intros x. by eexists.
  - intros cur n l e H. cbn [parseElems] in H. case_bool_in H; [by injection H as <- <-|].
    apply outcome_bind_inv in H as ([v next] & Hv & H).
    apply outcome_bind_inv in H as ([vs cur'] & Hvs & [= <- <-]).
    constructor; [eexists; split; [done|by eapply IHv]|by eapply IHe].
Qed.

(** ** Properties *)

Lemma value_fuel_enough e pre rest :
  (2 * length (EncodeValue e) <= value_fuel (pre ++ EncodeValue e ++ rest))%nat.
Proof. unfold value_fuel. rewrite !length_app. lia. Qed.

Lemma ParseValue_eq buf :
  ParseValue buf =
  match parseValueAt (value_fuel buf) buf 0 with
  | Ok r => Ok (Some r)
  | Err errIncomplete => Ok None
  | Err e => Err e
  | Panic => Panic
  | NoFuel => NoFuel
  end.
Proof. unfold ParseValue. by destruct buf. Qed.

Lemma parse_encode e rest :
  wf_ptr e = true -> buffer_ok (EncodeValue e ++ rest) ->
  ParseValue (EncodeValue e ++ rest) = Ok (Some (canon_ptr e, length (EncodeValue e))).
Proof.
  intros Hwf Hb. rewrite ParseValue_eq.
  pose proof (parse_encode_at e [] rest _ Hwf Hb (value_fuel_enough e [] rest)) as H.
  cbn [app length] in H. by rewrite H.
Qed.

(** C27: every value RESP2 can carry is read back by [ParseValue] from its
    encoding, whatever follows it in the buffer: the value is its canonical
    form and exactly its own bytes are consumed. *)
Theorem ParseValue_EncodeValue e rest :
  wf_ptr e = true -> buffer_ok (EncodeValue e ++ rest) ->
  ParseValue (EncodeValue e ++ rest) = Ok (Some (canon_ptr e, length (EncodeValue e))).
Proof. apply parse_encode. Qed.

Lemma ParseValue_EncodeValue_witness :
  ParseValue (EncodeValue (Some (array_value [Some (IntValue (- 2^63)); None;
                Some (str_value TypeError (bs "ERR x"))])) ++ bs "+next")
  = Ok (Some (array_value [Some (IntValue (- 2^63)); Some (nil_value TypeBulkString);
                Some (str_value TypeError (bs "ERR x"))], 40%nat)).
Proof.
  apply (ParseValue_EncodeValue (Some (array_value [Some (IntValue (- 2^63)); None;
    Some (str_value TypeError (bs "ERR x"))])) (bs "+next")); [reflexivity|].
  unfold buffer_ok. vm_compute. discriminate.
Defined.

(** The bytes of a value can arrive in any number of pieces: [ParseValue]
    asks for more data on every proper prefix of an encoding (it never reports
    an error for one), and once it has decided, the bytes that follow do not
    change its answer. *)
Lemma ParseValue_chunks :
  (forall e p more, wf_ptr e = true -> buffer_ok (EncodeValue e) ->
     EncodeValue e = p ++ more -> more <> [] -> ParseValue p = Ok None) /\
  (forall buf more r, buffer_ok (buf ++ more) -> ParseValue buf = r -> r <> Ok None ->
     ParseValue (buf ++ more) = r).
Proof.
  assert (Hext : forall buf more r, buffer_ok (buf ++ more) -> ParseValue buf = r -> r <> Ok None ->
     ParseValue (buf ++ more) = r).
  { intros buf more r Hb H Hr. rewrite ParseValue_eq in *.
    assert (Hb' : buffer_ok buf) by (unfold buffer_ok in *; rewrite length_app in Hb; lia).
    pose proof (proj1 (parse_fuel (value_fuel buf) buf Hb') 0%nat) as Hf.
    unfold value_fuel in Hf at 1. specialize (Hf ltac:(lia)).
    rewrite (proj1 (parse_fuel_mono (value_fuel buf) (buf ++ more)) 0%nat _
      (parseValueAt (value_fuel buf) buf 0)); [done| | |done].
    - unfold value_fuel. rewrite length_app. lia.
    - apply parse_ext; [done|done| |done]. intros Hi. rewrite Hi in H. by subst. }
  split; [|exact Hext]. intros e p more Hwf Hb He Hm.
  assert (Hn : ParseValue p = Ok None \/ ParseValue p <> Ok None)
    by (destruct (ParseValue p) as [[]| | |]; auto).
  destruct Hn as [|Hn]; [done|exfalso].
  rewrite He in Hb. pose proof (Hext p more _ Hb eq_refl Hn) as H. rewrite <- He in *.
  rewrite <- (app_nil_r (EncodeValue e)), parse_encode in H by by rewrite ?app_nil_r.
  symmetry in H. rewrite ParseValue_eq in H.
  destruct (parseValueAt (value_fuel p) p 0) as [[v n]|[]| |] eqn:Ep; try done.
  apply (parse_bounds _ p) in Ep.
  2:{ unfold buffer_ok in *. rewrite He, length_app in Hb. lia. }
  injection H as -> ->. rewrite He, length_app in Ep. destruct more; [done|]. simpl in Ep. lia.
Qed.

Lemma ParseValue_chunks_witness :
  ParseValue (bs "$5" ++ CRLF ++ bs "hel") = Ok None /\
  ParseValue ((bs ":7" ++ CRLF) ++ bs "+O") = Ok (Some (IntValue 7, 4%nat)).
Proof.
  split.
  - refine (proj1 ParseValue_chunks (Some (str_value TypeBulkString (bs "hello")))
      (bs "$5" ++ CRLF ++ bs "hel") (bs "lo" ++ CRLF) _ _ _ _); try reflexivity; [|discriminate].
    unfold buffer_ok. vm_compute. discriminate.
  - refine (proj2 ParseValue_chunks (bs ":7" ++ CRLF) (bs "+O") _ _ _ _); [|reflexivity|discriminate].
    unfold buffer_ok. vm_compute. discriminate.
Defined.

Lemma scan_agrees buf :
  buffer_ok buf ->
  (forall v n, ParseValue buf = Ok (Some (v, n)) ->
     ScanValue buf = Ok (Z.of_nat n, value_kind v, value_msg v) /\ (0 < n <= length buf)%nat) /\
  (ParseValue buf = Ok None -> ScanValue buf = Ok (0, ErrorKindNone, [])).
Proof.
  intros Hb. rewrite ParseValue_eq. unfold ScanValue. change 0 with (Z.of_nat 0) at 1 2.
  destruct (parseValueAt (value_fuel buf) buf 0) as [[v n]|[]| |] eqn:Ep; split; try done.
  - intros v' n' [= <- <-]. split.
    + by apply (scan_parse _ buf Hb).
    + apply (parse_bounds _ buf Hb) in Ep. lia.
  - intros _. by apply (scan_incomplete _ buf Hb).
Qed.

Lemma scan_encode e rest :
  wf_ptr e = true -> buffer_ok (EncodeValue e ++ rest) ->
  ScanValue (EncodeValue e ++ rest) =
    Ok (len (EncodeValue e), value_kind (canon_ptr e), value_msg (canon_ptr e)).
Proof. intros Hwf Hb. by apply (proj1 (scan_agrees _ Hb)), parse_encode. Qed.

(** C28: the parser yields only values RESP2 can carry, from at least one byte of the buffer
    and no more than it holds, so a reply can be parsed, handed on and encoded again:
    whoever reads the new encoding gets the same value, whatever follows. *)
Theorem ParseValue_typed buf v n :
  buffer_ok buf -> ParseValue buf = Ok (Some (v, n)) ->
  wf_value v = true /\ canon v = v /\ (0 < n <= length buf)%nat /\
  forall rest, buffer_ok (EncodeValue (Some v) ++ rest) ->
    ParseValue (EncodeValue (Some v) ++ rest) = Ok (Some (v, length (EncodeValue (Some v)))).
Proof.
  intros Hb H. rewrite ParseValue_eq in H.
  destruct (parseValueAt (value_fuel buf) buf 0) as [r|[]| |] eqn:Ep; try done. injection H as ->.
  apply (parse_bounds _ buf Hb) in Ep as Hn. apply parse_stable in Ep as [Hwf Hc].
  split; [exact Hwf|]. split; [exact Hc|]. split; [lia|]. intros rest Hr.
  rewrite (parse_encode (Some v) rest Hwf Hr). cbn [canon_ptr]. by rewrite Hc.
Qed.

Definition spaced_reply : bytes := bs "*2" ++ [LF] ++ bs ":007" ++ [LF] ++ bs "get  k" ++ [LF].

Lemma ParseValue_typed_witness :
  ParseValue spaced_reply = Ok (Some (array_value [Some (IntValue 7);
    Some (array_value [Some (str_value TypeBulkString (bs "get")); Some (str_value TypeBulkString (bs "k"))])], 15%nat)) /\
  ParseValue (EncodeValue (Some (array_value [Some (IntValue 7);
    Some (array_value [Some (str_value TypeBulkString (bs "get")); Some (str_value TypeBulkString (bs "k"))])])) ++ [])
  = Ok (Some (array_value [Some (IntValue 7);
    Some (array_value [Some (str_value TypeBulkString (bs "get")); Some (str_value TypeBulkString (bs "k"))])], 28%nat)).
Proof.
  split; [by vm_compute|].
  refine (proj2 (proj2 (proj2 (ParseValue_typed spaced_reply _ 15 _ _))) [] _); [|by vm_compute|];
    unfold buffer_ok; vm_compute; discriminate.
Defined.

(** C30: [ScanValue], which finds where a backend reply ends so that its bytes
    can be forwarded unparsed, agrees with the full parser: when [ParseValue]
    yields a value it returns the same number of bytes and classifies MOVED, ASK
    and other errors by the value's message; when [ParseValue] needs more data
    it returns 0. *)
Theorem ScanValue_agrees buf :
  buffer_ok buf ->
  (forall v n, ParseValue buf = Ok (Some (v, n)) ->
     ScanValue buf = Ok (Z.of_nat n, value_kind v, value_msg v) /\ (0 < n <= length buf)%nat) /\
  (ParseValue buf = Ok None -> ScanValue buf = Ok (0, ErrorKindNone, [])).
Proof. apply scan_agrees. Qed.

Lemma ScanValue_agrees_witness :
  let moved := bs "-MOVED 3999 10.0.0.1:7000" ++ CRLF in
  ScanValue moved = Ok (27, ErrorKindMoved, bs "MOVED 3999 10.0.0.1:7000")
  /\ ScanValue (bs "$5" ++ CRLF ++ bs "he") = Ok (0, ErrorKindNone, []).
Proof.
  split.
  - refine (proj1 (proj1 (ScanValue_agrees (bs "-MOVED 3999 10.0.0.1:7000" ++ CRLF) _)
      (str_value TypeError (bs "MOVED 3999 10.0.0.1:7000")) 27%nat _)); [|reflexivity].
    unfold buffer_ok. vm_compute. discriminate.
  - refine (proj2 (ScanValue_agrees (bs "$5" ++ CRLF ++ bs "he") _) _); [|reflexivity].
    unfold buffer_ok. vm_compute. discriminate.
Defined.
