(* ===== verification/RequestFacts.v ===== *)
(** * RequestFacts: correctness of the client request parser

    [ParseRequest] reads back what [EncodeCommandBytes] writes, with the command
    name raised to upper case in the arguments and in the raw bytes it forwards;
    a partial command is never an error; and a request is read the same however
    the bytes arrive. *)

From S2P Require Import Prelude GoStd Value RespParse RespFacts.

(** ** Bounds and fuel *)

Lemma args_bounds fuel buf cur n args e :
  buffer_ok buf -> (cur <= length buf)%nat ->
  parseArgs fuel buf cur n = Ok (args, e) -> (cur <= e <= length buf)%nat.
Proof.
  intros Hb. revert cur n args e. induction fuel as [|fuel IH]; intros cur n args e Hc H; [done|].
  cbn [parseArgs] in H. case_bool_in H; [injection H as <- <-; lia|].
  destruct (buf !! cur) as [c|] eqn:Ec; [|done]. apply lookup_lt_Some in Ec.
  parse_cases H. apply readLine_bounds in Eline. apply parseIntBytes_range in Eint as Hr.
  destruct (bulk_slice_ok buf e0 n0 d) as [Hn ?]; try done; try lia.
  apply outcome_bind_inv in H as ([as' cur'] & Has & [= <- <-]).
  rewrite Hn in *. apply IH in Has; lia.
Qed.

Lemma args_fuel fuel buf cur n :
  buffer_ok buf -> (cur <= length buf)%nat -> (length buf - cur < fuel)%nat ->
  parseArgs fuel buf cur n <> NoFuel.
Proof.
  intros Hb. revert cur n. induction fuel as [|fuel IH]; intros cur n Hc Hf H; [lia|].
  cbn [parseArgs] in H. case_bool_in H; [done|].
  destruct (buf !! cur) as [c|] eqn:Ec; [|done]. apply lookup_lt_Some in Ec.
  parse_cases H. 2:{ unfold slice in Eslice. by case_bool_in Eslice. }
  apply readLine_bounds in Eline. apply parseIntBytes_range in Eint as Hr.
  destruct (bulk_slice_ok buf e n0 d) as [Hn ?]; try done; try lia.
  rewrite Hn in *. destruct (parseArgs fuel _ _ _) as [[]| | |] eqn:Ep; try done.
  apply IH in Ep; try done; lia.
Qed.

Lemma args_fuel_mono f f' buf cur n r :
  (f <= f')%nat -> parseArgs f buf cur n = r -> r <> NoFuel -> parseArgs f' buf cur n = r.
Proof.
  revert f' cur n r. induction f as [|f IH]; intros f' cur n r Hf <- Hr; [done|].
  destruct f' as [|f']; [lia|]. cbn [parseArgs] in *.
  case_bool; [done|]. destruct (buf !! cur) as [c|]; [|done]. case_bool; [done|].
  destruct (readLine buf (S cur)) as [[line e]| | |]; try done. go_simp_all.
  destruct (parseIntBytes line) as [bl| | |]; try done. go_simp_all.
  case_bool; [done|]. case_bool; [done|].
  destruct (slice buf _ _); try done. go_simp_all.
  destruct (parseArgs f buf _ _) as [[]| | |] eqn:Ep; try done;
    rewrite (IH f' _ _ _ ltac:(lia) Ep) by done; done.
Qed.

Lemma args_ext fuel buf more cur n r :
  buffer_ok (buf ++ more) -> parseArgs fuel buf cur n = r ->
  r <> Err errIncomplete -> r <> NoFuel -> parseArgs fuel (buf ++ more) cur n = r.
Proof.
  intros Hb. revert cur n r. induction fuel as [|fuel IH]; intros cur n r <- Hi Hf; [done|].
  cbn [parseArgs] in *. case_bool; [done|].
  destruct (buf !! cur) as [c|] eqn:Ec; [|done].
  rewrite (lookup_app_l_Some _ _ _ _ Ec). case_bool; [done|].
  destruct (readLine_cases buf (S cur)) as [(line & e & El)|El]; rewrite El in *; go_simp_all; [|done].
  rewrite (readLine_ext _ _ _ _ El). go_simp. apply readLine_bounds in El as He.
  destruct (parseIntBytes_cases line) as [[bl En]|En]; rewrite En in *; go_simp_all; [|done].
  apply parseIntBytes_range in En as Hr. case_bool; [done|].
  destruct (len buf <? bulk_need e bl) eqn:En2; [done|]. bool_arith.
  rewrite (proj2 (Z.ltb_ge (len (buf ++ more)) _)) by (rewrite length_app; lia).
  rewrite bulk_slice_ext by (done || lia).
  destruct (slice buf _ _) as [d| | |]; try done. go_simp_all.
  destruct (parseArgs fuel buf _ _) as [[as' cur']| | |] eqn:Ep; go_simp_all; try done;
    (rewrite (IH _ _ _ Ep); [done|neq_err|done]).
Qed.

Lemma buffer_ok_app_l buf more : buffer_ok (buf ++ more) -> buffer_ok buf.
Proof. unfold buffer_ok. rewrite length_app. lia. Qed.

Lemma direct_fuel buf raw : buffer_ok buf -> parseRequestDirect buf raw <> NoFuel.
Proof.
  intros Hb H. unfold parseRequestDirect in H. destruct buf as [|c buf']; [done|].
  set (buf := c :: buf') in *. case_bool_in H.
  { unfold parseInlineRequest in H. repeat case_match; done. }
  parse_cases H. 2:{ unfold makeslice in Emk. by case_bool_in Emk. }
  apply readLine_bounds in Eline.
  pose proof (args_fuel (S (length buf)) buf e n Hb ltac:(lia) ltac:(lia)).
  by destruct (parseArgs _ _ _ _) as [[]| | |].
Qed.

Lemma direct_bounds buf args raw n :
  buffer_ok buf -> parseRequestDirect buf [] = Ok (args, raw, n) ->
  (0 < n <= length buf)%nat /\ raw = take n buf.
Proof.
  intros Hb H. unfold parseRequestDirect in H. destruct buf as [|c buf']; [done|].
  set (buf := c :: buf') in *. case_bool_in H.
  { unfold parseInlineRequest in H. destruct (IndexByte buf LF) as [i|] eqn:Ei; [|done].
    apply IndexByte_Some in Ei as (_ & Hi & _). case_bool_in H; [done|].
    injection H as <- <- <-. split; [lia|done]. }
  parse_cases H. apply readLine_bounds in Eline.
  apply outcome_bind_inv in H as ([as' cur] & Has & [= <- <- <-]).
  apply args_bounds in Has; [|done|lia]. split; [lia|done].
Qed.

Lemma inline_ext buf more r :
  parseInlineRequest buf [] = r -> r <> Err errIncomplete ->
  parseInlineRequest (buf ++ more) [] = r.
Proof.
  unfold parseInlineRequest. intros <- Hi. destruct (IndexByte buf LF) as [i|] eqn:E; [|done].
  apply IndexByte_Some in E as Hlt. destruct Hlt as (_ & Hlt & _).
  rewrite (IndexByte_ext _ _ _ _ E), !take_app_le by lia. done.
Qed.

Lemma direct_ext buf more r :
  buffer_ok (buf ++ more) -> parseRequestDirect buf [] = r ->
  r <> Err errIncomplete -> parseRequestDirect (buf ++ more) [] = r.
Proof.
  intros Hb H Hi. pose proof (direct_fuel buf [] (buffer_ok_app_l _ _ Hb)) as Hf.
  rewrite H in Hf. destruct buf as [|c buf']; [by subst|].
  unfold parseRequestDirect in H |- *. cbn [app].
  change (c :: buf' ++ more) with ((c :: buf') ++ more) in *.
  set (buf := c :: buf') in *. case_bool; [by apply inline_ext|]. subst r.
  destruct (readLine_cases buf 1) as [(line & e & El)|El]; rewrite El in *; go_simp_all; [|done].
  rewrite (readLine_ext _ _ _ _ El). go_simp. apply readLine_bounds in El as He.
  destruct (parseIntBytes_cases line) as [[n En]|En]; rewrite En in *; go_simp_all; [|done].
  case_bool; [done|]. unfold makeslice in *. case_bool; go_simp_all; [|done].
  assert (Ha : forall r, parseArgs (S (length buf)) buf e n = r -> r <> Err errIncomplete ->
    r <> NoFuel -> parseArgs (S (length (buf ++ more))) (buf ++ more) e n = r).
  { intros r Hr ??. apply (args_fuel_mono (S (length buf))); [rewrite length_app; lia| |done].
    by apply args_ext. }
  destruct (parseArgs (S (length buf)) buf e n) as [[as' cur]| | |] eqn:Ep; go_simp_all; try done;
    (rewrite (Ha _ eq_refl); [|neq_err|done]); go_simp; [|done..].
  apply args_bounds in Ep; [|by eapply buffer_ok_app_l|lia].
  by rewrite take_app_le by lia.
Qed.

(** ** Round trip *)

(** Where the arguments of an encoded command that starts at [off] lie. *)
Fixpoint arg_refs (off : nat) (args : list bytes) : list (nat * nat) :=
  match args with
  | [] => []
  | a :: args' =>
      ((off + length (FormatInt (len a)) + 3)%nat, length a)
        :: arg_refs (off + length (appendBulk [] a)) args'
  end.

Definition enc_args (args : list bytes) : bytes := concat (map (appendBulk []) args).

Lemma appendBulk_length a :
  length (appendBulk [] a) = (length (FormatInt (len a)) + length a + 5)%nat.
Proof. rewrite appendBulk_eq. cbn [length]. rewrite !length_app. cbn. lia. Qed.

Lemma enc_args_length args : (5 * length args <= length (enc_args args))%nat.
Proof.
  unfold enc_args. induction args as [|a args IH]; cbn [map concat length] in *; [lia|].
  rewrite length_app, appendBulk_length. lia.
Qed.

Lemma parse_args_encode args pre rest fuel :
  buffer_ok (pre ++ enc_args args ++ rest) -> (length args < fuel)%nat ->
  parseArgs fuel (pre ++ enc_args args ++ rest) (length pre) (len args)
  = Ok (arg_refs (length pre) args, (length pre + length (enc_args args))%nat).
Proof.
  unfold enc_args. revert pre fuel. induction args as [|a args IH]; intros pre fuel Hb Hf.
  { destruct fuel; [lia|]. simpl. by rewrite Nat.add_0_r. }
  destruct fuel as [|fuel]; [lia|]. cbn [map concat] in *.
  rewrite <- (app_assoc (appendBulk [] a)) in *. set (tl := concat _ ++ rest) in *.
  assert (Hlen : len (pre ++ appendBulk [] a ++ tl) <= 2^45) by exact Hb.
  rewrite !length_app, appendBulk_length in Hlen.
  assert (Heq : pre ++ appendBulk [] a ++ tl
    = pre ++ x24 :: FormatInt (len a) ++ CRLF ++ a ++ CRLF ++ tl).
  { rewrite appendBulk_eq. cbn [app]. by rewrite <- !app_assoc. }
  cbn [parseArgs arg_refs]. rewrite (proj2 (Z.leb_gt _ _)) by (cbn [length]; lia).
  rewrite Heq at 1. rewrite lookup_at. change (negb (x24 =b TypeBulkString)) with false. cbv iota.
  rewrite Heq at 1. rewrite readLine_hdr by auto with go. go_simp.
  rewrite parseIntBytes_FormatInt by (unfold int64_range; lia). go_simp.
  rewrite (proj2 (Z.ltb_ge _ 0)), bulk_need_small by lia.
  rewrite (proj2 (Z.ltb_ge _ _)) by (rewrite !length_app, appendBulk_length; lia).
  rewrite wrap64_id by (unfold int64_range; lia).
  rewrite slice_ok by (rewrite ?length_app, ?appendBulk_length; lia). go_simp.
  replace (Z.to_nat (Z.of_nat (length pre + length (FormatInt (len a)) + 3) + len a + 2))
    with (length (pre ++ appendBulk [] a)) by (rewrite length_app, appendBulk_length; lia).
  subst tl. rewrite (app_assoc pre) in *. replace (len (a :: args) - 1) with (len args) by (simpl; lia).
  rewrite IH by (done || (simpl in Hf; lia)). go_simp.
  rewrite Nat2Z.id, !length_app. do 2 f_equal. lia.
Qed.

Lemma arg_refs_lengths off args args' :
  map length args = map length args' -> arg_refs off args = arg_refs off args'.
Proof.
  revert off args'. induction args as [|a args IH]; intros off [|a' args'] H; try done.
  simpl in H. injection H as Ha H. cbn [arg_refs]. rewrite !appendBulk_length, Ha. by rewrite (IH _ args').
Qed.

Lemma deref_arg_refs args pre rest :
  map (deref (pre ++ enc_args args ++ rest)) (map (rebase 0) (arg_refs (length pre) args)) = args.
Proof.
  unfold enc_args. revert pre. induction args as [|a args IH]; intros pre; [done|].
  cbn [map concat arg_refs]. rewrite <- (app_assoc (appendBulk [] a)).
  set (tl := concat _ ++ rest). f_equal.
  - unfold rebase. cbn [fst snd]. destruct (Nat.eqb_spec (length a) 0) as [H0|H0].
    { apply nil_length_inv in H0. by subst. }
    cbn [deref]. rewrite appendBulk_eq.
    replace (pre ++ (x24 :: FormatInt (len a) ++ CRLF ++ a ++ CRLF) ++ tl)
      with ((pre ++ x24 :: FormatInt (len a) ++ CRLF) ++ a ++ CRLF ++ tl)
      by (rewrite <- !app_assoc; cbn [app]; by rewrite <- !app_assoc).
    replace (0 + (length pre + length (FormatInt (len a)) + 3))%nat
      with (length (pre ++ x24 :: FormatInt (len a) ++ CRLF))
      by (rewrite length_app; cbn [length]; rewrite length_app; cbn; lia).
    by rewrite drop_length_app, take_length_app.
  - subst tl. rewrite (app_assoc pre), <- length_app. apply IH.
Qed.

Lemma cmd_split a args :
  EncodeCommandBytes (a :: args)
  = (x2a :: FormatInt (len (a :: args)) ++ CRLF) ++ enc_args (a :: args).
Proof. rewrite EncodeCommandBytes_eq. unfold enc_args. cbn [app]. by rewrite <- app_assoc. Qed.

(** Raising the command name in the raw bytes is raising it in the command. *)
Lemma upper_window_cmd a args :
  upper_window (EncodeCommandBytes (a :: args))
    (length (x2a :: FormatInt (len (a :: args)) ++ CRLF) + length (FormatInt (len a)) + 3) (length a)
  = EncodeCommandBytes (map upper_byte a :: args).
Proof.
  rewrite !cmd_split. unfold enc_args. cbn [map concat].
  change (len (map upper_byte a :: args)) with (len (a :: args)).
  set (hdr := x2a :: FormatInt (len (a :: args)) ++ CRLF). set (tl := concat _).
  rewrite !appendBulk_eq, length_map.
  assert (Hs : forall b : bytes, hdr ++ (x24 :: FormatInt (len a) ++ CRLF ++ b ++ CRLF) ++ tl
    = (hdr ++ x24 :: FormatInt (len a) ++ CRLF) ++ b ++ CRLF ++ tl).
  { intros b. rewrite <- !app_assoc. cbn [app]. by rewrite <- !app_assoc. }
  rewrite !Hs. unfold upper_window.
  replace (length hdr + length (FormatInt (len a)) + 3)%nat
    with (length (hdr ++ x24 :: FormatInt (len a) ++ CRLF))
    by (rewrite length_app; cbn [length]; rewrite length_app; cbn; lia).
  rewrite take_length_app, drop_length_app, take_length_app. do 2 f_equal.
  rewrite <- length_app, app_assoc. apply drop_length_app.
Qed.

Lemma direct_encode a args rest :
  buffer_ok (EncodeCommandBytes (a :: args) ++ rest) ->
  let cmd := a :: args in
  parseRequestDirect (EncodeCommandBytes cmd ++ rest) []
  = Ok (map (rebase 0) (arg_refs (length (x2a :: FormatInt (len cmd) ++ CRLF)) cmd),
        EncodeCommandBytes cmd, length (EncodeCommandBytes cmd)).
Proof.
  intros Hb cmd. pose proof (enc_args_length cmd) as Hel.
  assert (Hsmall : len cmd * 5 <= 2^45).
  { unfold buffer_ok in Hb. fold cmd in Hb. rewrite length_app in Hb. subst cmd.
    rewrite cmd_split, length_app in Hb. lia. }
  assert (Hcmd : 0 < len cmd) by (subst cmd; cbn [length]; lia).
  assert (Heq : EncodeCommandBytes cmd ++ rest
    = [] ++ x2a :: FormatInt (len cmd) ++ CRLF ++ enc_args cmd ++ rest).
  { subst cmd. rewrite cmd_split. cbn [app]. by rewrite <- !app_assoc. }
  assert (Hhd : exists t, EncodeCommandBytes cmd ++ rest = x2a :: t) by (rewrite Heq; eauto).
  unfold parseRequestDirect. destruct Hhd as [t Ht]. rewrite Ht at 1.
  change (negb (x2a =b TypeArray)) with false. cbv iota.
  rewrite Heq at 1. change 1%nat with (S (length (@nil byte))) at 1.
  rewrite readLine_hdr by auto with go. go_simp.
  rewrite parseIntBytes_FormatInt by (unfold int64_range; lia). go_simp.
  rewrite (proj2 (Z.leb_gt _ 0)), makeslice_ok by lia. go_simp.
  set (hdr := x2a :: FormatInt (len cmd) ++ CRLF).
  replace (length (@nil byte) + length (FormatInt (len cmd)) + 3)%nat with (length hdr)
    by (subst hdr; cbn [length]; rewrite length_app; cbn; lia).
  assert (Hpre : EncodeCommandBytes cmd ++ rest = hdr ++ enc_args cmd ++ rest).
  { subst cmd hdr. by rewrite cmd_split, <- app_assoc. }
  fold cmd in Hb. rewrite Hpre in *. rewrite parse_args_encode; [|done|].
  2:{ rewrite !length_app. lia. }
  go_simp. rewrite app_nil_l. subst cmd hdr. rewrite cmd_split, length_app, app_assoc, <- length_app.
  by rewrite take_length_app.
Qed.

Lemma request_encode a args rest :
  buffer_ok (EncodeCommandBytes (a :: args) ++ rest) ->
  let cmd := map upper_byte a :: args in
  ParseRequest (EncodeCommandBytes (a :: args) ++ rest)
  = Ok (Some (mkRequest cmd (EncodeCommandBytes cmd) (map upper_byte a),
              length (EncodeCommandBytes (a :: args)))).
Proof.
  intros Hb cmd. unfold ParseRequest.
  rewrite (proj2 (Z.eqb_neq _ 0)) by (rewrite length_app, cmd_split; cbn [app length]; lia).
  rewrite direct_encode by done. cbn [arg_refs map].
  set (hdr := x2a :: FormatInt (len (a :: args)) ++ CRLF).
  assert (Hrefs : map (deref (EncodeCommandBytes cmd))
      (map (rebase 0) (arg_refs (length hdr) (a :: args))) = cmd).
  { rewrite (arg_refs_lengths _ (a :: args) cmd) by (subst cmd; simpl; by rewrite length_map).
    subst cmd. rewrite cmd_split. change (len (map upper_byte a :: args)) with (len (a :: args)).
    fold hdr. rewrite <- (app_nil_r (enc_args _)). apply deref_arg_refs. }
  cbn [arg_refs map] in Hrefs. unfold upperASCIIInPlace.
  set (r := rebase 0 _) in *.
  assert (Hr : a = [] /\ r = Own [] \/
    r = InRaw (length hdr + length (FormatInt (len a)) + 3) (length a)).
  { subst r. unfold rebase. cbn [fst snd]. destruct (Nat.eqb_spec (length a) 0) as [H0|H0];
      [left; by apply nil_length_inv in H0|by right]. }
  destruct Hr as [[-> ->]| ->].
  - change (map upper_byte []) with (@nil byte) in *. cbn [map deref] in *.
    change (EncodeCommandBytes ([] :: args)) with (EncodeCommandBytes cmd). by rewrite Hrefs.
  - rewrite upper_window_cmd. fold cmd. cbn [map] in *.
    assert (Hc : deref (EncodeCommandBytes cmd)
      (InRaw (length hdr + length (FormatInt (len a)) + 3) (length a)) = map upper_byte a)
      by exact (f_equal (hd []) Hrefs).
    by rewrite Hrefs, Hc.
Qed.

(** ** Properties *)

Lemma ParseRequest_ext buf more r :
  buffer_ok (buf ++ more) -> ParseRequest buf = r -> r <> Ok None ->
  ParseRequest (buf ++ more) = r.
Proof.
  intros Hb H Hr. destruct buf as [|c buf']; [by subst|]. set (buf := c :: buf') in *.
  assert (Hd : parseRequestDirect (buf ++ more) [] = parseRequestDirect buf []).
  { apply direct_ext; [done|done|]. intros Hi. unfold ParseRequest in H. by rewrite Hi in H. }
  unfold ParseRequest in *. rewrite Hd, <- H. done.
Qed.

Lemma ParseRequest_inv buf r n :
  ParseRequest buf = Ok (Some (r, n)) ->
  exists args raw, parseRequestDirect buf [] = Ok (args, raw, n) /\ length (Raw r) = length raw.
Proof.
  unfold ParseRequest. case_bool; [done|].
  destruct (parseRequestDirect buf []) as [[[args raw] n']|[]| |]; try done.
  intros H. exists args, raw. destruct args as [|a args]; [injection H as <- <-; done|].
  unfold upperASCIIInPlace in H. destruct a as [start k|b]; injection H as <- <-; split; try done.
  cbn [Raw]. unfold upper_window. rewrite !length_app, length_map, !length_take, !length_drop. lia.
Qed.

(** C26: a client command is read back from its RESP encoding, whatever follows
    it: the arguments are the command's with the name in upper case, the raw
    bytes to forward are the encoding of those arguments, and exactly the
    command's bytes are consumed. *)
Theorem ParseRequest_EncodeCommand a args rest :
  buffer_ok (EncodeCommandBytes (a :: args) ++ rest) ->
  let cmd := map upper_byte a :: args in
  ParseRequest (EncodeCommandBytes (a :: args) ++ rest)
  = Ok (Some (mkRequest cmd (EncodeCommandBytes cmd) (map upper_byte a),
              length (EncodeCommandBytes (a :: args)))).
Proof. apply request_encode. Qed.

Lemma ParseRequest_EncodeCommand_witness :
  ParseRequest (EncodeCommandBytes [bs "get"; bs "k"] ++ bs "*1")
  = Ok (Some (mkRequest [bs "GET"; bs "k"] (EncodeCommandBytes [bs "GET"; bs "k"]) (bs "GET"),
              20%nat)).
Proof.
  apply (ParseRequest_EncodeCommand (bs "get") [bs "k"] (bs "*1")).
  unfold buffer_ok. vm_compute. discriminate.
Defined.

(** However the bytes of a client connection are cut into reads, the parser
    never mistakes a partial command for an error, and what it decides does not
    depend on the bytes that follow. *)
Lemma ParseRequest_chunks :
  (forall a args p more, buffer_ok (EncodeCommandBytes (a :: args)) ->
     EncodeCommandBytes (a :: args) = p ++ more -> more <> [] -> ParseRequest p = Ok None) /\
  (forall buf more r, buffer_ok (buf ++ more) -> ParseRequest buf = r -> r <> Ok None ->
     ParseRequest (buf ++ more) = r).
Proof.
  split; [|exact ParseRequest_ext]. intros a args p more Hb He Hm.
  assert (Hn : ParseRequest p = Ok None \/ ParseRequest p <> Ok None)
    by (destruct (ParseRequest p) as [[]| | |]; auto).
  destruct Hn as [|Hn]; [done|exfalso].
  pose proof (request_encode a args []) as H. rewrite app_nil_r in H. specialize (H Hb).
  rewrite He in Hb, H. rewrite (ParseRequest_ext p more _ Hb eq_refl Hn) in H.
  apply ParseRequest_inv in H as (as' & raw & Hd & _).
  apply direct_bounds in Hd; [|by eapply buffer_ok_app_l].
  rewrite length_app in Hd. destruct more; [done|]. simpl in Hd. lia.
Qed.

Lemma ParseRequest_chunks_witness :
  ParseRequest (bs "*1" ++ CRLF ++ bs "$4" ++ CRLF ++ bs "pi") = Ok None /\
  ParseRequest ((bs "ping" ++ CRLF) ++ bs "*2")
  = Ok (Some (mkRequest [bs "PING"] (bs "ping" ++ CRLF) (bs "PING"), 6%nat)).
Proof.
  split.
  - refine (proj1 ParseRequest_chunks (bs "ping") [] _ (bs "ng" ++ CRLF) _ _ _);
      [|reflexivity|discriminate]. unfold buffer_ok. vm_compute. discriminate.
  - refine (proj2 ParseRequest_chunks (bs "ping" ++ CRLF) (bs "*2") _ _ _ _);
      [|reflexivity|discriminate]. unfold buffer_ok. vm_compute. discriminate.
Defined.

(** The parser terminates on every buffer, and a request it returns took at
    least one byte of the buffer, not more than the buffer holds, and keeps
    exactly that many raw bytes. *)
Lemma ParseRequest_progress buf :
  buffer_ok buf ->
  ParseRequest buf <> NoFuel /\
  forall r n, ParseRequest buf = Ok (Some (r, n)) ->
    (0 < n <= length buf)%nat /\ length (Raw r) = n.
Proof.
  intros Hb. split.
  - unfold ParseRequest. case_bool; [done|]. pose proof (direct_fuel buf [] Hb).
    destruct (parseRequestDirect buf []) as [[[[|[] ] ?] ?]|[]| |]; done.
  - intros r n H. apply ParseRequest_inv in H as (args & raw & Hd & ->).
    apply direct_bounds in Hd as [Hn ->]; [|done]. rewrite length_take. lia.
Qed.

Lemma ParseRequest_progress_witness :
  ParseRequest (bs "PING" ++ CRLF) <> NoFuel.
Proof.
  apply (ParseRequest_progress (bs "PING" ++ CRLF)). unfold buffer_ok. vm_compute. discriminate.
Defined.

(** A bulk length near the top of [int64] overflows the bounds arithmetic:
    whatever a client sends after the 26 bytes of such a header, the parser
    panics (a slice expression out of range) instead of reporting a protocol
    error or waiting for data. *)
Lemma ParseRequest_overflow_panics rest :
  ParseRequest (bs "*1" ++ CRLF ++ bs "$9223372036854775807" ++ CRLF ++ rest) = Panic.
Proof.
  set (buf := bs "*1" ++ _).
  assert (Hl1 : readLine buf 1 = Ok (bs "1", 4%nat)) by reflexivity.
  assert (Hd : parseRequestDirect buf [] = Panic).
  { change (parseRequestDirect buf []) with
      ('(line, pos) ← readLine buf 1;
       n ← parseIntBytes line;
       if n <=? 0 then Err ErrInvalidProtocol else
       _ ← makeslice 24 n;
       '(args, cur) ← parseArgs (S (length buf)) buf pos n;
       Ok (map (rebase 0) args, [] ++ take cur buf, cur)).
    rewrite Hl1. go_simp. change (parseIntBytes (bs "1")) with (Ok 1). go_simp.
    change (makeslice 24 1) with (Ok tt). go_simp. cbn [parseArgs].
    change (buf !! 4%nat) with (Some x24). reflexivity. }
  unfold ParseRequest. rewrite Hd. reflexivity.
Qed.

(** After a command's array header, a byte that does not start a bulk string
    is not reported as a protocol error: the parser asks for more data, whatever
    the client sends next, so the connection makes no progress. *)
Lemma ParseRequest_nonbulk_stalls c rest :
  c <> TypeBulkString -> ParseRequest (bs "*1" ++ CRLF ++ c :: rest) = Ok None.
Proof.
  intros Hc. set (buf := bs "*1" ++ _).
  assert (Hl1 : readLine buf 1 = Ok (bs "1", 4%nat)) by reflexivity.
  assert (Hd : parseRequestDirect buf [] = Err errIncomplete).
  { change (parseRequestDirect buf []) with
      ('(line, pos) ← readLine buf 1;
       n ← parseIntBytes line;
       if n <=? 0 then Err ErrInvalidProtocol else
       _ ← makeslice 24 n;
       '(args, cur) ← parseArgs (S (length buf)) buf pos n;
       Ok (map (rebase 0) args, [] ++ take cur buf, cur)).
    rewrite Hl1. go_simp. change (parseIntBytes (bs "1")) with (Ok 1). go_simp.
    change (makeslice 24 1) with (Ok tt). go_simp. cbn [parseArgs].
    change (buf !! 4%nat) with (Some c). cbv beta iota. rewrite (proj2 (byte_eqb_neq _ _) Hc). reflexivity. }
  unfold ParseRequest. rewrite Hd. reflexivity.
Qed.

Lemma ParseRequest_nonbulk_stalls_witness :
  ParseRequest (bs "*1" ++ CRLF ++ bs ":5" ++ CRLF) = Ok None.
Proof. apply (ParseRequest_nonbulk_stalls x3a (bs "5" ++ CRLF)). discriminate. Defined.
