(* ===== verification/RespStream.v ===== *)
(** * RespStream: RESP over buffered connections

    Model of the [Reader] and [Writer] of [pkg/proto/resp.go], which the connection pool,
    the pipelined connections and the topology manager use on blocking sockets.

    A [Reader] is what its [bufio.Reader] will still deliver: the bytes the peer is going
    to send and the error of the read after the last of them ([io.EOF] when the peer
    closes).  Blocking reads see the same bytes however they are cut into packets, so the
    buffer itself is left out.

    A [Writer] is its [bufio.Writer]: the buffer and its size, what the connection has
    accepted, how many bytes the connection will accept before it fails ([None]: it does
    not fail), and the error that sticks. *)

From S2P Require Import Prelude GoStd Value RespParse.

(** ** The standard library's readers *)

Record Reader := mkReader {
  r_bytes : bytes;
  r_end : goerror;
}.

Definition Rd (A : Type) : Type := Reader -> outcome A * Reader.

#[global] Instance Rd_ret : MRet Rd := fun A a r => (Ok a, r).
#[global] Instance Rd_bind : MBind Rd := fun A B f c r =>
  match c r with
  | (Ok a, r') => f a r'
  | (Err e, r') => (Err e, r')
  | (Panic, r') => (Panic, r')
  | (NoFuel, r') => (NoFuel, r')
  end.

Definition rd_out {A} (o : outcome A) : Rd A := fun r => (o, r).
Definition rd_fail {A} (e : goerror) : Rd A := rd_out (Err e).

Definition ReadByte : Rd byte := fun r =>
  match r_bytes r with
  | b :: l => (Ok b, mkReader l (r_end r))
  | [] => (Err (r_end r), r)
  end.

(** [ReadBytes]: the data with the delimiter, or what is left and the error. *)
Definition ReadBytes (delim : byte) (r : Reader) : bytes * option goerror * Reader :=
  match IndexByte (r_bytes r) delim with
  | Some i => (take (S i) (r_bytes r), None, mkReader (drop (S i) (r_bytes r)) (r_end r))
  | None => (r_bytes r, Some (r_end r), mkReader [] (r_end r))
  end.

(** [io.ReadFull] of [n] bytes. *)
Definition ReadFull (n : nat) : Rd bytes := fun r =>
  let l := r_bytes r in
  if (n <=? length l)%nat then (Ok (take n l), mkReader (drop n l) (r_end r)) else
  let e := match l, r_end r with
           | _ :: _, EOF => ErrUnexpectedEOF
           | _, e => e
           end in
  (Err e, mkReader [] (r_end r)).

(** ** Reader *)

Module Stream.

Definition readLine : Rd bytes := fun r =>
  match ReadBytes LF r with
  | (_, Some e, r) => (Err e, r)
  | (line, None, r) =>
      let n := length line in
      match line !! (n - 2)%nat with
      | Some c => if (n <? 2)%nat || negb (c =b CR) then (Err ErrInvalidProtocol, r) else (Ok (take (n - 2) line), r)
      | None => (Err ErrInvalidProtocol, r)
      end
  end.

Definition readSimpleString : Rd Value := line ← readLine; mret (str_value TypeSimpleString line).
Definition readError : Rd Value := line ← readLine; mret (str_value TypeError line).

Definition readNumber : Rd Z :=
  line ← readLine;
  match Atoi line with
  | Some n => mret n
  | None => rd_fail ErrInvalidProtocol
  end.

Definition readInteger : Rd Value := n ← readNumber; mret (IntValue n).

(** [n+2] wraps, and an impossible size makes [make] panic. *)
Definition readBulkString : Rd Value :=
  n ← readNumber;
  if n <? 0 then mret (nil_value TypeBulkString) else
  _ ← rd_out (makeslice 1 (wrap64 (n + 2)));
  buf ← ReadFull (Z.to_nat (wrap64 (n + 2)));
  mret (str_value TypeBulkString (take (Z.to_nat n) buf)).

Definition inline_value (full : bytes) : outcome Value :=
  let full := TrimRight full [CR; LF] in
  if (length full =? 0)%nat then Err ErrInvalidProtocol else
  let parts := Fields full in
  if (length parts =? 0)%nat then Err ErrInvalidProtocol
  else Ok (array_value (map (fun p => Some (str_value TypeBulkString p)) parts)).

(** The end of the input ends an inline command too. *)
Definition readInline (first : byte) : Rd Value := fun r =>
  let '(line, err, r) := ReadBytes LF r in
  match err with
  | Some e => if bool_decide (e = EOF) then (inline_value (first :: line), r) else (Err e, r)
  | None => (inline_value (first :: line), r)
  end.

Fixpoint readValue (fuel : nat) (typeByte : byte) : Rd Value :=
  match fuel with
  | O => rd_out NoFuel
  | S fuel =>
      if typeByte =b TypeSimpleString then readSimpleString
      else if typeByte =b TypeError then readError
      else if typeByte =b TypeInteger then readInteger
      else if typeByte =b TypeBulkString then readBulkString
      else if typeByte =b TypeArray then
        n ← readNumber;
        if n <? 0 then mret (nil_value TypeArray) else
        _ ← rd_out (makeslice 8 n);
        arr ← readElems fuel n;
        mret (array_value arr)
      else readInline typeByte
  end
(** The loop of [readArray]. *)
with readElems (fuel : nat) (n : Z) : Rd (list (option Value)) :=
  match fuel with
  | O => rd_out NoFuel
  | S fuel =>
      if n <=? 0 then mret [] else
      b ← ReadByte;
      v ← readValue fuel b;
      vs ← readElems fuel (n - 1);
      mret (Some v :: vs)
  end.

(** The case of arrays on its own. *)
Definition readArray (fuel : nat) : Rd Value :=
  n ← readNumber;
  if n <? 0 then mret (nil_value TypeArray) else
  _ ← rd_out (makeslice 8 n);
  arr ← readElems fuel n;
  mret (array_value arr).

(** Every element takes a byte, so twice the bytes are enough. *)
Definition ReadValue : Rd Value := fun r =>
  (b ← ReadByte; readValue (value_fuel (r_bytes r)) b) r.

(** The command's name is raised in place, and [Cmd] is a copy of it. *)
Definition ReadRequest : Rd Request :=
  v ← ReadValue;
  if negb (Type_ v =b TypeArray) || (length (Array v) =? 0)%nat then rd_fail ErrInvalidProtocol else
  let args := map (fun elem => match elem with
                               | Some e => if IsNil e then [] else Str e
                               | None => []
                               end) (Array v) in
  match args with
  | a :: args => let a := map upper_byte a in mret (mkRequest (a :: args) [] a)
  | [] => mret (mkRequest [] [] [])
  end.

End Stream.

(** ** The standard library's writer *)

Record Writer := mkWriter {
  w_size : nat;
  w_buf : bytes;
  w_out : bytes;
  w_budget : option nat;
  w_err : option goerror;
}.

Definition Wr : Type := Writer -> option goerror * Writer.

(** [if err := c(); err != nil { return err }] *)
Definition wr_then (c d : Wr) : Wr := fun w =>
  match c w with
  | (Some e, w') => (Some e, w')
  | (None, w') => d w'
  end.
Notation "c ;; d" := (wr_then c d) (at level 100, d at level 200, right associativity) : go_scope.

Definition broken_pipe : goerror := Errorf (bs "write: broken pipe").

(** A write of the connection: all of it, or the part it still accepts and an error. *)
Definition conn_accept (d : bytes) (budget : option nat) : bytes * option nat * option goerror :=
  match budget with
  | None => (d, None, None)
  | Some k => if (length d <=? k)%nat then (d, Some (k - length d)%nat, None)
              else (take k d, Some 0%nat, Some broken_pipe)
  end.

Definition Flush : Wr := fun w =>
  match w_err w with
  | Some e => (Some e, w)
  | None =>
      let '(acc, budget, err) := conn_accept (w_buf w) (w_budget w) in
      (err, mkWriter (w_size w) (drop (length acc) (w_buf w)) (w_out w ++ acc) budget err)
  end.

(** A write larger than an empty buffer goes to the connection directly. *)
Definition conn_direct (p : bytes) : Wr := fun w =>
  let '(acc, budget, err) := conn_accept p (w_budget w) in
  (err, mkWriter (w_size w) (w_buf w) (w_out w ++ acc) budget err).

Definition put_buf (p : bytes) : Wr := fun w =>
  (None, mkWriter (w_size w) (w_buf w ++ p) (w_out w) (w_budget w) (w_err w)).

Definition put_or_conn (p : bytes) : Wr := fun w =>
  if (length p <=? w_size w)%nat then put_buf p w else conn_direct p w.

(** [bufio.Writer.Write], [WriteString] and [WriteByte]: fill the buffer, flush it, and
    go on with the rest. *)
Definition Write (p : bytes) : Wr := fun w =>
  match w_err w with
  | Some e => (Some e, w)
  | None =>
      let avail := (w_size w - length (w_buf w))%nat in
      if (length p <=? avail)%nat then put_buf p w
      else if (length (w_buf w) =? 0)%nat then conn_direct p w
      else (put_buf (take avail p) ;; Flush ;; put_or_conn (drop avail p)) w
  end.

(** ** Writer *)

Definition NewWriter (budget : option nat) : Writer := mkWriter (64 * 1024) [] [] budget None.

Definition WriteSimpleString (s : bytes) : Wr := Write [x2b] ;; Write s ;; Write CRLF.
Definition WriteError (msg : bytes) : Wr := Write [x2d] ;; Write msg ;; Write CRLF.
Definition WriteInteger (n : Z) : Wr := Write [x3a] ;; Write (FormatInt n) ;; Write CRLF.
Definition WriteBulkString (data : bytes) : Wr :=
  Write [x24] ;; Write (FormatInt (len data)) ;; Write CRLF ;; Write data ;; Write CRLF.
Definition WriteNilBulkString : Wr := Write (bs "$-1" ++ CRLF).
Definition WriteNilArray : Wr := Write (bs "*-1" ++ CRLF).

Definition array_header (n : Z) : Wr := Write [x2a] ;; Write (FormatInt n) ;; Write CRLF.

Fixpoint write_each (cs : list Wr) : Wr :=
  match cs with
  | [] => fun w => (None, w)
  | c :: cs' => c ;; write_each cs'
  end.

(** [%c] prints the byte as a character in UTF-8. *)
Definition char_utf8 (t : byte) : bytes :=
  let b z := default x00 (Byte.of_N (Z.to_N z)) in
  if zb t <? 128 then [t] else [b (Z.lor 192 (Z.shiftr (zb t) 6)); b (Z.lor 128 (Z.land (zb t) 63))].

Definition unknown_type (t : byte) : goerror := Errorf (bs "unknown value type: " ++ char_utf8 t).

Fixpoint WriteValue (v : Value) : Wr :=
  if Type_ v =b TypeSimpleString then WriteSimpleString (Str v)
  else if Type_ v =b TypeError then WriteError (Str v)
  else if Type_ v =b TypeInteger then WriteInteger (Integer v)
  else if Type_ v =b TypeBulkString then
    if IsNil v then WriteNilBulkString else WriteBulkString (Str v)
  else if Type_ v =b TypeArray then
    if IsNil v then WriteNilArray else
    array_header (len (Array v)) ;;
    write_each (map (fun e => match e with Some e => WriteValue e | None => WriteNilBulkString end) (Array v))
  else fun w => (Some (unknown_type (Type_ v)), w).

Definition WriteValuePtr (v : option Value) : Wr :=
  match v with Some v => WriteValue v | None => WriteNilBulkString end.

(** [WriteArray] *)
Definition WriteArray (arr : list (option Value)) : Wr :=
  array_header (len arr) ;; write_each (map WriteValuePtr arr).

(** [WriteCommand] and [WriteCommandBytes]: strings and byte slices are both bytes. *)
Definition WriteCommandBytes (args : list bytes) : Wr :=
  array_header (len args) ;; write_each (map WriteBulkString args).

Definition WriteRaw (data : bytes) : Wr := Write data.

(** A [bytes.Buffer] accepts everything. *)
Definition EncodeCommand (args : list bytes) : bytes :=
  let '(_, w) := WriteCommandBytes args (NewWriter None) in
  let '(_, w) := Flush w in
  w_out w.
