(* ===== verification/StreamFacts.v ===== *)
(** * StreamFacts: correctness of the stream reader and writer

    What [RespStream] computes: values written one after the other are read back in order,
    a connection that ends inside a value gives an error, the reader's fuel is enough, and
    the writer sends what the encoders produce, or a prefix of it and an error. *)

From S2P Require Import Prelude GoStd Value RespParse RespFacts RespStream.
Import Stream.

(** ** Numbers and lines *)

Lemma ReadBytes_line line rest e :
  LF ∉ line -> ReadBytes LF (mkReader (line ++ LF :: rest) e) = (line ++ [LF], None, mkReader rest e).
Proof.
  intros Hl. unfold ReadBytes. cbn [r_bytes r_end]. rewrite IndexByte_app by done.
  replace (line ++ LF :: rest) with ((line ++ [LF]) ++ rest) by by rewrite <- app_assoc.
  replace (S (length line)) with (length (line ++ [LF])) by (rewrite length_app; simpl; lia).
  by rewrite take_length_app, drop_length_app.
Qed.

Lemma readLine_line line rest e :
  LF ∉ line -> readLine (mkReader (line ++ CRLF ++ rest) e) = (Ok line, mkReader rest e).
Proof.
  intros Hl. unfold readLine.
  replace (line ++ CRLF ++ rest) with ((line ++ [CR]) ++ LF :: rest) by by rewrite <- app_assoc.
  rewrite ReadBytes_line by (apply not_elem_of_app; split; [done|by rewrite list_elem_of_singleton]).
  rewrite <- app_assoc, length_app. cbn [app length].
  replace (length line + 2 - 2)%nat with (length line) by lia.
  rewrite list_lookup_middle by done. rewrite (proj2 (Nat.ltb_ge _ _)), byte_eqb_refl by lia.
  cbn [orb negb]. by rewrite take_length_app.
Qed.

Lemma readLine_cut p e :
  LF ∉ p -> readLine (mkReader p e) = (Err e, mkReader [] e).
Proof. intros Hp. unfold readLine, ReadBytes. cbn [r_bytes r_end]. by rewrite IndexByte_notin. Qed.

Lemma rd_bind_Ok {A B} (c : Rd A) (f : A -> Rd B) r a r' : c r = (Ok a, r') -> (c ≫= f) r = f a r'.
Proof. unfold mbind, Rd_bind. by intros ->. Qed.

Lemma rd_bind_Err {A B} (c : Rd A) (f : A -> Rd B) r e r' : c r = (Err e, r') -> (c ≫= f) r = (Err e, r').
Proof. unfold mbind, Rd_bind. by intros ->. Qed.

Lemma readNumber_line n rest e :
  int64_range n -> readNumber (mkReader (FormatInt n ++ CRLF ++ rest) e) = (Ok n, mkReader rest e).
Proof.
  intros Hn. unfold readNumber. erewrite rd_bind_Ok by (apply readLine_line, FormatInt_no_LF).
  by rewrite Atoi_FormatInt.
Qed.

(** ** The wire format

    [wire b v]: the bytes [b] are the RESP2 encoding of [v]. *)

#[warnings="-register-all"]
Inductive wire : bytes -> Value -> Prop :=
| wire_line t s : t = TypeSimpleString \/ t = TypeError -> LF ∉ s -> wire (t :: s ++ CRLF) (str_value t s)
| wire_int n : int64_range n -> wire (TypeInteger :: FormatInt n ++ CRLF) (IntValue n)
| wire_bulk d : wire (TypeBulkString :: FormatInt (len d) ++ CRLF ++ d ++ CRLF) (str_value TypeBulkString d)
| wire_nil t : t = TypeBulkString \/ t = TypeArray -> wire (t :: FormatInt (-1) ++ CRLF) (nil_value t)
| wire_array bs_ vs :
    Forall2 wire bs_ vs ->
    wire (TypeArray :: FormatInt (len vs) ++ CRLF ++ concat bs_) (array_value (map Some vs)).

Section wire_ind.
Variable P : bytes -> Value -> Prop.
Hypothesis Hline : forall t s, t = TypeSimpleString \/ t = TypeError -> LF ∉ s -> P (t :: s ++ CRLF) (str_value t s).
Hypothesis Hint : forall n, int64_range n -> P (TypeInteger :: FormatInt n ++ CRLF) (IntValue n).
Hypothesis Hbulk : forall d,
  P (TypeBulkString :: FormatInt (len d) ++ CRLF ++ d ++ CRLF) (str_value TypeBulkString d).
Hypothesis Hnil : forall t, t = TypeBulkString \/ t = TypeArray -> P (t :: FormatInt (-1) ++ CRLF) (nil_value t).
Hypothesis Harray : forall bs_ vs, Forall2 wire bs_ vs -> Forall2 P bs_ vs ->
  P (TypeArray :: FormatInt (len vs) ++ CRLF ++ concat bs_) (array_value (map Some vs)).

Fixpoint wire_ind' (b : bytes) (v : Value) (H : wire b v) : P b v :=
  match H in wire b v return P b v with
  | wire_line t s Ht Hs => Hline t s Ht Hs
  | wire_int n Hn => Hint n Hn
  | wire_bulk d => Hbulk d
  | wire_nil t Ht => Hnil t Ht
  | wire_array bs_ vs Hall =>
      Harray bs_ vs Hall
        ((fix go (bs_ : list bytes) (vs : list Value) (Hall : Forall2 wire bs_ vs) : Forall2 P bs_ vs :=
            match Hall in Forall2 _ bs_ vs return Forall2 P bs_ vs with
            | List.Forall2_nil _ => List.Forall2_nil _
            | List.Forall2_cons b v Hb Hbs => List.Forall2_cons b v (wire_ind' b v Hb) (go _ _ Hbs)
            end) bs_ vs Hall)
  end.
End wire_ind.

Lemma wire_encode x : wf_ptr x = true -> wire (EncodeValue x) (canon_ptr x).
Proof.
  destruct x as [v|]; [|intros _; exact (wire_nil TypeBulkString (or_introl eq_refl))].
  induction v as [t s n l k IH] using value_ind'.
  unfold EncodeValue. cbn [wf_ptr wf_value canon_ptr canon Type_ Str Integer IsNil Array appendValuePtr].
  rewrite appendValue_eq. unfold appendInt. rewrite !app_nil_l.
  destruct (t =b TypeSimpleString) eqn:E1; bool_arith.
  { intros Hs. cbn [orb] in Hs. bool_arith. subst. apply wire_line; [by left|by apply existsb_LF_notin]. }
  destruct (t =b TypeError) eqn:E2; bool_arith.
  { intros Hs. cbn [orb] in Hs. bool_arith. subst. apply wire_line; [by right|by apply existsb_LF_notin]. }
  cbn [orb]. destruct (t =b TypeInteger) eqn:E3; bool_arith.
  { intros Hs. bool_arith. rewrite <- app_assoc. by apply (wire_int n). }
  destruct (t =b TypeBulkString) eqn:E4; bool_arith.
  { intros _. destruct k; [exact (wire_nil TypeBulkString (or_introl eq_refl))|]. rewrite appendBulk_eq. apply wire_bulk. }
  destruct (t =b TypeArray) eqn:E5; [|done].
  destruct k; [intros _; exact (wire_nil TypeArray (or_intror eq_refl))|]. cbn [orb]. intros Hl.
  rewrite appendElems_concat, <- !app_assoc.
  replace (map _ l) with (map Some (map canon_ptr l)) by (rewrite map_map; apply map_ext; by intros []).
  rewrite <- (length_map canon_ptr l). apply wire_array.
  clear -IH Hl. induction l as [|x l IHl]; [constructor|]. cbn [forallb] in Hl. apply andb_true_iff in Hl as [Hx Hl].
  constructor; [|apply IHl; [|done]; intros; apply IH; set_solver].
  destruct x as [v|]; [by apply IH; [set_solver|]|exact (wire_nil TypeBulkString (or_introl eq_refl))].
Qed.

Lemma wire_length b v : wire b v -> (3 <= length b)%nat.
Proof.
  destruct 1; cbn [length]; rewrite ?length_app; cbn [length CRLF]; try lia.
Qed.

(** ** Round trip *)

(** A value with its type byte. *)
Definition readAny (fuel : nat) : Rd Value := b ← ReadByte; readValue fuel b.

Lemma readAny_cons fuel b l e : readAny fuel (mkReader (b :: l) e) = readValue fuel b (mkReader l e).
Proof. done. Qed.

Lemma readValue_array fuel : readValue (S fuel) TypeArray = readArray fuel.
Proof. reflexivity. Qed.

Lemma readElems_S fuel n r :
  readElems (S fuel) n r =
  (if n <=? 0 then mret [] else v ← readAny fuel; vs ← readElems fuel (n - 1); mret (Some v :: vs)) r.
Proof.
  cbn [readElems]. destruct (n <=? 0); [done|]. unfold readAny, mbind, Rd_bind.
  by destruct (ReadByte r) as [[]].
Qed.

Definition read_wire (b : bytes) (v : Value) : Prop := forall rest fuel err,
  (2 * length b <= fuel)%nat -> readAny fuel (mkReader (b ++ rest) err) = (Ok v, mkReader rest err).

Lemma readElems_wire bs_ vs fuel rest err :
  Forall2 wire bs_ vs -> Forall2 read_wire bs_ vs -> (2 * length (concat bs_) < fuel)%nat ->
  readElems fuel (len vs) (mkReader (concat bs_ ++ rest) err) = (Ok (map Some vs), mkReader rest err).
Proof.
  intros Hw Hr. revert fuel Hw. induction Hr as [|b v bs_ vs Hb Hbs IH]; intros fuel Hw Hf;
    (destruct fuel as [|fuel]; [simpl in Hf; lia|]).
  { by rewrite readElems_S. }
  apply Forall2_cons in Hw as [Hw1 Hw]. apply wire_length in Hw1.
  cbn [map concat] in *. rewrite length_app in Hf.
  rewrite readElems_S, (proj2 (Z.leb_gt _ _)) by (simpl; lia). rewrite <- app_assoc.
  erewrite rd_bind_Ok by (apply Hb; lia).
  replace (len (v :: vs) - 1) with (len vs) by (simpl; lia).
  erewrite rd_bind_Ok; [done|]. apply IH; [done|lia].
Qed.

Lemma readBulk_encode d rest err :
  len d <= 2^45 ->
  readBulkString (mkReader (FormatInt (len d) ++ CRLF ++ d ++ CRLF ++ rest) err)
  = (Ok (str_value TypeBulkString d), mkReader rest err).
Proof.
  intros Hd. unfold readBulkString.
  erewrite rd_bind_Ok by (apply readNumber_line; unfold int64_range; lia). cbv beta.
  rewrite (proj2 (Z.ltb_ge _ _)) by lia. rewrite wrap64_id by (unfold int64_range; lia).
  erewrite rd_bind_Ok by (unfold rd_out; rewrite makeslice_ok by lia; done).
  replace (Z.to_nat (len d + 2)) with (length (d ++ CRLF)) by (rewrite length_app; simpl; lia).
  rewrite (app_assoc d). erewrite rd_bind_Ok.
  2:{ unfold ReadFull. cbn [r_bytes r_end]. rewrite (proj2 (Nat.leb_le _ _)) by (rewrite !length_app; lia).
      by rewrite take_length_app, drop_length_app. }
  rewrite Nat2Z.id, take_length_app. done.
Qed.

Lemma Forall2_read_wire bs_ vs :
  Forall2 (fun b v => len b <= 2^45 -> read_wire b v) bs_ vs -> len (concat bs_) <= 2^45 ->
  Forall2 read_wire bs_ vs.
Proof.
  induction 1 as [|b v bs_ vs Hb _ IH]; cbn [concat]; [constructor|]. rewrite length_app. intros Hl.
  constructor; [apply Hb; lia|apply IH; lia].
Qed.

Lemma wire_elems_length bs_ vs : Forall2 wire bs_ vs -> (3 * length vs <= length (concat bs_))%nat.
Proof.
  induction 1 as [|b v bs_ vs Hb _ IH]; cbn [concat length]; [lia|].
  apply wire_length in Hb. rewrite length_app. lia.
Qed.

Lemma wire_read b v : wire b v -> len b <= 2^45 -> read_wire b v.
Proof.
  induction 1 as [t s Ht Hs|n Hn|d|t Ht|bs_ vs Hw IH] using wire_ind'; intros Hlen rest fuel err Hf;
    (destruct fuel as [|fuel]; [cbn [length] in Hf; lia|]); cbn [app]; rewrite readAny_cons, <- !app_assoc.
  - destruct Ht as [-> | ->]; cbn -[app readLine]; unfold readSimpleString, readError;
      by erewrite rd_bind_Ok by by apply readLine_line.
  - cbn -[app]. unfold readInteger. by erewrite rd_bind_Ok by by apply readNumber_line.
  - cbn -[app]. apply readBulk_encode. cbn [length] in Hlen. rewrite !length_app in Hlen. lia.
  - destruct Ht as [-> | ->]; cbn -[FormatInt app]; unfold readBulkString;
      (erewrite rd_bind_Ok by (apply readNumber_line; unfold int64_range; lia)); done.
  - cbn [length] in Hlen, Hf. rewrite !length_app in Hlen, Hf.
    pose proof (wire_elems_length _ _ Hw). cbn -[app FormatInt readElems].
    erewrite rd_bind_Ok by (apply readNumber_line; unfold int64_range; lia). cbv beta.
    rewrite (proj2 (Z.ltb_ge _ _)) by lia.
    erewrite rd_bind_Ok by (unfold rd_out; rewrite makeslice_ok by lia; done).
    erewrite rd_bind_Ok; [done|]. apply readElems_wire; [done| |lia].
    apply Forall2_read_wire; [done|lia].
Qed.

(** ** Truncated input *)

Lemma line_prefix p line rest :
  LF ∉ line -> p `prefix_of` line ++ CRLF ++ rest ->
  LF ∉ p \/ exists p', p = line ++ CRLF ++ p' /\ p' `prefix_of` rest.
Proof.
  intros Hl Hp. rewrite app_assoc in Hp. apply prefix_cases in Hp as [[Hp Hne]|(p' & -> & Hp')].
  - left. change CRLF with ([CR] ++ [LF]) in *. rewrite app_assoc in *. destruct Hp as [q Hq].
    destruct q as [|c q _] using rev_ind; [rewrite app_nil_r in Hq; congruence|].
    rewrite app_assoc in Hq. apply app_inj_tail in Hq as [Hq _].
    intros Hin. apply Hl. assert (Hin' : LF ∈ line ++ [CR]) by (rewrite Hq; set_solver).
    apply elem_of_app in Hin' as [?|Hc%list_elem_of_singleton]; done.
  - right. exists p'. by rewrite <- app_assoc.
Qed.

Lemma line_cut p c line : LF ∉ line -> p `prefix_of` line ++ CRLF -> c :: p <> c :: line ++ CRLF -> LF ∉ p.
Proof.
  intros Hl Hp Hne. rewrite <- (app_nil_r CRLF) in Hp.
  apply line_prefix in Hp as [?|(p' & -> & Hp')]; [done| |done].
  apply prefix_nil_inv in Hp'. subst p'. by rewrite app_nil_r in Hne.
Qed.

Definition fails {A} (x : outcome A * Reader) : Prop := exists e, fst x = Err e.

Lemma rd_bind_fails {A B} (c : Rd A) (f : A -> Rd B) r : fails (c r) -> fails ((c ≫= f) r).
Proof. intros [e He]. exists e. unfold mbind, Rd_bind. destruct (c r) as [[]]; simpl in *; congruence. Qed.

Lemma rd_bind_fails_r {A B} (c : Rd A) (f : A -> Rd B) r a r' :
  c r = (Ok a, r') -> fails (f a r') -> fails ((c ≫= f) r).
Proof. intros E H. by rewrite (rd_bind_Ok _ _ _ _ _ E). Qed.

Lemma readLine_cut_fails p e : LF ∉ p -> fails (readLine (mkReader p e)).
Proof. intros. exists e. by rewrite readLine_cut. Qed.

Lemma readNumber_cut_fails p e : LF ∉ p -> fails (readNumber (mkReader p e)).
Proof. intros. by apply rd_bind_fails, readLine_cut_fails. Qed.

Definition read_cut (b : bytes) : Prop := forall p fuel err,
  p `prefix_of` b -> p <> b -> (2 * length p <= fuel)%nat -> fails (readAny fuel (mkReader p err)).

Lemma readElems_cut bs_ vs fuel p err :
  Forall2 wire bs_ vs -> Forall2 read_wire bs_ vs -> Forall read_cut bs_ ->
  p `prefix_of` concat bs_ -> p <> concat bs_ -> (2 * length p < fuel)%nat ->
  fails (readElems fuel (len vs) (mkReader p err)).
Proof.
  intros Hw Hr. revert fuel p Hw. induction Hr as [|b v bs_ vs Hb Hbs IH]; intros fuel p Hw Hc Hp Hne Hf.
  { simpl in *. apply prefix_nil_inv in Hp. congruence. }
  destruct fuel as [|fuel]; [lia|]. apply Forall2_cons in Hw as [Hw1 Hw]. apply Forall_cons in Hc as [Hc1 Hc].
  apply wire_length in Hw1. cbn [concat] in *.
  rewrite readElems_S, (proj2 (Z.leb_gt _ _)) by (simpl; lia).
  apply prefix_cases in Hp as [[Hp Hpb]|(p' & -> & Hp')].
  { apply rd_bind_fails, Hc1; [done|done|lia]. }
  rewrite length_app in Hf.
  eapply rd_bind_fails_r; [apply Hb; lia|]. apply rd_bind_fails.
  replace (len (v :: vs) - 1) with (len vs) by (simpl; lia).
  apply IH; [done|done|done|congruence|lia].
Qed.

Lemma ReadFull_cut_fails n p e : (length p < n)%nat -> fails (ReadFull n (mkReader p e)).
Proof.
  intros Hn. unfold ReadFull. cbn [r_bytes]. rewrite (proj2 (Nat.leb_gt _ _)) by lia. by eexists.
Qed.

Lemma prefix_length_lt {A} (p b : list A) : p `prefix_of` b -> p <> b -> (length p < length b)%nat.
Proof.
  intros [q ->] Hne. rewrite length_app. destruct q; [rewrite app_nil_r in Hne; done|simpl; lia].
Qed.

Lemma readBulk_cut d p err :
  len d <= 2^45 -> p `prefix_of` FormatInt (len d) ++ CRLF ++ d ++ CRLF ->
  p <> FormatInt (len d) ++ CRLF ++ d ++ CRLF -> fails (readBulkString (mkReader p err)).
Proof.
  intros Hd Hp Hne. unfold readBulkString.
  apply line_prefix in Hp as [Hp|(p' & -> & Hp')]; [by apply rd_bind_fails, readNumber_cut_fails| |apply FormatInt_no_LF].
  eapply rd_bind_fails_r; [apply readNumber_line; unfold int64_range; lia|]. cbv beta.
  rewrite (proj2 (Z.ltb_ge _ _)) by lia. rewrite wrap64_id by (unfold int64_range; lia).
  eapply rd_bind_fails_r; [unfold rd_out; rewrite makeslice_ok by lia; done|].
  apply rd_bind_fails, ReadFull_cut_fails. assert (p' <> d ++ CRLF) by congruence.
  pose proof (prefix_length_lt _ _ Hp' H) as Hl. rewrite length_app in Hl. simpl in Hl. lia.
Qed.

Lemma Forall_read_cut bs_ :
  Forall (fun b => len b <= 2^45 -> read_cut b) bs_ -> len (concat bs_) <= 2^45 -> Forall read_cut bs_.
Proof.
  induction 1 as [|b bs_ Hb _ IH]; cbn [concat]; [constructor|]. rewrite length_app. intros Hl.
  constructor; [apply Hb; lia|apply IH; lia].
Qed.

Lemma wire_cut b v : wire b v -> len b <= 2^45 -> read_cut b.
Proof.
  induction 1 as [t s Ht Hs|n Hn|d|t Ht|bs_ vs Hw IH] using wire_ind'; intros Hlen p fuel err Hp Hne Hf;
    (destruct p as [|c p]; [by exists err|]); (destruct fuel as [|fuel]; [cbn [length] in Hf; lia|]);
    pose proof (prefix_cons_inv_1 _ _ _ _ Hp) as ->; apply prefix_cons_inv_2 in Hp; rewrite readAny_cons.
  - apply line_cut in Hne; [|done|done].
    destruct Ht as [-> | ->]; cbn -[readLine]; by apply rd_bind_fails, readLine_cut_fails.
  - apply line_cut in Hne; [|apply FormatInt_no_LF|done]. cbn. by apply rd_bind_fails, readNumber_cut_fails.
  - cbn -[app FormatInt]. apply (readBulk_cut d); [|done|congruence].
    cbn [length] in Hlen. rewrite !length_app in Hlen. lia.
  - apply line_cut in Hne; [|apply FormatInt_no_LF|done].
    destruct Ht as [-> | ->]; cbn; by apply rd_bind_fails, readNumber_cut_fails.
  - cbn [length] in Hlen. rewrite !length_app in Hlen.
    pose proof (wire_elems_length _ _ Hw). cbn -[app FormatInt readElems].
    apply line_prefix in Hp as [Hp|(p' & -> & Hp')]; [by apply rd_bind_fails, readNumber_cut_fails| |apply FormatInt_no_LF].
    cbn [length] in Hf. rewrite !length_app in Hf.
    eapply rd_bind_fails_r; [apply readNumber_line; unfold int64_range; lia|]. cbv beta.
    rewrite (proj2 (Z.ltb_ge _ _)) by lia.
    eapply rd_bind_fails_r; [unfold rd_out; rewrite makeslice_ok by lia; done|].
    apply rd_bind_fails. apply (readElems_cut bs_); [done| | |done|congruence|lia].
    + apply Forall2_read_wire; [|lia]. eapply Forall2_impl; [exact Hw|]. intros. by apply wire_read.
    + apply Forall_read_cut; [|lia]. clear -IH. induction IH; by constructor.
Qed.

(** ** Progress *)

(** [r'] is [r] after at least [k] bytes. *)
Definition advances (k : nat) (r r' : Reader) : Prop :=
  exists c, r_bytes r = c ++ r_bytes r' /\ (k <= length c)%nat /\ r_end r' = r_end r.

Lemma advances_refl r : advances 0 r r.
Proof. by exists []. Qed.

Lemma advances_all r : advances 0 r (mkReader [] (r_end r)).
Proof. exists (r_bytes r). cbn. rewrite app_nil_r. split; [done|]. split; [lia|done]. Qed.

Lemma advances_trans i j r r' r'' : advances i r r' -> advances j r' r'' -> advances (i + j) r r''.
Proof.
  intros (c & Hc & Hi & He) (c' & Hc' & Hj & He'). exists (c ++ c').
  rewrite Hc, Hc', <- app_assoc, length_app. split; [done|]. split; [lia|congruence].
Qed.

Lemma advances_weaken i j r r' : (j <= i)%nat -> advances i r r' -> advances j r r'.
Proof. intros Hij (c & Hc & Hi & He). exists c. split; [done|]. split; [lia|done]. Qed.

Lemma advances_length k r r' : advances k r r' -> (length (r_bytes r') + k <= length (r_bytes r))%nat.
Proof. intros (c & -> & Hk & _). rewrite length_app. lia. Qed.

(** A step that never runs out of fuel, advances, and by [k] bytes when it succeeds. *)
Definition good {A} (k : nat) (r : Reader) (x : outcome A * Reader) : Prop :=
  fst x <> NoFuel /\ advances 0 r (snd x) /\ (forall a, fst x = Ok a -> advances k r (snd x)).

Lemma good_out {A} r (o : outcome A) : o <> NoFuel -> good 0 r (o, r).
Proof. intros. split; [done|]. split; [apply advances_refl|]. intros. apply advances_refl. Qed.

Lemma good_weaken {A} i j r (x : outcome A * Reader) : (j <= i)%nat -> good i r x -> good j r x.
Proof. intros Hij (? & ? & Hk). split; [done|]. split; [done|]. intros. eapply advances_weaken; [done|eauto]. Qed.

Lemma good_bind {A B} i j (c : Rd A) (f : A -> Rd B) r :
  good i r (c r) -> (forall a r', advances i r r' -> c r = (Ok a, r') -> good j r' (f a r')) ->
  good (i + j) r ((c ≫= f) r).
Proof.
  intros (Hn & Ha & Hk) Hf. unfold mbind, Rd_bind. destruct (c r) as [o r1] eqn:E. simpl in *.
  destruct o as [a|e| |]; simpl in *; [|by split|by split|done].
  specialize (Hk a eq_refl). destruct (Hf a r1 Hk eq_refl) as (Hn' & Ha' & Hk').
  split; [done|]. split.
  - eapply (advances_trans 0 0); done.
  - intros b Hb. eapply advances_trans; eauto.
Qed.

Lemma ReadByte_good r : good 1 r (ReadByte r).
Proof.
  unfold ReadByte. destruct (r_bytes r) as [|b l] eqn:E.
  - split; [done|]. split; [apply advances_refl|done].
  - split; [done|]. split; [|intros _ _]; exists [b]; rewrite E; (split; [done|]; split; [simpl; lia|done]).
Qed.

Lemma ReadBytes_adv delim r :
  let '(line, err, r') := ReadBytes delim r in
  advances 0 r r' /\ (err = None -> advances 1 r r').
Proof.
  unfold ReadBytes. destruct (IndexByte _ _) as [i|] eqn:E.
  - apply IndexByte_Some in E as (_ & Hi & _).
    assert (advances 1 r (mkReader (drop (S i) (r_bytes r)) (r_end r))).
    { exists (take (S i) (r_bytes r)). cbn. rewrite take_drop, length_take. split; [done|]. split; [lia|done]. }
    split; [|done]. by apply (advances_weaken 1); [lia|].
  - split; [apply advances_all|done].
Qed.

Lemma readLine_good r : good 1 r (readLine r).
Proof.
  unfold readLine. pose proof (ReadBytes_adv LF r) as H. destruct (ReadBytes LF r) as [[line [e|]] r'].
  - destruct H as [H _]. split; [done|]. by split.
  - destruct H as [H0 H1]. specialize (H1 eq_refl).
    repeat case_match; (split; [done|]; split; [done|]; by intros).
Qed.

Lemma readNumber_good r : good 1 r (readNumber r).
Proof.
  apply (good_bind 1 0); [apply readLine_good|]. intros. case_match; by apply good_out.
Qed.

Lemma makeslice_no_fuel k n : makeslice k n <> NoFuel.
Proof. unfold makeslice. by case_bool. Qed.

Lemma ReadFull_good n r : good 0 r (ReadFull n r).
Proof.
  unfold ReadFull. assert (Hdrop : advances 0 r (mkReader (drop n (r_bytes r)) (r_end r))).
  { exists (take n (r_bytes r)). cbn. rewrite take_drop. split; [done|]. split; [lia|done]. }
  case_match; [by split|]. split; [done|]. split; [apply advances_all|done].
Qed.

Lemma readBulk_good r : good 0 r (readBulkString r).
Proof.
  apply (good_weaken (1 + 0)); [lia|]. apply good_bind; [apply readNumber_good|]. intros n r' _ _.
  case_match; [by apply good_out|].
  apply (good_bind 0 0); [apply good_out, makeslice_no_fuel|]. intros _ r'' _ _.
  apply (good_bind 0 0); [apply ReadFull_good|]. intros. by apply good_out.
Qed.

Lemma readInline_good b r : good 0 r (readInline b r).
Proof.
  unfold readInline. pose proof (ReadBytes_adv LF r) as H. destruct (ReadBytes LF r) as [[line err] r'].
  destruct H as [H _].
  assert (Hi : inline_value (b :: line) <> NoFuel) by (unfold inline_value; by repeat case_match).
  repeat case_match; by split.
Qed.

Lemma line_value_good (f : bytes -> Value) r : good 0 r ((line ← readLine; mret (f line)) r).
Proof.
  apply (good_weaken (1 + 0)); [lia|]. apply good_bind; [apply readLine_good|]. intros. by apply good_out.
Qed.

Lemma read_good fuel :
  (forall t r, (2 * length (r_bytes r) < fuel)%nat -> good 0 r (readValue fuel t r)) /\
  (forall n r, (2 * length (r_bytes r) < fuel)%nat -> good 0 r (readElems fuel n r)).
Proof.
  induction fuel as [|fuel [IHv IHe]]; [split; intros; lia|]. split.
  - intros t r Hf. cbn [readValue]. repeat case_match; try apply line_value_good.
    + apply (good_weaken (1 + 0)); [lia|]. apply good_bind; [apply readNumber_good|]. intros. by apply good_out.
    + apply readBulk_good.
    + apply (good_weaken (1 + 0)); [lia|]. apply good_bind; [apply readNumber_good|]. intros n r' Hr' _.
      apply advances_length in Hr'. case_match; [by apply good_out|].
      apply (good_bind 0 0); [apply good_out, makeslice_no_fuel|]. intros _ r'' Hr'' _.
      apply advances_length in Hr''. apply (good_bind 0 0); [apply IHe; lia|]. intros. by apply good_out.
    + apply readInline_good.
  - intros n r Hf. cbn [readElems]. case_match; [by apply good_out|].
    apply (good_weaken (1 + 0)); [lia|]. apply good_bind; [apply ReadByte_good|]. intros b r' Hr' _.
    apply advances_length in Hr'. apply (good_bind 0 0); [apply IHv; lia|]. intros v r'' Hr'' _.
    apply advances_length in Hr''. apply (good_bind 0 0); [apply IHe; lia|]. intros. by apply good_out.
Qed.

Lemma ReadValue_good r : good 1 r (ReadValue r).
Proof.
  unfold ReadValue. apply (good_bind 1 0); [apply ReadByte_good|]. intros b r' Hr' _.
  apply advances_length in Hr'. apply read_good. unfold value_fuel. lia.
Qed.

(** The elements of an array that was read are there. *)
Lemma rd_bind_inv {A B} (c : Rd A) (f : A -> Rd B) r b r' :
  (c ≫= f) r = (Ok b, r') -> exists a r1, c r = (Ok a, r1) /\ f a r1 = (Ok b, r').
Proof. unfold mbind, Rd_bind. destruct (c r) as [[a|e| |] r1]; try done. eauto. Qed.

Lemma readElems_some fuel n r arr r' : readElems fuel n r = (Ok arr, r') -> Forall (fun e => is_Some e) arr.
Proof.
  revert n r arr r'. induction fuel as [|fuel IH]; intros n r arr r'; [done|]. cbn [readElems].
  destruct (n <=? 0); [by intros [= <- _]|]. intros H.
  apply rd_bind_inv in H as (b & r1 & _ & H). apply rd_bind_inv in H as (v & r2 & _ & H).
  apply rd_bind_inv in H as (vs & r3 & Hv & H). injection H as <- _. apply Forall_cons; split; [by exists v|]. by eapply IH.
Qed.

Lemma ReadValue_no_nil r v r' : ReadValue r = (Ok v, r') -> Forall (fun e => is_Some e) (Array v).
Proof.
  unfold ReadValue. intros H. apply rd_bind_inv in H as (b & r1 & _ & H). revert H.
  generalize (value_fuel (r_bytes r)). intros [|fuel]; [done|]. cbn [readValue].
  repeat case_bool.
  - intros H. apply rd_bind_inv in H as (x & r2 & _ & H). injection H as <- _. constructor.
  - intros H. apply rd_bind_inv in H as (x & r2 & _ & H). injection H as <- _. constructor.
  - intros H. apply rd_bind_inv in H as (x & r2 & _ & H). injection H as <- _. constructor.
  - intros H. apply rd_bind_inv in H as (x & r2 & _ & H). case_bool_in H; [injection H as <- _; constructor|].
    apply rd_bind_inv in H as (u & r3 & _ & H). apply rd_bind_inv in H as (y & r4 & _ & H). injection H as <- _. constructor.
  - intros H. apply rd_bind_inv in H as (x & r2 & _ & H). case_bool_in H; [injection H as <- _; constructor|].
    apply rd_bind_inv in H as (u & r3 & _ & H). apply rd_bind_inv in H as (arr & r4 & Ha & H). injection H as <- _.
    by eapply readElems_some.
  - assert (Hi : forall full w, inline_value full = Ok w -> Forall (fun e => is_Some e) (Array w)).
    { intros full w. unfold inline_value. repeat case_bool; try done. intros [= <-]. cbn. apply Forall_fmap, Forall_true. by eexists. }
    unfold readInline. destruct (ReadBytes LF r1) as [[line [e|]] r2]; [case_bool_decide|]; intros [= Hv _]; by eapply Hi.
Qed.

(** ** Writer *)

(** Everything given to the writer so far. *)
Definition total (w : Writer) : bytes := w_out w ++ w_buf w.

(** [c] writes [d]: it succeeds and [d] is buffered or sent, or the connection failed, the
    error sticks, and what was sent is a prefix of what had to be sent. *)
Definition wrote (w : Writer) (d : bytes) (x : option goerror * Writer) : Prop :=
  match x with
  | (None, w') => w_err w' = None /\ total w' = total w ++ d /\ (w_budget w = None -> w_budget w' = None)
  | (Some e, w') => w_err w' = Some e /\ w_budget w <> None /\ w_out w' `prefix_of` total w ++ d
  end.
Definition writes (c : Wr) (d : bytes) : Prop := forall w, w_err w = None -> wrote w d (c w).

Lemma wrote_then c d p q w :
  wrote w p (c w) -> (forall w', c w = (None, w') -> w_err w' = None -> wrote w' q (d w')) ->
  wrote w (p ++ q) ((c ;; d) w).
Proof.
  unfold wrote, wr_then. intros Hc Hd. destruct (c w) as [[e|] w'].
  - destruct Hc as (? & ? & Hp). split; [done|]. split; [done|]. rewrite app_assoc. by apply prefix_app_r.
  - destruct Hc as (Hw' & Ht & Hb). specialize (Hd w' eq_refl Hw'). rewrite Ht, <- app_assoc in Hd.
    destruct (d w') as [[e|] w'']; destruct Hd as (? & Hb' & Hd); (split; [done|]).
    + split; [|done]. intros E. by apply Hb', Hb.
    + split; [done|]. intros E. by apply Hd, Hb.
Qed.

Lemma writes_then c d p q : writes c p -> writes d q -> writes (c ;; d) (p ++ q).
Proof. intros Hc Hd w Hw. apply wrote_then; [by apply Hc|]. intros. by apply Hd. Qed.

Lemma writes_nil : writes (fun w => (None, w)) [].
Proof. intros w Hw. unfold wrote. by rewrite app_nil_r. Qed.

Lemma writes_each cs ds : Forall2 writes cs ds -> writes (write_each cs) (concat ds).
Proof. induction 1; [apply writes_nil|]. by apply writes_then. Qed.

Lemma put_buf_writes p : writes (put_buf p) p.
Proof. intros w Hw. unfold put_buf, wrote, total. cbn. by rewrite app_assoc. Qed.

Lemma conn_accept_spec d budget :
  let '(acc, b', err) := conn_accept d budget in
  match err with
  | None => acc = d /\ (budget = None -> b' = None)
  | Some _ => acc `prefix_of` d /\ budget <> None
  end.
Proof.
  unfold conn_accept. destruct budget as [k|]; [|done].
  destruct (length d <=? k)%nat; [done|]. split; [apply prefix_take|done].
Qed.

Lemma conn_direct_writes p w : w_err w = None -> w_buf w = [] -> wrote w p (conn_direct p w).
Proof.
  intros Hw Hb. unfold conn_direct, wrote, total. pose proof (conn_accept_spec p (w_budget w)) as H.
  destruct (conn_accept p (w_budget w)) as [[acc b'] [e|]]; cbn; rewrite Hb, !app_nil_r.
  - destruct H. split; [done|]. split; [done|]. by apply prefix_app.
  - by destruct H as [-> ?].
Qed.

Lemma Flush_writes : writes Flush [].
Proof.
  intros w Hw. unfold Flush, wrote, total. rewrite Hw. pose proof (conn_accept_spec (w_buf w) (w_budget w)) as H.
  destruct (conn_accept (w_buf w) (w_budget w)) as [[acc b'] [e|]]; cbn; rewrite !app_nil_r.
  - destruct H. split; [done|]. split; [done|]. by apply prefix_app.
  - destruct H as [-> ?]. split; [done|]. split; [|done]. by rewrite drop_all, app_nil_r.
Qed.

Lemma Flush_empty w w' : Flush w = (None, w') -> w_buf w' = [] /\ w_out w' = total w'.
Proof.
  unfold Flush, total. destruct (w_err w); [done|].
  pose proof (conn_accept_spec (w_buf w) (w_budget w)) as H.
  destruct (conn_accept (w_buf w) (w_budget w)) as [[acc b'] err]. intros [= -> <-]. destruct H as [-> _].
  cbn. by rewrite drop_all, app_nil_r.
Qed.

Lemma put_or_conn_writes p w : w_err w = None -> w_buf w = [] -> wrote w p (put_or_conn p w).
Proof.
  intros Hw Hb. unfold put_or_conn. case_match; [by apply put_buf_writes|by apply conn_direct_writes].
Qed.

Lemma Write_writes p : writes (Write p) p.
Proof.
  intros w Hw. unfold Write. rewrite Hw. case_match; [by apply put_buf_writes|].
  destruct (length (w_buf w) =? 0)%nat eqn:E.
  { apply Nat.eqb_eq, length_zero_iff_nil in E. by apply conn_direct_writes. }
  set (k := (w_size w - length (w_buf w))%nat). rewrite <- (take_drop k p) at 1.
  apply wrote_then; [by apply put_buf_writes|]. intros w1 _ Hw1. rewrite <- (app_nil_l (drop k p)) at 1.
  apply wrote_then; [by apply Flush_writes|]. intros w2 Hf Hw2.
  apply put_or_conn_writes; [done|]. by apply Flush_empty in Hf as [? _].
Qed.

#[local] Hint Resolve Write_writes writes_then : go.

Lemma WriteBulkString_writes d : writes (WriteBulkString d) (appendBulk [] d).
Proof. rewrite appendBulk_eq. apply (writes_then _ _ [x24]); auto with go. Qed.

Lemma WriteNilBulk_writes : writes WriteNilBulkString nilBulk.
Proof. apply Write_writes. Qed.

Lemma header_writes n : writes (array_header n) (x2a :: FormatInt n ++ CRLF).
Proof. apply (writes_then _ _ [x2a]); auto with go. Qed.

(** The five types, in the value and its elements. *)
Fixpoint known_types (v : Value) : bool :=
  (Type_ v =b TypeSimpleString) || (Type_ v =b TypeError) || (Type_ v =b TypeInteger) || (Type_ v =b TypeBulkString)
  || ((Type_ v =b TypeArray)
      && forallb (fun e => match e with Some e => known_types e | None => true end) (Array v)).
Definition known_ptr (v : option Value) : bool := match v with Some v => known_types v | None => true end.

Lemma WriteValue_eq t s n l k :
  WriteValue (mkValue t s n l k) =
  if t =b TypeSimpleString then WriteSimpleString s
  else if t =b TypeError then WriteError s
  else if t =b TypeInteger then WriteInteger n
  else if t =b TypeBulkString then if k then WriteNilBulkString else WriteBulkString s
  else if t =b TypeArray then if k then WriteNilArray else WriteArray l
  else fun w => (Some (unknown_type t), w).
Proof. done. Qed.

Lemma WriteValuePtr_writes v : known_ptr v = true -> writes (WriteValuePtr v) (EncodeValue v).
Proof.
  destruct v as [v|]; [|intros _; apply WriteNilBulk_writes].
  induction v as [t s n l k IH] using value_ind'. intros Hk. unfold EncodeValue. cbn [WriteValuePtr appendValuePtr].
  rewrite WriteValue_eq, appendValue_eq. cbn [known_ptr known_types Type_ Array] in Hk.
  unfold appendInt. rewrite !app_nil_l.
  destruct (t =b TypeSimpleString); [unfold WriteSimpleString; by auto with go|].
  destruct (t =b TypeError); [unfold WriteError; by auto with go|].
  destruct (t =b TypeInteger); [rewrite <- app_assoc; unfold WriteInteger; by auto with go|].
  destruct (t =b TypeBulkString).
  { destruct k; [apply WriteNilBulk_writes|apply WriteBulkString_writes]. }
  destruct (t =b TypeArray); [|done]. cbn [orb andb] in Hk.
  destruct k; [apply Write_writes|]. rewrite appendElems_concat, <- !app_assoc.
  rewrite (app_assoc (FormatInt _)), (app_assoc [x2a]). apply writes_then; [apply header_writes|].
  apply writes_each. clear -IH Hk. induction l as [|x l IHl]; [constructor|].
  cbn [forallb] in Hk. apply andb_true_iff in Hk as [Hx Hl].
  constructor; [|apply IHl; [|done]; intros; apply IH; set_solver].
  destruct x as [v|]; [apply IH; [set_solver|done]|apply WriteNilBulk_writes].
Qed.

Lemma WriteCommand_writes args : writes (WriteCommandBytes args) (EncodeCommandBytes args).
Proof.
  rewrite EncodeCommandBytes_eq.
  replace (x2a :: FormatInt (len args) ++ CRLF ++ concat (map (appendBulk []) args))
    with ((x2a :: FormatInt (len args) ++ CRLF) ++ concat (map (appendBulk []) args))
    by (cbn [app]; by rewrite <- app_assoc).
  apply writes_then; [apply header_writes|]. apply writes_each.
  induction args; constructor; [apply WriteBulkString_writes|done].
Qed.

(** What reaches the connection once the writer is flushed. *)
Lemma writes_flush c d size :
  writes c d -> exists w, (c ;; Flush) (mkWriter size [] [] None None) = (None, w) /\ w_out w = d.
Proof.
  intros Hc. pose proof (writes_then _ _ _ _ Hc Flush_writes (mkWriter size [] [] None None) eq_refl) as H.
  unfold wrote, wr_then in *. destruct (c _) as [[e|] w]; [by destruct H as (_ & [] & _)|].
  destruct (Flush w) as [[e|] w'] eqn:Ef; [by destruct H as (_ & [] & _)|]. exists w'. split; [done|].
  destruct H as (_ & Ht & _). apply Flush_empty in Ef as [_ ->]. rewrite Ht. unfold total. cbn. apply app_nil_r.
Qed.

(** ** Properties *)

Lemma read_one x rest err :
  wf_ptr x = true -> len (EncodeValue x) <= 2^45 ->
  ReadValue (mkReader (EncodeValue x ++ rest) err) = (Ok (canon_ptr x), mkReader rest err).
Proof.
  intros Hwf Hl. apply (wire_read _ _ (wire_encode x Hwf) Hl). unfold value_fuel. cbn. rewrite length_app. lia.
Qed.

(** Several values in a row. *)
Fixpoint read_values (n : nat) : Rd (list Value) :=
  match n with
  | O => mret []
  | S n => v ← ReadValue; vs ← read_values n; mret (v :: vs)
  end.

Lemma read_all xs rest err :
  forallb wf_ptr xs = true -> len (concat (map EncodeValue xs)) <= 2^45 ->
  read_values (length xs) (mkReader (concat (map EncodeValue xs) ++ rest) err)
  = (Ok (map canon_ptr xs), mkReader rest err).
Proof.
  induction xs as [|x xs IH]; [done|]. cbn [forallb map concat length read_values]. rewrite length_app.
  intros Hwf Hl. apply andb_true_iff in Hwf as [Hx Hwf]. rewrite <- app_assoc.
  erewrite rd_bind_Ok by (apply read_one; [done|lia]).
  by erewrite rd_bind_Ok by (apply IH; [done|lia]).
Qed.

(** C29: values encoded one after the other are read back by the stream reader in order,
    whatever the peer sends afterwards; when the connection ends inside a value the
    reader reports an error, never a shorter value. *)
Theorem ReadValue_stream xs :
  forallb wf_ptr xs = true -> len (concat (map EncodeValue xs)) <= 2^45 ->
  (forall rest err, read_values (length xs) (mkReader (concat (map EncodeValue xs) ++ rest) err)
     = (Ok (map canon_ptr xs), mkReader rest err)) /\
  (forall x p err, x ∈ xs -> p `prefix_of` EncodeValue x -> p <> EncodeValue x ->
     exists e, fst (ReadValue (mkReader p err)) = Err e).
Proof.
  intros Hwf Hl. split; [intros; by apply read_all|]. intros x p err Hx Hp Hne.
  assert (Hlx : len (EncodeValue x) <= 2^45).
  { apply list_elem_of_split in Hx as (l1 & l2 & ->). rewrite map_app, concat_app, length_app in Hl.
    cbn [map concat] in Hl. rewrite length_app in Hl. lia. }
  rewrite forallb_forall in Hwf. apply list_elem_of_In, Hwf in Hx.
  apply (wire_cut _ _ (wire_encode x Hx) Hlx); [done|done|]. unfold value_fuel. cbn. lia.
Qed.

Lemma ReadValue_stream_witness :
  read_values 2 (mkReader (concat (map EncodeValue [Some (IntValue 7); Some (array_value [None; Some OKValue])])) EOF)
  = (Ok [IntValue 7; array_value [Some (nil_value TypeBulkString); Some OKValue]], mkReader [] EOF) /\
  exists e, fst (ReadValue (mkReader (bs "*2" ++ CRLF ++ bs "$-1" ++ CRLF ++ bs "+O") EOF)) = Err e.
Proof.
  destruct (ReadValue_stream [Some (IntValue 7); Some (array_value [None; Some OKValue])]) as [H1 H2];
    [reflexivity|vm_compute; discriminate|].
  split; [exact (H1 [] EOF)|]. apply (H2 (Some (array_value [None; Some OKValue]))); [set_solver| |discriminate].
  exists (bs "K" ++ CRLF). reflexivity.
Defined.

(** A command read from a stream is the one that was sent, its name raised. *)
Lemma ReadRequest_EncodeCommand a args rest err :
  len (EncodeCommandBytes (a :: args)) <= 2^45 ->
  ReadRequest (mkReader (EncodeCommandBytes (a :: args) ++ rest) err)
  = (Ok (mkRequest (map upper_byte a :: args) [] (map upper_byte a)), mkReader rest err).
Proof.
  intros Hl. set (v := array_value (map (fun d => Some (str_value TypeBulkString d)) (a :: args))).
  assert (Henc : EncodeCommandBytes (a :: args) = EncodeValue (Some v)).
  { rewrite EncodeCommandBytes_eq. unfold EncodeValue, v, array_value. cbn [appendValuePtr].
    rewrite appendValue_eq. cbv beta iota. change (TypeArray =b TypeSimpleString) with false.
    change (TypeArray =b TypeError) with false. change (TypeArray =b TypeInteger) with false.
    change (TypeArray =b TypeBulkString) with false. change (TypeArray =b TypeArray) with true. cbv iota.
    unfold appendInt. rewrite appendElems_concat, length_map, map_map, <- !app_assoc. done. }
  assert (Hwf : forall l, forallb (fun e => match e with Some e => wf_value e | None => true end)
                  (map (fun d => Some (str_value TypeBulkString d)) l) = true) by (by induction l).
  rewrite Henc in *. unfold ReadRequest. erewrite rd_bind_Ok by (apply read_one; [apply (Hwf (a :: args))|done]).
  cbn -[length]. rewrite !map_map. cbn. by rewrite map_id.
Qed.

(** The stream reader always returns: no input makes it loop, and a value it returns
    takes at least one byte and leaves the rest of the input untouched. *)
Lemma ReadValue_progress r :
  fst (ReadValue r) <> NoFuel /\
  (forall v r', ReadValue r = (Ok v, r') ->
     exists c, c <> [] /\ r_bytes r = c ++ r_bytes r' /\ r_end r' = r_end r).
Proof.
  destruct (ReadValue_good r) as (Hn & _ & Hk). split; [done|]. intros v r' E. rewrite E in Hk.
  destruct (Hk v eq_refl) as (c & Hc & Hl & He). exists c. split; [|done]. intros ->. simpl in Hl. lia.
Qed.

(** The writer sends exactly what the encoders produce: a value or a command written
    and flushed to a connection that does not fail is its encoding; when the connection
    fails the writer reports an error that sticks, and what was sent is a prefix. *)
Lemma Writer_encodes :
  (forall v, known_ptr v = true -> writes (WriteValuePtr v) (EncodeValue v)) /\
  (forall args, writes (WriteCommandBytes args) (EncodeCommandBytes args)) /\
  (forall args, EncodeCommand args = EncodeCommandBytes args).
Proof.
  split; [exact WriteValuePtr_writes|]. split; [exact WriteCommand_writes|]. intros args. unfold EncodeCommand.
  destruct (writes_flush _ _ (64 * 1024) (WriteCommand_writes args)) as (w & Hw & Ho).
  unfold wr_then, NewWriter in *. destruct (WriteCommandBytes args _) as [[e|] w']; [done|]. by rewrite Hw.
Qed.
