(* ===== verification/Pool.v ===== *)
(** * Pool: the connection pool and the registry of pools

    Model of [pkg/pool/pool.go] and [pkg/pool/registry.go].

    The code of [Get], [put] and [Close] between two lock operations is one function on
    the pool ([get_locked], [put_locked], ...); [thread] is the point a goroutine has
    reached, and [pstep] is one step of one of the goroutines, so that the theorems hold
    for every interleaving.  The channel [waiters] holds indistinguishable tokens and is
    their number.  The fields [p_next] and [p_shut] count the connections that were
    opened and list the ones that were closed.

    Durations and times are nanoseconds. *)

From S2P Require Import Prelude GoStd Value RespStream.

Definition DefaultPoolSize : Z := 10.
Definition second : Z := 1000000000.
Definition DefaultIdleTimeout : Z := 30 * second.
Definition DefaultDialTimeout : Z := 3 * second.

Record Conn := mkPooled {
  conn_id : nat;
  usedAt : Z;
  broken : bool;
}.

Record Options := mkOptions {
  o_addr : bytes;
  o_username : bytes;
  o_password : bytes;
  o_maxSize : Z;
  o_idleTimeout : Z;
  o_dialTimeout : Z;
  o_readonly : bool;
}.

Record Pool := mkPool {
  opts : Options;
  conns : list Conn;
  numConns : Z;
  closed : bool;
  waiters : Z;
  p_next : nat;
  p_shut : list nat;
}.

Definition maxSize (p : Pool) : Z := o_maxSize (opts p).

Definition or_default (n d : Z) : Z := if n <=? 0 then d else n.

Definition New (o : Options) : Pool :=
  mkPool (mkOptions (o_addr o) (o_username o) (o_password o) (or_default (o_maxSize o) DefaultPoolSize)
            (or_default (o_idleTimeout o) DefaultIdleTimeout) (or_default (o_dialTimeout o) DefaultDialTimeout)
            (o_readonly o))
    [] 0 false 0 0 [].

Definition set_conns (cs : list Conn) (n : Z) (shut : list nat) (p : Pool) : Pool :=
  mkPool (opts p) cs n (closed p) (waiters p) (p_next p) shut.
Definition set_num (n : Z) (p : Pool) : Pool := set_conns (conns p) n (p_shut p) p.
Definition set_waiters (n : Z) (p : Pool) : Pool :=
  mkPool (opts p) (conns p) (numConns p) (closed p) n (p_next p) (p_shut p).
Definition set_next (n : nat) (p : Pool) : Pool :=
  mkPool (opts p) (conns p) (numConns p) (closed p) (waiters p) n (p_shut p).

(** [c.Conn.Close()] *)
Definition shut (c : Conn) (p : Pool) : Pool := set_conns (conns p) (numConns p) (p_shut p ++ [conn_id c]) p.

(** ** Sections under the lock *)

(** The idle connections from the last one on: expired ones are closed. *)
Fixpoint pop_rev (now : Z) (rev_conns : list Conn) (p : Pool) : option Conn * Pool :=
  match rev_conns with
  | [] => (None, set_conns [] (numConns p) (p_shut p) p)
  | c :: cs =>
      if (0 <? o_idleTimeout (opts p)) && (o_idleTimeout (opts p) <? now - usedAt c)
      then pop_rev now cs (set_num (numConns p - 1) (shut c p))
      else (Some c, set_conns (rev cs) (numConns p) (p_shut p) p)
  end.

Definition popIdle (now : Z) (p : Pool) : option Conn * Pool := pop_rev now (rev (conns p)) p.

Inductive got := GotIdle (c : Conn) | GotSlot | GotNothing.

Definition get_locked (now : Z) (p : Pool) : got * Pool :=
  match popIdle now p with
  | (Some c, p) => (GotIdle c, p)
  | (None, p) => if numConns p <? maxSize p then (GotSlot, set_num (numConns p + 1) p) else (GotNothing, p)
  end.

Definition release_slot (p : Pool) : Pool := set_num (numConns p - 1) p.

(** The connection is kept, or has to be closed. *)
Definition put_locked (now : Z) (c : Conn) (p : Pool) : option Conn * Pool :=
  if len (conns p) <? maxSize p
  then (None, set_conns (conns p ++ [mkPooled (conn_id c) now (broken c)]) (numConns p) (p_shut p) p)
  else (Some c, release_slot p).

(** A token when there is room. *)
Definition notify (p : Pool) : Pool := if waiters p <? maxSize p then set_waiters (waiters p + 1) p else p.

Definition MarkBroken (c : Conn) : Conn := mkPooled (conn_id c) (usedAt c) true.

(** [put] of a goroutine that nobody interrupts; its steps are those of [tstep]. *)
Definition put (now : Z) (c : Conn) (p : Pool) : Pool :=
  if broken c || closed p then shut c (notify (release_slot p))
  else match put_locked now c p with
       | (None, p) => notify p
       | (Some c, p) => shut c (notify p)
       end.

Definition close_flag (p : Pool) : Pool :=
  mkPool (opts p) (conns p) (numConns p) true (waiters p) (p_next p) (p_shut p).
Definition close_locked (p : Pool) : Pool := set_conns [] 0 (p_shut p ++ map conn_id (conns p)) p.
Definition Close (p : Pool) : Pool := close_locked (close_flag p).

Definition Stats (p : Pool) : Z * Z := (numConns p, len (conns p)).

(** ** Opening a connection *)

(** A command and its reply on a fresh connection. *)
Definition request (cmd : list bytes) (r : Reader) (w : Writer) : outcome Value * Reader * Writer :=
  match WriteCommandBytes cmd w with
  | (Some e, w) => (Err e, r, w)
  | (None, w) =>
      match Flush w with
      | (Some e, w) => (Err e, r, w)
      | (None, w) => let '(v, r) := Stream.ReadValue r in (v, r, w)
      end
  end.

(** A reply that must not be an error. *)
Definition accept (prefix : bytes) (v : outcome Value) : outcome unit :=
  match v with
  | Ok v => if IsError (Some v) then Err (Errorf (prefix ++ Error (Some v))) else Ok tt
  | Err e => Err e
  | Panic => Panic
  | NoFuel => NoFuel
  end.

Definition auth_args (username password : bytes) : list bytes :=
  match username with [] => [bs "AUTH"; password] | _ => [bs "AUTH"; username; password] end.

Definition auth (o : Options) (r : Reader) (w : Writer) : outcome unit * Reader * Writer :=
  let '(v, r, w) := request (auth_args (o_username o) (o_password o)) r w in
  (accept (bs "auth failed: ") v, r, w).

Definition sendReadonly (r : Reader) (w : Writer) : outcome unit * Reader * Writer :=
  let '(v, r, w) := request [bs "READONLY"] r w in
  (accept (bs "READONLY failed: ") v, r, w).

(** [net] is what the dialer gives: an error, or the connection's two directions. *)
Definition dial (o : Options) (net : goerror + Reader * option nat) : outcome (Reader * Writer) :=
  match net with
  | inr (r, budget) =>
      let w := NewWriter budget in
      let '(a, r, w) := match o_password o with [] => (Ok tt, r, w) | _ => auth o r w end in
      _ ← a;
      let '(a, r, w) := if o_readonly o then sendReadonly r w else (Ok tt, r, w) in
      _ ← a;
      Ok (r, w)
  | inl e => Err (Errorf (bs "dial " ++ o_addr o ++ bs ": " ++ err_msg e))
  end.

(** ** Goroutines *)

Inductive after := AfterErr (e : goerror) | AfterKept | AfterShut (c : Conn).

Inductive thread :=
| TGet
| TLoop
| TDial
| TDialFailed (e : goerror)
| TNotify (a : after)
| TWait
| THold (c : Conn)
| TPut (c : Conn)
| TPutBroken (c : Conn)
| TPutLock (c : Conn)
| TClose
| TCloseLock
| TDone (r : option goerror).

Definition ErrPoolClosed : goerror := Errorf (bs "connection pool is closed").

(** One step of a goroutine.  [now] is the clock, [net] what the network does. *)
Inductive tstep (now : Z) : Pool -> thread -> Pool -> thread -> Prop :=
| st_closed p : closed p = true -> tstep now p TGet p (TDone (Some ErrPoolClosed))
| st_open p : closed p = false -> tstep now p TGet p TLoop
| st_idle p c p' : get_locked now p = (GotIdle c, p') -> tstep now p TLoop p' (THold c)
| st_slot p p' : get_locked now p = (GotSlot, p') -> tstep now p TLoop p' TDial
| st_none p p' : get_locked now p = (GotNothing, p') -> tstep now p TLoop p' TWait
| st_dialed p net rw :
    dial (opts p) net = Ok rw ->
    tstep now p TDial (set_next (S (p_next p)) p) (THold (mkPooled (p_next p) now false))
| st_dial_err p net e : dial (opts p) net = Err e -> tstep now p TDial p (TDialFailed e)
| st_dial_failed p e : tstep now p (TDialFailed e) (release_slot p) (TNotify (AfterErr e))
| st_notify_err p e : tstep now p (TNotify (AfterErr e)) (notify p) (TDone (Some e))
| st_notify_kept p : tstep now p (TNotify AfterKept) (notify p) (TDone None)
| st_notify_shut p c : tstep now p (TNotify (AfterShut c)) (shut c (notify p)) (TDone None)
| st_wake p : 0 < waiters p -> tstep now p TWait (set_waiters (waiters p - 1) p) TLoop
| st_cancel p e : tstep now p TWait p (TDone (Some e))
| st_broken p c : tstep now p (THold c) p (THold (MarkBroken c))
| st_close_conn p c : tstep now p (THold c) p (TPut c)
| st_put_bad p c : broken c || closed p = true -> tstep now p (TPut c) p (TPutBroken c)
| st_put_ok p c : broken c || closed p = false -> tstep now p (TPut c) p (TPutLock c)
| st_put_broken p c : tstep now p (TPutBroken c) (release_slot p) (TNotify (AfterShut c))
| st_put_kept p c p' : put_locked now c p = (None, p') -> tstep now p (TPutLock c) p' (TNotify AfterKept)
| st_put_full p c c' p' : put_locked now c p = (Some c', p') -> tstep now p (TPutLock c) p' (TNotify (AfterShut c'))
| st_close p : tstep now p TClose (close_flag p) TCloseLock
| st_close_lock p : tstep now p TCloseLock (close_locked p) (TDone None).

(** What [put] does in one go is what its three steps do one after the other. *)
Lemma put_steps now c p : exists p1 t1 p2 t2,
  tstep now p (TPut c) p1 t1 /\ tstep now p1 t1 p2 t2 /\ tstep now p2 t2 (put now c p) (TDone None).
Proof.
  unfold put. destruct (broken c || closed p) eqn:E; [|destruct (put_locked now c p) as [[c'|] p'] eqn:El].
  - exists p, (TPutBroken c), (release_slot p), (TNotify (AfterShut c)). split; [by apply st_put_bad|]. split; constructor.
  - exists p, (TPutLock c), p', (TNotify (AfterShut c')). split; [by apply st_put_ok|]. split; [by apply st_put_full|constructor].
  - exists p, (TPutLock c), p', (TNotify AfterKept). split; [by apply st_put_ok|]. split; [by apply st_put_kept|constructor].
Qed.

(** One of the goroutines moves, or a new caller of [Get] or [Close] arrives. *)
Inductive pstep : Pool * list thread -> Pool * list thread -> Prop :=
| ps_thread now i p ts t p' t' :
    ts !! i = Some t -> tstep now p t p' t' -> pstep (p, ts) (p', <[i := t']> ts)
| ps_new p ts t : t = TGet \/ t = TClose -> pstep (p, ts) (p, ts ++ [t]).

Inductive preach (o : Options) : Pool * list thread -> Prop :=
| pr_init : preach o (New o, [])
| pr_step s s' : preach o s -> pstep s s' -> preach o s'.

(** ** Registry of pools *)

(** The interface [closer]; [remove] and [closeAll] call it. *)
Class Closer (P : Type) := close_pool : P -> P.

#[global] Instance Pool_Closer : Closer Pool := Close.

Definition ro_suffix : bytes := bs "#ro".

(** [closed_pools] are the pools the registry closed and let go. *)
Record poolRegistry (P : Type) := mkRegistry {
  pools : gmap bytes P;
  closed_pools : list P;
}.
Arguments mkRegistry {P} _ _.
Arguments pools {P} _.
Arguments closed_pools {P} _.

Section registry.
Context {P : Type} `{Closer P}.

Definition newPoolRegistry : poolRegistry P := mkRegistry ∅ [].

(** Both look-ups of the key, the one before and the one under the write lock, see the
    same map when nobody else writes in between; whoever comes second finds the entry. *)
Definition getOrCreate (key : bytes) (factory : bytes -> bool -> P) (r : poolRegistry P) : P * poolRegistry P :=
  let addr := TrimSuffix key ro_suffix in
  let readonly := HasSuffix key ro_suffix in
  match pools r !! key with
  | Some p => (p, r)
  | None =>
      let p := factory addr readonly in
      (p, mkRegistry (<[key := p]> (pools r)) (closed_pools r))
  end.

Definition remove (key : bytes) (r : poolRegistry P) : poolRegistry P :=
  match pools r !! key with
  | Some p => mkRegistry (delete key (pools r)) (closed_pools r ++ [close_pool p])
  | None => r
  end.

Definition closeAll (r : poolRegistry P) : poolRegistry P :=
  mkRegistry ∅ (closed_pools r ++ map (fun kp => close_pool (snd kp)) (map_to_list (pools r))).

End registry.

(** ** Manager *)

Record Manager := mkManager {
  reg : poolRegistry Pool;
  m_username : bytes;
  m_password : bytes;
  m_maxSize : Z;
}.

Definition NewManager (username password : bytes) (size : Z) : Manager :=
  mkManager newPoolRegistry username password (or_default size DefaultPoolSize).

Definition newPool (m : Manager) (addr : bytes) (readonly : bool) : Pool :=
  New (mkOptions addr (m_username m) (m_password m) (m_maxSize m) 0 0 readonly).

Definition set_reg (r : poolRegistry Pool) (m : Manager) : Manager :=
  mkManager r (m_username m) (m_password m) (m_maxSize m).

Definition GetPool (addr : bytes) (m : Manager) : Pool * Manager :=
  let '(p, r) := getOrCreate addr (newPool m) (reg m) in (p, set_reg r m).
Definition GetReadonlyPool (addr : bytes) (m : Manager) : Pool * Manager :=
  let '(p, r) := getOrCreate (addr ++ ro_suffix) (newPool m) (reg m) in (p, set_reg r m).
Definition RemovePool (addr : bytes) (m : Manager) : Manager :=
  set_reg (remove (addr ++ ro_suffix) (remove addr (reg m))) m.
Definition Manager_Close (m : Manager) : Manager := set_reg (closeAll (reg m)) m.

(** Every entry adds the connections of its pool to its address. *)
Definition count_entry (kp : bytes * Pool) (counts : gmap bytes Z) : gmap bytes Z :=
  let addr := TrimSuffix (fst kp) ro_suffix in
  let total := fst (Stats (snd kp)) in
  if 0 <? total then <[addr := default 0 (counts !! addr) + total]> counts else counts.
Definition ConnCountByAddr (m : Manager) : gmap bytes Z := foldr count_entry ∅ (map_to_list (pools (reg m))).
