(* ===== verification/PoolFacts.v ===== *)
(** * PoolFacts: the connection pool under concurrency

    One invariant of all interleavings of [Get], [put] and [Close] ([pinv]): the pool never
    counts more connections than its maximum, the count is exact while the pool is open,
    no connection is in two places, and a caller that waits is woken when a connection or
    a slot is free. *)

From S2P Require Import Prelude GoStd Value RespStream StreamFacts Pool.

(** ** What a goroutine accounts for *)

(** It occupies one of the counted connections. *)
Definition slots (t : thread) : Z :=
  match t with
  | TDial | TDialFailed _ | THold _ | TPut _ | TPutBroken _ | TPutLock _ => 1
  | _ => 0
  end.

(** It is about to look at the pool or to post a token. *)
Definition wakers (t : thread) : Z := match t with TLoop | TNotify _ => 1 | _ => 0 end.

Definition waits (t : thread) : Z := match t with TWait => 1 | _ => 0 end.

(** The connections it has. *)
Definition ids (t : thread) : list nat :=
  match t with
  | THold c | TPut c | TPutBroken c | TPutLock c | TNotify (AfterShut c) => [conn_id c]
  | _ => []
  end.

Definition sum (f : thread -> Z) (ts : list thread) : Z := foldr (fun t n => f t + n) 0 ts.

(** Connections a caller could get now, idle or to be opened. *)
Definition avail (p : Pool) : Z := len (conns p) + maxSize p - numConns p.

Definition all_ids (p : Pool) (ts : list thread) : list nat :=
  map conn_id (conns p) ++ concat (map ids ts) ++ p_shut p.

Record pinv (p : Pool) (ts : list thread) : Prop := {
  pi_pos : 0 < maxSize p;
  pi_nodup : NoDup (all_ids p ts);
  pi_fresh : Forall (fun i => (i < p_next p)%nat) (all_ids p ts);
  pi_max : numConns p <= maxSize p;
  pi_tokens : 0 <= waiters p <= maxSize p;
  pi_closing : Forall (fun t => t = TCloseLock -> closed p = true) ts;
  pi_count : closed p = false -> numConns p = len (conns p) + sum slots ts;
  pi_wake : closed p = false -> 0 < sum waits ts -> avail p <= waiters p + sum wakers ts;
}.

(** ** Permutations of the goroutines *)

Lemma sum_perm f ts ts' : ts ≡ₚ ts' -> sum f ts = sum f ts'.
Proof. unfold sum. induction 1; simpl; lia. Qed.

Lemma sum_cons f t ts : sum f (t :: ts) = f t + sum f ts.
Proof. done. Qed.

Lemma sum_nonneg f ts : (forall t, 0 <= f t) -> 0 <= sum f ts.
Proof. intros Hf. unfold sum. induction ts as [|t ts IH]; simpl; [lia|]. specialize (Hf t). lia. Qed.

Lemma all_ids_perm p ts ts' : ts ≡ₚ ts' -> all_ids p ts ≡ₚ all_ids p ts'.
Proof.
  intros H. unfold all_ids. apply Permutation_app_head, Permutation_app_tail.
  induction H; simpl; [done|by f_equiv| |by etrans].
  rewrite !app_assoc. f_equiv. apply Permutation_app_comm.
Qed.

Lemma pinv_perm p ts ts' : ts ≡ₚ ts' -> pinv p ts -> pinv p ts'.
Proof.
  intros H []. pose proof (all_ids_perm p _ _ H) as Hi.
  split; try done.
  - by rewrite <- Hi.
  - by rewrite <- Hi.
  - by rewrite <- H.
  - by rewrite <- (sum_perm _ _ _ H).
  - by rewrite <- !(sum_perm _ _ _ H).
Qed.

Lemma insert_perm (i : nat) (ts : list thread) t t' :
  ts !! i = Some t -> exists R, ts ≡ₚ t :: R /\ <[i := t']> ts ≡ₚ t' :: R.
Proof.
  intros Hi. apply list_elem_of_split_length in Hi as (l1 & l2 & -> & ->).
  exists (l1 ++ l2). rewrite insert_app_r_alt, Nat.sub_diag by lia. simpl.
  split; by rewrite <- Permutation_middle.
Qed.

(** ** Idle connections *)

Definition expired (now : Z) (o : Options) (c : Conn) : bool :=
  (0 <? o_idleTimeout o) && (o_idleTimeout o <? now - usedAt c).

Lemma pop_rev_spec now l p o p' :
  pop_rev now l p = (o, p') ->
  exists D k, l = D ++ match o with Some c => c :: k | None => [] end /\
    (o = None -> k = []) /\ conns p' = rev k /\ numConns p' = numConns p - len D /\
    p_shut p' = p_shut p ++ map conn_id D /\ Forall (fun c => expired now (opts p) c = true) D /\
    (forall c, o = Some c -> expired now (opts p) c = false) /\
    opts p' = opts p /\ closed p' = closed p /\ waiters p' = waiters p /\ p_next p' = p_next p.
Proof.
  revert p. induction l as [|c l IH]; intros p; cbn [pop_rev].
  { intros [= <- <-]. exists [], []. cbn. rewrite app_nil_r, Z.sub_0_r. done. }
  fold (expired now (opts p) c). destruct (expired now (opts p) c) eqn:E.
  - intros H. destruct (IH _ H) as (D & k & -> & Hk & Hc & Hn & Hs & HD & Ho & Hrest).
    exists (c :: D), k. cbn in *. rewrite <- app_assoc in Hs.
    split; [done|]. split; [done|]. split; [done|]. split; [lia|]. split; [done|]. split; [by constructor|done].
  - intros [= <- <-]. exists [], l. cbn. rewrite app_nil_r, Z.sub_0_r.
    split; [done|]. split; [done|]. split; [done|]. split; [done|]. split; [done|]. split; [done|].
    split; [by intros ? [= <-]|done].
Qed.

Lemma popIdle_spec now p o p' :
  popIdle now p = (o, p') ->
  exists D k, conns p = rev k ++ match o with Some c => [c] | None => [] end ++ rev D /\
    (o = None -> k = []) /\ conns p' = rev k /\ numConns p' = numConns p - len D /\
    p_shut p' = p_shut p ++ map conn_id D /\ Forall (fun c => expired now (opts p) c = true) D /\
    (forall c, o = Some c -> expired now (opts p) c = false) /\
    opts p' = opts p /\ closed p' = closed p /\ waiters p' = waiters p /\ p_next p' = p_next p.
Proof.
  intros H. apply pop_rev_spec in H as (D & k & Hl & Hk & Hrest). exists D, k. split; [|by split].
  rewrite <- (rev_involutive (conns p)), Hl. destruct o as [c|]; rewrite rev_app_distr; simpl.
  - by rewrite <- app_assoc.
  - by rewrite Hk.
Qed.

(** ** Preservation *)

Lemma pop_ids (k D : list Conn) o C S :
  map conn_id (rev k) ++ (match o with Some c => [conn_id c] | None => [] end ++ C) ++ S ++ map conn_id D
  ≡ₚ map conn_id (rev k ++ match o with Some c => [c] | None => [] end ++ rev D) ++ C ++ S.
Proof.
  rewrite !map_app, (map_rev conn_id D), <- (Permutation_rev (map conn_id D)).
  replace (map conn_id match o with Some c => [c] | None => [] end)
    with (match o with Some c => [conn_id c] | None => [] end) by (by destruct o).
  rewrite <- !app_assoc. do 2 apply Permutation_app_head. rewrite app_assoc. apply Permutation_app_comm.
Qed.

Lemma sum_slots_nonneg ts : 0 <= sum slots ts.
Proof. apply sum_nonneg. intros []; simpl; lia. Qed.
Lemma sum_wakers_nonneg ts : 0 <= sum wakers ts.
Proof. apply sum_nonneg. intros []; simpl; lia. Qed.
Lemma sum_waits_nonneg ts : 0 <= sum waits ts.
Proof. apply sum_nonneg. intros []; simpl; lia. Qed.

(** What one step of [t] to [t'] has to respect, whatever the others [R] do. *)
Lemma pinv_step p p' t t' R :
  all_ids p' (t' :: R) ≡ₚ all_ids p (t :: R) -> p_next p' = p_next p -> opts p' = opts p ->
  numConns p' <= maxSize p -> 0 <= waiters p' <= maxSize p -> (closed p' = false -> closed p = false) ->
  (t' = TCloseLock -> closed p' = true) ->
  (closed p' = false -> numConns p' - len (conns p') - slots t' = numConns p - len (conns p) - slots t) ->
  (closed p' = false -> forall W K, 0 <= W -> 0 <= K ->
     (0 < waits t + W -> avail p <= waiters p + (wakers t + K)) ->
     0 < waits t' + W -> avail p' <= waiters p' + (wakers t' + K)) ->
  pinv p (t :: R) -> pinv p' (t' :: R).
Proof.
  intros Hi Hn Ho Hm Hw Hcl Hlk Hc Ha [H1 H2 H3 H4 H5 H5' H6 H7].
  assert (maxSize p' = maxSize p) as HM by (unfold maxSize; by rewrite Ho). split.
  - by rewrite HM.
  - by rewrite Hi.
  - by rewrite Hn, Hi.
  - by rewrite HM.
  - by rewrite HM.
  - apply Forall_cons in H5' as [_ HR]. constructor; [done|]. eapply Forall_impl; [exact HR|].
    intros x Hx ->. specialize (Hx eq_refl). destruct (closed p') eqn:E; [done|]. rewrite Hcl in Hx; done.
  - intros E. specialize (H6 (Hcl E)). specialize (Hc E). rewrite sum_cons in *. lia.
  - intros E. rewrite !sum_cons in *. apply (Ha E); [apply sum_waits_nonneg|apply sum_wakers_nonneg|].
    intros HW. by apply H7; [apply Hcl|].
Qed.

Lemma get_locked_inv now p g p' t' R :
  get_locked now p = (g, p') ->
  t' = match g with GotIdle c => THold c | GotSlot => TDial | GotNothing => TWait end ->
  pinv p (TLoop :: R) -> pinv p' (t' :: R).
Proof.
  intros Hg -> Hp. unfold get_locked in Hg. destruct (popIdle now p) as [o p1] eqn:E.
  apply popIdle_spec in E as (D & k & Hc & Hk & Hc1 & Hn1 & Hs1 & _ & _ & Ho1 & Hcl1 & Hw1 & Hx1).
  assert (Hlen : len (conns p) = len k + (if o is Some _ then 1 else 0) + len D).
  { rewrite Hc, !length_app, !length_rev. destruct o; simpl; lia. }
  pose proof (pi_max _ _ Hp). pose proof (pi_tokens _ _ Hp).
  assert (HI : forall t, ids t = match o with Some c => [conn_id c] | None => [] end ->
            all_ids p1 (t :: R) ≡ₚ all_ids p (TLoop :: R)).
  { intros t Ht. unfold all_ids. rewrite Hc1, Hs1, Hc. cbn [map concat ids app]. rewrite Ht. apply pop_ids. }
  assert (maxSize p1 = maxSize p) as HM by (unfold maxSize; by rewrite Ho1).
  destruct o as [c|]; [|specialize (Hk eq_refl); subst k; case_bool_in Hg]; injection Hg as <- <-;
    (eapply pinv_step; [refine (HI _ _); done|..|exact Hp]); unfold avail, set_num, maxSize in *;
    cbn [set_conns conns numConns waiters closed opts p_next];
    rewrite ?Hc1, ?Hw1, ?Hcl1, ?Ho1, ?length_rev in *; cbn [slots wakers waits length] in *; try done; try lia.
Qed.

Lemma put_locked_inv now c o p p' t' R :
  put_locked now c p = (o, p') ->
  t' = TNotify (match o with Some c => AfterShut c | None => AfterKept end) ->
  pinv p (TPutLock c :: R) -> pinv p' (t' :: R).
Proof.
  intros Hg -> Hp. pose proof (pi_max _ _ Hp). pose proof (pi_tokens _ _ Hp).
  unfold put_locked, release_slot, set_num in Hg. case_bool_in Hg; injection Hg as <- <-;
    (eapply pinv_step; [..|exact Hp]); unfold avail, maxSize in *;
    cbn [set_conns conns numConns waiters closed opts p_next slots wakers waits];
    rewrite ?length_app; cbn [length]; try done; try lia.
  unfold all_ids. cbn [set_conns conns p_shut map concat ids]. rewrite map_app, <- !app_assoc. done.
Qed.

Ltac pool_step Hp :=
  (eapply pinv_step; [..|exact Hp]);
  unfold avail, release_slot, shut, set_num, set_waiters, close_flag, close_locked, maxSize in *;
  cbn [set_conns conns numConns waiters closed opts p_next slots wakers waits] in *; try done; try lia.

Lemma shut_ids (C : list Conn) c (Rs S : list nat) :
  map conn_id C ++ Rs ++ S ++ [conn_id c] ≡ₚ map conn_id C ++ (conn_id c :: Rs) ++ S.
Proof. apply Permutation_app_head. rewrite app_assoc, <- Permutation_cons_append. done. Qed.

Lemma notify_inv a p r R :
  pinv p (TNotify a :: R) ->
  pinv (match a with AfterShut c => shut c (notify p) | _ => notify p end) (TDone r :: R).
Proof.
  intros Hp. pose proof (pi_max _ _ Hp). pose proof (pi_tokens _ _ Hp).
  assert (Hc : closed p = false -> len (conns p) <= numConns p).
  { intros E. pose proof (pi_count _ _ Hp E). pose proof (sum_slots_nonneg (TNotify a :: R)). lia. }
  unfold notify. case_bool; destruct a as [e| |c]; pool_step Hp;
    first [exact (shut_ids _ _ _ _) | intros E'; specialize (Hc E'); lia].
Qed.

Lemma dialed_inv now p R :
  pinv p (TDial :: R) -> pinv (set_next (S (p_next p)) p) (THold (mkPooled (p_next p) now false) :: R).
Proof.
  intros [H1 H2 H3 H4 H5 H5' H6 H7]. rewrite !sum_cons in *.
  assert (HI : all_ids (set_next (S (p_next p)) p) (THold (mkPooled (p_next p) now false) :: R)
    ≡ₚ p_next p :: all_ids p (TDial :: R)) by (unfold all_ids; cbn; by rewrite <- Permutation_middle).
  split; try done.
  - rewrite HI. constructor; [|done]. rewrite Forall_forall in H3. intros Hin. apply H3 in Hin. lia.
  - rewrite HI. constructor; [cbn; lia|]. eapply Forall_impl; [exact H3|]. cbn. lia.
  - apply Forall_cons in H5' as [_ HR]. by constructor.
Qed.

Lemma close_locked_inv p R : pinv p (TCloseLock :: R) -> pinv (close_locked p) (TDone None :: R).
Proof.
  intros Hp. pose proof (pi_closing _ _ Hp) as Hc. apply Forall_cons in Hc as [Hc _]. specialize (Hc eq_refl).
  pose proof (pi_max _ _ Hp). pose proof (pi_tokens _ _ Hp). pose proof (pi_pos _ _ Hp). pool_step Hp; try congruence.
  unfold all_ids. cbn. rewrite app_assoc. apply Permutation_app_comm.
Qed.

Lemma tstep_inv now p t p' t' R : tstep now p t p' t' -> pinv p (t :: R) -> pinv p' (t' :: R).
Proof.
  intros Hs Hp. pose proof (pi_max _ _ Hp) as Hm. pose proof (pi_tokens _ _ Hp) as Ht. pose proof (pi_pos _ _ Hp) as H0.
  destruct Hs; try (by eapply get_locked_inv; [done|done|done]); try (by eapply put_locked_inv; [done|done|done]);
    try (by pool_step Hp).
  - by apply dialed_inv.
  - by apply (notify_inv (AfterErr e)).
  - by apply (notify_inv AfterKept).
  - by apply (notify_inv (AfterShut c)).
  - by apply close_locked_inv.
Qed.

Lemma pinv_new p ts t : t = TGet \/ t = TClose -> pinv p ts -> pinv p (ts ++ [t]).
Proof.
  intros Ht Hp. apply (pinv_perm _ (t :: ts)); [apply Permutation_cons_append|].
  destruct Hp as [H1 H2 H3 H4 H5 H5' H6 H7]. destruct Ht as [-> | ->]; split; try done; by constructor.
Qed.

Lemma pinv_reach o s : preach o s -> pinv (fst s) (snd s).
Proof.
  induction 1 as [|s s' _ IH Hs].
  - cbn. split; try done; cbn; unfold maxSize, or_default, DefaultPoolSize; cbn; try case_bool; try lia; constructor.
  - destruct Hs as [now i p ts t p' t' Hi Hs|p ts t Ht]; cbn in *; [|by apply pinv_new].
    destruct (insert_perm i ts t t' Hi) as (R & HR & HR').
    apply (pinv_perm _ (t' :: R)); [done|]. eapply tstep_inv; [done|]. by apply (pinv_perm _ ts).
Qed.

(** ** Properties *)

Lemma tstep_opts now p t p' t' : tstep now p t p' t' -> opts p' = opts p.
Proof.
  destruct 1; try done; unfold get_locked, put_locked, notify in *;
    repeat match goal with
    | H : popIdle _ _ = _ |- _ => apply popIdle_spec in H as (? & ? & _ & _ & _ & _ & _ & _ & _ & ? & _)
    | H : context [popIdle ?n ?p] |- _ => destruct (popIdle n p) as [[]] eqn:?
    | H : context [if ?b then _ else _] |- _ => destruct b
    | |- context [if ?b then _ else _] => destruct b
    | H : (_, _) = (_, _) |- _ => injection H as ?; subst
    end; try done.
Qed.

Lemma pstep_opts s s' : pstep s s' -> opts (fst s') = opts (fst s).
Proof. destruct 1; [by eapply tstep_opts|done]. Qed.

Lemma reach_opts o s : preach o s -> opts (fst s) = opts (New o).
Proof. induction 1 as [|s s' _ IH Hs]; [done|]. by rewrite (pstep_opts _ _ Hs). Qed.

(** C18: however the callers of [Get], [put] and [Close] interleave, the pool never counts
    more than its maximum of connections; the idle connections, the ones callers have and
    the closed ones are all different, so no connection is given to two callers or after
    it was closed; and while the pool is open the count is the idle connections plus the
    ones in use or being opened. *)
Theorem pool_exclusive o p ts :
  preach o (p, ts) ->
  maxSize p = or_default (o_maxSize o) DefaultPoolSize /\ numConns p <= maxSize p /\
  NoDup (map conn_id (conns p) ++ concat (map ids ts) ++ p_shut p) /\
  (closed p = false -> numConns p = len (conns p) + sum slots ts).
Proof.
  intros H. pose proof (pinv_reach _ _ H) as []. pose proof (reach_opts _ _ H) as E. cbn in *.
  split; [unfold maxSize; by rewrite E|]. done.
Qed.

(** C17: no wake-up is lost: while the pool is open, a caller waits in vain only as long
    as every connection the pool may have is in use.  Otherwise a token is there for it,
    or a goroutine is about to post one or to look at the pool again. *)
Theorem pool_no_lost_wakeup o p ts :
  preach o (p, ts) -> closed p = false -> TWait ∈ ts ->
  0 < waiters p \/ TLoop ∈ ts \/ (exists a, TNotify a ∈ ts) \/
  (conns p = [] /\ numConns p = maxSize p /\ sum slots ts = maxSize p).
Proof.
  intros H Hc Hw. pose proof (pinv_reach _ _ H) as Hp. cbn in *.
  assert (Hpos : 0 < sum waits ts).
  { apply list_elem_of_split in Hw as (l1 & l2 & ->). rewrite (sum_perm _ _ (TWait :: l1 ++ l2)) by by rewrite Permutation_middle.
    rewrite sum_cons. pose proof (sum_waits_nonneg (l1 ++ l2)). cbn. lia. }
  pose proof (pi_wake _ _ Hp Hc Hpos) as Ha. pose proof (pi_count _ _ Hp Hc). pose proof (pi_max _ _ Hp).
  pose proof (pi_tokens _ _ Hp). unfold avail in Ha.
  destruct (decide (0 < waiters p)) as [?|Hz]; [by left|]. right.
  assert (Hk : TLoop ∈ ts \/ (exists a, TNotify a ∈ ts) \/ sum wakers ts = 0).
  { clear. induction ts as [|t ts IH]; [by right; right|]. rewrite sum_cons.
    destruct t; cbn; try (destruct IH as [?|[[a ?]|?]]; [left; by apply list_elem_of_further|right; left; exists a; by apply list_elem_of_further|right; right; lia]).
    - left. apply elem_of_cons. by left.
    - right. left. exists a. apply elem_of_cons. by left. }
  destruct Hk as [?|[?|Hk]]; [by left|by right; left|]. right. right.
  pose proof (sum_slots_nonneg ts). assert (length (conns p) = 0%nat) by lia.
  destruct (conns p); [|done]. cbn in *. split; [done|]. lia.
Qed.

Definition small : Options := mkOptions (bs "a:1") [] [] 1 0 0 false.

Lemma preach_new o p ts t : preach o (p, ts) -> t = TGet \/ t = TClose -> preach o (p, ts ++ [t]).
Proof. intros. eapply pr_step; [done|]. by constructor. Qed.

Lemma preach_step o now i p ts t p' t' :
  preach o (p, ts) -> ts !! i = Some t -> tstep now p t p' t' -> preach o (p', <[i := t']> ts).
Proof. intros. eapply pr_step; [done|]. by econstructor. Qed.

(** A pool of one connection: one caller has it, another one waits. *)
Definition small_conn : Conn := mkPooled 0 0 false.
Definition small_pool : Pool := mkPool (opts (New small)) [] 1 false 0 1 [].

Tactic Notation "pool_run" hyp(H) constr(i) tactic3(tac) :=
  let H' := fresh in
  eassert (H' : preach small (_, _)) by (eapply (preach_step _ 0 i); [exact H|reflexivity|tac]);
  clear H; rename H' into H; cbn [list_insert] in H.

Lemma small_hold : preach small (small_pool, [THold small_conn]).
Proof.
  pose proof (preach_new _ _ _ TGet (pr_init small) (or_introl eq_refl)) as H.
  pool_run H 0%nat (by constructor).
  pool_run H 0%nat (by eapply st_slot).
  pool_run H 0%nat (by eapply (st_dialed _ _ (inr (mkReader [] EOF, None)))).
  exact H.
Qed.

Lemma small_wait : preach small (small_pool, [THold small_conn; TWait]).
Proof.
  pose proof (preach_new _ _ _ TGet small_hold (or_introl eq_refl)) as H.
  pool_run H 1%nat (by constructor).
  pool_run H 1%nat (by eapply st_none). exact H.
Qed.

Lemma pool_exclusive_witness :
  numConns small_pool <= maxSize small_pool /\ numConns small_pool = 0 + sum slots [THold small_conn; TWait].
Proof.
  destruct (pool_exclusive small small_pool [THold small_conn; TWait] small_wait) as (_ & Hm & _ & Hc).
  split; [exact Hm|exact (Hc eq_refl)].
Defined.

Lemma pool_no_lost_wakeup_witness :
  0 < waiters small_pool \/ TLoop ∈ [THold small_conn; TWait] \/ (exists a, TNotify a ∈ [THold small_conn; TWait]) \/
  (conns small_pool = [] /\ numConns small_pool = maxSize small_pool /\
   sum slots [THold small_conn; TWait] = maxSize small_pool).
Proof.
  apply (pool_no_lost_wakeup small small_pool [THold small_conn; TWait] small_wait eq_refl).
  apply elem_of_cons. right. apply elem_of_cons. by left.
Defined.

(** [Close] resets the count while connections are in use: the count becomes negative when
    they come back, and a caller that was waiting opens a new connection of the closed
    pool. *)
Lemma close_breaks_count : exists p ts, preach small (p, ts) /\ closed p = true /\ numConns p = -1.
Proof.
  pose proof (preach_new _ _ _ TClose small_hold (or_intror eq_refl)) as H.
  pool_run H 1%nat (by constructor).
  pool_run H 1%nat (by constructor).
  pool_run H 0%nat (by apply st_close_conn).
  pool_run H 0%nat (by apply st_put_bad).
  pool_run H 0%nat (by constructor).
  eexists _, _. split; [exact H|]. done.
Qed.

(** ** The registry *)

(** The manager's operations, and the use of its pools by the rest of the program. *)
Inductive mreach (username password : bytes) (size : Z) : Manager -> Prop :=
| mr_new : mreach username password size (NewManager username password size)
| mr_get addr m : mreach username password size m -> mreach username password size (snd (GetPool addr m))
| mr_get_ro addr m : mreach username password size m -> mreach username password size (snd (GetReadonlyPool addr m))
| mr_remove addr m : mreach username password size m -> mreach username password size (RemovePool addr m)
| mr_close m : mreach username password size m -> mreach username password size (Manager_Close m)
| mr_use key p ts p' ts' m :
    mreach username password size m -> pools (reg m) !! key = Some p -> pstep (p, ts) (p', ts') ->
    mreach username password size (set_reg (mkRegistry (<[key := p']> (pools (reg m))) (closed_pools (reg m))) m).

Definition pool_for (username password : bytes) (size : Z) (key : bytes) (p : Pool) : Prop :=
  o_addr (opts p) = TrimSuffix key ro_suffix /\ o_readonly (opts p) = HasSuffix key ro_suffix /\
  maxSize p = or_default size DefaultPoolSize /\ o_username (opts p) = username /\ o_password (opts p) = password.

Record minv (username password : bytes) (size : Z) (m : Manager) : Prop := {
  mi_user : m_username m = username;
  mi_pass : m_password m = password;
  mi_size : m_maxSize m = or_default size DefaultPoolSize;
  mi_pools : forall key p, pools (reg m) !! key = Some p -> pool_for username password size key p;
  mi_closed : Forall (fun p => closed p = true) (closed_pools (reg m));
}.

Lemma or_default_idem n d : 0 < d -> or_default (or_default n d) d = or_default n d.
Proof. intros. unfold or_default. repeat case_bool; try lia; done. Qed.

Lemma getOrCreate_minv u w size m key :
  minv u w size m ->
  let '(p, r) := getOrCreate key (newPool m) (reg m) in
  pools r !! key = Some p /\ minv u w size (set_reg r m).
Proof.
  intros [Hu Hw Hs Hp Hc]. unfold getOrCreate. destruct (pools (reg m) !! key) as [p|] eqn:E.
  - split; [done|]. by split.
  - cbn. split; [apply lookup_insert_eq|]. split; try done. cbn. intros k p Hk.
    destruct (decide (k = key)) as [->|Hne].
    + rewrite lookup_insert_eq in Hk. injection Hk as <-.
      split; [done|]. split; [done|]. split; [|done]. unfold maxSize. cbn. by rewrite Hs, or_default_idem.
    + rewrite lookup_insert_ne in Hk by done. by apply Hp.
Qed.

Lemma remove_minv u w size m key : minv u w size m -> minv u w size (set_reg (remove key (reg m)) m).
Proof.
  intros [Hu Hw Hs Hp Hc]. unfold remove. destruct (pools (reg m) !! key) as [p|] eqn:E; split; try done; cbn.
  - intros k q Hk. apply lookup_delete_Some in Hk as [_ Hk]. by apply Hp.
  - apply Forall_app. split; [done|]. by constructor.
Qed.

Lemma minv_reach u w size m : mreach u w size m -> minv u w size m.
Proof.
  induction 1 as [|addr m _ IH|addr m _ IH|addr m _ IH|m _ IH|key p ts p' ts' m _ IH Hk Hs].
  - split; done.
  - unfold GetPool. pose proof (getOrCreate_minv _ _ _ _ addr IH) as H.
    destruct (getOrCreate addr _ _) as [p r]. apply H.
  - unfold GetReadonlyPool. pose proof (getOrCreate_minv _ _ _ _ (addr ++ ro_suffix) IH) as H.
    destruct (getOrCreate _ _ _) as [p r]. apply H.
  - apply (remove_minv _ _ _ (set_reg (remove addr (reg m)) m)). by apply remove_minv.
  - destruct IH as [Hu Hw Hs Hp Hc]. split; try done. cbn. apply Forall_app. split; [done|].
    apply Forall_forall. intros p Hin. apply list_elem_of_fmap in Hin as (kp & -> & _). done.
  - destruct IH as [Hu Hw Hsz Hp Hc]. split; try done. cbn. intros k q Hq.
    destruct (decide (k = key)) as [->|Hne]; [|rewrite lookup_insert_ne in Hq by done; by apply Hp].
    rewrite lookup_insert_eq in Hq. injection Hq as <-. apply pstep_opts in Hs. cbn in Hs.
    specialize (Hp _ _ Hk). unfold pool_for, maxSize in *. by rewrite Hs.
Qed.

Lemma HasPrefix_app p l : HasPrefix (p ++ l) p = true.
Proof. apply HasPrefix_spec. by eexists. Qed.

Lemma HasSuffix_app l p : HasSuffix (l ++ p) p = true.
Proof. unfold HasSuffix. rewrite rev_app_distr. apply HasPrefix_app. Qed.

Lemma TrimSuffix_app l p : TrimSuffix (l ++ p) p = l.
Proof.
  unfold TrimSuffix. rewrite HasSuffix_app, length_app. replace (length l + length p - length p)%nat with (length l) by lia.
  apply take_length_app.
Qed.

(** The pool manager gives for an address always the same pool: a plain one by
    [GetPool], a read-only one by [GetReadonlyPool], each with the manager's size and
    credentials, whatever happened to its pools before; and the pools it has let go are
    closed. *)
Lemma manager_pools username password size m addr :
  mreach username password size m -> HasSuffix addr ro_suffix = false ->
  let '(p, m1) := GetPool addr m in
  let '(q, m2) := GetReadonlyPool addr m in
  fst (GetPool addr m1) = p /\ fst (GetReadonlyPool addr m2) = q /\
  o_addr (opts p) = addr /\ o_readonly (opts p) = false /\
  o_addr (opts q) = addr /\ o_readonly (opts q) = true /\
  Forall (fun x => maxSize x = or_default size DefaultPoolSize /\
    o_username (opts x) = username /\ o_password (opts x) = password) [p; q] /\
  Forall (fun x => closed x = true) (closed_pools (reg m)).
Proof.
  intros Hm Ha. apply minv_reach in Hm. unfold GetPool, GetReadonlyPool.
  pose proof (getOrCreate_minv _ _ _ _ addr Hm) as H1. destruct (getOrCreate addr _ _) as [p r1].
  pose proof (getOrCreate_minv _ _ _ _ (addr ++ ro_suffix) Hm) as H2.
  destruct (getOrCreate (addr ++ ro_suffix) _ _) as [q r2]. destruct H1 as [Hp Hm1], H2 as [Hq Hm2].
  destruct (mi_pools _ _ _ _ Hm1 _ _ Hp) as (A1 & A2 & A3), (mi_pools _ _ _ _ Hm2 _ _ Hq) as (B1 & B2 & B3).
  rewrite TrimSuffix_app in B1. rewrite HasSuffix_app in B2. rewrite Ha in A2.
  unfold TrimSuffix in A1. rewrite Ha in A1.
  unfold getOrCreate. cbn [set_reg reg]. rewrite Hp, Hq. cbn.
  do 6 (split; [done|]). split; [|apply Hm]. constructor; [exact A3|]. constructor; [exact B3|constructor].
Qed.

Lemma manager_pools_witness :
  let m := NewManager [] (bs "pw") 0 in
  o_readonly (opts (fst (GetReadonlyPool (bs "a:1") m))) = true /\
  fst (GetPool (bs "a:1") (snd (GetPool (bs "a:1") m))) = fst (GetPool (bs "a:1") m).
Proof.
  destruct (manager_pools [] (bs "pw") 0 (NewManager [] (bs "pw") 0) (bs "a:1") (mr_new _ _ _) eq_refl)
    as (H1 & _ & _ & _ & _ & H2 & _).
  split; [exact H2|exact H1].
Defined.
