(* ===== verification/Pipeline.v ===== *)
(** * Pipeline: pipelined backend connections

    Model of [pkg/pool/pipeline.go].  A [pipeConn] is one goroutine that takes requests
    from its channel in batches, writes a batch to its connection, and reads one reply
    per request.  Its state is the channel, the connection (when there is one), the
    backoff, and the responses it has delivered so far; a request's response channel is
    the number of the request.  [sent] and [answered] count the commands written to the
    present connection and the replies read from it.

    One turn of the loop is [loop_turn]: [now] and [later] are the clock when the turn
    begins and when it sets a backoff, [net] is what a dial gives
    (an error, or the bytes the backend is going to send and how many it accepts).
    Requests that arrive while a batch is being collected are in the channel before the
    turn, so a batch is what the channel holds, up to 64.

    The loop sets a deadline for the dial but none for reads and writes: with a backend
    that stays silent, or stops reading, without closing, a turn does not end.
    [loop_turn] is a turn that ends; the bytes of a [Reader] are all the backend sends
    before the connection fails or is closed.  [stall_read] and [stall_early] are what a
    turn that does not end leaves, and [pipe_step] has all of them. *)

From S2P Require Import Prelude GoStd Value RespStream Pool.

Definition millisecond : Z := 1000000.
Definition pipeConnBackoffBase : Z := 100 * millisecond.
Definition pipeConnBackoffMax : Z := 4 * second.

Record pipeReq := mkReq {
  req_data : bytes;
  req_resp : nat;
}.

Record pipeResp := mkPipeResp {
  resp_val : option Value;
  resp_err : option goerror;
}.

Record pipeConn := mkPipe {
  pc_addr : bytes;
  pc_username : bytes;
  pc_password : bytes;
  pc_readonly : bool;
  reqCh : list pipeReq;
  ch_closed : bool;
  nc : option (Reader * Writer);
  backoffUntil : Z;
  backoffDelay : Z;
  delivered : list (nat * pipeResp);
  next_resp : nat;
  sent : nat;
  answered : nat;
}.

Definition reqChCap : nat := 512.
Definition maxBatch : nat := 64.

(** The zero [time.Time] lies before every clock value. *)
Definition zero_time : Z := - 2^62.

Definition newPipeConn (addr username password : bytes) (readonly : bool) : pipeConn :=
  mkPipe addr username password readonly [] false None zero_time 0 [] 0 0 0.

Definition set_chan (l : list pipeReq) (pc : pipeConn) : pipeConn :=
  mkPipe (pc_addr pc) (pc_username pc) (pc_password pc) (pc_readonly pc) l (ch_closed pc) (nc pc)
    (backoffUntil pc) (backoffDelay pc) (delivered pc) (next_resp pc) (sent pc) (answered pc).
Definition set_nc (c : option (Reader * Writer)) (n k : nat) (pc : pipeConn) : pipeConn :=
  mkPipe (pc_addr pc) (pc_username pc) (pc_password pc) (pc_readonly pc) (reqCh pc) (ch_closed pc) c
    (backoffUntil pc) (backoffDelay pc) (delivered pc) (next_resp pc) n k.
Definition set_backoff (till delay : Z) (pc : pipeConn) : pipeConn :=
  mkPipe (pc_addr pc) (pc_username pc) (pc_password pc) (pc_readonly pc) (reqCh pc) (ch_closed pc) (nc pc)
    till delay (delivered pc) (next_resp pc) (sent pc) (answered pc).
Definition deliver (rs : list (nat * pipeResp)) (pc : pipeConn) : pipeConn :=
  mkPipe (pc_addr pc) (pc_username pc) (pc_password pc) (pc_readonly pc) (reqCh pc) (ch_closed pc) (nc pc)
    (backoffUntil pc) (backoffDelay pc) (delivered pc ++ rs) (next_resp pc) (sent pc) (answered pc).

(** [do] up to its wait for the response: [None] while the channel is full; a send on a
    closed channel panics. *)
Definition do_send (data : bytes) (pc : pipeConn) : outcome (option (nat * pipeConn)) :=
  if ch_closed pc then Panic else
  if (reqChCap <=? length (reqCh pc))%nat then Ok None else
  let id := next_resp pc in
  Ok (Some (id, mkPipe (pc_addr pc) (pc_username pc) (pc_password pc) (pc_readonly pc)
    (reqCh pc ++ [mkReq data id]) false (nc pc) (backoffUntil pc) (backoffDelay pc) (delivered pc) (S id)
    (sent pc) (answered pc))).

(** [close(pc.reqCh)]; [close] then waits until the loop has ended. *)
Definition close_chan (pc : pipeConn) : pipeConn :=
  mkPipe (pc_addr pc) (pc_username pc) (pc_password pc) (pc_readonly pc) (reqCh pc) true (nc pc)
    (backoffUntil pc) (backoffDelay pc) (delivered pc) (next_resp pc) (sent pc) (answered pc).

Definition resp_ok (v : Value) : pipeResp := mkPipeResp (Some v) None.
Definition resp_fail (e : goerror) : pipeResp := mkPipeResp None (Some e).
Definition fail_all (e : goerror) (pending : list pipeReq) : list (nat * pipeResp) :=
  map (fun p => (req_resp p, resp_fail e)) pending.

(** ** Connecting *)

(** A handshake command; a missing or an error reply gives one message. *)
Definition handshake (cmd : list bytes) (msg : bytes) (r : Reader) (w : Writer) : outcome unit * Reader * Writer :=
  match WriteCommandBytes cmd w with
  | (Some e, w) => (Err e, r, w)
  | (None, w) =>
      match Flush w with
      | (Some e, w) => (Err e, r, w)
      | (None, w) =>
          match Stream.ReadValue r with
          | (Ok v, r) => (if IsError (Some v) then Err (Errorf msg) else Ok tt, r, w)
          | (Err _, r) => (Err (Errorf msg), r, w)
          | (Panic, r) => (Panic, r, w)
          | (NoFuel, r) => (NoFuel, r, w)
          end
      end
  end.

Definition connect (pc : pipeConn) (net : goerror + Reader * option nat) : outcome (Reader * Writer) :=
  '(r, budget) ← match net with inr c => Ok c | inl e => Err e end;
  let w := NewWriter budget in
  let '(a, r, w) := match pc_password pc with
                    | [] => (Ok tt, r, w)
                    | _ => handshake (auth_args (pc_username pc) (pc_password pc)) (bs "auth failed") r w
                    end in
  _ ← a;
  let '(a, r, w) := if pc_readonly pc then handshake [bs "READONLY"] (bs "READONLY failed") r w else (Ok tt, r, w) in
  _ ← a;
  Ok (r, w).

(** ** One batch *)

Definition backoff_err (addr : bytes) : goerror := Errorf (bs "backend " ++ addr ++ bs " unavailable (reconnecting)").

Definition next_delay (d : Z) : Z :=
  if d =? 0 then pipeConnBackoffBase
  else if pipeConnBackoffMax <? d * 2 then pipeConnBackoffMax else d * 2.

(** The connection is dropped and the shortest backoff begins. *)
Definition drop_conn (now : Z) (pc : pipeConn) : pipeConn :=
  set_backoff (now + pipeConnBackoffBase) pipeConnBackoffBase (set_nc None 0 0 pc).

(** One reply per request; after an error the others get an error too. *)
Fixpoint read_replies (pending : list pipeReq) (r : Reader) : outcome (list (nat * pipeResp) * option Reader) :=
  match pending with
  | [] => Ok ([], Some r)
  | p :: ps =>
      match Stream.ReadValue r with
      | (Ok v, r) => '(rs, r) ← read_replies ps r; Ok ((req_resp p, resp_ok v) :: rs, r)
      | (Err e, _) => Ok ((req_resp p, resp_fail e) :: fail_all (Errorf (bs "connection reset")) ps, None)
      | (Panic, _) => Panic
      | (NoFuel, _) => NoFuel
      end
  end.

(** The commands of the batch on the connection. *)
Definition exchange (pending : list pipeReq) (now : Z) (r : Reader) (w : Writer) (pc : pipeConn) : outcome pipeConn :=
  match (write_each (map (fun p => WriteRaw (req_data p)) pending) ;; Flush) w with
  | (Some _, _) => Ok (deliver (fail_all (Errorf (bs "write error")) pending) (drop_conn now pc))
  | (None, w) =>
      let n := (sent pc + length pending)%nat in
      '(rs, r) ← read_replies pending r;
      match r with
      | Some r => Ok (deliver rs (set_nc (Some (r, w)) n (answered pc + length rs) pc))
      | None => Ok (deliver rs (drop_conn now pc))
      end
  end.

Definition serve (pending : list pipeReq) (now later : Z) (net : goerror + Reader * option nat)
    (pc : pipeConn) : outcome pipeConn :=
  match nc pc with
  | Some (r, w) => exchange pending later r w pc
  | None =>
      if 0 <? backoffUntil pc - now then Ok (deliver (fail_all (backoff_err (pc_addr pc)) pending) pc) else
      match connect pc net with
      | Ok (r, w) => exchange pending later r w (set_backoff zero_time 0 (set_nc (Some (r, w)) 0 0 pc))
      | Err e =>
          let d := next_delay (backoffDelay pc) in
          Ok (deliver (fail_all e pending) (set_backoff (later + d) d pc))
      | Panic => Panic
      | NoFuel => NoFuel
      end
  end.

(** A turn of the loop: it waits ([None]) while the channel is empty and open; it ends
    ([inr]) when the channel is closed and empty, or is found closed while a batch is
    collected. *)
Definition loop_turn (now later : Z) (net : goerror + Reader * option nat) (pc : pipeConn)
    : outcome (option (pipeConn + pipeConn)) :=
  match reqCh pc with
  | [] => Ok (if ch_closed pc then Some (inr (set_nc None 0 0 pc)) else None)
  | _ =>
      let pending := take maxBatch (reqCh pc) in
      let pc := set_chan (drop maxBatch (reqCh pc)) pc in
      if (length pending <? maxBatch)%nat && ch_closed pc
      then Ok (Some (inr (set_nc None 0 0 pc)))
      else pc ← serve pending now later net pc; Ok (Some (inl pc))
  end.

(** *** Turns that do not end *)

(** The batch of the turn was written, and the read of the reply number [k] does not
    return: the first [k] requests have their responses, the others are held. *)
Definition stall_exchange (k : nat) (pending : list pipeReq) (r : Reader) (w : Writer) (pc : pipeConn)
    : option (pipeConn * list pipeReq) :=
  match (write_each (map (fun p => WriteRaw (req_data p)) pending) ;; Flush) w with
  | (Some _, _) => None
  | (None, w) =>
      match read_replies (take k pending) r with
      | Ok (rs, Some r) =>
          if (k <? length pending)%nat
          then Some (deliver rs (set_nc (Some (r, w)) (sent pc + length pending) (answered pc + length rs) pc), drop k pending)
          else None
      | _ => None
      end
  end.

Definition stall_read (k : nat) (now : Z) (net : goerror + Reader * option nat) (pc : pipeConn)
    : option (pipeConn * list pipeReq) :=
  let pending := take maxBatch (reqCh pc) in
  let pc := set_chan (drop maxBatch (reqCh pc)) pc in
  if (length pending <? maxBatch)%nat && ch_closed pc then None else
  match nc pc with
  | Some (r, w) => stall_exchange k pending r w pc
  | None =>
      if 0 <? backoffUntil pc - now then None else
      match connect pc net with
      | Ok (r, w) => stall_exchange k pending r w (set_backoff zero_time 0 (set_nc (Some (r, w)) 0 0 pc))
      | _ => None
      end
  end.

(** The handshake of a new connection, or the write of the batch, does not return. *)
Definition stall_early (now : Z) (pc : pipeConn) : option (pipeConn * list pipeReq) :=
  let pending := take maxBatch (reqCh pc) in
  let pc := set_chan (drop maxBatch (reqCh pc)) pc in
  if (length pending <? maxBatch)%nat && ch_closed pc then None else
  match nc pc with
  | Some _ => Some (pc, pending)
  | None => if 0 <? backoffUntil pc - now then None else Some (pc, pending)
  end.

(** ** Runs of a connection

    [run_held] are the requests the loop has taken from the channel and will not answer:
    those of a turn that does not end, or those it dropped when it ended. *)

Inductive loopMode := LoopRunning | LoopBlocked | LoopEnded.

Record pipeRun := mkPipeRun {
  run_conn : pipeConn;
  run_held : list pipeReq;
  run_mode : loopMode;
}.

(** A caller's [do] up to its wait, the turns of the loop (that end, that end the loop, that
    do not end), and [close]. *)
Inductive pipe_step : pipeRun -> pipeRun -> Prop :=
| ps_send data id pc pc' held m :
    do_send data pc = Ok (Some (id, pc')) -> pipe_step (mkPipeRun pc held m) (mkPipeRun pc' held m)
| ps_turn now later net pc pc' :
    loop_turn now later net pc = Ok (Some (inl pc')) -> pipe_step (mkPipeRun pc [] LoopRunning) (mkPipeRun pc' [] LoopRunning)
| ps_end now later net pc pc' :
    loop_turn now later net pc = Ok (Some (inr pc')) ->
    pipe_step (mkPipeRun pc [] LoopRunning) (mkPipeRun pc' (take maxBatch (reqCh pc)) LoopEnded)
| ps_stall_read k now net pc pc' held :
    stall_read k now net pc = Some (pc', held) -> pipe_step (mkPipeRun pc [] LoopRunning) (mkPipeRun pc' held LoopBlocked)
| ps_stall_early now pc pc' held :
    stall_early now pc = Some (pc', held) -> pipe_step (mkPipeRun pc [] LoopRunning) (mkPipeRun pc' held LoopBlocked)
| ps_close pc held m : pipe_step (mkPipeRun pc held m) (mkPipeRun (close_chan pc) held m).

Inductive pipe_reach (addr username password : bytes) (readonly : bool) : pipeRun -> Prop :=
| pr_new : pipe_reach addr username password readonly (mkPipeRun (newPipeConn addr username password readonly) [] LoopRunning)
| pr_then r r' :
    pipe_reach addr username password readonly r -> pipe_step r r' ->
    pipe_reach addr username password readonly r'.

(** ** Pools of pipelined connections *)

Record PipelinedPool := mkPipelined {
  pp_size : Z;
  pp_conns : list pipeConn;
  pp_idx : Z;
}.

Definition NewPipelinedPoolOpts (addr username password : bytes) (size : Z) (readonly : bool) : PipelinedPool :=
  let size := if size <=? 0 then 4 else size in
  mkPipelined size (replicate (Z.to_nat size) (newPipeConn addr username password readonly)) 0.
Definition NewPipelinedPool (addr username password : bytes) (size : Z) : PipelinedPool :=
  NewPipelinedPoolOpts addr username password size false.

(** The connection [Do] uses; [idx] wraps, and a negative index panics. *)
Definition Do_pick (pp : PipelinedPool) : outcome (nat * PipelinedPool) :=
  let i := Z.rem (pp_idx pp) (pp_size pp) in
  if i <? 0 then Panic else
  Ok (Z.to_nat i, mkPipelined (pp_size pp) (pp_conns pp) (wrap64 (pp_idx pp + 1))).

(** [Do] up to the wait for the response. *)
Definition Do_send (data : bytes) (pp : PipelinedPool) : outcome (option (nat * nat * PipelinedPool)) :=
  '(i, pp) ← Do_pick pp;
  match pp_conns pp !! i with
  | None => Panic
  | Some pc =>
      r ← do_send data pc;
      Ok (match r with
          | Some (id, pc) => Some (i, id, mkPipelined (pp_size pp) (<[i := pc]> (pp_conns pp)) (pp_idx pp))
          | None => None
          end)
  end.

Definition PipelinedPool_Close (pp : PipelinedPool) : PipelinedPool :=
  mkPipelined (pp_size pp) (map close_chan (pp_conns pp)) (pp_idx pp).

#[global] Instance PipelinedPool_Closer : Closer PipelinedPool := PipelinedPool_Close.

Record PipelinedManager := mkPipelinedManager {
  pm_reg : poolRegistry PipelinedPool;
  pm_username : bytes;
  pm_password : bytes;
  pm_size : Z;
}.

Definition NewPipelinedManager (username password : bytes) (size : Z) : PipelinedManager :=
  mkPipelinedManager newPoolRegistry username password (if size <=? 0 then 4 else size).

Definition pm_newPool (m : PipelinedManager) (addr : bytes) (readonly : bool) : PipelinedPool :=
  NewPipelinedPoolOpts addr (pm_username m) (pm_password m) (pm_size m) readonly.
Definition pm_set (r : poolRegistry PipelinedPool) (m : PipelinedManager) : PipelinedManager :=
  mkPipelinedManager r (pm_username m) (pm_password m) (pm_size m).
Definition pm_GetPool (addr : bytes) (m : PipelinedManager) : PipelinedPool * PipelinedManager :=
  let '(p, r) := getOrCreate addr (pm_newPool m) (pm_reg m) in (p, pm_set r m).
Definition pm_GetReadonlyPool (addr : bytes) (m : PipelinedManager) : PipelinedPool * PipelinedManager :=
  let '(p, r) := getOrCreate (addr ++ ro_suffix) (pm_newPool m) (pm_reg m) in (p, pm_set r m).
Definition pm_RemovePool (addr : bytes) (m : PipelinedManager) : PipelinedManager :=
  pm_set (remove (addr ++ ro_suffix) (remove addr (pm_reg m))) m.
Definition pm_Close (m : PipelinedManager) : PipelinedManager := pm_set (closeAll (pm_reg m)) m.
Definition pm_ConnCountByAddr (m : PipelinedManager) : gmap bytes Z :=
  foldr (fun kp counts =>
    let addr := TrimSuffix (fst kp) ro_suffix in
    <[addr := default 0 (counts !! addr) + pp_size (snd kp)]> counts) ∅ (map_to_list (pools (pm_reg m))).
