(* ===== verification/PipelineFacts.v ===== *)
(** * PipelineFacts: correctness of the pipelined connections

    Every request put into the channel gets at most one response, in order, for every
    behaviour of the backend, and exactly one when the turns of the loop end; the replies
    of a backend that answers go to the requests they answer; after any error the
    connection is dropped, so that a later reply is never taken for the answer to another
    command. *)

From S2P Require Import Prelude GoStd Value RespParse RespFacts RespStream StreamFacts Pool PoolFacts Pipeline.
Import Stream.

(** ** Batches *)

Lemma fail_all_ids e ps : map fst (fail_all e ps) = map req_resp ps.
Proof. unfold fail_all. by rewrite map_map. Qed.

Lemma read_replies_ids ps r rs r' : read_replies ps r = Ok (rs, r') -> map fst rs = map req_resp ps.
Proof.
  revert r rs r'. induction ps as [|p ps IH]; intros r rs r'; cbn [read_replies]; [by intros [= <- _]|].
  destruct (ReadValue r) as [[v|e| |] r1]; try done.
  - destruct (read_replies ps r1) as [[rs1 r2]|e| |] eqn:E; try done. intros [= <- <-]. cbn. by rewrite (IH _ _ _ E).
  - intros [= <- _]. cbn. by rewrite fail_all_ids.
Qed.

(** What an open connection promises between two batches. *)
Record pipe_ok (pc : pipeConn) : Prop := {
  po_sync : sent pc = answered pc;
  po_writer : forall r w, nc pc = Some (r, w) -> w_err w = None /\ w_buf w = [];
  po_backoff : 0 <= backoffDelay pc <= pipeConnBackoffMax;
}.

Lemma batch_writes ps : writes (write_each (map (fun p => WriteRaw (req_data p)) ps) ;; Flush) (concat (map req_data ps)).
Proof.
  rewrite <- (app_nil_r (concat _)). apply writes_then, Flush_writes. apply writes_each.
  induction ps; constructor; [apply Write_writes|done].
Qed.

Lemma then_flush_empty c w w' : (c ;; Flush) w = (None, w') -> w_buf w' = [].
Proof.
  unfold wr_then. destruct (c w) as [[e|] w1]; [done|]. intros H. by apply Flush_empty in H as [? _].
Qed.

(** The fields a batch does not touch, and the responses it delivers. *)
Definition batch_done (pending : list pipeReq) (pc pc' : pipeConn) : Prop :=
  reqCh pc' = reqCh pc /\ ch_closed pc' = ch_closed pc /\ next_resp pc' = next_resp pc /\
  pc_addr pc' = pc_addr pc /\ pc_username pc' = pc_username pc /\ pc_password pc' = pc_password pc /\
  pc_readonly pc' = pc_readonly pc /\
  exists rs, delivered pc' = delivered pc ++ rs /\ map fst rs = map req_resp pending.

Lemma exchange_done pending later r w pc pc' :
  exchange pending later r w pc = Ok pc' -> w_err w = None -> sent pc = answered pc ->
  0 <= backoffDelay pc <= pipeConnBackoffMax -> pipe_ok pc' /\ batch_done pending pc pc'.
Proof.
  unfold exchange. intros H Hw Hs Hb. pose proof (batch_writes pending w Hw) as Hwr.
  destruct ((_ ;; Flush) w) as [[e|] w'] eqn:Ew.
  - injection H as <-. split; [by split|]. repeat split; try done. eexists. split; [done|]. apply fail_all_ids.
  - destruct (read_replies pending r) as [[rs [r'|]]|e| |] eqn:Er; try done; injection H as <-;
      apply read_replies_ids in Er as Hids.
    + split; [|repeat split; try done; by exists rs]. split; cbn.
      * rewrite Hs. f_equal. by rewrite <- (length_map fst rs), Hids, length_map.
      * intros r1 w1 [= <- <-]. destruct Hwr as (? & _). split; [done|]. by eapply then_flush_empty.
      * done.
    + split; [by split|]. repeat split; try done. by exists rs.
Qed.

Definition clean (w : Writer) : Prop := w_err w = None /\ w_buf w = [].

Lemma handshake_clean cmd msg r w u r' w' :
  handshake cmd msg r w = (Ok u, r', w') -> w_err w = None -> clean w'.
Proof.
  unfold handshake. intros H Hw. pose proof (WriteCommand_writes cmd w Hw) as Hc.
  destruct (WriteCommandBytes cmd w) as [[e|] w1]; [done|]. destruct Hc as (Hw1 & _).
  pose proof (Flush_writes w1 Hw1) as Hf. destruct (Flush w1) as [[e|] w2] eqn:Ef; [done|].
  destruct Hf as (Hw2 & _). apply Flush_empty in Ef as [Hb _].
  destruct (ReadValue r) as [[v|e| |] r1]; try done. by injection H as _ _ <-.
Qed.

Lemma connect_clean pc net r w : connect pc net = Ok (r, w) -> clean w.
Proof.
  unfold connect. destruct net as [e|[r0 budget]]; [done|]. go_simp.
  assert (H0 : clean (NewWriter budget)) by done.
  destruct (match pc_password pc with [] => _ | _ => _ end) as [[a1 r1] w1] eqn:E1.
  destruct a1 as [[]|e| |]; try done. go_simp.
  assert (H1 : clean w1).
  { destruct (pc_password pc); [by injection E1 as _ <-|]. by eapply handshake_clean; [exact E1|apply H0]. }
  destruct (pc_readonly pc).
  - destruct (handshake _ _ r1 w1) as [[a2 r2] w2] eqn:E2. destruct a2 as [[]|e| |]; try done.
    intros [= <- <-]. by eapply handshake_clean; [exact E2|apply H1].
  - by intros [= <- <-].
Qed.

Lemma next_delay_bounds d : 0 <= d <= pipeConnBackoffMax -> 0 < next_delay d <= pipeConnBackoffMax.
Proof. unfold next_delay, pipeConnBackoffMax, pipeConnBackoffBase, millisecond, second. repeat case_bool; lia. Qed.

Lemma serve_done pending now later net pc pc' :
  serve pending now later net pc = Ok pc' -> pipe_ok pc -> pipe_ok pc' /\ batch_done pending pc pc'.
Proof.
  intros H [Hs Hw Hb]. unfold serve in H. destruct (nc pc) as [[r w]|] eqn:En.
  { by eapply exchange_done; [exact H|eapply Hw|..]. }
  case_bool_in H.
  { injection H as <-. split; [split; try done; cbn; by rewrite En|].
    repeat split; try done. eexists. split; [done|]. apply fail_all_ids. }
  destruct (connect pc net) as [[r w]|e| |] eqn:Ec; try done.
  - apply connect_clean in Ec as [Hw1 _]. eapply exchange_done in H; [|done|done|].
    + destruct H as [? H]. split; [done|]. exact H.
    + cbn. unfold pipeConnBackoffMax, second. lia.
  - injection H as <-. apply next_delay_bounds in Hb. split.
    + split; cbn; [done|by rewrite En|lia].
    + repeat split; try done. eexists. split; [done|]. apply fail_all_ids.
Qed.

(** ** Runs *)

(** The responses delivered, the requests held and those in the channel are all requests,
    in order. *)
Definition numbered (held : list pipeReq) (pc : pipeConn) : Prop :=
  map fst (delivered pc) ++ map req_resp held ++ map req_resp (reqCh pc) = seq 0 (next_resp pc).

Lemma serve_turn pc pc' now later net :
  serve (take maxBatch (reqCh pc)) now later net (set_chan (drop maxBatch (reqCh pc)) pc) = Ok pc' ->
  pipe_ok pc -> numbered [] pc -> pipe_ok pc' /\ numbered [] pc' /\ reqCh pc' = drop maxBatch (reqCh pc)
  /\ next_resp pc' = next_resp pc /\ ch_closed pc' = ch_closed pc.
Proof.
  intros H Hok Hn. eapply serve_done in H; [|by destruct Hok; split].
  destruct H as (Hok' & Hch & Hcl & Hnx & _ & _ & _ & _ & rs & Hd & Hids). cbn in *.
  split; [done|]. split; [|done]. unfold numbered in *. cbn [map app] in *.
  rewrite Hd, Hch, Hnx, map_app, Hids, <- app_assoc, <- map_app, take_drop. exact Hn.
Qed.

Lemma loop_turn_inl now later net pc pc' :
  loop_turn now later net pc = Ok (Some (inl pc')) ->
  serve (take maxBatch (reqCh pc)) now later net (set_chan (drop maxBatch (reqCh pc)) pc) = Ok pc'.
Proof.
  unfold loop_turn. destruct (reqCh pc) eqn:E; [by destruct (ch_closed pc)|].
  case_bool; [done|]. destruct (serve _ _ _ _ _); try done. by intros [= <-].
Qed.

(** A turn that ends the loop answers nobody. *)
Lemma loop_turn_inr now later net pc pc' :
  loop_turn now later net pc = Ok (Some (inr pc')) ->
  ch_closed pc = true /\ pc' = set_nc None 0 0 (set_chan (drop maxBatch (reqCh pc)) pc).
Proof.
  unfold loop_turn. destruct (reqCh pc) eqn:E.
  - destruct (ch_closed pc) eqn:Ec; [|done]. intros [= <-]. split; [done|]. unfold set_chan, set_nc. cbn. by rewrite E.
  - case_bool; [|by destruct (serve _ _ _ _ _)]. intros [= <-]. split; [by cbn in *|done].
Qed.

(** What a stalled turn leaves: the invariant but for the commands that wait for a reply. *)
Lemma stall_exchange_held k pending r w pc pc' held rest :
  stall_exchange k pending r w pc = Some (pc', held) -> reqCh pc = rest ->
  map fst (delivered pc) ++ map req_resp (pending ++ rest) = seq 0 (next_resp pc) ->
  0 <= backoffDelay pc <= pipeConnBackoffMax -> numbered held pc' /\ 0 <= backoffDelay pc' <= pipeConnBackoffMax.
Proof.
  unfold stall_exchange. destruct ((_ ;; Flush) w) as [[e|] w1]; [done|].
  destruct (read_replies (take k pending) r) as [[rs [r1|]]| | |] eqn:Er; try done. destruct (_ <? _)%nat; [|done].
  intros [= <- <-] Hr Hn Hb. split; [|done]. unfold numbered. cbn. apply read_replies_ids in Er.
  rewrite map_app, Er, Hr, <- app_assoc, <- !map_app. by rewrite app_assoc, take_drop.
Qed.

Definition delay_ok (pc : pipeConn) : Prop := 0 <= backoffDelay pc <= pipeConnBackoffMax.

Lemma taken_numbered pc : numbered [] pc ->
  map fst (delivered pc) ++ map req_resp (take maxBatch (reqCh pc) ++ drop maxBatch (reqCh pc)) = seq 0 (next_resp pc).
Proof. intros Hn. by rewrite take_drop. Qed.

Lemma stall_read_held k now net pc pc' held :
  stall_read k now net pc = Some (pc', held) -> pipe_ok pc -> numbered [] pc -> numbered held pc' /\ delay_ok pc'.
Proof.
  unfold stall_read. intros H [_ _ Hb] Hn. apply taken_numbered in Hn. case_bool_in H; [done|].
  cbn [nc set_chan backoffUntil] in H. destruct (nc pc) as [[r w]|].
  - by eapply stall_exchange_held; [exact H|done|exact Hn|].
  - case_bool_in H; [done|]. destruct (connect _ net) as [[r w]| | |]; try done.
    eapply stall_exchange_held; [exact H|done|exact Hn|]. cbn. unfold pipeConnBackoffMax, second. lia.
Qed.

Lemma stall_early_held now pc pc' held :
  stall_early now pc = Some (pc', held) -> pipe_ok pc -> numbered [] pc -> numbered held pc' /\ delay_ok pc'.
Proof.
  unfold stall_early. intros H [_ _ Hb] Hn. apply taken_numbered in Hn. case_bool_in H; [done|].
  assert (pc' = set_chan (drop maxBatch (reqCh pc)) pc /\ held = take maxBatch (reqCh pc)) as [-> ->].
  { destruct (nc _); [by injection H as <- <-|]. case_bool_in H; [done|]. by injection H as <- <-. }
  split; [|exact Hb]. unfold numbered. cbn. by rewrite <- map_app.
Qed.

Record run_ok (r : pipeRun) : Prop := {
  ro_numbered : numbered (run_held r) (run_conn r);
  ro_delay : delay_ok (run_conn r);
  ro_running : run_mode r = LoopRunning -> run_held r = [] /\ pipe_ok (run_conn r);
  ro_ended : run_mode r = LoopEnded -> ch_closed (run_conn r) = true;
}.

Lemma pipe_step_inv r r' : pipe_step r r' -> run_ok r -> run_ok r'.
Proof.
  intros Hs [Hn Hd Hr He].
  destruct Hs as [data id pc pc' held m H|now later net pc pc' H|now later net pc pc' H|k now net pc pc' held H
    |now pc pc' held H|pc held m]; cbn [run_conn run_held run_mode] in *.
  - unfold do_send in H. destruct (ch_closed pc) eqn:Ec; [done|]. case_match; [done|]. injection H as <- <-.
    split; cbn [run_conn run_held run_mode]; [|exact Hd| |by intros ->%He].
    + unfold numbered in *. cbn [reqCh delivered next_resp]. rewrite map_app, !app_assoc, <- (app_assoc (map fst _)), Hn, seq_S. done.
    + intros Hm. destruct (Hr Hm) as [-> [? ? ?]]. split; [done|]. by split.
  - destruct (Hr eq_refl) as [_ Hok]. apply loop_turn_inl in H.
    destruct (serve_turn _ _ _ _ _ H Hok Hn) as (Hok' & Hn' & _). by split; [exact Hn'|apply Hok'| |].
  - apply loop_turn_inr in H as [Hc ->]. split; cbn [run_conn run_held run_mode]; [|exact Hd|done|done].
    unfold numbered in *. cbn in *. by rewrite <- map_app, take_drop.
  - destruct (Hr eq_refl) as [_ Hok]. destruct (stall_read_held _ _ _ _ _ _ H Hok Hn). by split.
  - destruct (Hr eq_refl) as [_ Hok]. destruct (stall_early_held _ _ _ _ H Hok Hn). by split.
  - split; cbn [run_conn run_held run_mode]; [exact Hn|exact Hd| |done].
    intros Hm. destruct (Hr Hm) as [-> [? ? ?]]. split; [done|]. by split.
Qed.

Lemma pipe_reach_inv a u w ro r : pipe_reach a u w ro r -> run_ok r.
Proof.
  induction 1 as [|r r' _ IH Hs]; [|by eapply pipe_step_inv].
  split; [done|..]; cbn [run_conn run_held run_mode]; [unfold delay_ok, pipeConnBackoffMax, second; cbn; lia| |done].
  split; [done|]. split; [done|done|]. cbn. unfold pipeConnBackoffMax, second. lia.
Qed.

(** ** Backends that announce no impossible size *)

(** The first [n] reads return a value or an error. *)
Fixpoint reads_ok (n : nat) (r : Reader) : Prop :=
  match n with
  | O => True
  | S n => match ReadValue r with (Panic, _) => False | (Ok _, r') => reads_ok n r' | _ => True end
  end.
Definition calm (r : Reader) : Prop := forall n, reads_ok n r.

Lemma calm_next r v r' : calm r -> ReadValue r = (Ok v, r') -> calm r'.
Proof. intros Hc E n. specialize (Hc (S n)). cbn in Hc. by rewrite E in Hc. Qed.

Lemma calm_read r : calm r -> fst (ReadValue r) <> Panic.
Proof. intros Hc. specialize (Hc 1%nat). cbn in Hc. destruct (ReadValue r) as [[]]; done. Qed.

Lemma read_replies_calm ps r : calm r ->
  exists rs o, read_replies ps r = Ok (rs, o) /\ forall r', o = Some r' -> calm r'.
Proof.
  revert r. induction ps as [|p ps IH]; intros r Hc; cbn [read_replies]; [eexists _, _; split; [done|]; by intros r' [= <-]|].
  destruct (ReadValue_good r) as (Hn & _). pose proof (calm_read r Hc) as Hp.
  destruct (ReadValue r) as [[v|e| |] r1] eqn:E; try done.
  - destruct (IH r1) as (rs & o & -> & Ho); [by eapply calm_next|]. go_simp. by eexists _, _.
  - by eexists _, _.
Qed.

Definition calm_conn (pc : pipeConn) : Prop := forall r w, nc pc = Some (r, w) -> calm r.
Definition calm_net (net : goerror + Reader * option nat) : Prop :=
  match net with inr (r, _) => calm r | inl _ => True end.

Lemma exchange_calm pending later r w pc : calm r ->
  exists pc', exchange pending later r w pc = Ok pc' /\ calm_conn pc'.
Proof.
  intros Hc. unfold exchange. destruct ((_ ;; Flush) w) as [[e|] w']; [by eexists|].
  destruct (read_replies_calm pending r Hc) as (rs & o & -> & Ho). go_simp. destruct o as [r'|]; [|by eexists].
  eexists. split; [done|]. intros r1 w1. cbn. intros [= <- _]. by apply Ho.
Qed.

Lemma handshake_calm cmd msg r w : calm r ->
  match handshake cmd msg r w with
  | (Ok _, r', _) => calm r' | (Err _, _, _) => True | _ => False
  end.
Proof.
  intros Hc. unfold handshake. destruct (WriteCommandBytes cmd w) as [[e|] w1]; [done|].
  destruct (Flush w1) as [[e|] w2]; [done|]. destruct (ReadValue_good r) as (Hn & _). pose proof (calm_read r Hc) as Hp.
  destruct (ReadValue r) as [[v|e| |] r1] eqn:E; try done. destruct (IsError _); [done|]. by eapply calm_next.
Qed.

Lemma connect_calm pc net : calm_net net ->
  match connect pc net with Ok (r, _) => calm r | Err _ => True | _ => False end.
Proof.
  unfold connect. destruct net as [e|[r0 budget]]; [done|]. intros Hc. cbn in Hc. go_simp.
  assert (Hro : forall r w, calm r -> match (let '(a, r, w) := if pc_readonly pc
      then handshake [bs "READONLY"] (bs "READONLY failed") r w else (Ok tt, r, w) in _ ← a; Ok (r, w)) with
      Ok (r, _) => calm r | Err _ => True | _ => False end).
  { intros r w Hr. destruct (pc_readonly pc); [|done].
    pose proof (handshake_calm [bs "READONLY"] (bs "READONLY failed") r w Hr) as Hh.
    destruct (handshake _ _ r w) as [[[[]|e| |] r1] w1]; done. }
  destruct (pc_password pc) as [|x l]; [by apply Hro|].
  pose proof (handshake_calm (auth_args (pc_username pc) (x :: l)) (bs "auth failed") r0 (NewWriter budget) Hc) as Hh.
  destruct (handshake _ _ r0 _) as [[[[]|e| |] r1] w1]; try done. go_simp. by apply Hro.
Qed.

Lemma serve_calm pending now later net pc : calm_conn pc -> calm_net net ->
  exists pc', serve pending now later net pc = Ok pc' /\ calm_conn pc'.
Proof.
  intros Hc Hn. unfold serve. destruct (nc pc) as [[r w]|] eqn:En; [by apply exchange_calm, (Hc r w)|].
  case_bool; [eexists; split; [done|]; exact Hc|].
  pose proof (connect_calm pc net Hn) as Hcn. destruct (connect pc net) as [[r w]|e| |]; try done.
  - by apply exchange_calm.
  - eexists. split; [done|]. exact Hc.
Qed.

(** ** Properties *)

(** C20: in every run of a pipelined connection, whatever the backend sends, whenever it
    fails or falls silent, and whenever the pool is closed, each request gets at most one
    response and in the order of the requests: the responses delivered, then the requests
    the loop holds without answering them, then the requests still in the channel are
    together exactly the requests made.  The loop holds requests only when it is blocked
    in a turn or has ended (the batch it was collecting when it found the channel closed
    is dropped).  While it runs, as many replies were read from the connection as commands
    were written to it, so replies and requests never get out of step, and the backoff
    stays within its bounds. *)
Theorem pipe_in_step addr username password readonly r :
  pipe_reach addr username password readonly r ->
  let pc := run_conn r in
  map fst (delivered pc) ++ map req_resp (run_held r) ++ map req_resp (reqCh pc) = seq 0 (next_resp pc) /\
  (run_mode r = LoopRunning -> run_held r = [] /\ sent pc = answered pc) /\
  (run_mode r = LoopEnded -> ch_closed pc = true) /\
  0 <= backoffDelay pc <= pipeConnBackoffMax.
Proof.
  intros H. destruct (pipe_reach_inv _ _ _ _ _ H) as [Hn Hd Hr He]. cbv zeta. split; [exact Hn|]. split; [|done].
  intros Hm. destruct (Hr Hm) as [-> Hok]. by destruct Hok.
Qed.

(** Turns of the loop while there are requests. *)
Fixpoint run_turns (envs : list (Z * Z * (goerror + Reader * option nat))) (pc : pipeConn) : outcome pipeConn :=
  match envs, reqCh pc with
  | (now, later, net) :: envs', _ :: _ =>
      r ← loop_turn now later net pc;
      match r with
      | Some (inl pc) => run_turns envs' pc
      | _ => Ok pc
      end
  | _, _ => Ok pc
  end.

Lemma run_turns_drain envs pc :
  pipe_ok pc -> numbered [] pc -> ch_closed pc = false -> (length (reqCh pc) <= maxBatch * length envs)%nat ->
  calm_conn pc -> Forall (fun e => calm_net (snd e)) envs ->
  exists pc', run_turns envs pc = Ok pc' /\ reqCh pc' = [] /\ map fst (delivered pc') = seq 0 (next_resp pc).
Proof.
  revert pc. induction envs as [|[[now later] net] envs IH]; intros pc Hok Hn Hc Hl Hcc Hce.
  { exists pc. destruct (reqCh pc) eqn:E; [|cbn in Hl; lia]. split; [done|]. split; [done|].
    unfold numbered in Hn. by rewrite E, app_nil_r in Hn. }
  apply Forall_cons in Hce as [Hnet Hce]. cbn [run_turns]. destruct (reqCh pc) as [|q qs] eqn:E.
  { exists pc. split; [done|]. split; [done|]. unfold numbered in Hn. by rewrite E, app_nil_r in Hn. }
  unfold loop_turn. rewrite E. cbn [ch_closed set_chan]. rewrite Hc, andb_false_r. rewrite <- E.
  destruct (serve_calm (take maxBatch (reqCh pc)) now later net (set_chan (drop maxBatch (reqCh pc)) pc) Hcc Hnet)
    as (pc' & Es & Hcc'). rewrite Es. go_simp.
  destruct (serve_turn _ _ _ _ _ Es Hok Hn) as (Hok' & Hn' & Hch & Hnx & Hcl).
  rewrite <- Hnx. apply IH; [done|done|congruence| |done|done].
  rewrite Hch, E, length_drop. cbn [length] in *. lia.
Qed.


Definition ok_responses (ps : list pipeReq) (vs : list (option Value)) : list (nat * pipeResp) :=
  zip (map req_resp ps) (map (fun v => resp_ok (canon_ptr v)) vs).

Lemma read_replies_values ps vs ps' rest err :
  length ps = length vs -> forallb wf_ptr vs = true -> len (concat (map EncodeValue vs)) <= 2^45 ->
  read_replies (ps ++ ps') (mkReader (concat (map EncodeValue vs) ++ rest) err)
  = ('(rs, r) ← read_replies ps' (mkReader rest err); Ok (ok_responses ps vs ++ rs, r)).
Proof.
  revert vs. induction ps as [|p ps IH]; intros [|v vs] Hl Hwf Hs; try done.
  { cbn. by destruct (read_replies ps' _) as [[]| | |]. }
  cbn [app read_replies map concat forallb] in *. apply andb_true_iff in Hwf as [Hv Hwf].
  rewrite length_app in Hs. rewrite <- app_assoc, read_one by (done || lia).
  rewrite IH by (done || lia || (cbn in Hl; lia)).
  destruct (read_replies ps' _) as [[]| | |]; done.
Qed.

Lemma batch_written ps w :
  clean w -> w_budget w = None ->
  exists w', (write_each (map (fun p => WriteRaw (req_data p)) ps) ;; Flush) w = (None, w') /\
    w_out w' = w_out w ++ concat (map req_data ps).
Proof.
  intros [Hw Hb] Hbu. pose proof (batch_writes ps w Hw) as H. destruct ((_ ;; Flush) w) as [[e|] w'] eqn:E.
  { destruct H as (_ & [] & _). done. }
  exists w'. split; [done|]. destruct H as (_ & Ht & _). apply then_flush_empty in E.
  unfold total in Ht. by rewrite E, Hb, !app_nil_r in Ht.
Qed.

(** C19: a connected pipeline gives every request of a batch the reply the backend sent for
    it, in order, after writing exactly the commands of the batch.  When the connection
    ends inside a later reply, the requests whose replies arrived still get them, the
    others get an error, and the connection is dropped. *)
Theorem pipe_replies ps vs now later net pc w rest err :
  nc pc = Some (mkReader (concat (map EncodeValue vs) ++ rest) err, w) ->
  w_err w = None -> w_buf w = [] -> w_budget w = None ->
  length ps = length vs -> forallb wf_ptr vs = true -> len (concat (map EncodeValue vs)) <= 2^45 ->
  (exists pc' w', serve ps now later net pc = Ok pc' /\
     delivered pc' = delivered pc ++ ok_responses ps vs /\
     nc pc' = Some (mkReader rest err, w') /\ w_out w' = w_out w ++ concat (map req_data ps)) /\
  (forall x p ps', wf_ptr x = true -> len (EncodeValue x) <= 2^45 -> rest `prefix_of` EncodeValue x ->
     rest <> EncodeValue x ->
     exists pc' e, serve (ps ++ p :: ps') now later net pc = Ok pc' /\ nc pc' = None /\
       delivered pc' = delivered pc ++ ok_responses ps vs ++
         (req_resp p, resp_fail e) :: fail_all (Errorf (bs "connection reset")) ps').
Proof.
  intros Hnc Hw Hb Hbu Hl Hwf Hs. assert (Hcl : clean w) by done. unfold serve. rewrite Hnc. unfold exchange. split.
  - destruct (batch_written ps w Hcl Hbu) as (w' & -> & Hout).
    pose proof (read_replies_values ps vs [] rest err Hl Hwf Hs) as Hr. rewrite app_nil_r in Hr.
    rewrite Hr. cbn [read_replies]. go_simp. rewrite app_nil_r.
    eexists _, w'. by split.
  - intros x p ps' Hx Hxl Hpre Hne.
    destruct (batch_written (ps ++ p :: ps') w Hcl Hbu) as (w' & -> & _).
    rewrite read_replies_values by done. cbn [read_replies].
    assert (Hcut : fails (ReadValue (mkReader rest err))).
    { apply (wire_cut _ _ (wire_encode x Hx) Hxl); [done|done|]. unfold value_fuel. cbn. lia. }
    destruct Hcut as [e He]. destruct (ReadValue (mkReader rest err)) as [o r']. cbn in He. subst o. go_simp.
    eexists _, e. by split.
Qed.

Definition demo_writer : Writer := NewWriter None.
Definition demo_pipe : pipeConn :=
  set_nc (Some (mkReader (concat (map EncodeValue [Some (IntValue 1); Some OKValue]) ++ bs "$5") EOF, demo_writer)) 0 0
    (newPipeConn (bs "a:1") [] [] false).
Definition demo_req (i : nat) : pipeReq := mkReq (EncodeCommandBytes [bs "GET"; bs "k"]) i.

Lemma pipe_replies_witness :
  exists pc' e, serve [demo_req 0; demo_req 1; demo_req 2; demo_req 3] 0 0 (inl EOF) demo_pipe = Ok pc' /\ nc pc' = None /\
    delivered pc' = [(0%nat, resp_ok (IntValue 1)); (1%nat, resp_ok OKValue); (2%nat, resp_fail e);
                     (3%nat, resp_fail (Errorf (bs "connection reset")))].
Proof.
  destruct (pipe_replies [demo_req 0; demo_req 1] [Some (IntValue 1); Some OKValue] 0 0 (inl EOF) demo_pipe demo_writer
    (bs "$5") EOF eq_refl eq_refl eq_refl eq_refl eq_refl eq_refl) as [_ H]; [vm_compute; discriminate|].
  destruct (H (Some (str_value TypeBulkString (bs "hello"))) (demo_req 2) [demo_req 3]) as (pc' & e & Hs & Hn & Hd);
    [reflexivity|vm_compute; discriminate|exists (CRLF ++ bs "hello" ++ CRLF); reflexivity|discriminate|].
  exists pc', e. split; [exact Hs|]. split; [exact Hn|exact Hd].
Defined.

(** The backend answers one of two requests and hangs up; a third one waits in the channel
    when the pool is closed. *)
Definition get_data : bytes := EncodeCommandBytes [bs "GET"; bs "k"].
Definition one_reply : goerror + Reader * option nat := inr (mkReader (EncodeValue (Some OKValue)) EOF, None).
Definition sent_one : pipeConn := mkPipe (bs "a:1") [] [] false [mkReq get_data 0] false None zero_time 0 [] 1 0 0.
Definition send_next (pc : pipeConn) : pipeConn := match do_send get_data pc with Ok (Some (_, pc)) => pc | _ => pc end.
Definition turned : pipeConn :=
  match loop_turn 0 0 one_reply (send_next sent_one) with Ok (Some (inl pc)) => pc | _ => sent_one end.
Definition ended : pipeConn :=
  match loop_turn 0 0 one_reply (close_chan (send_next turned)) with Ok (Some (inr pc)) => pc | _ => sent_one end.

Lemma pipe_in_step_witness :
  delivered ended = [(0%nat, resp_ok OKValue); (1%nat, resp_fail EOF)] /\
  map fst (delivered ended) ++ map req_resp [mkReq get_data 2] ++ map req_resp (reqCh ended) = seq 0 (next_resp ended).
Proof.
  split; [vm_compute; reflexivity|].
  assert (H1 : do_send get_data (newPipeConn (bs "a:1") [] [] false) = Ok (Some (0%nat, sent_one))) by (vm_compute; reflexivity).
  assert (H2 : do_send get_data sent_one = Ok (Some (1%nat, send_next sent_one))) by (vm_compute; reflexivity).
  assert (H3 : loop_turn 0 0 one_reply (send_next sent_one) = Ok (Some (inl turned))) by (vm_compute; reflexivity).
  assert (H4 : do_send get_data turned = Ok (Some (2%nat, send_next turned))) by (vm_compute; reflexivity).
  assert (H5 : loop_turn 0 0 one_reply (close_chan (send_next turned)) = Ok (Some (inr ended))) by (vm_compute; reflexivity).
  assert (H6 : take maxBatch (reqCh (close_chan (send_next turned))) = [mkReq get_data 2]) by (vm_compute; reflexivity).
  assert (Hr : pipe_reach (bs "a:1") [] [] false (mkPipeRun ended [mkReq get_data 2] LoopEnded)).
  { rewrite <- H6. eapply pr_then; [|exact (ps_end _ _ _ _ _ H5)]. eapply pr_then; [|apply ps_close].
    eapply pr_then; [|exact (ps_send _ _ _ _ _ _ H4)]. eapply pr_then; [|exact (ps_turn _ _ _ _ _ H3)].
    eapply pr_then; [|exact (ps_send _ _ _ _ _ _ H2)]. eapply pr_then; [apply pr_new|exact (ps_send _ _ _ _ _ _ H1)]. }
  destruct (pipe_in_step (bs "a:1") [] [] false (mkPipeRun ended [mkReq get_data 2] LoopEnded) Hr) as [Hn _]. exact Hn.
Defined.

Lemma one_reply_calm : calm_net one_reply.
Proof. intros [|[|n]]; exact I. Qed.


(** A backend that answers one of two requests and stays silent: the loop is blocked, and
    the second request is never answered. *)
Lemma silent_backend_blocks :
  match stall_read 1 0 one_reply (mkPipe (bs "a:1") [] [] false [mkReq get_data 0; mkReq get_data 1] false None zero_time 0 [] 2 0 0) with
  | Some (pc, held) => map fst (delivered pc) = [0%nat] /\ map req_resp held = [1%nat] /\ sent pc = 2%nat /\ answered pc = 1%nat
  | None => False
  end.
Proof. vm_compute. repeat split. Qed.

(** Requests that wait in the channel when it is closed get no response: their callers
    wait for ever. *)
Lemma close_drops_requests now later net :
  let pc := close_chan (mkPipe (bs "a:1") [] [] false [demo_req 0] false None zero_time 0 [] 1 0 0) in
  exists pc', loop_turn now later net pc = Ok (Some (inr pc')) /\ delivered pc' = [] /\ reqCh pc' = [].
Proof. by eexists. Qed.

(** A request sent after the pool was removed panics. *)
Lemma send_after_close_panics data pc : do_send data (close_chan pc) = Panic.
Proof. done. Qed.
