(* ===== verification/Command.v ===== *)
(** * Command: the command table and key extraction

    Model of [pkg/proto/command.go].  The table is the source's, entry by entry;
    [GetCmdInfo] is a map lookup, with [None] for Go's nil entry. *)

From S2P Require Import Prelude GoStd Value.

Definition FlagWrite : Z := Z.shiftl 1 0.
Definition FlagRead : Z := Z.shiftl 1 1.
Definition FlagAdmin : Z := Z.shiftl 1 2.
Definition FlagPubSub : Z := Z.shiftl 1 3.
Definition FlagNoKey : Z := Z.shiftl 1 4.
Definition FlagMultiKey : Z := Z.shiftl 1 5.
Definition FlagBlocking : Z := Z.shiftl 1 6.
Definition FlagTransaction : Z := Z.shiftl 1 7.
Definition FlagScript : Z := Z.shiftl 1 8.
Definition FlagAllNodes : Z := Z.shiftl 1 9.
Definition FlagNotAllowed : Z := Z.shiftl 1 10.

Record KeySpec := mkKeySpec {
  FirstKey : Z;
  LastKey : Z;
  Step : Z;
}.

Record CmdInfo := mkCmdInfo {
  Name : bytes;
  Arity : Z;
  Flags : Z;
  Keys : KeySpec;
}.

(** One line of the table: the map's key and the entry's name are the same. *)
Definition entry (name : string) (arity flags first last step : Z) : bytes * CmdInfo :=
  (bs name, mkCmdInfo (bs name) arity flags (mkKeySpec first last step)).

(** The table: commands on values, then keys, scripts, streams, connection and server. *)
Definition cmdTable_values : list (bytes * CmdInfo) := [
  entry "GET" 2 FlagRead 1 1 1;
  entry "SET" (-3) FlagWrite 1 1 1;
  entry "DEL" (-2) (Z.lor FlagWrite FlagMultiKey) 1 (-1) 1;
  entry "UNLINK" (-2) (Z.lor FlagWrite FlagMultiKey) 1 (-1) 1;
  entry "MGET" (-2) (Z.lor FlagRead FlagMultiKey) 1 (-1) 1;
  entry "MSET" (-3) (Z.lor FlagWrite FlagMultiKey) 1 (-1) 2;
  entry "MSETNX" (-3) (Z.lor FlagWrite FlagMultiKey) 1 (-1) 2;
  entry "EXISTS" (-2) (Z.lor FlagRead FlagMultiKey) 1 (-1) 1;
  entry "TOUCH" (-2) (Z.lor FlagRead FlagMultiKey) 1 (-1) 1;
  entry "APPEND" 3 FlagWrite 1 1 1;
  entry "GETSET" 3 FlagWrite 1 1 1;
  entry "GETDEL" 2 FlagWrite 1 1 1;
  entry "GETEX" (-2) FlagWrite 1 1 1;
  entry "SETNX" 3 FlagWrite 1 1 1;
  entry "SETEX" 4 FlagWrite 1 1 1;
  entry "PSETEX" 4 FlagWrite 1 1 1;
  entry "GETRANGE" 4 FlagRead 1 1 1;
  entry "SETRANGE" 4 FlagWrite 1 1 1;
  entry "STRLEN" 2 FlagRead 1 1 1;
  entry "INCR" 2 FlagWrite 1 1 1;
  entry "INCRBY" 3 FlagWrite 1 1 1;
  entry "INCRBYFLOAT" 3 FlagWrite 1 1 1;
  entry "DECR" 2 FlagWrite 1 1 1;
  entry "DECRBY" 3 FlagWrite 1 1 1;
  entry "HGET" 3 FlagRead 1 1 1;
  entry "HSET" (-4) FlagWrite 1 1 1;
  entry "HSETNX" 4 FlagWrite 1 1 1;
  entry "HMGET" (-3) FlagRead 1 1 1;
  entry "HMSET" (-4) FlagWrite 1 1 1;
  entry "HDEL" (-3) FlagWrite 1 1 1;
  entry "HEXISTS" 3 FlagRead 1 1 1;
  entry "HGETALL" 2 FlagRead 1 1 1;
  entry "HKEYS" 2 FlagRead 1 1 1;
  entry "HVALS" 2 FlagRead 1 1 1;
  entry "HLEN" 2 FlagRead 1 1 1;
  entry "HSTRLEN" 3 FlagRead 1 1 1;
  entry "HRANDFIELD" (-2) FlagRead 1 1 1;
  entry "HINCRBY" 4 FlagWrite 1 1 1;
  entry "HINCRBYFLOAT" 4 FlagWrite 1 1 1;
  entry "HSCAN" (-3) FlagRead 1 1 1;
  entry "LPUSH" (-3) FlagWrite 1 1 1;
  entry "LPUSHX" (-3) FlagWrite 1 1 1;
  entry "RPUSH" (-3) FlagWrite 1 1 1;
  entry "RPUSHX" (-3) FlagWrite 1 1 1;
  entry "LPOP" (-2) FlagWrite 1 1 1;
  entry "RPOP" (-2) FlagWrite 1 1 1;
  entry "LLEN" 2 FlagRead 1 1 1;
  entry "LRANGE" 4 FlagRead 1 1 1;
  entry "LINDEX" 3 FlagRead 1 1 1;
  entry "LSET" 4 FlagWrite 1 1 1;
  entry "LINSERT" 5 FlagWrite 1 1 1;
  entry "LREM" 4 FlagWrite 1 1 1;
  entry "LTRIM" 4 FlagWrite 1 1 1;
  entry "LPOS" (-3) FlagRead 1 1 1;
  entry "LMOVE" 5 FlagWrite 1 2 1;
  entry "RPOPLPUSH" 3 (Z.lor FlagWrite FlagNotAllowed) 1 2 1;
  entry "LMPOP" (-4) FlagWrite 2 (-1) 1;
  entry "BLPOP" (-3) (Z.lor FlagWrite FlagBlocking) 1 (-2) 1;
  entry "BRPOP" (-3) (Z.lor FlagWrite FlagBlocking) 1 (-2) 1;
  entry "SADD" (-3) FlagWrite 1 1 1;
  entry "SREM" (-3) FlagWrite 1 1 1;
  entry "SMEMBERS" 2 FlagRead 1 1 1;
  entry "SISMEMBER" 3 FlagRead 1 1 1;
  entry "SMISMEMBER" (-3) FlagRead 1 1 1;
  entry "SCARD" 2 FlagRead 1 1 1;
  entry "SPOP" (-2) FlagWrite 1 1 1;
  entry "SRANDMEMBER" (-2) FlagRead 1 1 1;
  entry "SMOVE" 4 (Z.lor FlagWrite FlagNotAllowed) 1 2 1;
  entry "SUNION" (-2) (Z.lor (Z.lor FlagRead FlagMultiKey) FlagNotAllowed) 1 (-1) 1;
  entry "SINTER" (-2) (Z.lor (Z.lor FlagRead FlagMultiKey) FlagNotAllowed) 1 (-1) 1;
  entry "SDIFF" (-2) (Z.lor (Z.lor FlagRead FlagMultiKey) FlagNotAllowed) 1 (-1) 1;
  entry "SUNIONSTORE" (-3) (Z.lor (Z.lor FlagWrite FlagMultiKey) FlagNotAllowed) 1 (-1) 1;
  entry "SINTERSTORE" (-3) (Z.lor (Z.lor FlagWrite FlagMultiKey) FlagNotAllowed) 1 (-1) 1;
  entry "SDIFFSTORE" (-3) (Z.lor (Z.lor FlagWrite FlagMultiKey) FlagNotAllowed) 1 (-1) 1;
  entry "SSCAN" (-3) FlagRead 1 1 1;
  entry "SINTERCARD" (-3) (Z.lor (Z.lor FlagRead FlagMultiKey) FlagNotAllowed) 2 (-1) 1;
  entry "ZADD" (-4) FlagWrite 1 1 1;
  entry "ZREM" (-3) FlagWrite 1 1 1;
  entry "ZINCRBY" 4 FlagWrite 1 1 1;
  entry "ZRANK" (-3) FlagRead 1 1 1;
  entry "ZREVRANK" (-3) FlagRead 1 1 1;
  entry "ZSCORE" 3 FlagRead 1 1 1;
  entry "ZMSCORE" (-3) FlagRead 1 1 1;
  entry "ZCARD" 2 FlagRead 1 1 1;
  entry "ZCOUNT" 4 FlagRead 1 1 1;
  entry "ZLEXCOUNT" 4 FlagRead 1 1 1;
  entry "ZRANGE" (-4) FlagRead 1 1 1;
  entry "ZREVRANGE" (-4) FlagRead 1 1 1;
  entry "ZRANGEBYSCORE" (-4) FlagRead 1 1 1;
  entry "ZREVRANGEBYSCORE" (-4) FlagRead 1 1 1;
  entry "ZRANGEBYLEX" (-4) FlagRead 1 1 1;
  entry "ZREVRANGEBYLEX" (-4) FlagRead 1 1 1;
  entry "ZRANGESTORE" (-5) FlagWrite 1 2 1;
  entry "ZREMRANGEBYSCORE" 4 FlagWrite 1 1 1;
  entry "ZREMRANGEBYRANK" 4 FlagWrite 1 1 1;
  entry "ZREMRANGEBYLEX" 4 FlagWrite 1 1 1;
  entry "ZPOPMIN" (-2) FlagWrite 1 1 1;
  entry "ZPOPMAX" (-2) FlagWrite 1 1 1;
  entry "ZRANDMEMBER" (-2) FlagRead 1 1 1;
  entry "ZSCAN" (-3) FlagRead 1 1 1;
  entry "ZUNIONSTORE" (-4) (Z.lor (Z.lor FlagWrite FlagMultiKey) FlagNotAllowed) 1 1 1;
  entry "ZINTERSTORE" (-4) (Z.lor (Z.lor FlagWrite FlagMultiKey) FlagNotAllowed) 1 1 1;
  entry "ZDIFFSTORE" (-4) (Z.lor (Z.lor FlagWrite FlagMultiKey) FlagNotAllowed) 1 1 1;
  entry "ZUNION" (-3) (Z.lor (Z.lor FlagRead FlagMultiKey) FlagNotAllowed) 2 (-1) 1;
  entry "ZINTER" (-3) (Z.lor (Z.lor FlagRead FlagMultiKey) FlagNotAllowed) 2 (-1) 1;
  entry "ZDIFF" (-3) (Z.lor (Z.lor FlagRead FlagMultiKey) FlagNotAllowed) 2 (-1) 1;
  entry "BZPOPMIN" (-3) (Z.lor FlagWrite FlagBlocking) 1 (-2) 1;
  entry "BZPOPMAX" (-3) (Z.lor FlagWrite FlagBlocking) 1 (-2) 1;
  entry "BLMOVE" 6 (Z.lor FlagWrite FlagBlocking) 1 2 1;
  entry "BLMPOP" (-5) (Z.lor FlagWrite FlagBlocking) 0 0 0;
  entry "BZMPOP" (-5) (Z.lor FlagWrite FlagBlocking) 0 0 0
].

Definition cmdTable_server : list (bytes * CmdInfo) := [
  entry "EXPIRE" (-3) FlagWrite 1 1 1;
  entry "EXPIREAT" 3 FlagWrite 1 1 1;
  entry "PEXPIRE" 3 FlagWrite 1 1 1;
  entry "PEXPIREAT" 3 FlagWrite 1 1 1;
  entry "EXPIRETIME" 2 FlagRead 1 1 1;
  entry "PEXPIRETIME" 2 FlagRead 1 1 1;
  entry "TTL" 2 FlagRead 1 1 1;
  entry "PTTL" 2 FlagRead 1 1 1;
  entry "PERSIST" 2 FlagWrite 1 1 1;
  entry "TYPE" 2 FlagRead 1 1 1;
  entry "RENAME" 3 (Z.lor FlagWrite FlagNotAllowed) 1 2 1;
  entry "RENAMENX" 3 (Z.lor FlagWrite FlagNotAllowed) 1 2 1;
  entry "COPY" (-3) FlagWrite 1 2 1;
  entry "MOVE" 3 (Z.lor FlagWrite FlagNotAllowed) 1 1 1;
  entry "DUMP" 2 (Z.lor FlagRead FlagNotAllowed) 1 1 1;
  entry "RESTORE" (-4) (Z.lor FlagWrite FlagNotAllowed) 1 1 1;
  entry "OBJECT" (-2) FlagRead 2 2 1;
  entry "SORT" (-2) FlagWrite 1 1 1;
  entry "SCAN" (-2) (Z.lor FlagRead FlagAllNodes) 0 0 0;
  entry "PFADD" (-2) FlagWrite 1 1 1;
  entry "PFCOUNT" (-2) (Z.lor FlagRead FlagMultiKey) 1 (-1) 1;
  entry "PFMERGE" (-2) (Z.lor (Z.lor FlagWrite FlagMultiKey) FlagNotAllowed) 1 (-1) 1;
  entry "GEOADD" (-5) FlagWrite 1 1 1;
  entry "GEODIST" (-4) FlagRead 1 1 1;
  entry "GEOHASH" (-3) FlagRead 1 1 1;
  entry "GEOPOS" (-2) FlagRead 1 1 1;
  entry "GEORADIUS" (-6) FlagWrite 1 1 1;
  entry "GEORADIUSBYMEMBER" (-5) FlagWrite 1 1 1;
  entry "GEOSEARCH" (-7) FlagRead 1 1 1;
  entry "GEOSEARCHSTORE" (-8) FlagWrite 1 2 1;
  entry "BITCOUNT" (-2) FlagRead 1 1 1;
  entry "BITPOS" (-3) FlagRead 1 1 1;
  entry "BITOP" (-4) (Z.lor FlagWrite FlagMultiKey) 2 (-1) 1;
  entry "BITFIELD" (-2) FlagWrite 1 1 1;
  entry "SETBIT" 4 FlagWrite 1 1 1;
  entry "GETBIT" 3 FlagRead 1 1 1;
  entry "XADD" (-5) FlagWrite 1 1 1;
  entry "XREAD" (-4) (Z.lor FlagRead FlagMultiKey) 0 0 0;
  entry "XREADGROUP" (-7) (Z.lor FlagWrite FlagMultiKey) 0 0 0;
  entry "XRANGE" (-4) FlagRead 1 1 1;
  entry "XREVRANGE" (-4) FlagRead 1 1 1;
  entry "XLEN" 2 FlagRead 1 1 1;
  entry "XACK" (-4) FlagWrite 1 1 1;
  entry "XDEL" (-3) FlagWrite 1 1 1;
  entry "XTRIM" (-4) FlagWrite 1 1 1;
  entry "XINFO" (-2) FlagRead 2 2 1;
  entry "XGROUP" (-2) FlagWrite 2 2 1;
  entry "XCLAIM" (-6) FlagWrite 1 1 1;
  entry "XAUTOCLAIM" (-7) FlagWrite 1 1 1;
  entry "XPENDING" (-3) FlagRead 1 1 1;
  entry "EVAL" (-3) FlagScript 3 0 1;
  entry "EVALSHA" (-3) FlagScript 3 0 1;
  entry "EVAL_RO" (-3) (Z.lor FlagScript FlagRead) 3 0 1;
  entry "EVALSHA_RO" (-3) (Z.lor FlagScript FlagRead) 3 0 1;
  entry "SCRIPT" (-2) (Z.lor FlagScript FlagAdmin) 0 0 0;
  entry "PUBLISH" 3 FlagPubSub 0 0 0;
  entry "SUBSCRIBE" (-2) FlagPubSub 0 0 0;
  entry "UNSUBSCRIBE" (-1) FlagPubSub 0 0 0;
  entry "PSUBSCRIBE" (-2) FlagPubSub 0 0 0;
  entry "PUNSUBSCRIBE" (-1) FlagPubSub 0 0 0;
  entry "PUBSUB" (-2) (Z.lor FlagPubSub FlagRead) 0 0 0;
  entry "MULTI" 1 FlagTransaction 0 0 0;
  entry "EXEC" 1 FlagTransaction 0 0 0;
  entry "DISCARD" 1 FlagTransaction 0 0 0;
  entry "WATCH" (-2) FlagTransaction 1 (-1) 1;
  entry "UNWATCH" 1 FlagTransaction 0 0 0;
  entry "PING" (-1) FlagNoKey 0 0 0;
  entry "ECHO" 2 FlagNoKey 0 0 0;
  entry "SELECT" 2 FlagNoKey 0 0 0;
  entry "AUTH" (-2) FlagNoKey 0 0 0;
  entry "QUIT" 1 FlagNoKey 0 0 0;
  entry "RESET" 1 FlagNoKey 0 0 0;
  entry "CLIENT" (-2) FlagNoKey 0 0 0;
  entry "DBSIZE" 1 (Z.lor FlagRead FlagAllNodes) 0 0 0;
  entry "KEYS" 2 (Z.lor FlagRead FlagAllNodes) 0 0 0;
  entry "RANDOMKEY" 1 (Z.lor (Z.lor FlagRead FlagAllNodes) FlagNotAllowed) 0 0 0;
  entry "FLUSHDB" (-1) (Z.lor (Z.lor FlagWrite FlagAdmin) FlagAllNodes) 0 0 0;
  entry "FLUSHALL" (-1) (Z.lor (Z.lor FlagWrite FlagAdmin) FlagAllNodes) 0 0 0;
  entry "INFO" (-1) (Z.lor FlagRead FlagAdmin) 0 0 0;
  entry "CONFIG" (-2) FlagAdmin 0 0 0;
  entry "DEBUG" (-2) FlagAdmin 0 0 0;
  entry "CLUSTER" (-2) FlagAdmin 0 0 0;
  entry "COMMAND" (-1) FlagNoKey 0 0 0;
  entry "LATENCY" (-2) FlagAdmin 0 0 0;
  entry "SLOWLOG" (-2) FlagAdmin 0 0 0;
  entry "TIME" 1 (Z.lor FlagRead FlagNoKey) 0 0 0;
  entry "WAIT" 3 FlagNoKey 0 0 0;
  entry "HELLO" (-1) FlagNoKey 0 0 0;
  entry "READONLY" 1 FlagNoKey 0 0 0;
  entry "READWRITE" 1 FlagNoKey 0 0 0;
  entry "BROADCAST" (-2) (Z.lor FlagAdmin FlagAllNodes) 0 0 0
].

Definition cmdTable : list (bytes * CmdInfo) := cmdTable_values ++ cmdTable_server.
Definition cmdMap : gmap bytes CmdInfo := list_to_map cmdTable.

Definition GetCmdInfo (name : bytes) : option CmdInfo := cmdMap !! name.

Definition HasFlag (c : option CmdInfo) (f : Z) : bool :=
  match c with
  | None => false
  | Some c => negb (Z.land (Flags c) f =? 0)
  end.

Definition IsWrite c := HasFlag c FlagWrite.
Definition IsRead c := HasFlag c FlagRead.
Definition IsMultiKey c := HasFlag c FlagMultiKey.
Definition IsNoKey c := HasFlag c FlagNoKey.
Definition IsBlocking c := HasFlag c FlagBlocking.
Definition IsPubSub c := HasFlag c FlagPubSub.
Definition IsScript c := HasFlag c FlagScript.
Definition IsAllNodes c := HasFlag c FlagAllNodes.
Definition IsTransaction c := HasFlag c FlagTransaction.
Definition IsNotAllowed c := HasFlag c FlagNotAllowed.

(** The nil slice is [None]. *)
Definition GetFirstKeyFromRequest (req : Request) : option bytes :=
  if (length (Args req) =? 0)%nat then None else
  match GetCmdInfo (Cmd req) with
  | None => None
  | Some info =>
      let first := FirstKey (Keys info) in
      if (first <=? 0) || (len (Args req) <=? first) then None
      else Args req !! Z.to_nat first
  end.

Definition GetFirstKeyAndInfo (req : Request) : option bytes * option CmdInfo :=
  if (length (Args req) =? 0)%nat then (None, None) else
  let info := GetCmdInfo (Cmd req) in
  match info with
  | None => (None, info)
  | Some i =>
      let first := FirstKey (Keys i) in
      if (first <=? 0) || (len (Args req) <=? first) then (None, info)
      else (Args req !! Z.to_nat first, info)
  end.

(** [for i := first; i <= last; i += step { keys = append(keys, args[i]) }]: the
    index expression panics out of range, [fuel] bounds the iterations. *)
Fixpoint keys_loop (fuel : nat) (args : list bytes) (i last step : Z) : outcome (list bytes) :=
  match fuel with
  | O => NoFuel
  | S fuel =>
      if last <? i then Ok [] else
      if i <? 0 then Panic else
      match args !! Z.to_nat i with
      | None => Panic
      | Some k => ks ← keys_loop fuel args (i + step) last step; Ok (k :: ks)
      end
  end.

Definition GetKeys (req : Request) : outcome (list bytes) :=
  if (length (Args req) =? 0)%nat then Ok [] else
  match GetCmdInfo (Cmd req) with
  | None => Ok []
  | Some info =>
      if FirstKey (Keys info) =? 0 then Ok [] else
      let first := FirstKey (Keys info) in
      let last := LastKey (Keys info) in
      let step := if Step (Keys info) <=? 0 then 1 else Step (Keys info) in
      let argc := len (Args req) in
      let last := if last <? 0 then argc + last else last in
      if (argc <=? first) || (argc <=? last) || (last <? first) then Ok []
      else keys_loop (S (length (Args req))) (Args req) first last step
  end.

(** The loop over [Args[1 .. len-2]]. *)
Definition IsBlockingXREAD (req : Request) : bool :=
  (bytes_eqb (Cmd req) (bs "XREAD") || bytes_eqb (Cmd req) (bs "XREADGROUP")) &&
  existsb (fun a => EqualFold a (bs "BLOCK")) (drop 1 (take (length (Args req) - 1) (Args req))).

(** ** The table *)

Definition entry_ok (p : bytes * CmdInfo) : bool :=
  bytes_eqb (Name p.2) p.1 &&
  negb (IsRead (Some p.2) && IsWrite (Some p.2)) &&
  (0 <=? FirstKey (Keys p.2)) &&
  ((FirstKey (Keys p.2) =? 0) || ((0 <? Step (Keys p.2)) && negb (IsNoKey (Some p.2)))).

Lemma cmdTable_ok : forallb entry_ok cmdTable = true.
Proof. vm_compute. reflexivity. Qed.

Lemma GetCmdInfo_ok name info : GetCmdInfo name = Some info -> entry_ok (name, info) = true.
Proof.
  unfold GetCmdInfo, cmdMap. intros H. apply elem_of_list_to_map_2 in H.
  pose proof cmdTable_ok as Hok.
  rewrite forallb_forall in Hok. apply Hok, list_elem_of_In, H.
Qed.

#[global] Opaque cmdMap GetCmdInfo.

Lemma entry_ok_spec name info :
  entry_ok (name, info) = true ->
  Name info = name /\ (IsRead (Some info) && IsWrite (Some info)) = false /\
  0 <= FirstKey (Keys info) /\
  (FirstKey (Keys info) <> 0 -> 0 < Step (Keys info) /\ IsNoKey (Some info) = false).
Proof.
  unfold entry_ok. cbn [fst snd]. intros H.
  apply andb_true_iff in H as [H Hk]. apply andb_true_iff in H as [H Hf].
  apply andb_true_iff in H as [Hn Hrw].
  apply bytes_eqb_eq in Hn. apply negb_true_iff in Hrw. apply Z.leb_le in Hf.
  repeat split; [done|done|done| |];
    (apply orb_true_iff in Hk as [Hk|Hk]; [apply Z.eqb_eq in Hk; lia|]);
    apply andb_true_iff in Hk as [??].
  - by apply Z.ltb_lt.
  - by apply negb_true_iff.
Qed.

(** ** The key loop

    [key_positions] is the list of argument positions a key specification
    denotes for a command of [argc] arguments, in order. *)

Definition key_positions (spec : KeySpec) (argc : Z) : list Z :=
  let last := if LastKey spec <? 0 then argc + LastKey spec else LastKey spec in
  if (FirstKey spec =? 0) || (argc <=? last) || (last <? FirstKey spec) then [] else
  map (fun j => FirstKey spec + Z.of_nat j * Step spec)
    (seq 0 (Z.to_nat ((last - FirstKey spec) / Step spec + 1))).

Lemma keys_loop_spec args last step m i fuel :
  0 < step -> 0 <= i -> last < len args ->
  (m < fuel)%nat -> last < i + Z.of_nat m * step -> ((0 < m)%nat -> i + Z.of_nat (m - 1) * step <= last) ->
  exists ks, keys_loop fuel args i last step = Ok ks /\
    map Some ks = map (fun j => args !! Z.to_nat (i + Z.of_nat j * step)) (seq 0 m).
Proof.
  intros Hs. revert i fuel. induction m as [|m IH]; intros i fuel Hi Hl Hf Hend Hlast;
    (destruct fuel as [|fuel]; [lia|]); cbn [keys_loop].
  { rewrite (proj2 (Z.ltb_lt _ _)) by lia. exists []. done. }
  specialize (Hlast ltac:(lia)). replace (Z.of_nat (S m - 1)) with (Z.of_nat m) in Hlast by lia.
  assert (0 <= Z.of_nat m * step) by lia.
  rewrite (proj2 (Z.ltb_ge _ _)) by lia. rewrite (proj2 (Z.ltb_ge _ _)) by lia.
  destruct (lookup_lt_is_Some_2 args (Z.to_nat i)) as [k Hk]; [lia|]. rewrite Hk.
  destruct (IH (i + step) fuel) as (ks & -> & Hks); [lia|lia|lia|lia| |].
  { intros. replace (Z.of_nat (m - 1)) with (Z.of_nat m - 1) by lia. lia. }
  exists (k :: ks). split; [done|]. cbn [map seq]. rewrite Hks. f_equal.
  { rewrite <- Hk. f_equal. lia. }
  rewrite <- seq_shift, map_map. apply map_ext. intros j. f_equal. lia.
Qed.

Lemma GetKeys_spec req info :
  Args req <> [] -> GetCmdInfo (Cmd req) = Some info ->
  exists ks, GetKeys req = Ok ks /\
    map Some ks = map (fun i => Args req !! Z.to_nat i) (key_positions (Keys info) (len (Args req))).
Proof.
  intros Ha Hi. unfold GetKeys, key_positions. rewrite Hi.
  apply GetCmdInfo_ok, entry_ok_spec in Hi as (_ & _ & Hf & Hk).
  destruct (Args req) as [|a args] eqn:Hargs; [done|]. rewrite <- Hargs in *.
  replace (length (Args req) =? 0)%nat with false by by rewrite Hargs.
  destruct (FirstKey (Keys info) =? 0) eqn:E0; [by exists []|]. bool_arith.
  destruct (Hk E0) as [Hs _].
  rewrite (proj2 (Z.leb_gt (Step (Keys info)) 0)) by lia. cbn [orb].
  set (last := if LastKey (Keys info) <? 0 then _ else _).
  destruct (len (Args req) <=? last) eqn:E1; [rewrite orb_true_r; by exists []|]. bool_arith.
  rewrite orb_false_r.
  destruct (last <? FirstKey (Keys info)) eqn:E2; [rewrite orb_true_r; by exists []|]. bool_arith.
  rewrite (proj2 (Z.leb_gt (len _) (FirstKey _))) by lia. cbn [orb].
  set (q := (last - FirstKey (Keys info)) / Step (Keys info)).
  assert (0 <= q) by (apply Z.div_pos; lia).
  assert (Step (Keys info) * q <= last - FirstKey (Keys info)) by (apply Z.mul_div_le; lia).
  assert (last - FirstKey (Keys info) < Step (Keys info) * Z.succ q)
    by (apply Z.mul_succ_div_gt; lia).
  assert (q <= last - FirstKey (Keys info)) by nia.
  rewrite map_map. apply keys_loop_spec; nia.
Qed.

(** ** Properties *)

(** The key extraction is total and exact: for every request it returns,
    without an index out of range, the arguments at the positions the command's
    key specification denotes (first, first + step, ... up to last, a negative
    last counted from the end), and nothing for a command outside the table. *)
Lemma GetKeys_exact req :
  exists ks, GetKeys req = Ok ks /\
    map Some ks =
      match Args req, GetCmdInfo (Cmd req) with
      | _ :: _, Some info =>
          map (fun i => Args req !! Z.to_nat i) (key_positions (Keys info) (len (Args req)))
      | _, _ => []
      end.
Proof.
  destruct (Args req) as [|a args] eqn:Ha.
  { exists []. unfold GetKeys. rewrite Ha. done. }
  destruct (GetCmdInfo (Cmd req)) as [info|] eqn:Hi.
  - rewrite <- Ha. apply GetKeys_spec; [rewrite Ha; discriminate|exact Hi].
  - exists []. unfold GetKeys. rewrite Ha, Hi. split; reflexivity.
Qed.

(** The table is consistent: an entry is stored under its own name, no
    command is both a read and a write (so the replica and the master rule never
    both apply), and a command with keys has a positive first position and step
    and is not flagged keyless. *)
Lemma cmdTable_consistent name info :
  GetCmdInfo name = Some info ->
  Name info = name /\ (IsRead (Some info) && IsWrite (Some info)) = false /\
  0 <= FirstKey (Keys info) /\
  (FirstKey (Keys info) <> 0 -> 0 < Step (Keys info) /\ IsNoKey (Some info) = false).
Proof. intros H. by apply entry_ok_spec, GetCmdInfo_ok. Qed.

Lemma cmdTable_consistent_witness :
  Name (mkCmdInfo (bs "GET") 2 FlagRead (mkKeySpec 1 1 1)) = bs "GET".
Proof. refine (proj1 (cmdTable_consistent (bs "GET") _ _)). vm_compute. reflexivity. Defined.

(** The first key and the key list agree. *)
Lemma key_positions_head spec argc i ps :
  key_positions spec argc = i :: ps -> i = FirstKey spec /\ i <> 0 /\ i < argc.
Proof.
  unfold key_positions. set (last := if LastKey spec <? 0 then _ else _).
  case_bool; [discriminate|]. destruct (Z.to_nat _); [discriminate|]. cbn [seq map]. intros Hp.
  injection Hp as <- _. lia.
Qed.

Lemma GetFirstKey_GetKeys req k ks :
  GetKeys req = Ok (k :: ks) -> GetFirstKeyFromRequest req = Some k.
Proof.
  intros Hk. unfold GetFirstKeyFromRequest.
  destruct (Args req) as [|a args] eqn:Ha.
  { unfold GetKeys in Hk. rewrite Ha in Hk. discriminate. }
  destruct (GetCmdInfo (Cmd req)) as [info|] eqn:Hi.
  2:{ unfold GetKeys in Hk. rewrite Ha, Hi in Hk. discriminate Hk. }
  destruct (GetKeys_spec req info) as (ks' & Hks & Hm); [rewrite Ha; discriminate|exact Hi|].
  rewrite Hk in Hks. injection Hks as <-. rewrite Ha in Hm.
  apply GetCmdInfo_ok, entry_ok_spec in Hi as (_ & _ & Hf & _).
  destruct (key_positions _ _) as [|i ps] eqn:Hp; [discriminate|].
  apply key_positions_head in Hp as (-> & ? & ?). injection Hm as Hm _.
  cbn [length Nat.eqb] in *. rewrite (proj2 (Z.leb_gt (FirstKey (Keys info)) 0)) by lia.
  rewrite (proj2 (Z.leb_gt (Z.of_nat _) (FirstKey (Keys info)))) by lia.
  symmetry. exact Hm.
Qed.
