(* ===== verification/Topology.v ===== *)
(** * Topology: the cluster map and its refresh

    Model of [pkg/cluster/topology.go].  A [*Node] is referred to by its address:
    within one snapshot the node of an address is created once, is stored in the
    [nodes] map under that address and only its fields change while the reply is
    parsed, so [nodes] is the store the pointers point into.  The slot array is a
    map from slot to address, without an entry where the array holds nil.

    Go iterates over maps in an unspecified order; the functions that do so take
    the order as an argument, and the theorems hold for every order. *)

From stdpp Require Import sorting.
From S2P Require Import Prelude GoStd Crc16.

Inductive NodeRole := RoleMaster | RoleReplica.

#[global] Instance NodeRole_eq_decision : EqDecision NodeRole.
Proof. solve_decision. Defined.

Record Node := mkNode {
  ID : bytes;
  Addr : bytes;
  Role : NodeRole;
  Slots : list (Z * Z);
  Replicas : list bytes;
  MasterID : bytes;
}.

Abbreviation nodemap := (gmap bytes Node).
Abbreviation slotmap := (gmap Z bytes).

Record topoSnapshot := mkSnap {
  nodes : nodemap;
  slots : slotmap;
  masters : list bytes;
  snap_version : Z;
  fingerprint : bytes;
}.

Record Topology := mkTopo {
  snap : topoSnapshot;
  rrCounter : Z;
  msrrCounter : Z;
  version : Z;
}.

Definition NewTopology : Topology := mkTopo (mkSnap ∅ ∅ [] 0 []) 0 0 0.

(** ** Queries *)

Definition slot_ok (slot : Z) : bool := (0 <=? slot) && (slot <? ClusterSlots).

Definition GetNodeForSlot (slot : Z) (t : Topology) : option bytes :=
  if slot_ok slot then slots (snap t) !! slot else None.

(** The replicas of the node at [addr]. *)
Definition replicas_of (addr : bytes) (s : topoSnapshot) : list bytes :=
  match nodes s !! addr with Some n => Replicas n | None => [] end.

Definition GetReplicaForSlot (slot : Z) (t : Topology) : option bytes * Topology :=
  if negb (slot_ok slot) then (None, t) else
  match slots (snap t) !! slot with
  | None => (None, t)
  | Some master =>
      let rs := replicas_of master (snap t) in
      if (length rs =? 0)%nat then (None, t) else
      let rr := wrapu64 (rrCounter t + 1) in
      (rs !! Z.to_nat (rr mod len rs), mkTopo (snap t) rr (msrrCounter t) (version t))
  end.

Definition GetNodeForSlotPreferReplica (slot : Z) (t : Topology) : option bytes * Topology :=
  match GetReplicaForSlot slot t with
  | (Some r, t') => (Some r, t')
  | (None, t') => (GetNodeForSlot slot t', t')
  end.

Definition GetNodeForSlotBalanced (slot : Z) (t : Topology) : option bytes * Topology :=
  if negb (slot_ok slot) then (None, t) else
  match slots (snap t) !! slot with
  | None => (None, t)
  | Some master =>
      let all := master :: replicas_of master (snap t) in
      let rr := wrapu64 (msrrCounter t + 1) in
      (all !! Z.to_nat (rr mod len all), mkTopo (snap t) (rrCounter t) rr (version t))
  end.

Definition GetNodeByAddr (addr : bytes) (t : Topology) : option Node := nodes (snap t) !! addr.
Definition AllMasters (t : Topology) : list bytes := masters (snap t).

(** ** Update *)

Definition bytes_le (a b : bytes) : Prop := bytes_ltb b a = false.
#[global] Instance bytes_le_dec : RelDecision bytes_le.
Proof. intros a b. unfold bytes_le. apply _. Defined.

(** [sort.Strings], and [sort.Slice] on distinct addresses. *)
Definition sort_strings (l : list bytes) : list bytes := merge_sort bytes_le l.

Definition is_master (n : Node) : bool :=
  match Role n with RoleMaster => true | RoleReplica => false end.

(** [order] is the order of the range over [nodes]. *)
Definition Update (order : list bytes) (ns : nodemap) (ss : slotmap) (fp : bytes) (t : Topology)
    : Topology :=
  let ms := List.filter (fun a => match ns !! a with Some n => is_master n | None => false end)
              order in
  let newVersion := wrap64 (version t + 1) in
  mkTopo (mkSnap ns ss (sort_strings ms) newVersion fp) (rrCounter t) (msrrCounter t) newVersion.

Definition fingerprint_entry (addr : bytes) (n : Node) : bytes :=
  addr ++ bs ":" ++ (if is_master n then bs "m" else bs "r") ++ bs ":" ++
  concat (map (fun r => FormatInt (fst r) ++ bs "-" ++ FormatInt (snd r) ++ bs ",") (Slots n)).

(** [strings.Join(l, sep)] *)
Fixpoint Join (sep : bytes) (l : list bytes) : bytes :=
  match l with
  | [] => []
  | [x] => x
  | x :: l' => x ++ sep ++ Join sep l'
  end.

Definition topoFingerprint (order : list bytes) (ns : nodemap) : bytes :=
  Join (bs "|") (sort_strings (omap (fun a => fingerprint_entry a <$> ns !! a) order)).

(** ** Parsing CLUSTER NODES *)

(** [for s := start; s <= end; s++ { if s >= 0 && s < ClusterSlots { slots[s] = n } }],
    [k] iterations from [s] on. *)
Fixpoint assign_loop (k : nat) (s : Z) (addr : bytes) (ss : slotmap) : slotmap :=
  match k with
  | O => ss
  | S k => assign_loop k (s + 1) addr (if slot_ok s then <[s := addr]> ss else ss)
  end.

(** One slot field of a master's line: the ranges appended to [n.Slots] and the new
    slot array.  The loop condition [s <= end] never fails when [end] is the
    largest [int]; the model has no result for that field. *)
Definition slot_field (addr : bytes) (f : bytes) (acc : list (Z * Z) * slotmap)
    : outcome (list (Z * Z) * slotmap) :=
  let '(rs, ss) := acc in
  if HasPrefix f (bs "[") then Ok acc else
  match IndexByte f x2d with
  | Some idx =>
      match Atoi (take idx f), Atoi (drop (S idx) f) with
      | Some start, Some end_ =>
          if (end_ =? 2^63 - 1) && (start <=? end_) then NoFuel else
          Ok (rs ++ [(start, end_)], assign_loop (Z.to_nat (end_ - start + 1)) start addr ss)
      | _, _ => Ok acc
      end
  | None =>
      match Atoi f with
      | Some s => Ok (rs ++ [(s, s)], if slot_ok s then <[s := addr]> ss else ss)
      | None => Ok acc
      end
  end.

Fixpoint slot_fields (addr : bytes) (fs : list bytes) (acc : list (Z * Z) * slotmap)
    : outcome (list (Z * Z) * slotmap) :=
  match fs with
  | [] => Ok acc
  | f :: fs' => acc ← slot_field addr f acc; slot_fields addr fs' acc
  end.

Definition has_flag (flags : list bytes) (f : string) : bool := existsb (bytes_eqb (bs f)) flags.

(** One line of the reply. *)
Definition parse_line (line : bytes) (acc : nodemap * slotmap) : outcome (nodemap * slotmap) :=
  let '(ns, ss) := acc in
  match Fields (TrimSpace line) with
  | nodeID :: addrField :: flagsField :: masterID :: _ :: _ :: _ :: _ :: slotFields =>
      let addr := match SplitN addrField x40 2 with a :: _ => a | [] => [] end in
      if bytes_eqb addr [] || bytes_eqb addr (bs ":0") then Ok acc else
      let flags := SplitByte flagsField x2c in
      if has_flag flags "noaddr" || has_flag flags "handshake" then Ok acc else
      if has_flag flags "fail" || has_flag flags "pfail" then Ok acc else
      let n := match ns !! addr with
               | None => mkNode nodeID addr RoleMaster [] [] []
               | Some n =>
                   if bytes_eqb (ID n) []
                   then mkNode nodeID (Addr n) (Role n) (Slots n) (Replicas n) (MasterID n) else n
               end in
      let isMaster := has_flag flags "master" in
      let known := negb (bytes_eqb masterID (bs "-")) && negb (bytes_eqb masterID []) in
      let isSlave := has_flag flags "slave" || has_flag flags "replica" || known in
      let n := if isMaster then mkNode (ID n) (Addr n) RoleMaster (Slots n) (Replicas n) []
               else if isSlave then
                 mkNode (ID n) (Addr n) RoleReplica (Slots n) (Replicas n)
                   (if known then masterID else MasterID n)
               else n in
      if isMaster then
        '(rs, ss) ← slot_fields addr slotFields (Slots n, ss);
        Ok (<[addr := mkNode (ID n) (Addr n) (Role n) rs (Replicas n) (MasterID n)]> ns, ss)
      else Ok (<[addr := n]> ns, ss)
  | _ => Ok acc
  end.

Fixpoint parse_lines (lines : list bytes) (acc : nodemap * slotmap) : outcome (nodemap * slotmap) :=
  match lines with
  | [] => Ok acc
  | l :: lines' => acc ← parse_line l acc; parse_lines lines' acc
  end.

(** The replica pass: [order] is the order of the outer range, [inner a] the order
    of the inner range run for the node [a]. *)
Definition attach_one (inner : bytes -> list bytes) (ns : nodemap) (a : bytes) : nodemap :=
  match ns !! a with
  | Some n =>
      if negb (is_master n) && negb (bytes_eqb (MasterID n) []) then
        match List.find (fun b => match ns !! b with
                                  | Some m => bytes_eqb (ID m) (MasterID n)
                                  | None => false end) (inner a) with
        | Some b =>
            alter (fun m => mkNode (ID m) (Addr m) (Role m) (Slots m) (Replicas m ++ [a]) (MasterID m))
              b ns
        | None => ns
        end
      else ns
  | None => ns
  end.

Definition attach_replicas (order : list bytes) (inner : bytes -> list bytes) (ns : nodemap) : nodemap :=
  foldl (attach_one inner) ns order.

Definition parseClusterNodes (order : nodemap -> list bytes) (inner : nodemap -> bytes -> list bytes)
    (raw : bytes) : outcome (nodemap * slotmap) :=
  '(ns, ss) ← parse_lines (SplitByte (TrimSpace raw) LF) (∅, ∅);
  Ok (attach_replicas (order ns) (inner ns) ns, ss).

(** ** The manager *)

Record Manager := mkManager {
  entryPoints : list bytes;
  topo : Topology;
  refreshCh : bool;
  removedHooks : list (list bytes);
}.

(** [TriggerRefresh]: a send to a channel of capacity 1 that is dropped when the
    channel is full; [refreshCh] says whether it holds a token. *)
Definition TriggerRefresh (m : Manager) : Manager :=
  mkManager (entryPoints m) (topo m) true (removedHooks m).

(** The orders of the map ranges of one refresh. *)
Record iteration := mkIter {
  it_attach : nodemap -> list bytes;
  it_inner : nodemap -> bytes -> list bytes;
  it_finger : nodemap -> list bytes;
  it_update : nodemap -> list bytes;
  it_removed : nodemap -> list bytes;
  it_entries : nodemap -> list bytes;
}.

(** [removedHooks] records the calls of the node-removed hook. *)
Definition onTopologyChanged (it : iteration) (prev next : nodemap) (m : Manager) : Manager :=
  let removed := List.filter (fun a => match next !! a with Some _ => false | None => true end)
                   (it_removed it prev) in
  mkManager (sort_strings (it_entries it next)) (topo m) (refreshCh m)
    (if (0 <? length removed)%nat then removedHooks m ++ [removed] else removedHooks m).

(** [refreshFrom] once the reply to CLUSTER NODES, or the error of dialing,
    authenticating or asking, is known. *)
Definition refreshFrom (it : iteration) (reply : outcome bytes) (m : Manager) : outcome Manager :=
  raw ← reply;
  '(ns, ss) ← parseClusterNodes (it_attach it) (it_inner it) raw;
  let fp := topoFingerprint (it_finger it ns) ns in
  let prev := snap (topo m) in
  let m' := mkManager (entryPoints m) (Update (it_update it ns) ns ss fp (topo m)) (refreshCh m)
              (removedHooks m) in
  Ok (if bytes_eqb fp (fingerprint prev) then m' else onTopologyChanged it (nodes prev) ns m').

(** [errors.Join]: the errors' texts, one per line. *)
Definition refresh_failed (errs : list bytes) : goerror :=
  Errorf (bs "topology refresh failed for all entry points: " ++
    match errs with [] => bs "%!w(<nil>)" | _ => Join [LF] errs end).

(** [refresh]: the entry points in turn, until one answers; [fetch] is what asking
    each of them gives.  A refresh that panics or does not end is no result. *)
Fixpoint refresh_loop (it : iteration) (fetch : bytes -> outcome bytes) (eps errs : list bytes)
    (m : Manager) : outcome Manager :=
  match eps with
  | [] => Err (refresh_failed errs)
  | ep :: eps' =>
      match refreshFrom it (fetch ep) m with
      | Err e => refresh_loop it fetch eps' (errs ++ [ep ++ bs ": " ++ err_msg e]) m
      | r => r
      end
  end.

Definition refresh (it : iteration) (fetch : bytes -> outcome bytes) (m : Manager) : outcome Manager :=
  refresh_loop it fetch (entryPoints m) [] m.

(** ** Sorting *)

Lemma bytes_ltb_irrefl a : bytes_ltb a a = false.
Proof. induction a as [|x a IH]; [done|]. cbn. by rewrite Z.ltb_irrefl. Qed.

Lemma bytes_ltb_trans a b c : bytes_ltb a b = true -> bytes_ltb b c = true -> bytes_ltb a c = true.
Proof.
  revert b c. induction a as [|x a IH]; intros [|y b] [|z c] H1 H2; try done. cbn in *.
  destruct (Z.ltb_spec (zb x) (zb y)), (Z.ltb_spec (zb y) (zb x)), (Z.ltb_spec (zb y) (zb z)),
    (Z.ltb_spec (zb z) (zb y)), (Z.ltb_spec (zb x) (zb z)), (Z.ltb_spec (zb z) (zb x));
    try done; try lia. by eapply IH.
Qed.

Lemma bytes_ltb_total a b : bytes_ltb a b = false -> bytes_ltb b a = false -> a = b.
Proof.
  revert b. induction a as [|x a IH]; intros [|y b] H1 H2; try done. cbn in *.
  destruct (Z.ltb_spec (zb x) (zb y)), (Z.ltb_spec (zb y) (zb x)); try done; try lia.
  f_equal; [apply zb_inj; lia|by apply IH].
Qed.

#[global] Instance bytes_le_preorder : PreOrder bytes_le.
Proof.
  split; [intros a; apply bytes_ltb_irrefl|]. intros a b c. unfold bytes_le. intros H1 H2.
  destruct (bytes_ltb c a) eqn:E; [|done].
  destruct (bytes_ltb b c) eqn:E2; [by rewrite (bytes_ltb_trans b c a) in H1|].
  assert (b = c) as -> by by apply bytes_ltb_total. congruence.
Qed.

#[global] Instance bytes_le_antisymm : AntiSymm (=) bytes_le.
Proof. intros a b H1 H2. by apply bytes_ltb_total. Qed.

#[global] Instance bytes_le_total : Total bytes_le.
Proof.
  intros a b. unfold bytes_le. destruct (bytes_ltb b a) eqn:E; [|by left].
  right. destruct (bytes_ltb a b) eqn:E2; [|done].
  pose proof (bytes_ltb_trans _ _ _ E E2) as H. by rewrite bytes_ltb_irrefl in H.
Qed.

Lemma sort_strings_perm l : sort_strings l ≡ₚ l.
Proof. apply merge_sort_Permutation. Qed.

Lemma sort_strings_sorted l : StronglySorted bytes_le (sort_strings l).
Proof. apply (StronglySorted_merge_sort bytes_le). Qed.

(** The order in which a map was ranged over is forgotten by sorting. *)
Lemma sort_strings_proper l k : l ≡ₚ k -> sort_strings l = sort_strings k.
Proof.
  intros H. apply (StronglySorted_unique bytes_le); [apply sort_strings_sorted..|].
  by rewrite !sort_strings_perm.
Qed.

(** ** The parsed map *)

Lemma assign_loop_lookup k s addr ss x :
  assign_loop k s addr ss !! x =
  if slot_ok x && (s <=? x) && (x <? s + Z.of_nat k) then Some addr else ss !! x.
Proof.
  revert s ss. induction k as [|k IH]; intros s ss; cbn [assign_loop].
  { destruct (slot_ok x), (Z.leb_spec s x), (Z.ltb_spec x (s + Z.of_nat 0)); cbn; try done; lia. }
  rewrite IH. destruct (Z.eq_dec x s) as [->|Hne].
  - rewrite (proj2 (Z.leb_gt (s + 1) s)), (Z.leb_refl s), (proj2 (Z.ltb_lt s (s + Z.of_nat (S k)))) by lia.
    rewrite andb_false_r. destruct (slot_ok s); cbn [andb]; [by rewrite lookup_insert_eq|done].
  - assert ((if slot_ok s then <[s := addr]> ss else ss) !! x = ss !! x) as ->.
    { destruct (slot_ok s); [by rewrite lookup_insert_ne|done]. }
    destruct (slot_ok x), (Z.leb_spec s x), (Z.leb_spec (s + 1) x),
      (Z.ltb_spec x (s + 1 + Z.of_nat k)), (Z.ltb_spec x (s + Z.of_nat (S k))); cbn; try done; lia.
Qed.

Definition in_range (s : Z) (r : Z * Z) : Prop := fst r <= s <= snd r.

(** What one slot field does: the ranges grow, and a slot of a new range belongs to
    the line's node, the others keep their owner. *)
Lemma slot_field_spec addr f rs ss rs' ss' :
  slot_field addr f (rs, ss) = Ok (rs', ss') ->
  exists new, rs' = rs ++ new /\
    forall x, (slot_ok x = true -> (exists r, r ∈ new /\ in_range x r) -> ss' !! x = Some addr) /\
              (ss' !! x = ss !! x \/
               (slot_ok x = true /\ ss' !! x = Some addr /\ exists r, r ∈ new /\ in_range x r)).
Proof.
  assert (Hid : forall ss : slotmap, exists new, rs = rs ++ new /\
    forall x, (slot_ok x = true -> (exists r, r ∈ new /\ in_range x r) -> ss !! x = Some addr) /\
      (ss !! x = ss !! x \/
       (slot_ok x = true /\ ss !! x = Some addr /\ exists r, r ∈ new /\ in_range x r))).
  { intros. exists []. rewrite app_nil_r. split; [done|]. intros x. split; [|by left].
    intros _ (r & Hr & _). by apply not_elem_of_nil in Hr. }
  assert (Hnew : forall s e (new : slotmap),
    (forall x, new !! x = if slot_ok x && (s <=? x) && (x <=? e) then Some addr else ss !! x) ->
    exists n, rs ++ [(s, e)] = rs ++ n /\
    forall x, (slot_ok x = true -> (exists r, r ∈ n /\ in_range x r) -> new !! x = Some addr) /\
      (new !! x = ss !! x \/
       (slot_ok x = true /\ new !! x = Some addr /\ exists r, r ∈ n /\ in_range x r))).
  { intros s e new Hn. exists [(s, e)]. split; [done|]. intros x. rewrite Hn. split.
    - intros -> (r & Hr%list_elem_of_singleton & Hin). subst r. destruct Hin. cbn in *.
      by rewrite (proj2 (Z.leb_le s x)), (proj2 (Z.leb_le x e)).
    - destruct (slot_ok x && (s <=? x) && (x <=? e)) eqn:E; [|by left]. bool_arith.
      right. repeat split; [done|]. exists (s, e). split; [by apply list_elem_of_singleton|done]. }
  unfold slot_field. destruct (HasPrefix f (bs "[")); [intros [= <- <-]; apply Hid|].
  destruct (IndexByte f x2d) as [idx|].
  - destruct (Atoi (take idx f)) as [s|]; [|intros [= <- <-]; apply Hid].
    destruct (Atoi (drop (S idx) f)) as [e|]; [|intros [= <- <-]; apply Hid].
    destruct ((e =? 2^63 - 1) && (s <=? e)); [done|]. intros [= <- <-]. apply Hnew. intros x.
    rewrite assign_loop_lookup. destruct (slot_ok x); [|done]. cbn [andb].
    destruct (Z.leb_spec s x), (Z.leb_spec x e), (Z.ltb_spec x (s + Z.of_nat (Z.to_nat (e - s + 1))));
      cbn; try done; lia.
  - destruct (Atoi f) as [s|]; intros [= <- <-]; [|apply Hid]. apply Hnew. intros x.
    destruct (Z.eq_dec x s) as [->|Hne].
    + rewrite !Z.leb_refl, !andb_true_r. destruct (slot_ok s); [by rewrite lookup_insert_eq|done].
    + replace (slot_ok x && (s <=? x) && (x <=? s)) with false.
      * destruct (slot_ok s); [by rewrite lookup_insert_ne|done].
      * destruct (slot_ok x), (Z.leb_spec s x), (Z.leb_spec x s); cbn; try done; lia.
Qed.

Lemma slot_fields_spec addr fs rs ss rs' ss' :
  slot_fields addr fs (rs, ss) = Ok (rs', ss') ->
  exists new, rs' = rs ++ new /\
    forall x, (slot_ok x = true -> (exists r, r ∈ new /\ in_range x r) -> ss' !! x = Some addr) /\
              (ss' !! x = ss !! x \/
               (slot_ok x = true /\ ss' !! x = Some addr /\ exists r, r ∈ new /\ in_range x r)).
Proof.
  revert rs ss. induction fs as [|f fs IH]; intros rs ss H; cbn [slot_fields] in H.
  { injection H as <- <-. exists []. rewrite app_nil_r. split; [done|]. intros x. split; [|by left].
    intros _ (r & Hr & _). by apply not_elem_of_nil in Hr. }
  apply outcome_bind_inv in H as ([rs1 ss1] & Hf & H).
  apply slot_field_spec in Hf as (n1 & -> & H1). apply IH in H as (n2 & -> & H2).
  exists (n1 ++ n2). split; [by rewrite app_assoc|]. intros x.
  destruct (H1 x) as [H1a H1b], (H2 x) as [H2a H2b]. split.
  - intros Hok (r & Hr & Hin). apply elem_of_app in Hr as [Hr|Hr].
    + destruct H2b as [->|(_ & ? & _)]; [|done]. apply H1a; eauto.
    + apply H2a; eauto.
  - destruct H2b as [->|(Hok & ? & r & Hr & ?)].
    + destruct H1b as [->|(Hok & ? & r & Hr & ?)]; [by left|].
      right. repeat split; [done..|]. exists r. split; [apply elem_of_app; by left|done].
    + right. repeat split; [done..|]. exists r. split; [apply elem_of_app; by right|done].
Qed.

(** The invariant of the parser: nodes are stored under their address, a slot's
    owner announced a range that holds the slot, and every announced slot of the
    cluster has an owner. *)
Record topo_ok (ns : nodemap) (ss : slotmap) : Prop := {
  to_addr : forall a n, ns !! a = Some n -> Addr n = a;
  to_owner : forall s a, ss !! s = Some a ->
    slot_ok s = true /\ exists n r, ns !! a = Some n /\ r ∈ Slots n /\ in_range s r;
  to_covered : forall a n r s, ns !! a = Some n -> r ∈ Slots n -> in_range s r ->
    slot_ok s = true -> is_Some (ss !! s);
}.

Lemma topo_ok_insert ns ss ss' a n new :
  topo_ok ns ss -> Addr n = a ->
  Slots n = match ns !! a with Some n0 => Slots n0 | None => [] end ++ new ->
  (forall x, (slot_ok x = true -> (exists r, r ∈ new /\ in_range x r) -> ss' !! x = Some a) /\
     (ss' !! x = ss !! x \/
      (slot_ok x = true /\ ss' !! x = Some a /\ exists r, r ∈ new /\ in_range x r))) ->
  topo_ok (<[a := n]> ns) ss'.
Proof.
  intros [Ha Ho Hc] Haddr Hslots Hss. split.
  - intros b m. destruct (decide (a = b)) as [<-|Hne].
    + rewrite lookup_insert_eq. by intros [= <-].
    + rewrite lookup_insert_ne by done. apply Ha.
  - intros s b Hs. destruct (Hss s) as [_ [Heq|(Hok & Heq & r & Hr & Hin)]].
    + rewrite Heq in Hs. destruct (Ho s b Hs) as (Hok & n0 & r & Hn & Hr & Hin). split; [done|].
      destruct (decide (a = b)) as [<-|Hne].
      * exists n, r. rewrite lookup_insert_eq, Hslots, Hn, elem_of_app. auto.
      * exists n0, r. by rewrite lookup_insert_ne.
    + rewrite Heq in Hs. injection Hs as <-. split; [done|]. exists n, r.
      rewrite lookup_insert_eq, Hslots, elem_of_app. auto.
  - intros b m r s Hm Hr Hin Hok. destruct (Hss s) as [Hnew Hold].
    assert (is_Some (ss !! s) -> is_Some (ss' !! s)) as Hmono.
    { destruct Hold as [->|(_ & -> & _)]; [done|]. eauto. }
    destruct (decide (a = b)) as [<-|Hne].
    + rewrite lookup_insert_eq in Hm. injection Hm as <-. rewrite Hslots in Hr.
      apply elem_of_app in Hr as [Hr|Hr].
      * apply Hmono. destruct (ns !! a) eqn:E; [by eapply Hc|by apply not_elem_of_nil in Hr].
      * rewrite Hnew by eauto. eauto.
    + rewrite lookup_insert_ne in Hm by done. by eapply Hmono, Hc.
Qed.

Lemma parse_line_ok line ns ss ns' ss' :
  topo_ok ns ss -> parse_line line (ns, ss) = Ok (ns', ss') -> topo_ok ns' ss'.
Proof.
  intros Hok. unfold parse_line.
  destruct (Fields (TrimSpace line)) as [|nodeID [|af [|ff [|mid [|? [|? [|? [|? sf]]]]]]]];
    try by intros [= <- <-].
  set (addr := match SplitN af x40 2 with a :: _ => a | [] => [] end).
  do 3 (case_match; [by intros [= <- <-]|]).
  set (n0 := match ns !! addr with None => _ | Some _ => _ end).
  assert (Hn0 : Addr n0 = addr /\
    Slots n0 = match ns !! addr with Some n0 => Slots n0 | None => [] end).
  { subst n0. destruct (ns !! addr) as [n|] eqn:E; [|done].
    pose proof (to_addr _ _ Hok _ _ E). by case_match. }
  destruct Hn0 as [Ha Hs]. clearbody n0. destruct (has_flag (SplitByte ff x2c) "master").
  - cbn [ID Addr Role Slots Replicas MasterID]. intros Hp.
    apply outcome_bind_inv in Hp as ([rs ss1] & Hf & Hp). injection Hp as <- <-.
    rewrite Hs in Hf. apply slot_fields_spec in Hf as (new & -> & Hss).
    by eapply topo_ok_insert.
  - intros [= <- <-]. eapply (topo_ok_insert _ ss _ _ _ []); [done| | |].
    + by repeat case_match.
    + rewrite app_nil_r, <- Hs. by repeat case_match.
    + intros x. split; [|by left]. intros _ (r & Hr & _). by apply not_elem_of_nil in Hr.
Qed.

Lemma parse_lines_ok lines ns ss ns' ss' :
  topo_ok ns ss -> parse_lines lines (ns, ss) = Ok (ns', ss') -> topo_ok ns' ss'.
Proof.
  revert ns ss. induction lines as [|l lines IH]; intros ns ss Hok H; cbn [parse_lines] in H.
  { by injection H as <- <-. }
  apply outcome_bind_inv in H as ([ns1 ss1] & Hl & H). eapply IH; [|done]. by eapply parse_line_ok.
Qed.

(** Only the replica lists differ. *)
Definition same_but_replicas (n m : Node) : Prop :=
  ID n = ID m /\ Addr n = Addr m /\ Role n = Role m /\ Slots n = Slots m /\ MasterID n = MasterID m.

Lemma attach_one_same inner ns a b :
  option_Forall2 same_but_replicas (ns !! b) (attach_one inner ns a !! b).
Proof.
  assert (Hrefl : forall o : option Node, option_Forall2 same_but_replicas o o)
    by (intros []; constructor; done).
  unfold attach_one. destruct (ns !! a) as [n|]; [|done].
  case_match; [|done]. destruct (List.find _ _) as [c|]; [|done].
  destruct (decide (c = b)) as [->|Hne].
  - rewrite lookup_alter_eq. destruct (ns !! b); by constructor.
  - by rewrite lookup_alter_ne.
Qed.

Lemma same_trans n m k : same_but_replicas n m -> same_but_replicas m k -> same_but_replicas n k.
Proof. unfold same_but_replicas. intros (->&->&->&->&->) (->&->&->&->&->). done. Qed.

Lemma attach_same order inner ns b :
  option_Forall2 same_but_replicas (ns !! b) (attach_replicas order inner ns !! b).
Proof.
  unfold attach_replicas. revert ns. induction order as [|a order IH]; intros ns; cbn [foldl].
  { destruct (ns !! b); by constructor. }
  specialize (IH (attach_one inner ns a)). pose proof (attach_one_same inner ns a b) as H.
  destruct H; inversion IH; subst; constructor. by eapply same_trans.
Qed.

Lemma topo_ok_same ns ns' ss :
  (forall b, option_Forall2 same_but_replicas (ns !! b) (ns' !! b)) -> topo_ok ns ss -> topo_ok ns' ss.
Proof.
  intros Hs [Ha Ho Hc]. split.
  - intros a n Hn. specialize (Hs a). rewrite Hn in Hs. inversion Hs as [m ? Hm|]; subst.
    destruct Hm as (_ & <- & _). by apply Ha.
  - intros s a Hsa. destruct (Ho s a Hsa) as (Hok & n & r & Hn & Hr & Hin). split; [done|].
    specialize (Hs a). rewrite Hn in Hs. inversion Hs as [? m Hm|]; subst.
    exists m, r. destruct Hm as (_ & _ & _ & <- & _). done.
  - intros a n r s Hn Hr. specialize (Hs a). rewrite Hn in Hs. inversion Hs as [m ? Hm|]; subst.
    destruct Hm as (_ & _ & _ & Hsl & _). rewrite <- Hsl in Hr. by eapply Hc.
Qed.

(** ** The replica lists *)

Definition add_replica (a : bytes) (m : Node) : Node :=
  mkNode (ID m) (Addr m) (Role m) (Slots m) (Replicas m ++ [a]) (MasterID m).

Definition wants_master (n : Node) : Prop := Role n = RoleReplica /\ MasterID n <> [].

Lemma attach_one_cases inner ns a :
  (attach_one inner ns a = ns /\
   forall n b m, ns !! a = Some n -> wants_master n -> b ∈ inner a -> ns !! b = Some m ->
     ID m <> MasterID n) \/
  (exists n c mc, ns !! a = Some n /\ wants_master n /\ ns !! c = Some mc /\
     ID mc = MasterID n /\ attach_one inner ns a = <[c := add_replica a mc]> ns).
Proof.
  unfold attach_one, wants_master, is_master. destruct (ns !! a) as [n|] eqn:Ea; [|by left].
  destruct (Role n) eqn:Er; cbn [negb andb]; [left; split; [done|]; intros ? b m [= <-] [] _ _; congruence|].
  destruct (bytes_eqb (MasterID n) []) eqn:Em; cbn [negb].
  { apply bytes_eqb_eq in Em. left. split; [done|]. by intros ? b m [= <-] [] _ _. }
  assert (MasterID n <> []) by (intros E; by rewrite E in Em).
  destruct (List.find _ _) as [c|] eqn:Ef.
  - apply List.find_some in Ef as [_ Hc]. destruct (ns !! c) as [mc|] eqn:Ec; [|done].
    apply bytes_eqb_eq in Hc. right. exists n, c, mc. repeat split; [done..|].
    apply map_eq. intros b. destruct (decide (c = b)) as [<-|].
    + by rewrite lookup_alter_eq, lookup_insert_eq, Ec.
    + by rewrite lookup_alter_ne, lookup_insert_ne.
  - left. split; [done|]. intros ? b m [= <-] _ Hb Hm Heq.
    pose proof (List.find_none _ _ Ef b (proj1 (list_elem_of_In _ _) Hb)) as Hn. cbv beta in Hn.
    rewrite Hm in Hn. apply bytes_eqb_eq in Heq. congruence.
Qed.

(** Replicas in [done] are listed by one node that carries their master's id, and no
    node lists anything else or anything twice. *)
Record attach_inv (done : list bytes) (ns : nodemap) : Prop := {
  at_sound : forall b m, ns !! b = Some m -> NoDup (Replicas m) /\
    forall a, a ∈ Replicas m -> a ∈ done /\
      exists n, ns !! a = Some n /\ Role n = RoleReplica /\ MasterID n = ID m;
  at_once : forall a b b' m m', ns !! b = Some m -> ns !! b' = Some m' ->
    a ∈ Replicas m -> a ∈ Replicas m' -> b = b';
  at_all : forall a n b m, a ∈ done -> ns !! a = Some n -> wants_master n ->
    ns !! b = Some m -> ID m = MasterID n -> exists b m, ns !! b = Some m /\ a ∈ Replicas m;
}.

Lemma lookup_add (ns : nodemap) c mc a b m :
  ns !! c = Some mc -> <[c := add_replica a mc]> ns !! b = Some m ->
  exists m0, ns !! b = Some m0 /\ ID m = ID m0 /\ Role m = Role m0 /\ MasterID m = MasterID m0 /\
    Replicas m = Replicas m0 ++ (if decide (b = c) then [a] else []).
Proof.
  intros Hc. destruct (decide (b = c)) as [->|Hne].
  - rewrite lookup_insert_eq. intros [= <-]. eauto 10.
  - rewrite lookup_insert_ne by done. intros Hm. exists m. by rewrite app_nil_r.
Qed.

Lemma lookup_add_fwd (ns : nodemap) c mc a b m0 :
  ns !! c = Some mc -> ns !! b = Some m0 ->
  exists m, <[c := add_replica a mc]> ns !! b = Some m /\
    ID m = ID m0 /\ Role m = Role m0 /\ MasterID m = MasterID m0.
Proof.
  intros Hc Hb. destruct (decide (c = b)) as [->|Hne].
  - rewrite lookup_insert_eq. simplify_eq. eauto 10.
  - rewrite lookup_insert_ne by done. eauto 10.
Qed.

Lemma attach_inv_add done ns a n c mc :
  attach_inv done ns -> a ∉ done -> ns !! a = Some n -> wants_master n ->
  ns !! c = Some mc -> ID mc = MasterID n ->
  attach_inv (a :: done) (<[c := add_replica a mc]> ns).
Proof.
  intros [Hs Ho Hall] Hnew Ha [Hrole Hmid] Hc Hid.
  assert (Hfresh : forall b m, ns !! b = Some m -> a ∉ Replicas m).
  { intros b m Hb Hin. destruct (Hs b m Hb) as [_ H]. by destruct (H a Hin). }
  split.
  - intros b m Hb. destruct (lookup_add _ _ _ _ _ _ Hc Hb) as (m0 & Hb0 & HI & _ & _ & Hr).
    destruct (Hs b m0 Hb0) as [Hnd Hsound]. rewrite Hr. split.
    + apply NoDup_app. split; [done|]. destruct (decide (b = c)); split; [|by repeat constructor; set_solver| |by constructor].
      * intros x Hx ->%list_elem_of_singleton. by eapply Hfresh.
      * intros x _ Hx. by apply not_elem_of_nil in Hx.
    + intros x Hx. apply elem_of_app in Hx as [Hx|Hx].
      * destruct (Hsound x Hx) as (? & nx & Hnx & Hrx & Hmx). split; [by right|].
        destruct (lookup_add_fwd _ _ _ a _ _ Hc Hnx) as (nx' & ? & ? & ? & ?).
        exists nx'. split; [done|]. split; congruence.
      * destruct (decide (b = c)) as [->|]; [|by apply not_elem_of_nil in Hx].
        apply list_elem_of_singleton in Hx as ->. split; [by left|].
        destruct (lookup_add_fwd _ _ _ a _ _ Hc Ha) as (n' & ? & ? & ? & ?).
        exists n'. split; [done|]. split; congruence.
  - intros x b b' m m' Hb Hb' Hx Hx'.
    destruct (lookup_add _ _ _ _ _ _ Hc Hb) as (m0 & Hb0 & _ & _ & _ & Hr).
    destruct (lookup_add _ _ _ _ _ _ Hc Hb') as (m0' & Hb0' & _ & _ & _ & Hr').
    rewrite Hr in Hx. rewrite Hr' in Hx'.
    destruct (decide (b = c)) as [->|], (decide (b' = c)) as [->|]; [done| | |];
      rewrite ?app_nil_r in *.
    + apply elem_of_app in Hx as [Hx| ->%list_elem_of_singleton]; [by eapply Ho|].
      exfalso. by eapply Hfresh; [exact Hb0'|].
    + apply elem_of_app in Hx' as [Hx'| ->%list_elem_of_singleton]; [by eapply Ho|].
      exfalso. by eapply Hfresh; [exact Hb0|].
    + by eapply Ho.
  - intros x nx b m Hx Hnx [Hrx Hmx] Hb HI. apply elem_of_cons in Hx as [->|Hx].
    + exists c, (add_replica a mc). rewrite lookup_insert_eq. split; [done|].
      apply elem_of_app. right. by apply list_elem_of_singleton.
    + destruct (lookup_add _ _ _ _ _ _ Hc Hnx) as (n0 & Hn0 & ? & ? & ? & _).
      destruct (lookup_add _ _ _ _ _ _ Hc Hb) as (m0 & Hm0 & ? & _).
      destruct (Hall x n0 b m0) as (b1 & m1 & Hb1 & Hin);
        [done|done|split; congruence|done|congruence|].
      destruct (decide (b1 = c)) as [->|Hne].
      * exists c, (add_replica a mc). rewrite lookup_insert_eq. split; [done|]. simplify_eq.
        apply elem_of_app. by left.
      * exists b1, m1. by rewrite lookup_insert_ne.
Qed.

Lemma attach_inv_skip (inner : bytes -> list bytes) done ns a :
  attach_inv done ns -> (forall b m, ns !! b = Some m -> b ∈ inner a) ->
  (forall n b m, ns !! a = Some n -> wants_master n -> b ∈ inner a -> ns !! b = Some m ->
     ID m <> MasterID n) ->
  attach_inv (a :: done) ns.
Proof.
  intros [Hs Ho Hall] Hcov Hnone. split.
  - intros b m Hb. destruct (Hs b m Hb) as [Hnd H]. split; [done|]. intros x Hx.
    destruct (H x Hx). split; [by right|done].
  - done.
  - intros x n b m Hx Hn Hw Hb HI. apply elem_of_cons in Hx as [->|Hx]; [|by eapply Hall].
    exfalso. eapply Hnone; [done|done|by eapply Hcov|done|done].
Qed.

Lemma attach_inv_all order inner ns :
  NoDup order -> (forall a b m, ns !! b = Some m -> b ∈ inner a) ->
  (forall b m, ns !! b = Some m -> Replicas m = []) ->
  attach_inv (rev order) (attach_replicas order inner ns).
Proof.
  intros Hnd Hcov Hnil.
  assert (Hinit : attach_inv [] ns).
  { split.
    - intros b m Hb. rewrite (Hnil b m Hb). split; [constructor|].
      intros a Ha. by apply not_elem_of_nil in Ha.
    - intros a b b' m m' Hb _ Ha. rewrite (Hnil b m Hb) in Ha. by apply not_elem_of_nil in Ha.
    - intros a n b m Ha. by apply not_elem_of_nil in Ha. }
  unfold attach_replicas. rewrite <- (app_nil_r (rev order)). clear Hnil. revert Hinit Hcov.
  assert (Hdis : forall a, a ∈ order -> a ∉ @nil bytes) by (intros a _ H; by apply not_elem_of_nil in H).
  revert Hdis. generalize (@nil bytes) as dn. revert ns.
  induction Hnd as [|a order Ha Hnd IH]; intros ns dn Hdis Hinv Hcov; [done|].
  cbn [foldl rev]. rewrite <- app_assoc. cbn [app]. apply IH.
  - intros x Hx Hd. apply elem_of_cons in Hd as [->|Hd]; [done|]. eapply Hdis; [by right|done].
  - destruct (attach_one_cases inner ns a) as [[-> Hno]|(n & c & mc & ? & ? & ? & ? & ->)].
    + eapply attach_inv_skip; [done|by apply Hcov|done].
    + eapply attach_inv_add; [done|apply Hdis; by left|done..].
  - intros x b m Hb. pose proof (attach_one_same inner ns a b) as Hsm. rewrite Hb in Hsm.
    inversion Hsm as [m0 ? ?|]; subst. by eapply Hcov.
Qed.

Lemma parse_line_replicas line ns ss ns' ss' :
  (forall b m, ns !! b = Some m -> Replicas m = []) ->
  parse_line line (ns, ss) = Ok (ns', ss') -> forall b m, ns' !! b = Some m -> Replicas m = [].
Proof.
  intros Hnil. unfold parse_line.
  destruct (Fields (TrimSpace line)) as [|nodeID [|af [|ff [|mid [|? [|? [|? [|? sf]]]]]]]];
    try (by intros [= <- <-]).
  set (addr := match SplitN af x40 2 with a :: _ => a | [] => [] end).
  do 3 (case_match; [by intros [= <- <-]|]).
  set (n0 := match ns !! addr with None => _ | Some _ => _ end).
  assert (Hn0 : Replicas n0 = []).
  { subst n0. destruct (ns !! addr) as [n|] eqn:E; [|done]. case_match; exact (Hnil _ _ E). }
  clearbody n0.
  assert (Hins : forall n, Replicas n = [] -> forall b m, <[addr := n]> ns !! b = Some m -> Replicas m = []).
  { intros n Hn b m. destruct (decide (addr = b)) as [<-|].
    - rewrite lookup_insert_eq. by intros [= <-].
    - rewrite lookup_insert_ne by done. apply Hnil. }
  destruct (has_flag (SplitByte ff x2c) "master").
  - intros Hp. apply outcome_bind_inv in Hp as ([rs ss1] & _ & Hp). injection Hp as <- <-. by apply Hins.
  - intros [= <- <-]. apply Hins. by repeat case_match.
Qed.

Lemma parse_lines_replicas lines ns ss ns' ss' :
  (forall b m, ns !! b = Some m -> Replicas m = []) ->
  parse_lines lines (ns, ss) = Ok (ns', ss') -> forall b m, ns' !! b = Some m -> Replicas m = [].
Proof.
  revert ns ss. induction lines as [|l lines IH]; intros ns ss Hnil H; cbn [parse_lines] in H.
  { by injection H as <- <-. }
  apply outcome_bind_inv in H as ([ns1 ss1] & Hl & H). eapply IH; [|done]. by eapply parse_line_replicas.
Qed.

Lemma topo_ok_empty : topo_ok ∅ ∅.
Proof. split; intros *; by rewrite ?lookup_empty. Qed.

(** An order of the range over a map: its keys, each once. *)
Definition range_of (order : list bytes) (ns : nodemap) : Prop :=
  NoDup order /\ forall a, a ∈ order <-> is_Some (ns !! a).

(** ** Round robin *)

(** [k] consecutive calls of a query, with their results. *)
Fixpoint calls {A} (q : Topology -> A * Topology) (k : nat) (t : Topology) : list A :=
  match k with
  | O => []
  | S k => let '(r, t') := q t in r :: calls q k t'
  end.

Lemma rotate_index {A} (l : list A) (r i : nat) :
  (i < length l)%nat -> rotate r l !! i = l !! Z.to_nat ((Z.of_nat r + Z.of_nat i) mod len l).
Proof. intros Hi. rewrite lookup_rotate_r by done. done. Qed.

Section round_robin.
Context (slot : Z) (master : bytes) (t : Topology).
Context (Hslot : slot_ok slot = true) (Howner : slots (snap t) !! slot = Some master).

(** The members picked by [k] calls from counter value [c]. *)
Definition picks (l : list bytes) (c : Z) (k : nat) : list (option bytes) :=
  map (fun i => l !! Z.to_nat ((c + 1 + Z.of_nat i) mod len l)) (seq 0 k).

Lemma picks_S l c k : picks l c (S k) = l !! Z.to_nat ((c + 1) mod len l) :: picks l (c + 1) k.
Proof.
  unfold picks. cbn [seq map]. rewrite Z.add_0_r. f_equal. rewrite <- seq_shift, map_map.
  apply map_ext. intros i. do 3 f_equal. lia.
Qed.

Lemma picks_all l c : 0 <= c -> picks l c (length l) = map Some (rotate (Z.to_nat (c + 1)) l).
Proof.
  intros Hc. apply list_eq. intros i. unfold picks. rewrite !list_lookup_fmap.
  destruct (decide (i < length l)%nat) as [Hi|Hi].
  - rewrite lookup_seq_lt by done. cbn. rewrite rotate_index by done.
    replace (Z.of_nat (Z.to_nat (c + 1))) with (c + 1) by lia.
    destruct (lookup_lt_is_Some_2 l (Z.to_nat ((c + 1 + Z.of_nat i) mod len l))) as [x ->]; [|done].
    pose proof (Z.mod_pos_bound (c + 1 + Z.of_nat i) (len l)). lia.
  - rewrite lookup_seq_ge by lia. rewrite (lookup_ge_None_2 (rotate _ _)); [done|].
    rewrite length_rotate. lia.
Qed.

Lemma rotate_perm {A} n (l : list A) : rotate n l ≡ₚ l.
Proof. unfold rotate. rewrite Permutation_app_comm, take_drop. done. Qed.

Lemma replica_calls k c :
  replicas_of master (snap t) <> [] -> 0 <= c -> c + Z.of_nat k < 2^64 ->
  calls (GetReplicaForSlot slot) k (mkTopo (snap t) c (msrrCounter t) (version t))
  = picks (replicas_of master (snap t)) c k.
Proof.
  intros Hne. revert c. induction k as [|k IH]; intros c Hc Hk; [done|].
  rewrite picks_S. cbn [calls]. unfold GetReplicaForSlot at 1.
  cbn [snap rrCounter msrrCounter version]. rewrite Hslot, Howner. cbn [negb].
  destruct (Nat.eqb_spec (length (replicas_of master (snap t))) 0) as [E|E].
  { by apply length_zero_iff_nil in E. }
  rewrite wrapu64_id by lia. f_equal. apply IH; lia.
Qed.

Lemma balanced_calls k c :
  0 <= c -> c + Z.of_nat k < 2^64 ->
  calls (GetNodeForSlotBalanced slot) k (mkTopo (snap t) (rrCounter t) c (version t))
  = picks (master :: replicas_of master (snap t)) c k.
Proof.
  revert c. induction k as [|k IH]; intros c Hc Hk; [done|].
  rewrite picks_S. cbn [calls]. unfold GetNodeForSlotBalanced at 1.
  cbn [snap rrCounter msrrCounter version]. rewrite Hslot, Howner. cbn [negb].
  rewrite wrapu64_id by lia. f_equal. apply IH; lia.
Qed.

End round_robin.

(** ** Map ranges *)

Definition keys (m : nodemap) : list bytes := (map_to_list m).*1.

Lemma range_of_keys m : range_of (keys m) m.
Proof.
  split; [apply NoDup_fst_map_to_list|]. intros a. unfold keys. rewrite list_elem_of_fmap. split.
  - intros ([b n] & -> & H). apply elem_of_map_to_list in H. cbn. eauto.
  - intros [n H]. exists (a, n). split; [done|]. by apply elem_of_map_to_list.
Qed.

Lemma range_of_perm order order' m : range_of order m -> range_of order' m -> order ≡ₚ order'.
Proof. intros [Hn He] [Hn' He']. apply NoDup_Permutation; [done..|]. intros a. by rewrite He, He'. Qed.

Lemma range_of_empty order : range_of order ∅ -> order = [].
Proof.
  intros [_ H]. destruct order as [|a l]; [done|].
  destruct (proj1 (H a)) as [n Hn]; [by left|]. by rewrite lookup_empty in Hn.
Qed.

Lemma filter_Permutation_List {A} (f : A -> bool) l k :
  l ≡ₚ k -> List.filter f l ≡ₚ List.filter f k.
Proof.
  induction 1 as [|x l k _ IH|x y l|l k m _ IH1 _ IH2]; cbn; [done| | |by rewrite IH1].
  - destruct (f x); by rewrite IH.
  - destruct (f x), (f y); try done. by rewrite Permutation_swap.
Qed.

Lemma refresh_skip it fetch pre eps errs m :
  (forall p, p ∈ pre -> exists e, fetch p = Err e) ->
  exists errs', refresh_loop it fetch (pre ++ eps) errs m = refresh_loop it fetch eps errs' m.
Proof.
  revert errs. induction pre as [|p pre IH]; intros errs H; [by eexists|]. cbn [app refresh_loop].
  destruct (H p) as [e He]; [by left|]. unfold refreshFrom at 1. rewrite He. go_simp.
  apply IH. intros q Hq. apply H. by right.
Qed.

Lemma removed_spec (order : list bytes) (prev next : nodemap) (a : bytes) :
  range_of order prev ->
  a ∈ List.filter (fun a => match next !! a with Some _ => false | None => true end) order
  <-> is_Some (prev !! a) /\ next !! a = None.
Proof.
  intros [_ Ho]. rewrite list_elem_of_In, filter_In, <- list_elem_of_In, Ho.
  destruct (next !! a); split; intros [? ?]; by split.
Qed.

Definition nodes_reply : bytes :=
  bs "07c3 127.0.0.1:7000@17000 myself,master - 0 0 1 connected 0-2 5 [9->-e7d1]" ++ [LF] ++
  bs "e7d1 127.0.0.1:7001@17001 slave 07c3 0 0 1 connected" ++ [LF] ++
  bs "aa00 127.0.0.1:7002@17002 master,fail - 0 0 1 connected 6-9" ++ [LF].

(** ** Properties *)

(** The topology the proxy builds from a CLUSTER NODES reply is consistent,
    whatever the order of Go's map iterations: nodes are stored under their
    address; a slot is owned by a node that announced a range holding it, and
    every announced slot of the cluster has an owner; and each replica whose
    master is in the reply is in the replica list of exactly one node, which has
    its master's id, once, and nothing else is in those lists. *)
Lemma parse_consistent order inner raw ns ss :
  (forall m, range_of (order m) m) -> (forall m a, range_of (inner m a) m) ->
  parseClusterNodes order inner raw = Ok (ns, ss) ->
  topo_ok ns ss /\ exists dn, (forall a, a ∈ dn <-> is_Some (ns !! a)) /\ attach_inv dn ns.
Proof.
  intros Ho Hi H. unfold parseClusterNodes in H.
  apply outcome_bind_inv in H as ([ns0 ss0] & Hp & H). injection H as <- <-.
  assert (Hsame : forall b, option_Forall2 same_but_replicas (ns0 !! b)
    (attach_replicas (order ns0) (inner ns0) ns0 !! b)) by (intros; apply attach_same).
  split.
  - eapply topo_ok_same; [done|]. eapply parse_lines_ok; [apply topo_ok_empty|done].
  - destruct (Ho ns0) as [Hnd Hdom]. exists (rev (order ns0)). split.
    + intros a. rewrite list_elem_of_In, <- in_rev, <- list_elem_of_In, Hdom. specialize (Hsame a).
      inversion Hsame; split; eauto; intros []; done.
    + apply attach_inv_all; [done| |].
      * intros a b m Hb. apply (Hi ns0 a). eauto.
      * eapply parse_lines_replicas; [|done]. intros b m. by rewrite lookup_empty.
Qed.

Lemma parse_consistent_example :
  exists ns ss, parseClusterNodes keys (fun m _ => keys m) nodes_reply = Ok (ns, ss) /\
    topo_ok ns ss /\ ss !! 5 = Some (bs "127.0.0.1:7000").
Proof.
  assert (Hs : (match parseClusterNodes keys (fun m _ => keys m) nodes_reply with
    | Ok (_, ss) => ss !! 5 | _ => None end) = Some (bs "127.0.0.1:7000")) by by vm_compute.
  destruct (parseClusterNodes keys (fun m _ => keys m) nodes_reply) as [[ns ss]| | |] eqn:E;
    [|discriminate Hs..].
  exists ns, ss. split; [reflexivity|]. split; [|exact Hs].
  exact (proj1 (parse_consistent keys (fun m _ => keys m) nodes_reply ns ss
    range_of_keys (fun m _ => range_of_keys m) E)).
Defined.

(** Reads spread evenly: as many consecutive replica reads of a slot as its
    master has replicas go to each of them once, and as many balanced reads as
    the shard has nodes go to the master and each replica once (from any counter
    value that does not overflow on the way). *)
Lemma reads_round_robin slot master t :
  slot_ok slot = true -> slots (snap t) !! slot = Some master ->
  let rs := replicas_of master (snap t) in
  0 <= rrCounter t < 2^64 - len rs -> 0 <= msrrCounter t < 2^64 - len rs - 1 ->
  (rs <> [] -> calls (GetReplicaForSlot slot) (length rs) t ≡ₚ map Some rs) /\
  calls (GetNodeForSlotBalanced slot) (S (length rs)) t ≡ₚ map Some (master :: rs).
Proof.
  intros Hslot Howner rs Hr Hm. destruct t as [sn rr ms v]. cbn [snap rrCounter msrrCounter] in *.
  split.
  - intros Hne. pose proof (replica_calls slot master (mkTopo sn rr ms v) Hslot Howner (length rs) rr Hne)
      as H. cbn [snap msrrCounter version] in H. fold rs in H.
    rewrite H, picks_all by lia. by rewrite rotate_perm.
  - pose proof (balanced_calls slot master (mkTopo sn rr ms v) Hslot Howner (S (length rs)) ms) as H.
    cbn [snap rrCounter version] in H. fold rs in H.
    rewrite H by lia. change (S (length rs)) with (length (master :: rs)).
    rewrite picks_all by lia. by rewrite rotate_perm.
Qed.

Definition two_replicas : Topology :=
  mkTopo (mkSnap {[bs "m:1" := mkNode (bs "A") (bs "m:1") RoleMaster [(0, 9)] [bs "r:1"; bs "r:2"] []]}
            {[5 := bs "m:1"]} [bs "m:1"] 1 []) 7 3 1.

Lemma reads_round_robin_witness :
  calls (GetReplicaForSlot 5) 2 two_replicas ≡ₚ [Some (bs "r:1"); Some (bs "r:2")].
Proof.
  refine (proj1 (reads_round_robin 5 (bs "m:1") two_replicas eq_refl _ _ _) _);
    [reflexivity|vm_compute; split; congruence..|discriminate].
Defined.

(** What a refresh publishes does not depend on the order of Go's map
    iterations: the master list is sorted and holds exactly the addresses of the
    masters, and the fingerprint is the same for every order. *)
Lemma update_order_independent order ns ss fp t :
  range_of order ns ->
  let t' := Update order ns ss fp t in
  StronglySorted bytes_le (AllMasters t') /\
  (forall a, a ∈ AllMasters t' <-> exists n, ns !! a = Some n /\ Role n = RoleMaster) /\
  (forall order', range_of order' ns ->
     Update order' ns ss fp t = t' /\ topoFingerprint order' ns = topoFingerprint order ns).
Proof.
  intros Ho t'. split; [apply sort_strings_sorted|split].
  - intros a. unfold AllMasters, t', Update. cbn [masters snap]. rewrite sort_strings_perm.
    rewrite list_elem_of_In, filter_In, <- list_elem_of_In. destruct Ho as [_ ->].
    destruct (ns !! a) as [n|]; unfold is_master.
    + split.
      * intros [_ Hm]. exists n. by destruct (Role n).
      * intros (n' & [= <-] & ->). eauto.
    + split; [intros [[? ?] ?]; done|]. by intros (? & ? & _).
  - intros order' Ho'. pose proof (range_of_perm _ _ _ Ho Ho') as Hp.
    split.
    + unfold t', Update. do 2 f_equal. apply sort_strings_proper. by apply filter_Permutation_List.
    + unfold topoFingerprint. f_equal. apply sort_strings_proper. by rewrite Hp.
Qed.

Lemma update_order_independent_witness :
  StronglySorted bytes_le (AllMasters (Update (keys (nodes (snap two_replicas)))
    (nodes (snap two_replicas)) ∅ [] NewTopology)).
Proof.
  refine (proj1 (update_order_independent _ (nodes (snap two_replicas)) ∅ [] NewTopology _)).
  apply range_of_keys.
Defined.

(** A refresh takes the first entry point that answers: those before it only
    add to the error, the topology's version grows by one, the parsed nodes and
    slots replace the old ones at once, and when the fingerprint changed the entry
    points become the sorted addresses of the new nodes and the hook gets the
    addresses that disappeared. *)
Lemma refresh_first_answer it fetch m pre ep post raw ns ss :
  entryPoints m = pre ++ ep :: post ->
  (forall p, p ∈ pre -> exists e, fetch p = Err e) -> fetch ep = Ok raw ->
  parseClusterNodes (it_attach it) (it_inner it) raw = Ok (ns, ss) ->
  range_of (it_removed it (nodes (snap (topo m)))) (nodes (snap (topo m))) ->
  range_of (it_entries it ns) ns ->
  exists m', refresh it fetch m = Ok m' /\
    nodes (snap (topo m')) = ns /\ slots (snap (topo m')) = ss /\
    version (topo m') = wrap64 (version (topo m) + 1) /\
    (fingerprint (snap (topo m')) <> fingerprint (snap (topo m)) ->
       StronglySorted bytes_le (entryPoints m') /\
       (forall a, a ∈ entryPoints m' <-> is_Some (ns !! a)) /\
       exists gone, (forall a, a ∈ gone <-> is_Some (nodes (snap (topo m)) !! a) /\ ns !! a = None) /\
         removedHooks m' = removedHooks m ++ (if (0 <? length gone)%nat then [gone] else [])).
Proof.
  intros Heps Hpre Hep Hparse Hrem Hent. unfold refresh. rewrite Heps.
  destruct (refresh_skip it fetch pre (ep :: post) [] m Hpre) as [errs ->]. cbn [refresh_loop]. unfold refreshFrom. rewrite Hep. go_simp.
  rewrite Hparse. go_simp.
  set (fp := topoFingerprint _ _). set (t' := Update _ _ _ _ _).
  destruct (bytes_eqb fp (fingerprint (snap (topo m)))) eqn:E.
  - apply bytes_eqb_eq in E. eexists. split; [reflexivity|].
    split; [done|]. split; [done|]. split; [done|]. by intros [].
  - eexists. split; [reflexivity|]. cbn [onTopologyChanged topo entryPoints removedHooks].
    split; [done|]. split; [done|]. split; [done|]. intros _.
    split; [apply sort_strings_sorted|]. split.
    + intros a. rewrite sort_strings_perm. apply Hent.
    + eexists. split; [intros a; by apply removed_spec|]. case_match; [done|]. by rewrite app_nil_r.
Qed.

(** Every range visits the keys in the map's own order. *)
Definition plain_iteration : iteration := mkIter keys (fun m _ => keys m) keys keys keys keys.

Definition fresh_manager : Manager := mkManager [bs "a:1"; bs "b:2"] NewTopology false [].

Definition second_answers (a : bytes) : outcome bytes :=
  if bytes_eqb a (bs "a:1") then Err (Errorf (bs "refused")) else Ok nodes_reply.

Lemma refresh_first_answer_witness :
  exists m', refresh plain_iteration second_answers fresh_manager = Ok m' /\
    version (topo m') = 1.
Proof.
  assert (Hs : (match parseClusterNodes keys (fun m _ => keys m) nodes_reply with
    | Ok _ => true | _ => false end) = true) by by vm_compute.
  destruct (parseClusterNodes keys (fun m _ => keys m) nodes_reply) as [[ns ss]| | |] eqn:E;
    [|discriminate Hs..].
  destruct (refresh_first_answer plain_iteration second_answers fresh_manager [bs "a:1"] (bs "b:2") []
    nodes_reply ns ss eq_refl) as (m' & Hm & _ & _ & Hv & _).
  - intros p ->%list_elem_of_singleton. by eexists.
  - reflexivity.
  - exact E.
  - apply range_of_keys.
  - apply range_of_keys.
  - exists m'. split; [exact Hm|]. rewrite Hv. by vm_compute.
Defined.

(** An entry point that answers with no usable node (for instance a node that was
    just reset and lists only itself, without an address) is fatal: the entry points
    become the empty list, and every later refresh fails without asking anyone. *)
Lemma refresh_empty_reply_fatal it fetch m ep rest raw ns ss :
  entryPoints m = ep :: rest -> fetch ep = Ok raw ->
  parseClusterNodes (it_attach it) (it_inner it) raw = Ok (ns, ss) -> ns = ∅ ->
  (forall k, range_of (it_finger it k) k) -> (forall k, range_of (it_entries it k) k) ->
  fingerprint (snap (topo m)) <> [] ->
  exists m', refresh it fetch m = Ok m' /\ entryPoints m' = [] /\
    forall it' fetch', refresh it' fetch' m' = Err (refresh_failed []).
Proof.
  intros Heps Hf Hparse -> Hfi Hen Hfp. unfold refresh at 1. rewrite Heps. cbn [refresh_loop].
  unfold refreshFrom. rewrite Hf. go_simp. rewrite Hparse. go_simp.
  assert (Hfin : topoFingerprint (it_finger it ∅) ∅ = []).
  { by rewrite (range_of_empty _ (Hfi ∅)). }
  rewrite Hfin. destruct (bytes_eqb [] _) eqn:E; [by apply bytes_eqb_eq in E|].
  eexists. split; [reflexivity|]. unfold refresh. cbn [onTopologyChanged entryPoints].
  rewrite (range_of_empty _ (Hen ∅)). split; reflexivity.
Qed.

Definition reset_reply : bytes := bs "07c3 :0@0 myself,master - 0 0 0 connected".

Lemma refresh_empty_reply_fatal_witness :
  exists m', refresh plain_iteration (fun _ => Ok reset_reply)
      (mkManager [bs "a:1"] (Update [] ∅ ∅ (bs "a:1:m:0-16383,") NewTopology) false []) = Ok m' /\
    entryPoints m' = [] /\ forall it' fetch', refresh it' fetch' m' = Err (refresh_failed []).
Proof.
  apply (refresh_empty_reply_fatal plain_iteration (fun _ => Ok reset_reply) _ (bs "a:1") []
    reset_reply ∅ ∅); [reflexivity|reflexivity|vm_compute; reflexivity|reflexivity| | |discriminate];
    intros; apply range_of_keys.
Defined.
