(* ===== verification/GoFlag.v ===== *)
(** * GoFlag: the command line

    What [cmd/pluster/main.go] uses of the packages [flag] and [strconv]: the flags it
    declares, [flag.Parse] with the values [strconv.ParseInt] (base 0, with prefixes and
    underscores) and [strconv.ParseBool] take, and the text of [flag.PrintDefaults].

    [parse_settings]: the arguments written for a list of settings are read back; of
    several settings of a flag the last holds. *)

From S2P Require Import Prelude GoStd GoTime Config Topology.

(** ** Integers with a base prefix *)

(** [c | ('x' - 'X')] *)
Definition lower_bit (c : byte) : Z := Z.lor (zb c) 32.

Definition base_prefix (c : byte) : option Z :=
  if lower_bit c =? 98 then Some 2 else if lower_bit c =? 111 then Some 8 else if lower_bit c =? 120 then Some 16 else None.

(** The loop of [underscoreOK]; [last] is [^] at the start, then the class of the last byte. *)
Inductive uclass := UStart | UDigit | UUnder | UOther.

Fixpoint underscore_loop (hex : bool) (last : uclass) (l : bytes) : bool :=
  match l with
  | [] => match last with UUnder => false | _ => true end
  | c :: l =>
      if is_digit c || (hex && (97 <=? lower_bit c) && (lower_bit c <=? 102)) then underscore_loop hex UDigit l
      else if c =b x5f then match last with UDigit => underscore_loop hex UUnder l | _ => false end
      else match last with UUnder => false | _ => underscore_loop hex UOther l end
  end.

Definition underscoreOK (l : bytes) : bool :=
  match l with
  | x30 :: c :: l' =>
      match base_prefix c with
      | Some b => underscore_loop (b =? 16) UDigit l'
      | None => underscore_loop false UStart l
      end
  | _ => underscore_loop false UStart l
  end.

Definition any_digit (c : byte) : option Z :=
  if is_digit c then Some (digit_val c)
  else if (97 <=? lower_bit c) && (lower_bit c <=? 122) then Some (lower_bit c - 87)
  else None.

(** The digits of [strconv.ParseUint] in base 0; [None] on a syntax or range error. *)
Fixpoint uint_loop (base n : Z) (under : bool) (l : bytes) : option (Z * bool) :=
  match l with
  | [] => Some (n, under)
  | c :: l =>
      if c =b x5f then uint_loop base n true l
      else match any_digit c with
           | None => None
           | Some d =>
               if base <=? d then None
               else if 2^64 <=? n * base + d then None
               else uint_loop base (n * base + d) under l
           end
  end.

(** The base a literal names and the rest of it. *)
Definition split_base (l : bytes) : Z * bytes :=
  match l with
  | x30 :: l1 =>
      match l1 with
      | c :: (_ :: _) as l2 => match base_prefix c with Some b => (b, drop 1 l1) | None => (8, l1) end
      | _ => (8, l1)
      end
  | _ => (10, l)
  end.

Definition ParseUint0 (l : bytes) : option Z :=
  match l with
  | [] => None
  | _ =>
      let '(base, ds) := split_base l in
      match uint_loop base 0 false ds with
      | Some (n, under) => if under && negb (underscoreOK l) then None else Some n
      | None => None
      end
  end.

(** [strconv.ParseInt(s, 0, 64)] *)
Definition ParseInt0 (l : bytes) : option Z :=
  let '(neg, ds) := match l with
                    | x2d :: l' => (true, l')
                    | x2b :: l' => (false, l')
                    | _ => (false, l)
                    end in
  n ← ParseUint0 ds;
  if neg then if n <=? 2^63 then Some (- n) else None
  else if n <? 2^63 then Some n else None.

Definition ParseBool (l : bytes) : option bool :=
  if existsb (bytes_eqb l) (map bs ["1"; "t"; "T"; "TRUE"; "true"; "True"]%string) then Some true
  else if existsb (bytes_eqb l) (map bs ["0"; "f"; "F"; "FALSE"; "false"; "False"]%string) then Some false
  else None.

(** ** The flags of [main] *)

Inductive flag_kind := KInt | KString | KBool.

Record flag_decl := mkDecl {
  d_name : bytes;
  d_kind : flag_kind;
  d_default : bytes;
  d_usage : bytes;
}.

(** In the order [flag.PrintDefaults] lists them: by name. *)
Definition declared : list flag_decl :=
  [ mkDecl (bs "auth") KString [] (bs "Backend cluster password");
    mkDecl (bs "auth-user") KString [] (bs "Backend cluster username (Redis 6+ ACL)");
    mkDecl (bs "bind") KString (bs "0.0.0.0") (bs "Bind address");
    mkDecl (bs "c") KString [] (bs "Config file path");
    mkDecl (bs "log-level") KString (bs "info") (bs "Log level (debug/info/warn/error)");
    mkDecl (bs "pool-size") KInt (bs "10") (bs "Connection pool size per node");
    mkDecl (bs "port") KInt (bs "7777") (bs "Proxy listen port");
    mkDecl (bs "pprof") KString [] (bs "Enable pprof HTTP server on this address (e.g. 127.0.0.1:6060)");
    mkDecl (bs "version") KBool (bs "false") (bs "Print version and exit") ].

Definition kind_of (name : bytes) : option flag_kind := d_kind <$> List.find (fun d => bytes_eqb name (d_name d)) declared.

Inductive flag_value := VInt (n : Z) | VString (s : bytes) | VBool (b : bool).

(** [Value.Set] *)
Definition read_value (k : flag_kind) (s : bytes) : option flag_value :=
  match k with
  | KInt => VInt <$> ParseInt0 s
  | KString => Some (VString s)
  | KBool => VBool <$> ParseBool s
  end.

(** The variable of a flag and the set of the flags that were set, which [flag.Visit] goes
    through by name. *)
Definition visit (name : bytes) (l : list bytes) : list bytes :=
  if existsb (bytes_eqb name) l then l else sort_strings (name :: l).

Definition store (name : bytes) (v : flag_value) (f : flags) : flags :=
  let int n old := match v with VInt z => if bytes_eqb name (bs n) then z else old | _ => old end in
  let str n old := match v with VString s => if bytes_eqb name (bs n) then s else old | _ => old end in
  let bln n old := match v with VBool b => if bytes_eqb name (bs n) then b else old | _ => old end in
  mkFlags (int "port"%string (flagPort f)) (str "bind"%string (flagBind f)) (str "auth"%string (flagPassword f))
    (str "auth-user"%string (flagUsername f)) (int "pool-size"%string (flagPoolSize f)) (str "c"%string (flagConfig f))
    (str "log-level"%string (flagLogLevel f)) (bln "version"%string (flagVersion f)) (str "pprof"%string (flagPprof f))
    (visit name (visited f)) (Args_ f).

Definition set_args (l : list bytes) (f : flags) : flags :=
  mkFlags (flagPort f) (flagBind f) (flagPassword f) (flagUsername f) (flagPoolSize f) (flagConfig f) (flagLogLevel f)
    (flagVersion f) (flagPprof f) (visited f) l.

(** ** [flag.Parse] *)

(** The flags, the request for help, or an error. *)
Inductive parsed := PFlags (f : flags) | PHelp | PError.

(** [name] up to the first [=] after its first byte, and the value behind it. *)
Fixpoint cut_value (l : bytes) : bytes * option bytes :=
  match l with
  | [] => ([], None)
  | c :: l' => if c =b x3d then ([], Some l') else let '(n, v) := cut_value l' in (c :: n, v)
  end.

Definition flag_name (s : bytes) : bytes := match s with x2d :: x2d :: l => l | _ :: l => l | [] => [] end.

Fixpoint parse_args (args : list bytes) (f : flags) : parsed :=
  match args with
  | [] => PFlags (set_args [] f)
  | s :: rest =>
      if (length s <? 2)%nat || negb (HasPrefix s (bs "-")) then PFlags (set_args args f)
      else if bytes_eqb s (bs "--") then PFlags (set_args rest f)
      else
      match flag_name s with
      | [] => PError
      | c :: l =>
          if (c =b x2d) || (c =b x3d) then PError else
          let '(n, value) := cut_value l in
          let name := c :: n in
          match kind_of name with
          | None => if bytes_eqb name (bs "help") || bytes_eqb name (bs "h") then PHelp else PError
          | Some KBool =>
              match read_value KBool (default (bs "true") value) with
              | Some v => parse_args rest (store name v f)
              | None => PError
              end
          | Some k =>
              match value, rest with
              | Some s, _ => match read_value k s with Some v => parse_args rest (store name v f) | None => PError end
              | None, s :: rest => match read_value k s with Some v => parse_args rest (store name v f) | None => PError end
              | None, [] => PError
              end
          end
      end
  end.

Definition Parse (args : list bytes) : parsed := parse_args args default_flags.

(** ** [flag.PrintDefaults] *)

(** [%q] of a string without quotes, backslashes and other than printing ASCII bytes. *)
Definition Quote_plain (s : bytes) : bytes := [x22] ++ s ++ [x22].

Definition default_line (d : flag_decl) : bytes :=
  let head := bs "  -" ++ d_name d ++
    match d_kind d with KInt => bs " int" | KString => bs " string" | KBool => [] end in
  let zero := match d_kind d with KInt => bytes_eqb (d_default d) (bs "0") | KString => bytes_eqb (d_default d) []
              | KBool => bytes_eqb (d_default d) (bs "false") end in
  head ++ (if (length head <=? 4)%nat then [x09] else LF :: bs "    " ++ [x09]) ++ d_usage d ++
  (if zero then []
   else match d_kind d with
        | KString => bs " (default " ++ Quote_plain (d_default d) ++ bs ")"
        | _ => bs " (default " ++ d_default d ++ bs ")"
        end) ++ [LF].

Definition PrintDefaults : bytes := concat (map default_line declared).

Example parse_line :
  Parse (map bs ["-port=0x1F_90"; "--version=F"; "-c"; "p.conf"; "-port"; "0o17"; "a:1"; "-x"]%string)
  = PFlags (mkFlags 15 (bs "0.0.0.0") [] [] 10 (bs "p.conf") (bs "info") false [] (map bs ["c"; "port"; "version"]%string)
      (map bs ["a:1"; "-x"]%string)).
Proof. vm_compute. reflexivity. Qed.

(** ** Arguments are read back *)

Lemma fmt_digits_head fuel n :
  0 < n < 10 ^ Z.of_nat fuel -> exists c l, fmt_digits fuel n [] = c :: l /\ c <> x30.
Proof.
  revert n. induction fuel as [|fuel IH]; intros n Hn; [change (10 ^ Z.of_nat 0) with 1 in Hn; lia|]. cbn [fmt_digits]. case_bool.
  - eexists _, []. split; [reflexivity|]. rewrite Z.mod_small by lia. intros Hz. apply (f_equal digit_val) in Hz.
    rewrite digit_val_digit in Hz by lia. change (digit_val x30) with 0 in Hz. lia.
  - rewrite fmt_digits_app. destruct (IH (n / 10)) as (c & l & -> & Hc); [|by eexists c, _].
    rewrite Nat2Z.inj_succ, Z.pow_succ_r in Hn by lia.
    split; [apply Z.div_str_pos; lia|apply Z.div_lt_upper_bound; lia].
Qed.

Lemma uint_loop_digits l n : forallb is_digit l = true -> 0 <= n -> dec_value n l < 2^64 ->
  uint_loop 10 n false l = Some (dec_value n l, false).
Proof.
  revert n. induction l as [|c l IH]; intros n Hl Hn Hv; [done|]. cbn [forallb dec_value uint_loop] in *.
  apply andb_true_iff in Hl as [Hc Hl]. assert ((c =b x5f) = false) as -> by (by destruct c).
  unfold any_digit. rewrite Hc. assert (0 <= digit_val c <= 9) as Hd by (unfold is_digit, digit_val in *; bool_arith; lia).
  pose proof (dec_value_ge l (n * 10 + digit_val c) ltac:(lia) Hl).
  rewrite (proj2 (Z.leb_gt _ _)) by lia. rewrite (proj2 (Z.leb_gt _ _)) by lia. apply IH; [done|lia|done].
Qed.

Lemma split_base_decimal c l : c <> x30 -> split_base (c :: l) = (10, c :: l).
Proof. destruct c; reflexivity || by intros []. Qed.

Lemma ParseUint0_digits m : 0 <= m < 2^64 -> ParseUint0 (fmt_digits 20 m []) = Some m.
Proof.
  intros Hm. destruct (decide (m = 0)) as [->|Hne]; [reflexivity|].
  assert (2^64 < 10 ^ Z.of_nat 20) as Hp by reflexivity.
  destruct (fmt_digits_head 20 m) as (c & l & E & Hc); [lia|].
  pose proof (dec_value_fmt 20 m ltac:(lia)) as Hv. pose proof (fmt_digits_digits 20 m) as Hd. rewrite E in *.
  unfold ParseUint0. rewrite split_base_decimal by exact Hc.
  rewrite uint_loop_digits, Hv; [done|done|lia|lia].
Qed.

Lemma ParseInt0_FormatInt n : int64_range n -> ParseInt0 (FormatInt n) = Some n.
Proof.
  intros Hn. unfold int64_range in Hn. unfold FormatInt. case_bool.
  - unfold ParseInt0. rewrite ParseUint0_digits by lia. cbn [mbind option_bind]. rewrite (proj2 (Z.leb_le _ _)) by lia. by rewrite Z.opp_involutive.
  - unfold ParseInt0. pose proof (ParseUint0_digits n ltac:(lia)) as Hp. pose proof (fmt_digits_digits 20 n) as Hd.
    destruct (fmt_digits 20 n []) as [|c l]; [done|]. cbn [forallb] in Hd. apply andb_true_iff in Hd as [Hc _].
    replace (match c :: l with x2d :: l' => (true, l') | x2b :: l' => (false, l') | _ => (false, c :: l) end)
      with (false, c :: l) by (by destruct c).
    rewrite Hp. cbn [mbind option_bind]. by rewrite (proj2 (Z.ltb_lt _ _)) by lia.
Qed.

Lemma cut_value_eq l r : (x3d ∉ l) -> cut_value (l ++ x3d :: r) = (l, Some r).
Proof.
  induction l as [|c l IH]; intros Hl; [done|]. apply not_elem_of_cons in Hl as [Hc Hl]. cbn.
  rewrite (proj2 (byte_eqb_neq c x3d)) by congruence. by rewrite IH.
Qed.

Lemma cut_value_none l : (x3d ∉ l) -> cut_value l = (l, None).
Proof.
  induction l as [|c l IH]; intros Hl; [done|]. apply not_elem_of_cons in Hl as [Hc Hl]. cbn.
  rewrite (proj2 (byte_eqb_neq c x3d)) by congruence. by rewrite IH.
Qed.

(** The names of the flags. *)
Lemma declared_name name k : kind_of name = Some k ->
  exists c l, name = c :: l /\ c <> x2d /\ c <> x3d /\ (x3d ∉ l).
Proof.
  unfold kind_of. destruct (List.find _ declared) as [d|] eqn:E; [|done]. intros _.
  apply find_some in E as [Hin ->%bytes_eqb_eq].
  assert (forallb (fun d => match d_name d with
    | c :: l => bool_decide (c <> x2d) && bool_decide (c <> x3d) && bool_decide (x3d ∉ l)
    | [] => false end) declared = true) as Hall by (vm_compute; reflexivity).
  rewrite forallb_forall in Hall. apply Hall in Hin. destruct (d_name d) as [|c l]; [done|]. exists c, l.
  apply andb_true_iff in Hin as [[H1 H2]%andb_true_iff H3]. apply bool_decide_eq_true in H1, H2, H3. done.
Qed.

(** A flag with a value, and the arguments that set it. *)
Definition setting : Type := bytes * flag_value.
Definition setting_fits (s : setting) : Prop :=
  match kind_of (fst s), snd s with
  | Some KInt, VInt n => int64_range n
  | Some KString, VString _ | Some KBool, VBool _ => True
  | _, _ => False
  end.
Definition setting_args (s : setting) : list bytes :=
  match snd s with
  | VInt n => [x2d :: fst s; FormatInt n]
  | VString v => [x2d :: fst s; v]
  | VBool b => [x2d :: fst s ++ x3d :: bs (if b then "true" else "false")]
  end.

Lemma parse_setting s rest f : setting_fits s ->
  parse_args (setting_args s ++ rest) f = parse_args rest (store (fst s) (snd s) f).
Proof.
  destruct s as [name v]. unfold setting_fits, setting_args. cbn [fst snd]. destruct (kind_of name) as [k|] eqn:Ek; [|done].
  intros Hv. destruct (declared_name _ _ Ek) as (c & l & -> & Hc1 & Hc2 & Hl).
  assert (Hbase : forall l', (length (x2d :: c :: l') <? 2)%nat || negb (HasPrefix (x2d :: c :: l') (bs "-")) = false /\
    bytes_eqb (x2d :: c :: l') (bs "--") = false /\ flag_name (x2d :: c :: l') = c :: l' /\ (c =b x2d) || (c =b x3d) = false).
  { intros l'. split; [done|]. split; [|split; [by destruct c|]].
    - apply not_true_is_false. intros [= ->]%bytes_eqb_eq. done.
    - by rewrite (proj2 (byte_eqb_neq c x2d)), (proj2 (byte_eqb_neq c x3d)). }
  assert (Hone : forall l' value rest', cut_value l' = (l, value) -> parse_args ((x2d :: c :: l') :: rest') f
    = match k with
      | KBool => match read_value KBool (default (bs "true") value) with
                 | Some v => parse_args rest' (store (c :: l) v f) | None => PError end
      | _ => match value, rest' with
             | Some s, _ => match read_value k s with Some v => parse_args rest' (store (c :: l) v f) | None => PError end
             | None, s :: rest' => match read_value k s with Some v => parse_args rest' (store (c :: l) v f) | None => PError end
             | None, [] => PError
             end
      end).
  { intros l' value rest' Hcut. cbn [parse_args]. destruct (Hbase l') as (-> & -> & -> & ->). rewrite Hcut. cbv zeta. rewrite Ek.
    by destruct k. }
  destruct k, v as [n|v|b]; try done; cbn [app].
  - rewrite (Hone l None) by (by apply cut_value_none). cbn [read_value]. by rewrite ParseInt0_FormatInt.
  - by rewrite (Hone l None) by (by apply cut_value_none).
  - rewrite (Hone _ (Some (bs (if b then "true" else "false")))) by (by apply cut_value_eq). by destruct b.
Qed.

(** The flags after settings that follow each other. *)
Definition apply_settings (ss : list setting) (f : flags) : flags := foldl (fun f s => store (fst s) (snd s) f) f ss.

Lemma parse_settings ss rest f :
  Forall setting_fits ss -> parse_args (concat (map setting_args ss) ++ rest) f = parse_args rest (apply_settings ss f).
Proof.
  intros Hs. revert f. induction Hs as [|s ss Hs _ IH]; intros f; [done|]. cbn [map concat]. rewrite <- app_assoc, parse_setting by done.
  apply IH.
Qed.
