(* ===== verification/TopoLog.v ===== *)
(** * TopoLog: what the topology manager reports

    Model of [logTopology] of [pkg/cluster/topology.go] (the records it writes after a
    change of the cluster), of [Node.String], [AllNodes] and [Version].  The report does
    not depend on the order in which Go's map is ranged over ([report_order]), and its
    count of covered slots is 16384 exactly when every slot has an owner
    ([report_covers]). *)

From stdpp Require Import sorting.
From S2P Require Import Prelude GoStd Crc16 Topology.

Definition Node_String (n : Node) : bytes :=
  bs "Node{id=" ++ ID n ++ bs ", addr=" ++ Addr n ++ bs ", role=" ++
  FormatInt (match Role n with RoleMaster => 0 | RoleReplica => 1 end) ++ bs "}".

(** [order] is the order of the range over the nodes. *)
Definition AllNodes (order : list bytes) (t : Topology) : list Node := omap (fun a => nodes (snap t) !! a) order.
Definition Version (t : Topology) : Z := version t.

(** A log record: the message and its attributes. *)
Definition record : Type := bytes * list (bytes * bytes).

Definition addr_le (n m : Node) : Prop := bytes_le (Addr n) (Addr m).
#[global] Instance addr_le_dec : RelDecision addr_le.
Proof. intros n m. unfold addr_le. apply _. Defined.

Definition log_masters (order : list bytes) (ns : nodemap) : list Node :=
  merge_sort addr_le (List.filter is_master (omap (fun a => ns !! a) order)).

Definition coveredSlots (ss : slotmap) : Z :=
  len (List.filter (fun i => match ss !! Z.of_nat i with Some _ => true | None => false end) (seq 0 (Z.to_nat ClusterSlots))).

Definition log_range (r : Z * Z) : bytes :=
  if fst r =? snd r then FormatInt (fst r) else FormatInt (fst r) ++ bs "-" ++ FormatInt (snd r).

Definition log_master (m : Node) : record :=
  (bs "  master node", [(bs "addr", Addr m); (bs "slots", Join (bs ",") (map log_range (Slots m)));
                        (bs "replicas", Join (bs ",") (Replicas m))]).

Definition logTopology (order : list bytes) (ns : nodemap) (ss : slotmap) : list record :=
  let masters := log_masters order ns in
  (bs "cluster topology refreshed",
   [(bs "masters", FormatInt (len masters)); (bs "total_nodes", FormatInt (Z.of_nat (size ns)));
    (bs "slots_covered", FormatInt (coveredSlots ss) ++ bs "/16384")])
  :: map log_master masters.

(** ** The report and the order of the map *)

#[global] Instance addr_le_total : Total addr_le.
Proof. intros n m. apply bytes_le_total. Qed.
#[global] Instance addr_le_trans : Transitive addr_le.
Proof. intros n m k. unfold addr_le. apply transitivity. Qed.

Lemma omap_perm {A B} (f : A -> option B) l k : l ≡ₚ k -> omap f l ≡ₚ omap f k.
Proof. intros H. by rewrite H. Qed.

Lemma filter_perm {A} (f : A -> bool) l k : l ≡ₚ k -> List.filter f l ≡ₚ List.filter f k.
Proof.
  induction 1 as [|x l k _ IH|x y l|l k j _ IH1 _ IH2]; cbn; [done| | |by rewrite IH1].
  - destruct (f x); [by constructor|done].
  - destruct (f x), (f y); [apply Permutation_swap|done..].
Qed.

(** Nodes are kept under their address. *)
Definition keyed (ns : nodemap) : Prop := forall a n, ns !! a = Some n -> Addr n = a.

Lemma log_masters_elem order ns n : n ∈ log_masters order ns <-> is_master n = true /\ exists a, a ∈ order /\ ns !! a = Some n.
Proof.
  unfold log_masters. rewrite merge_sort_Permutation, list_elem_of_In, filter_In, <- list_elem_of_In, list_elem_of_omap. tauto.
Qed.

Lemma log_masters_order o1 o2 ns : keyed ns -> o1 ≡ₚ o2 -> log_masters o1 ns = log_masters o2 ns.
Proof.
  intros Hk Hp. apply (StronglySorted_unique_strong addr_le).
  - intros n m (_ & a & _ & Ha)%log_masters_elem (_ & b & _ & Hb)%log_masters_elem H1 H2.
    assert (Addr n = Addr m) as E by (by apply (anti_symm bytes_le)). rewrite (Hk _ _ Ha), (Hk _ _ Hb) in E. subst b.
    rewrite Ha in Hb. by injection Hb.
  - apply (StronglySorted_merge_sort addr_le).
  - apply (StronglySorted_merge_sort addr_le).
  - unfold log_masters. rewrite !merge_sort_Permutation. by apply filter_perm, omap_perm.
Qed.

Lemma report_order o1 o2 ns ss : topo_ok ns ss -> range_of o1 ns -> range_of o2 ns -> logTopology o1 ns ss = logTopology o2 ns ss.
Proof. intros [Hk _ _] H1 H2. unfold logTopology. rewrite (log_masters_order o1 o2 ns Hk); [done|]. by eapply range_of_perm. Qed.

(** Every master of the cluster is reported, once and by address, and nothing else. *)
Lemma report_masters order ns ss : topo_ok ns ss -> range_of order ns ->
  exists ms, logTopology order ns ss = hd (bs "", []) (logTopology order ns ss) :: map log_master ms /\
    StronglySorted addr_le ms /\ forall n, n ∈ ms <-> is_master n = true /\ ns !! Addr n = Some n.
Proof.
  intros [Hk _ _] Ho. exists (log_masters order ns). split; [done|]. split; [apply (StronglySorted_merge_sort addr_le)|].
  intros n. rewrite log_masters_elem. split; intros [Hm Ha]; (split; [done|]).
  - destruct Ha as (a & _ & Ha). by rewrite (Hk _ _ Ha).
  - exists (Addr n). split; [|done]. apply Ho. by eexists.
Qed.

Lemma filter_all {A} (f : A -> bool) l : length (List.filter f l) = length l <-> forallb f l = true.
Proof.
  induction l as [|x l IH]; [done|]. cbn. pose proof (filter_length_le f l). destruct (f x); cbn; [rewrite <- IH; lia|].
  split; [lia|done].
Qed.

Lemma report_covers ss : coveredSlots ss = ClusterSlots <-> forall s, 0 <= s < ClusterSlots -> is_Some (ss !! s).
Proof.
  unfold coveredSlots. set (l := seq 0 (Z.to_nat ClusterSlots)).
  assert (len l = ClusterSlots) as Hl by (unfold l; rewrite length_seq; apply Z2Nat.id; discriminate).
  rewrite <- Hl at 1. rewrite Nat2Z.inj_iff, filter_all, forallb_forall. unfold l in *. clear l Hl. split; intros H s Hs.
  - specialize (H (Z.to_nat s)). rewrite Z2Nat.id in H by lia. destruct (ss !! s); [by eexists|].
    discriminate H. apply in_seq. split; [lia|]. cbn [Nat.add]. apply Z2Nat.inj_lt; lia.
  - apply in_seq in Hs as [_ Hs]. cbn [Nat.add] in Hs. destruct (H (Z.of_nat s)) as [a ->]; [|done].
    split; [lia|]. apply Z2Nat.inj_lt; rewrite ?Nat2Z.id; [lia|discriminate|exact Hs].
Qed.

Definition two_masters : nodemap :=
  {[ bs "b:1" := mkNode (bs "id2") (bs "b:1") RoleMaster [(8192, 16383)] [] [];
     bs "a:1" := mkNode (bs "id1") (bs "a:1") RoleMaster [(0, 0); (2, 8191)] [bs "r:1"] [];
     bs "r:1" := mkNode (bs "id3") (bs "r:1") RoleReplica [] [] (bs "id1") ]}.

Example report_two :
  map (fun m => snd (log_master m)) (log_masters [bs "r:1"; bs "b:1"; bs "a:1"] two_masters)
  = [[(bs "addr", bs "a:1"); (bs "slots", bs "0,2-8191"); (bs "replicas", bs "r:1")];
     [(bs "addr", bs "b:1"); (bs "slots", bs "8192-16383"); (bs "replicas", [])]].
Proof. vm_compute. reflexivity. Qed.
