(* ===== verification/TopoManager.v ===== *)
(** * TopoManager: the goroutine that keeps the topology

    Model of the rest of [pkg/cluster/topology.go]: the dialogue with a node
    ([authenticate], [fetchClusterNodes]) on the stream reader and writer, and the life of
    the manager: [Start], the refresh loop with its ticker and its channel,
    [TriggerRefresh] and [Stop], as a step relation [mstep] between the goroutines.

    - [topology_invariant]: in every reachable state the published snapshot is
      consistent and no request for a refresh is lost;
    - [fetch_dialogue]: what is sent to a node and what is made of its answers;
    - [fingerprint_detects]: two topologies with the same fingerprint have the same
      addresses, roles and slots. *)

From stdpp Require Import sorting.
From S2P Require Import Prelude GoStd Value RespParse RespFacts RespStream StreamFacts Pool Topology.

(** ** Asking a node

    [authenticate] and [fetchClusterNodes] make a reader and a writer of their own on the
    connection; [auth_in] and [nodes_in] are what their readers deliver, [accepts] is how
    much the connection accepts. *)

Record node_conn := mkNodeConn {
  auth_in : Reader;
  nodes_in : Reader;
  accepts : option nat;
}.

Definition authenticate (username password : bytes) (r : Reader) (w : Writer) : outcome unit * Writer :=
  let '(v, _, w) := request (auth_args username password) r w in
  (accept (bs "auth failed: ") v, w).

Definition fetchClusterNodes (r : Reader) (w : Writer) : outcome bytes * Writer :=
  let '(v, _, w) := request [bs "CLUSTER"; bs "NODES"] r w in
  (v ← v; if IsError (Some v) then Err (Errorf (Error (Some v))) else Ok (Str v), w).

(** The first half of [refreshFrom], with the bytes that were sent; [net] is the result
    of [dialWithTimeout]. *)
Definition fetch (username password : bytes) (net : goerror + node_conn) : outcome bytes * bytes :=
  match net with
  | inl e => (Err e, [])
  | inr c =>
      let '(a, w) := match password with
                     | [] => (Ok tt, NewWriter (accepts c))
                     | _ => authenticate username password (auth_in c) (NewWriter (accepts c))
                     end in
      match a with
      | Ok _ => let '(raw, w') := fetchClusterNodes (nodes_in c) (NewWriter (w_budget w)) in
                (raw, w_out w ++ w_out w')
      | Err e => (Err e, w_out w)
      | Panic => (Panic, w_out w)
      | NoFuel => (NoFuel, w_out w)
      end
  end.

(** ** The manager's goroutines *)

(** Where the goroutine of [refreshLoop] (and, before it, the caller of [Start]) is. *)
Inductive phase := PIdle | PStart | PSelect | PRefresh | PEnded.

(** [tm_owed] is set while a refresh was asked for and none has begun since. *)
Record tmanager := mkTM {
  tm_core : Manager;
  tm_username : bytes;
  tm_password : bytes;
  tm_started : bool;
  tm_done : bool;
  tm_ctx : bool;
  tm_phase : phase;
  tm_owed : bool;
}.

Definition NewManager (entryPoints : list bytes) (username password : bytes) : tmanager :=
  mkTM (Topology.mkManager entryPoints NewTopology false []) username password false false false PIdle false.

Definition EntryPoints (t : tmanager) : list bytes := entryPoints (tm_core t).

Definition at_phase (ph : phase) (t : tmanager) : tmanager :=
  mkTM (tm_core t) (tm_username t) (tm_password t) (tm_started t) (tm_done t) (tm_ctx t) ph (tm_owed t).
Definition with_core (m : Manager) (t : tmanager) : tmanager :=
  mkTM m (tm_username t) (tm_password t) (tm_started t) (tm_done t) (tm_ctx t) (tm_phase t) (tm_owed t).
Definition set_owed (o : bool) (t : tmanager) : tmanager :=
  mkTM (tm_core t) (tm_username t) (tm_password t) (tm_started t) (tm_done t) (tm_ctx t) (tm_phase t) o.

(** [Start] up to its refresh: a second call returns at once. *)
Definition Start (t : tmanager) : option tmanager :=
  if tm_started t then None
  else Some (mkTM (tm_core t) (tm_username t) (tm_password t) true (tm_done t) (tm_ctx t) PStart false).

(** [Stop] closes [done]; closing it twice panics. *)
Definition Stop (t : tmanager) : outcome tmanager :=
  if tm_done t then Panic
  else Ok (mkTM (tm_core t) (tm_username t) (tm_password t) (tm_started t) true (tm_ctx t) (tm_phase t) (tm_owed t)).

Definition cancel (t : tmanager) : tmanager :=
  mkTM (tm_core t) (tm_username t) (tm_password t) (tm_started t) (tm_done t) true (tm_phase t) (tm_owed t).

Definition trigger (t : tmanager) : tmanager := set_owed true (with_core (TriggerRefresh (tm_core t)) t).

(** The token of [refreshCh] is received. *)
Definition take_token (m : Manager) : Manager :=
  Topology.mkManager (entryPoints m) (topo m) false (removedHooks m).

(** A refresh over the network: [net] is what dialing each address gives. *)
Definition net_refresh (it : iteration) (net : bytes -> goerror + node_conn) (t : tmanager) : outcome Manager :=
  refresh it (fun a => fst (fetch (tm_username t) (tm_password t) (net a))) (tm_core t).

(** Go's map ranges visit every key once. *)
Record iteration_ok (it : iteration) : Prop := {
  io_attach : forall m, range_of (it_attach it m) m;
  io_inner : forall m a, range_of (it_inner it m a) m;
  io_finger : forall m, range_of (it_finger it m) m;
  io_update : forall m, range_of (it_update it m) m;
  io_removed : forall m, range_of (it_removed it m) m;
  io_entries : forall m, range_of (it_entries it m) m;
}.

(** The queries of the routers, which move the round-robin counters. *)
Inductive query : Topology -> Topology -> Prop :=
| q_replica slot t : query t (snd (GetReplicaForSlot slot t))
| q_prefer slot t : query t (snd (GetNodeForSlotPreferReplica slot t))
| q_balanced slot t : query t (snd (GetNodeForSlotBalanced slot t)).

Inductive mstep : tmanager -> tmanager -> Prop :=
| ms_start t t' : Start t = Some t' -> mstep t t'
| ms_start_ok it net t m :
    tm_phase t = PStart -> iteration_ok it -> net_refresh it net t = Ok m ->
    mstep t (at_phase PSelect (with_core m t))
| ms_start_err it net t e :
    tm_phase t = PStart -> iteration_ok it -> net_refresh it net t = Err e -> mstep t (at_phase PIdle t)
| ms_trigger t : mstep t (trigger t)
| ms_query t tp : query (topo (tm_core t)) tp ->
    mstep t (with_core (Topology.mkManager (entryPoints (tm_core t)) tp (refreshCh (tm_core t))
                          (removedHooks (tm_core t))) t)
| ms_tick t : tm_phase t = PSelect -> mstep t (at_phase PRefresh (set_owed false t))
| ms_token t : tm_phase t = PSelect -> refreshCh (tm_core t) = true ->
    mstep t (at_phase PRefresh (set_owed false (with_core (take_token (tm_core t)) t)))
| ms_refresh_ok it net t m :
    tm_phase t = PRefresh -> iteration_ok it -> net_refresh it net t = Ok m ->
    mstep t (at_phase PSelect (with_core m t))
| ms_refresh_err it net t e :
    tm_phase t = PRefresh -> iteration_ok it -> net_refresh it net t = Err e -> mstep t (at_phase PSelect t)
| ms_stop t t' : Stop t = Ok t' -> mstep t t'
| ms_cancel t : mstep t (cancel t)
| ms_end t : tm_phase t = PSelect -> tm_done t || tm_ctx t = true -> mstep t (at_phase PEnded t).

Inductive mreach (eps : list bytes) (username password : bytes) : tmanager -> Prop :=
| mr_init : mreach eps username password (NewManager eps username password)
| mr_step t t' : mreach eps username password t -> mstep t t' -> mreach eps username password t'.

(** ** The published snapshot *)

Record snap_ok (s : topoSnapshot) : Prop := {
  so_topo : topo_ok (nodes s) (slots s);
  so_replicas : exists dn, (forall a, a ∈ dn <-> is_Some (nodes s !! a)) /\ attach_inv dn (nodes s);
  so_masters_sorted : StronglySorted bytes_le (masters s);
  so_masters : forall a, a ∈ masters s <-> exists n, nodes s !! a = Some n /\ is_master n = true;
  so_finger : exists o, range_of o (nodes s) /\ fingerprint s = topoFingerprint o (nodes s);
}.

Lemma snap_ok_new : snap_ok (snap NewTopology).
Proof.
  split; cbn.
  - apply topo_ok_empty.
  - exists []. split; [intros a; rewrite lookup_empty; split; [by intros ?%elem_of_nil|by intros []]|].
    split; intros *; rewrite lookup_empty; done.
  - constructor.
  - intros a. rewrite elem_of_nil. split; [done|]. intros (n & Hn & _). by rewrite lookup_empty in Hn.
  - exists []. split; [|done]. split; [constructor|]. intros a. rewrite elem_of_nil, lookup_empty.
    split; [done|by intros []].
Qed.

Lemma refreshFrom_snap it reply m m' :
  iteration_ok it -> refreshFrom it reply m = Ok m' ->
  snap_ok (snap (topo m')) /\ refreshCh m' = refreshCh m /\
  rrCounter (topo m') = rrCounter (topo m) /\ msrrCounter (topo m') = msrrCounter (topo m) /\
  version (topo m') = wrap64 (version (topo m) + 1).
Proof.
  intros Hit H. unfold refreshFrom in H.
  apply outcome_bind_inv in H as (raw & _ & H). apply outcome_bind_inv in H as ([ns ss] & Hp & H).
  cbv zeta in H. injection H as <-.
  destruct (parse_consistent _ _ raw ns ss (io_attach _ Hit) (io_inner _ Hit) Hp) as [Ht Hr].
  match goal with |- snap_ok (snap (topo ?x)) /\ _ => assert (topo x = Update (it_update it ns) ns ss
    (topoFingerprint (it_finger it ns) ns) (topo m) /\ refreshCh x = refreshCh m) as [-> ->] end.
  { case_bool; done. }
  split; [|done]. split; cbn; [done|done|apply sort_strings_sorted| |exists (it_finger it ns); split; [apply Hit|done]].
  intros a. rewrite sort_strings_perm, list_elem_of_In, filter_In, <- list_elem_of_In.
  destruct (io_update _ Hit ns) as [_ Hdom]. rewrite Hdom. split.
  - intros [[n Hn] Hm]. rewrite Hn in Hm. eauto.
  - intros (n & Hn & Hm). rewrite Hn. eauto.
Qed.

Lemma refresh_snap it fetch eps errs m m' :
  iteration_ok it -> refresh_loop it fetch eps errs m = Ok m' ->
  snap_ok (snap (topo m')) /\ refreshCh m' = refreshCh m /\
  rrCounter (topo m') = rrCounter (topo m) /\ msrrCounter (topo m') = msrrCounter (topo m) /\
  version (topo m') = wrap64 (version (topo m) + 1).
Proof.
  intros Hit. revert errs. induction eps as [|ep eps IH]; intros errs; cbn [refresh_loop]; [done|].
  destruct (refreshFrom it (fetch ep) m) eqn:E; try done.
  - intros [= <-]. by eapply refreshFrom_snap.
  - apply IH.
Qed.

Lemma query_snap t t' : query t t' -> snap t' = snap t.
Proof.
  destruct 1 as [slot t|slot t|slot t];
    unfold GetNodeForSlotPreferReplica, GetReplicaForSlot, GetNodeForSlotBalanced; repeat case_match; by simplify_eq.
Qed.

Record tinv (t : tmanager) : Prop := {
  ti_snap : snap_ok (snap (topo (tm_core t)));
  ti_owed : tm_owed t = true -> refreshCh (tm_core t) = true;
  ti_phase : tm_phase t <> PIdle -> tm_started t = true;
}.

Lemma tinv_step t t' : tinv t -> mstep t t' -> tinv t'.
Proof.
  intros [Hs Ho Hp].
  destruct 1 as [t t' E|it net t m Hph Hit E|it net t e Hph Hit E|t|t tp Hq|t Hph|t Hph Hch
    |it net t m Hph Hit E|it net t e Hph Hit E|t t' E|t|t Hph _]; split; cbn; try done;
    try (intros _; apply Hp; by rewrite Hph).
  - unfold Start in E. case_bool_in E; [done|]. by simplify_eq.
  - unfold Start in E. case_bool_in E; [done|]. by simplify_eq.
  - unfold Start in E. case_bool_in E; [done|]. by simplify_eq.
  - by eapply refresh_snap.
  - intros H. apply refresh_snap in E as (_ & -> & _); auto.
  - by rewrite (query_snap _ _ Hq).
  - by eapply refresh_snap.
  - intros H. apply refresh_snap in E as (_ & -> & _); auto.
  - unfold Stop in E. case_bool_in E; [done|]. by simplify_eq.
  - unfold Stop in E. case_bool_in E; [done|]. by simplify_eq.
  - unfold Stop in E. case_bool_in E; [done|]. by simplify_eq.
Qed.

Lemma tinv_reach eps u p t : mreach eps u p t -> tinv t.
Proof.
  induction 1 as [|t t' _ IH Hst]; [|by eapply tinv_step].
  split; cbn; [apply snap_ok_new|done|done].
Qed.

(** ** Dialogue *)

Lemma request_answer cmd x rest err :
  wf_ptr x = true -> len (EncodeValue x) <= 2^45 ->
  exists w, request cmd (mkReader (EncodeValue x ++ rest) err) (NewWriter None)
              = (Ok (canon_ptr x), mkReader rest err, w) /\
    w_out w = EncodeCommandBytes cmd /\ w_budget w = None.
Proof.
  intros Hwf Hl. unfold request, NewWriter.
  pose proof (writes_then _ _ _ _ (WriteCommand_writes cmd) Flush_writes (NewWriter None) eq_refl) as Hb.
  destruct (writes_flush _ _ (64 * 1024) (WriteCommand_writes cmd)) as (w & Hw & Ho).
  unfold wr_then, NewWriter, wrote in *.
  destruct (WriteCommandBytes cmd _) as [[e|] w1]; [done|]. rewrite Hw in Hb |- *. rewrite read_one by done.
  exists w. split_and!; [done|done|by apply Hb].
Qed.

(** ** The fingerprint *)

Lemma split_first {A} (c : A) l1 l2 k1 k2 :
  c ∉ l1 -> c ∉ k1 -> l1 ++ c :: l2 = k1 ++ c :: k2 -> l1 = k1 /\ l2 = k2.
Proof.
  revert k1. induction l1 as [|x l1 IH]; intros [|y k1] Hl Hk E; cbn in E.
  - by injection E as ->.
  - injection E as -> _. by destruct Hk; left.
  - injection E as -> _. by destruct Hl; left.
  - injection E as -> E. rewrite not_elem_of_cons in Hl, Hk.
    destruct (IH k1) as [-> ->]; [apply Hl|apply Hk|done|done].
Qed.

Lemma split_last {A} (c : A) l1 l2 k1 k2 :
  c ∉ l2 -> c ∉ k2 -> l1 ++ c :: l2 = k1 ++ c :: k2 -> l1 = k1 /\ l2 = k2.
Proof.
  intros Hl Hk E. apply (f_equal (@rev A)) in E. rewrite !rev_app_distr in E. cbn in E.
  rewrite <- !app_assoc in E. cbn in E.
  apply split_first in E as [E1 E2]; [|by rewrite list_elem_of_In, <- in_rev, <- list_elem_of_In..].
  apply (f_equal (@rev A)) in E1, E2. by rewrite !rev_involutive in E1, E2.
Qed.

Lemma FormatInt_bytes n c : c ∈ FormatInt n -> is_digit c = true \/ c = x2d.
Proof.
  assert (forall l, forallb is_digit l = true -> c ∈ l -> is_digit c = true) as Hd.
  { intros l Hl Hc. rewrite forallb_forall in Hl. by apply Hl, list_elem_of_In. }
  unfold FormatInt. case_bool.
  - intros [->|Hc]%elem_of_cons; [by right|]. left. eapply Hd; [apply fmt_digits_digits|done].
  - intros Hc. left. eapply Hd; [apply fmt_digits_digits|done].
Qed.

Lemma FormatInt_inj a b : int64_range a -> int64_range b -> FormatInt a = FormatInt b -> a = b.
Proof. intros Ha Hb E. apply Atoi_FormatInt in Ha, Hb. rewrite E, Hb in Ha. by injection Ha. Qed.

(** The sign of a number is the only minus in it, so the separator after it is found. *)
Lemma FormatInt_dash a b r s :
  int64_range a -> int64_range b -> FormatInt a ++ x2d :: r = FormatInt b ++ x2d :: s -> a = b /\ r = s.
Proof.
  assert (forall n, x2d ∉ fmt_digits 20 n []) as Hd.
  { intros n Hin. pose proof (fmt_digits_digits 20 n) as Hf. rewrite forallb_forall in Hf.
    apply list_elem_of_In, Hf in Hin. done. }
  assert (forall n t, match fmt_digits 20 n [] ++ t with x2d :: _ => False | _ => True end) as Hnm.
  { intros n t. specialize (Hd n). pose proof (fmt_digits_nonempty 19 n).
    destruct (fmt_digits 20 n []) as [|c l]; [cbn in *; lia|]. cbn. apply not_elem_of_cons in Hd as [Hc _].
    by destruct c. }
  intros Ha Hb E. enough (FormatInt a = FormatInt b /\ r = s) as [Ef ->] by (split; [by apply FormatInt_inj|done]).
  unfold FormatInt in *. destruct (a <? 0), (b <? 0); cbn [app] in E.
  - apply (f_equal (@tail byte)) in E. cbn [tail] in E. apply split_first in E as [-> ->]; done.
  - pose proof (Hnm b (x2d :: s)) as H. by rewrite <- E in H.
  - pose proof (Hnm a (x2d :: r)) as H. by rewrite E in H.
  - by apply split_first in E.
Qed.

Definition range_text (r : Z * Z) : bytes := FormatInt (fst r) ++ bs "-" ++ FormatInt (snd r) ++ bs ",".

Definition range64 (r : Z * Z) : Prop := int64_range (fst r) /\ int64_range (snd r).

Lemma ranges_inj l k :
  Forall range64 l -> Forall range64 k -> concat (map range_text l) = concat (map range_text k) -> l = k.
Proof.
  assert (forall r t, range_text r ++ t <> []) as Hne.
  { intros [a b] t. unfold range_text. by destruct (FormatInt _). }
  assert (forall n, x2c ∉ FormatInt n) as Hc by (intros n [Hn| Hn]%FormatInt_bytes; done).
  intros Hl. revert k. induction Hl as [|[a b] l [Ha Hb] _ IH]; intros k Hk E; cbn [map concat] in E.
  - destruct k as [|r k]; [done|]. cbn [map concat] in E. symmetry in E. by apply Hne in E.
  - destruct Hk as [|[a' b'] k [Ha' Hb'] Hk]; cbn [map concat] in E; [by apply Hne in E|].
    unfold range_text in E. cbn [fst snd] in *. rewrite <- !app_assoc in E. cbn [app] in E.
    apply FormatInt_dash in E as [-> E]; [|done..].
    apply split_first in E as [E1 E2]; [|apply Hc..]. apply FormatInt_inj in E1 as ->; [|done..].
    f_equal. by apply IH.
Qed.

(** Ranges are made of digits, minus signs and commas. *)
Lemma ranges_bytes c l : is_digit c = false -> c <> x2d -> c <> x2c -> c ∉ concat (map range_text l).
Proof.
  intros Hd Hm Hk.
  assert (forall n, c ∉ FormatInt n) as Hc by (intros n [Hn|Hn]%FormatInt_bytes; congruence).
  induction l as [|[a b] l IH]; cbn [map concat]; [by intros ?%elem_of_nil|].
  unfold range_text. change (bs "-") with [x2d]. change (bs ",") with [x2c].
  rewrite !elem_of_app, !list_elem_of_singleton. cbn [fst snd].
  intros [[H|[H|[H|H]]]|H]; [by apply (Hc a)|done|by apply (Hc b)|done|done].
Qed.

Lemma fingerprint_entry_inj a n b m :
  Forall range64 (Slots n) -> Forall range64 (Slots m) ->
  fingerprint_entry a n = fingerprint_entry b m -> a = b /\ is_master n = is_master m /\ Slots n = Slots m.
Proof.
  intros Hn Hm E. unfold fingerprint_entry in E.
  change (concat (map _ (Slots n))) with (concat (map range_text (Slots n))) in E.
  change (concat (map _ (Slots m))) with (concat (map range_text (Slots m))) in E.
  set (f x := if is_master x then bs "m" else bs "r") in E.
  change (a ++ x3a :: f n ++ x3a :: concat (map range_text (Slots n))
          = b ++ x3a :: f m ++ x3a :: concat (map range_text (Slots m))) in E.
  rewrite !app_comm_cons, !app_assoc in E.
  apply split_last in E as [E E2]; [|by apply ranges_bytes..]. apply ranges_inj in E2; [|done..].
  apply split_last in E as [E E1]; cycle 1.
  { unfold f. case_bool; by intros ?%list_elem_of_singleton. }
  { unfold f. case_bool; by intros ?%list_elem_of_singleton. }
  split_and!; [done| |done]. unfold f in E1. by destruct (is_master n), (is_master m).
Qed.

Lemma SplitByte_whole l c : c ∉ l -> SplitByte l c = [l].
Proof.
  induction l as [|x l IH]; intros Hc; [done|]. cbn [SplitByte].
  apply not_elem_of_cons in Hc as [Hx Hc]. by rewrite (proj2 (byte_eqb_neq x c)), IH by (done || congruence).
Qed.

Lemma SplitByte_Join l : l <> [] -> Forall (fun e => x7c ∉ e) l -> SplitByte (Join (bs "|") l) x7c = l.
Proof.
  intros Hne Hl. induction Hl as [|e l He Hl IH]; [done|]. destruct l as [|e' l].
  - by apply SplitByte_whole.
  - change (Join (bs "|") (e :: e' :: l)) with (e ++ x7c :: Join (bs "|") (e' :: l)).
    by rewrite SplitByte_line, IH.
Qed.

Lemma Join_inj l k :
  Forall (fun e => (x7c ∉ e) /\ e <> []) l -> Forall (fun e => (x7c ∉ e) /\ e <> []) k ->
  Join (bs "|") l = Join (bs "|") k -> l = k.
Proof.
  assert (forall e t, e <> [] -> Join (bs "|") (e :: t) <> []) as Hne.
  { intros e t He. destruct t; cbn [Join]; [done|]. by destruct e. }
  intros Hl Hk E. destruct l as [|e l], k as [|e' k]; [done| | |].
  - apply Forall_cons in Hk as [[_ He] _]. symmetry in E. by apply Hne in E.
  - apply Forall_cons in Hl as [[_ He] _]. by apply Hne in E.
  - apply (f_equal (fun t => SplitByte t x7c)) in E.
    rewrite !SplitByte_Join in E; try done; (eapply Forall_impl; [done|]); by intros ? [].
Qed.

(** What the fingerprint shows of a node. *)
Definition summary (n : Node) : bool * list (Z * Z) := (is_master n, Slots n).

Definition printable (ns : nodemap) : Prop :=
  forall a n, ns !! a = Some n -> (x7c ∉ a) /\ Forall range64 (Slots n).

Definition entries (order : list bytes) (ns : nodemap) : list bytes :=
  omap (fun a => fingerprint_entry a <$> ns !! a) order.

Lemma entries_elem order ns e :
  range_of order ns -> e ∈ entries order ns <-> exists a n, ns !! a = Some n /\ e = fingerprint_entry a n.
Proof.
  intros [_ Hdom]. unfold entries. rewrite list_elem_of_omap. split.
  - intros (a & _ & (n & Hn & ->)%fmap_Some). eauto.
  - intros (a & n & Hn & ->). exists a. split; [apply Hdom; eauto|]. by rewrite Hn.
Qed.

Lemma entries_ok order ns :
  range_of order ns -> printable ns -> Forall (fun e => (x7c ∉ e) /\ e <> []) (sort_strings (entries order ns)).
Proof.
  intros Ho Hp. rewrite sort_strings_perm. apply Forall_forall. intros e (a & n & Hn & ->)%entries_elem; [|done].
  destruct (Hp a n Hn) as [Ha _]. unfold fingerprint_entry. split; [|by destruct a].
  rewrite !elem_of_app. change (bs ":") with [x3a]. rewrite !list_elem_of_singleton.
  intros [H|[H|[H|[H|H]]]]; [done|done| |done|by apply (ranges_bytes x7c (Slots n))].
  revert H. case_bool; by intros ?%list_elem_of_singleton.
Qed.

Lemma entries_summary (o1 o2 : list bytes) (ns1 ns2 : nodemap) a n :
  range_of o1 ns1 -> range_of o2 ns2 -> printable ns1 -> printable ns2 ->
  (forall e, e ∈ entries o1 ns1 -> e ∈ entries o2 ns2) -> ns1 !! a = Some n ->
  exists m, ns2 !! a = Some m /\ summary m = summary n.
Proof.
  intros H1 H2 P1 P2 Hin Hn.
  assert (fingerprint_entry a n ∈ entries o1 ns1) as He by (apply entries_elem; eauto).
  apply Hin, entries_elem in He as (b & m & Hm & E); [|done].
  apply fingerprint_entry_inj in E as (<- & Hr & Hs); [|by eapply P1|by eapply P2].
  exists m. split; [done|]. unfold summary. by rewrite Hr, Hs.
Qed.

Lemma entries_order (o1 o2 : list bytes) (ns : nodemap) : range_of o1 ns -> range_of o2 ns -> entries o1 ns ≡ₚ entries o2 ns.
Proof.
  intros [N1 D1] [N2 D2]. unfold entries. f_equiv. apply NoDup_Permutation; [done..|].
  intros a. by rewrite D1, D2.
Qed.

Lemma fingerprint_same (o1 o2 : list bytes) (ns1 ns2 : nodemap) :
  range_of o1 ns1 -> range_of o2 ns2 -> printable ns1 -> printable ns2 ->
  topoFingerprint o1 ns1 = topoFingerprint o2 ns2 -> summary <$> ns1 = summary <$> ns2.
Proof.
  intros H1 H2 P1 P2. unfold topoFingerprint. fold (entries o1 ns1) (entries o2 ns2).
  intros E. apply Join_inj in E; [|by apply entries_ok..].
  assert (entries o1 ns1 ≡ₚ entries o2 ns2) as Hp by (by rewrite <- (sort_strings_perm (entries o1 ns1)), E, sort_strings_perm).
  apply map_eq. intros a. rewrite !lookup_fmap.
  destruct (ns1 !! a) as [n|] eqn:En; [|destruct (ns2 !! a) as [m|] eqn:Em; [|done]].
  - edestruct (entries_summary o1 o2 ns1 ns2) as (m & -> & Es); [done..| |done|cbn; by f_equal].
    intros e. by rewrite Hp.
  - edestruct (entries_summary o2 o1 ns2 ns1) as (n & Hn & _); [done..| |done|by rewrite En in Hn].
    intros e. by rewrite Hp.
Qed.

(** The addresses a refresh reports as gone. *)
Lemma refreshFrom_hooks it reply m m' :
  iteration_ok it -> snap_ok (snap (topo m)) -> refreshFrom it reply m = Ok m' ->
  printable (nodes (snap (topo m))) -> printable (nodes (snap (topo m'))) ->
  exists gone, (forall a, a ∈ gone <-> is_Some (nodes (snap (topo m)) !! a) /\ nodes (snap (topo m')) !! a = None) /\
    removedHooks m' = removedHooks m ++ (if (0 <? length gone)%nat then [gone] else []).
Proof.
  intros Hit Hs H P1 P2. unfold refreshFrom in H.
  apply outcome_bind_inv in H as (raw & _ & H). apply outcome_bind_inv in H as ([ns ss] & Hp & H).
  cbv zeta in H. injection H as <-. case_bool_in P2.
  - apply bytes_eqb_eq in E. destruct (so_finger _ Hs) as (o & Ho & Ef). rewrite Ef in E.
    apply fingerprint_same in E; [|apply Hit|done..]. exists []. split; [|by rewrite app_nil_r].
    intros a. rewrite elem_of_nil. split; [done|]. cbn. intros [[n Hn] Hno].
    apply (f_equal (fun x => x !! a)) in E. by rewrite !lookup_fmap, Hn, Hno in E.
  - cbn [onTopologyChanged topo snap nodes Update removedHooks].
    eexists. split; [intros a; by apply (removed_spec _ _ _ _ (io_removed _ Hit _))|]. destruct (0 <? _)%nat; [done|]. by rewrite app_nil_r.
Qed.

Lemma refresh_hooks it fetch eps errs m m' :
  iteration_ok it -> snap_ok (snap (topo m)) -> refresh_loop it fetch eps errs m = Ok m' ->
  printable (nodes (snap (topo m))) -> printable (nodes (snap (topo m'))) ->
  exists gone, (forall a, a ∈ gone <-> is_Some (nodes (snap (topo m)) !! a) /\ nodes (snap (topo m')) !! a = None) /\
    removedHooks m' = removedHooks m ++ (if (0 <? length gone)%nat then [gone] else []).
Proof.
  intros Hit Hs. revert errs. induction eps as [|ep eps IH]; intros errs; cbn [refresh_loop]; [done|].
  destruct (refreshFrom it (fetch ep) m) eqn:E; try done.
  - intros [= <-]. by eapply refreshFrom_hooks.
  - apply IH.
Qed.

(** ** Properties *)

(** C32: the fingerprint by which the manager notices a change of the cluster is exact:
    whatever the orders of Go's map ranges, two node tables have the same fingerprint if
    and only if they have the same addresses with the same roles and slot ranges
    (addresses without a vertical bar, slots of 64 bits, as the parser makes them). *)
Theorem fingerprint_detects (o1 o2 : list bytes) (ns1 ns2 : nodemap) :
  range_of o1 ns1 -> range_of o2 ns2 -> printable ns1 -> printable ns2 ->
  topoFingerprint o1 ns1 = topoFingerprint o2 ns2 <-> summary <$> ns1 = summary <$> ns2.
Proof.
  intros H1 H2 P1 P2. split; [by apply fingerprint_same|].
  unfold topoFingerprint. fold (entries o1 ns1) (entries o2 ns2).
  intros E. f_equal. apply sort_strings_proper.
  assert (forall a, summary <$> ns1 !! a = summary <$> ns2 !! a) as Ea by (intros a; by rewrite <- !lookup_fmap, E).
  assert (range_of o2 ns1) as H2'.
  { destruct H2 as [N2 D2]. split; [done|]. intros a. rewrite D2. specialize (Ea a).
    destruct (ns1 !! a), (ns2 !! a); try done; split; intros []; eauto; done. }
  rewrite (entries_order o1 o2 ns1) by done. unfold entries. erewrite list_omap_ext; [done|].
  apply Forall_Forall2_diag, Forall_true. intros a. specialize (Ea a).
  destruct (ns1 !! a), (ns2 !! a); try done. cbn in *. unfold summary in Ea. injection Ea as Er Es.
  unfold fingerprint_entry. by rewrite Er, Es.
Qed.

Definition one_node (r : list (Z * Z)) : nodemap :=
  {[ bs "h:1" := mkNode (bs "id") (bs "h:1") RoleMaster r [] [] ]}.

(** A node that takes over a slot changes the fingerprint. *)
Lemma fingerprint_detects_witness :
  topoFingerprint [bs "h:1"] (one_node [(0, 5)]) <> topoFingerprint [bs "h:1"] (one_node [(0, 5); (7, 7)]).
Proof.
  assert (forall r, range_of [bs "h:1"] (one_node r)) as Hr.
  { intros r. split; [apply NoDup_singleton|]. intros a. rewrite list_elem_of_singleton.
    unfold one_node. rewrite lookup_singleton_is_Some. done. }
  assert (forall r, Forall range64 r -> printable (one_node r)) as Hp.
  { intros r Hf a n H. unfold one_node in H. apply lookup_singleton_Some in H as [<- <-]. split; [by apply (bool_decide_eq_true _)|done]. }
  intros E. apply (fingerprint_detects [bs "h:1"] [bs "h:1"]) in E;
    [|apply Hr|apply Hr|apply Hp; by repeat constructor|apply Hp; by repeat constructor].
  apply (f_equal (fun m => m !! bs "h:1")) in E. vm_compute in E. discriminate E.
Defined.

(** The dialogue with a node.  Without a password the node is sent CLUSTER NODES
    alone; with one it is sent AUTH first, with the user name if there is one, and
    nothing more when it refuses; the text of its reply is the result, an error reply an
    error with its message.  A node that cannot be dialed gives the dial's error. *)
Lemma fetch_dialogue u p a n rest1 e1 rest2 e2 :
  wf_ptr a = true -> wf_ptr n = true -> len (EncodeValue a) <= 2^45 -> len (EncodeValue n) <= 2^45 ->
  let net := inr (mkNodeConn (mkReader (EncodeValue a ++ rest1) e1) (mkReader (EncodeValue n ++ rest2) e2) None) in
  let asked := EncodeCommandBytes [bs "CLUSTER"; bs "NODES"] in
  let login := EncodeCommandBytes (auth_args u p) in
  let answer := if IsError (Some (canon_ptr n)) then Err (Errorf (Error (Some (canon_ptr n))))
                else Ok (Str (canon_ptr n)) in
  fetch u [] net = (answer, asked) /\
  (p <> [] -> fetch u p net =
     if IsError (Some (canon_ptr a))
     then (Err (Errorf (bs "auth failed: " ++ Error (Some (canon_ptr a)))), login)
     else (answer, login ++ asked)) /\
  (forall e, fetch u p (inl e) = (Err e, [])).
Proof.
  intros Ha Hn La Ln net asked login answer.
  destruct (request_answer [bs "CLUSTER"; bs "NODES"] n rest2 e2 Hn Ln) as (w2 & E2 & O2 & _).
  destruct (request_answer (auth_args u p) a rest1 e1 Ha La) as (w1 & E1 & O1 & B1).
  split; [|split; [|done]].
  - unfold fetch, fetchClusterNodes, net. cbn [nodes_in accepts].
    change (w_budget (NewWriter None)) with (@None nat). rewrite E2. cbn [mbind outcome_bind].
    change (w_out (NewWriter None)) with (@nil byte). by rewrite O2.
  - intros Hp. unfold fetch, net. destruct p as [|c p]; [destruct (Hp eq_refl)|].
    unfold authenticate. cbn [auth_in nodes_in accepts]. rewrite E1. cbn [accept].
    case_bool; [by rewrite O1|]. unfold fetchClusterNodes. rewrite B1, E2. cbn [mbind outcome_bind].
    by rewrite O1, O2.
Qed.

Lemma fetch_dialogue_witness :
  fetch (bs "u") (bs "pw")
    (inr (mkNodeConn (mkReader (bs "+OK" ++ CRLF) EOF) (mkReader (bs "$2" ++ CRLF ++ bs "hi" ++ CRLF) EOF) None))
  = (Ok (bs "hi"), EncodeCommandBytes [bs "AUTH"; bs "u"; bs "pw"] ++ EncodeCommandBytes [bs "CLUSTER"; bs "NODES"]).
Proof.
  destruct (fetch_dialogue (bs "u") (bs "pw") (Some OKValue) (Some (BulkValue (Some (bs "hi")))) [] EOF [] EOF)
    as (_ & H & _); [reflexivity|reflexivity|vm_compute; discriminate|vm_compute; discriminate|].
  exact (H ltac:(discriminate)).
Defined.

(** C31: whatever the network answers and however the manager's goroutines interleave, in
    every reachable state the published topology is consistent: nodes are stored under
    their address, the owner of a slot is a known node that announced it, a replica is in
    the list of the one node with its master's id, the masters are the nodes of that role,
    sorted.  A refresh that was asked for is not lost: while none has begun since, the
    token waits, the loop can begin one, and only the beginning of a refresh takes the
    request away. *)
Theorem topology_invariant eps u p t :
  mreach eps u p t ->
  snap_ok (snap (topo (tm_core t))) /\
  (forall slot a, GetNodeForSlot slot (topo (tm_core t)) = Some a ->
     exists n r, nodes (snap (topo (tm_core t))) !! a = Some n /\ r ∈ Slots n /\ in_range slot r) /\
  (tm_owed t = true -> tm_phase t = PSelect ->
     exists t', mstep t t' /\ tm_phase t' = PRefresh /\ refreshCh (tm_core t') = false) /\
  (forall t', mstep t t' -> tm_owed t = true -> tm_owed t' = false ->
     tm_phase t' = PRefresh \/ tm_phase t' = PStart).
Proof.
  intros Hr. apply tinv_reach in Hr as [Hs Ho Hp]. split_and!; [done| | |].
  - intros slot a. unfold GetNodeForSlot. case_bool; [|done]. intros Hl.
    by apply (to_owner _ _ (so_topo _ Hs)) in Hl as [_ ?].
  - intros Hw Hph. eexists. split; [apply ms_token; auto|done].
  - intros t' Hst Hw Hw'. destruct Hst as [t t' E| | | | | | | | |t t' E| |]; cbn in *; try congruence; try by left.
    + unfold Start in E. case_bool_in E; [done|]. simplify_eq. by right.
    + unfold Stop in E. case_bool_in E; [done|]. simplify_eq. cbn in *. congruence.
Qed.

(** A node that answers CLUSTER NODES, started and asked for a refresh. *)
Definition answering (a : bytes) : goerror + node_conn :=
  inr (mkNodeConn (mkReader [] EOF) (mkReader (EncodeValue (Some (BulkValue (Some nodes_reply)))) EOF) None).

Lemma topology_invariant_witness :
  exists t, tm_phase t = PSelect /\ GetNodeForSlot 5 (topo (tm_core t)) = Some (bs "127.0.0.1:7000") /\
    (exists n r, nodes (snap (topo (tm_core t))) !! bs "127.0.0.1:7000" = Some n /\ r ∈ Slots n /\ in_range 5 r) /\
    exists t', mstep t t' /\ tm_phase t' = PRefresh.
Proof.
  set (t0 := NewManager [bs "127.0.0.1:7000"] [] []).
  set (t1 := mkTM (tm_core t0) [] [] true false false PStart false).
  assert (iteration_ok plain_iteration) as Hit by (split; intros; apply range_of_keys).
  assert ((match net_refresh plain_iteration answering t1 with
    | Ok m => GetNodeForSlot 5 (topo m) | _ => None end) = Some (bs "127.0.0.1:7000")) as Hg by by vm_compute.
  destruct (net_refresh plain_iteration answering t1) as [m| | |] eqn:E; [|discriminate Hg..].
  set (t2 := trigger (at_phase PSelect (with_core m t1))).
  assert (mreach [bs "127.0.0.1:7000"] [] [] t2) as Hr.
  { apply mr_step with (at_phase PSelect (with_core m t1)); [|apply ms_trigger].
    apply mr_step with t1; [|exact (ms_start_ok plain_iteration answering t1 m eq_refl Hit E)].
    apply mr_step with t0; [apply mr_init|by apply ms_start]. }
  destruct (topology_invariant _ _ _ t2 Hr) as (_ & H2 & H3 & _).
  exists t2. split; [reflexivity|]. split; [exact Hg|]. split; [exact (H2 5 _ Hg)|].
  destruct (H3 eq_refl eq_refl) as (t' & Hs & Hp & _). exists t'. split; [exact Hs|exact Hp].
Defined.

(** A [Start] that failed cannot be repeated: the manager counts as started, and the next
    call reports success without a topology or a refresh loop. *)
Lemma start_not_repeated t t' : Start t = Some t' -> Start (at_phase PIdle t') = None.
Proof. unfold Start. case_bool; [done|]. by intros [= <-]. Qed.
