(* ===== verification/RespQueue.v ===== *)
(** * RespQueue: the response queue of a client connection

    Model of the queue of [pkg/engine/handler.go] that puts replies back into
    request order: [allocResponseSlot] when a request is forwarded, then
    [fillResponseSlotInLoop], [accumulateResponseSlot] and
    [accumulateFanInSubResponse] when its reply arrives, in any order.

    [respState] holds the queue of a [clientCtx] ([respQueue], [respBase]), the
    bytes handed to the connection ([out], by [c.Write] and [c.Writev]) and the
    entry of the event loop's [writeAccum] map for the connection ([iov], empty
    when there is no entry).  Capacities and the reallocation that shrinks the
    queue do not change its contents and are left out.

    The specification is a log with one entry per request that is never
    trimmed; [queue_refines] shows that the windowed queue implements it. *)

From S2P Require Import Prelude GoStd Value.

Record subResponse := mkSub {
  subIdx : nat;
  sub_data : bytes;
}.

Record fanInState := mkFanIn {
  total : Z;
  received : Z;
  subData : list subResponse;
  mergeFunc : list subResponse -> outcome bytes;
}.

Record responseSlot := mkSlot {
  ready : bool;
  data : bytes;
  fanIn : option fanInState;
}.

Definition empty_slot : responseSlot := mkSlot false [] None.

Record respState := mkResp {
  respQueue : list responseSlot;
  respBase : nat;
  out : bytes;
  iov : list bytes;
}.

Definition resp_init : respState := mkResp [] 0 [] [].

Definition allocResponseSlot (st : respState) : nat * respState :=
  let absIdx := (respBase st + length (respQueue st))%nat in
  (absIdx, mkResp (respQueue st ++ [empty_slot]) (respBase st) (out st) (iov st)).

(** [head := 0; for head < len(q) && q[head].ready { head++ }] *)
Fixpoint headReady (q : list responseSlot) : nat :=
  match q with
  | sl :: q' => if ready sl then S (headReady q') else 0%nat
  | [] => 0%nat
  end.

(** [relIdx < 0 || relIdx >= len(respQueue)] *)
Definition rel_out (relIdx : Z) (st : respState) : bool :=
  (relIdx <? 0) || (len (respQueue st) <=? relIdx).

Definition fillResponseSlotInLoop (absIdx : nat) (d : bytes) (st : respState) : respState :=
  let relIdx := Z.of_nat absIdx - Z.of_nat (respBase st) in
  if rel_out relIdx st then st else
  let q := alter (fun sl => mkSlot true d (fanIn sl)) (Z.to_nat relIdx) (respQueue st) in
  let head := headReady q in
  if (head =? 0)%nat then mkResp q (respBase st) (out st) (iov st) else
  mkResp (drop head q) (respBase st + head) (out st ++ concat (map data (take head q))) (iov st).

(** The part shared by the two [accumulate] functions: the slot is made ready;
    when it is the first one that is not, the ready prefix moves to the
    accumulated writes. *)
Definition accumulate_ready (relIdx : nat) (d : bytes) (fi : option fanInState) (st : respState)
    : respState :=
  let head := headReady (respQueue st) in
  let q := alter (fun _ => mkSlot true d fi) relIdx (respQueue st) in
  if (relIdx =? head)%nat then
    let head := headReady q in
    mkResp (drop head q) (respBase st + head) (out st) (iov st ++ map data (take head q))
  else mkResp q (respBase st) (out st) (iov st).

Definition accumulateResponseSlot (absIdx : nat) (d : bytes) (st : respState) : respState :=
  let relIdx := Z.of_nat absIdx - Z.of_nat (respBase st) in
  if rel_out relIdx st then st else
  match respQueue st !! Z.to_nat relIdx ≫= fanIn with
  | Some _ => st
  | None => accumulate_ready (Z.to_nat relIdx) d None st
  end.

(** [fi.subData[subIdx] = ...; fi.received++] *)
Definition fan_receive (fi : fanInState) (sub : nat) (d : bytes) : outcome fanInState :=
  if (sub <? length (subData fi))%nat
  then Ok (mkFanIn (total fi) (received fi + 1) (<[sub := mkSub sub d]> (subData fi)) (mergeFunc fi))
  else Panic.

Definition accumulateFanInSubResponse (absIdx sub : nat) (d : bytes) (st : respState)
    : outcome respState :=
  let relIdx := Z.of_nat absIdx - Z.of_nat (respBase st) in
  if rel_out relIdx st then Ok st else
  match respQueue st !! Z.to_nat relIdx with
  | Some (mkSlot r d0 (Some fi)) =>
      fi ← fan_receive fi sub d;
      if received fi <? total fi then
        Ok (mkResp (<[Z.to_nat relIdx := mkSlot r d0 (Some fi)]> (respQueue st))
              (respBase st) (out st) (iov st))
      else
        merged ← mergeFunc fi (subData fi);
        Ok (accumulate_ready (Z.to_nat relIdx) merged None st)
  | _ => Ok st
  end.

(** [flushWriteAccum] for this connection. *)
Definition flush_accum (st : respState) : respState :=
  mkResp (respQueue st) (respBase st) (out st ++ concat (iov st)) [].

(** [writeImmediate]: written at once when no reply is owed, else through a slot
    whose fill is posted to the event loop (the second component). *)
Definition writeImmediate (d : bytes) (st : respState) : respState * option (nat * bytes) :=
  if (length (respQueue st) =? 0)%nat
  then (mkResp (respQueue st) (respBase st) (out st ++ d) (iov st), None)
  else let '(slotIdx, st) := allocResponseSlot st in (st, Some (slotIdx, d)).

(** [relIdx := slotIdx - cctx.respBase; cctx.respQueue[relIdx].fanIn = fi] *)
Definition setFanIn (slotIdx : nat) (fi : fanInState) (st : respState) : outcome respState :=
  let relIdx := Z.of_nat slotIdx - Z.of_nat (respBase st) in
  if rel_out relIdx st then Panic else
  Ok (mkResp (alter (fun sl => mkSlot (ready sl) (data sl) (Some fi)) (Z.to_nat relIdx) (respQueue st))
        (respBase st) (out st) (iov st)).

(** ** What the event loop does to one connection

    One callback for a backend's traffic delivers any number of replies to the
    connection and ends by flushing the accumulated writes; the other events run
    between such callbacks. *)

Inductive reply :=
| RReply (absIdx : nat) (d : bytes)
| RSub (absIdx sub : nat) (d : bytes).

Inductive qevent :=
| QAlloc
| QAllocFan (fi : fanInState)
| QFill (absIdx : nat) (d : bytes)
| QTraffic (rs : list reply)
| QImmediate (d : bytes).

Definition run_reply (st : respState) (r : reply) : outcome respState :=
  match r with
  | RReply i d => Ok (accumulateResponseSlot i d st)
  | RSub i j d => accumulateFanInSubResponse i j d st
  end.

Fixpoint foldM {A B} (f : A -> B -> outcome A) (a : A) (l : list B) : outcome A :=
  match l with
  | [] => Ok a
  | b :: l' => a' ← f a b; foldM f a' l'
  end.

(** [QImmediate] is what [writeImmediate] does at once; the fill it may post is a
    later [QFill]. *)
Definition run_event (st : respState) (ev : qevent) : outcome respState :=
  match ev with
  | QAlloc => Ok (snd (allocResponseSlot st))
  | QAllocFan fi => let '(i, st) := allocResponseSlot st in setFanIn i fi st
  | QFill i d => Ok (fillResponseSlotInLoop i d st)
  | QTraffic rs => st ← foldM run_reply st rs; Ok (flush_accum st)
  | QImmediate d => Ok (fst (writeImmediate d st))
  end.

(** ** Specification: a log of all requests

    Slot [i] of the connection is the entry [direct + i] of the log, [direct]
    being the number of replies written without a slot.  An entry is delivered
    when every entry up to it is ready. *)

Record logState := mkLog {
  log : list responseSlot;
  direct : nat;
}.

Definition log_init : logState := mkLog [] 0.
Definition delivered (s : logState) : bytes := concat (map data (take (headReady (log s)) (log s))).

(** The entry of slot [i], when the slot exists and is not delivered yet. *)
Definition log_open (i : nat) (s : logState) : option responseSlot :=
  if (headReady (log s) <=? direct s + i)%nat then log s !! (direct s + i)%nat else None.

Definition log_set (i : nat) (sl : responseSlot) (s : logState) : logState :=
  mkLog (<[(direct s + i)%nat := sl]> (log s)) (direct s).

Definition log_fill (i : nat) (d : bytes) (s : logState) : logState :=
  match log_open i s with
  | Some sl => log_set i (mkSlot true d (fanIn sl)) s
  | None => s
  end.

Definition log_reply (s : logState) (r : reply) : outcome logState :=
  match r with
  | RReply i d =>
      Ok (match log_open i s with
          | Some (mkSlot _ _ None) => log_set i (mkSlot true d None) s
          | _ => s
          end)
  | RSub i j d =>
      match log_open i s with
      | Some (mkSlot r d0 (Some fi)) =>
          fi ← fan_receive fi j d;
          if received fi <? total fi then Ok (log_set i (mkSlot r d0 (Some fi)) s)
          else merged ← mergeFunc fi (subData fi); Ok (log_set i (mkSlot true merged None) s)
      | _ => Ok s
      end
  end.

Definition log_event (s : logState) (ev : qevent) : outcome logState :=
  match ev with
  | QAlloc => Ok (mkLog (log s ++ [empty_slot]) (direct s))
  | QAllocFan fi => Ok (mkLog (log s ++ [mkSlot false [] (Some fi)]) (direct s))
  | QFill i d => Ok (log_fill i d s)
  | QTraffic rs => foldM log_reply s rs
  | QImmediate d =>
      Ok (if (headReady (log s) =? length (log s))%nat
          then mkLog (log s ++ [mkSlot true d None]) (S (direct s))
          else mkLog (log s ++ [empty_slot]) (direct s))
  end.

(** ** Refinement *)

(** The queue is the undelivered part of the log, its first slot is not ready,
    and what was written or accumulated is the delivered part. *)
Record queue_rel (st : respState) (s : logState) : Prop := {
  qr_split : exists pre, log s = pre ++ respQueue st /\
    Forall (fun sl => ready sl = true) pre /\
    length pre = (direct s + respBase st)%nat /\
    out st ++ concat (iov st) = concat (map data pre);
  qr_head : headReady (respQueue st) = 0%nat;
}.

Lemma headReady_app pre q :
  Forall (fun sl => ready sl = true) pre -> headReady (pre ++ q) = (length pre + headReady q)%nat.
Proof. induction 1 as [|sl pre H _ IH]; [done|]. simpl. by rewrite H, IH. Qed.

Lemma headReady_take q : Forall (fun sl => ready sl = true) (take (headReady q) q).
Proof. induction q as [|[[] d f] q IH]; simpl; [done| |done]. by constructor. Qed.

Lemma headReady_drop q : headReady (drop (headReady q) q) = 0%nat.
Proof. induction q as [|[[] d f] q IH]; done. Qed.

Lemma headReady_le q : (headReady q <= length q)%nat.
Proof. induction q as [|[[] d f] q IH]; simpl; lia. Qed.

Lemma headReady_all q : headReady q = length q -> Forall (fun sl => ready sl = true) q.
Proof. intros H. rewrite <- (firstn_all q), <- H. apply headReady_take. Qed.

(** Making a slot other than the head ready does not move the head. *)
Lemma headReady_alter_later f k q :
  headReady q = 0%nat -> k <> 0%nat -> headReady (alter f k q) = 0%nat.
Proof. destruct q as [|[[] ? ?] q], k; done. Qed.

Section step.
Context (st : respState) (s : logState) (Hrel : queue_rel st s).

Lemma rel_headReady : headReady (log s) = (direct s + respBase st)%nat.
Proof.
  destruct Hrel as [(pre & -> & Hr & Hl & _) Hh]. rewrite headReady_app, Hh by done. lia.
Qed.

Lemma rel_length : length (log s) = (direct s + respBase st + length (respQueue st))%nat.
Proof. destruct Hrel as [(pre & -> & _ & Hl & _) _]. rewrite length_app. lia. Qed.

Lemma rel_delivered : out st ++ concat (iov st) = delivered s.
Proof.
  unfold delivered. rewrite rel_headReady.
  destruct Hrel as [(pre & -> & _ & <- & ->) _]. by rewrite take_app_length.
Qed.

(** The slot of an absolute index, seen from both sides. *)
Lemma rel_open i :
  match log_open i s with
  | None => rel_out (Z.of_nat i - Z.of_nat (respBase st)) st = true
  | Some sl => rel_out (Z.of_nat i - Z.of_nat (respBase st)) st = false /\
      respQueue st !! Z.to_nat (Z.of_nat i - Z.of_nat (respBase st)) = Some sl
  end.
Proof.
  unfold log_open. rewrite rel_headReady. destruct (_ <=? _)%nat eqn:E.
  - apply Nat.leb_le in E. unfold rel_out. rewrite (proj2 (Z.ltb_ge _ _)) by lia. cbn [orb].
    destruct Hrel as [(pre & -> & _ & Hl & _) _]. rewrite lookup_app_r by lia.
    replace (Z.to_nat (Z.of_nat i - Z.of_nat (respBase st)))
      with (direct s + i - length pre)%nat by lia.
    destruct (respQueue st !! _) eqn:Eq.
    + apply lookup_lt_Some in Eq as ?. split; [|done]. apply Z.leb_gt. lia.
    + apply lookup_ge_None in Eq. apply Z.leb_le. lia.
  - apply Nat.leb_gt in E. unfold rel_out. by rewrite (proj2 (Z.ltb_lt _ _)) by lia.
Qed.

(** Setting an open slot on both sides, then moving the new ready prefix to the
    output (all of it, possibly nothing), keeps the relation. *)
Lemma rel_set i sl o v :
  is_Some (log_open i s) ->
  let q := <[Z.to_nat (Z.of_nat i - Z.of_nat (respBase st)) := sl]> (respQueue st) in
  o ++ concat v = out st ++ concat (iov st) ++ concat (map data (take (headReady q) q)) ->
  queue_rel (mkResp (drop (headReady q) q) (respBase st + headReady q) o v) (log_set i sl s).
Proof.
  intros [sl0 Hopen] q Hout. pose proof (rel_open i) as Ho. rewrite Hopen in Ho.
  destruct Ho as [Hr _]. unfold rel_out in Hr. apply orb_false_iff in Hr as [Hr1 Hr2]. bool_arith.
  destruct Hrel as [(pre & Hlog & Hpre & Hl & Hd) Hh].
  split; cbn [respQueue respBase out iov]; [|apply headReady_drop].
  exists (pre ++ take (headReady q) q). unfold log_set. cbn [log direct]. repeat split.
  - rewrite Hlog, insert_app_r_alt by lia. rewrite <- app_assoc, take_drop. subst q. do 2 f_equal. lia.
  - apply Forall_app. split; [done|apply headReady_take].
  - rewrite length_app, length_take. pose proof (headReady_le q). lia.
  - rewrite Hout, app_assoc, Hd, map_app, concat_app. done.
Qed.

(** The same without the move, when the head does not change. *)
Lemma rel_set_wait i sl o v :
  is_Some (log_open i s) ->
  let q := <[Z.to_nat (Z.of_nat i - Z.of_nat (respBase st)) := sl]> (respQueue st) in
  headReady q = 0%nat -> o = out st -> v = iov st ->
  queue_rel (mkResp q (respBase st) o v) (log_set i sl s).
Proof.
  intros Hopen q Hq -> ->. pose proof (rel_set i sl (out st) (iov st) Hopen) as H.
  cbv zeta in H. fold q in H. rewrite Hq, Nat.add_0_r, drop_0 in H.
  apply H. simpl. by rewrite app_nil_r.
Qed.

End step.

Lemma alter_lookup_insert {A} (f : A -> A) i (l : list A) x :
  l !! i = Some x -> alter f i l = <[i := f x]> l.
Proof.
  revert i. induction l as [|y l IH]; intros [|i] H; [done|done| |].
  - cbn in H. injection H as ->. done.
  - change (alter f (S i) (y :: l)) with (y :: alter f i l). by rewrite IH.
Qed.

(** Reasoning with the case analysis both sides share. *)
Ltac open_slot Hrel i :=
  let H := fresh "Ho" in
  pose proof (rel_open _ _ Hrel i) as H;
  destruct (log_open i _) as [sl|] eqn:Eopen;
  [let Hr := fresh "Hr" in destruct H as [Hr Hsl]; rewrite Hr | rewrite H].

Lemma fill_refines st s i d :
  queue_rel st s -> iov st = [] -> queue_rel (fillResponseSlotInLoop i d st) (log_fill i d s).
Proof.
  intros Hrel Hiov. unfold fillResponseSlotInLoop, log_fill.
  open_slot Hrel i; [|done].
  rewrite (alter_lookup_insert _ _ _ sl Hsl). set (q := <[_ := _]> _).
  destruct (headReady q =? 0)%nat eqn:E.
  - apply Nat.eqb_eq in E. by apply rel_set_wait.
  - apply rel_set; [done|by eauto|]. fold q. rewrite Hiov. simpl. by rewrite app_nil_r.
Qed.

Lemma accumulate_ready_refines st s i d sl :
  queue_rel st s -> log_open i s = Some sl ->
  queue_rel (accumulate_ready (Z.to_nat (Z.of_nat i - Z.of_nat (respBase st))) d None st)
    (log_set i (mkSlot true d None) s).
Proof.
  intros Hrel Eopen. pose proof (rel_open _ _ Hrel i) as Ho. rewrite Eopen in Ho.
  destruct Ho as [_ Hsl]. unfold accumulate_ready.
  rewrite (alter_lookup_insert _ _ _ sl Hsl). rewrite (qr_head _ _ Hrel).
  set (k := Z.to_nat _) in *. destruct (k =? 0)%nat eqn:E.
  - apply rel_set; [done|by eauto|]. by rewrite concat_app.
  - apply Nat.eqb_neq in E. apply rel_set_wait; [done|by eauto| |done|done].
    pose proof (alter_lookup_insert (fun _ => mkSlot true d None) _ _ sl Hsl) as Ha.
    cbv beta in Ha. fold k. rewrite <- Ha. apply headReady_alter_later; [apply Hrel|done].
Qed.

Lemma reply_refines st s r :
  queue_rel st s ->
  match run_reply st r, log_reply s r with
  | Ok st', Ok s' => queue_rel st' s'
  | Panic, Panic => True
  | Err e, Err e' => e = e'
  | NoFuel, NoFuel => True
  | _, _ => False
  end.
Proof.
  intros Hrel. destruct r as [i d|i j d]; cbn [run_reply log_reply].
  - unfold accumulateResponseSlot. open_slot Hrel i; [|done]. rewrite Hsl. cbn.
    destruct sl as [r d0 [fi|]]; [done|]. by eapply accumulate_ready_refines.
  - unfold accumulateFanInSubResponse. open_slot Hrel i; [|done]. rewrite Hsl.
    destruct sl as [r d0 [fi|]]; [|done].
    destruct (fan_receive fi j d) as [fi'|e| |]; go_simp; try done.
    destruct (received fi' <? total fi'); go_simp.
    + apply rel_set_wait; [done|by eauto| |done|done]. pose proof (qr_head _ _ Hrel) as Hh.
      revert Hsl Hh. generalize (Z.to_nat (Z.of_nat i - Z.of_nat (respBase st))). clear.
      intros k. destruct (respQueue st) as [|[[] ? ?] q], k as [|k]; try done.
      cbn. intros H _. by simplify_eq.
    + destruct (mergeFunc fi' (subData fi')) as [m|e| |]; go_simp; try done.
      by eapply accumulate_ready_refines.
Qed.

(** Outcomes of the two machines that agree. *)
Definition same_outcome (o : outcome respState) (o' : outcome logState) : Prop :=
  match o, o' with
  | Ok st, Ok s => queue_rel st s /\ iov st = []
  | Err e, Err e' => e = e'
  | Panic, Panic => True
  | NoFuel, NoFuel => True
  | _, _ => False
  end.

Lemma replies_refine rs st s :
  queue_rel st s ->
  match foldM run_reply st rs, foldM log_reply s rs with
  | Ok st', Ok s' => queue_rel st' s'
  | Err e, Err e' => e = e'
  | Panic, Panic => True
  | NoFuel, NoFuel => True
  | _, _ => False
  end.
Proof.
  revert st s. induction rs as [|r rs IH]; intros st s Hrel; [done|]. cbn [foldM].
  pose proof (reply_refines st s r Hrel) as H.
  destruct (run_reply st r), (log_reply s r); try done. go_simp. by apply IH.
Qed.

Lemma flush_refines st s : queue_rel st s -> queue_rel (flush_accum st) s.
Proof.
  intros [(pre & ? & ? & ? & Hout) ?]. split; [|done]. exists pre. cbn.
  by rewrite app_nil_r, Hout.
Qed.

Lemma append_refines st s sl :
  queue_rel st s -> ready sl = false ->
  queue_rel (mkResp (respQueue st ++ [sl]) (respBase st) (out st) (iov st))
    (mkLog (log s ++ [sl]) (direct s)).
Proof.
  intros [(pre & Hlog & ? & ? & ?) Hh] Hsl. split; cbn.
  - exists pre. rewrite Hlog, <- app_assoc. done.
  - destruct (respQueue st) as [|[[] ? ?] q]; [|done|done]. cbn. by rewrite Hsl.
Qed.

Lemma event_refines st s ev :
  queue_rel st s -> iov st = [] -> same_outcome (run_event st ev) (log_event s ev).
Proof.
  intros Hrel Hiov. destruct ev as [|fi|i d|rs|d]; cbn [run_event log_event].
  - split; [by apply append_refines|done].
  - cbn. unfold setFanIn, rel_out. cbn [respQueue respBase out iov]. rewrite length_app. cbn [length].
    rewrite (proj2 (Z.ltb_ge _ _)), (proj2 (Z.leb_gt _ _)) by lia. cbn [orb].
    assert (forall l, alter (fun sl => mkSlot (ready sl) (data sl) (Some fi)) (length l)
      (l ++ [empty_slot]) = l ++ [mkSlot false [] (Some fi)]) as Ha.
    { induction l as [|x l IH]; [done|]. cbn. by f_equal. }
    replace (Z.to_nat _) with (length (respQueue st)) by lia. rewrite Ha.
    split; [by apply append_refines|done].
  - split; [by apply fill_refines|]. unfold fillResponseSlotInLoop. by repeat case_match.
  - pose proof (replies_refine rs st s Hrel) as H.
    destruct (foldM run_reply st rs), (foldM log_reply s rs); try done.
    split; [by apply flush_refines|done].
  - unfold writeImmediate. rewrite (rel_headReady _ _ Hrel), (rel_length _ _ Hrel).
    destruct (respQueue st) as [|sl q] eqn:Eq.
    + cbn [length Nat.eqb]. rewrite Nat.add_0_r, Nat.eqb_refl. split; [|done].
      destruct Hrel as [(pre & Hlog & Hpre & Hl & Hout) Hh]. rewrite Eq, app_nil_r in Hlog.
      rewrite Hiov, app_nil_r in Hout. split; [|done]. cbn.
      exists (pre ++ [mkSlot true d None]). rewrite Hlog, app_nil_r, length_app, map_app, concat_app.
      repeat split; [apply Forall_app; by repeat constructor|cbn; lia|].
      cbn. by rewrite Hiov, !app_nil_r, Hout.
    + rewrite (proj2 (Nat.eqb_neq (direct s + respBase st) _)) by (cbn; lia).
      cbn [length Nat.eqb]. split; [|done]. by apply append_refines.
Qed.

Lemma init_rel : queue_rel resp_init log_init.
Proof. split; [|done]. by exists []. Qed.

Lemma events_refine evs st s :
  queue_rel st s -> iov st = [] -> same_outcome (foldM run_event st evs) (foldM log_event s evs).
Proof.
  revert st s. induction evs as [|ev evs IH]; intros st s Hrel Hiov; [done|]. cbn [foldM].
  pose proof (event_refines st s ev Hrel Hiov) as H.
  destruct (run_event st ev), (log_event s ev); try done. go_simp. apply IH; apply H.
Qed.

(** ** Runs in which every request is answered once

    [ev_answers] lists the answers an event carries; [plain_run n evs] says that
    [evs] only issues plain requests and answers them after they were issued, [n]
    of them being issued before. *)

Definition reply_answers (r : reply) : list (nat * bytes) :=
  match r with RReply i d => [(i, d)] | RSub _ _ _ => [] end.

Definition ev_answers (ev : qevent) : list (nat * bytes) :=
  match ev with
  | QFill i d => [(i, d)]
  | QTraffic rs => concat (map reply_answers rs)
  | _ => []
  end.

Definition plain_reply (r : reply) : bool :=
  match r with RReply _ _ => true | RSub _ _ _ => false end.

Fixpoint plain_run (n : nat) (evs : list qevent) : bool :=
  match evs with
  | [] => true
  | ev :: evs' =>
      forallb (fun p => fst p <? n)%nat (ev_answers ev) &&
      match ev with
      | QAlloc => plain_run (S n) evs'
      | QFill _ _ => plain_run n evs'
      | QTraffic rs => forallb plain_reply rs && plain_run n evs'
      | _ => false
      end
  end.

Definition issues (ev : qevent) : nat := match ev with QAlloc => 1 | _ => 0 end.

(** [n] plain requests, of which those in [ans] are answered. *)
Record answered (n : nat) (ans : list (nat * bytes)) (s : logState) : Prop := {
  an_len : length (log s) = n;
  an_direct : direct s = 0%nat;
  an_done : forall i d, (i, d) ∈ ans -> log s !! i = Some (mkSlot true d None);
  an_todo : forall i, (i < n)%nat -> i ∉ ans.*1 -> log s !! i = Some empty_slot;
}.

Lemma headReady_unready q k sl :
  q !! k = Some sl -> ready sl = false -> (headReady q <= k)%nat.
Proof.
  revert k. induction q as [|[[] d f] q IH]; intros [|k] H Hr; simpl in *; try lia.
  - injection H as <-. done.
  - specialize (IH k H Hr). lia.
Qed.

Lemma answered_open n ans s i :
  answered n ans s -> (i < n)%nat -> i ∉ ans.*1 -> log_open i s = Some empty_slot.
Proof.
  intros H Hi Hn. pose proof (an_todo _ _ _ H i Hi Hn) as Hl. unfold log_open.
  rewrite (an_direct _ _ _ H). cbn [Nat.add].
  by rewrite (proj2 (Nat.leb_le _ _) (headReady_unready _ _ _ Hl eq_refl)).
Qed.

Lemma answered_set n ans s i d :
  answered n ans s -> (i < n)%nat -> i ∉ ans.*1 ->
  answered n ((i, d) :: ans) (log_set i (mkSlot true d None) s).
Proof.
  intros H Hi Hn. unfold log_set. rewrite (an_direct _ _ _ H). cbn [Nat.add]. split; cbn [log direct].
  - by rewrite length_insert, (an_len _ _ _ H).
  - done.
  - intros j e. rewrite elem_of_cons. intros [Heq|Hin].
    + injection Heq as -> ->. apply list_lookup_insert_eq. by rewrite (an_len _ _ _ H).
    + rewrite list_lookup_insert_ne; [by eapply an_done|]. intros ->.
      apply Hn, list_elem_of_fmap. by exists (j, e).
  - intros j Hj. rewrite fmap_cons, not_elem_of_cons. intros [Hne Hj']. cbn in Hne.
    rewrite list_lookup_insert_ne by done. by eapply an_todo.
Qed.

Lemma answered_alloc n ans s :
  answered n ans s -> answered (S n) ans (mkLog (log s ++ [empty_slot]) (direct s)).
Proof.
  intros H. split; cbn [log direct].
  - rewrite length_app, (an_len _ _ _ H). cbn. lia.
  - apply H.
  - intros i d Hin. apply lookup_app_l_Some. by eapply an_done.
  - intros i Hi Hn. destruct (decide (i < n)%nat).
    + apply lookup_app_l_Some. by eapply an_todo.
    + rewrite lookup_app_r by (rewrite (an_len _ _ _ H); lia). rewrite (an_len _ _ _ H).
      by replace (i - n)%nat with 0%nat by lia.
Qed.

Lemma answered_replies n rs ans s :
  answered n ans s -> forallb plain_reply rs = true ->
  forallb (fun p => fst p <? n)%nat (concat (map reply_answers rs)) = true ->
  NoDup ((concat (map reply_answers rs)).*1 ++ ans.*1) ->
  exists s' ans', foldM log_reply s rs = Ok s' /\ answered n ans' s' /\
    ans' ≡ₚ concat (map reply_answers rs) ++ ans.
Proof.
  revert ans s. induction rs as [|[i d|] rs IH]; intros ans s H Hp Hi Hnd; [by eauto| |done].
  cbn in Hp, Hi, Hnd. apply andb_prop in Hi as [Hlt Hi]. apply Nat.ltb_lt in Hlt.
  apply NoDup_cons in Hnd as [Hn Hnd]. apply not_elem_of_app in Hn as [Hn1 Hn2].
  cbn [foldM log_reply]. rewrite (answered_open n ans s i) by done. cbn. go_simp.
  destruct (IH ((i, d) :: ans) (log_set i (mkSlot true d None) s)) as (s' & ans' & Hf & Ha & Hperm).
  - by apply answered_set.
  - done.
  - done.
  - cbn. rewrite <- Permutation_middle. constructor; [|done]. by apply not_elem_of_app.
  - exists s', ans'. split; [done|]. split; [done|]. rewrite Hperm. cbn.
    by rewrite <- Permutation_middle.
Qed.

Lemma answered_run evs n ans s :
  answered n ans s -> plain_run n evs = true ->
  NoDup ((concat (map ev_answers evs)).*1 ++ ans.*1) ->
  exists s' ans', foldM log_event s evs = Ok s' /\
    answered (n + sum_list_with issues evs) ans' s' /\
    ans' ≡ₚ concat (map ev_answers evs) ++ ans.
Proof.
  revert n ans s. induction evs as [|ev evs IH]; intros n ans s H Hp Hnd.
  { exists s, ans. cbn. by rewrite Nat.add_0_r. }
  cbn [plain_run] in Hp. apply andb_prop in Hp as [Hi Hp].
  cbn [map concat] in Hnd. rewrite fmap_app, <- app_assoc in Hnd.
  assert (forall s1 ans1, log_event s ev = Ok s1 -> answered (n + issues ev) ans1 s1 ->
    ans1 ≡ₚ ev_answers ev ++ ans -> plain_run (n + issues ev) evs = true ->
    exists s' ans', foldM log_event s (ev :: evs) = Ok s' /\
      answered (n + sum_list_with issues (ev :: evs)) ans' s' /\
      ans' ≡ₚ concat (map ev_answers (ev :: evs)) ++ ans) as Hnext.
  { intros s1 ans1 Hev Ha Hperm Hp1.
    destruct (IH _ _ _ Ha Hp1) as (s' & ans' & Hf & Ha' & Hperm').
    - rewrite Hperm, fmap_app, app_assoc, (Permutation_app_comm (concat _).*1), <- app_assoc. done.
    - exists s', ans'. cbn [foldM]. rewrite Hev. go_simp. split; [done|].
      cbn [sum_list_with map concat]. rewrite Nat.add_assoc. split; [done|].
      rewrite Hperm', Hperm, app_assoc, (Permutation_app_comm (concat _)). done. }
  destruct ev as [|fi|i d|rs|d]; try done.
  - eapply Hnext; [done| |done|by rewrite Nat.add_1_r]. cbn. rewrite Nat.add_1_r.
    by apply answered_alloc.
  - cbn in Hi, Hnd. rewrite andb_true_r in Hi. apply Nat.ltb_lt in Hi.
    apply NoDup_cons in Hnd as [Hn _]. apply not_elem_of_app in Hn as [_ Hn].
    eapply (Hnext _ ((i, d) :: ans)); [done| |done|by rewrite Nat.add_0_r].
    cbn. rewrite Nat.add_0_r. unfold log_fill. rewrite (answered_open n ans s i) by done.
    by apply answered_set.
  - apply andb_prop in Hp as [Hpl Hp]. cbn [ev_answers] in Hi, Hnd.
    destruct (answered_replies n rs ans s) as (s1 & ans1 & Hf & Ha & Hperm); [done..| |].
    { rewrite app_assoc, (Permutation_app_comm (concat (map reply_answers rs)).*1),
        <- app_assoc in Hnd. by apply NoDup_app in Hnd as (_ & _ & ?). }
    eapply (Hnext s1 ans1); [done| |done|by rewrite Nat.add_0_r]. cbn. by rewrite Nat.add_0_r.
Qed.

Lemma answered_all n ans s ds :
  answered n ans s -> ans ≡ₚ imap pair ds -> n = length ds ->
  log s = map (fun d => mkSlot true d None) ds.
Proof.
  intros H Hperm Hn. apply list_eq. intros i. rewrite list_lookup_fmap.
  destruct (ds !! i) as [d|] eqn:E.
  - apply (an_done _ _ _ H). rewrite Hperm. apply list_elem_of_lookup. exists i.
    by rewrite list_lookup_imap, E.
  - apply lookup_ge_None in E. apply lookup_ge_None. rewrite (an_len _ _ _ H). lia.
Qed.

Lemma headReady_full q : Forall (fun sl => ready sl = true) q -> headReady q = length q.
Proof. intros H. rewrite <- (app_nil_r q) at 1. rewrite headReady_app by done. cbn. lia. Qed.

(** All requests answered once. *)
Lemma answers_in_order evs ds :
  plain_run 0 evs = true -> sum_list_with issues evs = length ds ->
  concat (map ev_answers evs) ≡ₚ imap pair ds ->
  foldM run_event resp_init evs = Ok (mkResp [] (length ds) (concat ds) []).
Proof.
  intros Hp Hn Hperm.
  destruct (answered_run evs 0 [] log_init) as (s & ans & Hf & Ha & Hperm').
  - split; [done|done| |]; intros i d Hin; [by apply not_elem_of_nil in Hin|lia].
  - done.
  - rewrite app_nil_r, Hperm, imap_pair_fst. apply NoDup_seq.
  - rewrite app_nil_r in Hperm'. pose proof (events_refine evs _ _ init_rel eq_refl) as H.
    rewrite Hf in H. destruct (foldM run_event resp_init evs) as [st| | |]; try done.
    destruct H as [Hrel Hiov].
    assert (Hlog : log s = map (fun d => mkSlot true d None) ds).
    { eapply answered_all; [done|by rewrite Hperm'|done]. }
    assert (Hh : headReady (log s) = length (log s)).
    { apply headReady_full. rewrite Hlog. apply Forall_fmap. by apply Forall_true. }
    pose proof (rel_headReady _ _ Hrel) as H1. pose proof (rel_length _ _ Hrel) as H2.
    pose proof (rel_delivered _ _ Hrel) as Hd. rewrite Hiov, app_nil_r in Hd.
    unfold delivered in Hd. rewrite Hh, firstn_all, Hlog, map_map in Hd. cbn in Hd. rewrite map_id in Hd.
    rewrite (an_direct _ _ _ Ha) in *. rewrite Hlog, length_map in *.
    destruct st as [q b o v]. cbn in *. destruct q; [|cbn in H2; lia]. cbn in H2. subst. do 2 f_equal. lia.
Qed.

(** A queue that starts at slot [b] with [o] already sent behaves like a new one. *)
Definition offset_queue (b : nat) (o : bytes) (q : respState) : respState :=
  mkResp (respQueue q) (b + respBase q) (o ++ out q) (iov q).

Definition offset_reply (b : nat) (r : reply) : reply :=
  match r with RReply i d => RReply (b + i) d | RSub i j d => RSub (b + i) j d end.

Lemma offset_accumulate b o i d q :
  accumulateResponseSlot (b + i) d (offset_queue b o q) = offset_queue b o (accumulateResponseSlot i d q).
Proof.
  unfold accumulateResponseSlot, rel_out, offset_queue. cbn [respBase respQueue].
  replace (Z.of_nat (b + i) - Z.of_nat (b + respBase q)) with (Z.of_nat i - Z.of_nat (respBase q)) by lia.
  destruct (_ || _); [done|]. destruct (respQueue q !! _ ≫= _); [done|]. unfold accumulate_ready. cbn.
  destruct (_ =? _)%nat; cbn; [|done]. f_equal. lia.
Qed.

Lemma offset_traffic b o rs q q' :
  forallb plain_reply rs = true -> run_event q (QTraffic rs) = Ok q' ->
  run_event (offset_queue b o q) (QTraffic (map (offset_reply b) rs)) = Ok (offset_queue b o q').
Proof.
  cbn [run_event]. intros Hp (q1 & Hf & [= <-])%outcome_bind_inv.
  assert (foldM run_reply (offset_queue b o q) (map (offset_reply b) rs) = Ok (offset_queue b o q1)) as ->.
  { revert q Hf. induction rs as [|[i d|] rs IH]; intros q Hf; [by injection Hf as <-| |done].
    cbn in *. rewrite offset_accumulate. go_simp. by apply IH. }
  go_simp. unfold flush_accum, offset_queue. cbn. by rewrite app_assoc.
Qed.

Lemma offset_rounds b o rounds q q' :
  forallb (forallb plain_reply) rounds = true -> foldM run_event q (map QTraffic rounds) = Ok q' ->
  foldM run_event (offset_queue b o q) (map (fun rs => QTraffic (map (offset_reply b) rs)) rounds) = Ok (offset_queue b o q').
Proof.
  revert q. induction rounds as [|rs rounds IH]; intros q Hp Hf; [by injection Hf as <-|].
  cbn [map foldM forallb] in *. apply andb_prop in Hp as [Hr Hp]. apply outcome_bind_inv in Hf as (q1 & H1 & Hf).
  rewrite (offset_traffic b o rs q q1) by done. go_simp. by apply IH.
Qed.

(** ** Properties *)

(** C3: refinement: whatever sequence of requests, replies (in any order, several
    per callback, fan-in parts included) and immediate answers the event loop
    handles, the bytes sent to the client are the replies of the longest fully
    answered prefix of its requests, in request order, as the log specifies; the
    queue holds exactly the requests after that prefix, and one machine panics
    where the other does. *)
Theorem queue_refines evs :
  match foldM run_event resp_init evs, foldM log_event log_init evs with
  | Ok st, Ok s =>
      out st = delivered s /\ iov st = [] /\ respQueue st = drop (headReady (log s)) (log s)
  | Err e, Err e' => e = e'
  | Panic, Panic => True
  | NoFuel, NoFuel => True
  | _, _ => False
  end.
Proof.
  pose proof (events_refine evs _ _ init_rel eq_refl) as H. revert H.
  destruct (foldM run_event resp_init evs) as [st| | |], (foldM log_event log_init evs) as [s| | |];
    try done.
  intros [Hrel Hiov]. split; [|split; [done|]].
  - rewrite <- (rel_delivered _ _ Hrel), Hiov. cbn. by rewrite app_nil_r.
  - rewrite (rel_headReady _ _ Hrel). destruct Hrel as [(pre & -> & _ & <- & _) _].
    by rewrite drop_app_length.
Qed.

(** C2: pipelining keeps the order: when each of a client's requests is answered
    once, in whatever order the answers come and however they are grouped into
    callbacks, the client receives the answers in the order of its requests, all
    of them, and nothing is left in the queue. *)
Theorem replies_in_request_order evs ds :
  plain_run 0 evs = true -> sum_list_with issues evs = length ds ->
  concat (map ev_answers evs) ≡ₚ imap pair ds ->
  exists st, foldM run_event resp_init evs = Ok st /\ out st = concat ds /\ respQueue st = [].
Proof.
  intros Hp Hn Hperm. rewrite (answers_in_order evs ds) by done. by eexists.
Qed.

Lemma replies_in_request_order_witness :
  exists st, foldM run_event resp_init
      [QAlloc; QAlloc; QFill 1 (bs "+b"); QAlloc; QTraffic [RReply 2 (bs "+c"); RReply 0 (bs "+a")]]
    = Ok st /\ out st = bs "+a+b+c" /\ respQueue st = [].
Proof.
  apply (replies_in_request_order _ [bs "+a"; bs "+b"; bs "+c"]); [reflexivity|reflexivity|].
  cbn. apply (Permutation_app_comm [_; _] [_]).
Defined.
