(* ===== verification/Mux.v ===== *)
(** * Mux: the backend multiplexer of an event loop

    Model of [pkg/engine/backend_mux.go].  The requests of all clients of an event
    loop share one connection per backend node; a reply belongs to the oldest
    request of its connection that has none.

    [evloop] is the state of one event loop: the multiplexer ([conns], [dialing]),
    the client connections ([clients], by an identifier; a connection that was
    closed has no entry, as its gnet context is gone), the fills posted to the loop
    ([tasks]), and what the loop did to the outside: the bytes written to each
    backend ([wire], kept with the connection), the dials started ([dials]), the
    topology refreshes triggered ([refreshes]).  The functions gnet calls are the
    events of [step].

    Whether a dial fails at once ([net.ResolveTCPAddr], [EventLoop.Register]) is
    decided outside the program: [dial_error n addr] is the error of the [n]-th dial,
    if it has one.  Map iterations over connections write to distinct connections, so
    their order does not matter, and they are [fmap]s here. *)

From S2P Require Import Prelude GoStd Value RespParse Topology RespQueue.

Record pendingClientReq := mkPending {
  clientConn : nat;
  slotIdx : nat;
  depth : Z;
  req : option Request;
  skipReply : bool;
  isAskSentinel : bool;
  hasFanIn : bool;
  fanInIdx : nat;
}.

Record backendMuxConn := mkConn {
  pending : list pendingClientReq;
  head : nat;
  writeBuf : bytes;
  wire : bytes;
}.

(** A fill posted to the loop: client connection, slot, bytes. *)
Record task := mkTask {
  t_conn : nat;
  t_slot : nat;
  t_data : bytes;
}.

Record evloop := mkLoop {
  conns : gmap bytes backendMuxConn;
  dialing : gmap bytes (list pendingClientReq);
  clients : gmap nat respState;
  tasks : list task;
  topology : Topology;
  muxConnCounts : gmap bytes Z;
  dials : list bytes;
  refreshes : nat;
}.

Definition upd_conns (f : gmap bytes backendMuxConn -> gmap bytes backendMuxConn) (w : evloop) :=
  mkLoop (f (conns w)) (dialing w) (clients w) (tasks w) (topology w) (muxConnCounts w) (dials w)
    (refreshes w).
Definition upd_dialing (f : gmap bytes (list pendingClientReq) -> gmap bytes (list pendingClientReq))
    (w : evloop) :=
  mkLoop (conns w) (f (dialing w)) (clients w) (tasks w) (topology w) (muxConnCounts w) (dials w)
    (refreshes w).
Definition upd_clients (f : gmap nat respState -> gmap nat respState) (w : evloop) :=
  mkLoop (conns w) (dialing w) (f (clients w)) (tasks w) (topology w) (muxConnCounts w) (dials w)
    (refreshes w).
Definition upd_tasks (f : list task -> list task) (w : evloop) :=
  mkLoop (conns w) (dialing w) (clients w) (f (tasks w)) (topology w) (muxConnCounts w) (dials w)
    (refreshes w).
Definition upd_counts (f : gmap bytes Z -> gmap bytes Z) (w : evloop) :=
  mkLoop (conns w) (dialing w) (clients w) (tasks w) (topology w) (f (muxConnCounts w)) (dials w)
    (refreshes w).
Definition add_dial (addr : bytes) (w : evloop) :=
  mkLoop (conns w) (dialing w) (clients w) (tasks w) (topology w) (muxConnCounts w)
    (dials w ++ [addr]) (refreshes w).
Definition trigger_refresh (w : evloop) :=
  mkLoop (conns w) (dialing w) (clients w) (tasks w) (topology w) (muxConnCounts w) (dials w)
    (S (refreshes w)).

Definition newBackendMux (cs : gmap nat respState) (t : Topology) : evloop :=
  mkLoop ∅ ∅ cs [] t ∅ [] 0.

(** A nil request is dereferenced. *)
Definition rawBytes (r : option Request) : outcome bytes :=
  match r with
  | None => Panic
  | Some r => Ok (if (0 <? length (Raw r))%nat then Raw r else EncodeCommandBytes (Args r))
  end.

Definition readonlyBytes : bytes := bs "*1" ++ CRLF ++ bs "$8" ++ CRLF ++ bs "READONLY" ++ CRLF.
Definition askingBytes : bytes := bs "*1" ++ CRLF ++ bs "$6" ++ CRLF ++ bs "ASKING" ++ CRLF.
Definition maxMuxRedirects : Z := 16.

(** The fills posted for requests that will get no reply: those that are not skipped
    and whose client is still there. *)
Definition error_tasks (cs : gmap nat respState) (d : bytes) (ps : list pendingClientReq) : list task :=
  omap (fun p => if skipReply p then None else
                 match cs !! clientConn p with
                 | Some _ => Some (mkTask (clientConn p) (slotIdx p) d)
                 | None => None
                 end) ps.

Definition queued (addr : bytes) (w : evloop) : list pendingClientReq := default [] (dialing w !! addr).

Definition failDialing (addr msg : bytes) (w : evloop) : evloop :=
  let q := queued addr w in
  let w := upd_dialing (delete addr) w in
  upd_tasks (fun ts => ts ++ error_tasks (clients w) (EncodeError msg) q) w.

Section dial.
Context (dial_error : nat -> bytes -> option bytes).

Definition dialBackend (addr : bytes) (w : evloop) : evloop :=
  let n := length (dials w) in
  let w := add_dial addr w in
  match dial_error n addr with
  | Some msg => failDialing addr msg w
  | None => w
  end.

Definition push_conn (ps : list pendingClientReq) (buf direct : bytes) (bc : backendMuxConn)
    : backendMuxConn :=
  mkConn (pending bc ++ ps) (head bc) (writeBuf bc ++ buf) (wire bc ++ direct).

Definition send (addr : bytes) (p : pendingClientReq) (w : evloop) : outcome evloop :=
  match conns w !! addr with
  | Some bc =>
      raw ← rawBytes (req p);
      Ok (upd_conns <[addr := push_conn [p] raw [] bc]> w)
  | None =>
      let q := queued addr w ++ [p] in
      let w := upd_dialing <[addr := q]> w in
      Ok (if (length q =? 1)%nat then dialBackend addr w else w)
  end.

Definition ask_sentinel (p : pendingClientReq) : pendingClientReq :=
  mkPending (clientConn p) (slotIdx p) (depth p) (req p) true true false 0.

(** ASKING and the command are written to the connection at once. *)
Definition sendAsk (addr : bytes) (p : pendingClientReq) (w : evloop) : outcome evloop :=
  match conns w !! addr with
  | Some bc =>
      raw ← rawBytes (req p);
      Ok (upd_conns <[addr := push_conn [ask_sentinel p; p] [] (askingBytes ++ raw) bc]> w)
  | None =>
      let wasEmpty := (length (queued addr w) =? 0)%nat in
      let w := upd_dialing <[addr := queued addr w ++ [ask_sentinel p; p]]> w in
      Ok (if wasEmpty then dialBackend addr w else w)
  end.

Definition isReplicaAddr (addr : bytes) (w : evloop) : bool :=
  match GetNodeByAddr addr (topology w) with
  | Some n => negb (is_master n)
  | None => false
  end.

Definition queued_bytes (p : pendingClientReq) : outcome bytes :=
  if isAskSentinel p then Ok askingBytes else rawBytes (req p).

Fixpoint queued_wire (ps : list pendingClientReq) : outcome bytes :=
  match ps with
  | [] => Ok []
  | p :: ps' => b ← queued_bytes p; r ← queued_wire ps'; Ok (b ++ r)
  end.

Definition incMuxConn (addr : bytes) (m : gmap bytes Z) : gmap bytes Z :=
  <[addr := default 0 (m !! addr) + 1]> m.
Definition decMuxConn (addr : bytes) (m : gmap bytes Z) : gmap bytes Z :=
  match m !! addr with Some n => <[addr := n - 1]> m | None => m end.

Definition onOpen (addr : bytes) (w : evloop) : outcome evloop :=
  let q := queued addr w in
  let w := upd_counts (incMuxConn addr) w in
  let w := upd_dialing (delete addr) w in
  let '(ps, b) := match q with
                  | p0 :: _ =>
                      if isReplicaAddr addr w
                      then ([mkPending (clientConn p0) (slotIdx p0) 0 None true false false 0], readonlyBytes)
                      else ([], [])
                  | [] => ([], [])
                  end in
  raw ← queued_wire q;
  Ok (upd_conns <[addr := mkConn (ps ++ q) 0 [] (b ++ raw)]> w).

(** The requests of a connection that have no reply yet. *)
Definition live (bc : backendMuxConn) : list pendingClientReq := drop (head bc) (pending bc).

Definition onClose (addr : bytes) (w : evloop) : evloop :=
  match conns w !! addr with
  | Some bc =>
      let d := EncodeError (bs "ERR cluster node disconnected: " ++ addr) in
      let w := upd_tasks (fun ts => ts ++ error_tasks (clients w) d (live bc)) w in
      let w := upd_conns (delete addr) w in
      upd_counts (decMuxConn addr) w
  | None => w
  end.

Definition flushBackendWrites (w : evloop) : evloop :=
  upd_conns (fmap (fun bc => mkConn (pending bc) (head bc) [] (wire bc ++ writeBuf bc))) w.

Definition flushWriteAccum (w : evloop) : evloop := upd_clients (fmap flush_accum) w.

(** ** Replies *)

Definition parseRedirectionMsg (msg : bytes) : outcome (Z * bytes) :=
  parse_redirection msg (bs "invalid slot: ").

(** What the loop of [onTraffic] does with a reply, once it has its request. *)
Inductive decision :=
| DSkip
| DMoved (addr : bytes)
| DAsk (addr : bytes)
| DAnswer.

Definition decide_reply (p : pendingClientReq) (kind : ErrorKind) (errMsg : bytes) : decision :=
  if skipReply p then DSkip else
  match kind, (depth p <? maxMuxRedirects), parseRedirectionMsg errMsg with
  | ErrorKindMoved, true, Ok (_, addr) => DMoved addr
  | ErrorKindAsk, true, Ok (_, addr) => DAsk addr
  | _, _, _ => DAnswer
  end.

Definition redirected (p : pendingClientReq) : pendingClientReq :=
  mkPending (clientConn p) (slotIdx p) (depth p + 1) (req p) false false (hasFanIn p) (fanInIdx p).

(** The reply reaches the client's queue. *)
Definition answer (p : pendingClientReq) (raw : bytes) (w : evloop) : outcome evloop :=
  match clients w !! clientConn p with
  | None => Ok w
  | Some st =>
      st ← run_reply st (if hasFanIn p then RSub (slotIdx p) (fanInIdx p) raw
                         else RReply (slotIdx p) raw);
      Ok (upd_clients <[clientConn p := st]> w)
  end.

(** [bc.head++], with the reset when the list is used up. *)
Definition pop_conn (bc : backendMuxConn) : backendMuxConn :=
  if (S (head bc) =? length (pending bc))%nat
  then mkConn [] 0 (writeBuf bc) (wire bc)
  else mkConn (pending bc) (S (head bc)) (writeBuf bc) (wire bc).

Definition handle_reply (addr raw : bytes) (kind : ErrorKind) (errMsg : bytes) (w : evloop)
    : outcome evloop :=
  match conns w !! addr with
  | None => Ok w
  | Some bc =>
      match pending bc !! head bc with
      | None => Ok w
      | Some p =>
          let w := upd_conns <[addr := pop_conn bc]> w in
          match decide_reply p kind errMsg with
          | DSkip => Ok w
          | DMoved newAddr => send newAddr (redirected p) (trigger_refresh w)
          | DAsk newAddr => sendAsk newAddr (redirected p) w
          | DAnswer => answer p raw w
          end
      end
  end.

(** The loop over the buffer, with the bytes it leaves. *)
Fixpoint traffic_loop (fuel : nat) (addr remaining : bytes) (w : evloop) : outcome (evloop * bytes) :=
  match fuel with
  | O => NoFuel
  | S fuel =>
      if (length remaining =? 0)%nat then Ok (w, remaining) else
      '(consumed, kind, errMsg) ← ScanValue remaining;
      if consumed =? 0 then Ok (w, remaining) else
      raw ← slice remaining 0 consumed;
      w ← handle_reply addr raw kind errMsg w;
      traffic_loop fuel addr (drop (Z.to_nat consumed) remaining) w
  end.

Inductive action := ActNone | ActClose.

Definition onTraffic (addr buf : bytes) (w : evloop) : outcome (evloop * bytes * action) :=
  match conns w !! addr with
  | None => Ok (w, buf, ActClose)
  | Some _ =>
      if (length buf =? 0)%nat then Ok (w, buf, ActNone) else
      '(w, rest) ← traffic_loop (S (length buf)) addr buf w;
      Ok (flushBackendWrites (flushWriteAccum w), rest, ActNone)
  end.

(** A posted fill runs: the closure holds the client's context; a fill for a
    connection that is gone changes nothing anyone sees. *)
Definition run_task (t : task) (w : evloop) : evloop :=
  upd_clients (alter (fillResponseSlotInLoop (t_slot t) (t_data t)) (t_conn t)) w.

(** ** Events

    [EClient] is the part of [onClientTraffic] that concerns the multiplexer: the
    requests of one read are routed to nodes and the buffered bytes are flushed. *)

Inductive event :=
| EClient (rs : list (bytes * pendingClientReq))
| EOpen (addr : bytes)
| EClose (addr : bytes)
| EDialFailed (addr msg : bytes)
| ETraffic (addr buf : bytes)
| ETask.

Definition step (w : evloop) (e : event) : outcome evloop :=
  match e with
  | EClient rs => w ← foldM (fun w r => send (fst r) (snd r) w) w rs; Ok (flushBackendWrites w)
  | EOpen addr => onOpen addr w
  | EClose addr => Ok (onClose addr w)
  | EDialFailed addr msg => Ok (failDialing addr msg w)
  | ETraffic addr buf => '(w, _, _) ← onTraffic addr buf w; Ok w
  | ETask =>
      match tasks w with
      | [] => Ok w
      | t :: ts => Ok (run_task t (upd_tasks (fun _ => ts) w))
      end
  end.

Definition run (w : evloop) (es : list event) : outcome evloop := foldM step w es.

End dial.
