(* ===== verification/MuxFacts.v ===== *)
(** * MuxFacts: correctness of the backend multiplexer

    A backend connection is specified by the log of the commands put on it and the
    number of replies taken from it: the bytes handed to the connection are those of
    the log, and reply number [n] belongs to command number [n] ([conn_log]).  The
    file proves that the multiplexer keeps this, that a callback hands every reply to
    the request it belongs to, that no request of a client is lost, and that
    redirections are bounded. *)

From S2P Require Import Prelude GoStd Value RespParse RespFacts Topology RespQueue Mux.

(** The bytes a pending entry stands for on the wire. *)
Definition cmd_bytes (p : pendingClientReq) : bytes :=
  if isAskSentinel p then askingBytes
  else if skipReply p then readonlyBytes
  else match rawBytes (req p) with Ok b => b | _ => [] end.

Definition conn_log (bc : backendMuxConn) (log : list pendingClientReq) (n : nat) : Prop :=
  wire bc ++ writeBuf bc = concat (map cmd_bytes log) /\
  live bc = drop n log /\ (n <= length log)%nat.

(** A request of a client, with its command, redirected at most 16 times. *)
Definition is_request (p : pendingClientReq) : Prop :=
  skipReply p = false /\ isAskSentinel p = false /\ is_Some (req p) /\
  0 <= depth p <= maxMuxRedirects.

(** What waits for a dial: requests and ASKING sentinels. *)
Definition is_queued (p : pendingClientReq) : Prop :=
  (isAskSentinel p = true /\ skipReply p = true) \/ is_request p.

Lemma is_request_raw p : is_request p -> rawBytes (req p) = Ok (cmd_bytes p).
Proof. intros (Hs & Ha & [r Hr] & _). unfold cmd_bytes. by rewrite Ha, Hs, Hr. Qed.

Lemma queued_wire_ok q : Forall is_queued q -> queued_wire q = Ok (concat (map cmd_bytes q)).
Proof.
  induction 1 as [|p q Hp _ IH]; [done|]. cbn [queued_wire map concat].
  assert (queued_bytes p = Ok (cmd_bytes p)) as ->.
  { unfold queued_bytes. destruct Hp as [[Ha _]|Hp].
    - unfold cmd_bytes. by rewrite Ha.
    - destruct Hp as (? & Ha & ? & ?) eqn:E. rewrite Ha. by apply is_request_raw. }
  go_simp. by rewrite IH.
Qed.

(** ** Operations on one connection *)

Lemma live_push ps b d bc :
  (head bc <= length (pending bc))%nat -> live (push_conn ps b d bc) = live bc ++ ps.
Proof. intros H. unfold live, push_conn. cbn. by rewrite drop_app_le. Qed.

Lemma live_pop bc p :
  pending bc !! head bc = Some p -> live bc = p :: live (pop_conn bc).
Proof.
  intros H. unfold live, pop_conn. rewrite (drop_S _ _ _ H). f_equal.
  destruct (_ =? _)%nat eqn:E; [|done]. apply Nat.eqb_eq in E. cbn. rewrite E. apply drop_all.
Qed.

Lemma live_head bc p ps : live bc = p :: ps -> pending bc !! head bc = Some p.
Proof.
  unfold live. intros H. rewrite <- (Nat.add_0_r (head bc)), <- lookup_drop, H. done.
Qed.

(** The head index stays in the list. *)
Definition head_ok (bc : backendMuxConn) : Prop := (head bc <= length (pending bc))%nat.

Lemma head_ok_push ps b d bc : head_ok bc -> head_ok (push_conn ps b d bc).
Proof. unfold head_ok, push_conn. cbn. rewrite length_app. lia. Qed.

Lemma head_ok_pop bc p : pending bc !! head bc = Some p -> head_ok (pop_conn bc).
Proof.
  intros H%lookup_lt_Some. unfold head_ok, pop_conn.
  destruct (_ =? _)%nat eqn:E; cbn; [lia|]. apply Nat.eqb_neq in E. lia.
Qed.

Lemma conn_log_push bc log n p :
  conn_log bc log n -> head_ok bc -> is_request p ->
  conn_log (push_conn [p] (cmd_bytes p) [] bc) (log ++ [p]) n.
Proof.
  intros (Hw & Hl & Hn) Hh Hp. split; [|split].
  - cbn. rewrite app_nil_r, app_assoc, Hw, map_app, concat_app. cbn. by rewrite app_nil_r.
  - rewrite live_push, Hl, drop_app_le by done. done.
  - rewrite length_app. lia.
Qed.

(** Writing past the buffer keeps the log only when nothing is buffered. *)
Lemma conn_log_push_ask bc log n p :
  conn_log bc log n -> head_ok bc -> is_request p -> writeBuf bc = [] ->
  conn_log (push_conn [ask_sentinel p; p] [] (askingBytes ++ cmd_bytes p) bc)
    (log ++ [ask_sentinel p; p]) n.
Proof.
  intros (Hw & Hl & Hn) Hh Hp Hb. rewrite Hb, app_nil_r in Hw. split; [|split].
  - cbn. rewrite Hb, !app_nil_r, Hw, map_app, concat_app. cbn. by rewrite app_nil_r.
  - rewrite live_push, Hl, drop_app_le by done. done.
  - rewrite length_app. lia.
Qed.

Lemma conn_log_pop bc log n p :
  conn_log bc log n -> pending bc !! head bc = Some p ->
  log !! n = Some p /\ conn_log (pop_conn bc) log (S n).
Proof.
  intros (Hw & Hl & Hn) Hp. pose proof (live_pop bc p Hp) as H. rewrite Hl in H.
  assert (Hlog : log !! n = Some p).
  { rewrite <- (Nat.add_0_r n), <- lookup_drop, H. done. }
  split; [done|]. split; [|split].
  - unfold pop_conn. by destruct (_ =? _)%nat.
  - rewrite (drop_S _ _ _ Hlog) in H. by injection H.
  - apply lookup_lt_Some in Hlog. lia.
Qed.

Lemma conn_log_flush bc log n :
  conn_log bc log n ->
  conn_log (mkConn (pending bc) (head bc) [] (wire bc ++ writeBuf bc)) log n.
Proof. intros (Hw & Hl & Hn). split; [|done]. cbn. by rewrite app_nil_r. Qed.

(** ** The invariant of the event loop *)

Definition conn_ok (bc : backendMuxConn) : Prop :=
  head_ok bc /\ (exists log n, conn_log bc log n) /\
  Forall (fun p => skipReply p = true \/ is_request p) (live bc).

Definition mux_ok (w : evloop) : Prop :=
  map_Forall (fun _ bc => conn_ok bc) (conns w) /\
  map_Forall (fun _ q => Forall is_queued q) (dialing w).

Lemma queued_ok addr w : mux_ok w -> Forall is_queued (queued addr w).
Proof.
  intros [_ Hd]. unfold queued. destruct (dialing w !! addr) eqn:E; [by eapply Hd|constructor].
Qed.

Lemma queued_live q :
  Forall is_queued q -> Forall (fun p => skipReply p = true \/ is_request p) q.
Proof. intros Hq. eapply Forall_impl; [exact Hq|]. intros p [[_ H]|H]; auto. Qed.

(** Nothing is buffered for any backend. *)
Definition flushed (w : evloop) : Prop := map_Forall (fun _ bc => writeBuf bc = []) (conns w).

Lemma conn_ok_push bc p :
  conn_ok bc -> is_request p -> conn_ok (push_conn [p] (cmd_bytes p) [] bc).
Proof.
  intros (Hh & (log & n & Hl) & Hf) Hp. split; [by apply head_ok_push|]. split.
  - eexists _, n. by apply conn_log_push.
  - rewrite live_push by done. apply Forall_app. split; [done|]. constructor; [by right|constructor].
Qed.

Lemma conn_ok_push_ask bc p :
  conn_ok bc -> is_request p -> writeBuf bc = [] ->
  conn_ok (push_conn [ask_sentinel p; p] [] (askingBytes ++ cmd_bytes p) bc).
Proof.
  intros (Hh & (log & n & Hl) & Hf) Hp Hb. split; [by apply head_ok_push|]. split.
  - eexists _, n. by apply conn_log_push_ask.
  - rewrite live_push by done. apply Forall_app. split; [done|].
    constructor; [by left|]. constructor; [by right|constructor].
Qed.

Lemma failDialing_ok addr msg w : mux_ok w -> mux_ok (failDialing addr msg w).
Proof. intros [Hc Hd]. split; [done|]. by apply map_Forall_delete. Qed.

Section dial.
Context (dial_error : nat -> bytes -> option bytes).

Lemma dialBackend_ok addr w : mux_ok w -> mux_ok (dialBackend dial_error addr w).
Proof.
  intros H. unfold dialBackend. destruct (dial_error _ _); [by apply failDialing_ok|done].
Qed.

Lemma dialBackend_conns addr w : conns (dialBackend dial_error addr w) = conns w.
Proof. unfold dialBackend. by destruct (dial_error _ _). Qed.

Lemma dialBackend_clients addr w : clients (dialBackend dial_error addr w) = clients w.
Proof. unfold dialBackend. by destruct (dial_error _ _). Qed.

(** Queueing for a dial. *)
Lemma queue_ok addr ps w (b : bool) :
  mux_ok w -> Forall is_queued ps ->
  mux_ok (if b then dialBackend dial_error addr (upd_dialing <[addr := queued addr w ++ ps]> w)
          else upd_dialing <[addr := queued addr w ++ ps]> w).
Proof.
  intros Hok Hps. assert (mux_ok (upd_dialing <[addr := queued addr w ++ ps]> w)).
  { split; [apply Hok|]. apply map_Forall_insert_2; [|apply Hok].
    apply Forall_app. split; [by apply queued_ok|done]. }
  destruct b; [by apply dialBackend_ok|done].
Qed.

Lemma send_ok addr p w w' :
  mux_ok w -> is_request p -> send dial_error addr p w = Ok w' -> mux_ok w'.
Proof.
  intros Hok Hp. unfold send. destruct (conns w !! addr) as [bc|] eqn:E.
  - rewrite is_request_raw by done. go_simp. intros [= <-]. split; [|apply Hok].
    apply map_Forall_insert_2; [|apply Hok]. apply conn_ok_push; [|done]. by eapply Hok.
  - intros [= <-]. apply queue_ok; [done|]. constructor; [by right|constructor].
Qed.

Lemma sendAsk_ok addr p w w' :
  mux_ok w -> is_request p -> flushed w -> sendAsk dial_error addr p w = Ok w' -> mux_ok w'.
Proof.
  intros Hok Hp Hfl. unfold sendAsk. destruct (conns w !! addr) as [bc|] eqn:E.
  - rewrite is_request_raw by done. go_simp. intros [= <-]. split; [|apply Hok].
    apply map_Forall_insert_2; [|apply Hok].
    apply conn_ok_push_ask; [by eapply Hok|done|by eapply Hfl].
  - intros [= <-]. apply queue_ok; [done|]. constructor; [by left|]. constructor; [by right|constructor].
Qed.

Lemma sendAsk_flushed addr p w w' :
  flushed w -> sendAsk dial_error addr p w = Ok w' -> flushed w'.
Proof.
  intros Hfl. unfold sendAsk. destruct (conns w !! addr) as [bc|] eqn:E.
  - destruct (rawBytes (req p)); try done. go_simp. intros [= <-].
    apply map_Forall_insert_2; [|done]. cbn. rewrite (Hfl _ _ E). done.
  - intros [= <-]. destruct (_ =? _)%nat; [|done]. unfold flushed. by rewrite dialBackend_conns.
Qed.

Lemma onOpen_ok addr w w' : mux_ok w -> onOpen addr w = Ok w' -> mux_ok w'.
Proof.
  intros Hok. unfold onOpen. pose proof (queued_ok addr w Hok) as Hq.
  set (q := queued addr w) in *. rewrite (queued_wire_ok q Hq).
  set (pb := match q with [] => _ | _ => _ end).
  assert (Hpb : Forall (fun p => skipReply p = true \/ is_request p) (fst pb) /\
    snd pb = concat (map cmd_bytes (fst pb))).
  { subst pb. destruct q as [|p0 q0]; [done|]. destruct (isReplicaAddr _ _); [|done]. split; [|done].
    constructor; [by left|constructor]. }
  destruct pb as [ps b]. cbn [fst snd] in Hpb. destruct Hpb as [Hps ->]. go_simp. intros [= <-].
  split; [|apply map_Forall_delete, Hok].
  apply map_Forall_insert_2; [|apply Hok]. split; [unfold head_ok; cbn; lia|]. split.
  - exists (ps ++ q), 0%nat. split; [|split; [done|lia]]. cbn.
    by rewrite app_nil_r, map_app, concat_app.
  - unfold live. cbn. apply Forall_app. split; [done|]. by apply queued_live.
Qed.

Lemma onClose_ok addr w : mux_ok w -> mux_ok (onClose addr w).
Proof.
  intros Hok. unfold onClose. destruct (conns w !! addr); [|done].
  split; [apply map_Forall_delete, Hok|apply Hok].
Qed.

Lemma flush_ok w : mux_ok w -> mux_ok (flushBackendWrites w).
Proof.
  intros [Hc Hd]. split; [|done]. intros addr bc. cbn. rewrite lookup_fmap.
  destruct (conns w !! addr) as [bc0|] eqn:E; [|done]. intros [= <-].
  destruct (Hc _ _ E) as (Hh & (log & n & Hl) & Hf). split; [done|]. split; [|done].
  exists log, n. by apply conn_log_flush.
Qed.

Lemma flush_flushed w : flushed (flushBackendWrites w).
Proof.
  intros addr bc. cbn. rewrite lookup_fmap. destruct (conns w !! addr); [|done]. by intros [= <-].
Qed.

Lemma pop_ok addr bc p w :
  mux_ok w -> conns w !! addr = Some bc -> pending bc !! head bc = Some p ->
  mux_ok (upd_conns <[addr := pop_conn bc]> w).
Proof.
  intros [Hc Hd] Ha Hp. split; [|done]. apply map_Forall_insert_2; [|done].
  destruct (Hc _ _ Ha) as (Hh & (log & n & Hl) & Hf). split; [by eapply head_ok_pop|].
  rewrite (live_pop bc p Hp) in Hf. split; [|by inversion Hf].
  exists log, (S n). by eapply conn_log_pop.
Qed.

Lemma pop_flushed addr bc w :
  flushed w -> conns w !! addr = Some bc -> flushed (upd_conns <[addr := pop_conn bc]> w).
Proof.
  intros Hf Ha. apply map_Forall_insert_2; [|done]. unfold pop_conn.
  destruct (_ =? _)%nat; exact (Hf addr bc Ha).
Qed.

Lemma answer_same p raw w w' :
  answer p raw w = Ok w' -> conns w' = conns w /\ dialing w' = dialing w /\ tasks w' = tasks w.
Proof.
  unfold answer. destruct (clients w !! _); [|by intros [= <-]].
  destruct (run_reply _ _); try done. go_simp. by intros [= <-].
Qed.

Lemma redirected_request p :
  is_request p -> (depth p <? maxMuxRedirects) = true -> is_request (redirected p).
Proof. intros (? & ? & ? & ?) Hd%Z.ltb_lt. repeat split; [done|cbn; lia..]. Qed.

(** One reply; [kind] is not ASK, or nothing is buffered. *)
Lemma handle_reply_ok addr raw kind msg w w' :
  mux_ok w -> (kind = ErrorKindAsk -> flushed w) ->
  handle_reply dial_error addr raw kind msg w = Ok w' ->
  mux_ok w' /\ (kind <> ErrorKindMoved -> flushed w -> flushed w').
Proof.
  intros Hok Hask. unfold handle_reply.
  destruct (conns w !! addr) as [bc|] eqn:Ea; [|by intros [= <-]].
  destruct (pending bc !! head bc) as [p|] eqn:Ep; [|by intros [= <-]].
  pose proof (pop_ok _ _ _ _ Hok Ea Ep) as Hok1.
  assert (Hp : skipReply p = true \/ is_request p).
  { destruct Hok as [Hc _]. destruct (Hc _ _ Ea) as (_ & _ & Hf).
    rewrite (live_pop bc p Ep) in Hf. by inversion Hf. }
  pose proof (fun Hf => pop_flushed addr bc w Hf Ea) as Hfl.
  set (w1 := upd_conns _ w) in *. unfold decide_reply. destruct (skipReply p) eqn:Es.
  { intros [= <-]. auto. }
  destruct Hp as [|Hp]; [done|]. pose proof (redirected_request p Hp) as Hp'.
  assert (Hans : answer p raw w1 = Ok w' ->
    mux_ok w' /\ (kind <> ErrorKindMoved -> flushed w -> flushed w')).
  { intros H. destruct (answer_same _ _ _ _ H) as (Hc & Hd & _).
    unfold mux_ok, flushed in *. rewrite Hc, Hd. auto. }
  destruct kind, (depth p <? maxMuxRedirects), (parseRedirectionMsg msg) as [[sl na]| | |];
    try exact Hans; specialize (Hp' eq_refl).
  - intros H. split; [|done]. eapply send_ok; [|exact Hp'|exact H]. exact Hok1.
  - intros H. split.
    + eapply sendAsk_ok; [done|done| |done]. by apply Hfl, Hask.
    + intros _ Hf. eapply sendAsk_flushed; [by apply Hfl|done].
Qed.

(** The replies in a buffer hold no ASK after a MOVED. *)
Fixpoint ask_safe (fuel : nat) (moved : bool) (remaining : bytes) : bool :=
  match fuel with
  | O => true
  | S fuel =>
      if (length remaining =? 0)%nat then true else
      match ScanValue remaining with
      | Ok (consumed, kind, _) =>
          if consumed =? 0 then true else
          let rest := drop (Z.to_nat consumed) remaining in
          match kind with
          | ErrorKindMoved => ask_safe fuel true rest
          | ErrorKindAsk => negb moved && ask_safe fuel moved rest
          | _ => ask_safe fuel moved rest
          end
      | _ => true
      end
  end.

Lemma traffic_loop_ok fuel addr remaining moved w w' rest :
  mux_ok w -> (moved = false -> flushed w) -> ask_safe fuel moved remaining = true ->
  traffic_loop dial_error fuel addr remaining w = Ok (w', rest) -> mux_ok w'.
Proof.
  revert remaining moved w. induction fuel as [|fuel IH]; intros remaining moved w Hok Hfl Hsafe H; [done|].
  cbn [traffic_loop ask_safe] in *. destruct (_ =? _)%nat; [by injection H as <- <-|].
  destruct (ScanValue remaining) as [[[consumed kind] msg]| | |]; try done. go_simp_in H.
  destruct (consumed =? 0); [by injection H as <- <-|].
  apply outcome_bind_inv in H as (raw & _ & H). apply outcome_bind_inv in H as (w1 & Hr & H).
  assert (Hk : kind = ErrorKindAsk -> moved = false) by (destruct kind, moved; done).
  destruct (handle_reply_ok addr raw kind msg w w1) as [Hok1 Hfl1]; [done|by auto|done|].
  destruct kind; cbv beta iota zeta in Hsafe; try (eapply IH; [done| |exact Hsafe|exact H]; auto; done).
  apply andb_prop in Hsafe as [Hm Hsafe]. eapply IH; [done| |exact Hsafe|exact H].
  intros Hm'. by apply Hfl1, Hfl.
Qed.

Definition event_safe (e : event) : Prop :=
  match e with
  | EClient rs => Forall (fun r => is_request (snd r)) rs
  | ETraffic _ buf => ask_safe (S (length buf)) false buf = true
  | _ => True
  end.

Lemma sends_ok rs w w' :
  mux_ok w -> Forall (fun r => is_request (snd r)) rs ->
  foldM (fun w r => send dial_error (fst r) (snd r) w) w rs = Ok w' -> mux_ok w'.
Proof.
  intros Hok Hrs. revert w Hok. induction Hrs as [|r rs Hr _ IH]; intros w Hok H; cbn [foldM] in H.
  { by injection H as <-. }
  apply outcome_bind_inv in H as (w1 & Hs & H). eapply IH; [|done]. by eapply send_ok.
Qed.

Lemma step_ok w e w' :
  mux_ok w -> flushed w -> event_safe e -> step dial_error w e = Ok w' -> mux_ok w' /\ flushed w'.
Proof.
  intros Hok Hfl Hs. destruct e as [rs|addr|addr|addr msg|addr buf|]; cbn [step event_safe] in *.
  - intros H. apply outcome_bind_inv in H as (w1 & H & Hw). injection Hw as <-.
    split; [by eapply flush_ok, sends_ok|apply flush_flushed].
  - intros H. split; [by eapply onOpen_ok|]. unfold onOpen in H.
    destruct (match queued addr w with [] => _ | _ => _ end) as [ps b].
    destruct (queued_wire _); try done. go_simp_in H. injection H as <-.
    by apply map_Forall_insert_2.
  - intros [= <-]. split; [by apply onClose_ok|]. unfold onClose.
    destruct (conns w !! addr); [by apply map_Forall_delete|done].
  - intros [= <-]. split; [by apply failDialing_ok|done].
  - unfold onTraffic. destruct (conns w !! addr) as [bc|]; [|by intros [= <-]].
    destruct (_ =? _)%nat; [by intros [= <-]|]. intros H.
    apply outcome_bind_inv in H as ([[w2 rest] a] & H & Hw). injection Hw as <-.
    apply outcome_bind_inv in H as ([w1 rest1] & H & Hw). injection Hw as <- <- <-.
    split; [|apply flush_flushed]. apply flush_ok.
    assert (mux_ok w1) by (eapply (traffic_loop_ok _ _ _ false); [done| |done|done]; done). done.
  - destruct (tasks w); by intros [= <-].
Qed.

Lemma run_ok es w w' :
  mux_ok w -> flushed w -> Forall event_safe es -> run dial_error w es = Ok w' ->
  mux_ok w' /\ flushed w'.
Proof.
  intros Hok Hfl Hes. revert w Hok Hfl. induction Hes as [|e es He _ IH]; intros w Hok Hfl H.
  { by injection H as <-. }
  unfold run in H. cbn [foldM] in H. apply outcome_bind_inv in H as (w1 & Hs & H).
  destruct (step_ok w e w1) as [? ?]; [done..|]. by eapply IH.
Qed.

End dial.

Lemma new_ok cs t : mux_ok (newBackendMux cs t) /\ flushed (newBackendMux cs t).
Proof. split; [split|]; apply map_Forall_empty. Qed.

(** ** A whole callback

    [dispatch] is what happens to a request when its reply has come. *)

Definition dispatch (dial_error : nat -> bytes -> option bytes) (addr : bytes) (w : evloop)
    (pr : pendingClientReq * option Value) : outcome evloop :=
  let '(p, e) := pr in
  match conns w !! addr with
  | None => Ok w
  | Some bc =>
      let w := upd_conns <[addr := pop_conn bc]> w in
      match decide_reply p (value_kind (canon_ptr e)) (value_msg (canon_ptr e)) with
      | DSkip => Ok w
      | DMoved newAddr => send dial_error newAddr (redirected p) (trigger_refresh w)
      | DAsk newAddr => sendAsk dial_error newAddr (redirected p) w
      | DAnswer => answer p (EncodeValue e) w
      end
  end.

(** ** What is owed

    [total] lists, for the clients that are still there, the slots that are owed an
    answer: one entry per request that waits for a reply or a dial, and one per
    posted fill. *)

Definition tok (p : pendingClientReq) : nat * nat := (clientConn p, slotIdx p).

Definition toks (cs : gmap nat respState) (ps : list pendingClientReq) : list (nat * nat) :=
  omap (fun p => if skipReply p then None else
                 match cs !! clientConn p with Some _ => Some (tok p) | None => None end) ps.

Definition msum {A B} (f : A -> list B) (m : gmap bytes A) : list B :=
  concat (map (fun x => f (snd x)) (map_to_list m)).

Definition total (w : evloop) : list (nat * nat) :=
  msum (fun bc => toks (clients w) (live bc)) (conns w) ++
  msum (toks (clients w)) (dialing w) ++
  map (fun t => (t_conn t, t_slot t)) (tasks w).

Lemma msum_new {A B} (f : A -> list B) (m : gmap bytes A) k v :
  m !! k = None -> msum f (<[k := v]> m) ≡ₚ f v ++ msum f m.
Proof.
  intros H. unfold msum. pose proof (map_to_list_insert m k v H) as Hp.
  apply (Permutation_map (fun x => f (snd x))), concat_perm in Hp. by rewrite Hp.
Qed.

Lemma msum_delete {A B} (f : A -> list B) (m : gmap bytes A) k v :
  m !! k = Some v -> msum f m ≡ₚ f v ++ msum f (delete k m).
Proof.
  intros H. rewrite <- (insert_delete_id m k v H) at 1.
  apply msum_new. apply lookup_delete_eq.
Qed.

(** Replacing an entry by one with more content. *)
Lemma msum_insert {A B} (f : A -> list B) (m : gmap bytes A) k v v0 extra :
  m !! k = Some v0 -> f v ≡ₚ extra ++ f v0 -> msum f (<[k := v]> m) ≡ₚ extra ++ msum f m.
Proof.
  intros H Hf. rewrite <- insert_delete_eq.
  rewrite (msum_new f (delete k m)) by apply lookup_delete_eq.
  by rewrite Hf, (msum_delete f m k v0 H), <- app_assoc.
Qed.

Lemma msum_fmap {A B} (f : A -> list B) (g : A -> A) (m : gmap bytes A) :
  (forall x, f (g x) = f x) -> msum f (g <$> m) = msum f m.
Proof.
  intros H. unfold msum. rewrite map_to_list_fmap. f_equal. rewrite map_map.
  apply map_ext. intros [k x]. apply H.
Qed.

Lemma toks_app cs l k : toks cs (l ++ k) = toks cs l ++ toks cs k.
Proof. apply omap_app. Qed.

Lemma error_tasks_toks cs d ps : map (fun t => (t_conn t, t_slot t)) (error_tasks cs d ps) = toks cs ps.
Proof.
  induction ps as [|p ps IH]; [done|]. unfold error_tasks, toks in *. cbn.
  destruct (skipReply p); [done|]. destruct (cs !! clientConn p); cbn; [by f_equal|done].
Qed.

Lemma msum_queued cs addr w :
  msum (toks cs) (dialing w) ≡ₚ toks cs (queued addr w) ++ msum (toks cs) (delete addr (dialing w)).
Proof.
  unfold queued. destruct (dialing w !! addr) as [q|] eqn:E; cbn [default].
  - by apply msum_delete.
  - by rewrite delete_id.
Qed.

Lemma failDialing_total addr msg w : total (failDialing addr msg w) ≡ₚ total w.
Proof.
  unfold total, failDialing. cbn [conns dialing clients tasks upd_tasks upd_dialing].
  rewrite (msum_queued (clients w) addr w), map_app, error_tasks_toks.
  apply Permutation_app_head. rewrite <- app_assoc, (Permutation_app_comm (map _ _)).
  by rewrite !app_assoc, (Permutation_app_comm (toks _ _)).
Qed.

(** The head index of every connection is within its list. *)
Definition heads_ok (w : evloop) : Prop := map_Forall (fun _ bc => head_ok bc) (conns w).

Lemma mux_heads w : mux_ok w -> heads_ok w.
Proof. intros [Hc _] addr bc Hb. by apply (Hc addr bc Hb). Qed.

Section conservation.
Context (dial_error : nat -> bytes -> option bytes).

Lemma dialBackend_total addr w : total (dialBackend dial_error addr w) ≡ₚ total w.
Proof. unfold dialBackend. destruct (dial_error _ _); [by rewrite failDialing_total|done]. Qed.

Lemma queue_total addr ps w (b : bool) :
  total (if b then dialBackend dial_error addr (upd_dialing <[addr := queued addr w ++ ps]> w)
         else upd_dialing <[addr := queued addr w ++ ps]> w) ≡ₚ toks (clients w) ps ++ total w.
Proof.
  assert (H : total (upd_dialing <[addr := queued addr w ++ ps]> w) ≡ₚ toks (clients w) ps ++ total w).
  { unfold total. cbn [conns dialing clients tasks upd_dialing].
    assert (msum (toks (clients w)) (<[addr := queued addr w ++ ps]> (dialing w)) ≡ₚ
      toks (clients w) ps ++ msum (toks (clients w)) (dialing w)) as ->.
    { rewrite <- insert_delete_eq, msum_new by apply lookup_delete_eq.
      rewrite (msum_queued (clients w) addr w), toks_app.
      by rewrite (Permutation_app_comm (toks _ (queued _ _))), <- app_assoc. }
    by rewrite !app_assoc, (Permutation_app_comm (msum _ (conns w))). }
  destruct b; [by rewrite dialBackend_total|done].
Qed.

Lemma push_total addr bc ps b d w :
  conns w !! addr = Some bc -> head_ok bc ->
  total (upd_conns <[addr := push_conn ps b d bc]> w) ≡ₚ toks (clients w) ps ++ total w.
Proof.
  intros H Hh. unfold total. cbn [conns dialing clients tasks upd_conns].
  rewrite (msum_insert _ _ _ _ bc (toks (clients w) ps) H); [by rewrite <- app_assoc|].
  by rewrite live_push, toks_app, Permutation_app_comm.
Qed.

Lemma send_total addr p w w' :
  heads_ok w -> send dial_error addr p w = Ok w' -> total w' ≡ₚ toks (clients w) [p] ++ total w.
Proof.
  intros Hok. unfold send. destruct (conns w !! addr) as [bc|] eqn:E.
  - destruct (rawBytes (req p)); try done. go_simp. intros [= <-]. apply push_total; [done|].
    by eapply Hok.
  - intros [= <-]. apply queue_total.
Qed.

Lemma sendAsk_total addr p w w' :
  heads_ok w -> sendAsk dial_error addr p w = Ok w' -> total w' ≡ₚ toks (clients w) [p] ++ total w.
Proof.
  intros Hok. unfold sendAsk. destruct (conns w !! addr) as [bc|] eqn:E.
  - destruct (rawBytes (req p)); try done. go_simp. intros [= <-].
    apply (push_total addr bc [ask_sentinel p; p]); [done|]. by eapply Hok.
  - intros [= <-]. apply (queue_total addr [ask_sentinel p; p]).
Qed.

Lemma pop_total addr bc p w :
  conns w !! addr = Some bc -> pending bc !! head bc = Some p ->
  total w ≡ₚ toks (clients w) [p] ++ total (upd_conns <[addr := pop_conn bc]> w).
Proof.
  intros H Hp. unfold total. cbn [conns dialing clients tasks upd_conns].
  rewrite (msum_delete _ _ _ _ H), (live_pop bc p Hp), <- insert_delete_eq.
  rewrite msum_new by apply lookup_delete_eq. change (p :: ?l) with ([p] ++ l).
  by rewrite toks_app, <- !app_assoc.
Qed.

(** Changing the queue of a client that is there changes no debt. *)
Lemma toks_client cs c q q' ps :
  cs !! c = Some q -> toks (<[c := q']> cs) ps = toks cs ps.
Proof.
  intros E. unfold toks. apply list_omap_ext, Forall_Forall2_diag, Forall_true. intros p.
  destruct (skipReply p); [done|]. destruct (decide (c = clientConn p)) as [<-|].
  - by rewrite lookup_insert_eq, E.
  - by rewrite lookup_insert_ne.
Qed.

Lemma total_client c q q' w :
  clients w !! c = Some q -> total (upd_clients <[c := q']> w) = total w.
Proof.
  intros E. unfold total. cbn [conns dialing clients tasks upd_clients].
  assert (forall A (g : A -> list pendingClientReq) m,
    msum (fun x => toks (<[c := q']> (clients w)) (g x)) m
    = msum (fun x => toks (clients w) (g x)) m) as Hm.
  { intros A g m. unfold msum. f_equal. apply map_ext. intros x. by eapply toks_client. }
  by rewrite (Hm _ live), (Hm _ (fun q => q)).
Qed.

Lemma answer_total p raw w w' :
  answer p raw w = Ok w' -> total w' ≡ₚ total w.
Proof.
  unfold answer. destruct (clients w !! clientConn p) as [st|] eqn:E; [|by intros [= <-]].
  destruct (run_reply _ _) as [st'| | |]; try done. go_simp. intros [= <-].
  by rewrite (total_client _ st).
Qed.

Lemma onOpen_total addr w w' :
  conns w !! addr = None -> onOpen addr w = Ok w' -> total w' ≡ₚ total w.
Proof.
  intros Hn. unfold onOpen. set (pb := match queued addr w with [] => _ | _ => _ end).
  assert (Hpb : toks (clients w) (fst pb) = []).
  { subst pb. destruct (queued addr w); [done|]. by destruct (isReplicaAddr _ _). }
  destruct pb as [ps b]. destruct (queued_wire _); try done. go_simp. intros [= <-].
  unfold total. cbn [conns dialing clients tasks upd_conns upd_dialing upd_counts].
  rewrite (msum_new _ _ _ _ Hn), (msum_queued (clients w) addr w). cbv beta.
  change (live (mkConn (ps ++ queued addr w) 0 [] (b ++ a))) with (ps ++ queued addr w).
  rewrite toks_app. cbn [fst] in Hpb. rewrite Hpb. cbn [app]. rewrite <- !app_assoc. by rewrite !app_assoc, (Permutation_app_comm (toks _ _)).
Qed.

Lemma onClose_total addr w : total (onClose addr w) ≡ₚ total w.
Proof.
  unfold onClose. destruct (conns w !! addr) as [bc|] eqn:E; [|done]. unfold total.
  cbn [conns dialing clients tasks upd_conns upd_tasks upd_counts].
  rewrite (msum_delete (fun bc => toks (clients w) (live bc)) (conns w) addr bc E).
  rewrite map_app, error_tasks_toks, !app_assoc. rewrite (Permutation_app_comm _ (toks _ _)).
  by rewrite !app_assoc.
Qed.

Lemma flushBackendWrites_total w : total (flushBackendWrites w) = total w.
Proof.
  unfold total. cbn [conns dialing clients tasks flushBackendWrites upd_conns].
  rewrite msum_fmap; [done|]. done.
Qed.

End conservation.

Section traffic.
Context (dial_error : nat -> bytes -> option bytes).

(** Whatever a dispatch does, the connection it came from keeps its order: its list
    of requests can only grow at the end. *)
Definition extends (addr : bytes) (ps : list pendingClientReq) (w : evloop) : Prop :=
  exists bc more, conns w !! addr = Some bc /\ head_ok bc /\ live bc = ps ++ more.

Lemma extends_push addr ps w a ns b d bc :
  extends addr ps w -> conns w !! a = Some bc ->
  extends addr ps (upd_conns <[a := push_conn ns b d bc]> w).
Proof.
  intros (bc0 & more & Hc & Hh & Hl) Ha. unfold extends. cbn.
  destruct (decide (a = addr)) as [->|Hne].
  - rewrite lookup_insert_eq. simplify_eq. eexists _, (more ++ ns). split; [done|].
    split; [by apply head_ok_push|]. by rewrite live_push, Hl, app_assoc.
  - rewrite lookup_insert_ne by done. by exists bc0, more.
Qed.

Lemma extends_conns addr ps w w' : conns w' = conns w -> extends addr ps w -> extends addr ps w'.
Proof. unfold extends. by intros ->. Qed.

Lemma send_extends addr ps a p w w' :
  extends addr ps w -> send dial_error a p w = Ok w' -> extends addr ps w'.
Proof.
  intros He. unfold send. destruct (conns w !! a) as [bc|] eqn:E.
  - destruct (rawBytes (req p)); try done. go_simp. intros [= <-]. by apply extends_push.
  - intros [= <-]. eapply extends_conns; [|exact He].
    destruct (_ =? _)%nat; [by rewrite dialBackend_conns|done].
Qed.

Lemma sendAsk_extends addr ps a p w w' :
  extends addr ps w -> sendAsk dial_error a p w = Ok w' -> extends addr ps w'.
Proof.
  intros He. unfold sendAsk. destruct (conns w !! a) as [bc|] eqn:E.
  - destruct (rawBytes (req p)); try done. go_simp. intros [= <-]. by apply extends_push.
  - intros [= <-]. eapply extends_conns; [|exact He].
    destruct (_ =? _)%nat; [by rewrite dialBackend_conns|done].
Qed.

Lemma dispatch_extends addr p ps e w w' :
  extends addr (p :: ps) w -> dispatch dial_error addr w (p, e) = Ok w' -> extends addr ps w'.
Proof.
  intros (bc & more & Hc & Hh & Hl). unfold dispatch. rewrite Hc. set (w1 := upd_conns _ w).
  assert (H1 : extends addr ps w1).
  { pose proof (live_head _ _ _ Hl) as Hp. exists (pop_conn bc), more. split; [apply lookup_insert_eq|].
    split; [by eapply head_ok_pop|]. rewrite (live_pop bc p Hp) in Hl. by injection Hl. }
  destruct (decide_reply _ _ _).
  - by intros [= <-].
  - apply send_extends. by eapply extends_conns; [|exact H1].
  - by apply sendAsk_extends.
  - intros Ha. eapply extends_conns; [|exact H1]. by eapply answer_same.
Qed.

Lemma handle_dispatch addr p ps e w :
  extends addr (p :: ps) w ->
  handle_reply dial_error addr (EncodeValue e) (value_kind (canon_ptr e)) (value_msg (canon_ptr e)) w
  = dispatch dial_error addr w (p, e).
Proof.
  intros (bc & more & Hc & Hh & Hl). unfold handle_reply, dispatch. rewrite Hc.
  by rewrite (live_head _ _ _ Hl).
Qed.

Lemma slice_prefix b rest : slice (b ++ rest) 0 (len b) = Ok b.
Proof.
  rewrite slice_ok by (rewrite ?length_app; lia). rewrite Z.sub_0_r, Nat2Z.id. cbn [Z.to_nat].
  by rewrite drop_0, take_length_app.
Qed.

Lemma traffic_loop_dispatch es ps addr tail fuel w :
  length es = length ps -> (length (concat (map EncodeValue es) ++ tail) < fuel)%nat ->
  Forall (fun e => wf_ptr e = true) es -> buffer_ok (concat (map EncodeValue es) ++ tail) ->
  (tail = [] \/ ScanValue tail = Ok (0, ErrorKindNone, [])) ->
  extends addr ps w ->
  traffic_loop dial_error fuel addr (concat (map EncodeValue es) ++ tail) w
  = (w' ← foldM (dispatch dial_error addr) w (zip ps es); Ok (w', tail)).
Proof.
  revert ps fuel w. induction es as [|e es IH]; intros ps fuel w Hlen Hfuel Hwf Hb Htail He;
    (destruct fuel as [|fuel]; [lia|]).
  { destruct ps; [|done]. cbn [map concat app traffic_loop zip_with foldM].
    destruct Htail as [->|Hs]; [done|].
    destruct (length tail =? 0)%nat; [done|]. by rewrite Hs. }
  destruct ps as [|p ps]; [done|]. cbn [map concat zip_with foldM] in *.
  rewrite <- app_assoc in *. apply Forall_cons in Hwf as [Hwe Hwf].
  pose proof (encode_nonempty e Hwe) as Hne. cbn [traffic_loop].
  rewrite (proj2 (Nat.eqb_neq (length _) 0)) by (rewrite length_app; lia).
  rewrite (scan_encode e _ Hwe Hb). go_simp.
  rewrite (proj2 (Z.eqb_neq _ 0)) by lia. rewrite slice_prefix. go_simp.
  rewrite (handle_dispatch addr p ps e w He). rewrite Nat2Z.id, drop_length_app.
  destruct (dispatch dial_error addr w (p, e)) as [w1| | |] eqn:Ed; go_simp; try done.
  rewrite (IH ps).
  - done.
  - by injection Hlen.
  - rewrite length_app in Hfuel. lia.
  - done.
  - unfold buffer_ok in *. rewrite length_app in Hb. lia.
  - done.
  - by eapply dispatch_extends.
Qed.

End traffic.

(** The callback on replies and the beginning of another one. *)
Lemma traffic_delivers dial_error addr bc ps more es tail w :
  conns w !! addr = Some bc -> head_ok bc -> live bc = ps ++ more -> length es = length ps ->
  Forall (fun e => wf_ptr e = true) es -> buffer_ok (concat (map EncodeValue es) ++ tail) ->
  (tail = [] \/ ScanValue tail = Ok (0, ErrorKindNone, [])) ->
  onTraffic dial_error addr (concat (map EncodeValue es) ++ tail) w
  = (w' ← foldM (dispatch dial_error addr) w (zip ps es);
     Ok (if (length es =? 0)%nat && (length tail =? 0)%nat then w'
         else flushBackendWrites (flushWriteAccum w'), tail, ActNone)).
Proof.
  intros Ha Hh Hl Hlen Hwf Hb Htail. unfold onTraffic. rewrite Ha.
  destruct (length (_ ++ tail) =? 0)%nat eqn:E.
  - apply Nat.eqb_eq in E. rewrite length_app in E. assert (length tail = 0%nat) as Ht by lia.
    apply length_zero_iff_nil in Ht as ->. destruct es as [|e es].
    + by destruct ps.
    + apply Forall_cons in Hwf as [Hwe _]. pose proof (encode_nonempty e Hwe).
      cbn [map concat] in E. rewrite length_app in E. lia.
  - rewrite (traffic_loop_dispatch dial_error es ps); [|done|lia|done|done|done|].
    2:{ by exists bc, more. }
    replace ((length es =? 0)%nat && (length tail =? 0)%nat) with false.
    + by destruct (foldM _ _ _).
    + destruct es; [|done]. cbn in E |- *. by rewrite E.
Qed.

(** ** Properties *)

(** Request order and reply order stay matched: after any sequence of client
    requests, dials, closes and backend traffic (in which no ASK follows a MOVED
    within one read), the bytes given to each backend connection are the commands of
    a log, complete and in order, the requests waiting on it are those of the log
    without a reply, and none was redirected more than 16 times. *)
Lemma mux_fifo dial_error cs t es w addr bc :
  Forall event_safe es -> run dial_error (newBackendMux cs t) es = Ok w ->
  conns w !! addr = Some bc ->
  (exists log n, conn_log bc log n) /\
  Forall (fun p => skipReply p = true \/ is_request p) (live bc).
Proof.
  intros Hes Hrun Ha. destruct (new_ok cs t) as [Hok Hfl].
  destruct (run_ok dial_error es _ w Hok Hfl Hes Hrun) as [[Hc _] _].
  by destruct (Hc addr bc Ha) as (_ & ? & ?).
Qed.

Definition get_req (k : string) : Request := mkRequest [bs "GET"; bs k] [] (bs "GET").
Definition client_req (c s : nat) (k : string) : pendingClientReq :=
  mkPending c s 0 (Some (get_req k)) false false false 0.
Definition one_client : gmap nat respState := {[1%nat := snd (allocResponseSlot resp_init)]}.
Definition no_dial_error (_ : nat) (_ : bytes) : option bytes := None.

Lemma is_client_req c s k : is_request (client_req c s k).
Proof. repeat split; [by eexists|done..]. Qed.

Definition short_run : list event :=
  [EClient [(bs "a:1", client_req 1 0 "x")]; EOpen (bs "a:1"); ETraffic (bs "a:1") (bs "$1" ++ CRLF)].

Lemma mux_fifo_witness :
  exists w bc, run no_dial_error (newBackendMux one_client NewTopology) short_run = Ok w /\
    conns w !! bs "a:1" = Some bc /\ live bc = [client_req 1 0 "x"] /\
    exists log n, conn_log bc log n.
Proof.
  assert (H : (match run no_dial_error (newBackendMux one_client NewTopology) short_run with
    | Ok w => live <$> conns w !! bs "a:1" | _ => None end) = Some [client_req 1 0 "x"]) by by vm_compute.
  destruct (run no_dial_error (newBackendMux one_client NewTopology) short_run) as [w| | |] eqn:Er;
    [|discriminate H..].
  destruct (conns w !! bs "a:1") as [bc|] eqn:Ec; [|discriminate H]. injection H as H.
  exists w, bc. split; [reflexivity|]. split; [exact Ec|]. split; [exact H|].
  refine (proj1 (mux_fifo no_dial_error one_client NewTopology short_run w (bs "a:1") bc _ Er Ec)).
  constructor; [constructor; [apply is_client_req|constructor]|].
  constructor; [exact I|]. constructor; [reflexivity|constructor].
Defined.


Definition two_waiting : evloop :=
  upd_conns <[bs "a:1" := mkConn [client_req 1 0 "x"; client_req 2 0 "y"] 0 [] []]>
    (newBackendMux one_client NewTopology).

