(* ===== verification/Ledger.v ===== *)
(** * Ledger: what a multiplexer owes its clients, and how it pays

    [requests_conserved]: over any run of the multiplexer, every request that was waiting
    or was sent is, at the end, either still waiting (for a reply, a dial or a posted fill)
    or was paid by exactly one operation on the queue of its client; the operations are
    listed in a ledger, and they are all that happened to the queues. *)

From S2P Require Import Prelude GoStd Value RespParse Topology RespQueue Mux MuxFacts.

(** ** The ledger *)

(** What one event gives to the clients: the replies of one read of a connection, which
    ends with a flush of the accumulated writes of every client, or a posted fill. *)
Inductive payment :=
| PReplies (rs : list (nat * reply))
| PFill (c slot : nat) (d : bytes).

Definition reply_slot (r : reply) : nat := match r with RReply i _ | RSub i _ _ => i end.

(** The slots a payment is for, and what it does to the queue of client [c]. *)
Definition paid (p : payment) : list (nat * nat) :=
  match p with
  | PReplies rs => map (fun cr => (fst cr, reply_slot (snd cr))) rs
  | PFill c slot _ => [(c, slot)]
  end.

Definition replies_of (c : nat) (rs : list (nat * reply)) : list reply :=
  omap (fun cr => if (fst cr =? c)%nat then Some (snd cr) else None) rs.

Definition payment_to (c : nat) (p : payment) : list qevent :=
  match p with
  | PReplies rs => [QTraffic (replies_of c rs)]
  | PFill c' slot d => if (c' =? c)%nat then [QFill slot d] else []
  end.

(** The queues went from [cs] to [cs'] by the operations [evs] of each client. *)
Definition queues_by {A} (run : respState -> A -> outcome respState) (evs : nat -> list A)
    (cs cs' : gmap nat respState) : Prop :=
  forall c, match cs !! c, cs' !! c with
            | Some q, Some q' => foldM run q (evs c) = Ok q'
            | None, None => True
            | _, _ => False
            end.

(** The requests an event adds. *)
Definition sent_by (cs : gmap nat respState) (e : event) : list (nat * nat) :=
  match e with EClient rs => toks cs (map snd rs) | _ => [] end.

(** ** Generic facts *)

Lemma foldM_app {A B} (f : A -> B -> outcome A) a l k : foldM f a (l ++ k) = (a' ← foldM f a l; foldM f a' k).
Proof.
  revert a. induction l as [|b l IH]; intros a; [done|]. cbn [app foldM].
  destruct (f a b); go_simp; [apply IH|done..].
Qed.

Lemma replies_of_app c rs rs' : replies_of c (rs ++ rs') = replies_of c rs ++ replies_of c rs'.
Proof. apply omap_app. Qed.

Section queues.
Context {A : Type} (run : respState -> A -> outcome respState).

Lemma queues_refl cs : queues_by run (fun _ => []) cs cs.
Proof. intros c. by destruct (cs !! c). Qed.

Lemma queues_trans f g cs cs' cs'' :
  queues_by run f cs cs' -> queues_by run g cs' cs'' -> queues_by run (fun c => f c ++ g c) cs cs''.
Proof.
  intros H1 H2 c. specialize (H1 c). specialize (H2 c). destruct (cs !! c), (cs' !! c), (cs'' !! c); try done.
  rewrite foldM_app, H1. by go_simp.
Qed.

Lemma queues_ext f g cs cs' : (forall c, f c = g c) -> queues_by run f cs cs' -> queues_by run g cs cs'.
Proof. intros E H c. specialize (H c). by rewrite <- E. Qed.

Lemma queues_dom f cs cs' c : queues_by run f cs cs' -> cs !! c = None <-> cs' !! c = None.
Proof. intros H. specialize (H c). by destruct (cs !! c), (cs' !! c). Qed.

End queues.

(** What is owed depends on which clients are there, not on their queues. *)
Lemma toks_dom cs cs' ps : (forall c, cs !! c = None <-> cs' !! c = None) -> toks cs' ps = toks cs ps.
Proof.
  intros H. unfold toks. apply list_omap_ext, Forall_Forall2_diag, Forall_true. intros p.
  destruct (skipReply p); [done|]. specialize (H (clientConn p)).
  destruct (cs !! clientConn p), (cs' !! clientConn p); [done|discriminate (proj2 H eq_refl)|discriminate (proj1 H eq_refl)|done].
Qed.

Lemma total_dom w cs' : (forall c, clients w !! c = None <-> cs' !! c = None) ->
  total (upd_clients (fun _ => cs') w) = total w.
Proof.
  intros H. unfold total. cbn [conns dialing clients tasks upd_clients].
  assert (forall A (g : A -> list pendingClientReq) m,
    msum (fun x => toks cs' (g x)) m = msum (fun x => toks (clients w) (g x)) m) as Hm.
  { intros A g m. unfold msum. f_equal. apply map_ext. intros x. by apply toks_dom. }
  by rewrite (Hm _ live), (Hm _ (fun q => q)).
Qed.

(** ** The head indices *)

Lemma heads_insert addr bc w : heads_ok w -> head_ok bc -> heads_ok (upd_conns <[addr := bc]> w).
Proof. intros Hw Hb. by apply map_Forall_insert_2. Qed.

Lemma heads_pop addr bc p w :
  heads_ok w -> pending bc !! head bc = Some p -> heads_ok (upd_conns <[addr := pop_conn bc]> w).
Proof. intros Hw Hp. apply heads_insert; [done|]. by eapply head_ok_pop. Qed.

Lemma heads_same w w' : conns w' = conns w -> heads_ok w -> heads_ok w'.
Proof. unfold heads_ok. by intros ->. Qed.

Section run.
Context (dial_error : nat -> bytes -> option bytes).

Lemma send_heads addr p w w' : heads_ok w -> send dial_error addr p w = Ok w' -> heads_ok w'.
Proof.
  intros Hw. unfold send. destruct (conns w !! addr) as [bc|] eqn:E.
  - destruct (rawBytes (req p)); try done. go_simp. intros [= <-].
    apply heads_insert; [done|]. apply head_ok_push. by eapply Hw.
  - intros [= <-]. eapply heads_same; [|exact Hw]. destruct (_ =? _)%nat; [by rewrite dialBackend_conns|done].
Qed.

Lemma sendAsk_heads addr p w w' : heads_ok w -> sendAsk dial_error addr p w = Ok w' -> heads_ok w'.
Proof.
  intros Hw. unfold sendAsk. destruct (conns w !! addr) as [bc|] eqn:E.
  - destruct (rawBytes (req p)); try done. go_simp. intros [= <-].
    apply heads_insert; [done|]. apply head_ok_push. by eapply Hw.
  - intros [= <-]. eapply heads_same; [|exact Hw]. destruct (_ =? _)%nat; [by rewrite dialBackend_conns|done].
Qed.

Lemma sendAsk_clients addr p w w' : sendAsk dial_error addr p w = Ok w' -> clients w' = clients w.
Proof.
  unfold sendAsk, dialBackend. destruct (conns w !! addr).
  - destruct (rawBytes (req p)); try done. go_simp. by intros [= <-].
  - intros [= <-]. destruct (_ =? _)%nat; [|done]. by destruct (dial_error _ _).
Qed.

Lemma send_clients addr p w w' : send dial_error addr p w = Ok w' -> clients w' = clients w.
Proof.
  unfold send, dialBackend. destruct (conns w !! addr).
  - destruct (rawBytes (req p)); try done. go_simp. by intros [= <-].
  - intros [= <-]. destruct (_ =? _)%nat; [|done]. by destruct (dial_error _ _).
Qed.

(** ** One reply *)

Definition reply_of (p : pendingClientReq) (raw : bytes) : reply :=
  if hasFanIn p then RSub (slotIdx p) (fanInIdx p) raw else RReply (slotIdx p) raw.

(** Nothing is given to a client that is gone. *)
Definition paid_reply (p : pendingClientReq) (raw : bytes) (cs : gmap nat respState) : list (nat * reply) :=
  match cs !! clientConn p with Some _ => [(clientConn p, reply_of p raw)] | None => [] end.

Lemma answer_pays p raw w w' :
  skipReply p = false -> answer p raw w = Ok w' ->
  conns w' = conns w /\ queues_by run_reply (fun c => replies_of c (paid_reply p raw (clients w))) (clients w) (clients w') /\
  paid (PReplies (paid_reply p raw (clients w))) = toks (clients w) [p] /\ total w' = total w.
Proof.
  intros Hs. unfold answer, paid_reply, toks. cbn. rewrite Hs. fold (reply_of p raw).
  destruct (clients w !! clientConn p) as [q|] eqn:Ec; cbn; [|intros [= <-]; split; [done|]; split; [apply queues_refl|done]].
  destruct (run_reply q (reply_of p raw)) as [q'| | |] eqn:Er; go_simp; try done. intros [= <-]. split; [done|]. split; [|split].
  - intros c. cbn. destruct (Nat.eqb_spec (clientConn p) c) as [<-|Hne].
    + rewrite Ec, lookup_insert_eq. cbn. by rewrite Er.
    + rewrite lookup_insert_ne by done. by destruct (clients w !! c).
  - unfold reply_of, tok. by destruct (hasFanIn p).
  - by apply (total_client _ q).
Qed.

Lemma handle_reply_total addr bc p raw kind msg w w' :
  heads_ok w -> conns w !! addr = Some bc -> pending bc !! head bc = Some p ->
  handle_reply dial_error addr raw kind msg w = Ok w' ->
  total w ≡ₚ (match decide_reply p kind msg with DAnswer => toks (clients w) [p] | _ => [] end)
             ++ total w'.
Proof.
  intros Hok Ha Hp. unfold handle_reply. rewrite Ha, Hp.
  assert (Hok1 : heads_ok (upd_conns <[addr := pop_conn bc]> w)) by by eapply heads_pop.
  rewrite (pop_total addr bc p w Ha Hp). set (w1 := upd_conns _ w) in *.
  assert (Hskip : decide_reply p kind msg = DSkip -> toks (clients w) [p] = []).
  { unfold decide_reply, toks. cbn. destruct (skipReply p); [done|].
    destruct kind, (depth p <? maxMuxRedirects), (parseRedirectionMsg msg) as [[]| | |]; done. }
  assert (Htok : toks (clients w) [redirected p] =
    match decide_reply p kind msg with DSkip => toks (clients w) [redirected p] | _ => toks (clients w) [p] end).
  { unfold decide_reply, toks, redirected, tok. cbn. destruct (skipReply p); [done|].
    by destruct kind, (depth p <? maxMuxRedirects), (parseRedirectionMsg msg) as [[]| | |]. }
  destruct (decide_reply p kind msg) eqn:Ed.
  - intros [= <-]. by rewrite Hskip.
  - intros H. apply send_total in H; [|by apply Hok1]. rewrite H. cbn [clients trigger_refresh].
    change (clients w1) with (clients w). rewrite Htok. done.
  - intros H. apply sendAsk_total in H; [|by apply Hok1]. rewrite H.
    change (clients w1) with (clients w). rewrite Htok. done.
  - intros H. apply answer_total in H. by rewrite H.
Qed.

Lemma reply_pays addr raw kind msg w w' :
  heads_ok w -> handle_reply dial_error addr raw kind msg w = Ok w' ->
  exists rs, heads_ok w' /\ queues_by run_reply (fun c => replies_of c rs) (clients w) (clients w') /\
    total w ≡ₚ paid (PReplies rs) ++ total w'.
Proof.
  intros Hok Hr. unfold handle_reply in Hr. destruct (conns w !! addr) as [bc|] eqn:Ha.
  2:{ injection Hr as <-. exists []. split; [done|]. split; [apply queues_refl|done]. }
  destruct (pending bc !! head bc) as [p|] eqn:Hp.
  2:{ injection Hr as <-. exists []. split; [done|]. split; [apply queues_refl|done]. }
  assert (Hok1 : heads_ok (upd_conns <[addr := pop_conn bc]> w)) by by eapply heads_pop.
  assert (Ht : total w ≡ₚ (match decide_reply p kind msg with DAnswer => toks (clients w) [p] | _ => [] end) ++ total w').
  { apply (handle_reply_total addr bc p raw kind msg w w' Hok Ha Hp). unfold handle_reply. by rewrite Ha, Hp. }
  cbv zeta in Hr. destruct (decide_reply p kind msg) eqn:Ed.
  - injection Hr as <-. exists []. split; [done|]. split; [apply queues_refl|done].
  - exists []. split; [by eapply send_heads; [|exact Hr]|]. rewrite (send_clients _ _ _ _ Hr). split; [apply queues_refl|done].
  - exists []. split; [by eapply sendAsk_heads; [|exact Hr]|]. rewrite (sendAsk_clients _ _ _ _ Hr).
    split; [apply queues_refl|done].
  - assert (Hs : skipReply p = false) by (unfold decide_reply in Ed; by destruct (skipReply p)).
    destruct (answer_pays p raw _ w' Hs Hr) as (Hc & Hq & Hpd & _).
    exists (paid_reply p raw (clients w)). split; [by eapply heads_same|]. split; [exact Hq|].
    cbn [clients upd_conns] in Hpd. by rewrite Hpd.
Qed.

(** One read of a connection. *)
Lemma traffic_pays fuel addr buf w w' rest :
  heads_ok w -> traffic_loop dial_error fuel addr buf w = Ok (w', rest) ->
  exists rs, heads_ok w' /\ queues_by run_reply (fun c => replies_of c rs) (clients w) (clients w') /\
    total w ≡ₚ paid (PReplies rs) ++ total w'.
Proof.
  revert buf w. induction fuel as [|fuel IH]; intros buf w Hok Hr; [done|]. cbn [traffic_loop] in Hr.
  assert (Hnil : forall w1, Ok (w, buf) = Ok (w1, rest) -> exists rs, heads_ok w1 /\
    queues_by run_reply (fun c => replies_of c rs) (clients w) (clients w1) /\ total w ≡ₚ paid (PReplies rs) ++ total w1).
  { intros w1 [= <- _]. exists []. split; [done|]. split; [apply queues_refl|done]. }
  destruct (length buf =? 0)%nat; [by apply Hnil|].
  destruct (ScanValue buf) as [[[n k] msg]| | |]; go_simp_in Hr; try done.
  destruct (n =? 0); [by apply Hnil|]. clear Hnil.
  destruct (slice buf 0 n) as [raw| | |]; go_simp_in Hr; try done.
  destruct (handle_reply _ _ _ _ _ _) as [w1| | |] eqn:Eh; go_simp_in Hr; try done.
  destruct (reply_pays addr raw k msg w w1 Hok Eh) as (rs1 & Hok1 & Hq1 & Ht1).
  destruct (IH _ _ Hok1 Hr) as (rs2 & Hok2 & Hq2 & Ht2).
  exists (rs1 ++ rs2). split; [done|]. split.
  - eapply queues_ext; [|by eapply queues_trans]. intros c. symmetry. apply replies_of_app.
  - rewrite Ht1, Ht2. cbn. by rewrite map_app, app_assoc.
Qed.

Lemma flush_queues f cs cs' :
  queues_by run_reply f cs cs' -> queues_by run_event (fun c => [QTraffic (f c)]) cs (flush_accum <$> cs').
Proof.
  intros H c. specialize (H c). rewrite lookup_fmap. destruct (cs !! c), (cs' !! c); try done.
  cbn [fmap option_fmap option_map foldM run_event]. rewrite H. by go_simp.
Qed.

(** ** One event *)

(** gnet reports a dialled connection to an address that has none: [send] and [sendAsk]
    dial only then. *)
Definition opens_new (w : evloop) (e : event) : Prop :=
  match e with EOpen addr => conns w !! addr = None | _ => True end.

Lemma sends_pay rs w w' :
  heads_ok w -> foldM (fun w r => send dial_error (fst r) (snd r) w) w rs = Ok w' ->
  heads_ok w' /\ clients w' = clients w /\ total w' ≡ₚ toks (clients w) (map snd rs) ++ total w.
Proof.
  revert w. induction rs as [|[addr p] rs IH]; intros w Hok Hr; cbn [foldM fst snd] in Hr; [by injection Hr as <-|].
  destruct (send dial_error addr p w) as [w1| | |] eqn:Es; go_simp_in Hr; try done.
  destruct (IH w1 (send_heads _ _ _ _ Hok Es) Hr) as (Hok' & Hc & Ht).
  split; [done|]. rewrite Hc. split; [by eapply send_clients|].
  rewrite Ht, (send_total _ _ _ _ _ Hok Es), (send_clients _ _ _ _ Es). cbn [map].
  change (snd (addr, p) :: map snd rs) with ([p] ++ map snd rs). rewrite toks_app.
  by rewrite !app_assoc, (Permutation_app_comm (toks _ (map _ _))).
Qed.

Lemma onOpen_heads addr w w' : heads_ok w -> onOpen addr w = Ok w' -> heads_ok w' /\ clients w' = clients w.
Proof.
  intros Hok. unfold onOpen. destruct (match queued addr w with [] => _ | _ => _ end) as [ps b].
  destruct (queued_wire _); try done. go_simp. intros [= <-]. split; [|done].
  apply map_Forall_insert_2; [unfold head_ok; cbn; lia|exact Hok].
Qed.

Lemma step_pays e w w' :
  heads_ok w -> opens_new w e -> step dial_error w e = Ok w' ->
  exists ledger, heads_ok w' /\
    queues_by run_event (fun c => concat (map (payment_to c) ledger)) (clients w) (clients w') /\
    sent_by (clients w) e ++ total w ≡ₚ concat (map paid ledger) ++ total w'.
Proof.
  intros Hok Hn. destruct e as [rs|addr|addr|addr msg|addr buf|]; cbn [step sent_by app opens_new] in *.
  - intros Hr. destruct (foldM _ _ _) as [w1| | |] eqn:Es; go_simp_in Hr; try done. injection Hr as <-.
    destruct (sends_pay _ _ _ Hok Es) as (Hok' & Hc & Ht). exists [].
    split; [|split; [cbn; rewrite Hc; apply queues_refl|by rewrite flushBackendWrites_total, Ht]].
    intros a bc Hb. cbn in Hb. apply lookup_fmap_Some in Hb as (bc1 & <- & Hb). exact (Hok' a bc1 Hb).
  - intros Hr. destruct (onOpen_heads _ _ _ Hok Hr) as [Hok' Hc]. exists [].
    split; [done|]. rewrite Hc. split; [apply queues_refl|]. symmetry. by apply (onOpen_total addr).
  - intros [= <-]. exists []. split; [|split; [|by rewrite onClose_total]].
    + unfold onClose. destruct (conns w !! addr); [|done]. apply map_Forall_delete, Hok.
    + unfold onClose. destruct (conns w !! addr); apply queues_refl.
  - intros [= <-]. exists []. split; [exact Hok|]. split; [apply queues_refl|by rewrite failDialing_total].
  - unfold onTraffic. destruct (conns w !! addr); go_simp.
    2:{ intros [= <-]. exists []. split; [done|]. split; [apply queues_refl|done]. }
    destruct (length buf =? 0)%nat; go_simp.
    { intros [= <-]. exists []. split; [done|]. split; [apply queues_refl|done]. }
    destruct (traffic_loop _ _ _ _ _) as [[w1 rest]| | |] eqn:Et; go_simp; try done. intros [= <-].
    destruct (traffic_pays _ _ _ _ _ _ Hok Et) as (rs & Hok1 & Hq & Ht). exists [PReplies rs].
    split; [|split].
    + intros a bc Hb. cbn in Hb. apply lookup_fmap_Some in Hb as (bc1 & <- & Hb). exact (Hok1 a bc1 Hb).
    + by apply flush_queues.
    + cbn [map concat]. rewrite app_nil_r, flushBackendWrites_total. unfold flushWriteAccum.
      change (upd_clients (fmap flush_accum) w1) with (upd_clients (fun _ => flush_accum <$> clients w1) w1).
      rewrite total_dom; [done|]. intros c. rewrite lookup_fmap. by destruct (clients w1 !! c).
  - unfold run_task. destruct (tasks w) as [|t ts] eqn:Et.
    { intros [= <-]. exists []. split; [done|]. split; [apply queues_refl|done]. }
    intros [= <-]. exists [PFill (t_conn t) (t_slot t) (t_data t)]. split; [exact Hok|].
    assert (Hd : forall c, clients w !! c = None <->
      alter (fillResponseSlotInLoop (t_slot t) (t_data t)) (t_conn t) (clients w) !! c = None).
    { intros c. destruct (decide (t_conn t = c)) as [->|Hne]; [|by rewrite lookup_alter_ne].
      rewrite lookup_alter_eq. by destruct (clients w !! c). }
    split.
    + intros c. cbn. destruct (Nat.eqb_spec (t_conn t) c) as [->|Hne].
      * rewrite lookup_alter_eq. by destruct (clients w !! c).
      * rewrite lookup_alter_ne by done. by destruct (clients w !! c).
    + cbn [map concat paid app].
      change (upd_clients (alter ?f ?k) ?w0) with (upd_clients (fun _ => alter f k (clients w0)) w0).
      rewrite total_dom; [|exact Hd]. unfold total. cbn [conns dialing clients tasks upd_tasks].
      rewrite Et. cbn [map]. by rewrite !app_assoc, <- Permutation_middle.
Qed.

(** ** A run *)

Fixpoint opens_fresh (w : evloop) (es : list event) : Prop :=
  match es with
  | [] => True
  | e :: es' => opens_new w e /\ forall w', step dial_error w e = Ok w' -> opens_fresh w' es'
  end.

Lemma run_pays es w w' :
  heads_ok w -> opens_fresh w es -> Mux.run dial_error w es = Ok w' ->
  exists ledger, heads_ok w' /\
    queues_by run_event (fun c => concat (map (payment_to c) ledger)) (clients w) (clients w') /\
    concat (map (sent_by (clients w)) es) ++ total w ≡ₚ concat (map paid ledger) ++ total w'.
Proof.
  revert w. induction es as [|e es IH]; intros w Hok Hf Hr; unfold Mux.run in Hr; cbn [foldM] in Hr.
  { injection Hr as <-. exists []. split; [done|]. split; [apply queues_refl|done]. }
  destruct Hf as [Hn Hf]. destruct (step dial_error w e) as [w1| | |] eqn:Es; go_simp_in Hr; try done.
  destruct (step_pays e w w1 Hok Hn Es) as (l1 & Hok1 & Hq1 & Ht1).
  destruct (IH w1 Hok1 (Hf w1 eq_refl) Hr) as (l2 & Hok2 & Hq2 & Ht2).
  exists (l1 ++ l2). split; [done|]. split.
  - eapply queues_ext; [|by eapply queues_trans]. intros c. cbn. by rewrite map_app, concat_app.
  - assert (Hs : map (sent_by (clients w1)) es = map (sent_by (clients w)) es).
    { apply map_ext. intros [rs| | | | |]; try done. cbn. apply toks_dom. intros c. by eapply queues_dom. }
    rewrite Hs in Ht2. cbn [map concat]. rewrite map_app, concat_app, <- !app_assoc, <- Ht2.
    rewrite app_assoc, (Permutation_app_comm (sent_by _ e)), <- app_assoc, Ht1.
    by rewrite !app_assoc, (Permutation_app_comm (concat _) (concat (map paid l1))).
Qed.

End run.

(** ** Properties *)

(** C7: no request of a client is lost, answered twice or answered into the void.  Over any
    run of the multiplexer (requests of clients, dials that succeed or fail, closes,
    traffic, posted fills; a connection is opened only to an address without one) there
    is a ledger of payments such that the requests that were waiting or were sent in the
    run are, each once, either paid for in the ledger or still waiting at the end; a
    redirection moves a request and pays nothing.  And the ledger is what happened to
    the clients: the queue of each client at the end is the one at the beginning after
    exactly the replies and fills the ledger has for it. *)
Theorem requests_conserved dial_error w es w' :
  heads_ok w -> opens_fresh dial_error w es -> run dial_error w es = Ok w' ->
  exists ledger,
    concat (map (sent_by (clients w)) es) ++ total w ≡ₚ concat (map paid ledger) ++ total w' /\
    queues_by run_event (fun c => concat (map (payment_to c) ledger)) (clients w) (clients w').
Proof. intros Hok Hf Hr. destruct (run_pays dial_error es w w' Hok Hf Hr) as (l & _ & Hq & Ht). by exists l. Qed.

(** Two requests of client 1 to [a:1]: it answers the first and closes, and the error
    for the second is posted and written. *)
Definition ledger_client : gmap nat respState :=
  {[1%nat := snd (allocResponseSlot (snd (allocResponseSlot resp_init)))]}.
Definition close_run : list event :=
  [EClient [(bs "a:1", client_req 1 0 "x"); (bs "a:1", client_req 1 1 "y")]; EOpen (bs "a:1");
   ETraffic (bs "a:1") (EncodeValue (Some OKValue)); EClose (bs "a:1"); ETask].
Definition ran (o : outcome evloop) : evloop := match o with Ok w => w | _ => newBackendMux ∅ NewTopology end.
Definition close_ran : evloop := ran (run no_dial_error (newBackendMux ledger_client NewTopology) close_run).

Lemma requests_conserved_witness :
  (out <$> clients close_ran !! 1%nat)
    = Some (EncodeValue (Some OKValue) ++ EncodeError (bs "ERR cluster node disconnected: a:1")) /\
  exists ledger,
    [(1, 0); (1, 1)]%nat ≡ₚ concat (map paid ledger) ++ total close_ran /\
    queues_by run_event (fun c => concat (map (payment_to c) ledger)) ledger_client (clients close_ran).
Proof.
  split; [by vm_compute|].
  refine (requests_conserved no_dial_error (newBackendMux ledger_client NewTopology) close_run close_ran _ _ _).
  - apply map_Forall_empty.
  - split; [exact I|]. intros w1 H1. split; [|intros w2 _; repeat (split; [exact I|]; intros ? _); exact I].
    assert (Hc : match step no_dial_error (newBackendMux ledger_client NewTopology)
        (EClient [(bs "a:1", client_req 1 0 "x"); (bs "a:1", client_req 1 1 "y")]) with
      | Ok w => conns w !! bs "a:1" = None | _ => True end) by (vm_compute; reflexivity).
    rewrite H1 in Hc. exact Hc.
  - unfold close_ran. vm_compute. reflexivity.
Defined.
