(* ===== verification/Router.v ===== *)
(** * Router: request execution on the cluster

    Model of [pkg/router/router.go].  The router is a state and error monad [M] over
    [rstate]: the topology (its round-robin counters move), the router's own counter,
    the read mode, the number of refreshes it triggered, and the state of the nodes.
    The connections and the nodes behind them are the interface [Nodes], functions of a
    state of their own: a command on the pipelined connections of an address ([pipe_do],
    read-only or not); a pooled connection taken ([pool_get], by the key of its pool),
    written to at once or through its buffer, read from and given back, broken or not
    ([conn_write], [conn_buffer], [conn_flush], [conn_read], [conn_put]).  They stand for
    [PipelinedPool.Do] (modelled in Pipeline.v), [Pool.Get] and the methods of [Conn]
    (Pool.v) together with the node at the other end; like those, [pipe_do] and
    [conn_read] may panic (a closed channel, a reply of an impossible size).

    The context the proxy passes never expires, so waiting between attempts only
    delays.  Goroutines that fan a request out run one after the other in the order
    [sched] gives for their number; the theorems hold for every order. *)

From S2P Require Import Prelude GoStd GoTime Config Crc16 Value Command Topology.

(** The node [nodeAddrForSlot] picks; the round-robin counters of the topology move. *)
Definition pickNode (rm : ReadMode) (slot : Z) (isRead : bool) (t : Topology) : option bytes * Topology :=
  match isRead, rm with
  | true, ReadModeMasterSlave => GetNodeForSlotBalanced slot t
  | true, ReadModeSlaveOnly =>
      match GetReplicaForSlot slot t with
      | (Some a, t) => (Some a, t)
      | (None, t) => (GetNodeForSlot slot t, t)
      end
  | _, _ => (GetNodeForSlot slot t, t)
  end.

Class Nodes := {
  nstate : Type;
  pipe_do : bool -> bytes -> bytes -> nstate -> outcome Value * nstate;
  pool_get : bytes -> nstate -> option goerror * nstate;
  conn_write : bytes -> bytes -> nstate -> option goerror * nstate;
  conn_buffer : bytes -> bytes -> nstate -> option goerror * nstate;
  conn_flush : bytes -> nstate -> option goerror * nstate;
  conn_read : bytes -> nstate -> outcome Value * nstate;
  conn_put : bytes -> bool -> nstate -> nstate;
}.

Record rstate `{Nodes} := mkR {
  r_topo : Topology;
  r_rr : Z;
  r_mode : ReadMode;
  r_refreshes : nat;
  r_nodes : nstate;
}.

Definition M `{Nodes} (A : Type) : Type := rstate -> outcome A * rstate.

#[global] Instance M_ret `{Nodes} : MRet M := fun A a s => (Ok a, s).
#[global] Instance M_bind `{Nodes} : MBind M := fun A B f c s =>
  match c s with
  | (Ok a, s') => f a s'
  | (Err e, s') => (Err e, s')
  | (Panic, s') => (Panic, s')
  | (NoFuel, s') => (NoFuel, s')
  end.

Section router.
Context `{Nodes} `{GoUnicode}.
Context (sched : nat -> list nat).

Definition fail {A} (e : goerror) : M A := fun s => (Err e, s).
Definition panic {A} : M A := fun s => (Panic, s).
Definition lift {A} (o : outcome A) : M A := fun s => (o, s).
Definition get_topo : M Topology := fun s => (Ok (r_topo s), s).
Definition set_topo (t : Topology) : M unit := fun s =>
  (Ok tt, mkR _ t (r_rr s) (r_mode s) (r_refreshes s) (r_nodes s)).
Definition get_mode : M ReadMode := fun s => (Ok (r_mode s), s).
Definition next_rr : M Z := fun s =>
  let n := wrapu64 (r_rr s + 1) in
  (Ok n, mkR _ (r_topo s) n (r_mode s) (r_refreshes s) (r_nodes s)).
(** [if r.topoRefresh != nil { r.topoRefresh.TriggerRefresh() }]; the proxy sets it. *)
Definition trigger : M unit := fun s =>
  (Ok tt, mkR _ (r_topo s) (r_rr s) (r_mode s) (S (r_refreshes s)) (r_nodes s)).
Definition on_nodes {A} (f : nstate -> outcome A * nstate) : M A := fun s =>
  let '(r, n) := f (r_nodes s) in
  (r, mkR _ (r_topo s) (r_rr s) (r_mode s) (r_refreshes s) n).

(** The error of a computation as a value; a panic still ends the process. *)
Definition try {A} (c : M A) : M (outcome A) := fun s =>
  match c s with
  | (Ok a, s') => (Ok (Ok a), s')
  | (Err e, s') => (Ok (Err e), s')
  | (Panic, s') => (Panic, s')
  | (NoFuel, s') => (NoFuel, s')
  end.

(** The goroutines [cs], run in the order [order]; what each gave, in that order. *)
Fixpoint run_all {A} (cs : list (M A)) (order : list nat) : M (list (nat * outcome A)) :=
  match order with
  | [] => mret []
  | i :: order' =>
      match cs !! i with
      | None => panic
      | Some c => r ← try c; rs ← run_all cs order'; mret ((i, r) :: rs)
      end
  end.

Definition fan_out {A} (cs : list (M A)) : M (list (nat * outcome A)) := run_all cs (sched (length cs)).

(** ** Nodes of slots *)

Definition no_node (slot : Z) : goerror := Errorf (bs "no node for slot " ++ FormatInt slot).

Definition nodeAddrForSlot (slot : Z) (isRead : bool) : M bytes :=
  rm ← get_mode;
  t ← get_topo;
  let '(n, t) := pickNode rm slot isRead t in
  _ ← set_topo t;
  match n with Some a => mret a | None => fail (no_node slot) end.

(** ** One node *)

Definition isReplicaAddr (addr : bytes) (t : Topology) : bool :=
  match GetNodeByAddr addr t with
  | Some n => negb (is_master n)
  | None => false
  end.

Definition AskingCmdBytes : bytes := bs "*1" ++ CRLF ++ bs "$6" ++ CRLF ++ bs "ASKING" ++ CRLF.

(** An operation that gives an error or nothing. *)
Definition io (f : nstate -> option goerror * nstate) : M unit :=
  on_nodes (fun n => let '(e, n) := f n in (match e with Some e => Err e | None => Ok tt end, n)).

(** [MarkBroken] on an error; the deferred [Close] gives the connection back. *)
Definition or_broken {A} (addr : bytes) (c : M A) : M A := fun s =>
  match c s with
  | (Err e, s') => (on_nodes (fun n => (Err e, conn_put addr true n))) s'
  | r => r
  end.

Definition put_back (addr : bytes) : M unit := on_nodes (fun n => (Ok tt, conn_put addr false n)).

(** The exchange on a pooled connection with ASKING in front. *)
Definition ask_exchange (addr : bytes) (args : list bytes) : M Value :=
  g ← try (io (pool_get addr));
  match g with
  | Ok _ =>
      _ ← or_broken addr (io (conn_write addr AskingCmdBytes));
      _ ← or_broken addr (io (conn_write addr (EncodeCommandBytes args)));
      askReply ← or_broken addr (on_nodes (conn_read addr));
      if IsError (Some askReply) then _ ← put_back addr; mret askReply else
      v ← or_broken addr (on_nodes (conn_read addr));
      _ ← put_back addr;
      mret v
  | Err e => fail (Errorf (bs "get conn from " ++ addr ++ bs ": " ++ err_msg e))
  | Panic => panic
  | NoFuel => lift NoFuel
  end.

Definition execOnNodeOnce (addr : bytes) (req : Request) (asking : bool) : M Value :=
  if asking then ask_exchange addr (Args req) else
  let cmd := EncodeCommandBytes (Args req) in
  t ← get_topo;
  on_nodes (pipe_do (isReplicaAddr addr t) addr cmd).

Definition clusterDownMaxRetry : nat := 3.
Definition pipeRetryMax : nat := 2.

Definition clusterDownRetryDelay : Z := 100 * (Second / 1000).
Definition pipeRetryDelay : Z := 150 * (Second / 1000).

(** The wait after attempt [attempt]; a shift of an [int] by 64 or more gives 0. *)
Definition backoffDelay (attempt : nat) (base : Z) : Z := wrap64 (base * wrap64 (Z.shiftl 1 (Z.of_nat attempt))).

(** The loop from [attempt] on, [left] attempts after this one; it waits
    [backoffDelay attempt pipeRetryDelay] after an error and
    [backoffDelay attempt clusterDownRetryDelay] after CLUSTERDOWN or LOADING. *)
Fixpoint exec_attempts (left : nat) (addr : bytes) (req : Request) (asking : bool) : M Value :=
  r ← try (execOnNodeOnce addr req asking);
  let attempt := (clusterDownMaxRetry - left)%nat in
  match r with
  | Err e =>
      match left with
      | S left' => if (attempt <? pipeRetryMax)%nat then exec_attempts left' addr req asking else fail e
      | O => fail e
      end
  | Ok v =>
      if negb (IsClusterDownError (Some v)) && negb (IsLoadingError (Some v)) then mret v else
      match left with
      | S left' => exec_attempts left' addr req asking
      | O => mret v
      end
  | Panic => panic
  | NoFuel => lift NoFuel
  end.

Definition execOnNode (addr : bytes) (req : Request) (asking : bool) : M Value :=
  exec_attempts clusterDownMaxRetry addr req asking.

Definition MaxRedirects : nat := 16.

(** [budget] is [MaxRedirects + 1 - depth]. *)
Fixpoint executeRedirect (budget : nat) (req : Request) (addr : bytes) (slot : Z) (asking : bool) : M Value :=
  match budget with
  | O => fail (Errorf (bs "too many redirects"))
  | S budget =>
      addr ← (if bytes_eqb addr [] then
                let info := GetCmdInfo (Cmd req) in
                let isRead := IsRead info && negb (IsWrite info) in
                nodeAddrForSlot slot isRead
              else mret addr);
      v ← execOnNode addr req asking;
      if IsMovedError (Some v) then
        match ParseRedirection (Some v) with
        | Ok (newSlot, newAddr) => _ ← trigger; executeRedirect budget req newAddr newSlot false
        | _ => mret v
        end
      else if IsAskError (Some v) then
        match ParseRedirection (Some v) with
        | Ok (_, newAddr) => executeRedirect budget req newAddr (-1) true
        | _ => mret v
        end
      else mret v
  end.

(** From depth 0. *)
Definition route (req : Request) (slot : Z) : M Value :=
  executeRedirect (S MaxRedirects) req [] slot false.

Definition no_nodes : goerror := Errorf (bs "no cluster nodes available").

Definition executeOnAnyNode (req : Request) : M Value :=
  t ← get_topo;
  let ms := AllMasters t in
  if (length ms =? 0)%nat then fail no_nodes else
  rr ← next_rr;
  match ms !! Z.to_nat (rr mod len ms) with
  | Some addr => execOnNode addr req false
  | None => panic
  end.

(** ** All masters *)

(** The results in the order of the masters. *)
Definition by_index {A} (n : nat) (rs : list (nat * outcome A)) : list (outcome A) :=
  omap (fun i => snd <$> List.find (fun p => (fst p =? i)%nat) rs) (seq 0 n).

Definition fanOutToMasters {A} (fn : bytes -> M A) : M (list (outcome A)) :=
  t ← get_topo;
  let ms := AllMasters t in
  if (length ms =? 0)%nat then fail no_nodes else
  rs ← fan_out (map fn ms);
  mret (by_index (length ms) rs).

Fixpoint mergeIntegerSum (results : list (outcome Value)) (total : Z) : outcome Value :=
  match results with
  | [] => Ok (IntValue total)
  | Ok v :: rs => mergeIntegerSum rs (if Type_ v =b TypeInteger then wrap64 (total + Integer v) else total)
  | r :: _ => r
  end.

Fixpoint mergeArrayConcat (results : list (outcome Value)) (all : list (option Value)) : outcome Value :=
  match results with
  | [] => Ok (array_value all)
  | Ok v :: rs => mergeArrayConcat rs (if Type_ v =b TypeArray then all ++ Array v else all)
  | r :: _ => r
  end.

Fixpoint mergeOK (results : list (outcome Value)) : outcome Value :=
  match results with
  | [] => Ok OKValue
  | Ok v :: rs => if IsError (Some v) then Ok v else mergeOK rs
  | r :: _ => r
  end.

Fixpoint first_non_error (results : list (outcome Value)) (firstErr : option goerror)
    : option Value * option goerror :=
  match results with
  | [] => (None, firstErr)
  | Ok v :: rs => if IsError (Some v) then first_non_error rs firstErr else (Some v, firstErr)
  | Err e :: rs => first_non_error rs (match firstErr with None => Some e | _ => firstErr end)
  | _ :: rs => first_non_error rs firstErr
  end.

Definition mergeFirstNonError (results : list (outcome Value)) : outcome Value :=
  match first_non_error results None with
  | (Some v, _) => Ok v
  | (None, Some e) => Err e
  | (None, None) => match results with Ok v :: _ => Ok v | _ => Ok OKValue end
  end.

Definition executeAllNodes (req : Request) (name : bytes) : M Value :=
  results ← fanOutToMasters (fun addr => execOnNode addr req false);
  lift (if bytes_eqb name (bs "DBSIZE") then mergeIntegerSum results 0
        else if bytes_eqb name (bs "KEYS") then mergeArrayConcat results []
        else if bytes_eqb name (bs "FLUSHDB") || bytes_eqb name (bs "FLUSHALL") then mergeOK results
        else if bytes_eqb name (bs "SCRIPT") then mergeFirstNonError results
        else mergeArrayConcat results []).

(** ** SCAN *)

Definition scanNodeIndexBits : Z := 16.
Definition scanNodeIndexMask : Z := Z.shiftl 1 scanNodeIndexBits - 1.

(** The node and the node's cursor a client cursor stands for, with [n] masters. *)
Definition scan_decode (n clientCursor : Z) : Z * Z :=
  let nodeIdx := Z.land clientCursor scanNodeIndexMask in
  let realCursor := Z.shiftr clientCursor scanNodeIndexBits in
  if n <=? nodeIdx then (0, 0) else (nodeIdx, realCursor).

(** The cursor given to the client after a node returned [returned]. *)
Definition scan_next (n nodeIdx returned : Z) : Z :=
  if negb (returned =? 0) then Z.lor (wrapu64 (Z.shiftl returned scanNodeIndexBits)) nodeIdx
  else if nodeIdx + 1 <? n then nodeIdx + 1 else 0.

Definition executeSCAN (req : Request) : M Value :=
  match Args req with
  | a0 :: cursorStr :: rest =>
      t ← get_topo;
      let ms := AllMasters t in
      if (length ms =? 0)%nat then fail no_nodes else
      match ParseUint cursorStr with
      | None => mret (ErrValue (bs "ERR value is not an integer or out of range"))
      | Some clientCursor =>
          let '(nodeIdx, realCursor) := scan_decode (len ms) clientCursor in
          match ms !! Z.to_nat nodeIdx with
          | None => panic
          | Some addr =>
              v ← execOnNode addr (mkRequest (a0 :: FormatInt realCursor :: rest) [] []) false;
              if IsError (Some v) then mret v else
              if negb (Type_ v =b TypeArray) then mret v else
              match Array v with
              | c :: items :: _ =>
                  match c with
                  | None => panic
                  | Some cv =>
                      match ParseUint (Str cv) with
                      | None => mret v
                      | Some returned =>
                          let next := scan_next (len ms) nodeIdx returned in
                          mret (array_value [Some (str_value TypeBulkString (FormatInt next)); items])
                      end
                  end
              | _ => mret v
              end
          end
      end
  | _ => mret (ErrValue (bs "ERR wrong number of arguments for 'scan' command"))
  end.

(** ** Multi-key commands

    Keys grouped by slot, the groups in the order of their first key and each group's
    positions in order: the content of the source's map, whose iteration order is part
    of [sched]. *)

Fixpoint group_add (slot : Z) (i : nat) (gs : list (Z * list nat)) : list (Z * list nat) :=
  match gs with
  | [] => [(slot, [i])]
  | (s, idxs) :: gs' => if s =? slot then (s, idxs ++ [i]) :: gs' else (s, idxs) :: group_add slot i gs'
  end.

Definition group_slots (keys : list bytes) : list (Z * list nat) :=
  foldl (fun gs p => group_add (HashSlot (snd p)) (fst p) gs) [] (imap pair keys).

Definition pick (l : list bytes) (idxs : list nat) : list bytes := omap (fun i => l !! i) idxs.

Definition sub_request (args : list bytes) : Request := mkRequest args [] [].

Definition wrong_args (name : bytes) : Value :=
  ErrValue (bs "ERR wrong number of arguments for '" ++ ToLower name ++ bs "' command").

(** [for i, idx := range idxs { if i < len(v.Array) { results[idx] = v.Array[i] } }] *)
Definition scatter (idxs : list nat) (vs : list (option Value)) (results : list (option Value))
    : list (option Value) :=
  foldl (fun rs p => <[fst p := snd p]> rs) results (zip idxs vs).

(** One goroutine's part of the result, and the first error so far. *)
Definition mget_collect (gs : list (Z * list nat)) (acc : list (option Value) * option goerror)
    (c : nat * outcome Value) : list (option Value) * option goerror :=
  let '(results, firstErr) := acc in
  let first e := match firstErr with None => Some e | _ => firstErr end in
  match snd c with
  | Ok v =>
      if IsError (Some v) then (results, first (Errorf (Error (Some v))))
      else if Type_ v =b TypeArray
      then (scatter (default [] (snd <$> gs !! fst c)) (Array v) results, firstErr)
      else (results, firstErr)
  | Err e => (results, first e)
  | _ => (results, firstErr)
  end.

Definition executeMGET (req : Request) : M Value :=
  let keys := drop 1 (Args req) in
  if (length keys =? 0)%nat then mret (wrong_args (bs "mget")) else
  let gs := group_slots keys in
  rs ← fan_out (map (fun g => route (sub_request (bs "MGET" :: pick keys (snd g))) (fst g)) gs);
  let '(results, firstErr) := foldl (mget_collect gs) (replicate (length keys) None, None) rs in
  match firstErr with
  | Some e => fail e
  | None => mret (array_value results)
  end.

(** [keys[i]] and its value are the arguments [1 + 2 i] and [2 + 2 i]. *)
Fixpoint pairs_of (l : list bytes) : list (bytes * bytes) :=
  match l with
  | k :: v :: l' => (k, v) :: pairs_of l'
  | _ => []
  end.

Definition mset_args (name : bytes) (ps : list (bytes * bytes)) (idxs : list nat) : list bytes :=
  name :: concat (map (fun p => [fst p; snd p]) (omap (fun i => ps !! i) idxs)).

Definition mset_error (acc : option goerror) (r : outcome Value) : option goerror :=
  match acc with
  | Some _ => acc
  | None =>
      match r with
      | Err e => Some e
      | Ok v => if IsError (Some v) then Some (Errorf (Error (Some v))) else None
      | _ => None
      end
  end.

Definition executeMSET (req : Request) (name : bytes) : M Value :=
  if (len (Args req) <? 3) || negb ((len (Args req) - 1) mod 2 =? 0) then mret (wrong_args name) else
  let ps := pairs_of (drop 1 (Args req)) in
  let gs := group_slots (map fst ps) in
  if bytes_eqb name (bs "MSETNX") && (1 <? length gs)%nat then
    mret (ErrValue (bs "CROSSSLOT MSETNX requires all keys to be in the same slot (atomicity cannot be guaranteed across slots)"))
  else
  rs ← fan_out (map (fun g => route (sub_request (mset_args name ps (snd g))) (fst g)) gs);
  match foldl mset_error None (map snd rs) with
  | Some e => fail e
  | None =>
      if bytes_eqb name (bs "MSETNX") then
        mret (IntValue
          (if existsb (fun r => match snd r with
                                | Ok v => (Type_ v =b TypeInteger) && (Integer v =? 0)
                                | _ => false end) rs then 0 else 1))
      else mret OKValue
  end.

Definition sum_collect (acc : Z * option goerror) (r : outcome Value) : Z * option goerror :=
  let '(total, firstErr) := acc in
  match r with
  | Err e => (total, match firstErr with None => Some e | _ => firstErr end)
  | Ok v => (if Type_ v =b TypeInteger then wrap64 (total + Integer v) else total, firstErr)
  | _ => acc
  end.

Definition fanOutInteger (cmdName : bytes) (keys : list bytes) : M Value :=
  let gs := group_slots keys in
  rs ← fan_out (map (fun g => route (sub_request (cmdName :: pick keys (snd g))) (fst g)) gs);
  match foldl sum_collect (0, None) (map snd rs) with
  | (_, Some e) => fail e
  | (total, None) => mret (IntValue total)
  end.

Definition executeDEL (req : Request) (name : bytes) : M Value :=
  let keys := drop 1 (Args req) in
  if (length keys =? 0)%nat then mret (wrong_args name) else fanOutInteger name keys.

Definition executeEXISTS (req : Request) : M Value :=
  match Args req with
  | a0 :: keys => fanOutInteger a0 keys
  | [] => panic
  end.

Definition executeMultiKey (req : Request) (info : CmdInfo) : M Value :=
  match Args req with
  | [] => panic
  | a0 :: _ =>
      let name := ToUpper a0 in
      if bytes_eqb name (bs "MGET") then executeMGET req
      else if bytes_eqb name (bs "MSET") || bytes_eqb name (bs "MSETNX") then executeMSET req name
      else if bytes_eqb name (bs "DEL") || bytes_eqb name (bs "UNLINK") then executeDEL req name
      else if bytes_eqb name (bs "EXISTS") || bytes_eqb name (bs "TOUCH") then executeEXISTS req
      else
        keys ← lift (GetKeys req);
        match keys with
        | [] => executeOnAnyNode req
        | k :: _ => route req (HashSlot k)
        end
  end.

(** ** Scripts *)

Definition out_of_range : Value := ErrValue (bs "ERR value is not an integer or out of range").
Definition eval_args : Value := ErrValue (bs "ERR wrong number of arguments for EVAL").

Definition ExecScript (req : Request) : M Value :=
  match Args req with
  | _ :: _ :: numKeysStr :: rest =>
      match Atoi numKeysStr with
      | None => mret out_of_range
      | Some numKeys =>
          if numKeys <? 0 then mret out_of_range else
          if numKeys =? 0 then executeOnAnyNode req else
          if len (Args req) <? 3 + numKeys then mret eval_args else
          match take (Z.to_nat numKeys) rest with
          | [] => panic
          | firstKey :: others =>
              let slot := HashSlot firstKey in
              if existsb (fun k => negb (HashSlot k =? slot)) others
              then mret (ErrValue (bs "CROSSSLOT Keys in script don't hash to the same slot"))
              else route req slot
          end
      end
  | _ => mret eval_args
  end.

(** The [i]-th flag: 1 when every master has the script. *)
Fixpoint script_exists_all (i : nat) (results : list (outcome Value)) : outcome bool :=
  match results with
  | [] => Ok true
  | Ok v :: rs =>
      if negb (Type_ v =b TypeArray) then Ok false else
      match Array v !! i with
      | None => Ok false
      | Some None => Panic
      | Some (Some x) =>
          if negb (Type_ x =b TypeInteger) || (Integer x =? 0) then Ok false
          else script_exists_all i rs
      end
  | _ :: _ => Ok false
  end.

Fixpoint script_flags (is_ : list nat) (results : list (outcome Value)) : outcome (list (option Value)) :=
  match is_ with
  | [] => Ok []
  | i :: is' =>
      b ← script_exists_all i results;
      l ← script_flags is' results;
      Ok (Some (IntValue (Z.b2z b)) :: l)
  end.

Fixpoint first_err {A} (results : list (outcome A)) : option goerror :=
  match results with
  | [] => None
  | Err e :: _ => Some e
  | _ :: rs => first_err rs
  end.

Definition executeScriptExists (req : Request) : M Value :=
  results ← fanOutToMasters (fun addr => execOnNode addr req false);
  match first_err results with
  | Some e => fail e
  | None =>
      let numSHAs := len (Args req) - 2 in
      if (length results =? 0)%nat || (numSHAs <=? 0) then mret (array_value []) else
      merged ← lift (script_flags (seq 0 (Z.to_nat numSHAs)) results);
      mret (array_value merged)
  end.

Definition executeScript (req : Request) : M Value :=
  match Args req with
  | _ :: a1 :: _ =>
      let sub := ToUpper a1 in
      if bytes_eqb sub (bs "LOAD") || bytes_eqb sub (bs "FLUSH")
      then executeAllNodes req (bs "SCRIPT")
      else if bytes_eqb sub (bs "EXISTS") then executeScriptExists req
      else executeOnAnyNode req
  | _ => mret (ErrValue (bs "ERR wrong number of arguments for 'script' command"))
  end.

(** ** BROADCAST and CONFIG *)

Definition broadcast_entry (addr : bytes) (r : outcome Value) : option Value :=
  let reply := match r with
               | Ok v => v
               | Err e => ErrValue (bs "ERR " ++ err_msg e)
               | _ => ErrValue []
               end in
  Some (array_value [Some (str_value TypeBulkString addr); Some reply]).

Definition ExecuteBroadcast (req : Request) : M Value :=
  match Args req with
  | _ :: a1 :: rest =>
      t ← get_topo;
      let ms := AllMasters t in
      results ← fanOutToMasters (fun addr => execOnNode addr (sub_request (a1 :: rest)) false);
      mret (array_value (zip_with broadcast_entry ms results))
  | _ => mret (ErrValue (bs "ERR wrong number of arguments for 'broadcast' command"))
  end.

(** The pairs of one node's reply whose key was not seen before. *)
Fixpoint config_pairs (arr : list (option Value)) (seen : list bytes) (merged : list (option Value))
    : outcome (list bytes * list (option Value)) :=
  match arr with
  | k :: v :: arr' =>
      match k with
      | None => Panic
      | Some kv =>
          if existsb (bytes_eqb (Str kv)) seen then config_pairs arr' seen merged
          else config_pairs arr' (Str kv :: seen) (merged ++ [k; v])
      end
  | _ => Ok (seen, merged)
  end.

Fixpoint mergeConfigGet (results : list (outcome Value)) (seen : list bytes)
    (merged : list (option Value)) : outcome Value :=
  match results with
  | [] => Ok (array_value merged)
  | Ok v :: rs =>
      if IsError (Some v) then Ok v else
      if negb (Type_ v =b TypeArray) then mergeConfigGet rs seen merged else
      p ← config_pairs (Array v) seen merged;
      mergeConfigGet rs (fst p) (snd p)
  | r :: _ => r
  end.

Definition executeConfig (req : Request) : M Value :=
  match Args req with
  | _ :: a1 :: _ =>
      let sub := ToUpper a1 in
      if bytes_eqb sub (bs "GET") || bytes_eqb sub (bs "SET") || bytes_eqb sub (bs "RESETSTAT") then
        results ← fanOutToMasters (fun addr => execOnNode addr req false);
        lift (if bytes_eqb sub (bs "GET") then mergeConfigGet results [] [] else mergeOK results)
      else executeOnAnyNode req
  | _ => mret (ErrValue (bs "ERR wrong number of arguments for 'config' command"))
  end.

(** ** Dispatch *)

Definition getFirstKey (req : Request) (info : CmdInfo) : option bytes :=
  let first := FirstKey (Keys info) in
  if (first <=? 0) || (len (Args req) <=? first) then None else Args req !! Z.to_nat first.

Definition not_supported (name : bytes) : Value :=
  ErrValue (bs "ERR command '" ++ ToLower name ++ bs "' is not supported in cluster proxy").
Definition unknown_command (name : bytes) : Value :=
  ErrValue (bs "ERR unknown command '" ++ ToLower name ++ bs "', with args beginning with: ").

Definition Execute (req : Request) : M Value :=
  match Args req with
  | [] => fail (Errorf (bs "empty request"))
  | a0 :: _ =>
      let name := ToUpper a0 in
      match GetCmdInfo name with
      | None => mret (unknown_command name)
      | Some info =>
          if IsNotAllowed (Some info) then mret (not_supported name)
          else if bytes_eqb name (bs "SCAN") then executeSCAN req
          else if bytes_eqb name (bs "SCRIPT") then executeScript req
          else if bytes_eqb name (bs "CONFIG") then executeConfig req
          else if bytes_eqb name (bs "BROADCAST") then ExecuteBroadcast req
          else if IsAllNodes (Some info) then executeAllNodes req name
          else if IsMultiKey (Some info) then executeMultiKey req info
          else match getFirstKey req info with
               | None => executeOnAnyNode req
               | Some key => route req (HashSlot key)
               end
      end
  end.

End router.
