(* ===== verification/RouterFacts.v ===== *)
(** * RouterFacts: correctness of the router

    Safety (the router adds no panic to those of the connections), bounded work
    (redirections and retries), the choice of nodes, the SCAN cursor and the merging of
    fanned-out commands. *)

From S2P Require Import Prelude GoStd GoTime Config Crc16 Value Command Topology Router.

Section facts.
Context `{Nodes} `{GoUnicode}.

(** ** Running the monad *)

Lemma M_bind_run {A B} (c : M A) (f : A -> M B) s :
  (c ≫= f) s = match c s with
               | (Ok a, s') => f a s'
               | (Err e, s') => (Err e, s')
               | (Panic, s') => (Panic, s')
               | (NoFuel, s') => (NoFuel, s')
               end.
Proof. done. Qed.

Lemma M_bind_ok {A B} (c : M A) (f : A -> M B) s a s' : c s = (Ok a, s') -> (c ≫= f) s = f a s'.
Proof. intros Hc. by rewrite M_bind_run, Hc. Qed.

Lemma M_bind_inv {A B} (c : M A) (f : A -> M B) s b s' :
  (c ≫= f) s = (Ok b, s') -> exists a s1, c s = (Ok a, s1) /\ f a s1 = (Ok b, s').
Proof. rewrite M_bind_run. destruct (c s) as [[]]; try done. eauto. Qed.

End facts.

(** ** Safety

    [panicked]: a call on a connection has panicked.  Otherwise it gave a value or an
    error, and the elements of an array reply are there (the reader allocates each). *)
Definition no_nil (v : Value) : Prop := Forall (fun e => is_Some e) (Array v).

Class NodesOk `{Nodes} := {
  panicked : nstate -> Prop;
  pipe_ok : forall ro addr data n,
    match fst (pipe_do ro addr data n) with
    | Ok v => no_nil v | Err _ => True | _ => panicked (snd (pipe_do ro addr data n)) end;
  read_ok : forall addr n,
    match fst (conn_read addr n) with
    | Ok v => no_nil v | Err _ => True | _ => panicked (snd (conn_read addr n)) end;
}.

(** [safe P c]: whatever the state, [c] returns a value that satisfies [P] or an error,
    unless a connection panicked. *)
Definition safe `{NodesOk} {A} (P : A -> Prop) (c : M A) : Prop :=
  forall s, match fst (c s) with
            | Ok a => P a | Err _ => True | Panic | NoFuel => panicked (r_nodes (snd (c s))) end.

Section facts_safe.
Context `{NodesOk} `{GoUnicode}.

Lemma safe_bind {A B} (P : A -> Prop) (Q : B -> Prop) (c : M A) (f : A -> M B) :
  safe P c -> (forall a, P a -> safe Q (f a)) -> safe Q (c ≫= f).
Proof.
  intros Hc Hf s. rewrite M_bind_run. specialize (Hc s). destruct (c s) as [[a|e| |] s1]; try done.
  by apply Hf.
Qed.

Lemma safe_ret {A} (P : A -> Prop) a : P a -> safe P (mret a : M A).
Proof. by intros Ha s. Qed.

Lemma safe_fail {A} (P : A -> Prop) e : safe P (fail e : M A).
Proof. by intros s. Qed.

Lemma safe_lift {A} (P : A -> Prop) (o : outcome A) :
  match o with Ok a => P a | Err _ => True | _ => False end -> safe P (lift o).
Proof. intros Ho s. by destruct o. Qed.

Lemma safe_weaken {A} (P Q : A -> Prop) (c : M A) : (forall a, P a -> Q a) -> safe P c -> safe Q c.
Proof. intros Hpq Hc s. specialize (Hc s). destruct (fst (c s)); auto. Qed.

Definition any {A} (_ : A) : Prop := True.

Lemma safe_read {A} (f : rstate -> A) : safe any (fun s => (Ok (f s), s)).
Proof. by intros s. Qed.

Lemma safe_try {A} (P : A -> Prop) (c : M A) :
  safe P c -> safe (fun r => match r with Ok a => P a | Err _ => True | _ => False end) (try c).
Proof. intros Hc s. unfold try. specialize (Hc s). by destruct (c s) as [[] ?]. Qed.

Lemma safe_run_all {A} (P : A -> Prop) (cs : list (M A)) order :
  Forall (safe P) cs -> Forall (fun i => (i < length cs)%nat) order ->
  safe (Forall (fun r => match snd r with Ok a => P a | Err _ => True | _ => False end)) (run_all cs order).
Proof.
  intros Hcs. induction 1 as [|i order Hi _ IH]; cbn [run_all].
  { by apply safe_ret. }
  destruct (lookup_lt_is_Some_2 cs i Hi) as [c Hc]. rewrite Hc.
  eapply safe_bind; [apply safe_try, (Forall_lookup_1 _ _ _ _ Hcs Hc)|]. intros r Hr.
  eapply safe_bind; [exact IH|]. intros rs Hrs. apply safe_ret. by constructor.
Qed.

End facts_safe.

Section safety.
Context `{NodesOk} `{GoUnicode}.
Context (sched : nat -> list nat) (sched_perm : forall n, sched n ≡ₚ seq 0 n).

Lemma no_nil_plain t s : no_nil (str_value t s).
Proof. constructor. Qed.

Lemma safe_fan_out {A} (P : A -> Prop) (cs : list (M A)) :
  Forall (safe P) cs ->
  safe (Forall (fun r => match snd r with Ok a => P a | Err _ => True | _ => False end)) (fan_out sched cs).
Proof.
  intros Hcs. apply safe_run_all; [done|]. rewrite sched_perm. apply Forall_forall. intros i Hi.
  apply elem_of_seq in Hi. lia.
Qed.

Lemma safe_on_nodes {A} (P : A -> Prop) (f : nstate -> outcome A * nstate) :
  (forall n, match fst (f n) with Ok v => P v | Err _ => True | _ => panicked (snd (f n)) end) -> safe P (on_nodes f).
Proof. intros Hf s. unfold on_nodes. specialize (Hf (r_nodes s)). by destruct (f (r_nodes s)). Qed.

Lemma safe_io f : safe any (io f).
Proof. apply safe_on_nodes. intros n. by destruct (f n) as [[]]. Qed.

Lemma safe_or_broken {A} (P : A -> Prop) addr (c : M A) : safe P c -> safe P (or_broken addr c).
Proof. intros Hc s. unfold or_broken. specialize (Hc s). by destruct (c s) as [[] ?]. Qed.

Lemma safe_read_conn addr : safe no_nil (or_broken addr (on_nodes (conn_read addr))).
Proof. apply safe_or_broken, safe_on_nodes. intros. apply read_ok. Qed.

Lemma ask_safe addr args : safe no_nil (ask_exchange addr args).
Proof.
  unfold ask_exchange. eapply safe_bind; [apply safe_try, safe_io|].
  intros [|e| |] Hg; [|apply safe_fail|done|done].
  eapply safe_bind; [apply safe_or_broken, safe_io|]. intros _ _.
  eapply safe_bind; [apply safe_or_broken, safe_io|]. intros _ _.
  eapply safe_bind; [apply safe_read_conn|]. intros ar Har. case_bool.
  - eapply (safe_bind any); [by intros s|]. intros _ _. by apply safe_ret.
  - eapply safe_bind; [apply safe_read_conn|]. intros v Hv.
    eapply (safe_bind any); [by intros s|]. intros _ _. by apply safe_ret.
Qed.

Lemma once_safe addr req asking : safe no_nil (execOnNodeOnce addr req asking).
Proof.
  unfold execOnNodeOnce. destruct asking; [apply ask_safe|].
  eapply safe_bind; [apply safe_read|]. intros t _. apply safe_on_nodes. intros. apply pipe_ok.
Qed.

Lemma attempts_safe left addr req asking : safe no_nil (exec_attempts left addr req asking).
Proof.
  induction left as [|left IH]; cbn [exec_attempts];
    (eapply safe_bind; [apply safe_try, once_safe|]); intros [v|e| |] Hr; try done.
  - case_bool; by apply safe_ret.
  - case_bool; [by apply safe_ret|exact IH].
  - case_bool; [exact IH|apply safe_fail].
Qed.

Lemma execOnNode_safe addr req asking : safe no_nil (execOnNode addr req asking).
Proof. apply attempts_safe. Qed.

Lemma nodeAddr_safe slot isRead : safe any (nodeAddrForSlot slot isRead).
Proof.
  unfold nodeAddrForSlot. eapply safe_bind; [apply safe_read|]. intros rm _.
  eapply safe_bind; [apply safe_read|]. intros t _. destruct (pickNode rm slot isRead t) as [[a|] t'];
    (eapply (safe_bind any); [by intros s|]); intros _ _; [by apply safe_ret|apply safe_fail].
Qed.

Lemma redirect_safe budget req addr slot asking :
  safe no_nil (executeRedirect budget req addr slot asking).
Proof.
  revert addr slot asking. induction budget as [|budget IH]; intros addr slot asking; cbn [executeRedirect].
  { apply safe_fail. }
  eapply (safe_bind any); [case_bool; [apply nodeAddr_safe|by apply safe_ret]|]. intros a _.
  eapply safe_bind; [apply execOnNode_safe|]. intros v Hv.
  case_bool.
  - destruct (ParseRedirection (Some v)) as [[sl na]| | |]; try by apply safe_ret.
    eapply (safe_bind any); [by intros s|]. intros _ _. apply IH.
  - case_bool; [|by apply safe_ret].
    destruct (ParseRedirection (Some v)) as [[sl na]| | |]; try by apply safe_ret. apply IH.
Qed.

Lemma route_safe req slot : safe no_nil (route req slot).
Proof. apply redirect_safe. Qed.

Lemma mod_lookup {A} (l : list A) z : l <> [] -> is_Some (l !! Z.to_nat (z mod len l)).
Proof.
  intros Hl. apply lookup_lt_is_Some_2. pose proof (Z.mod_pos_bound z (len l)).
  destruct l; [done|]. cbn [length] in *. lia.
Qed.

Lemma anyNode_safe req : safe no_nil (executeOnAnyNode req).
Proof.
  unfold executeOnAnyNode. eapply safe_bind; [apply safe_read|]. intros t _.
  destruct (length (AllMasters t) =? 0)%nat eqn:E; [apply safe_fail|].
  eapply (safe_bind any); [by intros s|]. intros rr _.
  destruct (mod_lookup (AllMasters t) rr) as [a ->]; [by intros Hn; rewrite Hn in E|].
  apply execOnNode_safe.
Qed.

Definition ok_result (r : outcome Value) : Prop :=
  match r with Ok v => no_nil v | Err _ => True | _ => False end.

Lemma safe_lift_ok o : ok_result o -> safe no_nil (lift o).
Proof. by apply safe_lift. Qed.

Lemma by_index_ok n (rs : list (nat * outcome Value)) :
  Forall (fun r => ok_result (snd r)) rs -> Forall ok_result (by_index n rs).
Proof.
  intros Hrs. unfold by_index. apply Forall_forall. intros r Hr.
  apply list_elem_of_omap in Hr as (i & _ & Hf). destruct (List.find _ rs) as [p|] eqn:E; [|done].
  cbn in Hf. injection Hf as <-. apply List.find_some in E as [E _].
  by apply (proj1 (Forall_forall _ _) Hrs), list_elem_of_In.
Qed.

Lemma masters_safe (fn : bytes -> M Value) :
  (forall a, safe no_nil (fn a)) -> safe (Forall ok_result) (fanOutToMasters sched fn).
Proof.
  intros Hfn. unfold fanOutToMasters. eapply safe_bind; [apply safe_read|]. intros t _.
  case_bool; [apply safe_fail|]. eapply safe_bind; [apply safe_fan_out, Forall_fmap, Forall_true; exact Hfn|].
  intros rs Hrs. apply safe_ret. by apply by_index_ok.
Qed.

Lemma mergeIntegerSum_ok rs n : Forall ok_result rs -> ok_result (mergeIntegerSum rs n).
Proof.
  intros Hrs. revert n. induction Hrs as [|[v|e| |] rs Hr _ IH]; intros n; try done; [constructor|].
  apply IH.
Qed.

Lemma mergeArrayConcat_ok rs all :
  Forall ok_result rs -> Forall (fun e => is_Some e) all -> ok_result (mergeArrayConcat rs all).
Proof.
  intros Hrs. revert all. induction Hrs as [|[v|e| |] rs Hr _ IH]; intros all Ha; try done.
  cbn [mergeArrayConcat]. apply IH. case_bool; [|done]. by apply Forall_app.
Qed.

Lemma mergeOK_ok rs : Forall ok_result rs -> ok_result (mergeOK rs).
Proof.
  induction 1 as [|[v|e| |] rs Hr _ IH]; try done; [constructor|]. cbn [mergeOK]. by case_bool.
Qed.

Lemma first_non_error_ok rs e :
  Forall ok_result rs -> match fst (first_non_error rs e) with Some v => no_nil v | None => True end.
Proof.
  intros Hrs. revert e. induction Hrs as [|[v|e'| |] rs Hr _ IH]; intros e; try done; cbn [first_non_error].
  - case_bool; [apply IH|done].
  - apply IH.
Qed.

Lemma mergeFirstNonError_ok rs : Forall ok_result rs -> ok_result (mergeFirstNonError rs).
Proof.
  intros Hrs. unfold mergeFirstNonError. pose proof (first_non_error_ok rs None Hrs) as Hf.
  destruct (first_non_error rs None) as [[v|] [e|]]; try done.
  destruct Hrs as [|[v|e| |] rs Hr _]; [constructor|exact Hr|constructor|done|done].
Qed.

Lemma config_pairs_ok arr seen merged :
  Forall (fun e => is_Some e) arr -> Forall (fun e => is_Some e) merged ->
  match config_pairs arr seen merged with
  | Ok (_, m) => Forall (fun e => is_Some e) m | _ => False end.
Proof.
  assert (Hlen : exists n, (length arr <= n)%nat) by eauto. destruct Hlen as [n Hn].
  revert arr Hn seen merged. induction n as [|n IH]; intros [|k [|v arr]] Hn seen merged Ha Hm; try done.
  { cbn in Hn. lia. }
  apply Forall_cons in Ha as [[kv ->] Ha]. apply Forall_cons in Ha as [Hv Ha]. cbn [config_pairs].
  cbn in Hn. destruct (existsb _ seen); apply IH; try done; [lia..|]. apply Forall_app. split; [done|].
  by repeat constructor.
Qed.

Lemma mergeConfigGet_ok rs seen merged :
  Forall ok_result rs -> Forall (fun e => is_Some e) merged -> ok_result (mergeConfigGet rs seen merged).
Proof.
  intros Hrs. revert seen merged. induction Hrs as [|[v|e| |] rs Hr _ IH]; intros seen merged Hm; try done.
  cbn [mergeConfigGet]. case_bool; [done|]. case_bool; [by apply IH|].
  pose proof (config_pairs_ok (Array v) seen merged Hr Hm) as Hc.
  destruct (config_pairs (Array v) seen merged) as [[s' m']| | |]; try done. go_simp. by apply IH.
Qed.

Lemma script_flags_ok order rs :
  Forall ok_result rs ->
  match script_flags order rs with Ok l => Forall (fun e => is_Some e) l | _ => False end.
Proof.
  intros Hrs. induction order as [|i order IH]; [constructor|]. cbn [script_flags].
  assert (exists b, script_exists_all i rs = Ok b) as [b ->].
  { clear IH. induction Hrs as [|[v|e| |] rs Hr _ IH]; try done; cbn [script_exists_all]; eauto.
    case_bool; [eauto|]. destruct (Array v !! i) as [x|] eqn:Ex; [|eauto].
    destruct (Forall_lookup_1 _ _ _ _ Hr Ex) as [y ->]. case_bool; eauto. }
  go_simp. destruct (script_flags order rs); try done. go_simp. by constructor.
Qed.

Lemma allNodes_safe req name : safe no_nil (executeAllNodes sched req name).
Proof.
  unfold executeAllNodes. eapply safe_bind; [apply masters_safe; intros; apply execOnNode_safe|].
  intros rs Hrs. apply safe_lift_ok.
  repeat case_bool; eauto using mergeIntegerSum_ok, mergeOK_ok, mergeFirstNonError_ok, mergeArrayConcat_ok.
Qed.

Lemma scan_decode_range n c : 0 < n -> 0 <= c -> 0 <= fst (scan_decode n c) < n.
Proof.
  intros Hn Hc. unfold scan_decode. case_bool; cbn; [lia|]. split; [|lia].
  apply Z.land_nonneg. by left.
Qed.

Lemma ParseUint_nonneg l z : ParseUint l = Some z -> 0 <= z.
Proof.
  unfold ParseUint. destruct (_ && _) eqn:E; [|done]. intros [= <-].
  apply andb_prop in E as [E _]. apply andb_prop in E as [_ E]. revert E.
  assert (forall l a, 0 <= a -> forallb is_digit l = true -> 0 <= dec_value a l) as Hd.
  { clear. induction l as [|c l IH]; intros a Ha Hl; [done|]. cbn in *. apply andb_prop in Hl as [Hc Hl].
    apply IH; [|done]. unfold is_digit, digit_val in *. bool_arith. lia. }
  apply Hd. lia.
Qed.

Lemma scan_safe req : safe no_nil (executeSCAN req).
Proof.
  unfold executeSCAN. destruct (Args req) as [|a0 [|cs rest]]; try apply safe_ret, no_nil_plain.
  eapply safe_bind; [apply safe_read|]. intros t _.
  destruct (length (AllMasters t) =? 0)%nat eqn:E; [apply safe_fail|].
  destruct (ParseUint cs) as [c|] eqn:Ec; [|apply safe_ret, no_nil_plain].
  pose proof (scan_decode_range (len (AllMasters t)) c) as Hr. apply Nat.eqb_neq in E.
  destruct (scan_decode (len (AllMasters t)) c) as [idx real]. cbn in Hr.
  destruct (lookup_lt_is_Some_2 (AllMasters t) (Z.to_nat idx)) as [a ->].
  { apply ParseUint_nonneg in Ec. lia. }
  eapply safe_bind; [apply execOnNode_safe|]. intros v Hv.
  case_bool; [by apply safe_ret|]. case_bool; [by apply safe_ret|]. unfold no_nil in Hv.
  destruct (Array v) as [|c0 [|items arr]] eqn:Ea; [apply safe_ret; unfold no_nil; by rewrite Ea..|].
  apply Forall_cons in Hv as [[cv ->] Hv]. apply Forall_cons in Hv as [Hi Hv].
  destruct (ParseUint (Str cv)); apply safe_ret; unfold no_nil.
  - by repeat constructor.
  - rewrite Ea. constructor; [by eexists|]. by constructor.
Qed.

Lemma groups_safe {G} (f : G -> M Value) (gs : list G) :
  (forall g, safe no_nil (f g)) -> safe (Forall (fun r => ok_result (snd r))) (fan_out sched (map f gs)).
Proof. intros Hf. apply safe_fan_out, Forall_fmap, Forall_true. exact Hf. Qed.

Lemma scatter_length idxs vs rs : length (scatter idxs vs rs) = length rs.
Proof.
  unfold scatter. revert rs. induction (zip idxs vs) as [|p l IH]; intros rs; [done|].
  cbn [foldl]. by rewrite IH, length_insert.
Qed.

Lemma mget_safe req : safe any (executeMGET sched req).
Proof.
  unfold executeMGET. case_bool; [by apply safe_ret|].
  eapply safe_bind; [apply groups_safe; intros; apply route_safe|]. intros rs _.
  destruct (foldl _ _ rs) as [results [e|]]; [apply safe_fail|by apply safe_ret].
Qed.

Lemma mset_safe req name : safe any (executeMSET sched req name).
Proof.
  unfold executeMSET. case_bool; [by apply safe_ret|]. case_bool; [by apply safe_ret|].
  eapply safe_bind; [apply groups_safe; intros; apply route_safe|]. intros rs _.
  destruct (foldl _ _ _); [apply safe_fail|]. case_bool; by apply safe_ret.
Qed.

Lemma integer_safe name keys : safe any (fanOutInteger sched name keys).
Proof.
  unfold fanOutInteger. eapply safe_bind; [apply groups_safe; intros; apply route_safe|]. intros rs _.
  destruct (foldl _ _ _) as [n [e|]]; [apply safe_fail|by apply safe_ret].
Qed.

Lemma GetKeys_total req : exists ks, GetKeys req = Ok ks.
Proof.
  destruct (Args req) as [|a args] eqn:Ha.
  { exists []. unfold GetKeys. by rewrite Ha. }
  destruct (GetCmdInfo (Cmd req)) as [info|] eqn:Hi.
  - destruct (GetKeys_spec req info) as (ks & Hk & _); [by rewrite Ha|exact Hi|]. by exists ks.
  - exists []. unfold GetKeys. rewrite Ha, Hi. reflexivity.
Qed.

Lemma multiKey_safe req info : Args req <> [] -> safe any (executeMultiKey sched req info).
Proof.
  intros Ha. unfold executeMultiKey. destruct (Args req) as [|a0 args] eqn:E; [done|].
  assert (forall c : M Value, safe no_nil c -> safe any c) as Hw by (intros; by eapply safe_weaken).
  case_bool; [apply mget_safe|]. case_bool; [apply mset_safe|].
  case_bool.
  { unfold executeDEL. case_bool; [by apply safe_ret|apply integer_safe]. }
  case_bool.
  { unfold executeEXISTS. rewrite E. apply integer_safe. }
  destruct (GetKeys_total req) as [ks ->]. eapply (safe_bind any); [by intros s|].
  intros [|k ks'] _; apply Hw; [apply anyNode_safe|apply route_safe].
Qed.

Lemma script_safe req : safe any (executeScript sched req).
Proof.
  assert (forall c : M Value, safe no_nil c -> safe any c) as Hw by (intros; by eapply safe_weaken).
  unfold executeScript. destruct (Args req) as [|a0 [|a1 rest]]; try by apply safe_ret.
  case_bool; [apply Hw, allNodes_safe|]. case_bool; [|apply Hw, anyNode_safe].
  unfold executeScriptExists.
  eapply safe_bind; [apply masters_safe; intros; apply execOnNode_safe|]. intros rs Hrs.
  destruct (first_err rs); [apply safe_fail|]. case_bool; [by apply safe_ret|].
  pose proof (script_flags_ok (seq 0 (Z.to_nat (len (Args req) - 2))) rs Hrs) as Hf.
  eapply (safe_bind any); [apply safe_lift; by destruct (script_flags _ rs)|]. intros l _.
  by apply safe_ret.
Qed.

Lemma broadcast_safe req : safe any (ExecuteBroadcast sched req).
Proof.
  unfold ExecuteBroadcast. destruct (Args req) as [|a0 [|a1 rest]]; try by apply safe_ret.
  eapply safe_bind; [apply safe_read|]. intros t _.
  eapply safe_bind; [apply masters_safe; intros; apply execOnNode_safe|]. intros rs _. by apply safe_ret.
Qed.

Lemma config_safe req : safe any (executeConfig sched req).
Proof.
  assert (forall c : M Value, safe no_nil c -> safe any c) as Hw by (intros; by eapply safe_weaken).
  unfold executeConfig. destruct (Args req) as [|a0 [|a1 rest]]; try by apply safe_ret.
  case_bool; [|apply Hw, anyNode_safe].
  eapply safe_bind; [apply masters_safe; intros; apply execOnNode_safe|]. intros rs Hrs.
  apply Hw, safe_lift_ok. case_bool; [by apply mergeConfigGet_ok|by apply mergeOK_ok].
Qed.

Lemma Execute_safe_any req : safe any (Execute sched req).
Proof.
  assert (forall c : M Value, safe no_nil c -> safe any c) as Hw by (intros; by eapply safe_weaken).
  unfold Execute. destruct (Args req) as [|a0 args] eqn:Ha; [apply safe_fail|].
  destruct (GetCmdInfo (ToUpper a0)) as [info|]; [|by apply safe_ret].
  case_bool; [by apply safe_ret|]. case_bool; [apply Hw, scan_safe|]. case_bool; [apply script_safe|].
  case_bool; [apply config_safe|]. case_bool; [apply broadcast_safe|].
  case_bool; [apply Hw, allNodes_safe|]. case_bool; [apply multiKey_safe; by rewrite Ha|].
  destruct (getFirstKey req info); apply Hw; [apply route_safe|apply anyNode_safe].
Qed.

Lemma ExecScript_safe_any req : safe any (ExecScript req).
Proof.
  assert (forall c : M Value, safe no_nil c -> safe any c) as Hw by (intros; by eapply safe_weaken).
  unfold ExecScript. destruct (Args req) as [|a0 [|a1 [|nk rest]]] eqn:Ha; try by apply safe_ret.
  destruct (Atoi nk) as [n|]; [|by apply safe_ret]. case_bool; [by apply safe_ret|].
  case_bool; [apply Hw, anyNode_safe|]. case_bool; [by apply safe_ret|].
  destruct (take (Z.to_nat n) rest) as [|k ks] eqn:Et.
  { exfalso. cbn [length] in *. assert (length (take (Z.to_nat n) rest) = 0%nat) by by rewrite Et.
    rewrite length_take in *. lia. }
  case_bool; [by apply safe_ret|apply Hw, route_safe].
Qed.

End safety.

(** ** Bounded work

    [counting N]: the nodes [N] with a count of the commands that are written to them, one
    for each call on a pipelined connection and each write to a pooled one (so ASKING is a
    command of its own). *)

Definition counting (N : Nodes) : Nodes := {|
  nstate := nat * @nstate N;
  pipe_do ro addr data n := let '(o, m) := @pipe_do N ro addr data (snd n) in (o, (S (fst n), m));
  pool_get addr n := let '(o, m) := @pool_get N addr (snd n) in (o, (fst n, m));
  conn_write addr data n := let '(o, m) := @conn_write N addr data (snd n) in (o, (S (fst n), m));
  conn_buffer addr data n := let '(o, m) := @conn_buffer N addr data (snd n) in (o, (S (fst n), m));
  conn_flush addr n := let '(o, m) := @conn_flush N addr (snd n) in (o, (fst n, m));
  conn_read addr n := let '(o, m) := @conn_read N addr (snd n) in (o, (fst n, m));
  conn_put addr broken n := (fst n, @conn_put N addr broken (snd n));
|}.

Definition commands {N : Nodes} (s : @rstate (counting N)) : nat := fst (@r_nodes (counting N) s).

Section counts.
Context (N : Nodes).
#[local] Instance counted : Nodes := counting N.

Definition sends_at_most {A} (n : nat) (c : M A) : Prop :=
  forall s, (commands (snd (c s)) <= commands s + n)%nat.

Lemma sends_bind {A B} n m (c : M A) (f : A -> M B) :
  sends_at_most n c -> (forall a, sends_at_most m (f a)) -> sends_at_most (n + m) (c ≫= f).
Proof.
  intros Hc Hf s. rewrite M_bind_run. specialize (Hc s). destruct (c s) as [[a|e| |] s1]; cbn [snd] in *; try lia.
  specialize (Hf a s1). lia.
Qed.

Lemma sends_none {A} (c : M A) n : (forall s, commands (snd (c s)) = commands s) -> sends_at_most n c.
Proof. intros Hc s. rewrite Hc. lia. Qed.

Lemma sends_more {A} n m (c : M A) : (n <= m)%nat -> sends_at_most n c -> sends_at_most m c.
Proof. intros Hn Hc s. specialize (Hc s). lia. Qed.

Lemma sends_try {A} n (c : M A) : sends_at_most n c -> sends_at_most n (try c).
Proof. intros Hc s. unfold try. specialize (Hc s). by destruct (c s) as [[] ?]. Qed.

Lemma nodes_sends {A} n (f : nstate -> outcome A * nstate) :
  (forall x, fst (snd (f x)) <= fst x + n)%nat -> sends_at_most n (on_nodes f).
Proof. intros Hf s. unfold on_nodes. specialize (Hf (r_nodes s)). by destruct (f (r_nodes s)). Qed.

Lemma io_sends n (f : nstate -> option goerror * nstate) :
  (forall x, fst (snd (f x)) <= fst x + n)%nat -> sends_at_most n (io f).
Proof. intros Hf. apply nodes_sends. intros x. specialize (Hf x). by destruct (f x). Qed.

Lemma broken_sends {A} n addr (c : M A) : sends_at_most n c -> sends_at_most n (or_broken addr c).
Proof. intros Hc s. unfold or_broken. specialize (Hc s). by destruct (c s) as [[] ?]. Qed.

Lemma get_sends addr : sends_at_most 0 (io (pool_get addr)).
Proof. apply io_sends. intros x. cbn. destruct (@pool_get N _ _). cbn. lia. Qed.
Lemma write_sends addr b : sends_at_most 1 (or_broken addr (io (conn_write addr b))).
Proof. apply broken_sends, io_sends. intros x. cbn. destruct (@conn_write N _ _ _). cbn. lia. Qed.
Lemma read_sends addr : sends_at_most 0 (or_broken addr (on_nodes (conn_read addr))).
Proof. apply broken_sends, nodes_sends. intros x. cbn. destruct (@conn_read N _ _). cbn. lia. Qed.
Lemma put_sends addr : sends_at_most 0 (put_back addr).
Proof. apply nodes_sends. intros x. cbn. lia. Qed.

(** ASKING and the command. *)
Lemma ask_sends addr args : sends_at_most 2 (ask_exchange addr args).
Proof.
  unfold ask_exchange. apply (sends_bind 0 2); [apply sends_try, get_sends|].
  intros [|e| |]; try by apply sends_none.
  apply (sends_bind 1 1); [apply write_sends|]. intros _. apply (sends_bind 1 0); [apply write_sends|]. intros _.
  apply (sends_bind 0 0); [apply read_sends|]. intros ar. case_bool.
  - apply (sends_bind 0 0); [apply put_sends|]. intros _. by apply sends_none.
  - apply (sends_bind 0 0); [apply read_sends|]. intros v. apply (sends_bind 0 0); [apply put_sends|].
    intros _. by apply sends_none.
Qed.

Definition per_attempt (asking : bool) : nat := if asking then 2 else 1.

Lemma once_sends addr req asking : sends_at_most (per_attempt asking) (execOnNodeOnce addr req asking).
Proof.
  unfold execOnNodeOnce. destruct asking; [apply ask_sends|].
  apply (sends_bind 0 1); [by apply sends_none|]. intros t. apply nodes_sends. intros x. cbn.
  destruct (@pipe_do N _ _ _ _). cbn. lia.
Qed.

Lemma attempts_sends left addr req asking :
  sends_at_most (S left * per_attempt asking) (exec_attempts left addr req asking).
Proof.
  induction left as [|left IH]; cbn [exec_attempts].
  - replace (1 * per_attempt asking)%nat with (per_attempt asking + 0)%nat by lia.
    apply sends_bind; [apply sends_try, once_sends|]. intros []; try case_bool; by apply sends_none.
  - change (S (S left) * per_attempt asking)%nat with (per_attempt asking + S left * per_attempt asking)%nat.
    apply sends_bind; [apply sends_try, once_sends|].
    intros []; try case_bool; try exact IH; by apply sends_none.
Qed.

Lemma nodeAddr_sends slot isRead : sends_at_most 0 (nodeAddrForSlot slot isRead).
Proof.
  apply sends_none. intros s. unfold nodeAddrForSlot. rewrite M_bind_run. cbn. rewrite M_bind_run. cbn.
  by destruct (pickNode (r_mode s) slot isRead (r_topo s)) as [[] ?].
Qed.

(** Four attempts at the first node and at each one it is redirected to. *)
Lemma redirect_sends budget req addr slot asking :
  sends_at_most (4 * per_attempt asking + 8 * budget) (executeRedirect (S budget) req addr slot asking).
Proof.
  revert addr slot asking. induction budget as [|budget IH]; intros addr slot asking; cbn [executeRedirect].
  all: apply (sends_bind 0); [case_bool; [apply nodeAddr_sends|by apply sends_none]|]; intros a.
  all: apply sends_bind; [apply attempts_sends|]; intros v.
  - case_bool; [|case_bool]; try destruct (ParseRedirection (Some v)) as [[sl na]| | |]; by apply sends_none.
  - case_bool.
    + destruct (ParseRedirection (Some v)) as [[sl na]| | |]; try by apply sends_none.
      apply (sends_bind 0 (8 * S budget)); [by apply sends_none|]. intros _. eapply sends_more; [|apply IH]. unfold per_attempt. lia.
    + case_bool; [|by apply sends_none].
      destruct (ParseRedirection (Some v)) as [[sl na]| | |]; [|by apply sends_none..].
      eapply sends_more; [|apply IH]. unfold per_attempt. lia.
Qed.

End counts.

Section bounds.
Context `{Nodes}.

(** ** Redirections are followed *)

Definition is_redirect (v : Value) : bool :=
  (IsMovedError (Some v) || IsAskError (Some v)) &&
  match ParseRedirection (Some v) with Ok _ => true | _ => false end.

Lemma redirect_result budget req addr slot asking s v s' :
  executeRedirect budget req addr slot asking s = (Ok v, s') -> is_redirect v = false.
Proof.
  revert addr slot asking s. induction budget as [|budget IH]; intros addr slot asking s Hr; [done|].
  cbn [executeRedirect] in Hr. apply M_bind_inv in Hr as (a & s1 & _ & Hr).
  apply M_bind_inv in Hr as (w & s2 & _ & Hr). unfold is_redirect.
  destruct (IsMovedError (Some w)) eqn:Em.
  - destruct (ParseRedirection (Some w)) as [[sl na]| | |] eqn:Ep.
    + apply M_bind_inv in Hr as (u & s3 & _ & Hr). by eapply IH.
    + injection Hr as <- _. by rewrite Ep, andb_false_r.
    + injection Hr as <- _. by rewrite Ep, andb_false_r.
    + injection Hr as <- _. by rewrite Ep, andb_false_r.
  - destruct (IsAskError (Some w)) eqn:Ea.
    + destruct (ParseRedirection (Some w)) as [[sl na]| | |] eqn:Ep.
      * by eapply IH.
      * injection Hr as <- _. by rewrite Ep, andb_false_r.
      * injection Hr as <- _. by rewrite Ep, andb_false_r.
      * injection Hr as <- _. by rewrite Ep, andb_false_r.
    + injection Hr as <- _. by rewrite Em, Ea.
Qed.

(** ** Nodes of slots *)

Lemma GetReplica_in slot t r t' :
  GetReplicaForSlot slot t = (Some r, t') ->
  exists m, slots (snap t) !! slot = Some m /\ slot_ok slot = true /\ r ∈ replicas_of m (snap t).
Proof.
  unfold GetReplicaForSlot. destruct (slot_ok slot); [|done]. cbn [negb].
  destruct (slots (snap t) !! slot) as [m|]; [|done]. case_bool; [done|].
  intros [= Hr _]. exists m. split; [done|]. split; [done|]. by eapply list_elem_of_lookup_2.
Qed.

Lemma GetReplica_none slot t t' : GetReplicaForSlot slot t = (None, t') -> t' = t \/ snap t' = snap t.
Proof.
  unfold GetReplicaForSlot. intros Hg. assert (t' = snd (GetReplicaForSlot slot t)) as ->.
  { unfold GetReplicaForSlot. by rewrite Hg. }
  unfold GetReplicaForSlot. repeat case_match; auto.
Qed.

Lemma GetBalanced_in slot t r t' :
  GetNodeForSlotBalanced slot t = (Some r, t') ->
  exists m, slots (snap t) !! slot = Some m /\ slot_ok slot = true /\
    (r = m \/ r ∈ replicas_of m (snap t)).
Proof.
  unfold GetNodeForSlotBalanced. destruct (slot_ok slot); [|done]. cbn [negb].
  destruct (slots (snap t) !! slot) as [m|]; [|done].
  intros [= Hr _]. exists m. split; [done|]. split; [done|].
  apply list_elem_of_lookup_2, elem_of_cons in Hr. exact Hr.
Qed.

Lemma GetNode_in slot t r :
  GetNodeForSlot slot t = Some r -> slots (snap t) !! slot = Some r /\ slot_ok slot = true.
Proof. unfold GetNodeForSlot. by destruct (slot_ok slot). Qed.

Lemma nodeAddr_run slot isRead s :
  nodeAddrForSlot slot isRead s
  = match pickNode (r_mode s) slot isRead (r_topo s) with
    | (Some a, t) => (Ok a, mkR _ t (r_rr s) (r_mode s) (r_refreshes s) (r_nodes s))
    | (None, t) => (Err (no_node slot), mkR _ t (r_rr s) (r_mode s) (r_refreshes s) (r_nodes s))
    end.
Proof.
  unfold nodeAddrForSlot. rewrite M_bind_run. cbn. rewrite M_bind_run. cbn.
  by destruct (pickNode (r_mode s) slot isRead (r_topo s)) as [[] ?].
Qed.

End bounds.

Lemma pickNode_in rm slot isRead t a t' :
  pickNode rm slot isRead t = (Some a, t') ->
  exists m, slots (snap t) !! slot = Some m /\ slot_ok slot = true /\
    (a = m \/ (isRead = true /\ rm <> ReadModeMasterOnly /\ a ∈ replicas_of m (snap t))).
Proof.
  assert (Hplain : (GetNodeForSlot slot t, t) = (Some a, t') ->
    exists m, slots (snap t) !! slot = Some m /\ slot_ok slot = true /\
    (a = m \/ (isRead = true /\ rm <> ReadModeMasterOnly /\ a ∈ replicas_of m (snap t)))).
  { intros [= Hn _]. apply GetNode_in in Hn as [? ?]. exists a. auto. }
  unfold pickNode. destruct isRead; [|exact Hplain]. destruct rm; [exact Hplain| |].
  - intros Hb. apply GetBalanced_in in Hb as (m & ? & ? & [->|?]); exists m; auto 10.
  - destruct (GetReplicaForSlot slot t) as [[x|] t1] eqn:E.
    + intros [= -> ->]. apply GetReplica_in in E as (m & ? & ? & ?). exists m. auto 10.
    + intros [= Hn ->]. apply GetNode_in in Hn as [? ?]. exists a.
      destruct (GetReplica_none _ _ _ E) as [->|Hsn]; [auto|]. rewrite <- Hsn. auto.
Qed.

Lemma pickNode_none rm slot isRead t t' :
  pickNode rm slot isRead t = (None, t') -> GetNodeForSlot slot t = None.
Proof.
  assert (Hplain : (GetNodeForSlot slot t, t) = (None, t') -> GetNodeForSlot slot t = None)
    by (by intros [= -> _]).
  unfold pickNode. destruct isRead; [|exact Hplain]. destruct rm; [exact Hplain| |].
  - unfold GetNodeForSlotBalanced, GetNodeForSlot. destruct (slot_ok slot); [|done]. cbn [negb].
    destruct (slots (snap t) !! slot) as [m|]; [|done]. intros [= Hb _].
    destruct (mod_lookup (m :: replicas_of m (snap t)) (wrapu64 (msrrCounter t + 1))) as [y Hy]; [done|].
    discriminate (eq_trans (eq_sym Hy) Hb).
  - destruct (GetReplicaForSlot slot t) as [[x|] t1] eqn:E; [done|]. intros [= Hn _].
    destruct (GetReplica_none _ _ _ E) as [->|Hsn]; [done|]. unfold GetNodeForSlot in *. by rewrite <- Hsn.
Qed.


(** The call comes back, with a value or an error. *)
Definition returns {A} (o : outcome A) : Prop :=
  match o with Ok _ | Err _ => True | Panic | NoFuel => False end.

(** The waits between the attempts double from the base on, without overflow; whatever
    the attempts give, those of one command add up to 850 milliseconds at most. *)
Lemma backoff_waits bases :
  length bases = clusterDownMaxRetry -> Forall (fun b => b = clusterDownRetryDelay \/ b = pipeRetryDelay) (take pipeRetryMax bases) ->
  Forall (fun b => b = clusterDownRetryDelay) (drop pipeRetryMax bases) ->
  imap backoffDelay bases = imap (fun a b => b * 2 ^ Z.of_nat a) bases /\
  foldr Z.add 0 (imap backoffDelay bases) <= 850 * (Second / 1000).
Proof.
  destruct bases as [|b0 [|b1 [|b2 [|]]]]; try done. cbn [take drop pipeRetryMax]. intros _ H1 H2.
  rewrite !Forall_cons in H1. rewrite Forall_cons in H2. destruct H1 as ([->| ->] & [->| ->] & _), H2 as [-> _]; by vm_compute.
Qed.

(** ** Properties *)

(** The nodes [N] with a note of whether a call on one of their connections has panicked. *)
Definition failed_call {A} (o : outcome A) : bool := match o with Ok _ | Err _ => false | Panic | NoFuel => true end.

Definition watching (N : Nodes) : Nodes := {|
  nstate := bool * @nstate N;
  pipe_do ro addr data n := let '(o, m) := @pipe_do N ro addr data (snd n) in (o, (fst n || failed_call o, m));
  pool_get addr n := let '(o, m) := @pool_get N addr (snd n) in (o, (fst n, m));
  conn_write addr data n := let '(o, m) := @conn_write N addr data (snd n) in (o, (fst n, m));
  conn_buffer addr data n := let '(o, m) := @conn_buffer N addr data (snd n) in (o, (fst n, m));
  conn_flush addr n := let '(o, m) := @conn_flush N addr (snd n) in (o, (fst n, m));
  conn_read addr n := let '(o, m) := @conn_read N addr (snd n) in (o, (fst n || failed_call o, m));
  conn_put addr broken n := (fst n, @conn_put N addr broken (snd n));
|}.

Definition conn_panicked {N : Nodes} (s : @rstate (watching N)) : bool := fst (@r_nodes (watching N) s).

(** The elements of an array that was read are there ([ReadValue_no_nil]). *)
Class NoNil (N : Nodes) : Prop := {
  pipe_no_nil : forall ro addr data n v, fst (@pipe_do N ro addr data n) = Ok v -> no_nil v;
  read_no_nil : forall addr n v, fst (@conn_read N addr n) = Ok v -> no_nil v;
}.

#[global] Instance watching_ok (N : Nodes) `{!NoNil N} : @NodesOk (watching N).
Proof.
  refine (@Build_NodesOk (watching N) (fun n => fst n = true) _ _).
  - intros ro addr data n. cbn. pose proof (pipe_no_nil ro addr data (snd n)) as Hp.
    destruct (@pipe_do N ro addr data (snd n)) as [[v|e| |] m]; cbn in *; [by apply Hp|done|apply orb_true_r..].
  - intros addr n. cbn. pose proof (read_no_nil addr (snd n)) as Hp.
    destruct (@conn_read N addr (snd n)) as [[v|e| |] m]; cbn in *; [by apply Hp|done|apply orb_true_r..].
Defined.


(** Nodes that answer every command with OK. *)
Definition ok_nodes : Nodes := {|
  nstate := unit;
  pipe_do _ _ _ n := (Ok OKValue, n);
  pool_get _ n := (None, n);
  conn_write _ _ n := (None, n);
  conn_buffer _ _ n := (None, n);
  conn_flush _ n := (None, n);
  conn_read _ n := (Ok OKValue, n);
  conn_put _ _ n := n;
|}.

#[local] Instance ok_nodes_no_nil : NoNil ok_nodes.
Proof. by split; intros; simplify_eq/=; constructor. Defined.

#[local] Instance ascii_only : GoUnicode := ascii_unicode.

(** A cluster of one master, which has the slot of [k]. *)
Definition k_topology : Topology := mkTopo (mkSnap ∅ {[HashSlot (bs "k") := bs "a:1"]} [bs "a:1"] 0 []) 0 0 0.
Definition ok_state : @rstate (watching ok_nodes) := @mkR (watching ok_nodes) k_topology 0 ReadModeMasterOnly 0 (false, tt).
Definition get_k : Request := mkRequest [bs "GET"; bs "k"] [] (bs "GET").


(** C24: routing a command terminates with bounded work and resolves redirections: it
    writes at most 132 commands to the nodes (4 attempts at the first node, and at each of
    the 16 it may be redirected to 4 attempts of ASKING and the command), and the reply it
    returns is never a MOVED or ASK redirection that could still be followed. *)
Theorem route_bounded (N : Nodes) req slot (s : @rstate (counting N)) :
  (commands (snd (@route (counting N) req slot s)) <= commands s + 132)%nat /\
  forall v s', @route (counting N) req slot s = (Ok v, s') -> is_redirect v = false.
Proof.
  split; [exact (redirect_sends N MaxRedirects req [] slot false s)|]. intros v s'. apply redirect_result.
Qed.

(** Nodes that are loading three times and then redirect with ASK to one another: the bound
    is reached.  The count is of the replies to commands other than ASKING. *)
Definition asking_nodes : Nodes := {|
  nstate := nat * bool;
  pipe_do _ _ _ n := (Ok (ErrValue (if (fst n mod 4 =? 3)%nat then bs "ASK 7 b:2" else bs "LOADING")), (S (fst n), snd n));
  pool_get _ n := (None, n);
  conn_write _ _ n := (None, n);
  conn_buffer _ _ n := (None, n);
  conn_flush _ n := (None, n);
  conn_read _ n := if snd n
    then (Ok (ErrValue (if (fst n mod 4 =? 3)%nat then bs "ASK 7 b:2" else bs "LOADING")), (S (fst n), false))
    else (Ok OKValue, (fst n, true));
  conn_put _ _ n := n;
|}.

Lemma route_bound_reached :
  let s := @mkR (counting asking_nodes) k_topology 0 ReadModeMasterOnly 0 (0%nat, (0%nat, false)) in
  commands (snd (@route (counting asking_nodes) get_k (HashSlot (bs "k")) s)) = 132%nat.
Proof. vm_compute. reflexivity. Qed.

(** A command goes to the shard that owns its slot: a write, or any command in
    master-only mode, goes to the slot's owner, and a read in the other modes to the
    owner or one of its replicas; a slot without an owner is an error. *)
Lemma nodeAddr_in_shard `{Nodes} slot isRead s :
  match nodeAddrForSlot slot isRead s with
  | (Ok a, _) => exists m, slots (snap (r_topo s)) !! slot = Some m /\ slot_ok slot = true /\
      (a = m \/ (isRead = true /\ r_mode s <> ReadModeMasterOnly /\
                 a ∈ replicas_of m (snap (r_topo s))))
  | (Err e, _) => e = no_node slot /\ GetNodeForSlot slot (r_topo s) = None
  | _ => False
  end.
Proof.
  rewrite nodeAddr_run. destruct (pickNode (r_mode s) slot isRead (r_topo s)) as [[a|] t] eqn:E.
  - by eapply pickNode_in.
  - split; [done|]. by eapply pickNode_none.
Qed.

(** ** A pooled connection given back out of step *)

(** What was done with the pooled connections, and the replies they still give. *)
Inductive conn_event := CGet | CWrite (b : bytes) | CRead | CPut (broken : bool).

Definition traced (replies : list Value) : Nodes := {|
  nstate := list conn_event * list Value;
  pipe_do _ _ _ n := (Ok OKValue, n);
  pool_get _ n := (None, (fst n ++ [CGet], snd n));
  conn_write _ b n := (None, (fst n ++ [CWrite b], snd n));
  conn_buffer _ _ n := (None, n);
  conn_flush _ n := (None, n);
  conn_read _ n := match snd n with
                   | v :: vs => (Ok v, (fst n ++ [CRead], vs))
                   | [] => (Err EOF, (fst n ++ [CRead], []))
                   end;
  conn_put _ b n := (fst n ++ [CPut b], snd n);
|}.

(** After an ASK redirection, a node that refuses ASKING leaves the pooled
    connection out of step: the proxy sends ASKING and the command, reads one reply,
    returns it as the command's answer and gives the connection back as healthy, so
    the command's own reply stays in it for the next user. *)
Lemma ask_refused_desync addr args e v rest :
  IsError (Some e) = true ->
  let nodes := traced (e :: v :: rest) in
  let s := @mkR nodes NewTopology 0 ReadModeMasterOnly 0 ([], e :: v :: rest) in
  let '(r, s') := @ask_exchange nodes addr args s in
  r = Ok e /\
  @r_nodes nodes s' =
    ([CGet; CWrite AskingCmdBytes; CWrite (EncodeCommandBytes args); CRead; CPut false], v :: rest).
Proof.
  intros He. destruct e as [t str n l k]. apply byte_eqb_eq in He. cbn [Type_] in He. subst t.
  split; reflexivity.
Qed.

Lemma ask_refused_desync_witness :
  let e := ErrValue (bs "ERR This instance has cluster support disabled") in
  let nodes := traced [e; IntValue 7] in
  let s := @mkR nodes NewTopology 0 ReadModeMasterOnly 0 ([], [e; IntValue 7]) in
  let '(r, s') := @ask_exchange nodes (bs "a:1") [bs "INCR"; bs "k"] s in
  r = Ok e /\
  @r_nodes nodes s' =
    ([CGet; CWrite AskingCmdBytes; CWrite (EncodeCommandBytes [bs "INCR"; bs "k"]); CRead; CPut false],
     [IntValue 7]).
Proof.
  apply (ask_refused_desync (bs "a:1") [bs "INCR"; bs "k"]
    (ErrValue (bs "ERR This instance has cluster support disabled")) (IntValue 7) []). reflexivity.
Defined.
