(* ===== verification/RouterMulti.v ===== *)
(** * RouterMulti: the SCAN cursor and multi-key commands

    The client cursor of SCAN carries the index of the master in its low 16 bits and
    the master's own cursor above; commands on many keys are split by slot, run on
    the shards and put together again. *)

From S2P Require Import Prelude GoStd Config Crc16 Value RespParse Command Topology Router RouterFacts.

(** ** The SCAN cursor *)

Lemma scan_mask c : Z.land c scanNodeIndexMask = c mod 2^16.
Proof.
  change scanNodeIndexMask with (Z.ones 16). by rewrite Z.land_ones.
Qed.

Lemma scan_pack c i : 0 <= c < 2^48 -> 0 <= i < 2^16 ->
  Z.lor (wrapu64 (Z.shiftl c 16)) i = c * 2^16 + i.
Proof.
  intros Hc Hi. rewrite Z.shiftl_mul_pow2 by lia. rewrite wrapu64_id by lia.
  assert (Z.land (c * 2^16) i = 0) as Hl; [|by rewrite <- Z.lxor_lor, <- Z.add_nocarry_lxor].
  rewrite <- Z.shiftl_mul_pow2 by lia.
  apply Z.bits_inj'. intros n Hn. rewrite Z.land_spec, Z.bits_0.
  destruct (Z.ltb_spec n 16).
  - by rewrite Z.shiftl_spec_low.
  - rewrite (Z.bits_above_log2 i n); [by rewrite andb_false_r|lia|].
    destruct (Z.eq_dec i 0) as [->|]; [cbn; lia|].
    apply Z.lt_le_trans with 16; [|lia]. apply Z.log2_lt_pow2; lia.
Qed.

(** A cursor given to the client is decoded to the node and the node's cursor it was
    made from. *)
Lemma scan_roundtrip n i c :
  0 <= i < n -> n <= 2^16 -> 0 < c < 2^48 -> scan_decode n (scan_next n i c) = (i, c).
Proof.
  intros Hi Hn Hc. unfold scan_next. rewrite (proj2 (Z.eqb_neq c 0)) by lia. cbn [negb].
  change scanNodeIndexBits with 16. rewrite scan_pack by lia. unfold scan_decode. rewrite scan_mask.
  change scanNodeIndexBits with 16. rewrite Z.shiftr_div_pow2 by lia.
  replace (c * 2^16 + i) with (i + c * 2^16) by lia.
  rewrite Z_mod_plus_full, Z.mod_small, Z.div_add, Z.div_small by lia.
  rewrite (proj2 (Z.leb_gt n i)) by lia. reflexivity.
Qed.

Lemma scan_start n i : 0 <= i < n -> n <= 2^16 -> scan_decode n i = (i, 0).
Proof.
  intros Hi Hn. unfold scan_decode. rewrite scan_mask, Z.mod_small by lia.
  rewrite (proj2 (Z.leb_gt n i)) by lia. f_equal. change scanNodeIndexBits with 16.
  rewrite Z.shiftr_div_pow2 by lia. apply Z.div_small. lia.
Qed.

(** A client that scans: it starts with cursor 0 and goes on with the cursor it gets
    until that is 0.  [node i c] is the cursor node [i] returns for its cursor [c]; the
    result is the list of (node, cursor) pairs that were asked for. *)
Fixpoint scan_client (fuel : nat) (n : Z) (node : Z -> Z -> Z) (cursor : Z) : list (Z * Z) :=
  match fuel with
  | O => []
  | S fuel =>
      let '(i, c) := scan_decode n cursor in
      let next := scan_next n i (node i c) in
      (i, c) :: (if next =? 0 then [] else scan_client fuel n node next)
  end.

(** The cursors a node goes through, from [c] on, until it returns 0. *)
Inductive node_scan (node : Z -> Z) : Z -> list Z -> Prop :=
| scan_last c : node c = 0 -> node_scan node c [c]
| scan_more c l : 0 < node c < 2^48 -> node_scan node (node c) l -> node_scan node c (c :: l).

Lemma scan_one_node n i node c l rest fuel :
  0 <= i < n -> n <= 2^16 -> node_scan (node i) c l ->
  (length l + length rest <= fuel)%nat ->
  (rest = [] /\ i + 1 = n \/
   i + 1 < n /\ scan_client (fuel - length l) n node (i + 1) = rest) ->
  forall cursor, scan_decode n cursor = (i, c) ->
  scan_client fuel n node cursor = map (pair i) l ++ rest.
Proof.
  intros Hi Hn Hl. revert fuel. induction Hl as [c Hc|c l Hc Hl IH]; intros fuel Hf Hrest cursor Hd;
    (destruct fuel as [|fuel]; [cbn in Hf; lia|]); cbn [scan_client]; rewrite Hd.
  - rewrite Hc. unfold scan_next. cbn [Z.eqb negb]. cbn [map app]. f_equal.
    destruct Hrest as [[-> He]|[Hlt Hrest]].
    + by rewrite (proj2 (Z.ltb_ge _ _)) by lia.
    + rewrite (proj2 (Z.ltb_lt _ _)) by lia. rewrite (proj2 (Z.eqb_neq _ _)) by lia.
      cbn [length] in Hrest. by replace (S fuel - 1)%nat with fuel in Hrest by lia.
  - cbn [map app]. f_equal. pose proof (scan_roundtrip n i (node i c) Hi Hn Hc) as Hr.
    rewrite (proj2 (Z.eqb_neq (scan_next n i (node i c)) 0)).
    + apply IH; [cbn in Hf; lia| |done]. destruct Hrest as [?|[? Hrest]]; [by left|right].
      split; [done|]. cbn [length] in Hrest. by replace (S fuel - S (length l))%nat with (fuel - length l)%nat in Hrest by lia.
    + intros Hz. rewrite Hz in Hr. rewrite scan_start in Hr by lia. injection Hr as Hr. lia.
Qed.

Lemma scan_from ls n i node fuel :
  0 <= i -> i + Z.of_nat (length ls) = n -> n <= 2^16 -> ls <> [] ->
  (forall k l, ls !! k = Some l -> node_scan (node (i + Z.of_nat k)) 0 l) ->
  (length (concat ls) <= fuel)%nat ->
  scan_client fuel n node i
  = concat (imap (fun k l => map (pair (i + Z.of_nat k)) l) ls).
Proof.
  revert i fuel. induction ls as [|l ls IH]; intros i fuel Hi Hlen Hn Hne Hls Hf; [done|].
  cbn [imap concat length] in *. change (imap ?f ?l') with (imap f l').
  pose proof (Hls 0%nat l eq_refl) as Hl. rewrite Z.add_0_r in Hl.
  rewrite Z.add_0_r. rewrite length_app in Hf.
  assert (Himap : imap ((fun (k : nat) (l : list Z) => map (pair (i + Z.of_nat k)) l) ∘ S) ls
    = imap (fun k l => map (pair (i + 1 + Z.of_nat k)) l) ls).
  { apply imap_ext. intros k x _. cbn. do 2 f_equal. lia. }
  rewrite Himap. destruct ls as [|l2 ls2] eqn:Els.
  - apply scan_one_node with (c := 0); [cbn in Hlen; lia|done|done|cbn in *; lia| |apply scan_start; cbn in Hlen; lia].
    left. cbn in *. split; [done|lia].
  - rewrite <- Els in *. assert (0 < length ls)%nat by (rewrite Els; cbn; lia).
    apply scan_one_node with (c := 0); [lia|done|done| |right; split; [lia|]|apply scan_start; lia].
    + assert (length (concat (imap (fun k l => map (pair (i + 1 + Z.of_nat k)) l) ls)) = length (concat ls)) as ->; [|lia].
      clear. revert i. induction ls as [|x ls IH]; intros i; [done|]. cbn. rewrite !length_app, length_map. f_equal.
      rewrite <- (IH (i + 1)). do 2 f_equal. apply imap_ext. intros k y _. cbn. do 2 f_equal. lia.
    + apply IH; [lia|lia|done|by rewrite Els| |lia].
      intros k x Hx. specialize (Hls (S k) x Hx). by replace (i + 1 + Z.of_nat k) with (i + Z.of_nat (S k)) by lia.
Qed.

(** ** Grouping by slot *)

Definition grouped (gs : list (Z * list nat)) : list nat := concat (map snd gs).

Lemma group_add_grouped s i gs : grouped (group_add s i gs) ≡ₚ grouped gs ++ [i].
Proof.
  unfold grouped. induction gs as [|[s0 idxs] gs IH]; [done|]. cbn [group_add].
  destruct (s0 =? s); cbn [map concat snd].
  - rewrite <- !app_assoc. by rewrite (Permutation_app_comm [i]).
  - by rewrite IH, app_assoc.
Qed.

Definition group_ok (keys : list bytes) (gs : list (Z * list nat)) : Prop :=
  Forall (fun g => Forall (fun i => exists k, keys !! i = Some k /\ HashSlot k = fst g) (snd g)) gs /\
  NoDup gs.*1.

Lemma group_add_slots s i gs x : x ∈ (group_add s i gs).*1 <-> x = s \/ x ∈ gs.*1.
Proof.
  induction gs as [|[s0 idxs] gs IH]; cbn [group_add].
  { cbn. rewrite elem_of_cons. tauto. }
  destruct (Z.eqb_spec s0 s) as [->|Hne]; cbn; rewrite !elem_of_cons; [tauto|].
  rewrite IH. tauto.
Qed.

Lemma group_add_ok keys k i gs :
  keys !! i = Some k -> group_ok keys gs -> group_ok keys (group_add (HashSlot k) i gs).
Proof.
  intros Hk [Hg Hn]. split.
  - induction Hg as [|[s0 idxs] gs Hg0 Hg IH]; cbn [group_add].
    { repeat constructor. by exists k. }
    cbn in Hn. apply NoDup_cons in Hn as [_ Hn].
    destruct (Z.eqb_spec s0 (HashSlot k)) as [->|Hne]; constructor; auto.
    cbn in *. apply Forall_app. split; [done|]. repeat constructor. by exists k.
  - clear Hg. induction gs as [|[s0 idxs] gs IH]; cbn [group_add].
    { cbn. repeat constructor. by apply not_elem_of_nil. }
    cbn in Hn. apply NoDup_cons in Hn as [H0 Hn].
    destruct (Z.eqb_spec s0 (HashSlot k)) as [->|Hne]; cbn; constructor; auto.
    change (s0 ∉ (group_add (HashSlot k) i gs).*1). rewrite group_add_slots. by intros [|].
Qed.

Lemma group_slots_spec keys :
  group_ok keys (group_slots keys) /\ grouped (group_slots keys) ≡ₚ seq 0 (length keys).
Proof.
  unfold group_slots.
  assert (forall ps gs, Forall (fun p => keys !! fst p = Some (snd p)) ps -> group_ok keys gs ->
    let gs' := foldl (fun gs p => group_add (HashSlot (snd p)) (fst p) gs) gs ps in
    group_ok keys gs' /\ grouped gs' ≡ₚ grouped gs ++ ps.*1) as Hf.
  { induction ps as [|[i k] ps IH]; intros gs Hps Hgs; cbn.
    { split; [done|]. by rewrite app_nil_r. }
    apply Forall_cons in Hps as [Hk Hps]. destruct (IH (group_add (HashSlot k) i gs)) as [? Hp]; [done| |].
    { by apply group_add_ok. }
    split; [done|]. cbn in Hp. rewrite Hp, group_add_grouped, <- app_assoc. done. }
  destruct (Hf (imap pair keys) []) as [Hok Hp].
  - apply Forall_lookup_2. intros j [i k]. rewrite list_lookup_imap.
    destruct (keys !! j) eqn:E; [|done]. cbn. by intros [= <- <-].
  - split; [constructor|]. constructor.
  - split; [done|]. rewrite Hp. unfold grouped. cbn [map concat app]. by rewrite imap_pair_fst.
Qed.

Lemma group_slots_nil keys : group_slots keys = [] -> keys = [].
Proof.
  intros Hg. destruct (group_slots_spec keys) as [_ Hp]. rewrite Hg in Hp. cbn in Hp.
  apply Permutation_nil in Hp. by destruct keys.
Qed.

(** Every key belongs to a group. *)
Lemma group_slots_in keys j :
  (j < length keys)%nat -> exists g, g ∈ group_slots keys /\ j ∈ snd g.
Proof.
  intros Hj. destruct (group_slots_spec keys) as [_ Hall].
  assert (j ∈ grouped (group_slots keys)) as Hin by (rewrite Hall; apply elem_of_seq; lia).
  unfold grouped in Hin. apply list_elem_of_In, in_concat in Hin as (idxs & Hin & Hj').
  apply list_elem_of_In in Hin, Hj'. apply list_elem_of_fmap in Hin as (g & -> & Hg). eauto.
Qed.

(** ** Putting replies together *)

(** Each key of [idxs] gets its own value, the other positions keep theirs. *)
Lemma insert_all_lookup {A} (keys : list bytes) (val : bytes -> A) idxs (rs : list A) j :
  Forall (fun i => is_Some (keys !! i)) idxs -> length rs = length keys ->
  foldl (fun rs p => <[fst p := snd p]> rs) rs (zip idxs (map val (pick keys idxs))) !! j
  = if decide (j ∈ idxs) then val <$> keys !! j else rs !! j.
Proof.
  intros Hidx. revert rs. induction Hidx as [|i idxs [k Hk] Hidx IH]; intros rs Hl; [done|].
  unfold pick in *. cbn [omap list_omap]. rewrite Hk. cbn [map zip_with foldl fst snd].
  rewrite IH by by rewrite length_insert. destruct (decide (j ∈ idxs)) as [Hj|Hj].
  - rewrite decide_True by by right. done.
  - destruct (decide (j = i)) as [->|Hne].
    + rewrite decide_True by by left. rewrite Hk. cbn. apply list_lookup_insert_eq.
      apply lookup_lt_Some in Hk. lia.
    + rewrite decide_False by by rewrite elem_of_cons; intros [|]. by rewrite list_lookup_insert_ne.
Qed.

Section multi.
Context `{Nodes} `{GoUnicode}.
Context (sched : nat -> list nat) (sched_perm : forall n, sched n ≡ₚ seq 0 n).

(** [Inv] is kept by the requests of the fan-out; [res g] is what the shard of group
    [g] answers. *)
Lemma run_all_results {G A} (Inv : rstate -> Prop) (f : G -> M A) (res : G -> A) (gs : list G) order s :
  (forall g s, g ∈ gs -> Inv s -> exists s', f g s = (Ok (res g), s') /\ Inv s') ->
  Forall (fun i => (i < length gs)%nat) order -> Inv s ->
  exists s', run_all (map f gs) order s
    = (Ok (omap (fun i => (fun g => (i, Ok (res g))) <$> gs !! i) order), s') /\ Inv s'.
Proof.
  intros Hf Ho. revert s. induction Ho as [|i order Hi _ IH]; intros s Hs.
  { exists s. done. }
  destruct (lookup_lt_is_Some_2 gs i Hi) as [g Hg]. cbn [run_all omap list_omap].
  rewrite list_lookup_fmap, Hg. cbn [fmap option_fmap option_map].
  destruct (Hf g s) as (s1 & Hr & Hs1); [by eapply list_elem_of_lookup_2|done|].
  destruct (IH s1 Hs1) as (s2 & Hr2 & Hs2). exists s2. split; [|done].
  rewrite M_bind_run. unfold try. rewrite Hr. rewrite M_bind_run, Hr2. done.
Qed.

Lemma fan_out_results {G A} (Inv : rstate -> Prop) (f : G -> M A) (res : G -> A) (gs : list G) s :
  (forall g s, g ∈ gs -> Inv s -> exists s', f g s = (Ok (res g), s') /\ Inv s') -> Inv s ->
  exists order s', fan_out sched (map f gs) s
    = (Ok (omap (fun i => (fun g => (i, Ok (res g))) <$> gs !! i) order), s') /\ Inv s' /\
    order ≡ₚ seq 0 (length gs).
Proof.
  intros Hf Hs. exists (sched (length gs)).
  destruct (run_all_results Inv f res gs (sched (length gs)) s) as (s' & Hr & Hs'); [done| |done|].
  - rewrite sched_perm. apply Forall_forall. intros i Hi. apply elem_of_seq in Hi. lia.
  - exists s'. unfold fan_out. rewrite length_map. split; [done|]. split; [done|]. apply sched_perm.
Qed.

Lemma mget_fold (keys : list bytes) (val : bytes -> option Value) gs order rs :
  group_ok keys gs -> length rs = length keys ->
  exists rs', foldl (mget_collect gs) (rs, None)
      (omap (fun i => (fun g => (i, Ok (array_value (map val (pick keys (snd g)))))) <$> gs !! i) order)
    = (rs', None) /\ length rs' = length keys /\
    (forall j, rs !! j = val <$> keys !! j -> rs' !! j = val <$> keys !! j) /\
    (forall i g j, i ∈ order -> gs !! i = Some g -> j ∈ snd g -> rs' !! j = val <$> keys !! j).
Proof.
  intros Hg. revert rs. induction order as [|i order IH]; intros rs Hl.
  { exists rs. split; [done|]. split; [done|]. split; [done|]. intros i g j Hi. by apply not_elem_of_nil in Hi. }
  cbn [omap list_omap]. destruct (gs !! i) as [g|] eqn:Eg; cbn [fmap option_fmap option_map].
  2:{ destruct (IH rs Hl) as (rs' & Hf & Hl' & Hk & Hn). exists rs'. repeat split; [done..|].
      intros i' g' j Hi Hg' Hj. apply elem_of_cons in Hi as [->|Hi]; [congruence|by eapply Hn]. }
  cbn [foldl].
  assert (mget_collect gs (rs, None) (i, Ok (array_value (map val (pick keys (snd g)))))
    = (scatter (snd g) (map val (pick keys (snd g))) rs, None)) as ->.
  { unfold mget_collect. cbn [snd fst]. by rewrite Eg. }
  assert (Hidx : Forall (fun i => is_Some (keys !! i)) (snd g)).
  { destruct Hg as [Hg _]. eapply Forall_impl; [exact (Forall_lookup_1 _ _ _ _ Hg Eg)|].
    intros j (k & Hk & _). eauto. }
  set (rs1 := scatter (snd g) (map val (pick keys (snd g))) rs).
  assert (Hl1 : length rs1 = length keys) by (unfold rs1; by rewrite scatter_length).
  assert (Hs : forall j, rs1 !! j = if decide (j ∈ snd g) then val <$> keys !! j else rs !! j)
    by (intros; by apply insert_all_lookup).
  destruct (IH rs1 Hl1) as (rs' & Hf & Hl' & Hk & Hn). exists rs'. split; [done|]. split; [done|]. split.
  - intros j Hj. apply Hk. rewrite Hs. by case_decide.
  - intros i' g' j Hi Hg' Hj. apply elem_of_cons in Hi as [->|Hi]; [|by eapply Hn].
    apply Hk. rewrite Hs. rewrite Eg in Hg'. injection Hg' as <-. by rewrite decide_True.
Qed.

Lemma wrap_sum gs_sum l a :
  foldl sum_collect (a, None) (map (fun g => Ok (IntValue (gs_sum g))) l)
  = (foldl (fun t (g : Z * list nat) => wrap64 (t + gs_sum g)) a l, None).
Proof. revert a. induction l as [|g l IH]; intros a; [done|]. cbn. apply IH. Qed.

Lemma wrap_foldl (f : Z * list nat -> Z) l a :
  foldl (fun t g => wrap64 (t + f g)) (wrap64 a) l = wrap64 (a + foldr Z.add 0 (map f l)).
Proof.
  revert a. induction l as [|g l IH]; intros a; cbn [foldl foldr map]; [by rewrite Z.add_0_r|].
  rewrite wrap64_add_l, IH. f_equal. lia.
Qed.

Lemma omap_seq {A} (l : list A) : omap (fun i => l !! i) (seq 0 (length l)) = l.
Proof.
  induction l as [|x l IH]; [done|]. cbn [length seq omap list_omap lookup list_lookup]. f_equal.
  rewrite <- IH at 2. rewrite <- seq_shift. generalize (seq 0 (length l)). clear.
  induction l0 as [|i k IH]; [done|]. cbn [map omap list_omap lookup list_lookup]. by rewrite IH.
Qed.

Lemma foldr_add_perm (l k : list Z) : l ≡ₚ k -> foldr Z.add 0 l = foldr Z.add 0 k.
Proof. induction 1; cbn; lia. Qed.

End multi.

(** ** Properties *)

(** A full SCAN through the proxy visits every master, in order, each through its
    own complete cursor sequence from 0 back to 0, and then ends: the cursor the proxy
    hands out packs and unpacks the master and its cursor without loss (up to 65536
    masters and 48-bit cursors). *)
Lemma scan_visits_all n node ls fuel :
  length ls = Z.to_nat n -> 0 < n <= 2^16 ->
  (forall i l, ls !! i = Some l -> node_scan (node (Z.of_nat i)) 0 l) ->
  (length (concat ls) <= fuel)%nat ->
  scan_client fuel n node 0 = concat (imap (fun i l => map (pair (Z.of_nat i)) l) ls).
Proof.
  intros Hlen Hn Hls Hf. rewrite (scan_from ls n 0 node fuel).
  - do 2 f_equal.
  - lia.
  - lia.
  - lia.
  - intros ->. cbn in Hlen. lia.
  - exact Hls.
  - exact Hf.
Qed.

(** Node 0 goes 0, 12, 5, 0; node 1 goes 0, 0. *)
Definition two_cursors (i c : Z) : Z :=
  if i =? 0 then (if c =? 0 then 12 else if c =? 12 then 5 else 0) else 0.

Lemma scan_visits_all_witness :
  scan_client 4 2 two_cursors 0 = [(0, 0); (0, 12); (0, 5); (1, 0)].
Proof.
  apply (scan_visits_all 2 two_cursors [[0; 12; 5]; [0]]); [reflexivity|lia| |cbn; lia].
  intros [|[|i]] l; cbn; [| |discriminate]; intros [= <-].
  - apply scan_more; [vm_compute; split; reflexivity|]. apply scan_more; [vm_compute; split; reflexivity|]. apply scan_last. reflexivity.
  - apply scan_last. reflexivity.
Defined.

(** C25: MGET puts every value at its key's position: when each shard answers its part
    with the values of the keys it was sent, the proxy answers with the values of all
    keys in the order of the request, whatever the order in which the shards answer. *)
Theorem executeMGET_values `{Nodes} `{GoUnicode} (sched : nat -> list nat)
    (Inv : rstate -> Prop) (val : bytes -> option Value) req s :
  (forall n, sched n ≡ₚ seq 0 n) -> drop 1 (Args req) <> [] ->
  (forall g s, g ∈ group_slots (drop 1 (Args req)) -> Inv s ->
     exists s', route (sub_request (bs "MGET" :: pick (drop 1 (Args req)) (snd g))) (fst g) s
       = (Ok (array_value (map val (pick (drop 1 (Args req)) (snd g)))), s') /\ Inv s') ->
  Inv s ->
  exists s', executeMGET sched req s = (Ok (array_value (map val (drop 1 (Args req)))), s') /\ Inv s'.
Proof.
  intros Hs Hne Hr HI. unfold executeMGET. set (keys := drop 1 (Args req)) in *.
  destruct (length keys =? 0)%nat eqn:E; [apply Nat.eqb_eq, length_zero_iff_nil in E; done|].
  destruct (fan_out_results sched Hs Inv _ (fun g => array_value (map val (pick keys (snd g)))) _ s Hr HI)
    as (order & s' & Hfo & HI' & Hperm).
  exists s'. split; [|done]. rewrite (M_bind_ok _ _ _ _ _ Hfo).
  destruct (group_slots_spec keys) as [Hok _].
  destruct (mget_fold keys val (group_slots keys) order (replicate (length keys) None) Hok)
    as (rs' & -> & Hl & _ & Hv); [apply length_replicate|].
  assert (rs' = map val keys) as ->; [|done].
  apply list_eq. intros j. rewrite list_lookup_fmap.
  destruct (decide (j < length keys)%nat) as [Hj|Hj].
  - destruct (group_slots_in keys j Hj) as (g & Hg & Hj'). apply list_elem_of_lookup in Hg as [i Hi].
    eapply Hv; [|done|done]. rewrite Hperm. apply elem_of_seq. apply lookup_lt_Some in Hi. lia.
  - rewrite !lookup_ge_None_2; [done|lia|lia].
Qed.

(** A node that answers MGET with the keys themselves and any other command with the
    number of its arguments. *)
#[local] Instance echo_nodes : Nodes := {|
  nstate := unit;
  pipe_do _ _ cmd n :=
    (match ParseRequest cmd with
     | Ok (Some (r, _)) =>
         Ok (if bytes_eqb (Cmd r) (bs "MGET")
             then array_value (map (fun k => Some (str_value TypeBulkString k)) (drop 1 (Args r)))
             else IntValue (len (Args r) - 1))
     | _ => Err EOF
     end, n);
  pool_get _ n := (None, n);
  conn_write _ _ n := (None, n);
  conn_buffer _ _ n := (None, n);
  conn_flush _ n := (None, n);
  conn_read _ n := (Err EOF, n);
  conn_put _ _ n := n;
|}.

#[local] Instance ascii_text : GoUnicode := ascii_unicode.

Definition two_slots : Topology :=
  mkTopo (mkSnap ∅ {[HashSlot (bs "1") := bs "m:1"; HashSlot (bs "2") := bs "m:2"]} [] 1 []) 0 0 1.

Definition on_two_slots (s : rstate) : Prop := r_topo s = two_slots.
Definition two_state : rstate := mkR echo_nodes two_slots 0 ReadModeMasterOnly 0 tt.

Lemma run_known (c : M Value) s v :
  fst (c s) = Ok v -> on_two_slots (snd (c s)) -> exists s', c s = (Ok v, s') /\ on_two_slots s'.
Proof. intros Hv Hs. exists (snd (c s)). rewrite <- Hv. split; [apply surjective_pairing|exact Hs]. Qed.

Lemma executeMGET_values_witness :
  exists s', executeMGET (fun n => rev (seq 0 n)) (sub_request [bs "MGET"; bs "1"; bs "2"; bs "1"]) two_state
    = (Ok (array_value [Some (str_value TypeBulkString (bs "1")); Some (str_value TypeBulkString (bs "2"));
                        Some (str_value TypeBulkString (bs "1"))]), s') /\ on_two_slots s'.
Proof.
  apply (executeMGET_values (fun n => rev (seq 0 n)) on_two_slots
    (fun k => Some (str_value TypeBulkString k)) (sub_request [bs "MGET"; bs "1"; bs "2"; bs "1"])).
  - intros n. symmetry. apply Permutation_rev.
  - discriminate.
  - intros g [t rr md rf nd] Hg Hs. unfold on_two_slots in Hs. cbn [r_topo] in Hs. subst t.
    assert (Hgs : group_slots (drop 1 (Args (sub_request [bs "MGET"; bs "1"; bs "2"; bs "1"])))
      = [(HashSlot (bs "1"), [0; 2]%nat); (HashSlot (bs "2"), [1]%nat)]) by (vm_compute; reflexivity).
    rewrite Hgs in Hg. apply elem_of_cons in Hg as [->|Hg]; [|apply list_elem_of_singleton in Hg as ->].
    + apply run_known; [vm_compute; reflexivity|vm_compute; reflexivity].
    + apply run_known; [vm_compute; reflexivity|vm_compute; reflexivity].
  - reflexivity.
Defined.

(** DEL, UNLINK, EXISTS and TOUCH over many slots: when each shard answers with an
    integer, the proxy answers with their sum as a 64-bit integer, in whatever order
    they answer. *)
Lemma fanOutInteger_sum `{Nodes} (sched : nat -> list nat)
    (Inv : rstate -> Prop) (count : Z * list nat -> Z) cmdName keys s :
  (forall n, sched n ≡ₚ seq 0 n) ->
  (forall g s, g ∈ group_slots keys -> Inv s ->
     exists s', route (sub_request (cmdName :: pick keys (snd g))) (fst g) s
       = (Ok (IntValue (count g)), s') /\ Inv s') ->
  Inv s ->
  exists s', fanOutInteger sched cmdName keys s
    = (Ok (IntValue (wrap64 (foldr Z.add 0 (map count (group_slots keys))))), s') /\ Inv s'.
Proof.
  intros Hs Hr HI. unfold fanOutInteger.
  destruct (fan_out_results sched Hs Inv _ (fun g => IntValue (count g)) _ s Hr HI)
    as (order & s' & Hfo & HI' & Hperm).
  exists s'. split; [|done]. rewrite (M_bind_ok _ _ _ _ _ Hfo).
  set (gs := group_slots keys) in *.
  assert (Hsnd : map snd (omap (fun i => (fun g => (i, Ok (IntValue (count g)))) <$> gs !! i) order)
    = map (fun g => Ok (IntValue (count g))) (omap (fun i => gs !! i) order)).
  { clear. induction order as [|i order IH]; [done|]. cbn [omap list_omap].
    destruct (gs !! i) as [g|]; cbn [fmap option_fmap option_map map snd]; by rewrite <- IH. }
  rewrite Hsnd, wrap_sum. change 0 with (wrap64 0) at 1. rewrite wrap_foldl, Z.add_0_l.
  assert (Hsum : foldr Z.add 0 (map count (omap (fun i => gs !! i) order)) = foldr Z.add 0 (map count gs));
    [|by rewrite Hsum].
  apply foldr_add_perm, Permutation_map. rewrite Hperm.
  by rewrite omap_seq.
Qed.

Lemma fanOutInteger_sum_witness :
  exists s', fanOutInteger (seq 0) (bs "DEL") [bs "1"; bs "2"; bs "1"] two_state
    = (Ok (IntValue 3), s') /\ on_two_slots s'.
Proof.
  refine (fanOutInteger_sum (seq 0) on_two_slots (fun g => len (snd g)) (bs "DEL")
    [bs "1"; bs "2"; bs "1"] two_state _ _ _).
  - intros n. reflexivity.
  - intros g [t rr md rf nd] Hg Hs. unfold on_two_slots in Hs. cbn [r_topo] in Hs. subst t.
    assert (Hgs : group_slots [bs "1"; bs "2"; bs "1"]
      = [(HashSlot (bs "1"), [0; 2]%nat); (HashSlot (bs "2"), [1]%nat)]) by (vm_compute; reflexivity).
    rewrite Hgs in Hg. apply elem_of_cons in Hg as [->|Hg]; [|apply list_elem_of_singleton in Hg as ->].
    + apply run_known; [vm_compute; reflexivity|vm_compute; reflexivity].
    + apply run_known; [vm_compute; reflexivity|vm_compute; reflexivity].
  - reflexivity.
Defined.

(** A cluster in which the shard of the key 2 is down. *)
Definition half_down : Nodes := {|
  nstate := unit;
  pipe_do _ addr cmd n :=
    (Ok (if bytes_eqb addr (bs "m:2") then ErrValue (bs "CLUSTERDOWN The cluster is down") else IntValue 1), n);
  pool_get _ n := (None, n);
  conn_write _ _ n := (None, n);
  conn_buffer _ _ n := (None, n);
  conn_flush _ n := (None, n);
  conn_read _ n := (Err EOF, n);
  conn_put _ _ n := n;
|}.

(** A shard's error is swallowed by DEL, UNLINK, EXISTS and TOUCH: with one of two
    shards answering CLUSTERDOWN (after all retries) the client gets the integer of
    the other shard, as if every key had been handled. *)
Lemma fanOutInteger_drops_errors :
  fst (@fanOutInteger half_down (seq 0) (bs "DEL") [bs "1"; bs "2"]
         (@mkR half_down two_slots 0 ReadModeMasterOnly 0 tt)) = Ok (IntValue 1).
Proof. by vm_compute. Qed.
