(* ===== verification/RouterPipeline.v ===== *)
(** * RouterPipeline: pipelines of requests

    Model of [ExecPipeline] of [pkg/router/router.go]: the requests of a pipeline are
    classified, the ones that need several nodes run one after the other, and the others
    are sent in one batch per node, the batches concurrently ([sched], as in [Router]).
    [results] is the slice the source fills in place. *)

From S2P Require Import Prelude GoStd Config Crc16 Value Command Topology Router RouterFacts RouterMulti.

Record batchItem := mkItem {
  it_idx : nat;
  it_req : Request;
  it_addr : bytes;
  it_slot : Z;
}.

Section pipeline.
Context `{Nodes} `{GoUnicode}.
Context (sched : nat -> list nat).

(** ** Classification *)

Inductive class := CDone (v : Value) | CComplex | CSimple (addr : bytes) (slot : Z).

Definition is_complex (name : bytes) (info : CmdInfo) : bool :=
  bytes_eqb name (bs "SCAN") || bytes_eqb name (bs "SCRIPT") || bytes_eqb name (bs "CONFIG")
  || IsAllNodes (Some info) || IsMultiKey (Some info).

Definition classify_one (req : Request) : M class :=
  match Args req with
  | [] => mret (CDone (ErrValue (bs "ERR empty command")))
  | a0 :: _ =>
      let name := ToUpper a0 in
      match GetCmdInfo name with
      | None => mret (CDone (unknown_command name))
      | Some info =>
          if IsNotAllowed (Some info) then mret (CDone (not_supported name))
          else if is_complex name info then mret CComplex
          else
            match getFirstKey req info with
            | None =>
                t ← get_topo;
                let ms := AllMasters t in
                if (length ms =? 0)%nat then mret (CDone (ErrValue (bs "ERR no cluster nodes available"))) else
                rr ← next_rr;
                match ms !! Z.to_nat (rr mod len ms) with
                | Some addr => mret (CSimple addr (-1))
                | None => panic
                end
            | Some key =>
                let slot := HashSlot key in
                r ← try (nodeAddrForSlot slot (IsRead (Some info) && negb (IsWrite (Some info))));
                match r with
                | Ok addr => mret (CSimple addr slot)
                | Err _ => mret (CDone (ErrValue (bs "ERR no node for slot " ++ FormatInt slot)))
                | Panic => panic
                | NoFuel => lift NoFuel
                end
            end
      end
  end.

Fixpoint classifyPipelineRequests (i : nat) (reqs : list Request) (complexIdxs : list nat) (simple : list batchItem)
    (results : list (option Value)) : M (list nat * list batchItem * list (option Value)) :=
  match reqs with
  | [] => mret (complexIdxs, simple, results)
  | req :: reqs' =>
      c ← classify_one req;
      match c with
      | CDone v => classifyPipelineRequests (S i) reqs' complexIdxs simple (<[i := Some v]> results)
      | CComplex => classifyPipelineRequests (S i) reqs' (complexIdxs ++ [i]) simple results
      | CSimple addr slot =>
          classifyPipelineRequests (S i) reqs' complexIdxs (simple ++ [mkItem i req addr slot]) results
      end
  end.

(** ** Requests to several nodes *)

Definition or_err (r : outcome Value) : Value :=
  match r with
  | Ok v => v
  | Err e => ErrValue (err_msg e)
  | _ => ErrValue []
  end.

Fixpoint dispatchComplexRequests (reqs : list Request) (complexIdxs : list nat) (results : list (option Value))
    : M (list (option Value)) :=
  match complexIdxs with
  | [] => mret results
  | i :: is' =>
      match reqs !! i with
      | None => panic
      | Some req =>
          r ← try (Execute sched req);
          dispatchComplexRequests reqs is' (<[i := Some (or_err r)]> results)
      end
  end.

(** ** Batches *)

Fixpoint write_batch (key : bytes) (batch : list batchItem) : M unit :=
  match batch with
  | [] => mret tt
  | item :: batch' => _ ← io (conn_buffer key (EncodeCommandBytes (Args (it_req item)))); write_batch key batch'
  end.

Definition err_value (prefix : bytes) (e : goerror) : Value := ErrValue (prefix ++ err_msg e).

(** The replies, and whether all of them arrived; after an error the rest are errors. *)
Fixpoint read_batch (key : bytes) (n : nat) : M (list Value * bool) :=
  match n with
  | O => mret ([], true)
  | S n' =>
      r ← try (or_broken key (on_nodes (conn_read key)));
      match r with
      | Ok v => '(vs, all) ← read_batch key n'; mret (v :: vs, all)
      | Err e => mret (replicate (S n') (err_value (bs "ERR read: ") e), false)
      | Panic => panic
      | NoFuel => lift NoFuel
      end
  end.

Definition needs_retry (v : Value) : bool := IsClusterDownError (Some v) || IsLoadingError (Some v).
Definition needs_redirect (v : Value) : bool := IsMovedError (Some v) || IsAskError (Some v).

Definition retry_one (item : batchItem) (v : Value) : M Value :=
  if needs_retry v then r ← try (execOnNode (it_addr item) (it_req item) false); mret (or_err r) else mret v.

(** [executeRedirect] from depth 1. *)
Definition redirect_one (item : batchItem) (v : Value) : M Value :=
  if IsMovedError (Some v) then
    match ParseRedirection (Some v) with
    | Ok (newSlot, newAddr) =>
        _ ← trigger;
        r ← try (executeRedirect MaxRedirects (it_req item) newAddr newSlot false); mret (or_err r)
    | _ => mret v
    end
  else if IsAskError (Some v) then
    match ParseRedirection (Some v) with
    | Ok (_, newAddr) => r ← try (executeRedirect MaxRedirects (it_req item) newAddr (-1) true); mret (or_err r)
    | _ => mret v
    end
  else mret v.

Fixpoint each_reply (f : batchItem -> Value -> M Value) (batch : list batchItem) (vs : list Value) : M (list Value) :=
  match batch, vs with
  | item :: batch', v :: vs' => v' ← f item v; rest ← each_reply f batch' vs'; mret (v' :: rest)
  | _, _ => mret []
  end.

(** The pool of replicas is the read-only one. *)
Definition pool_key (addr : bytes) (t : Topology) : bytes :=
  if isReplicaAddr addr t then addr ++ bs "#ro" else addr.

Definition execBatchOnNode (addr : bytes) (batch : list batchItem) : M (list Value) :=
  let all v := mret (replicate (length batch) v) in
  t ← get_topo;
  let key := pool_key addr t in
  g ← try (io (pool_get key));
  match g with
  | Err e => all (err_value (bs "ERR get conn from " ++ addr ++ bs ": ") e)
  | Ok _ =>
      w ← try (or_broken key (write_batch key batch));
      match w with
      | Err e => all (err_value (bs "ERR write: ") e)
      | Ok _ =>
          f ← try (or_broken key (io (conn_flush key)));
          match f with
          | Err e => all (err_value (bs "ERR flush: ") e)
          | Ok _ =>
              '(vs, complete) ← read_batch key (length batch);
              if negb complete then mret vs else
              _ ← put_back key;
              vs' ← (if existsb needs_retry vs then each_reply retry_one batch vs else mret vs);
              if existsb needs_redirect vs then each_reply redirect_one batch vs' else mret vs'
          | Panic => panic
          | NoFuel => lift NoFuel
          end
      | Panic => panic
      | NoFuel => lift NoFuel
      end
  | Panic => panic
  | NoFuel => lift NoFuel
  end.

(** The items of each address, in order; the map's iteration order is part of [sched]. *)
Fixpoint batch_add (item : batchItem) (gs : list (bytes * list batchItem)) : list (bytes * list batchItem) :=
  match gs with
  | [] => [(it_addr item, [item])]
  | (a, items) :: gs' =>
      if bytes_eqb a (it_addr item) then (a, items ++ [item]) :: gs' else (a, items) :: batch_add item gs'
  end.
Definition by_addr (simple : list batchItem) : list (bytes * list batchItem) := foldl (fun gs it => batch_add it gs) [] simple.

(** [results[item.idx] = vals[j]] for a finished batch. *)
Definition store_batch (gs : list (bytes * list batchItem)) (results : list (option Value))
    (c : nat * outcome (list Value)) : list (option Value) :=
  match snd c, gs !! fst c with
  | Ok vals, Some (_, items) => foldl (fun rs p => <[it_idx (fst p) := Some (snd p)]> rs) results (zip items vals)
  | _, _ => results
  end.

Definition dispatchSimpleRequests (simple : list batchItem) (results : list (option Value)) : M (list (option Value)) :=
  let gs := by_addr simple in
  rs ← fan_out sched (map (fun g => execBatchOnNode (fst g) (snd g)) gs);
  mret (foldl (store_batch gs) results rs).

Definition ExecPipeline (reqs : list Request) : M (list (option Value)) :=
  if (length reqs =? 0)%nat then mret [] else
  '(complexIdxs, simple, results) ← classifyPipelineRequests 0 reqs [] [] (replicate (length reqs) None);
  results ← dispatchComplexRequests reqs complexIdxs results;
  dispatchSimpleRequests simple results.

End pipeline.

(** ** Totality *)

(** A computation that always returns a value, with [P], unless a connection panics. *)
Definition sure `{NodesOk} {A} (P : A -> Prop) (c : M A) : Prop :=
  forall s, match fst (c s) with Ok a => P a | Err _ => False | _ => panicked (r_nodes (snd (c s))) end.

Section sure.
Context `{NodesOk} `{GoUnicode}.
Context (sched : nat -> list nat) (sched_perm : forall n, sched n ≡ₚ seq 0 n).

Lemma sure_ret {A} (P : A -> Prop) a : P a -> sure P (mret a : M A).
Proof. by intros ? s. Qed.

Lemma sure_bind {A B} (P : A -> Prop) (Q : B -> Prop) (c : M A) (f : A -> M B) :
  sure P c -> (forall a, P a -> sure Q (f a)) -> sure Q (c ≫= f).
Proof.
  intros Hc Hf s. rewrite M_bind_run. specialize (Hc s). destruct (c s) as [[a|e| |] s']; cbn in *; try done.
  by apply Hf.
Qed.

Lemma sure_try {A} (P : A -> Prop) (c : M A) :
  safe P c -> sure (fun r => match r with Ok a => P a | Err _ => True | _ => False end) (try c).
Proof. intros Hc s. unfold try. specialize (Hc s). by destruct (c s) as [[] ?]. Qed.

Lemma sure_read {A} (f : rstate -> A) : sure any (fun s => (Ok (f s), s)).
Proof. by intros s. Qed.

Lemma sure_or_err {A} (P : A -> Prop) (c : M A) (f : outcome A -> M Value) :
  safe P c -> (forall r, sure any (f r)) -> sure any (r ← try c; f r).
Proof. intros Hc Hf. eapply sure_bind; [by apply sure_try|]. intros. apply Hf. Qed.

Lemma classify_one_sure req : sure any (classify_one req).
Proof.
  unfold classify_one. destruct (Args req) as [|a0 rest]; [by apply sure_ret|].
  destruct (GetCmdInfo (ToUpper a0)) as [info|]; [|by apply sure_ret].
  case_match; [by apply sure_ret|]. case_match; [by apply sure_ret|].
  destruct (getFirstKey req info) as [key|].
  - eapply sure_bind; [apply sure_try, nodeAddr_safe|]. intros [a|e| |] Hr; try done; by apply sure_ret.
  - eapply (sure_bind any); [apply sure_read|]. intros t _. case_match; [by apply sure_ret|].
    eapply (sure_bind any); [by intros s|]. intros rr _.
    destruct (mod_lookup (AllMasters t) rr) as [a ->]; [|by apply sure_ret].
    intros E. rewrite E in *. done.
Qed.

(** Every index below [i] has a result or is in one of the two lists. *)
Definition covered (i n : nat) (x : list nat * list batchItem * list (option Value)) : Prop :=
  let '(cx, simple, results) := x in
  length results = n /\ Forall (fun j => (j < n)%nat) cx /\
  forall j, (j < i)%nat -> (exists v, results !! j = Some (Some v)) \/ j ∈ cx \/ j ∈ map it_idx simple.

Lemma classify_sure reqs i n cx simple results :
  (i + length reqs = n)%nat -> covered i n (cx, simple, results) ->
  sure (covered n n) (classifyPipelineRequests i reqs cx simple results).
Proof.
  revert i cx simple results. induction reqs as [|req reqs IH]; intros i cx simple results Hi (Hl & Hcx & Hj); cbn in *.
  { apply sure_ret. replace n with i at 1 by lia. done. }
  eapply sure_bind; [apply classify_one_sure|]. intros [v| |addr slot] _; (apply IH; [lia|]).
  - split; [by rewrite length_insert|]. split; [done|]. intros j Hji. destruct (decide (j = i)) as [->|Hne].
    + left. exists v. apply list_lookup_insert_eq. lia.
    + rewrite list_lookup_insert_ne by done. apply Hj. lia.
  - split; [done|]. split; [apply Forall_app; split; [done|by constructor; [lia|]]|]. intros j Hji.
    rewrite elem_of_app, list_elem_of_singleton.
    destruct (decide (j = i)) as [->|Hne]; [by right; left; right|]. destruct (Hj j) as [?|[?|?]];
      [lia|by left|by right; left; left|by right; right].
  - split; [done|]. split; [done|]. intros j Hji. rewrite map_app, elem_of_app. cbn. rewrite list_elem_of_singleton.
    destruct (decide (j = i)) as [->|Hne]; [by right; right; right|]. destruct (Hj j) as [?|[?|?]];
      [lia|by left|by right; left|by right; right; left].
Qed.

(** A slot once filled stays filled. *)
Definition fills (js : list nat) (rs rs' : list (option Value)) : Prop :=
  length rs' = length rs /\
  (forall j, (exists v, rs !! j = Some (Some v)) -> exists v, rs' !! j = Some (Some v)) /\
  (forall j, j ∈ js -> (j < length rs)%nat -> exists v, rs' !! j = Some (Some v)).

Lemma fills_insert rs j v : fills [j] rs (<[j := Some v]> rs).
Proof.
  split; [apply length_insert|]. split.
  - intros k [w Hw]. destruct (decide (k = j)) as [->|?].
    + exists v. apply list_lookup_insert_eq. by eapply lookup_lt_Some.
    + exists w. by rewrite list_lookup_insert_ne.
  - intros k ->%list_elem_of_singleton Hk. exists v. by apply list_lookup_insert_eq.
Qed.

Lemma fills_trans js ks rs rs' rs'' : fills js rs rs' -> fills ks rs' rs'' -> fills (js ++ ks) rs rs''.
Proof.
  intros (Hl & Hk & Hf) (Hl' & Hk' & Hf'). split; [congruence|]. split; [by auto|].
  intros j [Hj|Hj]%elem_of_app Hlt; [by apply Hk', Hf|apply Hf'; [done|lia]].
Qed.

Lemma fills_refl rs : fills [] rs rs.
Proof. split; [done|]. split; [done|]. intros j Hj. by apply not_elem_of_nil in Hj. Qed.

Lemma complex_sure reqs cx results :
  length results = length reqs -> Forall (fun j => (j < length reqs)%nat) cx ->
  sure (fills cx results) (dispatchComplexRequests sched reqs cx results).
Proof.
  intros Hl Hcx. revert results Hl. induction Hcx as [|i cx Hi _ IH]; intros results Hl; cbn [dispatchComplexRequests].
  { apply sure_ret, fills_refl. }
  destruct (lookup_lt_is_Some_2 reqs i Hi) as [req ->].
  eapply sure_bind; [by apply sure_try, Execute_safe_any|]. intros r _ s.
  specialize (IH (<[i := Some (or_err r)]> results) (eq_trans (length_insert _ _ _) Hl) s).
  destruct (fst (dispatchComplexRequests _ _ _ _ s)); try done.
  eapply (fills_trans [i]); [apply fills_insert|exact IH].
Qed.

Lemma write_batch_safe key batch : safe any (write_batch key batch).
Proof.
  induction batch as [|item batch IH]; cbn [write_batch]; [by apply safe_ret|].
  eapply safe_bind; [apply safe_io|]. done.
Qed.

Definition read_post (n : nat) (x : list Value * bool) : Prop := length (fst x) = n.

Lemma read_batch_sure key n : sure (read_post n) (read_batch key n).
Proof.
  induction n as [|n IH]; cbn [read_batch]; [by apply sure_ret|].
  eapply sure_bind; [apply sure_try, safe_read_conn|]. intros [v|e| |] Hr; try done.
  - eapply sure_bind; [exact IH|]. intros [vs all] Hvs. apply sure_ret. unfold read_post in *. cbn in *. by rewrite Hvs.
  - apply sure_ret. unfold read_post. cbn [fst]. apply length_replicate.
Qed.

Lemma try_value_sure (c : M Value) : safe no_nil c -> sure any (r ← try c; mret (or_err r)).
Proof. intros Hc. eapply sure_bind; [by apply sure_try|]. intros. by apply sure_ret. Qed.

Lemma retry_one_sure item v : sure any (retry_one item v).
Proof. unfold retry_one. case_match; [apply try_value_sure, execOnNode_safe|by apply sure_ret]. Qed.

Lemma redirect_one_sure item v : sure any (redirect_one item v).
Proof.
  unfold redirect_one. case_match; [|case_match; [|by apply sure_ret]].
  - destruct (ParseRedirection (Some v)) as [[slot addr]|e| |]; try by apply sure_ret.
    eapply (sure_bind any); [by intros s|]. intros _ _. apply try_value_sure, redirect_safe.
  - destruct (ParseRedirection (Some v)) as [[slot addr]|e| |]; try by apply sure_ret.
    apply try_value_sure, redirect_safe.
Qed.

Lemma each_reply_sure f batch vs :
  (forall item v, sure any (f item v)) -> length vs = length batch ->
  sure (fun l => length l = length batch) (each_reply f batch vs).
Proof.
  intros Hf. revert vs. induction batch as [|item batch IH]; intros [|v vs] Hl; [by apply sure_ret|done|done|].
  cbn [each_reply]. eapply sure_bind; [apply Hf|]. intros v' _.
  eapply sure_bind; [apply IH; by injection Hl|]. intros l Hl'. apply sure_ret. cbn. by rewrite Hl'.
Qed.

Lemma execBatch_sure addr batch : sure (fun l => length l = length batch) (execBatchOnNode addr batch).
Proof.
  assert (Hall : forall v, sure (fun l => length l = length batch) (mret (replicate (length batch) v) : M (list Value)))
    by (intros; apply sure_ret, length_replicate).
  unfold execBatchOnNode. eapply (sure_bind any); [apply sure_read|]. intros t _. set (key := pool_key addr t).
  eapply sure_bind; [apply sure_try, safe_io|]. intros [g|e| |] Hg; [|exact (Hall _)|destruct Hg|destruct Hg].
  eapply sure_bind; [apply sure_try, safe_or_broken, write_batch_safe|]. intros [w|e| |] Hw; [|exact (Hall _)|destruct Hw|destruct Hw].
  eapply sure_bind; [apply sure_try, safe_or_broken, safe_io|]. intros [f|e| |] Hf; [|exact (Hall _)|destruct Hf|destruct Hf].
  eapply sure_bind; [apply read_batch_sure|]. intros [vs complete] Hvs. unfold read_post in Hvs. cbn in Hvs.
  case_match; [by apply sure_ret|]. eapply (sure_bind any); [by intros s|]. intros _ _.
  eapply (sure_bind (fun l => length l = length batch)).
  - case_match; [apply each_reply_sure; [apply retry_one_sure|done]|by apply sure_ret].
  - intros vs' Hvs'. case_match; [apply each_reply_sure; [apply redirect_one_sure|done]|by apply sure_ret].
Qed.

Lemma sure_run_all {A} (P : nat -> A -> Prop) (cs : list (M A)) order :
  (forall i c, cs !! i = Some c -> sure (P i) c) -> Forall (fun i => (i < length cs)%nat) order ->
  sure (fun rs => map fst rs = order /\ Forall (fun r => exists a, snd r = Ok a /\ P (fst r) a) rs) (run_all cs order).
Proof.
  intros Hcs. induction 1 as [|i order Hi _ IH]; cbn [run_all].
  { by apply sure_ret. }
  destruct (lookup_lt_is_Some_2 cs i Hi) as [c Hc]. rewrite Hc.
  eapply (sure_bind (fun r => exists a, r = Ok a /\ P i a)).
  { intros s. unfold try. specialize (Hcs i c Hc s). destruct (c s) as [[a|e| |] s']; cbn in *; try done. by exists a. }
  intros r (a & -> & Ha). eapply sure_bind; [exact IH|]. intros rs [Hf Hrs]. apply sure_ret. cbn. rewrite Hf.
  split; [done|]. constructor; [|done]. by exists a.
Qed.

(** The groups hold the items, each once. *)
Lemma batch_add_perm item gs : concat (map snd (batch_add item gs)) ≡ₚ concat (map snd gs) ++ [item].
Proof.
  induction gs as [|[a items] gs IH]; cbn [batch_add]; [done|]. case_match; cbn [map concat snd].
  - rewrite <- !app_assoc. apply Permutation_app_head, Permutation_app_comm.
  - by rewrite IH, app_assoc.
Qed.

Lemma by_addr_perm simple : concat (map snd (by_addr simple)) ≡ₚ simple.
Proof.
  unfold by_addr. induction simple as [|item simple IH] using rev_ind; [done|].
  rewrite foldl_app. cbn [foldl]. by rewrite batch_add_perm, IH.
Qed.

Lemma store_items items vals results :
  length vals = length items ->
  fills (map it_idx items) results
    (foldl (fun rs p => <[it_idx (fst p) := Some (snd p)]> rs) results (zip items vals)).
Proof.
  revert vals results. induction items as [|item items IH]; intros [|v vals] results Hl; [apply fills_refl|done|done|].
  cbn [zip zip_with foldl map fst snd]. eapply (fills_trans [it_idx item]); [apply fills_insert|].
  apply IH. by injection Hl.
Qed.

Lemma store_all gs rs results :
  Forall (fun r => exists vals, snd r = Ok vals /\
    forall g, gs !! fst r = Some g -> length vals = length (snd g)) rs ->
  Forall (fun r => (fst r < length gs)%nat) rs ->
  fills (concat (map (fun r => map it_idx (default [] (snd <$> gs !! fst r))) rs)) results
    (foldl (store_batch gs) results rs).
Proof.
  intros Hv Hl. revert results. induction Hv as [|[i o] rs (vals & Ho & Hlen) _ IH]; intros results; [apply fills_refl|].
  apply Forall_cons in Hl as [Hi Hl]. cbn [foldl map concat fst snd] in *. subst o.
  destruct (lookup_lt_is_Some_2 gs i Hi) as [[a items] Hg]. specialize (Hlen _ Hg). cbn in Hlen.
  eapply fills_trans; [|by apply IH]. unfold store_batch. cbn [fst snd]. rewrite Hg. by apply store_items.
Qed.

Lemma groups_perm (gs : list (bytes * list batchItem)) order :
  order ≡ₚ seq 0 (length gs) ->
  concat (map (fun i => default [] (snd <$> gs !! i)) order) ≡ₚ concat (map snd gs).
Proof.
  intros Ho. etrans.
  { apply (concat_perm _ (map (fun i => default [] (snd <$> gs !! i)) (seq 0 (length gs)))). by apply Permutation_map. }
  apply reflexive_eq. f_equal. apply list_eq. intros j. rewrite !list_lookup_fmap. destruct (gs !! j) eqn:E.
  - rewrite lookup_seq_lt by by eapply lookup_lt_Some. cbn. by rewrite E.
  - apply lookup_ge_None in E. by rewrite lookup_seq_ge.
Qed.

Lemma group_idxs_perm (gs : list (bytes * list batchItem)) order :
  order ≡ₚ seq 0 (length gs) ->
  concat (map (fun i => map it_idx (default [] (snd <$> gs !! i))) order) ≡ₚ map it_idx (concat (map snd gs)).
Proof.
  intros Ho. rewrite <- (map_map (fun i => default [] (snd <$> gs !! i)) (map it_idx)), <- concat_map.
  by apply Permutation_map, groups_perm.
Qed.

Lemma simple_sure simple results :
  sure (fills (map it_idx simple) results) (dispatchSimpleRequests sched simple results).
Proof.
  unfold dispatchSimpleRequests. set (gs := by_addr simple).
  eapply sure_bind; [eapply (sure_run_all (fun i vals => forall g, gs !! i = Some g -> length vals = length (snd g)))|].
  - intros i c Hc s. rewrite list_lookup_fmap in Hc. destruct (gs !! i) as [g|] eqn:Eg; [|done]. injection Hc as <-.
    pose proof (execBatch_sure (fst g) (snd g) s) as He. destruct (fst (execBatchOnNode _ _ s)); try done.
    intros g' [= <-]. done.
  - rewrite sched_perm. apply Forall_forall. intros i Hi. apply elem_of_seq in Hi. lia.
  - intros rs [Ho Hrs]. apply sure_ret. rewrite length_map in Ho.
    assert (Hlt : Forall (fun r => (fst r < length gs)%nat) rs).
    { apply Forall_forall. intros r Hr. assert (Hin : fst r ∈ map fst rs) by (apply list_elem_of_fmap; by exists r).
      rewrite Ho, sched_perm in Hin. apply elem_of_seq in Hin. lia. }
    destruct (store_all gs rs results Hrs Hlt) as (Hs1 & Hs2 & Hs3). split; [done|]. split; [done|].
    intros j Hj. apply Hs3. rewrite <- (map_map fst (fun i => map it_idx (default [] (snd <$> gs !! i)))), Ho.
    rewrite group_idxs_perm by apply sched_perm. subst gs. by rewrite by_addr_perm.
Qed.

Lemma pipeline_sure reqs :
  sure (fun rs => length rs = length reqs /\ Forall (fun r => is_Some r) rs) (ExecPipeline sched reqs).
Proof.
  unfold ExecPipeline. destruct (length reqs =? 0)%nat eqn:E.
  { apply Nat.eqb_eq, length_zero_iff_nil in E. subst. by apply sure_ret. }
  eapply sure_bind; [apply (classify_sure reqs 0 (length reqs)); [done|]|].
  { split; [apply length_replicate|]. split; [done|]. lia. }
  intros [[cx simple] results] (Hl & Hcx & Hcov).
  eapply sure_bind; [by apply complex_sure|]. intros results1 (Hl1 & Hk1 & Hf1) s.
  pose proof (simple_sure simple results1 s) as Hs. destruct (fst (dispatchSimpleRequests _ _ _ s)) as [rs| | |]; try done.
  destruct Hs as (Hl2 & Hk2 & Hf2). split; [congruence|]. apply Forall_forall. intros r Hr.
  apply list_elem_of_lookup in Hr as [j Hj]. assert (Hlt : (j < length reqs)%nat).
  { apply lookup_lt_Some in Hj. congruence. }
  assert (exists v, rs !! j = Some (Some v)) as [v Hv]; [|rewrite Hv in Hj; injection Hj as <-; done].
  destruct (Hcov j Hlt) as [?|[?|?]]; [by apply Hk2, Hk1|apply Hk2, Hf1; [done|lia]|apply Hf2; [done|lia]].
Qed.

End sure.

(** ** Replies of the batches *)

(** Backends that answer: a pooled connection replies to the commands written to it in
    order ([answer] by the key of its pool), as a Redis connection does. *)
Class OrderedNodes `{Nodes} := {
  answer : bytes -> bytes -> Value;
  queue : bytes -> nstate -> list bytes;
  ord_get : forall key n, exists n', pool_get key n = (None, n') /\ queue key n' = [];
  ord_buffer : forall key d n, exists n', conn_buffer key d n = (None, n') /\ queue key n' = queue key n ++ [d];
  ord_flush : forall key n, exists n', conn_flush key n = (None, n') /\ queue key n' = queue key n;
  ord_read : forall key n d q, queue key n = d :: q ->
    exists n', conn_read key n = (Ok (answer key d), n') /\ queue key n' = q;
}.

Section ordered.
Context `{OrderedNodes} `{GoUnicode}.
Context (sched : nat -> list nat) (sched_perm : forall n, sched n ≡ₚ seq 0 n).

Definition with_nodes (s : rstate) (n : nstate) : rstate :=
  mkR _ (r_topo s) (r_rr s) (r_mode s) (r_refreshes s) n.

Definition cmd_of (item : batchItem) : bytes := EncodeCommandBytes (Args (it_req item)).

Lemma write_batch_run key batch s :
  exists n, write_batch key batch s = (Ok tt, with_nodes s n) /\ queue key n = queue key (r_nodes s) ++ map cmd_of batch.
Proof.
  revert s. induction batch as [|item batch IH]; intros s; cbn [write_batch map].
  { exists (r_nodes s). rewrite app_nil_r. by destruct s. }
  destruct (ord_buffer key (cmd_of item) (r_nodes s)) as (n1 & Hb & Hq1).
  destruct (IH (with_nodes s n1)) as (n2 & Hw & Hq2). exists n2.
  cbn [with_nodes r_nodes] in Hq2. rewrite Hq1, <- app_assoc in Hq2. split; [|exact Hq2].
  rewrite M_bind_run. unfold io, on_nodes. fold (cmd_of item). rewrite Hb. exact Hw.
Qed.

Lemma read_batch_run key batch s q :
  queue key (r_nodes s) = map cmd_of batch ++ q ->
  exists n, read_batch key (length batch) s
    = (Ok (map (fun it => answer key (cmd_of it)) batch, true), with_nodes s n) /\ queue key n = q.
Proof.
  revert s. induction batch as [|item batch IH]; intros s Hq; cbn [read_batch map length].
  { exists (r_nodes s). by destruct s. }
  cbn [map app] in Hq. destruct (ord_read key (r_nodes s) _ _ Hq) as (n1 & Hr & Hq1).
  destruct (IH (with_nodes s n1) Hq1) as (n2 & Hb & Hq2). exists n2. split; [|done].
  rewrite M_bind_run. unfold try, or_broken, on_nodes. rewrite Hr. rewrite M_bind_run.
  change (mkR _ _ _ _ _ _) with (with_nodes s n1). by rewrite Hb.
Qed.

(** Answers that need neither a retry nor a redirection. *)
Definition plain_answers (t : Topology) (simple : list batchItem) : Prop := forall item, item ∈ simple ->
  needs_retry (answer (pool_key (it_addr item) t) (cmd_of item)) = false /\
  needs_redirect (answer (pool_key (it_addr item) t) (cmd_of item)) = false.

Definition on_topo (t : Topology) (s : rstate) : Prop := r_topo s = t.

Lemma existsb_map_false {A B} (f : B -> bool) (g : A -> B) l :
  (forall a, a ∈ l -> f (g a) = false) -> existsb f (map g l) = false.
Proof.
  induction l as [|a l IH]; intros Hl; [done|]. cbn. rewrite Hl by (apply elem_of_cons; by left). cbn.
  apply IH. intros b Hb. apply Hl. apply elem_of_cons. by right.
Qed.

Lemma execBatch_run t addr batch s :
  on_topo t s -> Forall (fun it => it_addr it = addr) batch -> plain_answers t batch ->
  exists s', execBatchOnNode addr batch s
    = (Ok (map (fun it => answer (pool_key (it_addr it) t) (cmd_of it)) batch), s') /\ on_topo t s'.
Proof.
  intros Ht Ha Hp. unfold execBatchOnNode. rewrite M_bind_run. cbn [get_topo]. rewrite Ht.
  set (key := pool_key addr t).
  assert (Hmap : map (fun it => answer (pool_key (it_addr it) t) (cmd_of it)) batch
    = map (fun it => answer key (cmd_of it)) batch).
  { apply map_ext_in. intros it Hit. apply list_elem_of_In in Hit. rewrite Forall_forall in Ha.
    by rewrite (Ha it Hit). }
  rewrite Hmap. destruct (ord_get key (r_nodes s)) as (n1 & Hg & Hq1).
  rewrite M_bind_run. unfold try at 1, io at 1, on_nodes at 1. rewrite Hg.
  destruct (write_batch_run key batch (with_nodes s n1)) as (n2 & Hw & Hq2).
  rewrite M_bind_run. unfold try at 1, or_broken at 1. change (mkR _ _ _ _ _ n1) with (with_nodes s n1). rewrite Hw.
  destruct (ord_flush key n2) as (n3 & Hf & Hq3).
  rewrite M_bind_run. unfold try at 1, or_broken at 1, io at 1, on_nodes at 1. cbn [with_nodes r_nodes r_topo r_rr r_mode r_refreshes].
  rewrite Hf. change (mkR _ _ _ _ _ n3) with (with_nodes s n3).
  destruct (read_batch_run key batch (with_nodes s n3) []) as (n4 & Hr & _).
  { cbn. rewrite Hq3, Hq2. cbn. by rewrite Hq1, app_nil_r. }
  rewrite M_bind_run, Hr. cbn [negb]. rewrite M_bind_run. unfold put_back, on_nodes at 1. rewrite M_bind_run.
  rewrite !existsb_map_false.
  - eexists. split; [done|exact Ht].
  - intros it Hit. destruct (Hp it Hit) as [_ E]. rewrite Forall_forall in Ha. by rewrite (Ha it Hit) in E.
  - intros it Hit. destruct (Hp it Hit) as [E _]. rewrite Forall_forall in Ha. by rewrite (Ha it Hit) in E.
Qed.

(** The items of a group have its address. *)
Lemma batch_add_addr item gs :
  Forall (fun g => Forall (fun it => it_addr it = fst g) (snd g)) gs ->
  Forall (fun g => Forall (fun it => it_addr it = fst g) (snd g)) (batch_add item gs).
Proof.
  induction 1 as [|[a items] gs Hg Hgs IH]; cbn [batch_add]; [by repeat constructor|].
  destruct (bytes_eqb a (it_addr item)) eqn:E; constructor; try done.
  apply bytes_eqb_eq in E. cbn in *. apply Forall_app. split; [done|]. by constructor.
Qed.

Lemma by_addr_addr simple : Forall (fun g => Forall (fun it => it_addr it = fst g) (snd g)) (by_addr simple).
Proof.
  unfold by_addr. induction simple as [|item simple IH] using rev_ind; [constructor|].
  rewrite foldl_app. cbn [foldl]. by apply batch_add_addr.
Qed.

(** The items stored one after the other. *)
Definition store_each (val : batchItem -> Value) (items : list batchItem) (rs : list (option Value)) : list (option Value) :=
  foldl (fun rs it => <[it_idx it := Some (val it)]> rs) rs items.

Lemma store_each_cons val it items rs :
  store_each val (it :: items) rs = store_each val items (<[it_idx it := Some (val it)]> rs).
Proof. done. Qed.

Lemma store_each_length val items rs : length (store_each val items rs) = length rs.
Proof. revert rs. induction items as [|it items IH]; intros rs; [done|]. rewrite store_each_cons, IH. apply length_insert. Qed.

Lemma store_each_other val items rs j : j ∉ map it_idx items -> store_each val items rs !! j = rs !! j.
Proof.
  revert rs. induction items as [|it items IH]; intros rs Hj; [done|]. cbn [map] in Hj.
  apply not_elem_of_cons in Hj as [Hne Hj]. rewrite store_each_cons, IH by done. by rewrite list_lookup_insert_ne.
Qed.

Lemma store_each_item val items rs it :
  NoDup (map it_idx items) -> it ∈ items -> (it_idx it < length rs)%nat ->
  store_each val items rs !! it_idx it = Some (Some (val it)).
Proof.
  revert rs. induction items as [|x items IH]; intros rs Hn Hin Hl; [by apply not_elem_of_nil in Hin|].
  cbn [map] in Hn. apply NoDup_cons in Hn as [Hx Hn]. rewrite store_each_cons. apply elem_of_cons in Hin as [->|Hin].
  - rewrite store_each_other by done. by apply list_lookup_insert_eq.
  - apply IH; [done|done|]. by rewrite length_insert.
Qed.

Lemma store_batches val gs order rs :
  foldl (store_batch gs) rs
    (omap (fun i => (fun g => (i, Ok (map val (snd g)))) <$> gs !! i) order)
  = store_each val (concat (map (fun i => default [] (snd <$> gs !! i)) order)) rs.
Proof.
  revert rs. induction order as [|i order IH]; intros rs; [done|]. cbn [omap list_omap map concat].
  unfold store_each. rewrite foldl_app. destruct (gs !! i) as [[a items]|] eqn:E; cbn [fmap option_fmap option_map default foldl].
  2: apply IH.
  rewrite IH. unfold store_each. f_equal. unfold store_batch. cbn [fst snd]. rewrite E.
  clear. revert rs. induction items as [|it items IH]; intros rs; [done|]. cbn. apply IH.
Qed.

Lemma simple_run t simple results s :
  on_topo t s -> plain_answers t simple -> NoDup (map it_idx simple) ->
  exists rs s', dispatchSimpleRequests sched simple results s = (Ok rs, s') /\ length rs = length results /\
    (forall it, it ∈ simple -> (it_idx it < length results)%nat ->
       rs !! it_idx it = Some (Some (answer (pool_key (it_addr it) t) (cmd_of it)))) /\
    (forall j, j ∉ map it_idx simple -> rs !! j = results !! j).
Proof.
  intros Ht Hp Hn. unfold dispatchSimpleRequests. set (gs := by_addr simple).
  set (val := fun it => answer (pool_key (it_addr it) t) (cmd_of it)).
  pose proof (by_addr_perm simple) as Hperm. fold gs in Hperm.
  destruct (fan_out_results sched sched_perm (on_topo t) (fun g => execBatchOnNode (fst g) (snd g))
    (fun g => map val (snd g)) gs s) as (order & s' & Hr & _ & Ho); [|done|].
  { intros g s1 Hg Hs1. apply execBatch_run; [done| |].
    - pose proof (by_addr_addr simple) as Ha. rewrite Forall_forall in Ha. by apply Ha.
    - intros it Hit. apply Hp. rewrite <- Hperm. apply list_elem_of_In, in_concat. exists (snd g).
      split; [|by apply list_elem_of_In]. apply list_elem_of_In, list_elem_of_fmap. by exists g. }
  rewrite (M_bind_ok _ _ _ _ _ Hr), store_batches. eexists _, s'. split; [done|].
  pose proof (groups_perm gs order Ho) as Hg. rewrite Hperm in Hg.
  split; [apply store_each_length|]. split.
  - intros it Hit Hl. apply store_each_item; [by rewrite Hg|by rewrite Hg|done].
  - intros j Hj. apply store_each_other. by rewrite Hg.
Qed.

(** The items are the requests at their positions. *)
Lemma classify_items reqs i cx simple results s cx' simple' results' s' :
  classifyPipelineRequests i reqs cx simple results s = (Ok (cx', simple', results'), s') ->
  length results' = length results /\
  exists added, simple' = simple ++ added /\ NoDup (map it_idx added) /\
    Forall (fun it => (i <= it_idx it)%nat /\ reqs !! (it_idx it - i)%nat = Some (it_req it)) added.
Proof.
  revert i cx simple results s. induction reqs as [|req reqs IH]; intros i cx simple results s; cbn [classifyPipelineRequests].
  { intros [= <- <- <- <-]. split; [done|]. exists []. rewrite app_nil_r. split; [done|]. split; constructor. }
  assert (Hup : forall added, Forall (fun it => (S i <= it_idx it)%nat /\ reqs !! (it_idx it - S i)%nat = Some (it_req it)) added ->
    Forall (fun it => (i <= it_idx it)%nat /\ (req :: reqs) !! (it_idx it - i)%nat = Some (it_req it)) added).
  { intros added Had. eapply Forall_impl; [exact Had|]. intros it [Hle Hl]. split; [lia|].
    by replace (it_idx it - i)%nat with (S (it_idx it - S i)) by lia. }
  rewrite M_bind_run. destruct (classify_one req s) as [[[v| |addr slot]|e| |] s1]; try done; intros Hc; apply IH in Hc as (Hl & added & -> & Hn & Ha).
  - rewrite length_insert in Hl. split; [done|]. exists added. split; [done|]. split; [done|]. by apply Hup.
  - split; [done|]. exists added. split; [done|]. split; [done|]. by apply Hup.
  - split; [done|]. exists (mkItem i req addr slot :: added). rewrite <- app_assoc. split; [done|]. split.
    + cbn [map it_idx]. constructor; [|done]. intros Hin. apply list_elem_of_fmap in Hin as (it & -> & Hit).
      rewrite Forall_forall in Ha. destruct (Ha it Hit). lia.
    + constructor; [|by apply Hup]. cbn. rewrite Nat.sub_diag. by split.
Qed.
End ordered.

(** ** Properties *)

(** C40: a pipeline always returns one reply per request: whatever the nodes answer, however
    their connections fail and whatever the commands are, [ExecPipeline] returns as many
    results as it was given requests and none of them is missing, unless one of its calls
    on a connection has itself panicked. *)
Theorem ExecPipeline_total (N : Nodes) `{!NoNil N} `{GoUnicode} (sched : nat -> list nat) reqs (s : @rstate (watching N)) :
  (forall n, sched n ≡ₚ seq 0 n) ->
  let '(o, s') := @ExecPipeline (watching N) _ sched reqs s in
  conn_panicked s' = false -> exists rs, o = Ok rs /\ length rs = length reqs /\ Forall (fun r => is_Some r) rs.
Proof.
  intros Hs. pose proof (pipeline_sure sched Hs reqs s) as H'. destruct (ExecPipeline sched reqs s) as [[rs|e| |] s'];
    cbn [fst snd] in *; intros Hc; [by exists rs|done|exfalso; by apply diff_false_true; rewrite <- Hc..].
Qed.

(** C22: a pipeline of commands for single nodes (none that [classifyPipelineRequests] takes
    for a multi-node command), over connections that do not fail and on which a node
    answers the commands in order ([OrderedNodes]), whose replies need no second attempt
    ([plain_answers]: none is MOVED, ASK, CLUSTERDOWN or LOADING): the reply to the [i]-th
    request is the [i]-th result, that is, every request that was sent to a node gets the
    answer of the node it was sent to, and the others keep the result the classification
    gave them, for every order in which the batches finish. *)
Theorem ExecPipeline_in_order `{OrderedNodes} `{GoUnicode} (sched : nat -> list nat) reqs s simple results s1 :
  (forall n, sched n ≡ₚ seq 0 n) -> reqs <> [] ->
  classifyPipelineRequests 0 reqs [] [] (replicate (length reqs) None) s = (Ok ([], simple, results), s1) ->
  plain_answers (r_topo s1) simple ->
  exists rs s', ExecPipeline sched reqs s = (Ok rs, s') /\ length rs = length reqs /\
    (forall it, it ∈ simple -> reqs !! it_idx it = Some (it_req it) /\
       rs !! it_idx it = Some (Some (answer (pool_key (it_addr it) (r_topo s1)) (EncodeCommandBytes (Args (it_req it)))))) /\
    (forall j, j ∉ map it_idx simple -> rs !! j = results !! j).
Proof.
  intros Hs Hne Hc Hp. destruct (classify_items _ _ _ _ _ _ _ _ _ _ Hc) as (Hl & added & Heq & Hn & Ha).
  cbn [app] in Heq. subst added. rewrite length_replicate in Hl.
  destruct (simple_run sched Hs (r_topo s1) simple results s1 eq_refl Hp Hn) as (rs & s' & Hr & Hlr & Hi & Ho).
  exists rs, s'. unfold ExecPipeline. destruct (length reqs =? 0)%nat eqn:E.
  { apply Nat.eqb_eq, length_zero_iff_nil in E. done. }
  split; [by rewrite (M_bind_ok _ _ _ _ _ Hc)|]. split; [congruence|]. split; [|done].
  intros it Hit. rewrite Forall_forall in Ha. destruct (Ha it Hit) as [_ Hreq]. rewrite Nat.sub_0_r in Hreq.
  split; [done|]. apply Hi; [done|]. apply lookup_lt_Some in Hreq. lia.
Qed.

#[local] Instance ascii_names : GoUnicode := ascii_unicode.

Lemma ExecPipeline_total_witness :
  exists rs, fst (@ExecPipeline (watching ok_nodes) _ (seq 0) [get_k; mkRequest [] [] []; get_k] ok_state) = Ok rs /\
    length rs = 3%nat /\ Forall (fun r => is_Some r) rs.
Proof.
  pose proof (@ExecPipeline_total ok_nodes ok_nodes_no_nil ascii_names (seq 0) [get_k; mkRequest [] [] []; get_k] ok_state) as Ht.
  assert (Hc : conn_panicked (snd (@ExecPipeline (watching ok_nodes) _ (seq 0) [get_k; mkRequest [] [] []; get_k] ok_state)) = false)
    by (vm_compute; reflexivity).
  destruct (@ExecPipeline (watching ok_nodes) _ (seq 0) [get_k; mkRequest [] [] []; get_k] ok_state) as [o s'].
  apply Ht; [intros n; reflexivity|exact Hc].
Defined.

(** Connections that answer each command with the pool's key and the command. *)
#[local] Instance queue_nodes : Nodes := {|
  nstate := bytes -> list bytes;
  pipe_do _ _ _ n := (Ok OKValue, n);
  pool_get key n := (None, fun k => if bytes_eqb k key then [] else n k);
  conn_write _ _ n := (None, n);
  conn_buffer key d n := (None, fun k => if bytes_eqb k key then n k ++ [d] else n k);
  conn_flush _ n := (None, n);
  conn_read key n :=
    match n key with
    | d :: q => (Ok (str_value TypeBulkString (key ++ d)), fun k => if bytes_eqb k key then q else n k)
    | [] => (Err EOF, n)
    end;
  conn_put _ _ n := n;
|}.

#[local] Instance queue_ordered : OrderedNodes.
Proof.
  refine (Build_OrderedNodes queue_nodes (fun key d => str_value TypeBulkString (key ++ d))
    (fun key (n : @nstate queue_nodes) => (n : bytes -> list bytes) key) _ _ _ _).
  - intros key n. eexists. split; [reflexivity|]. cbn. by rewrite bytes_eqb_refl.
  - intros key d n. eexists. split; [reflexivity|]. cbn. by rewrite bytes_eqb_refl.
  - intros key n. by eexists.
  - intros key n d q Hq. cbn in *. rewrite Hq. eexists. split; [reflexivity|]. cbn. by rewrite bytes_eqb_refl.
Defined.

Definition two_gets : list Request :=
  [mkRequest [bs "GET"; bs "2"] [] (bs "GET"); mkRequest [bs "NOSUCH"] [] (bs "NOSUCH"); mkRequest [bs "GET"; bs "1"] [] (bs "GET")].
Definition queue_state : rstate := mkR queue_nodes two_slots 0 ReadModeMasterOnly 0 (fun _ => []).
Definition get_items : list batchItem :=
  [mkItem 0 (mkRequest [bs "GET"; bs "2"] [] (bs "GET")) (bs "m:2") (HashSlot (bs "2"));
   mkItem 2 (mkRequest [bs "GET"; bs "1"] [] (bs "GET")) (bs "m:1") (HashSlot (bs "1"))].

Lemma ExecPipeline_in_order_witness :
  exists rs s', ExecPipeline (fun n => rev (seq 0 n)) two_gets queue_state = (Ok rs, s') /\ length rs = 3%nat /\
    rs !! 2%nat = Some (Some (str_value TypeBulkString (bs "m:1" ++ EncodeCommandBytes [bs "GET"; bs "1"]))).
Proof.
  destruct (ExecPipeline_in_order (fun n => rev (seq 0 n)) two_gets queue_state get_items
    [None; Some (unknown_command (bs "NOSUCH")); None] queue_state) as (rs & s' & Hr & Hl & Hi & _).
  - intros n. symmetry. apply Permutation_rev.
  - discriminate.
  - vm_compute. reflexivity.
  - intros it Hit. apply elem_of_cons in Hit as [->|Hit]; [|apply list_elem_of_singleton in Hit as ->];
      (split; vm_compute; reflexivity).
  - exists rs, s'. split; [exact Hr|]. split; [exact Hl|].
    exact (proj2 (Hi (mkItem 2 (mkRequest [bs "GET"; bs "1"] [] (bs "GET")) (bs "m:1") (HashSlot (bs "1")))
      ltac:(apply elem_of_cons; right; apply elem_of_cons; left; reflexivity))).
Defined.
