(* ===== verification/Routing.v ===== *)
(** * Routing: from a client's request to the multiplexer

    Model of [routeToBackend], [submitToRouter] and [routeMultiKeyToMux] of
    [pkg/engine/handler_routing.go] with the merge functions of the fan-in.  [hstate]
    is the event loop of [Mux] with the router's read mode and the work given to the
    goroutine pool ([jobs]: client, slot and what the router is asked to run). *)

From S2P Require Import Prelude GoStd Config Crc16 Value RespParse Command Topology RespQueue Mux Router.

Inductive job := JExecute (req : Request) | JScript (req : Request) | JBroadcast (req : Request).

Record hstate := mkH {
  h_loop : evloop;
  h_mode : ReadMode;
  h_jobs : list (nat * nat * job);
}.

Definition with_loop (w : evloop) (st : hstate) : hstate := mkH w (h_mode st) (h_jobs st).

(** [writeImmediate] for client [c]; a fill it posts joins the loop's tasks. *)
Definition reply_now (c : nat) (d : bytes) (st : hstate) : hstate :=
  let w := h_loop st in
  match clients w !! c with
  | None => st
  | Some q =>
      let '(q, post) := writeImmediate d q in
      let w := upd_clients <[c := q]> w in
      with_loop (match post with
                 | Some (slot, d) => upd_tasks (fun ts => ts ++ [mkTask c slot d]) w
                 | None => w
                 end) st
  end.

(** [allocResponseSlot] for client [c]. *)
Definition alloc (c : nat) (st : hstate) : nat * hstate :=
  let w := h_loop st in
  match clients w !! c with
  | None => (0%nat, st)
  | Some q => let '(i, q) := allocResponseSlot q in (i, with_loop (upd_clients <[c := q]> w) st)
  end.

Definition submitToRouter (c : nat) (j : job) (st : hstate) : hstate :=
  let '(slot, st) := alloc c st in
  mkH (h_loop st) (h_mode st) (h_jobs st ++ [(c, slot, j)]).

(** What a finished job posts: the reply or the error, encoded. *)
Definition job_data (r : outcome Value) : bytes :=
  match r with
  | Ok v => EncodeValue (Some v)
  | Err e => EncodeError (err_msg e)
  | _ => []
  end.

(** ** Merging the parts *)

(** [results[origIdx] = EncodeValue(v.Array[j])] for the [j] the array has. *)
Definition place (idxs : list nat) (vs : list (option Value)) (results : list (option bytes))
    : list (option bytes) :=
  foldl (fun rs p => <[fst p := Some (EncodeValue (snd p))]> rs) results (zip idxs vs).

(** The loop over the groups: either the final answer at once, or the results. *)
Fixpoint mget_parts (groups : list (list nat)) (subs : list subResponse) (results : list (option bytes))
    : outcome (bytes + list (option bytes)) :=
  match groups with
  | [] => Ok (inr results)
  | idxs :: groups' =>
      match subs with
      | [] => Panic
      | sub :: subs' =>
          match ParseValue (sub_data sub) with
          | Err e => Ok (inl (EncodeError (err_msg e)))
          | Ok None => Panic
          | Ok (Some (v, _)) =>
              if IsError (Some v) then Ok (inl (sub_data sub)) else
              mget_parts groups' subs'
                (if Type_ v =b TypeArray then place idxs (Array v) results else results)
          | Panic => Panic
          | NoFuel => NoFuel
          end
      end
  end.

Definition mget_merge (groups : list (list nat)) (totalKeys : nat) (subs : list subResponse) : outcome bytes :=
  r ← mget_parts groups subs (replicate totalKeys None);
  Ok (match r with
      | inl d => d
      | inr results =>
          (appendInt [x2a] (Z.of_nat totalKeys) ++ CRLF) ++ concat (map (default nilBulk) results)
      end).

Fixpoint mset_merge (subs : list subResponse) : outcome bytes :=
  match subs with
  | [] => Ok (EncodeSimpleString (bs "OK"))
  | sub :: subs' =>
      match ParseValue (sub_data sub) with
      | Err e => Ok (EncodeError (err_msg e))
      | Ok (Some (v, _)) => if IsError (Some v) then Ok (sub_data sub) else mset_merge subs'
      | Ok None => mset_merge subs'
      | Panic => Panic
      | NoFuel => NoFuel
      end
  end.

Fixpoint sum_merge (subs : list subResponse) (total : Z) : outcome bytes :=
  match subs with
  | [] => Ok (EncodeInteger total)
  | sub :: subs' =>
      match ParseValue (sub_data sub) with
      | Err e => Ok (EncodeError (err_msg e))
      | Ok (Some (v, _)) =>
          if IsError (Some v) then Ok (sub_data sub)
          else sum_merge subs' (if Type_ v =b TypeInteger then wrap64 (total + Integer v) else total)
      | Ok None => sum_merge subs' total
      | Panic => Panic
      | NoFuel => NoFuel
      end
  end.

(** ** Multi-key commands *)

Definition is_mset (name : bytes) : bool := bytes_eqb name (bs "MSET").

(** [for i := 1; i < len(req.Args); i += 2 { keys = append(keys, req.Args[i]) }] *)
Fixpoint every_second (l : list bytes) : list bytes :=
  match l with
  | k :: _ :: l' => k :: every_second l'
  | [k] => [k]
  | [] => []
  end.

Definition mk_keys (name : bytes) (args : list bytes) : list bytes :=
  if is_mset name then every_second (drop 1 args) else drop 1 args.

(** The first slot, in the order of the keys, that has no owner. *)
Definition unowned (t : Topology) (gs : list (Z * list nat)) : option Z :=
  fst <$> List.find (fun g => match GetNodeForSlot (fst g) t with None => true | Some _ => false end) gs.

(** The arguments of the sub-request of a group; the value of key [i] is the argument
    [2 i + 2], which a request with an odd number of them may not have. *)
Fixpoint mset_sub (keys args : list bytes) (idxs : list nat) : outcome (list bytes) :=
  match idxs with
  | [] => Ok []
  | i :: idxs' =>
      match keys !! i, args !! (1 + i * 2 + 1)%nat with
      | Some k, Some v => rest ← mset_sub keys args idxs'; Ok (k :: v :: rest)
      | _, _ => Panic
      end
  end.

Definition sub_args (name a0 : bytes) (keys args : list bytes) (idxs : list nat) : outcome (list bytes) :=
  if is_mset name then rest ← mset_sub keys args idxs; Ok (a0 :: rest)
  else Ok (a0 :: pick keys idxs).

Section routing.
Context `{GoUnicode}.
Context (dial_error : nat -> bytes -> option bytes).

Definition merge_of (name : bytes) (groups : list (list nat)) (nkeys : nat) (subs : list subResponse)
    : outcome bytes :=
  if bytes_eqb name (bs "MGET") then mget_merge groups nkeys subs
  else if is_mset name then mset_merge subs
  else sum_merge subs 0.

(** The sends of the groups, in order; [gi] numbers them. *)
Fixpoint send_groups (c slot : nat) (req : Request) (name a0 : bytes) (keys : list bytes)
    (gi : nat) (gs : list (Z * list nat)) (w : evloop) : outcome evloop :=
  match gs with
  | [] => Ok w
  | (s, idxs) :: gs' =>
      args ← sub_args name a0 keys (Args req) idxs;
      let p := mkPending c slot 0 (Some (mkRequest args [] (Cmd req))) false false true gi in
      w ← send dial_error (default [] (GetNodeForSlot s (topology w))) p w;
      send_groups c slot req name a0 keys (S gi) gs' w
  end.

Definition routeMultiKeyToMux (c : nat) (req : Request) (name : bytes) (st : hstate) : outcome hstate :=
  match Args req with
  | [] => Panic
  | a0 :: _ =>
      let w := h_loop st in
      let keys := mk_keys name (Args req) in
      if (length keys =? 0)%nat then
        Ok (reply_now c (EncodeError (bs "ERR wrong number of arguments for '" ++ ToLower name ++ bs "' command")) st)
      else
      let gs := group_slots keys in
      match unowned (topology w) gs with
      | Some slot => Ok (reply_now c (EncodeError (bs "ERR no node for slot " ++ FormatInt slot)) st)
      | None =>
          let '(slotIdx, st) := alloc c st in
          match gs with
          | [(s, _)] =>
              w ← send dial_error (default [] (GetNodeForSlot s (topology w)))
                    (mkPending c slotIdx 0 (Some req) false false false 0) (h_loop st);
              Ok (with_loop w st)
          | _ =>
              let fi := mkFanIn (len gs) 0 (replicate (length gs) (mkSub 0 []))
                          (merge_of name (map snd gs) (length keys)) in
              match clients (h_loop st) !! c with
              | None => Ok st
              | Some q =>
                  q ← setFanIn slotIdx fi q;
                  w ← send_groups c slotIdx req name a0 keys 0 gs (upd_clients <[c := q]> (h_loop st));
                  Ok (with_loop w st)
              end
          end
      end
  end.

(** ** Single-key commands *)

Definition mux_multi (name : bytes) : bool :=
  existsb (bytes_eqb name) [bs "MGET"; bs "MSET"; bs "DEL"; bs "UNLINK"; bs "EXISTS"; bs "TOUCH"].

Definition unsupported (name : bytes) : bytes :=
  EncodeError (bs "ERR command '" ++ ToLower name ++ bs "' is not supported in cluster proxy").

Definition set_topology (t : Topology) (w : evloop) : evloop :=
  mkLoop (conns w) (dialing w) (clients w) (tasks w) t (muxConnCounts w) (dials w) (refreshes w).

Definition routeToBackend (c : nat) (req : Request) (st : hstate) : outcome hstate :=
  let '(key, info) := GetFirstKeyAndInfo req in
  match key with
  | None =>
      if IsNotAllowed info then Ok (reply_now c (unsupported (Cmd req)) st)
      else Ok (submitToRouter c (JExecute req) st)
  | Some k =>
      if IsNotAllowed info then Ok (reply_now c (unsupported (Cmd req)) st) else
      if IsAllNodes info then Ok (submitToRouter c (JExecute req) st) else
      if IsMultiKey info then
        if mux_multi (Cmd req) then routeMultiKeyToMux c req (Cmd req) st
        else Ok (submitToRouter c (JExecute req) st)
      else
      let slot := HashSlot k in
      let isRead := IsRead info && negb (IsWrite info) in
      let '(node, t) := pickNode (h_mode st) slot isRead (topology (h_loop st)) in
      let st := with_loop (set_topology t (h_loop st)) st in
      match node with
      | None => Ok (reply_now c (EncodeError (bs "ERR no node for slot " ++ FormatInt slot)) st)
      | Some addr =>
          let '(slotIdx, st) := alloc c st in
          w ← send dial_error addr (mkPending c slotIdx 0 (Some req) false false false 0) (h_loop st);
          Ok (with_loop w st)
      end
  end.

End routing.
