(* ===== verification/RoutingFacts.v ===== *)
(** * RoutingFacts: what routing sends and what a fan-in answers

    The parts of a multi-key request arrive in any order and are merged into one
    reply ([fan_in_run], [mget_fan_in], [parts_fan_in]); the parts carry every key
    once, with its value, to the owner of its slot ([multi_key_split]); and each
    request that is routed is refused at once with an error or owes its client exactly
    one entry of its response queue ([routeToBackend_owes]). *)

From S2P Require Import Prelude GoStd Config Crc16 Value RespParse RespFacts Command Topology RespQueue Mux MuxFacts.
From S2P Require Import Router RouterFacts RouterMulti Routing.

(** ** Fan-in *)

Section fan_in.
Context (q : list responseSlot) (Hq : headReady q = 0%nat).
Context (base : nat) (o : bytes) (n : nat) (ds : nat -> bytes).
Context (f : list subResponse -> outcome bytes) (m : bytes).
Context (Hf : f (map (fun j => mkSub j (ds j)) (seq 0 n)) = Ok m).

(** The state while the parts [r] are still to come. *)
Definition fan_inv (r : list nat) (st : respState) : Prop :=
  match r with
  | [] =>
      respQueue st = match q with [] => [] | _ => q ++ [mkSlot true m None] end /\
      out st ++ concat (iov st) = o ++ match q with [] => m | _ => [] end
  | _ => exists sd,
      st = mkResp (q ++ [mkSlot false [] (Some (mkFanIn (Z.of_nat n) (Z.of_nat n - len r) sd f))]) base o [] /\
      length sd = n /\ (forall j, (j < n)%nat -> j ∉ r -> sd !! j = Some (mkSub j (ds j)))
  end.

Lemma fan_flush r st : fan_inv r st -> fan_inv r (flush_accum st) /\ iov (flush_accum st) = [].
Proof.
  split; [|done]. destruct r; cbn in *.
  - by rewrite app_nil_r.
  - destruct H as (sd & -> & H). exists sd. split; [|done]. unfold flush_accum. cbn. by rewrite app_nil_r.
Qed.

Lemma fan_all sd : length sd = n -> (forall j, (j < n)%nat -> sd !! j = Some (mkSub j (ds j))) ->
  sd = map (fun j => mkSub j (ds j)) (seq 0 n).
Proof.
  intros Hl Hj. apply list_eq. intros j. rewrite list_lookup_fmap. destruct (decide (j < n)%nat).
  - by rewrite Hj, lookup_seq_lt.
  - by rewrite lookup_ge_None_2, lookup_seq_ge by lia.
Qed.

Lemma fan_step j r st :
  fan_inv (j :: r) st -> (j < n)%nat -> j ∉ r ->
  exists st', run_reply st (RSub (base + length q) j (ds j)) = Ok st' /\ fan_inv r st'.
Proof.
  intros (sd & -> & Hl & Hsd) Hj Hr. cbn [run_reply]. unfold accumulateFanInSubResponse.
  cbn [respBase respQueue out iov].
  replace (Z.of_nat (base + length q) - Z.of_nat base) with (len q) by lia.
  unfold rel_out. cbn [respQueue]. rewrite (proj2 (Z.ltb_ge _ _)), length_app by lia. cbn [length orb].
  rewrite (proj2 (Z.leb_gt _ _)), Nat2Z.id by lia.
  rewrite lookup_app_r, Nat.sub_diag by lia. cbn [lookup list_lookup].
  unfold fan_receive. cbn [subData RespQueue.total received mergeFunc].
  rewrite (proj2 (Nat.ltb_lt _ _)) by lia. go_simp. cbn [subData RespQueue.total received mergeFunc].
  destruct r as [|j' r].
  - rewrite (proj2 (Z.ltb_ge _ _)) by (cbn [length]; lia).
    rewrite (fan_all (<[j := mkSub j (ds j)]> sd)), Hf.
    2: by rewrite length_insert.
    2:{ intros i Hi. destruct (decide (i = j)) as [->|Hne]; [apply list_lookup_insert_eq; lia|].
        rewrite list_lookup_insert_ne by done. apply Hsd; [done|].
        rewrite elem_of_cons. intros [|Hin]; [done|by apply not_elem_of_nil in Hin]. }
    go_simp. eexists. split; [done|]. unfold accumulate_ready. cbn [respQueue respBase out iov].
    rewrite (alter_lookup_insert _ _ _ (mkSlot false [] _)) by (by rewrite lookup_app_r, Nat.sub_diag by lia).
    rewrite insert_app_r_alt, Nat.sub_diag by lia. cbn [insert list_insert].
    unfold fan_inv. destruct q as [|sl q']; [by cbn; rewrite !app_nil_r|].
    destruct (ready sl) eqn:E; [by cbn in Hq; rewrite E in Hq|].
    cbn [app headReady length]. rewrite E. cbn. by rewrite app_nil_r.
  - rewrite (proj2 (Z.ltb_lt _ _)) by (cbn [length]; lia). eexists. split; [done|].
    exists (<[j := mkSub j (ds j)]> sd). rewrite length_insert. split; [|split; [done|]].
    + rewrite insert_app_r_alt, Nat.sub_diag by lia. cbn [insert list_insert]. repeat f_equal. cbn [length]. lia.
    + intros i Hi Hin. destruct (decide (i = j)) as [->|Hne]; [apply list_lookup_insert_eq; lia|].
      rewrite list_lookup_insert_ne by done. apply Hsd; [done|]. rewrite elem_of_cons. by intros [|].
Qed.

Lemma fan_replies js r st :
  fan_inv (js ++ r) st -> Forall (fun j => (j < n)%nat) js -> NoDup (js ++ r) ->
  exists st', foldM run_reply st (map (fun j => RSub (base + length q) j (ds j)) js) = Ok st' /\ fan_inv r st'.
Proof.
  intros Hst Hj. revert st Hst. induction Hj as [|j js Hj _ IH]; intros st Hst Hnd; [by exists st|].
  cbn [app] in Hnd. apply NoDup_cons in Hnd as [Hn Hnd].
  destruct (fan_step j (js ++ r) st Hst Hj Hn) as (st1 & Hr & Hst1).
  cbn [map foldM]. rewrite Hr. go_simp. by apply IH.
Qed.

Lemma fan_batches bs r st :
  fan_inv (concat bs ++ r) st -> iov st = [] -> Forall (fun j => (j < n)%nat) (concat bs) ->
  NoDup (concat bs ++ r) ->
  exists st', foldM run_event st (map (fun js => QTraffic (map (fun j => RSub (base + length q) j (ds j)) js)) bs)
    = Ok st' /\ fan_inv r st' /\ iov st' = [].
Proof.
  revert st. induction bs as [|js bs IH]; intros st Hst Hv Hj Hnd; [by exists st|].
  cbn [concat] in *. rewrite <- app_assoc in *. apply Forall_app in Hj as [Hj Hj'].
  destruct (fan_replies js (concat bs ++ r) st Hst Hj Hnd) as (st1 & Hr & Hst1).
  apply fan_flush in Hst1 as [Hst1 Hv1]. cbn [map foldM run_event]. rewrite Hr. go_simp.
  apply NoDup_app in Hnd as (_ & _ & Hnd). by apply IH.
Qed.

End fan_in.

Lemma setFanIn_new q fi :
  setFanIn (respBase q + length (respQueue q)) fi (snd (allocResponseSlot q))
  = Ok (mkResp (respQueue q ++ [mkSlot false [] (Some fi)]) (respBase q) (out q) (iov q)).
Proof.
  unfold setFanIn, rel_out. cbn [respQueue respBase out iov allocResponseSlot snd]. rewrite length_app. cbn [length].
  replace (Z.of_nat (respBase q + length (respQueue q)) - Z.of_nat (respBase q)) with (len (respQueue q)) by lia.
  rewrite (proj2 (Z.ltb_ge _ _)), (proj2 (Z.leb_gt _ _)), Nat2Z.id by lia. cbn [orb].
  rewrite (alter_lookup_insert _ _ _ empty_slot) by (by rewrite lookup_app_r, Nat.sub_diag by lia).
  by rewrite insert_app_r_alt, Nat.sub_diag by lia.
Qed.

(** Once every part has come, in whatever order and batches, the slot of a fan-in that
    was allocated last holds the merged reply; it is written at once when no earlier
    request waits. *)
Lemma fan_in_run st f n ds m bs :
  headReady (respQueue st) = 0%nat -> iov st = [] -> (0 < n)%nat ->
  f (map (fun j => mkSub j (ds j)) (seq 0 n)) = Ok m -> concat bs ≡ₚ seq 0 n ->
  exists st',
    foldM run_event st (QAllocFan (mkFanIn (Z.of_nat n) 0 (replicate n (mkSub 0 [])) f) ::
      map (fun js => QTraffic (map (fun j => RSub (respBase st + length (respQueue st)) j (ds j)) js)) bs)
    = Ok st' /\
    respQueue st' = match respQueue st with [] => [] | _ => respQueue st ++ [mkSlot true m None] end /\
    out st' = out st ++ match respQueue st with [] => m | _ => [] end /\ iov st' = [].
Proof.
  intros Hq Hv Hn Hf Hperm. destruct st as [q b o v]. cbn [respQueue respBase out iov] in *. subst v.
  assert (Hl : length (concat bs) = n) by by rewrite Hperm, length_seq.
  destruct (fan_batches q Hq b o n ds f m Hf bs []
    (mkResp (q ++ [mkSlot false [] (Some (mkFanIn (Z.of_nat n) 0 (replicate n (mkSub 0 [])) f))]) b o []))
    as (st' & Hr & [Hq' Ho] & Hv').
  - rewrite app_nil_r. unfold fan_inv. destruct (concat bs) eqn:E; [cbn in Hl; lia|].
    exists (replicate n (mkSub 0 [])). rewrite length_replicate, Hl, Z.sub_diag. split; [done|]. split; [done|].
    intros j Hj Hin. exfalso. apply Hin. rewrite Hperm. apply elem_of_seq. lia.
  - done.
  - rewrite Hperm. apply Forall_forall. intros j Hj. apply elem_of_seq in Hj. lia.
  - rewrite app_nil_r, Hperm. apply NoDup_seq.
  - exists st'. split; [|split; [done|]].
    + cbn [foldM run_event]. rewrite (surjective_pairing (allocResponseSlot _)). cbn [fst].
      pose proof (setFanIn_new (mkResp q b o [])) as Hs. cbn [respQueue respBase out iov] in Hs.
      cbn [allocResponseSlot fst respQueue respBase]. rewrite Hs. go_simp. exact Hr.
    + by rewrite Hv', app_nil_r in Ho.
Qed.

(** ** Merging *)

Lemma encode_canon e : wf_ptr e = true -> EncodeValue (Some (canon_ptr e)) = EncodeValue e.
Proof.
  destruct e as [v|]; [|done]. unfold EncodeValue. cbn [wf_ptr canon_ptr appendValuePtr].
  induction v as [t s n l k IH] using value_ind'. cbn [wf_value canon Type_ Str Integer IsNil Array].
  intros Hwf. rewrite (appendValue_eq _ t).
  destruct (t =b TypeSimpleString) eqn:E1; [bool_arith; by subst t|].
  destruct (t =b TypeError) eqn:E2; [bool_arith; by subst t|]. cbn [orb] in *.
  destruct (t =b TypeInteger) eqn:E3; [done|].
  destruct (t =b TypeBulkString) eqn:E4; [by destruct k|].
  destruct (t =b TypeArray) eqn:E5; [|done]. destruct k; [done|].
  unfold array_value. rewrite appendValue_eq. cbn [Byte.eqb]. rewrite length_map.
  change (appendElems (appendInt ([] ++ [x2a]) (len l) ++ CRLF)
     (map (fun e => Some (canon_ptr e)) l) = appendElems (appendInt ([] ++ [x2a]) (len l) ++ CRLF) l).
  rewrite !appendElems_concat. f_equal. rewrite map_map. f_equal. apply map_ext_in. intros e He.
  cbn [orb] in Hwf. rewrite forallb_forall in Hwf. specialize (Hwf e He). destruct e as [v|]; [|done].
  apply IH; [|done]. by apply list_elem_of_In.
Qed.

Lemma canon_array l : canon (array_value l) = array_value (map (fun e => Some (canon_ptr e)) l).
Proof. reflexivity. Qed.

Section mget.
Context (keys : list bytes) (val : bytes -> option Value).
Context (Hwf : forallb (fun k => wf_ptr (val k)) keys = true).

(** The reply of the shard that has the keys at [idxs]. *)
Definition mget_part (idxs : list nat) : bytes := EncodeValue (Some (array_value (map val (pick keys idxs)))).

Lemma key_wf k : k ∈ keys -> wf_ptr (val k) = true.
Proof. intros Hk. rewrite forallb_forall in Hwf. apply Hwf. by apply list_elem_of_In. Qed.

Lemma pick_in idxs k : k ∈ pick keys idxs -> k ∈ keys.
Proof. unfold pick. intros (i & _ & Hk)%list_elem_of_omap. by eapply list_elem_of_lookup_2. Qed.

Lemma parse_part idxs : buffer_ok (mget_part idxs) ->
  exists n, ParseValue (mget_part idxs)
    = Ok (Some (array_value (map (fun k => Some (canon_ptr (val k))) (pick keys idxs)), n)).
Proof.
  intros Hb. unfold mget_part in *. rewrite <- (app_nil_r (EncodeValue _)) in *. rewrite parse_encode; [| |done].
  - eexists. cbn [canon_ptr]. rewrite canon_array, map_map. done.
  - cbn. apply forallb_forall. intros e (k & <- & Hk)%in_map_iff.
    apply (key_wf k). by apply (pick_in idxs), list_elem_of_In.
Qed.

Lemma place_insert idxs vs rs :
  place idxs vs rs
  = foldl (fun rs p => <[fst p := snd p]> rs) rs (zip idxs (map (fun v => Some (EncodeValue v)) vs)).
Proof.
  unfold place. revert vs rs. induction idxs as [|i idxs IH]; intros [|v vs] rs; [done..|].
  cbn [zip_with map foldl fst snd]. apply IH.
Qed.

Lemma place_lookup idxs rs j :
  Forall (fun i => is_Some (keys !! i)) idxs -> length rs = length keys ->
  place idxs (map (fun k => Some (canon_ptr (val k))) (pick keys idxs)) rs !! j
  = if decide (j ∈ idxs) then (fun k => Some (EncodeValue (val k))) <$> keys !! j else rs !! j.
Proof.
  intros Hi Hl. rewrite <- insert_all_lookup, place_insert, map_map by done. do 3 f_equal.
  apply map_ext_in. intros k Hk. f_equal. apply encode_canon, key_wf, (pick_in idxs). by apply list_elem_of_In.
Qed.

Lemma place_length idxs vs rs : length (place idxs vs rs) = length rs.
Proof.
  unfold place. revert rs. induction (zip idxs vs) as [|p l IH]; intros rs; [done|].
  cbn [foldl]. by rewrite IH, length_insert.
Qed.

(** After the loop over some groups their positions hold the keys' values. *)
Lemma mget_parts_run (gs : list (Z * list nat)) n0 rs :
  Forall (fun g => Forall (fun i => is_Some (keys !! i)) (snd g) /\ buffer_ok (mget_part (snd g))) gs ->
  length rs = length keys ->
  exists rs', mget_parts (map snd gs) (imap (fun j g => mkSub (n0 + j) (mget_part (snd g))) gs) rs = Ok (inr rs') /\
    length rs' = length keys /\
    (forall j, (rs' !! j = rs !! j \/ rs' !! j = (fun k => Some (EncodeValue (val k))) <$> keys !! j)) /\
    (forall g j, g ∈ gs -> j ∈ snd g -> rs' !! j = (fun k => Some (EncodeValue (val k))) <$> keys !! j).
Proof.
  intros Hgs. revert n0 rs. induction Hgs as [|g gs [Hi Hb] _ IH]; intros n0 rs Hl.
  { exists rs. repeat split; [done|by left|]. intros g j Hg. by apply not_elem_of_nil in Hg. }
  cbn [map imap mget_parts sub_data]. destruct (parse_part (snd g) Hb) as [n ->].
  cbn [IsError Type_ array_value Byte.eqb Array].
  set (rs1 := place _ _ rs). destruct (IH (S n0) rs1) as (rs' & Hr & Hl' & Hold & Hnew).
  { unfold rs1. by rewrite place_length. }
  exists rs'. split; [|split; [done|]].
  { rewrite <- Hr. change (IsError _) with false. cbv iota. f_equal. apply imap_ext. intros j x _. cbn. f_equal. lia. }
  assert (Hrs1 : forall j, rs1 !! j = if decide (j ∈ snd g) then (fun k => Some (EncodeValue (val k))) <$> keys !! j
    else rs !! j) by (intros; by apply place_lookup).
  split.
  - intros j. destruct (Hold j) as [->| ->]; [|by right]. rewrite Hrs1. case_decide; [by right|by left].
  - intros g' j [->|Hg]%elem_of_cons Hj; [|by eapply Hnew].
    destruct (Hold j) as [->| ->]; [|done]. rewrite Hrs1. by rewrite decide_True.
Qed.

Lemma mget_merge_run :
  Forall (fun g => buffer_ok (mget_part (snd g))) (group_slots keys) ->
  mget_merge (map snd (group_slots keys)) (length keys)
    (imap (fun j g => mkSub j (mget_part (snd g))) (group_slots keys))
  = Ok (EncodeValue (Some (array_value (map val keys)))).
Proof.
  intros Hb. destruct (group_slots_spec keys) as [[Hok _] _]. unfold mget_merge.
  destruct (mget_parts_run (group_slots keys) 0 (replicate (length keys) None)) as (rs' & Hr & Hl & _ & Hnew).
  - apply Forall_forall. intros g Hg. split; [|by eapply Forall_forall in Hb].
    eapply Forall_impl; [eapply (Forall_forall _ _) in Hok; [exact Hok|done]|]. intros i (k & Hk & _). eauto.
  - apply length_replicate.
  - cbn [Nat.add] in Hr. rewrite Hr. go_simp. f_equal. unfold EncodeValue, appendValuePtr, array_value.
    rewrite appendValue_eq. cbn [Byte.eqb]. change (x2a =b _) with false.
    assert (rs' = map (fun k => Some (EncodeValue (val k))) keys) as ->.
    { apply list_eq. intros j. rewrite list_lookup_fmap. destruct (decide (j < length keys)%nat) as [Hj|Hj].
      - destruct (group_slots_in keys j Hj) as (g & Hg & Hj'). by eapply Hnew.
      - by rewrite !lookup_ge_None_2 by lia. }
    rewrite appendElems_concat, length_map, !map_map. done.
Qed.

End mget.

(** The reply of the first group, in the order of the keys, that answered with an error. *)
Definition first_error (vs : list Value) : option Value := List.find (fun v => IsError (Some v)) vs.

Definition parts_of (vs : list Value) : list subResponse := imap (fun j v => mkSub j (EncodeValue (Some v))) vs.

Definition int_of (v : Value) : Z := if Type_ v =b TypeInteger then Integer v else 0.

(** The values of the parts can be carried by RESP2 and their encodings fit a buffer. *)
Definition replies_ok (vs : list Value) : Prop :=
  Forall (fun v => wf_value v = true /\ buffer_ok (EncodeValue (Some v))) vs.

Lemma canon_fields v : wf_value v = true ->
  IsError (Some (canon v)) = IsError (Some v) /\ int_of (canon v) = int_of v.
Proof.
  destruct v as [t s n l k]. unfold IsError, int_of. cbn [wf_value canon Type_ Str Integer IsNil Array]. intros Hwf.
  destruct (t =b TypeSimpleString) eqn:E1; [by bool_arith; subst t|].
  destruct (t =b TypeError) eqn:E2; [by bool_arith; subst t|]. cbn [orb] in *.
  destruct (t =b TypeInteger) eqn:E3; [by bool_arith; subst t|].
  destruct (t =b TypeBulkString) eqn:E4; [by bool_arith; subst t; destruct k|].
  by destruct k.
Qed.

Lemma parse_reply v : wf_value v = true -> buffer_ok (EncodeValue (Some v)) ->
  exists n, ParseValue (EncodeValue (Some v)) = Ok (Some (canon v, n)).
Proof.
  intros Hwf Hb. rewrite <- (app_nil_r (EncodeValue (Some v))) in *. rewrite parse_encode by done. by eexists.
Qed.

Lemma imap_parts n vs :
  imap (fun j v => mkSub (n + j) (EncodeValue (Some v))) vs
  = match vs with
    | [] => []
    | v :: vs' => mkSub n (EncodeValue (Some v)) :: imap (fun j v => mkSub (S n + j) (EncodeValue (Some v))) vs'
    end.
Proof.
  destruct vs as [|v vs]; [done|]. cbn [imap]. rewrite Nat.add_0_r. f_equal. apply imap_ext.
  intros j x _. cbn. f_equal. lia.
Qed.

Lemma sum_merge_run vs n a : replies_ok vs ->
  sum_merge (imap (fun j v => mkSub (n + j) (EncodeValue (Some v))) vs) (wrap64 a)
  = Ok (match first_error vs with
        | Some e => EncodeValue (Some e)
        | None => EncodeInteger (wrap64 (a + foldr Z.add 0 (map int_of vs)))
        end).
Proof.
  intros Hvs. revert n a. induction Hvs as [|v vs [Hwf Hb] _ IH]; intros n a; rewrite imap_parts.
  { cbn. by rewrite Z.add_0_r. }
  cbn [sum_merge sub_data first_error List.find]. destruct (parse_reply v Hwf Hb) as [k ->].
  destruct (canon_fields v Hwf) as [-> Hi]. destruct (IsError (Some v)); [done|].
  assert ((if Type_ (canon v) =b TypeInteger then wrap64 (wrap64 a + Integer (canon v)) else wrap64 a)
    = wrap64 (a + int_of v)) as ->.
  { rewrite <- Hi. unfold int_of. destruct (Type_ (canon v) =b TypeInteger); [by rewrite wrap64_add_l|f_equal; lia]. }
  rewrite IH. unfold first_error. destruct (List.find _ vs); [done|]. do 3 f_equal. cbn. lia.
Qed.

Lemma mset_merge_run vs n : replies_ok vs ->
  mset_merge (imap (fun j v => mkSub (n + j) (EncodeValue (Some v))) vs)
  = Ok (match first_error vs with
        | Some e => EncodeValue (Some e)
        | None => EncodeSimpleString (bs "OK")
        end).
Proof.
  intros Hvs. revert n. induction Hvs as [|v vs [Hwf Hb] _ IH]; intros n; rewrite imap_parts; [done|].
  cbn [mset_merge sub_data first_error List.find]. destruct (parse_reply v Hwf Hb) as [k ->].
  destruct (canon_fields v Hwf) as [-> _]. destruct (IsError (Some v)); [done|]. apply IH.
Qed.

(** ** Splitting a request *)

Lemma parts_of_seq vs : map (fun j => mkSub j (EncodeValue (vs !! j))) (seq 0 (length vs)) = parts_of vs.
Proof.
  apply list_eq. intros j. unfold parts_of. rewrite list_lookup_fmap, list_lookup_imap. destruct (vs !! j) as [v|] eqn:E.
  - rewrite lookup_seq_lt by (by apply lookup_lt_Some in E). cbn. by rewrite E.
  - by rewrite lookup_seq_ge by (by apply lookup_ge_None in E).
Qed.

(** What the client of MSET, DEL, UNLINK, EXISTS or TOUCH gets. *)
Definition merged_parts (name : bytes) (vs : list Value) : bytes :=
  match first_error vs with
  | Some e => EncodeValue (Some e)
  | None => if is_mset name then EncodeSimpleString (bs "OK")
            else EncodeInteger (wrap64 (foldr Z.add 0 (map int_of vs)))
  end.

Lemma parts_merge `{GoUnicode} name groups nkeys vs :
  bytes_eqb name (bs "MGET") = false -> replies_ok vs ->
  merge_of name groups nkeys (parts_of vs) = Ok (merged_parts name vs).
Proof.
  intros Hname Hvs. unfold merge_of, merged_parts, parts_of. rewrite Hname. destruct (is_mset name).
  - pose proof (mset_merge_run vs 0 Hvs) as Hs. cbn [Nat.add] in Hs. rewrite Hs. by destruct (first_error vs).
  - pose proof (sum_merge_run vs 0 0 Hvs) as Hs. cbn [Nat.add] in Hs. change (wrap64 0) with 0 in Hs.
    rewrite Hs. by destruct (first_error vs).
Qed.

(** The keys of a request with their values (MSET) or alone. *)
Definition items (name : bytes) (l : list bytes) : list (bytes * bytes) :=
  if is_mset name then pairs_of l else map (fun k => (k, [])) l.

Definition unitems (name : bytes) (its : list (bytes * bytes)) : list bytes :=
  if is_mset name then concat (map (fun kv => [fst kv; snd kv]) its) else map fst its.

(** MSET has a value for each of its keys. *)
Definition args_paired (name : bytes) (l : list bytes) : Prop := is_mset name = true -> Nat.even (length l) = true.

Lemma pairs_ind (P : list bytes -> Prop) :
  P [] -> (forall k v l, P l -> P (k :: v :: l)) -> forall l, Nat.even (length l) = true -> P l.
Proof.
  intros H0 H2. fix IH 1. intros [|k [|v l]] Hl; [done|done|]. apply H2, IH. exact Hl.
Qed.

Lemma items_keys name a0 l : args_paired name l -> mk_keys name (a0 :: l) = map fst (items name l).
Proof.
  unfold args_paired, mk_keys, items. change (drop 1 (a0 :: l)) with l. destruct (is_mset name); intros Hp.
  - specialize (Hp eq_refl). revert l Hp. apply pairs_ind; [done|]. intros k v l IH. cbn. by rewrite IH.
  - rewrite map_map. cbn. by rewrite map_id.
Qed.

Lemma pairs_lookup l : Nat.even (length l) = true ->
  forall i kv, pairs_of l !! i = Some kv -> l !! (i * 2)%nat = Some (fst kv) /\ l !! S (i * 2) = Some (snd kv).
Proof.
  revert l. apply (pairs_ind (fun l => forall i kv, pairs_of l !! i = Some kv ->
    l !! (i * 2)%nat = Some (fst kv) /\ l !! S (i * 2) = Some (snd kv))); [done|].
  intros k v l IH [|i] kv; cbn; [by intros [= <-]|]. apply IH.
Qed.

(** The items at given positions. *)
Definition pick_items (its : list (bytes * bytes)) (idxs : list nat) : list (bytes * bytes) :=
  omap (fun i => its !! i) idxs.

Lemma pick_fst its idxs : pick (map fst its) idxs = map fst (pick_items its idxs).
Proof.
  unfold pick, pick_items. induction idxs as [|i idxs IH]; [done|]. cbn [omap list_omap].
  rewrite list_lookup_fmap. destruct (its !! i); cbn; by rewrite IH.
Qed.

Lemma sub_args_run name a0 l idxs :
  args_paired name l -> Forall (fun i => is_Some (items name l !! i)) idxs ->
  sub_args name a0 (map fst (items name l)) (a0 :: l) idxs
  = Ok (a0 :: unitems name (pick_items (items name l) idxs)).
Proof.
  unfold args_paired, sub_args, unitems, items. destruct (is_mset name); intros Hp Hi.
  2:{ by rewrite pick_fst. }
  specialize (Hp eq_refl). pose proof (pairs_lookup l Hp) as Hl.
  assert (mset_sub (map fst (pairs_of l)) (a0 :: l) idxs
    = Ok (concat (map (fun kv => [fst kv; snd kv]) (pick_items (pairs_of l) idxs)))) as ->; [|done].
  unfold pick_items. induction Hi as [|i idxs [kv Hkv] _ IH]; [done|]. cbn [mset_sub omap list_omap].
  rewrite list_lookup_fmap, Hkv. cbn [fmap option_fmap option_map].
  destruct (Hl i kv Hkv) as [_ Hv].
  replace ((a0 :: l) !! (1 + i * 2 + 1)%nat) with (Some (snd kv))
    by (rewrite <- Hv; by replace (1 + i * 2 + 1)%nat with (S (S (i * 2))) by lia).
  rewrite IH. by go_simp.
Qed.

(** A sub-request has exactly the items it was given. *)
Lemma items_unitems name l idxs :
  items name (unitems name (pick_items (items name l) idxs)) = pick_items (items name l) idxs.
Proof.
  unfold unitems, items. destruct (is_mset name).
  - induction (pick_items _ _) as [|[k v] its IH]; [done|]. cbn. by rewrite IH.
  - rewrite map_map. unfold pick_items. induction idxs as [|i idxs IH]; [done|]. cbn [omap list_omap].
    rewrite list_lookup_fmap. destruct (l !! i); cbn; by rewrite IH.
Qed.

(** The groups together have every item once. *)
Lemma groups_items its :
  concat (map (fun g => pick_items its (snd g)) (group_slots (map fst its))) ≡ₚ its.
Proof.
  destruct (group_slots_spec (map fst its)) as [_ Hp]. rewrite length_map in Hp.
  transitivity (pick_items its (grouped (group_slots (map fst its)))).
  - clear Hp. unfold grouped, pick_items. induction (group_slots _) as [|g gs IH]; [done|].
    cbn. by rewrite omap_app, IH.
  - unfold pick_items. rewrite Hp. by rewrite omap_seq.
Qed.

(** ** Sending the parts *)

Section sends.
Context (dial_error : nat -> bytes -> option bytes).

Definition send_all (rs : list (bytes * pendingClientReq)) (w : evloop) : outcome evloop :=
  foldM (fun w r => send dial_error (fst r) (snd r) w) w rs.

Lemma send_same addr p w w' : send dial_error addr p w = Ok w' ->
  clients w' = clients w /\ topology w' = topology w.
Proof.
  unfold send. destruct (conns w !! addr).
  - destruct (rawBytes (req p)); try done. go_simp. by intros [= <-].
  - intros [= <-]. destruct (_ =? _)%nat; [|done]. unfold dialBackend. by destruct (dial_error _ _).
Qed.

Lemma send_runs addr p w : is_request p -> exists w', send dial_error addr p w = Ok w'.
Proof.
  intros Hp. unfold send. rewrite (is_request_raw p Hp). destruct (conns w !! addr); go_simp; eauto.
Qed.

(** Sending requests of a client that is there succeeds; each is owed an answer. *)
Lemma send_all_owes rs w :
  mux_ok w -> Forall (fun r => is_request (snd r) /\ is_Some (clients w !! clientConn (snd r))) rs ->
  exists w', send_all rs w = Ok w' /\ mux_ok w' /\ clients w' = clients w /\
    total w' ≡ₚ map (fun r => tok (snd r)) rs ++ total w.
Proof.
  intros Hok Hrs. unfold send_all. revert w Hok Hrs.
  induction rs as [|r rs IH]; intros w Hok Hrs; [by exists w|].
  apply Forall_cons in Hrs as [[Hr [q Hc]] Hrs]. cbn [foldM].
  destruct (send_runs (fst r) (snd r) w Hr) as [w1 Hs]. rewrite Hs. go_simp.
  pose proof (send_total _ _ _ _ _ (mux_heads _ Hok) Hs) as Ht. destruct (send_same _ _ _ _ Hs) as [Hcl _].
  destruct (IH w1) as (w' & Hf & Hok' & Hcl' & Ht').
  - by eapply send_ok.
  - by rewrite Hcl.
  - exists w'. split; [done|]. split; [done|]. split; [by rewrite Hcl'|].
    rewrite Ht', Ht. unfold toks. cbn. destruct Hr as (-> & _). rewrite Hc. cbn.
    by rewrite Permutation_middle.
Qed.

End sends.

(** The parts of a request over the groups [gs], as [send_groups] sends them. *)
Definition part_send (t : Topology) (c slot : nat) (req : Request) (name a0 : bytes) (its : list (bytes * bytes))
    (gi : nat) (g : Z * list nat) : bytes * pendingClientReq :=
  (default [] (GetNodeForSlot (fst g) t),
   mkPending c slot 0 (Some (mkRequest (a0 :: unitems name (pick_items its (snd g))) [] (Cmd req)))
     false false true gi).

Lemma send_groups_all dial_error c slot req name a0 l gi gs w :
  args_paired name l -> Args req = a0 :: l ->
  Forall (fun g => Forall (fun i => is_Some (items name l !! i)) (snd g)) gs ->
  send_groups dial_error c slot req name a0 (map fst (items name l)) gi gs w
  = send_all dial_error (imap (fun j g => part_send (topology w) c slot req name a0 (items name l) (gi + j) g) gs) w.
Proof.
  intros Hp Ha Hgs. unfold send_all. revert gi w. induction Hgs as [|[s idxs] gs Hi _ IH]; intros gi w; [done|].
  cbn [send_groups imap foldM fst snd]. rewrite Ha, sub_args_run by done. go_simp.
  rewrite Nat.add_0_r. unfold part_send at 1. cbn [part_send fst snd].
  destruct (send dial_error _ _ w) as [w1| | |] eqn:Hs; go_simp; try done.
  rewrite IH. destruct (send_same _ _ _ _ _ Hs) as [_ ->]. f_equal. apply imap_ext.
  intros j g _. cbn. unfold part_send. by replace (gi + S j)%nat with (S (gi + j)) by lia.
Qed.

Lemma unowned_none t gs g : unowned t gs = None -> g ∈ gs -> is_Some (GetNodeForSlot (fst g) t).
Proof.
  unfold unowned. intros H Hg. destruct (List.find _ gs) eqn:E; [done|].
  apply list_elem_of_In in Hg. pose proof (find_none _ _ E g Hg) as Hf. cbn in Hf.
  destruct (GetNodeForSlot (fst g) t); [eauto|done].
Qed.

(** The items of a group are all in its slot. *)
Lemma group_items_slot (its : list (bytes * bytes)) g :
  g ∈ group_slots (map fst its) -> Forall (fun kv => HashSlot (fst kv) = fst g) (pick_items its (snd g)).
Proof.
  intros Hg. destruct (group_slots_spec (map fst its)) as [[Hok _] _].
  eapply Forall_forall in Hok; [|exact Hg]. unfold pick_items.
  induction Hok as [|i idxs (k & Hk & Hs) _ IH]; [constructor|]. cbn [omap list_omap].
  rewrite list_lookup_fmap in Hk. destruct (its !! i) as [kv|]; [|done].
  injection Hk as <-. by constructor.
Qed.

Lemma group_items_in (its : list (bytes * bytes)) g i :
  g ∈ group_slots (map fst its) -> i ∈ snd g -> is_Some (its !! i).
Proof.
  intros Hg Hi. destruct (group_slots_spec (map fst its)) as [[Hok _] _].
  eapply Forall_forall in Hok; [|exact Hg]. eapply Forall_forall in Hok as (k & Hk & _); [|exact Hi].
  rewrite list_lookup_fmap in Hk. destruct (its !! i); [eauto|done].
Qed.

(** ** What a routed request owes *)

(** The slots that are owed an answer, with those the goroutine pool works for. *)
Definition owed (st : hstate) : list (nat * nat) := total (h_loop st) ++ map fst (h_jobs st).

(** Client [c], whose queue [q] was empty, was sent an error at once, or it got one more
    entry: a slot that as many answers are owed to as it has parts. *)
Definition one_entry (c : nat) (q : respState) (st st' : hstate) : Prop :=
  exists q', clients (h_loop st') = <[c := q']> (clients (h_loop st)) /\
  ((exists msg, respQueue q = [] /\ q' = mkResp [] (respBase q) (out q ++ EncodeError msg) (iov q) /\
      owed st' ≡ₚ owed st) \/
   (exists fi n, q' = mkResp (respQueue q ++ [mkSlot false [] fi]) (respBase q) (out q) (iov q) /\
      owed st' ≡ₚ replicate n (c, respBase q + length (respQueue q))%nat ++ owed st /\
      match fi with
      | None => n = 1%nat
      | Some fi => RespQueue.total fi = Z.of_nat n /\ received fi = 0 /\ (2 <= n)%nat /\
                   length (subData fi) = n
      end)).

Lemma total_task t w : total (upd_tasks (fun ts => ts ++ [t]) w) ≡ₚ (t_conn t, t_slot t) :: total w.
Proof. unfold total. cbn. rewrite map_app, !app_assoc. cbn. by rewrite <- Permutation_cons_append. Qed.

Lemma map_const {A B} (f : A -> B) l b : Forall (fun x => f x = b) l -> map f l = replicate (length l) b.
Proof. induction 1 as [|x l Hx _ IH]; [done|]. cbn. by rewrite Hx, IH. Qed.

Lemma new_request c slot req fan gi : is_request (mkPending c slot 0 (Some req) false false fan gi).
Proof. split; [done|]. split; [done|]. split; [by eexists|]. vm_compute. by split. Qed.

Lemma upd_clients_twice c q1 q2 w :
  upd_clients <[c := q2]> (upd_clients <[c := q1]> w) = upd_clients <[c := q2]> w.
Proof. unfold upd_clients. cbn. by rewrite insert_insert_eq. Qed.

Section owes.
Context `{GoUnicode} (dial_error : nat -> bytes -> option bytes).
Context (c : nat) (q : respState) (st : hstate).
Context (Hok : mux_ok (h_loop st)) (Hc : clients (h_loop st) !! c = Some q).

Lemma reply_now_entry msg :
  one_entry c q st (reply_now c (EncodeError msg) st) /\ mux_ok (h_loop (reply_now c (EncodeError msg) st)).
Proof.
  unfold reply_now. rewrite Hc. unfold writeImmediate. destruct (length (respQueue q) =? 0)%nat eqn:E.
  - apply Nat.eqb_eq, length_zero_iff_nil in E. split; [|done]. eexists. split; [done|]. left. exists msg.
    split; [done|]. rewrite E. split; [done|]. unfold owed. cbn. by erewrite total_client.
  - cbn [allocResponseSlot]. split; [|done]. eexists. split; [done|]. right. exists None, 1%nat.
    split; [done|]. split; [|done]. unfold owed. cbn [h_loop h_jobs with_loop].
    rewrite total_task. by erewrite total_client.
Qed.

Lemma alloc_run : alloc c st = ((respBase q + length (respQueue q))%nat,
  with_loop (upd_clients <[c := snd (allocResponseSlot q)]> (h_loop st)) st).
Proof. unfold alloc. by rewrite Hc. Qed.

Lemma submit_entry j : one_entry c q st (submitToRouter c j st) /\ mux_ok (h_loop (submitToRouter c j st)).
Proof.
  unfold submitToRouter. rewrite alloc_run. cbn [h_loop h_mode h_jobs with_loop]. split; [|done].
  eexists. split; [done|]. right. exists None, 1%nat. split; [done|]. split; [|done].
  unfold owed. cbn [h_loop h_jobs]. erewrite total_client by done. rewrite map_app, app_assoc. cbn.
  by rewrite <- Permutation_cons_append.
Qed.

(** After the slot was allocated and its fan-in set, the parts are sent. *)
Lemma sends_entry fi rs :
  let q' := mkResp (respQueue q ++ [mkSlot false [] fi]) (respBase q) (out q) (iov q) in
  Forall (fun r => is_request (snd r) /\ tok (snd r) = (c, respBase q + length (respQueue q))%nat) rs ->
  match fi with
  | None => length rs = 1%nat
  | Some fi => RespQueue.total fi = len rs /\ received fi = 0 /\ (2 <= length rs)%nat /\
               length (subData fi) = length rs
  end ->
  exists w', send_all dial_error rs (upd_clients <[c := q']> (h_loop st)) = Ok w' /\
    one_entry c q st (with_loop w' st) /\ mux_ok w'.
Proof.
  intros q' Hrs Hfi. destruct (send_all_owes dial_error rs (upd_clients <[c := q']> (h_loop st)))
    as (w' & Hs & Hok' & Hcl & Ht).
  - exact Hok.
  - eapply Forall_impl; [exact Hrs|]. intros r [Hr Htok]. split; [done|]. injection Htok as -> _.
    cbn. rewrite lookup_insert_eq. eauto.
  - exists w'. split; [done|]. split; [|done]. exists q'. split; [done|]. right. exists fi, (length rs).
    split; [done|]. split; [|done]. unfold owed. cbn [h_loop h_jobs with_loop]. rewrite Ht.
    erewrite total_client by done.
    erewrite map_const by (eapply Forall_impl; [exact Hrs|]; by intros r [_ ?]).
    by rewrite <- app_assoc.
Qed.

(** The single sends. *)
Lemma send_entry addr req :
  exists w', send dial_error addr (mkPending c (respBase q + length (respQueue q)) 0 (Some req) false false false 0)
      (upd_clients <[c := snd (allocResponseSlot q)]> (h_loop st)) = Ok w' /\
    one_entry c q st (with_loop w' st) /\ mux_ok w'.
Proof.
  destruct (sends_entry None [(addr, mkPending c (respBase q + length (respQueue q)) 0 (Some req)
    false false false 0)]) as (w' & Hs & H'); [|done|].
  - apply Forall_singleton. split; [|done]. by apply new_request.
  - exists w'. split; [|done]. revert Hs. unfold send_all. cbn [foldM fst snd].
    change (snd (allocResponseSlot q))
      with (mkResp (respQueue q ++ [mkSlot false [] None]) (respBase q) (out q) (iov q)).
    destruct (send _ _ _ _); go_simp; done.
Qed.

(** What [routeMultiKeyToMux] does with keys of several slots that all have owners. *)
Lemma multi_run req name a0 l gs :
  Args req = a0 :: l -> args_paired name l -> gs = group_slots (map fst (items name l)) ->
  unowned (topology (h_loop st)) gs = None -> (2 <= length gs)%nat ->
  routeMultiKeyToMux dial_error c req name st
  = w ← send_all dial_error
          (imap (part_send (topology (h_loop st)) c (respBase q + length (respQueue q)) req name a0 (items name l)) gs)
          (upd_clients <[c := mkResp (respQueue q ++ [mkSlot false []
             (Some (mkFanIn (len gs) 0 (replicate (length gs) (mkSub 0 []))
                      (merge_of name (map snd gs) (length (items name l)))))])
             (respBase q) (out q) (iov q)]> (h_loop st));
    Ok (with_loop w st).
Proof.
  intros Ha Hp Hgs Hu Hn. unfold routeMultiKeyToMux. rewrite Ha. rewrite items_keys by done.
  destruct (length (map fst (items name l)) =? 0)%nat eqn:E.
  { apply Nat.eqb_eq, length_zero_iff_nil in E. rewrite E in Hgs. subst gs. cbn in Hn. lia. }
  rewrite <- Hgs, Hu, alloc_run. cbv beta iota zeta.
  rewrite length_map. destruct gs as [|[s1 i1] [|g2 gs]]; [cbn in Hn; lia..|].
  cbn [h_loop with_loop clients upd_clients]. rewrite lookup_insert_eq, setFanIn_new. go_simp.
  rewrite send_groups_all; [|done|done|].
  2:{ apply Forall_forall. intros g Hg. apply Forall_forall. intros i Hi.
      eapply group_items_in; [|exact Hi]. by rewrite <- Hgs. }
  by rewrite upd_clients_twice.
Qed.

(** MSET whose last key has no value. *)
Definition value_missing (name : bytes) (args : list bytes) : Prop :=
  is_mset name = true /\ Nat.even (length args) = true /\ (2 <= length (group_slots (mk_keys name args)))%nat.

(** A routed request: one entry, or a panic over a missing value. *)
Definition routed (name : bytes) (args : list bytes) (o : outcome hstate) : Prop :=
  match o with
  | Ok st' => one_entry c q st st' /\ mux_ok (h_loop st')
  | Panic => value_missing name args
  | _ => False
  end.

Lemma every_second_missing l : Nat.odd (length l) = true ->
  exists i, (i < length (every_second l))%nat /\ l !! S (i * 2) = None.
Proof.
  revert l. fix IH 1. intros [|k [|v l]] Hl; [done|exists 0%nat; by split; [cbn; lia|]|].
  destruct (IH l Hl) as (i & Hi & Hn). exists (S i). split; [cbn; lia|exact Hn].
Qed.

Lemma mset_sub_outcome keys args idxs :
  mset_sub keys args idxs = Panic \/
  (exists l, mset_sub keys args idxs = Ok l) /\ Forall (fun i => is_Some (args !! (1 + i * 2 + 1)%nat)) idxs.
Proof.
  induction idxs as [|i idxs IH]; [right; split; [by eexists|constructor]|]. cbn [mset_sub].
  destruct (keys !! i); [|by left]. destruct (args !! (1 + i * 2 + 1)%nat) eqn:E; [|by left].
  destruct IH as [->|[[ls ->] Hf]]; go_simp; [by left|]. right. split; [by eexists|].
  constructor; [by rewrite E|exact Hf].
Qed.

Lemma send_groups_missing rq name a0 keys slot gi gs w :
  is_mset name = true -> (exists g i, g ∈ gs /\ i ∈ snd g /\ Args rq !! (1 + i * 2 + 1)%nat = None) ->
  send_groups dial_error c slot rq name a0 keys gi gs w = Panic.
Proof.
  intros Hm. revert gi w. induction gs as [|[s0 idxs] gs IH]; intros gi w (g & i & Hg & Hi & Hn);
    [by apply not_elem_of_nil in Hg|].
  cbn [send_groups]. unfold sub_args. rewrite Hm.
  destruct (mset_sub_outcome keys (Args rq) idxs) as [->|[[args ->] Hf]]; go_simp; [done|].
  apply elem_of_cons in Hg as [->|Hg].
  { cbn in Hi. rewrite Forall_forall in Hf. destruct (Hf i Hi) as [v Hv]. rewrite Hn in Hv. done. }
  match goal with |- context [send dial_error ?a ?p w] => destruct (send_runs dial_error a p w) as [w1 Hs] end;
    [apply new_request|].
  rewrite Hs. go_simp. apply IH. by exists g, i.
Qed.

Lemma multi_entry rq name a0 l :
  Args rq = a0 :: l -> routed name (Args rq) (routeMultiKeyToMux dial_error c rq name st).
Proof.
  intros Ha. set (gs := group_slots (mk_keys name (Args rq))).
  destruct (decide (unowned (topology (h_loop st)) gs = None /\ (2 <= length gs)%nat)) as [[Hu Hn]|Hfew].
  - destruct (is_mset name && Nat.odd (length l)) eqn:Eb.
    + apply andb_prop in Eb as [Hm Ho]. unfold routeMultiKeyToMux. rewrite Ha. unfold gs in *. rewrite Ha in *.
      destruct (length (mk_keys name (a0 :: l)) =? 0)%nat eqn:E.
      { apply Nat.eqb_eq, length_zero_iff_nil in E. rewrite E in Hn. cbn in Hn. lia. }
      rewrite Hu, alloc_run. cbv beta iota zeta.
      assert (Hpanic : forall w fi, (q' ← setFanIn (respBase q + length (respQueue q)) fi (snd (allocResponseSlot q));
        w' ← send_groups dial_error c (respBase q + length (respQueue q)) rq name a0 (mk_keys name (a0 :: l)) 0
               (group_slots (mk_keys name (a0 :: l))) (w q'); Ok (with_loop w' st)) = Panic).
      { intros w fi. cbn [allocResponseSlot snd]. rewrite setFanIn_new. go_simp. rewrite send_groups_missing; [done|exact Hm|].
        destruct (every_second_missing l Ho) as (i & Hi & Hnone).
        assert (Hk : i ∈ grouped (group_slots (mk_keys name (a0 :: l)))).
        { rewrite (proj2 (group_slots_spec _)). apply elem_of_seq. unfold mk_keys. rewrite Hm.
          change (drop 1 (a0 :: l)) with l. lia. }
        unfold grouped in Hk. apply list_elem_of_In, in_concat in Hk as (idxs & Hidx & Hin).
        apply in_map_iff in Hidx as (g & <- & Hg). exists g, i. rewrite Ha. split; [by apply list_elem_of_In|].
        split; [by apply list_elem_of_In|]. by replace (1 + i * 2 + 1)%nat with (S (S (i * 2))) by lia. }
      destruct (group_slots (mk_keys name (a0 :: l))) as [|[s1 i1] [|g2 gs']] eqn:Egs; [cbn in Hn; lia..|].
      cbn [h_loop with_loop clients upd_clients]. rewrite lookup_insert_eq.
      rewrite (Hpanic (fun q' => upd_clients <[c := q']> (upd_clients <[c := snd (allocResponseSlot q)]> (h_loop st)))).
      split; [exact Hm|]. split; [by cbn [length]; rewrite Nat.even_succ|]. by rewrite Egs.
    + assert (Hp : args_paired name l).
      { intros Hm. rewrite Hm in Eb. cbn in Eb. rewrite <- Nat.negb_odd, Eb. done. }
      unfold gs in *. rewrite Ha, items_keys in * by done. rewrite (multi_run rq name a0 l _ Ha Hp eq_refl Hu Hn).
      match goal with |- context [send_all dial_error ?rs (upd_clients <[c := mkResp (_ ++ [mkSlot _ _ ?fi]) _ _ _]> _)] =>
        destruct (sends_entry fi rs) as (w' & Hs & Hw & Hok') end; [| |by rewrite Hs].
      * apply Forall_lookup_2. intros i r. rewrite list_lookup_imap. destruct (_ !! i); [|done].
        intros [= <-]. split; [by apply new_request|done].
      * cbn. rewrite length_imap, length_replicate. done.
  - unfold routeMultiKeyToMux. rewrite Ha. unfold gs in *. rewrite Ha in *.
    destruct (length (mk_keys name (a0 :: l)) =? 0)%nat eqn:E; [apply reply_now_entry|].
    destruct (unowned (topology (h_loop st)) (group_slots (mk_keys name (a0 :: l)))) as [u|] eqn:Hu; [apply reply_now_entry|].
    rewrite alloc_run. cbv beta iota zeta.
    destruct (group_slots (mk_keys name (a0 :: l))) as [|[s0 idxs] [|g2 gs']] eqn:Egs.
    { apply group_slots_nil in Egs. by rewrite Egs in E. }
    2:{ destruct Hfew. split; [done|cbn; lia]. }
    cbn [h_loop with_loop]. destruct (send_entry (default [] (GetNodeForSlot s0 (topology (h_loop st)))) rq)
      as (w' & Hs & H'). rewrite Hs. go_simp. exact H'.
Qed.

End owes.

Lemma route_entry `{GoUnicode} dial_error c q st req :
  mux_ok (h_loop st) -> clients (h_loop st) !! c = Some q ->
  match routeToBackend dial_error c req st with
  | Ok st' => one_entry c q st st' /\ mux_ok (h_loop st')
  | Panic => value_missing (Cmd req) (Args req)
  | _ => False
  end.
Proof.
  intros Hok Hc. unfold routeToBackend. destruct (GetFirstKeyAndInfo req) as [[k|] info] eqn:Ek.
  2:{ destruct (IsNotAllowed info); [by apply reply_now_entry|by apply submit_entry]. }
  destruct (IsNotAllowed info); [by apply reply_now_entry|].
  destruct (IsAllNodes info); [by apply submit_entry|].
  destruct (IsMultiKey info).
  { destruct (mux_multi (Cmd req)) eqn:Em; [|by apply submit_entry].
    assert (exists a0 l, Args req = a0 :: l) as (a0 & l & Ha).
    { unfold GetFirstKeyAndInfo in Ek. destruct (Args req) as [|a0 l]; [discriminate Ek|eauto]. }
    by apply (multi_entry dial_error c q st Hok Hc req (Cmd req) a0 l). }
  destruct (pickNode _ _ _ _) as [[addr|] t] eqn:Et.
  - set (st1 := with_loop (set_topology t (h_loop st)) st).
    rewrite (alloc_run c q st1) by done. cbv beta iota zeta.
    destruct (send_entry dial_error c q st1 Hok Hc addr req) as (w' & Hs & Hw). cbn [h_loop with_loop].
    rewrite Hs. go_simp. exact Hw.
  - by apply (reply_now_entry c q (with_loop (set_topology t (h_loop st)) st)).
Qed.

(** ** Properties *)


Definition idle_loop : hstate := mkH (newBackendMux {[1%nat := resp_init]} two_slots) ReadModeMasterOnly [].
#[local] Instance ascii_text : GoUnicode := ascii_unicode.
Definition mk_req (args : list string) : Request :=
  mkRequest (map bs args) [] (default [] (map bs args !! 0%nat)).

(** MGET over two slots is owed two answers. *)
Definition mget_routed : hstate :=
  match routeToBackend no_dial_error 1 (mk_req ["MGET"; "1"; "2"]%string) idle_loop with Ok st => st | _ => idle_loop end.


(** C9: a request over several slots is split without loss: the parts together carry
    every key of the request once (MSET: every key with its own value), the keys of a
    part are all in one slot, and the part goes to the node that owns the slot; the
    slot of the request waits for as many parts as are sent. *)
Theorem multi_key_split `{GoUnicode} dial_error c q st rq name a0 l :
  clients (h_loop st) !! c = Some q -> Args rq = a0 :: l -> args_paired name l ->
  unowned (topology (h_loop st)) (group_slots (map fst (items name l))) = None ->
  (2 <= length (group_slots (map fst (items name l))))%nat ->
  exists (rs : list (bytes * pendingClientReq)) (its : list (list (bytes * bytes))) q',
    routeMultiKeyToMux dial_error c rq name st
    = (w ← send_all dial_error rs (upd_clients <[c := q']> (h_loop st)); Ok (with_loop w st)) /\
    (fun sl => (ready sl, RespQueue.total <$> fanIn sl)) <$> last (respQueue q') = Some (false, Some (len rs)) /\
    Forall2 (fun r its => exists slot,
        req (snd r) = Some (mkRequest (a0 :: unitems name its) [] (Cmd rq)) /\
        items name (unitems name its) = its /\
        Forall (fun kv => HashSlot (fst kv) = slot) its /\
        GetNodeForSlot slot (topology (h_loop st)) = Some (fst r)) rs its /\
    concat its ≡ₚ items name l.
Proof.
  intros Hc Ha Hp Hu Hn. set (gs := group_slots (map fst (items name l))) in *.
  exists (imap (part_send (topology (h_loop st)) c (respBase q + length (respQueue q)) rq name a0 (items name l)) gs),
    (map (fun g => pick_items (items name l) (snd g)) gs).
  eexists. split; [by apply multi_run|]. split; [|split].
  - cbn [respQueue]. rewrite last_snoc. cbn. by rewrite length_imap.
  - apply Forall2_fmap_r. apply Forall2_same_length_lookup_2; [apply length_imap|].
    intros i r g. rewrite list_lookup_imap. intros Hr Hg. rewrite Hg in Hr. injection Hr as <-.
    apply list_elem_of_lookup_2 in Hg as Hin. exists (fst g). cbn [part_send fst snd Mux.req].
    split; [done|]. split; [apply items_unitems|]. split; [by apply group_items_slot|].
    destruct (unowned_none _ _ g Hu Hin) as [a Hga]. by rewrite Hga.
  - apply groups_items.
Qed.

Lemma multi_key_split_witness :
  exists rs its q',
    routeMultiKeyToMux no_dial_error 1 (mk_req ["MSET"; "1"; "a"; "2"; "b"]%string) (bs "MSET") idle_loop
    = (w ← send_all no_dial_error rs (upd_clients <[1%nat := q']> (h_loop idle_loop)); Ok (with_loop w idle_loop)) /\
    (fun sl => (ready sl, RespQueue.total <$> fanIn sl)) <$> last (respQueue q') = Some (false, Some (len rs)) /\
    Forall2 (fun r its => exists slot,
        req (snd r) = Some (mkRequest (bs "MSET" :: unitems (bs "MSET") its) [] (bs "MSET")) /\
        items (bs "MSET") (unitems (bs "MSET") its) = its /\
        Forall (fun kv => HashSlot (fst kv) = slot) its /\
        GetNodeForSlot slot two_slots = Some (fst r)) rs its /\
    concat its ≡ₚ [(bs "1", bs "a"); (bs "2", bs "b")].
Proof.
  apply (multi_key_split no_dial_error 1 resp_init idle_loop (mk_req ["MSET"; "1"; "a"; "2"; "b"]%string) (bs "MSET")
    (bs "MSET") (map bs ["1"; "a"; "2"; "b"]%string)).
  - reflexivity.
  - reflexivity.
  - intros _. reflexivity.
  - vm_compute. reflexivity.
  - vm_compute. lia.
Defined.

(** MGET over several slots answers with the values in the order of the keys: when
    each node answers its part with the values of the keys it was sent, the client gets
    the array of the values of all keys, whatever the order in which the parts arrive
    and however they are grouped into reads; it is written at once when the client
    waits for nothing else, and kept in its place otherwise. *)
Lemma mget_fan_in `{GoUnicode} keys val st bs0 gs :
  gs = group_slots keys -> keys <> [] ->
  forallb (fun k => wf_ptr (val k)) keys = true ->
  Forall (fun g => buffer_ok (mget_part keys val (snd g))) gs ->
  headReady (respQueue st) = 0%nat -> iov st = [] -> concat bs0 ≡ₚ seq 0 (length gs) ->
  let reply := EncodeValue (Some (array_value (map val keys))) in
  exists st',
    foldM run_event st
      (QAllocFan (mkFanIn (len gs) 0 (replicate (length gs) (mkSub 0 []))
                    (merge_of (bs "MGET") (map snd gs) (length keys))) ::
       map (fun js => QTraffic (map (fun j =>
         RSub (respBase st + length (respQueue st)) j (mget_part keys val (default [] (snd <$> gs !! j)))) js)) bs0)
    = Ok st' /\
    respQueue st' = match respQueue st with [] => [] | _ => respQueue st ++ [mkSlot true reply None] end /\
    out st' = out st ++ match respQueue st with [] => reply | _ => [] end /\ iov st' = [].
Proof.
  intros -> Hne Hwf Hb Hq Hv Hperm reply.
  apply (fan_in_run st _ _ (fun j => mget_part keys val (default [] (snd <$> group_slots keys !! j))));
    [done|done| | |done].
  - destruct (group_slots keys) eqn:E; [by apply group_slots_nil in E|]. cbn. lia.
  - subst reply. change (merge_of (bs "MGET")) with mget_merge. rewrite <- (mget_merge_run keys val Hwf Hb). f_equal.
    apply list_eq. intros j. rewrite list_lookup_fmap, list_lookup_imap.
    destruct (group_slots keys !! j) as [g|] eqn:E.
    + rewrite lookup_seq_lt by (by apply lookup_lt_Some in E). cbn. by rewrite E.
    + by rewrite lookup_seq_ge by (by apply lookup_ge_None in E).
Qed.

Lemma mget_fan_in_witness :
  exists st', foldM run_event resp_init
      [QAllocFan (mkFanIn 2 0 (replicate 2 (mkSub 0 [])) (merge_of (bs "MGET") [[0; 2]; [1]]%nat 3));
       QTraffic [RSub 0 1 (EncodeValue (Some (array_value [None])))];
       QTraffic [RSub 0 0 (EncodeValue (Some (array_value [Some (BulkValue (Some (bs "x"))); Some (BulkValue (Some (bs "x")))])))]]
    = Ok st' /\ respQueue st' = [] /\
    out st' = EncodeValue (Some (array_value [Some (BulkValue (Some (bs "x"))); None; Some (BulkValue (Some (bs "x")))])) /\ iov st' = [].
Proof.
  refine (mget_fan_in (map bs ["1"; "2"; "1"]%string)
    (fun k => if bytes_eqb k (bs "1") then Some (BulkValue (Some (bs "x"))) else None)
    resp_init [[1]; [0]]%nat [(HashSlot (bs "1"), [0; 2]); (HashSlot (bs "2"), [1])]%nat _ _ _ _ _ _ _).
  - vm_compute. reflexivity.
  - discriminate.
  - reflexivity.
  - repeat constructor; vm_compute; discriminate.
  - reflexivity.
  - reflexivity.
  - apply (Permutation_app_comm [1%nat] [0%nat]).
Defined.

(** MSET, DEL, UNLINK, EXISTS and TOUCH over several slots: in whatever order the
    parts are answered, the client gets the first part's error (in the order of its
    keys) as it is, if there is one; otherwise OK (MSET) or the sum of the parts'
    integers as a 64-bit integer. *)
Lemma parts_fan_in `{GoUnicode} name groups nkeys vs st bs0 :
  bytes_eqb name (bs "MGET") = false -> vs <> [] -> replies_ok vs ->
  headReady (respQueue st) = 0%nat -> iov st = [] -> concat bs0 ≡ₚ seq 0 (length vs) ->
  let reply := merged_parts name vs in
  exists st',
    foldM run_event st
      (QAllocFan (mkFanIn (len vs) 0 (replicate (length vs) (mkSub 0 [])) (merge_of name groups nkeys)) ::
       map (fun js => QTraffic (map (fun j =>
         RSub (respBase st + length (respQueue st)) j (EncodeValue (vs !! j))) js)) bs0)
    = Ok st' /\
    respQueue st' = match respQueue st with [] => [] | _ => respQueue st ++ [mkSlot true reply None] end /\
    out st' = out st ++ match respQueue st with [] => reply | _ => [] end /\ iov st' = [].
Proof.
  intros Hname Hne Hvs Hq Hv Hperm reply. apply (fan_in_run st _ _ (fun j => EncodeValue (vs !! j)));
    [done|done| | |done].
  - destruct vs; [done|]. cbn. lia.
  - rewrite parts_of_seq. by apply parts_merge.
Qed.

Lemma parts_fan_in_witness :
  exists st', foldM run_event resp_init
      [QAllocFan (mkFanIn 2 0 (replicate 2 (mkSub 0 [])) (merge_of (bs "DEL") [[0]; [1]]%nat 2));
       QTraffic [RSub 0 1 (bs ":5" ++ CRLF); RSub 0 0 (bs ":2" ++ CRLF)]]
    = Ok st' /\ respQueue st' = [] /\ out st' = bs ":7" ++ CRLF /\ iov st' = [].
Proof.
  refine (parts_fan_in (bs "DEL") [[0]; [1]]%nat 2 [IntValue 2; IntValue 5] resp_init [[1; 0]]%nat _ _ _ _ _ _).
  - reflexivity.
  - discriminate.
  - repeat constructor; vm_compute; discriminate.
  - reflexivity.
  - reflexivity.
  - apply (Permutation_app_comm [1%nat] [0%nat]).
Defined.

(** MSET whose last key has no value: with keys of two slots the index expression
    for the missing value is out of range and the event loop panics, although the
    same request over one slot is sent to its node, which answers with an error. *)
Lemma mset_odd_panics :
  routeToBackend no_dial_error 1 (mk_req ["MSET"; "1"; "a"; "2"]%string) idle_loop = Panic /\
  (if routeToBackend no_dial_error 1 (mk_req ["MSET"; "1"; "a"; "1"]%string) idle_loop is Ok _ then true else false)
  = true.
Proof. split; by vm_compute. Qed.
