(* ===== verification/Hub.v ===== *)
(** * Hub: publish/subscribe over one shared backend connection

    Model of [pkg/engine/pubsub_hub.go].  All subscribed clients of an event loop share
    one connection to a master; the hub keeps who subscribed to what and copies each
    message the backend pushes to its subscribers.

    [pubsubHub] has the fields of the Go type and what the hub does to the outside: the
    bytes written to the shared connection ([hub_wire]), the dials ([hub_dials]), the
    messages handed to clients with [AsyncWrite] ([hub_out], in order), and the [state]
    field of the clients' contexts ([states]), which the hub changes.  A client is known
    by the identifier of its connection.

    Go iterates over the [subs] map in an unspecified order: the functions that do so
    take the order as an argument.  [filepath.Match] is a parameter. *)

From S2P Require Import Prelude GoStd Value RespParse.

Inductive clientState :=
| stateNormal | stateSubscribe | stateMulti | stateWatch | stateWatchMulti | stateBlocking.

#[global] Instance clientState_eq_decision : EqDecision clientState.
Proof. solve_decision. Defined.

(** [filepath.Match]: [None] when the pattern is malformed. *)
Class GoGlob := { filepath_Match : bytes -> bytes -> option bool }.

Definition globMatch `{GoGlob} (pattern subject : bytes) : bool :=
  match filepath_Match pattern subject with Some m => m | None => false end.

Record subEntry := mkEntry {
  e_client : nat;
  e_pattern : bytes;
  isGlob : bool;
}.

Abbreviation submap := (gmap bytes (list subEntry)).

Record pubsubHub := mkHub {
  backendConn : bool;
  hub_dialing : bool;
  pendingClients : list (nat * Request);
  subs : submap;
  clientSubs : gmap nat (gset bytes);
  hub_wire : bytes;
  hub_dials : list bytes;
  hub_out : list (nat * bytes);
  states : gmap nat clientState;
}.

Definition newPubsubHub (sts : gmap nat clientState) : pubsubHub :=
  mkHub false false [] ∅ ∅ [] [] [] sts.

Definition set_subs (s : submap) (cs : gmap nat (gset bytes)) (h : pubsubHub) : pubsubHub :=
  mkHub (backendConn h) (hub_dialing h) (pendingClients h) s cs (hub_wire h) (hub_dials h) (hub_out h) (states h).
Definition set_conn (b d : bool) (h : pubsubHub) : pubsubHub :=
  mkHub b d (pendingClients h) (subs h) (clientSubs h) (hub_wire h) (hub_dials h) (hub_out h) (states h).
Definition set_pending (ps : list (nat * Request)) (h : pubsubHub) : pubsubHub :=
  mkHub (backendConn h) (hub_dialing h) ps (subs h) (clientSubs h) (hub_wire h) (hub_dials h) (hub_out h) (states h).
Definition set_wire (w : bytes) (h : pubsubHub) : pubsubHub :=
  mkHub (backendConn h) (hub_dialing h) (pendingClients h) (subs h) (clientSubs h) w (hub_dials h) (hub_out h) (states h).
Definition add_hub_dial (addr : bytes) (h : pubsubHub) : pubsubHub :=
  mkHub (backendConn h) (hub_dialing h) (pendingClients h) (subs h) (clientSubs h) (hub_wire h)
    (hub_dials h ++ [addr]) (hub_out h) (states h).
Definition set_state (c : nat) (s : clientState) (h : pubsubHub) : pubsubHub :=
  mkHub (backendConn h) (hub_dialing h) (pendingClients h) (subs h) (clientSubs h) (hub_wire h) (hub_dials h)
    (hub_out h) (<[c := s]> (states h)).

Definition writeHubMsgToClient (c : nat) (d : bytes) (h : pubsubHub) : pubsubHub :=
  mkHub (backendConn h) (hub_dialing h) (pendingClients h) (subs h) (clientSubs h) (hub_wire h) (hub_dials h)
    (hub_out h ++ [(c, d)]) (states h).

Definition write_all (ms : list (nat * bytes)) (h : pubsubHub) : pubsubHub :=
  foldl (fun h m => writeHubMsgToClient (fst m) (snd m) h) h ms.

(** ** The subscription table *)

Definition entries_of (p : bytes) (s : submap) : list subEntry := default [] (s !! p).
Definition subs_of (c : nat) (cs : gmap nat (gset bytes)) : gset bytes := default ∅ (cs !! c).

Definition addSub (c : nat) (pattern : bytes) (glob : bool) (h : pubsubHub) : pubsubHub :=
  if existsb (fun e => (e_client e =? c)%nat) (entries_of pattern (subs h)) then h else
  set_subs (<[pattern := entries_of pattern (subs h) ++ [mkEntry c pattern glob]]> (subs h))
    (<[c := {[pattern]} ∪ subs_of c (clientSubs h)]> (clientSubs h)) h.

(** [for i, e := range entries { if e.clientConn == clientConn { remove i; break } }] *)
Fixpoint remove_entry (c : nat) (l : list subEntry) : list subEntry :=
  match l with
  | [] => []
  | e :: l' => if (e_client e =? c)%nat then l' else e :: remove_entry c l'
  end.

(** The entry of the client leaves the list of the pattern; an empty list is deleted. *)
Definition drop_entry (c : nat) (p : bytes) (s : submap) : submap :=
  match remove_entry c (entries_of p s) with
  | [] => delete p s
  | es => <[p := es]> s
  end.

Definition removeSub (c : nat) (pattern : bytes) (h : pubsubHub) : pubsubHub :=
  set_subs (drop_entry c pattern (subs h))
    (match clientSubs h !! c with
     | Some cs => <[c := cs ∖ {[pattern]}]> (clientSubs h)
     | None => clientSubs h
     end) h.

(** The iteration order over the client's patterns does not matter: distinct patterns
    have distinct entries of [subs]. *)
Definition removeAllSubs (c : nat) (h : pubsubHub) : pubsubHub :=
  set_subs (foldl (fun s p => drop_entry c p s) (subs h) (elements (subs_of c (clientSubs h))))
    (clientSubs h) h.

Definition removeClient (c : nat) (h : pubsubHub) : pubsubHub :=
  let h := removeAllSubs c h in set_subs (subs h) (delete c (clientSubs h)) h.

(** ** The shared connection *)

Definition forwardToBackend (req : Request) (h : pubsubHub) : pubsubHub :=
  if backendConn h then set_wire (hub_wire h ++ EncodeCommandBytes (Args req)) h else h.

(** [masters] are the addresses of the masters; [register_ok] tells whether resolving
    and registering the address succeeds. *)
Definition dialSharedBackend (masters : list bytes) (register_ok : bytes -> bool) (h : pubsubHub) : pubsubHub :=
  match masters with
  | [] => set_conn (backendConn h) false h
  | addr :: _ =>
      if register_ok addr then add_hub_dial addr (set_conn (backendConn h) true h)
      else set_conn (backendConn h) false h
  end.

Definition subscribe (masters : list bytes) (register_ok : bytes -> bool) (c : nat) (req : Request) (h : pubsubHub)
    : pubsubHub :=
  let h := set_state c stateSubscribe h in
  let h := if negb (backendConn h) && negb (hub_dialing h) then dialSharedBackend masters register_ok h else h in
  let glob := bytes_eqb (Cmd req) (bs "PSUBSCRIBE") in
  let h := foldl (fun h ch => addSub c ch glob h) h (drop 1 (Args req)) in
  if backendConn h then forwardToBackend req h
  else set_pending (pendingClients h ++ [(c, req)]) h.

Definition unsubscribe_reply (kind ch : bytes) (count : Z) : bytes :=
  EncodeValue (Some (array_value [Some (BulkValue (Some kind)); Some (BulkValue (Some ch)); Some (IntValue count)])).

Definition unsubscribe (c : nat) (req : Request) (h : pubsubHub) : pubsubHub :=
  let h := if (length (Args req) =? 1)%nat then removeAllSubs c h
           else foldl (fun h ch => removeSub c ch h) h (drop 1 (Args req)) in
  let h := if (size (subs_of c (clientSubs h)) =? 0)%nat
           then set_state c stateNormal (set_subs (subs h) (delete c (clientSubs h)) h) else h in
  if backendConn h then forwardToBackend req h else
  let kind := if bytes_eqb (Cmd req) (bs "PUNSUBSCRIBE") then bs "punsubscribe" else bs "unsubscribe" in
  let count := Z.of_nat (size (subs_of c (clientSubs h))) in
  write_all (map (fun ch => (c, unsubscribe_reply kind ch count)) (drop 1 (Args req))) h.

(** [username] and [password] of the backends, empty when not configured. *)
Definition auth_command (username password : bytes) : bytes :=
  match username with
  | [] => EncodeCommandBytes [bs "AUTH"; password]
  | _ => EncodeCommandBytes [bs "AUTH"; username; password]
  end.

Definition psubscribe_all : bytes := EncodeCommandBytes [bs "PSUBSCRIBE"; bs "*"].

Definition onSharedBackendOpen (username password : bytes) (h : pubsubHub) : pubsubHub :=
  let h := set_conn true false h in
  let h := set_wire ((match password with [] => [] | _ => auth_command username password end) ++ psubscribe_all) h in
  let h := foldl (fun h pc => forwardToBackend (snd pc) h) h (pendingClients h) in
  set_pending [] h.

(** A failed dial, reported to the event loop later. *)
Definition dial_failed (h : pubsubHub) : pubsubHub := set_conn (backendConn h) false h.

(** Each client is notified once; [order] is the iteration order over [subs]. *)
Fixpoint notify (es : list subEntry) (notified : gset nat) (h : pubsubHub) : pubsubHub :=
  match es with
  | [] => h
  | e :: es' =>
      if decide (e_client e ∈ notified) then notify es' notified h
      else notify es' ({[e_client e]} ∪ notified)
             (set_state (e_client e) stateNormal
                (writeHubMsgToClient (e_client e)
                   (EncodeError (bs "ERR pubsub backend connection lost; please re-subscribe")) h))
  end.

Definition onSharedBackendClose (order : submap -> list (bytes * list subEntry)) (h : pubsubHub) : pubsubHub :=
  let h := set_conn false false h in
  let h := notify (concat (map snd (order (subs h)))) ∅ h in
  set_subs ∅ ∅ h.

(** ** Messages *)

(** The [Str] field of a parsed value as a slice: nil for integers, arrays and nil
    values. *)
Definition str_ptr (v : Value) : option bytes :=
  if IsNil v || (Type_ v =b TypeInteger) || (Type_ v =b TypeArray) then None else Some (Str v).

Definition pmessage (pattern channel : bytes) (payload : option bytes) : bytes :=
  EncodeValue (Some (array_value [Some (BulkValue (Some (bs "pmessage"))); Some (BulkValue (Some pattern));
    Some (BulkValue (Some channel)); Some (BulkValue payload)])).

Section messages.
Context `{GoGlob} `{GoUnicode} (order : submap -> list (bytes * list subEntry)).

(** To the clients that subscribed to the channel itself. *)
Definition to_channel (channel encoded : bytes) (s : submap) : list (nat * bytes) :=
  omap (fun e => if isGlob e then None else Some (e_client e, encoded)) (entries_of channel s).

(** To the clients of every pattern that matches. *)
Definition to_patterns (channel : bytes) (payload : option bytes) (s : submap) : list (nat * bytes) :=
  concat (map (fun pe => omap (fun e =>
    if isGlob e && globMatch (fst pe) channel
    then Some (e_client e, pmessage (fst pe) channel payload) else None) (snd pe)) (order s)).

(** [val.Array[i]], dereferenced. *)
Definition elem (arr : list (option Value)) (i : nat) : outcome Value :=
  match arr !! i with Some (Some v) => Ok v | _ => Panic end.

Definition dispatchMessage (val : Value) (h : pubsubHub) : outcome pubsubHub :=
  let arr := Array val in
  if negb (Type_ val =b TypeArray) || (len arr <? 3) then Ok h else
  v0 ← elem arr 0;
  let msgType := ToLower (Str v0) in
  if bytes_eqb msgType (bs "psubscribe") || bytes_eqb msgType (bs "punsubscribe") then Ok h else
  if bytes_eqb msgType (bs "subscribe") || bytes_eqb msgType (bs "unsubscribe") then
    v1 ← elem arr 1;
    Ok (write_all (to_channel (Str v1) (EncodeValue (Some val)) (subs h)) h)
  else if bytes_eqb msgType (bs "message") then
    v1 ← elem arr 1; v2 ← elem arr 2;
    Ok (write_all (to_patterns (Str v1) (str_ptr v2) (subs h))
         (write_all (to_channel (Str v1) (EncodeValue (Some val)) (subs h)) h))
  else if bytes_eqb msgType (bs "pmessage") then
    if len arr <? 4 then Ok h else
    v2 ← elem arr 2; v3 ← elem arr 3;
    Ok (write_all (to_patterns (Str v2) (str_ptr v3) (subs h)) h)
  else Ok h.

(** The loop over the buffer, with the bytes it leaves; a protocol error closes the
    connection ([true]). *)
Fixpoint shared_traffic (fuel : nat) (buf : bytes) (h : pubsubHub) : outcome (pubsubHub * bytes * bool) :=
  match fuel with
  | O => NoFuel
  | S fuel =>
      match ParseValue buf with
      | Ok None => Ok (h, buf, false)
      | Ok (Some (v, consumed)) => h ← dispatchMessage v h; shared_traffic fuel (drop consumed buf) h
      | Err _ => Ok (h, buf, true)
      | Panic => Panic
      | NoFuel => NoFuel
      end
  end.

Definition onSharedBackendTraffic (buf : bytes) (h : pubsubHub) : outcome (pubsubHub * bytes * bool) :=
  shared_traffic (S (length buf)) buf h.

End messages.
