(* ===== verification/HubFacts.v ===== *)
(** * HubFacts: subscriptions stay consistent and messages reach their subscribers

    [hub_ok] is the invariant of the subscription tables; [hub_invariant] shows that
    every operation keeps it, [message_delivery] that each frame of the shared connection
    reaches each subscriber exactly once per subscription, whatever order Go iterates over
    the table in. *)

From S2P Require Import Prelude GoStd Value RespParse RespFacts Hub.

(** ** Invariant

    Every list of [subs] is non-empty, has at most one entry per client, and each entry
    is registered in [clientSubs] of its client.  The converse does not hold: UNSUBSCRIBE
    without arguments removes the entries and leaves [clientSubs] as it is. *)

Definition has_entry (c : nat) (p : bytes) (s : submap) : Prop := c ∈ map e_client (entries_of p s).

Record hub_ok (h : pubsubHub) : Prop := {
  ho_entries : map_Forall (fun p es => es <> [] /\ NoDup (map e_client es) /\ Forall (fun e => e_pattern e = p) es)
                 (subs h);
  ho_registered : forall c p, has_entry c p (subs h) -> p ∈ subs_of c (clientSubs h);
}.

Lemma entries_insert (p q : bytes) (es : list subEntry) (s : submap) :
  entries_of p (<[q := es]> s) = if decide (p = q) then es else entries_of p s.
Proof.
  unfold entries_of. case_decide as E; [by rewrite E, lookup_insert_eq|by rewrite lookup_insert_ne].
Qed.

Lemma entries_delete (p q : bytes) (s : submap) :
  entries_of p (delete q s) = if decide (p = q) then [] else entries_of p s.
Proof.
  unfold entries_of. case_decide as E; [by rewrite E, lookup_delete_eq|by rewrite lookup_delete_ne].
Qed.

Lemma entries_drop c p q s :
  entries_of q (drop_entry c p s) = if decide (q = p) then remove_entry c (entries_of p s) else entries_of q s.
Proof.
  unfold drop_entry. destruct (remove_entry c (entries_of p s)) eqn:E.
  - rewrite entries_delete. by case_decide.
  - rewrite entries_insert. by case_decide.
Qed.

Lemma remove_entry_in c x l : x ∈ remove_entry c l -> x ∈ l.
Proof.
  induction l as [|e l IH]; [done|]. cbn. destruct (_ =? _)%nat; [by right|].
  intros [->|Hx]%elem_of_cons; [by left|right; auto].
Qed.

Lemma remove_entry_NoDup c l : NoDup (map e_client l) -> NoDup (map e_client (remove_entry c l)).
Proof.
  induction l as [|e l IH]; [done|]. cbn. intros [Hn Hl]%NoDup_cons. destruct (_ =? _)%nat; [done|].
  cbn. constructor; [|auto]. intros (x & Hx & Hin)%list_elem_of_fmap. apply Hn. apply list_elem_of_fmap.
  exists x. split; [done|]. by eapply remove_entry_in.
Qed.

Lemma remove_entry_gone c l : NoDup (map e_client l) -> c ∉ map e_client (remove_entry c l).
Proof.
  induction l as [|e l IH]; [intros _; apply not_elem_of_nil|]. cbn. intros [Hn Hl]%NoDup_cons.
  destruct (Nat.eqb_spec (e_client e) c) as [<-|Hne]; [done|]. cbn. rewrite elem_of_cons. intros [->|Hin]; [done|].
  by apply IH in Hl.
Qed.

Lemma has_entry_drop c p c' q s :
  has_entry c' q (drop_entry c p s) -> has_entry c' q s.
Proof.
  unfold has_entry. rewrite entries_drop. case_decide as E; [|done]. subst q.
  intros (x & Hx & Hin)%list_elem_of_fmap. apply list_elem_of_fmap. exists x. split; [done|]. by eapply remove_entry_in.
Qed.

Definition table_ok (s : submap) : Prop :=
  map_Forall (fun p es => es <> [] /\ NoDup (map e_client es) /\ Forall (fun e => e_pattern e = p) es) s.

Lemma table_entries s p : table_ok s ->
  NoDup (map e_client (entries_of p s)) /\ Forall (fun e => e_pattern e = p) (entries_of p s).
Proof.
  intros Hs. unfold entries_of. destruct (s !! p) as [es|] eqn:E; cbn; [by destruct (Hs p es E) as [_ ?]|]. split; constructor.
Qed.

Lemma drop_table c p s : table_ok s -> table_ok (drop_entry c p s).
Proof.
  intros Hs. destruct (table_entries s p Hs) as [Hn Hp]. unfold drop_entry.
  destruct (remove_entry c (entries_of p s)) as [|e es] eqn:E; [by apply map_Forall_delete|].
  apply map_Forall_insert_2; [|done]. split; [discriminate|]. rewrite <- E. split; [by apply remove_entry_NoDup|].
  apply Forall_forall. intros x Hx%remove_entry_in. by eapply Forall_forall in Hp.
Qed.

Lemma hub_ok_new sts : hub_ok (newPubsubHub sts).
Proof. split; [apply map_Forall_empty|]. intros c p Hc. by apply not_elem_of_nil in Hc. Qed.

Lemma has_entry_exists c p s :
  existsb (fun e => (e_client e =? c)%nat) (entries_of p s) = false -> ~ has_entry c p s.
Proof.
  intros E (e & -> & He)%list_elem_of_fmap.
  assert (existsb (fun e' => (e_client e' =? e_client e)%nat) (entries_of p s) = true); [|congruence].
  apply existsb_exists. exists e. split; [by apply list_elem_of_In|]. apply Nat.eqb_refl.
Qed.

Lemma addSub_ok c p g h : hub_ok h -> hub_ok (addSub c p g h).
Proof.
  intros [Ht Hr]. unfold addSub. destruct (existsb _ _) eqn:E; [done|]. apply has_entry_exists in E.
  destruct (table_entries (subs h) p Ht) as [Hn Hp]. split; cbn.
  - apply map_Forall_insert_2; [|done]. split; [by destruct (entries_of p (subs h))|]. split.
    + rewrite map_app. apply NoDup_app. split; [done|]. split; [|apply NoDup_singleton].
      intros x Hx Hx'. apply list_elem_of_singleton in Hx' as ->. by apply E.
    + apply Forall_app. split; [done|]. by constructor.
  - intros c' q. unfold has_entry. rewrite entries_insert. unfold subs_of. destruct (decide (c' = c)) as [->|Hne].
    + rewrite lookup_insert_eq. cbn. case_decide as Eq; [intros _; set_solver|].
      intros Hq%Hr. unfold subs_of in Hq. set_solver.
    + rewrite lookup_insert_ne by done. case_decide as Eq; [|apply Hr]. subst q. rewrite map_app, elem_of_app.
      intros [Hin|Hin]; [by apply Hr|]. apply list_elem_of_singleton in Hin. done.
Qed.

Lemma removeSub_ok c p h : hub_ok h -> hub_ok (removeSub c p h).
Proof.
  intros [Ht Hr]. destruct (table_entries (subs h) p Ht) as [Hn _].
  split; cbn; [by apply drop_table|]. intros c' q Hq. apply has_entry_drop in Hq as Hq'. apply Hr in Hq'.
  destruct (clientSubs h !! c) as [cs|] eqn:Ec; [|done]. unfold subs_of in *.
  destruct (decide (c' = c)) as [->|Hne]; [|by rewrite lookup_insert_ne].
  rewrite lookup_insert_eq. rewrite Ec in Hq'. cbn in *. apply elem_of_difference. split; [done|].
  rewrite elem_of_singleton. intros ->. unfold has_entry in Hq. rewrite entries_drop, decide_True in Hq by done.
  by apply remove_entry_gone in Hq.
Qed.

Lemma drop_all_ok c ps s : table_ok s -> table_ok (foldl (fun s p => drop_entry c p s) s ps).
Proof. revert s. induction ps as [|p ps IH]; intros s Hs; [done|]. apply IH. by apply drop_table. Qed.

Lemma drop_all_entry c ps s c' q :
  has_entry c' q (foldl (fun s p => drop_entry c p s) s ps) -> has_entry c' q s.
Proof. revert s. induction ps as [|p ps IH]; intros s; [done|]. cbn. intros H%IH. by apply has_entry_drop in H. Qed.

Lemma drop_all_gone c ps s p :
  table_ok s -> p ∈ ps -> ~ has_entry c p (foldl (fun s p => drop_entry c p s) s ps).
Proof.
  revert s. induction ps as [|q ps IH]; intros s Hs Hp; [by apply not_elem_of_nil in Hp|].
  destruct (decide (p = q)) as [->|Hne].
  - cbn. intros H%drop_all_entry. unfold has_entry in H. rewrite entries_drop, decide_True in H by done.
    apply remove_entry_gone in H; [done|]. by apply table_entries.
  - apply IH; [by apply drop_table|]. apply elem_of_cons in Hp as [|]; done.
Qed.

Lemma removeAllSubs_ok c h : hub_ok h -> hub_ok (removeAllSubs c h).
Proof.
  intros [Ht Hr]. split; cbn; [by apply drop_all_ok|]. intros c' q Hq%drop_all_entry. by apply Hr.
Qed.

(** A removed client has no entry left. *)
Lemma removeAllSubs_gone c h p : hub_ok h -> ~ has_entry c p (subs (removeAllSubs c h)).
Proof.
  intros [Ht Hr] Hp. cbn in Hp. apply drop_all_entry in Hp as Hp'. apply Hr in Hp'.
  eapply drop_all_gone; [exact Ht| |exact Hp]. by apply elem_of_elements.
Qed.

Lemma subs_of_delete c c' cs : c' <> c -> subs_of c' (delete c cs) = subs_of c' cs.
Proof. intros Hne. unfold subs_of. by rewrite lookup_delete_ne. Qed.

(** Forgetting a client without entries. *)
Lemma forget_ok c h : hub_ok h -> (forall p, ~ has_entry c p (subs h)) ->
  hub_ok (set_subs (subs h) (delete c (clientSubs h)) h).
Proof.
  intros [Ht Hr] Hn. split; [exact Ht|]. cbn. intros c' q Hq. destruct (decide (c' = c)) as [->|Hne].
  - by apply Hn in Hq.
  - rewrite subs_of_delete by done. by apply Hr.
Qed.

Lemma removeClient_ok c h : hub_ok h -> hub_ok (removeClient c h) /\ forall p, ~ has_entry c p (subs (removeClient c h)).
Proof.
  intros Hh. split.
  - apply forget_ok; [by apply removeAllSubs_ok|]. intros p. by apply removeAllSubs_gone.
  - intros p. by apply removeAllSubs_gone.
Qed.

(** Operations that leave the tables alone. *)
Lemma hub_ok_same h h' : subs h' = subs h -> clientSubs h' = clientSubs h -> hub_ok h -> hub_ok h'.
Proof. intros Hs Hc [Ht Hr]. split; rewrite Hs, ?Hc; done. Qed.

Lemma forward_same req h :
  subs (forwardToBackend req h) = subs h /\ clientSubs (forwardToBackend req h) = clientSubs h.
Proof. unfold forwardToBackend. by destruct (backendConn h). Qed.

Lemma forward_ok req h : hub_ok h -> hub_ok (forwardToBackend req h).
Proof. apply hub_ok_same; apply forward_same. Qed.

Lemma write_all_same ms h : subs (write_all ms h) = subs h /\ clientSubs (write_all ms h) = clientSubs h.
Proof. unfold write_all. revert h. induction ms as [|m ms IH]; intros h; [done|]. cbn [foldl]. rewrite !(proj1 (IH _)), !(proj2 (IH _)). done. Qed.

Lemma write_all_ok ms h : hub_ok h -> hub_ok (write_all ms h).
Proof. apply hub_ok_same; apply write_all_same. Qed.

Lemma dial_ok masters reg h : hub_ok h -> hub_ok (dialSharedBackend masters reg h).
Proof. unfold dialSharedBackend. destruct masters; [|destruct (reg _)]; by apply hub_ok_same. Qed.

Lemma subscribe_ok masters reg c req h : hub_ok h -> hub_ok (subscribe masters reg c req h).
Proof.
  intros Hh. unfold subscribe. set (h1 := if _ && _ then _ else _).
  assert (H1 : hub_ok h1).
  { unfold h1. destruct (_ && _); [apply dial_ok|]; by apply (hub_ok_same h). }
  assert (H2 : forall l h2, hub_ok h2 ->
    hub_ok (foldl (fun h ch => addSub c ch (bytes_eqb (Cmd req) (bs "PSUBSCRIBE")) h) h2 l)).
  { induction l as [|ch l IH]; intros h2 Hh2; [done|]. apply IH. by apply addSub_ok. }
  specialize (H2 (drop 1 (Args req)) h1 H1). clearbody h1. set (h2 := foldl _ h1 _) in *. clearbody h2.
  destruct (backendConn h2); [by apply forward_ok|]. by revert H2; apply hub_ok_same.
Qed.

Lemma size_zero_gone c h : hub_ok h -> size (subs_of c (clientSubs h)) = 0%nat -> forall p, ~ has_entry c p (subs h).
Proof.
  intros [_ Hr] Hz p Hp%Hr. apply size_empty_inv in Hz. set_solver.
Qed.

Lemma unsubscribe_ok c req h : hub_ok h -> hub_ok (unsubscribe c req h).
Proof.
  intros Hh. unfold unsubscribe. set (h1 := if (_ =? 1)%nat then _ else _).
  assert (H1 : hub_ok h1).
  { unfold h1. destruct (_ =? 1)%nat; [by apply removeAllSubs_ok|]. clear h1. revert h Hh.
    induction (drop 1 (Args req)) as [|ch l IH]; intros h Hh; [done|]. apply IH. by apply removeSub_ok. }
  set (h2 := if (size _ =? 0)%nat then _ else _).
  assert (H2 : hub_ok h2).
  { unfold h2. destruct (size _ =? 0)%nat eqn:E; [|done]. apply Nat.eqb_eq in E.
    apply (hub_ok_same (set_subs (subs h1) (delete c (clientSubs h1)) h1)); [done|done|].
    by apply forget_ok; [|apply size_zero_gone]. }
  destruct (backendConn h2); [by apply forward_ok|by apply write_all_ok].
Qed.

Lemma notify_same es seen h :
  subs (notify es seen h) = subs h /\ clientSubs (notify es seen h) = clientSubs h.
Proof.
  revert seen h. induction es as [|e es IH]; intros seen h; [done|]. cbn.
  case_decide; [apply IH|]. rewrite !(proj1 (IH _ _)), !(proj2 (IH _ _)). done.
Qed.

Lemma open_ok u pw h : hub_ok h -> hub_ok (onSharedBackendOpen u pw h).
Proof.
  intros Hh. unfold onSharedBackendOpen. set (h1 := set_wire _ _).
  assert (H1 : hub_ok h1) by (by revert Hh; apply hub_ok_same). clearbody h1.
  assert (H2 : forall (l : list (nat * Request)) h2, hub_ok h2 ->
    hub_ok (foldl (fun h pc => forwardToBackend (snd pc) h) h2 l)).
  { induction l as [|pc l IH]; intros h2 Hh2; [done|]. apply IH. by apply forward_ok. }
  by apply (hub_ok_same (foldl (fun h pc => forwardToBackend (snd pc) h) h1 (pendingClients h1))); [..|apply H2].
Qed.

(** ** Delivery *)

Definition subscribed (c : nat) (p : bytes) (g : bool) (h : pubsubHub) : Prop :=
  exists e, e ∈ entries_of p (subs h) /\ e_client e = c /\ isGlob e = g.

(** [order] visits every entry of the table once. *)
Definition iterates (order : submap -> list (bytes * list subEntry)) : Prop :=
  forall s, order s ≡ₚ map_to_list s.

Lemma write_all_out ms h : hub_out (write_all ms h) = hub_out h ++ ms.
Proof.
  unfold write_all. revert h. induction ms as [|[c d] ms IH]; intros h; cbn; [by rewrite app_nil_r|].
  rewrite IH. cbn. by rewrite <- app_assoc.
Qed.

Section delivery.
Context `{GoGlob} (order : submap -> list (bytes * list subEntry)) (Horder : iterates order).

Lemma order_perm s : order s ≡ₚ map_to_list s.
Proof. apply Horder. Qed.

(** The recipients of a message: [None] for the channel itself, [Some p] for a pattern. *)
Definition channel_tags (channel : bytes) (s : submap) : list (nat * option bytes) :=
  omap (fun e => if isGlob e then None else Some (e_client e, None)) (entries_of channel s).

Definition pattern_tags (channel : bytes) (s : submap) : list (nat * option bytes) :=
  concat (map (fun pe => omap (fun e => if isGlob e && globMatch (fst pe) channel
                                        then Some (e_client e, Some (fst pe)) else None) (snd pe)) (order s)).

Definition render (channel encoded : bytes) (payload : option bytes) (t : nat * option bytes) : nat * bytes :=
  (fst t, match snd t with None => encoded | Some p => pmessage p channel payload end).

Lemma to_channel_tags channel enc payload s :
  to_channel channel enc s = map (render channel enc payload) (channel_tags channel s).
Proof.
  unfold to_channel, channel_tags. induction (entries_of channel s) as [|e es IH]; [done|]. cbn.
  destruct (isGlob e); cbn; by rewrite IH.
Qed.

Lemma to_patterns_tags channel enc payload s :
  to_patterns order channel payload s = map (render channel enc payload) (pattern_tags channel s).
Proof.
  unfold to_patterns, pattern_tags. induction (order s) as [|[p es] l IH]; [done|]. cbn.
  rewrite map_app, <- IH. f_equal. clear IH. induction es as [|e es IH]; [done|]. cbn.
  destruct (isGlob e && _); cbn; by rewrite IH.
Qed.

Lemma channel_tags_spec channel h c t :
  (c, t) ∈ channel_tags channel (subs h) <-> t = None /\ subscribed c channel false h.
Proof.
  unfold channel_tags, subscribed. rewrite list_elem_of_omap. split.
  - intros (e & He & Ht). destruct (isGlob e) eqn:Eg; [done|]. injection Ht as <- <-. eauto.
  - intros (-> & e & He & <- & Hg). exists e. by rewrite Hg.
Qed.

Lemma pattern_tags_spec channel h c t :
  (c, t) ∈ pattern_tags channel (subs h)
  <-> exists p, t = Some p /\ subscribed c p true h /\ globMatch p channel = true.
Proof.
  unfold pattern_tags, subscribed. rewrite list_elem_of_In, in_concat. split.
  - intros (l & Hl & Ht). apply in_map_iff in Hl as ([p es] & <- & Hp). cbn in Ht. apply list_elem_of_In in Ht.
    apply list_elem_of_omap in Ht as (e & He & Ht). destruct (isGlob e) eqn:Eg; [|done].
    destruct (globMatch p channel) eqn:Em; [|done]. injection Ht as <- <-. exists p. split; [done|]. split; [|done].
    exists e. split; [|done]. apply list_elem_of_In in Hp. rewrite order_perm in Hp. apply elem_of_map_to_list in Hp.
    unfold entries_of. by rewrite Hp.
  - intros (p & -> & (e & He & <- & Hg) & Hm). unfold entries_of in He.
    destruct (subs h !! p) as [es|] eqn:Ep; [|by apply not_elem_of_nil in He]. cbn in He.
    eexists. split.
    + apply in_map_iff. exists (p, es). split; [done|]. apply list_elem_of_In. rewrite order_perm. by apply elem_of_map_to_list.
    + apply list_elem_of_In, list_elem_of_omap. exists e. cbn. by rewrite Hg, Hm.
Qed.

Lemma omap_client_NoDup (f : subEntry -> bool) t (es : list subEntry) :
  NoDup (map e_client es) ->
  NoDup (omap (fun e => if f e then Some (e_client e, t : option bytes) else None) es).
Proof.
  induction es as [|e es IH]; [constructor|]. cbn. intros [Hn Hes]%NoDup_cons. destruct (f e); [|auto].
  constructor; [|auto]. intros (x & Hx & Ht)%list_elem_of_omap. destruct (f x); [|done]. injection Ht as Hc.
  apply Hn. apply list_elem_of_fmap. eauto.
Qed.

Lemma hub_close_ok h : hub_ok (onSharedBackendClose order h).
Proof. split; [apply map_Forall_empty|]. intros c p Hc. by apply not_elem_of_nil in Hc. Qed.

Lemma tags_NoDup channel h : hub_ok h ->
  NoDup (channel_tags channel (subs h) ++ pattern_tags channel (subs h)).
Proof.
  intros [Ht _]. destruct (table_entries (subs h) channel Ht) as [Hn _]. apply NoDup_app. split; [|split].
  - unfold channel_tags. erewrite list_omap_ext; [apply (omap_client_NoDup (fun e => negb (isGlob e)) None _ Hn)|].
    apply Forall_Forall2_diag, Forall_true. intros e. by destruct (isGlob e).
  - intros [c t] [-> _]%channel_tags_spec (p & Hp & _)%pattern_tags_spec. done.
  - unfold pattern_tags.
    assert (Hd : NoDup (order (subs h)).*1).
    { rewrite order_perm. apply NoDup_fst_map_to_list. }
    assert (He : Forall (fun pe => NoDup (map e_client (snd pe))) (order (subs h))).
    { rewrite order_perm. apply Forall_forall. intros [p es] Hp%elem_of_map_to_list. by apply Ht in Hp as (_ & ? & _). }
    induction He as [|[p es] l He _ IH]; [constructor|]. cbn in *. apply NoDup_cons in Hd as [Hp Hd].
    apply NoDup_app. split; [by apply (omap_client_NoDup (fun e => isGlob e && globMatch p channel))|].
    split; [|auto]. intros [c t] (e & _ & Hx)%list_elem_of_omap Hy. destruct (_ && _); [|done]. injection Hx as _ <-.
    apply Hp. apply list_elem_of_In, in_concat in Hy as (k & Hk & Hy). apply in_map_iff in Hk as ([q es'] & <- & Hq).
    apply list_elem_of_In, list_elem_of_omap in Hy as (e' & _ & Hy). cbn in Hy. destruct (_ && _); [|done].
    injection Hy as _ ->. apply list_elem_of_fmap. exists (p, es'). split; [done|]. by apply list_elem_of_In.
Qed.

End delivery.

(** ** Properties *)

Definition bulk (b : bytes) : option Value := Some (BulkValue (Some b)).

(** What the backend sends for a published message: a [message] for a subscription of the
    shared connection to the channel, a [pmessage] for each of its patterns that matches;
    [onSharedBackendOpen] always subscribes it to the pattern [*]. *)
Inductive frame :=
| FMessage (channel payload : bytes)
| FPMessage (pattern channel payload : bytes).

Definition frame_value (f : frame) : Value :=
  match f with
  | FMessage ch payload => array_value [bulk (bs "message"); bulk ch; bulk payload]
  | FPMessage p ch payload => array_value [bulk (bs "pmessage"); bulk p; bulk ch; bulk payload]
  end.
Definition frame_bytes (f : frame) : bytes := EncodeValue (Some (frame_value f)).
Definition frame_channel (f : frame) : bytes := match f with FMessage ch _ | FPMessage _ ch _ => ch end.
Definition frame_payload (f : frame) : bytes := match f with FMessage _ x | FPMessage _ _ x => x end.
Definition is_message (f : frame) : bool := match f with FMessage _ _ => true | FPMessage _ _ _ => false end.

Section frames.
Context `{GoGlob} `{GoUnicode} (order : submap -> list (bytes * list subEntry)) (Horder : iterates order).

(** Whom a frame is for, and what each of them gets. *)
Definition frame_tags (s : submap) (f : frame) : list (nat * option bytes) :=
  (if is_message f then channel_tags (frame_channel f) s else []) ++ pattern_tags order (frame_channel f) s.
Definition frame_sends (f : frame) (tags : list (nat * option bytes)) : list (nat * bytes) :=
  map (render (frame_channel f) (frame_bytes f) (Some (frame_payload f))) tags.

Lemma dispatch_frame f h :
  exists h', dispatchMessage order (frame_value f) h = Ok h' /\ subs h' = subs h /\
    hub_out h' = hub_out h ++ frame_sends f (frame_tags (subs h) f).
Proof.
  destruct f as [ch x|p ch x]; (eexists; split; [unfold dispatchMessage; cbn; reflexivity|]);
    (split; [by rewrite !(proj1 (write_all_same _ _))|]); rewrite !write_all_out; unfold frame_sends, frame_tags;
    cbn [is_message frame_channel frame_payload app].
  - rewrite (to_channel_tags ch _ (Some x)), (to_patterns_tags order ch (frame_bytes (FMessage ch x))).
    by rewrite map_app, app_assoc.
  - by rewrite (to_patterns_tags order ch (frame_bytes (FPMessage p ch x))).
Qed.

Lemma shared_frames fuel frames h :
  buffer_ok (concat (map frame_bytes frames)) -> (length frames < fuel)%nat ->
  exists h', shared_traffic order fuel (concat (map frame_bytes frames)) h = Ok (h', [], false) /\ subs h' = subs h /\
    hub_out h' = hub_out h ++ concat (map (fun f => frame_sends f (frame_tags (subs h) f)) frames).
Proof.
  revert fuel h. induction frames as [|f frames IH]; intros fuel h Hb Hf; destruct fuel as [|fuel]; cbn [length] in Hf; try lia.
  - exists h. split; [reflexivity|]. split; [done|]. cbn. by rewrite app_nil_r.
  - cbn [map concat] in *. cbn [shared_traffic]. unfold frame_bytes at 1.
    rewrite (parse_encode (Some (frame_value f))) by (by destruct f).
    replace (canon_ptr (Some (frame_value f))) with (frame_value f) by (by destruct f).
    destruct (dispatch_frame f h) as (h1 & Hd & Hs & Ho). rewrite Hd. go_simp.
    change (EncodeValue (Some (frame_value f))) with (frame_bytes f). rewrite drop_app_length.
    destruct (IH fuel h1) as (h2 & Hr & Hs2 & Ho2); [|lia|].
    { unfold buffer_ok in *. rewrite length_app in Hb. lia. }
    exists h2. split; [exact Hr|]. split; [by rewrite Hs2|]. by rewrite Ho2, Ho, Hs, <- app_assoc.
Qed.

Lemma frame_tags_spec h f : hub_ok h ->
  NoDup (frame_tags (subs h) f) /\
  (forall c, (c, None) ∈ frame_tags (subs h) f <-> is_message f = true /\ subscribed c (frame_channel f) false h) /\
  (forall c p, (c, Some p) ∈ frame_tags (subs h) f <-> subscribed c p true h /\ globMatch p (frame_channel f) = true).
Proof.
  intros Hh. pose proof (tags_NoDup order Horder (frame_channel f) h Hh) as Hn. unfold frame_tags. split; [|split].
  - destruct (is_message f); [exact Hn|]. by apply NoDup_app in Hn as (_ & _ & ?).
  - intros c. rewrite elem_of_app, (pattern_tags_spec order Horder). destruct (is_message f).
    + rewrite channel_tags_spec. split; [|intros [_ ?]; by left]. intros [[_ Hs]|(p & Hp & _)]; done.
    + split; [|by intros [? _]]. intros [Hc|(p & Hp & _)]; [by apply not_elem_of_nil in Hc|done].
  - intros c p. rewrite elem_of_app, (pattern_tags_spec order Horder). split.
    + intros [Hc|(q & Hq & Hs & Hm)]; [|by injection Hq as <-]. destruct (is_message f); [|by apply not_elem_of_nil in Hc].
      by apply channel_tags_spec in Hc as [? _].
    + intros [Hs Hm]. right. by exists p.
Qed.

Lemma frames_fuel frames : (length frames < S (length (concat (map frame_bytes frames))))%nat.
Proof.
  induction frames as [|f frames IH]; [cbn; lia|]. cbn [map concat length]. rewrite length_app.
  pose proof (encode_nonempty (Some (frame_value f)) ltac:(by destruct f)). cbn [wf_ptr] in *. unfold frame_bytes in *. lia.
Qed.

End frames.

(** C15: what the shared connection delivers for each frame it reads, in the order of the
    frames and whatever the order in which the table is iterated: for a [message] every
    client that subscribed to the channel gets one copy; for a [message] and for a
    [pmessage] alike every client gets one [pmessage] for each of its patterns that
    matches the channel; and nobody gets anything else.  (So a message that the backend
    sends both as [message] and, for the hub's own pattern, as [pmessage] reaches a
    pattern subscriber twice.) *)
Theorem message_delivery `{GoGlob} `{GoUnicode} order h frames :
  iterates order -> hub_ok h -> buffer_ok (concat (map frame_bytes frames)) ->
  exists h' tags,
    onSharedBackendTraffic order (concat (map frame_bytes frames)) h = Ok (h', [], false) /\ subs h' = subs h /\
    hub_out h' = hub_out h ++ concat (zip_with frame_sends frames tags) /\
    Forall2 (fun f ts =>
      NoDup ts /\
      (forall c, (c, None) ∈ ts <-> is_message f = true /\ subscribed c (frame_channel f) false h) /\
      (forall c p, (c, Some p) ∈ ts <-> subscribed c p true h /\ globMatch p (frame_channel f) = true)) frames tags.
Proof.
  intros Ho Hh Hb. destruct (shared_frames order _ frames h Hb (frames_fuel frames)) as (h' & Hr & Hs & Hout).
  exists h', (map (frame_tags order (subs h)) frames). split; [exact Hr|]. split; [exact Hs|]. split.
  - rewrite Hout. do 2 f_equal. clear. induction frames as [|f frames IH]; [done|]. cbn. by rewrite IH.
  - apply Forall2_fmap_r, Forall_Forall2_diag, Forall_true. intros f. by apply frame_tags_spec.
Qed.

(** Literal patterns and the star. *)
Definition star_glob : GoGlob :=
  {| filepath_Match := fun p s => Some (bytes_eqb p (bs "*") || bytes_eqb p s) |}.
#[local] Existing Instance star_glob.
#[local] Instance hub_text : GoUnicode := ascii_unicode.

Definition sub_req (cmd : string) (chs : list bytes) : Request := mkRequest (bs cmd :: chs) [] (bs cmd).

Definition two_subscribers : pubsubHub :=
  subscribe [] (fun _ => true) 2 (sub_req "PSUBSCRIBE" [bs "*"])
    (subscribe [] (fun _ => true) 1 (sub_req "SUBSCRIBE" [bs "news"]) (newPubsubHub ∅)).

(** One message, as the backend sends it on a connection that subscribed to [news] and [*]. *)
Definition news_frames : list frame :=
  [FMessage (bs "news") (bs "x"); FPMessage (bs "*") (bs "news") (bs "x")].

Lemma message_delivery_witness :
  exists h' tags,
    onSharedBackendTraffic map_to_list (concat (map frame_bytes news_frames)) two_subscribers = Ok (h', [], false) /\
    subs h' = subs two_subscribers /\
    hub_out h' = hub_out two_subscribers ++ concat (zip_with frame_sends news_frames tags) /\
    Forall2 (fun f ts =>
      NoDup ts /\
      (forall c, (c, None) ∈ ts <-> is_message f = true /\ subscribed c (frame_channel f) false two_subscribers) /\
      (forall c p, (c, Some p) ∈ ts <-> subscribed c p true two_subscribers /\ globMatch p (frame_channel f) = true))
      news_frames tags.
Proof.
  apply (message_delivery map_to_list two_subscribers news_frames).
  - intros s. reflexivity.
  - apply subscribe_ok, subscribe_ok, hub_ok_new.
  - vm_compute. discriminate.
Defined.

(** Client 2, with the pattern [*], gets the message twice, client 1 once. *)
Lemma pattern_message_twice :
  match onSharedBackendTraffic map_to_list (concat (map frame_bytes news_frames)) two_subscribers with
  | Ok (h', _, _) => map fst (drop (length (hub_out two_subscribers)) (hub_out h')) = [1; 2; 2]%nat
  | _ => False
  end.
Proof. by vm_compute. Qed.

(** C16: the subscription tables stay consistent under every operation of the hub: at
    most one entry per client and pattern, each known in the client's own set; and a
    client that was removed when its connection closed has no entry left, so no
    message is written to it any more. *)
Theorem hub_invariant h :
  hub_ok h ->
  (forall masters reg c req, hub_ok (subscribe masters reg c req h)) /\
  (forall c req, hub_ok (unsubscribe c req h)) /\
  (forall c, hub_ok (removeClient c h) /\ forall p, ~ has_entry c p (subs (removeClient c h))) /\
  (forall u pw, hub_ok (onSharedBackendOpen u pw h)) /\
  (forall order, hub_ok (onSharedBackendClose order h) /\
     forall c p, ~ has_entry c p (subs (onSharedBackendClose order h))) /\
  hub_ok (dial_failed h).
Proof.
  intros Hh. split; [|split; [|split; [|split; [|split]]]].
  - intros. by apply subscribe_ok.
  - intros. by apply unsubscribe_ok.
  - intros. by apply removeClient_ok.
  - intros. by apply open_ok.
  - intros order. split; [apply hub_close_ok|intros c p Hc; by apply not_elem_of_nil in Hc].
  - by revert Hh; apply hub_ok_same.
Qed.

Lemma hub_invariant_witness :
  hub_ok (removeClient 1 two_subscribers) /\ forall p, ~ has_entry 1 p (subs (removeClient 1 two_subscribers)).
Proof.
  apply (proj1 (proj2 (proj2 (hub_invariant two_subscribers (subscribe_ok _ _ _ _ _ (subscribe_ok _ _ _ _ _ (hub_ok_new ∅)))))) 1%nat).
Defined.

(** UNSUBSCRIBE of one client ends the subscription of all: it is forwarded to the
    shared connection, so the backend stops sending the channel although another
    client is still subscribed; and the confirmation goes to the clients that are still
    subscribed, not to the one that asked. *)
Lemma unsubscribe_shared `{GoGlob} `{GoUnicode} order c c2 ch h :
  hub_ok h -> backendConn h = true -> c <> c2 -> subscribed c2 ch false h ->
  let h' := unsubscribe c (sub_req "UNSUBSCRIBE" [ch]) h in
  hub_wire h' = hub_wire h ++ EncodeCommandBytes [bs "UNSUBSCRIBE"; ch] /\
  subscribed c2 ch false h' /\
  (forall n, exists h'' ms, dispatchMessage order (array_value [bulk (bs "unsubscribe"); bulk ch; Some (IntValue n)]) h'
     = Ok h'' /\ hub_out h'' = hub_out h' ++ ms /\ c2 ∈ ms.*1 /\ c ∉ ms.*1).
Proof.
  intros Hh Hb Hne Hs h'.
  assert (Hsubs : subs h' = drop_entry c ch (subs h) /\ hub_wire h' = hub_wire h ++ EncodeCommandBytes [bs "UNSUBSCRIBE"; ch]).
  { unfold h', unsubscribe. cbn [sub_req Args length Nat.eqb drop foldl].
    destruct (size _ =? 0)%nat; cbn; unfold forwardToBackend; cbn; rewrite Hb; done. }
  destruct Hsubs as [Hsub Hw]. split; [exact Hw|].
  assert (Hs' : subscribed c2 ch false h').
  { destruct Hs as (e & He & Hc & Hg). exists e. split; [|done]. rewrite Hsub, entries_drop, decide_True by done.
    clear -He Hc Hne. revert He. generalize (entries_of ch (subs h)). induction l as [|x l IH]; [done|]. cbn.
    intros [->|Hx]%elem_of_cons.
    - destruct (Nat.eqb_spec (e_client x) c); [congruence|by left].
    - destruct (e_client x =? c)%nat; [done|right; auto]. }
  split; [exact Hs'|]. intros n.
  eexists _, (to_channel ch (EncodeValue (Some (array_value [bulk (bs "unsubscribe"); bulk ch; Some (IntValue n)]))) (subs h')).
  split; [unfold dispatchMessage; cbn; reflexivity|]. split; [by rewrite write_all_out|].
  rewrite (to_channel_tags _ _ None). split.
  - apply list_elem_of_fmap. exists (render ch (EncodeValue (Some (array_value [bulk (bs "unsubscribe"); bulk ch; Some (IntValue n)]))) None (c2, None)).
    split; [done|]. apply list_elem_of_fmap. exists (c2, None). split; [done|]. by apply channel_tags_spec.
  - intros (x & Hx & (t & -> & Ht)%list_elem_of_fmap)%list_elem_of_fmap. cbn in Hx. destruct t as [c' t]. cbn in Hx. subst c'.
    apply channel_tags_spec in Ht as (_ & e & He & Hc & _).
    rewrite Hsub, entries_drop, decide_True in He by done.
    destruct (table_entries (subs h) ch (ho_entries h Hh)) as [Hn _]. apply (remove_entry_gone c _ Hn).
    apply list_elem_of_fmap. by exists e.
Qed.

Definition shared_news : pubsubHub :=
  onSharedBackendOpen [] [] (subscribe [] (fun _ => true) 2 (sub_req "SUBSCRIBE" [bs "news"])
    (subscribe [] (fun _ => true) 1 (sub_req "SUBSCRIBE" [bs "news"]) (newPubsubHub ∅))).

Lemma unsubscribe_shared_witness :
  let h' := unsubscribe 1 (sub_req "UNSUBSCRIBE" [bs "news"]) shared_news in
  hub_wire h' = hub_wire shared_news ++ EncodeCommandBytes [bs "UNSUBSCRIBE"; bs "news"] /\
  subscribed 2 (bs "news") false h' /\
  (forall n, exists h'' ms,
     dispatchMessage map_to_list (array_value [bulk (bs "unsubscribe"); bulk (bs "news"); Some (IntValue n)]) h' = Ok h'' /\
     hub_out h'' = hub_out h' ++ ms /\ 2%nat ∈ ms.*1 /\ 1%nat ∉ ms.*1).
Proof.
  apply (unsubscribe_shared map_to_list 1 2 (bs "news") shared_news).
  - apply open_ok, subscribe_ok, subscribe_ok, hub_ok_new.
  - vm_compute. reflexivity.
  - discriminate.
  - exists (mkEntry 2 (bs "news") false). split; [|split; reflexivity].
    apply list_elem_of_In. vm_compute. right. left. reflexivity.
Defined.
