(* ===== verification/Handler.v ===== *)
(** * Handler: the state machine of a client connection

    Model of the request handlers of [pkg/engine]: [handler.go] (callbacks, dedicated
    connections), [handler_routing.go] (dispatch and the commands the proxy answers
    itself), [handler_tx.go] (WATCH, MULTI, EXEC), [handler_blocking.go],
    [blocking_pool.go] and [handler_pubsub.go].

    [proxy] is the state of one event loop: the multiplexer with the clients' response
    queues and the work of the goroutine pool ([p_h], see [Routing]), the hub with the
    clients' [state] fields ([p_hub], see [Hub]), the other fields of the clients'
    contexts ([p_ctx]), the dedicated backend connections ([p_back]) and the pool of idle
    ones for blocking commands ([p_idle]).

    A closure that waits for a reply of a dedicated connection ([backendPending.respond])
    is a constructor of [respond]; [run_respond] is its body.  A dial whose address cannot
    be resolved or registered fails at once ([dial_error], as in [Mux]); otherwise gnet
    later calls [onBackendOpen] or reports the failure ([dialFailed]).  [EventLoop.Close]
    runs the close callback of the connection before it returns.  No code creates a
    connection with [isSubConn] that is not the hub's, so [subBackend] and
    [pendingSubReq] stay nil and are left out. *)

From S2P Require Import Prelude GoStd Config Crc16 Value RespParse Command Topology RespQueue Mux Router Routing Hub.

Inductive respond :=
| RAuth
| RAuthThen (req : option Request)
| RWatchOpen (req : Request) (slot : nat)
| RWatch (slot : nat)
| RIgnore
| RMulti (queue : list Request) (slot : nat)
| RExec (slot : nat)
| RBlocking (req : Request).

Record clientCtx := mkCtx {
  c_id : Z;
  authenticated : bool;
  clientName : bytes;
  txQueue : list Request;
  txErr : bool;
  watchAddr : bytes;
  watchBackend : option nat;
  multiBackend : option nat;
  blockingBackend : option nat;
  blockingSlotIdx : nat;
  pendingCmds : list Request;
  pendingWatchReq : option Request;
  pendingWatchSlot : nat;
}.

(** [b_start] is what the goroutine of [dialMultiBackend] will do: queue and slot. *)
Record backendCtx := mkBack {
  b_client : nat;
  b_addr : bytes;
  isBlockingConn : bool;
  isMultiConn : bool;
  isClosed : bool;
  pendingBlockingReq : option Request;
  b_pending : list (nat * respond);
  b_start : option (list Request * nat);
  b_wire : bytes;
}.

Record proxy := mkProxy {
  p_h : hstate;
  p_hub : pubsubHub;
  p_ctx : gmap nat clientCtx;
  p_back : list backendCtx;
  p_idle : gmap bytes (list nat);
  p_reuses : Z;
  numClients : Z;
  maxClients : Z;
  clientIDSeq : Z;
  p_commands : Z;
}.

(** ** Field updates *)

Definition upd_h (f : hstate -> hstate) (st : proxy) : proxy :=
  mkProxy (f (p_h st)) (p_hub st) (p_ctx st) (p_back st) (p_idle st) (p_reuses st) (numClients st)
    (maxClients st) (clientIDSeq st) (p_commands st).
Definition upd_loop (f : evloop -> evloop) (st : proxy) : proxy :=
  upd_h (fun h => with_loop (f (h_loop h)) h) st.
Definition upd_hub (f : pubsubHub -> pubsubHub) (st : proxy) : proxy :=
  mkProxy (p_h st) (f (p_hub st)) (p_ctx st) (p_back st) (p_idle st) (p_reuses st) (numClients st)
    (maxClients st) (clientIDSeq st) (p_commands st).
Definition upd_ctxs (f : gmap nat clientCtx -> gmap nat clientCtx) (st : proxy) : proxy :=
  mkProxy (p_h st) (p_hub st) (f (p_ctx st)) (p_back st) (p_idle st) (p_reuses st) (numClients st)
    (maxClients st) (clientIDSeq st) (p_commands st).
Definition upd_back (f : list backendCtx -> list backendCtx) (st : proxy) : proxy :=
  mkProxy (p_h st) (p_hub st) (p_ctx st) (f (p_back st)) (p_idle st) (p_reuses st) (numClients st)
    (maxClients st) (clientIDSeq st) (p_commands st).
Definition set_idle (m : gmap bytes (list nat)) (reuses : Z) (st : proxy) : proxy :=
  mkProxy (p_h st) (p_hub st) (p_ctx st) (p_back st) m reuses (numClients st) (maxClients st) (clientIDSeq st)
    (p_commands st).
Definition set_counts (n m s k : Z) (st : proxy) : proxy :=
  mkProxy (p_h st) (p_hub st) (p_ctx st) (p_back st) (p_idle st) (p_reuses st) n m s k.

Definition upd_ctx (c : nat) (f : clientCtx -> clientCtx) : proxy -> proxy := upd_ctxs (alter f c).
Definition upd_b (b : nat) (f : backendCtx -> backendCtx) : proxy -> proxy := upd_back (alter f b).

Definition set_auth (a : bool) (x : clientCtx) := mkCtx (c_id x) a (clientName x) (txQueue x) (txErr x)
  (watchAddr x) (watchBackend x) (multiBackend x) (blockingBackend x) (blockingSlotIdx x) (pendingCmds x)
  (pendingWatchReq x) (pendingWatchSlot x).
Definition set_name (n : bytes) (x : clientCtx) := mkCtx (c_id x) (authenticated x) n (txQueue x) (txErr x)
  (watchAddr x) (watchBackend x) (multiBackend x) (blockingBackend x) (blockingSlotIdx x) (pendingCmds x)
  (pendingWatchReq x) (pendingWatchSlot x).
Definition set_tx (q : list Request) (e : bool) (x : clientCtx) := mkCtx (c_id x) (authenticated x) (clientName x)
  q e (watchAddr x) (watchBackend x) (multiBackend x) (blockingBackend x) (blockingSlotIdx x) (pendingCmds x)
  (pendingWatchReq x) (pendingWatchSlot x).
Definition set_watch (a : bytes) (w : option nat) (x : clientCtx) := mkCtx (c_id x) (authenticated x) (clientName x)
  (txQueue x) (txErr x) a w (multiBackend x) (blockingBackend x) (blockingSlotIdx x) (pendingCmds x)
  (pendingWatchReq x) (pendingWatchSlot x).
Definition set_multi (m : option nat) (x : clientCtx) := mkCtx (c_id x) (authenticated x) (clientName x)
  (txQueue x) (txErr x) (watchAddr x) (watchBackend x) m (blockingBackend x) (blockingSlotIdx x) (pendingCmds x)
  (pendingWatchReq x) (pendingWatchSlot x).
Definition set_blocking (b : option nat) (slot : nat) (x : clientCtx) := mkCtx (c_id x) (authenticated x)
  (clientName x) (txQueue x) (txErr x) (watchAddr x) (watchBackend x) (multiBackend x) b slot (pendingCmds x)
  (pendingWatchReq x) (pendingWatchSlot x).
Definition set_cmds (cmds : list Request) (x : clientCtx) := mkCtx (c_id x) (authenticated x) (clientName x)
  (txQueue x) (txErr x) (watchAddr x) (watchBackend x) (multiBackend x) (blockingBackend x) (blockingSlotIdx x)
  cmds (pendingWatchReq x) (pendingWatchSlot x).
Definition set_watch_req (r : option Request) (slot : nat) (x : clientCtx) := mkCtx (c_id x) (authenticated x)
  (clientName x) (txQueue x) (txErr x) (watchAddr x) (watchBackend x) (multiBackend x) (blockingBackend x)
  (blockingSlotIdx x) (pendingCmds x) r slot.

Definition set_b (client : nat) (addr : bytes) (closed : bool) (breq : option Request) (ps : list (nat * respond))
    (start : option (list Request * nat)) (wire : bytes) (x : backendCtx) : backendCtx :=
  mkBack client addr (isBlockingConn x) (isMultiConn x) closed breq ps start wire.

(** ** Reading and writing *)

Definition new_ctx (id : Z) (auth : bool) : clientCtx :=
  mkCtx id auth [] [] false [] None None None 0 [] None 0.

(** The context of a client; the handlers run for clients that have one. *)
Definition ctx_of (c : nat) (st : proxy) : clientCtx := default (new_ctx 0 false) (p_ctx st !! c).

Definition state_of (c : nat) (st : proxy) : clientState := default stateNormal (states (p_hub st) !! c).
Definition to_state (c : nat) (s : clientState) : proxy -> proxy := upd_hub (set_state c s).

Definition loop_of (st : proxy) : evloop := h_loop (p_h st).
Definition topo_of (st : proxy) : Topology := topology (loop_of st).

(** [writeImmediate] *)
Definition wi (c : nat) (d : bytes) : proxy -> proxy := upd_h (reply_now c d).

(** [c.Write], past the response queue. *)
Definition write_direct (c : nat) (d : bytes) : proxy -> proxy :=
  upd_loop (upd_clients (alter (fun q => mkResp (respQueue q) (respBase q) (out q ++ d) (iov q)) c)).

(** [fillResponseSlotInLoop] *)
Definition fill (c slot : nat) (d : bytes) : proxy -> proxy := upd_loop (run_task (mkTask c slot d)).

(** [fillResponseSlot], which posts the fill. *)
Definition post_fill (c slot : nat) (d : bytes) : proxy -> proxy :=
  upd_loop (upd_tasks (fun ts => ts ++ [mkTask c slot d])).

Definition alloc_slot (c : nat) (st : proxy) : nat * proxy :=
  let '(slot, h) := alloc c (p_h st) in (slot, upd_h (fun _ => h) st).

Definition answer_err (c : nat) (msg : bytes) (st : proxy) : outcome (proxy * action) :=
  Ok (wi c (EncodeError msg) st, ActNone).
Definition answer_ok (c : nat) (msg : bytes) (st : proxy) : outcome (proxy * action) :=
  Ok (wi c (EncodeSimpleString msg) st, ActNone).
Definition answer_bulk (c : nat) (d : bytes) (st : proxy) : outcome (proxy * action) :=
  Ok (wi c (EncodeBulkString d) st, ActNone).

Definition back (b : nat) (st : proxy) : option backendCtx := p_back st !! b.

Definition b_write (b : nat) (d : bytes) : proxy -> proxy :=
  upd_b b (fun x => set_b (b_client x) (b_addr x) (isClosed x) (pendingBlockingReq x) (b_pending x) (b_start x)
                      (b_wire x ++ d) x).
Definition push_respond (b c : nat) (r : respond) : proxy -> proxy :=
  upd_b b (fun x => set_b (b_client x) (b_addr x) (isClosed x) (pendingBlockingReq x) (b_pending x ++ [(c, r)])
                      (b_start x) (b_wire x) x).

(** A command and what to do with its reply. *)
Definition ask_back (b c : nat) (args : list bytes) (r : respond) (st : proxy) : proxy :=
  b_write b (EncodeCommandBytes args) (push_respond b c r st).

Definition is_back (b : nat) (o : option nat) : bool := match o with Some b' => (b' =? b)%nat | None => false end.

(** The fields of the client's context that point to the connection are cleared. *)
Definition unlink (b : nat) (x : clientCtx) : clientCtx :=
  let x := if is_back b (watchBackend x) then set_watch (watchAddr x) None x else x in
  let x := if is_back b (multiBackend x) then set_multi None x else x in
  if is_back b (blockingBackend x) then set_blocking None (blockingSlotIdx x) x else x.

Definition mark_closed (b : nat) : proxy -> proxy :=
  upd_b b (fun x => set_b (b_client x) (b_addr x) true (pendingBlockingReq x) (b_pending x) (b_start x) (b_wire x) x).

(** [EventLoop.Close] of a dedicated connection, with its close callback.  The branch of
    the callback for a client in [stateBlocking] is not reached from here: the callers
    have left that state or cleared [blockingBackend] before (see [onBackendClose]). *)
Definition close_conn (b : nat) (st : proxy) : proxy :=
  match back b st with
  | Some x => if isClosed x then st else upd_ctx (b_client x) (unlink b) (mark_closed b st)
  | None => st
  end.

Definition close_opt (o : option nat) (st : proxy) : proxy :=
  match o with Some b => close_conn b st | None => st end.

(** ** Dedicated connections *)

(** What the handler knows of its surroundings: the configuration and the address the
    server listens on ([SetListenAddr]). *)
Record config := mkConfig {
  cfg_of :> Config;
  listenAddr : bytes;
}.

Section handlers.
Context `{GoGlob} `{GoUnicode} (cfg : config).
Context (dial_error : nat -> bytes -> option bytes).
Context (register_ok : bytes -> bool).
(** The address of a client, the connections the pools and pipelines have to a node, the
    text of the statistics. *)
Context (remote_addr : nat -> bytes) (pool_conns : bytes -> Z) (stats_text : bytes).

(** A new dedicated connection, or the error of its dial. *)
Definition dial_dedicated (addr : bytes) (x : backendCtx) (st : proxy) : option bytes * proxy :=
  let n := length (dials (loop_of st)) in
  let st := upd_loop (add_dial addr) st in
  match dial_error n addr with
  | Some msg => (Some msg, st)
  | None => (None, upd_back (fun l => l ++ [x]) st)
  end.

Definition dialDedicatedBackend (c : nat) (addr : bytes) (st : proxy) : proxy :=
  match dial_dedicated addr (mkBack c addr false false false None [] None []) st with
  | (Some msg, st) => fill c (pendingWatchSlot (ctx_of c st)) (EncodeError msg) st
  | (None, st) => st
  end.

Definition dialMultiBackend (c : nat) (addr : bytes) (queue : list Request) (slot : nat) (st : proxy) : proxy :=
  match dial_dedicated addr (mkBack c addr false true false None [] (Some (queue, slot)) []) st with
  | (Some msg, st) => post_fill c slot (EncodeError msg) st
  | (None, st) => st
  end.

Definition authDedicatedConn (b c : nat) (r : respond) (st : proxy) : proxy :=
  b_write b (auth_command (Username cfg) (Password cfg)) (push_respond b c r st).

Definition has_password : bool := negb (bytes_eqb (Password cfg) []).

(** [blockingConnPool.get] until a connection that is still open is found, and
    [blockingConnPool.put]. *)
Definition blockingPoolCap : nat := 10.

Fixpoint pool_pop (l : list nat) (st : proxy) : option nat * list nat * Z :=
  match l with
  | [] => (None, [], 0)
  | b :: l' =>
      match back b st with
      | Some x => if isClosed x then let '(r, rest, n) := pool_pop l' st in (r, rest, n + 1) else (Some b, l', 1)
      | None => let '(r, rest, n) := pool_pop l' st in (r, rest, n + 1)
      end
  end.

Definition pool_put (addr : bytes) (b : nat) (st : proxy) : option proxy :=
  let l := default [] (p_idle st !! addr) in
  if (blockingPoolCap <=? length l)%nat then None
  else Some (set_idle (<[addr := l ++ [b]]> (p_idle st)) (p_reuses st) st).

(** [blockingConnPool.size] *)
Definition pool_size (idle : gmap bytes (list nat)) : nat := map_fold (fun _ l n => (n + length l)%nat) 0%nat idle.

(** An idle connection that is open is given to client [c]. *)
Definition reuseBlockingConn (b c : nat) (req : Request) (st : proxy) : proxy :=
  let st := upd_b b (fun x => set_b c (b_addr x) (isClosed x) (pendingBlockingReq x) [] (b_start x) (b_wire x) x) st in
  let st := upd_ctx c (fun x => set_blocking (Some b) (blockingSlotIdx x) x) st in
  ask_back b c (Args req) (RBlocking req) st.

(** [get] takes the last idle connection; [reuseBlockingConn] goes on to the next one
    when it is closed, and dials when there is none left. *)
Definition dialBlockingBackend (c : nat) (addr : bytes) (req : Request) (st : proxy) : proxy :=
  let '(idle, rest, n) := pool_pop (rev (default [] (p_idle st !! addr))) st in
  let st := set_idle (<[addr := rev rest]> (p_idle st)) (p_reuses st + n) st in
  match idle with
  | Some b => reuseBlockingConn b c req st
  | None =>
      match dial_dedicated addr (mkBack c addr true false false (Some req) [] None []) st with
      | (Some msg, st) => to_state c stateNormal (fill c (blockingSlotIdx (ctx_of c st)) (EncodeError msg) st)
      | (None, st) => st
      end
  end.

Definition returnBlockingConn (b : nat) (st : proxy) : proxy :=
  match back b st with
  | None => st
  | Some x =>
      match b_pending x with
      | _ :: _ => close_conn b st
      | [] => match pool_put (b_addr x) b st with Some st => st | None => close_conn b st end
      end
  end.

(** ** Transactions *)

Definition resetClientState (c : nat) (st : proxy) : proxy :=
  let st := to_state c stateNormal st in
  let st := upd_ctx c (set_tx [] false) st in
  let x := ctx_of c st in
  let st := match watchBackend x with
            | Some b => upd_ctx c (set_watch [] None) (close_conn b st)
            | None => st
            end in
  let st := upd_ctx c (set_multi None) (close_opt (multiBackend x) st) in
  let st := upd_ctx c (fun x => set_blocking None (blockingSlotIdx x) x) (close_opt (blockingBackend x) st) in
  upd_ctx c (set_cmds []) st.

(** All keys in the slot of the first one. *)
Definition same_slot (keys : list bytes) : option Z :=
  match keys with
  | [] => None
  | k :: ks => if forallb (fun k' => HashSlot k' =? HashSlot k) ks then Some (HashSlot k) else None
  end.

Definition crossslot : bytes := bs "CROSSSLOT Keys in request don't hash to the same slot".
Definition no_node_msg (slot : Z) : bytes := bs "ERR no node for slot " ++ FormatInt slot.
Definition wrong_args_msg (cmd : bytes) : bytes := bs "ERR wrong number of arguments for '" ++ cmd ++ bs "' command".

Definition handleWATCH (c : nat) (req : Request) (st : proxy) : outcome (proxy * action) :=
  if (length (Args req) <? 2)%nat then answer_err c (wrong_args_msg (bs "watch")) st else
  match state_of c st with
  | stateMulti | stateWatchMulti => answer_err c (bs "ERR WATCH inside MULTI is not allowed") st
  | _ =>
      match same_slot (drop 1 (Args req)) with
      | None => answer_err c crossslot st
      | Some slot =>
          match GetNodeForSlot slot (topo_of st) with
          | None => answer_err c (no_node_msg slot) st
          | Some addr =>
              let '(slotIdx, st) := alloc_slot c st in
              let x := ctx_of c st in
              match watchBackend x with
              | Some b =>
                  if bytes_eqb (watchAddr x) addr then Ok (ask_back b c (Args req) (RWatch slotIdx) st, ActNone)
                  else
                    let st := upd_ctx c (fun x => set_watch (watchAddr x) None x) (close_conn b st) in
                    let st := upd_ctx c (fun x => set_watch_req (Some req) slotIdx (set_watch addr (watchBackend x) x)) st in
                    Ok (dialDedicatedBackend c addr st, ActNone)
              | None =>
                  let st := upd_ctx c (fun x => set_watch_req (Some req) slotIdx (set_watch addr (watchBackend x) x)) st in
                  Ok (dialDedicatedBackend c addr st, ActNone)
              end
          end
      end
  end.

Definition handleUNWATCH (c : nat) (st : proxy) : outcome (proxy * action) :=
  let st := match watchBackend (ctx_of c st) with
            | Some b => upd_ctx c (set_watch [] None) (close_conn b (ask_back b c [bs "UNWATCH"] RIgnore st))
            | None => st
            end in
  answer_ok c (bs "OK") (to_state c stateNormal st).

(** The target of a transaction. *)
Fixpoint target_slot (queue : list Request) (target : option Z) : option (option Z) :=
  match queue with
  | [] => Some target
  | req :: queue' =>
      match GetFirstKeyFromRequest req with
      | None => target_slot queue' target
      | Some key =>
          match target with
          | None => target_slot queue' (Some (HashSlot key))
          | Some t => if HashSlot key =? t then target_slot queue' target else None
          end
      end
  end.

Definition resolveMultiSlot (queue : list Request) (t : Topology) : bytes + bytes :=
  match target_slot queue None with
  | None => inl (bs "CROSSSLOT Keys in MULTI transaction don't hash to the same slot")
  | Some None =>
      match masters (snap t) with
      | [] => inl (bs "ERR no cluster nodes available")
      | m :: _ => inr m
      end
  | Some (Some slot) =>
      match GetNodeForSlot slot t with
      | None => inl (no_node_msg slot)
      | Some addr => inr addr
      end
  end.

(** The transaction state is left; [f] says what becomes of the connections. *)
Definition end_tx (c : nat) (f : clientCtx -> clientCtx) (st : proxy) : proxy :=
  upd_ctx c (fun x => f (set_tx [] false x)) (to_state c stateNormal st).

Definition execMultiOnDedicatedConn (c b : nat) (closeAfter : bool) (st : proxy) : outcome (proxy * action) :=
  let queue := txQueue (ctx_of c st) in
  let st := end_tx c (if closeAfter then set_watch [] None else set_multi None) st in
  let '(slot, st) := alloc_slot c st in
  Ok (ask_back b c [bs "MULTI"] (RMulti queue slot) st, ActNone).

Definition close_tx_conns (c : nat) (st : proxy) : proxy :=
  let x := ctx_of c st in
  let st := match watchBackend x with
            | Some b => upd_ctx c (set_watch [] None) (close_conn b st)
            | None => st
            end in
  upd_ctx c (set_multi None) (close_opt (multiBackend x) st).

Definition empty_array : bytes := EncodeValue (Some (array_value [])).

Definition execMulti (c : nat) (st : proxy) : outcome (proxy * action) :=
  let x := ctx_of c st in
  if txErr x then
    answer_err c (bs "EXECABORT Transaction discarded because of previous errors.")
      (close_tx_conns c (end_tx c id st))
  else
  match bool_decide (state_of c st = stateWatchMulti), watchBackend x with
  | true, Some b => execMultiOnDedicatedConn c b true st
  | _, _ =>
      let queue := txQueue x in
      if (length queue =? 0)%nat then Ok (write_direct c empty_array (end_tx c id st), ActNone) else
      match resolveMultiSlot queue (topo_of st) with
      | inl msg => answer_err c msg (end_tx c id st)
      | inr addr =>
          match multiBackend x with
          | Some b =>
              if bool_decide (b_addr <$> back b st = Some addr) then execMultiOnDedicatedConn c b false st
              else
                let st := upd_ctx c (set_multi None) (close_conn b st) in
                let st := upd_ctx c (set_tx [] false) st in
                let '(slot, st) := alloc_slot c st in
                Ok (dialMultiBackend c addr queue slot (to_state c stateNormal st), ActNone)
          | None =>
              let st := upd_ctx c (set_tx [] false) st in
              let '(slot, st) := alloc_slot c st in
              Ok (dialMultiBackend c addr queue slot (to_state c stateNormal st), ActNone)
          end
      end
  end.

Definition discardMulti (c : nat) (st : proxy) : outcome (proxy * action) :=
  answer_ok c (bs "OK") (end_tx c id (close_tx_conns c st)).

Definition reset_cmd (c : nat) (st : proxy) : outcome (proxy * action) :=
  answer_ok c (bs "RESET") (resetClientState c st).
Definition quit_cmd (c : nat) (st : proxy) : outcome (proxy * action) :=
  Ok (write_direct c (EncodeSimpleString (bs "OK")) st, ActClose).

Definition unknown_msg (name : bytes) : bytes := bs "ERR unknown command '" ++ ToLower name ++ bs "'".

Definition handleInMulti (c : nat) (req : Request) (name : bytes) (st : proxy) : outcome (proxy * action) :=
  if bytes_eqb name (bs "EXEC") then execMulti c st
  else if bytes_eqb name (bs "DISCARD") then discardMulti c st
  else if bytes_eqb name (bs "MULTI") then
    match state_of c st with
    | stateWatch => answer_ok c (bs "OK") (upd_ctx c (set_tx [] false) (to_state c stateWatchMulti st))
    | _ => answer_err c (bs "ERR MULTI calls can not be nested") st
    end
  else if bytes_eqb name (bs "WATCH") then answer_err c (bs "ERR WATCH inside MULTI is not allowed") st
  else if bytes_eqb name (bs "UNWATCH") then answer_err c (bs "ERR UNWATCH not allowed inside MULTI") st
  else if bytes_eqb name (bs "RESET") then reset_cmd c st
  else if bytes_eqb name (bs "QUIT") then quit_cmd c st
  else
    let fail msg := answer_err c msg (upd_ctx c (fun x => set_tx (txQueue x) true x) st) in
    match GetCmdInfo name with
    | None => fail (unknown_msg name)
    | Some info =>
        if IsNotAllowed (Some info)
        then fail (bs "ERR command '" ++ ToLower name ++ bs "' is not supported in cluster proxy")
        else answer_ok c (bs "QUEUED") (upd_ctx c (fun x => set_tx (txQueue x ++ [req]) (txErr x) x) st)
    end.

(** ** Blocking commands *)

Fixpoint extractXREADKeys (args : list bytes) : list bytes :=
  match args with
  | [] => []
  | a :: rest =>
      if EqualFold a (bs "STREAMS") then
        if (length rest =? 0)%nat || negb (Nat.even (length rest)) then [] else take (length rest / 2) rest
      else extractXREADKeys rest
  end.

Definition one_of (name : bytes) (l : list string) : bool := existsb (fun s => bytes_eqb name (bs s)) l.

(** A number of keys near 2^63 makes the end of the slice negative. *)
Definition extractBlockingKeys (req : Request) : outcome (list bytes) :=
  let args := Args req in
  let n := length args in
  if one_of (Cmd req) ["BLPOP"; "BRPOP"; "BZPOPMIN"; "BZPOPMAX"]%string then
    Ok (if (n <? 3)%nat then [] else drop 1 (take (n - 1) args))
  else if one_of (Cmd req) ["BLMOVE"]%string then
    Ok (if (n <? 6)%nat then [] else drop 1 (take 3 args))
  else if one_of (Cmd req) ["BLMPOP"; "BZMPOP"]%string then
    if (n <? 5)%nat then Ok [] else
    match Atoi (default [] (args !! 2%nat)) with
    | Some k =>
        if k <=? 0 then Ok [] else
        let e := wrap64 (3 + k) in
        if Z.of_nat n <=? e then Ok [] else
        if e <? 3 then Panic else Ok (drop 3 (take (Z.to_nat e) args))
    | None => Ok []
    end
  else Ok (if one_of (Cmd req) ["XREAD"; "XREADGROUP"]%string then extractXREADKeys args else []).

Definition dispatchBlockingCommand (c : nat) (req : Request) (st : proxy) : outcome (proxy * action) :=
  keys ← extractBlockingKeys req;
  if (length keys =? 0)%nat then answer_err c (wrong_args_msg (ToLower (Cmd req))) st else
  match same_slot keys with
  | None => answer_err c crossslot st
  | Some slot =>
      match GetNodeForSlot slot (topo_of st) with
      | None => answer_err c (no_node_msg slot) st
      | Some addr =>
          let '(slotIdx, st) := alloc_slot c st in
          let st := to_state c stateBlocking st in
          let st := upd_ctx c (fun x => set_blocking (blockingBackend x) slotIdx x) st in
          Ok (dialBlockingBackend c addr req st, ActNone)
      end
  end.

(** ** Commands the proxy answers itself *)

Definition handleAUTH (c : nat) (args : list bytes) (st : proxy) : proxy :=
  match ClientPassword cfg with
  | [] => wi c (EncodeError (bs "ERR Client sent AUTH, but no password is set. Did you mean ACL SETUSER with >password?")) st
  | _ =>
      let check provided :=
        if bytes_eqb provided (ClientPassword cfg)
        then wi c (EncodeSimpleString (bs "OK")) (upd_ctx c (set_auth true) st)
        else wi c (EncodeError (bs "WRONGPASS invalid username-password pair or user is disabled."))
               (upd_ctx c (set_auth false) st) in
      match args with
      | [_; p] => check p
      | [_; _; p] => check p
      | _ => wi c (EncodeError (wrong_args_msg (bs "auth"))) st
      end
  end.

(** The options of HELLO; [inl] when it has been answered. *)
Fixpoint hello_options (fuel : nat) (c : nat) (opts : list bytes) (st : proxy) : proxy + proxy :=
  match fuel with
  | O => inr st
  | S fuel =>
      match opts with
      | [] => inr st
      | o :: opts =>
          if bytes_eqb (ToUpper o) (bs "AUTH") then
            match opts with
            | u :: p :: opts =>
                let st := handleAUTH c [bs "AUTH"; u; p] st in
                if authenticated (ctx_of c st) then hello_options fuel c opts st else inl st
            | _ => inl (wi c (EncodeError (bs "ERR Syntax error in HELLO option 'auth'")) st)
            end
          else if bytes_eqb (ToUpper o) (bs "SETNAME") then
            match opts with
            | n :: opts => hello_options fuel c opts (upd_ctx c (set_name n) st)
            | [] => inl (wi c (EncodeError (bs "ERR Syntax error in HELLO option 'setname'")) st)
            end
          else hello_options fuel c opts st
      end
  end.

Definition noauth : bytes := bs "NOAUTH Authentication required.".
Definition proxyAddr : bytes := match listenAddr cfg with [] => bs "127.0.0.1:7777" | a => a end.

Definition hello_reply (id : Z) : Value :=
  let b s := Some (BulkValue (Some (bs s))) in
  array_value [b "server"; b "pluster"; b "version"; b "1.0.0"; b "proto"; Some (IntValue 2); b "id"; Some (IntValue (wrap64 id));
    b "mode"; b "cluster"; b "role"; b "master"; b "modules"; Some (array_value [])]%string.

Definition handleHELLO (c : nat) (req : Request) (st : proxy) : outcome (proxy * action) :=
  let finish st :=
    if authenticated (ctx_of c st)
    then Ok (wi c (EncodeValue (Some (hello_reply (c_id (ctx_of c st))))) st, ActNone)
    else answer_err c noauth st in
  match drop 1 (Args req) with
  | [] => finish st
  | v :: opts =>
      if bytes_eqb v (bs "3") then answer_err c (bs "NOPROTO unsupported protocol version") st else
      if negb (bytes_eqb v (bs "2")) && negb (bytes_eqb v []) then
        answer_err c (bs "ERR Protocol version must be 2 or 3") st
      else
        match hello_options (S (length opts)) c opts st with
        | inl st => Ok (st, ActNone)
        | inr st => finish st
        end
  end.

Definition nodes_text : bytes :=
  bs "0000000000000000000000000000000000000000 " ++ proxyAddr ++ bs "@0 myself,master - 0 0 1 connected 0-16383" ++ [LF].

(** Addresses without connections are left out. *)
Definition MuxConnCountByAddr (counts : gmap bytes Z) : gmap bytes Z := filter (fun kv => 0 < snd kv) counts.

Definition total_conns (st : proxy) (addr : bytes) : Z :=
  default 0 (MuxConnCountByAddr (muxConnCounts (loop_of st)) !! addr) + pool_conns addr.

Definition connection_text (st : proxy) : bytes :=
  concat (map (fun m =>
    bs "master_" ++ m ++ bs " connection: " ++ FormatInt (total_conns st m) ++ [LF] ++
    concat (map (fun r => bs " slave_node_" ++ r ++ bs " connection: " ++ FormatInt (total_conns st r) ++ [LF])
      (replicas_of m (snap (topo_of st))))) (masters (snap (topo_of st)))).

Definition via_router (c : nat) (j : job) (st : proxy) : outcome (proxy * action) :=
  Ok (upd_h (submitToRouter c j) st, ActNone).

Definition handleCLUSTER (c : nat) (req : Request) (st : proxy) : outcome (proxy * action) :=
  match Args req with
  | _ :: a :: _ =>
      let sub := ToUpper a in
      if bytes_eqb sub (bs "NODES") then answer_bulk c nodes_text st
      else if one_of sub ["SLOTS"; "INFO"; "MYID"; "SHARDS"; "KEYSLOT"; "COUNTKEYSINSLOT"; "GETKEYSINSLOT"; "RESET"]%string
      then via_router c (JExecute req) st
      else if bytes_eqb sub (bs "CONNECTION") then answer_bulk c (connection_text st) st
      else answer_err c (bs "ERR unknown subcommand '" ++ ToLower sub ++ bs "'. Try CLUSTER HELP.") st
  | _ => answer_err c (wrong_args_msg (bs "cluster")) st
  end.

Definition maxClientNameLen : nat := 100.

Definition handleClientCmd (c : nat) (req : Request) (st : proxy) : outcome (proxy * action) :=
  match Args req with
  | _ :: a :: rest =>
      let sub := ToUpper a in
      let x := ctx_of c st in
      if bytes_eqb sub (bs "SETNAME") then
        match rest with
        | [] => answer_err c (wrong_args_msg (bs "client|setname")) st
        | n :: _ =>
            if (maxClientNameLen <? length n)%nat
            then answer_err c (bs "ERR Client setname command name too long, maximum is 100") st
            else answer_ok c (bs "OK") (upd_ctx c (set_name n) st)
        end
      else if bytes_eqb sub (bs "GETNAME") then
        answer_bulk c (match clientName x with [] => bs "pluster-client-" ++ FormatInt (c_id x) | n => n end) st
      else if bytes_eqb sub (bs "ID") then Ok (wi c (EncodeValue (Some (IntValue (wrap64 (c_id x))))) st, ActNone)
      else if one_of sub ["INFO"; "LIST"]%string then
        answer_bulk c (bs "id=" ++ FormatInt (c_id x) ++ bs " addr=" ++ remote_addr c ++ [LF]) st
      else if one_of sub ["NO-EVICT"; "NO-TOUCH"; "CACHING"; "UNPAUSE"; "PAUSE"]%string then answer_ok c (bs "OK") st
      else answer_err c (bs "ERR unknown subcommand '" ++ sub ++ bs "' for 'client' command") st
  | _ => answer_err c (wrong_args_msg (bs "client")) st
  end.

Definition handleProxyCmd (c : nat) (req : Request) (st : proxy) : outcome (proxy * action) :=
  match Args req with
  | _ :: a :: rest =>
      let sub := ToUpper a in
      if bytes_eqb sub (bs "CONFIG") then
        match rest with
        | [] => answer_err c (wrong_args_msg (bs "proxy config")) st
        | act :: rest =>
            let act := ToUpper act in
            if bytes_eqb act (bs "GET") then
              match rest with
              | [] => answer_err c (bs "ERR wrong number of arguments") st
              | o :: _ =>
                  let opt := ToLower o in
                  if bytes_eqb opt (bs "max-clients") then
                    Ok (wi c (EncodeValue (Some (array_value [Some (BulkValue (Some (bs "max-clients")));
                                 Some (BulkValue (Some (FormatInt (maxClients st))))]))) st, ActNone)
                  else answer_err c (bs "ERR unknown option '" ++ opt ++ bs "'") st
              end
            else if bytes_eqb act (bs "SET") then
              match rest with
              | o :: v :: _ =>
                  let opt := ToLower o in
                  if bytes_eqb opt (bs "max-clients") then
                    match Atoi v with
                    | Some n =>
                        if n <? 0 then answer_err c (bs "ERR invalid value for max-clients") st
                        else answer_ok c (bs "OK") (set_counts (numClients st) n (clientIDSeq st) (p_commands st) st)
                    | None => answer_err c (bs "ERR invalid value for max-clients") st
                    end
                  else answer_err c (bs "ERR unknown option '" ++ opt ++ bs "'") st
              | _ => answer_err c (bs "ERR wrong number of arguments") st
              end
            else answer_err c (bs "ERR unknown action '" ++ act ++ bs "'") st
        end
      else if bytes_eqb sub (bs "INFO") then
        answer_bulk c (bs "proxy_version:1.0.0" ++ CRLF ++ bs "cross_slot:true" ++ CRLF ++ bs "multiplexing_api:off" ++ CRLF) st
      else if bytes_eqb sub (bs "STATS") then answer_bulk c stats_text st
      else if bytes_eqb sub (bs "NODES") then answer_bulk c nodes_text st
      else if bytes_eqb sub (bs "MULTIPLEXING") then
        match rest with
        | [] => answer_err c (wrong_args_msg (bs "proxy multiplexing")) st
        | act :: _ =>
            let act := ToUpper act in
            if bytes_eqb act (bs "STATUS") then answer_bulk c (bs "off") st
            else if bytes_eqb act (bs "OFF") then answer_ok c (bs "OK") st
            else answer_err c (bs "ERR unknown subcommand '" ++ ToLower act ++ bs "'. Try PROXY MULTIPLEXING STATUS|OFF.") st
        end
      else answer_err c (bs "ERR unknown subcommand '" ++ sub ++ bs "' for 'proxy' command") st
  | _ => answer_err c (wrong_args_msg (bs "proxy")) st
  end.

(** ** Dispatch *)

Definition hub_subscribe (c : nat) (req : Request) (st : proxy) : proxy :=
  upd_hub (subscribe (masters (snap (topo_of st))) register_ok c req) st.

Definition unguarded (name : bytes) : bool := one_of name ["AUTH"; "QUIT"; "HELLO"; "PING"]%string.

(** The commands by name, once the guards have passed. *)
Definition run_command (c : nat) (req : Request) (name : bytes) (st : proxy) : outcome (proxy * action) :=
  let cmd s := bytes_eqb name (bs s) in
  let n := length (Args req) in
  let arg1 := default [] (Args req !! 1%nat) in
  if cmd "QUIT"%string then quit_cmd c st
  else if cmd "RESET"%string then reset_cmd c st
  else if cmd "PING"%string then
    if (n =? 1)%nat then answer_ok c (bs "PONG") st else answer_bulk c arg1 st
  else if cmd "ECHO"%string then
    if negb (n =? 2)%nat then answer_err c (wrong_args_msg (bs "echo")) st else answer_bulk c arg1 st
  else if cmd "SELECT"%string then
    if negb (n =? 2)%nat then answer_err c (wrong_args_msg (bs "select")) st
    else if negb (bytes_eqb arg1 (bs "0")) then answer_err c (bs "ERR SELECT is not allowed in cluster mode") st
    else answer_ok c (bs "OK") st
  else if cmd "READONLY"%string then
    if negb (n =? 1)%nat then answer_err c (wrong_args_msg (bs "readonly")) st else answer_ok c (bs "OK") st
  else if cmd "READWRITE"%string then
    if negb (n =? 1)%nat then answer_err c (wrong_args_msg (bs "readwrite")) st else answer_ok c (bs "OK") st
  else if cmd "HELLO"%string then handleHELLO c req st
  else if cmd "AUTH"%string then Ok (handleAUTH c (Args req) st, ActNone)
  else if cmd "CLIENT"%string then handleClientCmd c req st
  else if cmd "INFO"%string then via_router c (JExecute req) st
  else if cmd "CLUSTER"%string then handleCLUSTER c req st
  else if cmd "MULTI"%string then
    answer_ok c (bs "OK") (upd_ctx c (set_tx [] false)
      (to_state c (if bool_decide (state_of c st = stateWatch) then stateWatchMulti else stateMulti) st))
  else if cmd "WATCH"%string then handleWATCH c req st
  else if cmd "UNWATCH"%string then handleUNWATCH c st
  else if cmd "DISCARD"%string then answer_err c (bs "ERR DISCARD without MULTI") st
  else if cmd "EXEC"%string then answer_err c (bs "ERR EXEC without MULTI") st
  else if cmd "SUBSCRIBE"%string || cmd "PSUBSCRIBE"%string then Ok (hub_subscribe c req st, ActNone)
  else if one_of name ["EVAL"; "EVALSHA"; "EVAL_RO"; "EVALSHA_RO"]%string then via_router c (JScript req) st
  else if cmd "PROXY"%string then handleProxyCmd c req st
  else if cmd "BROADCAST"%string then via_router c (JBroadcast req) st
  else if IsBlocking (GetCmdInfo (Cmd req)) || IsBlockingXREAD req then dispatchBlockingCommand c req st
  else h ← routeToBackend dial_error c req (p_h st); Ok (upd_h (fun _ => h) st, ActNone).

Definition buffer_cmd (c : nat) (req : Request) (st : proxy) : proxy :=
  upd_ctx c (fun x => set_cmds (pendingCmds x ++ [req]) x) st.

Definition handleNormal (c : nat) (req : Request) (name : bytes) (st : proxy) : outcome (proxy * action) :=
  let x := ctx_of c st in
  if negb (authenticated x) && negb (unguarded name) then answer_err c noauth st
  else if (if pendingWatchReq x is Some _ then true else false) && negb (one_of name ["QUIT"; "RESET"]%string)
  then Ok (buffer_cmd c req st, ActNone)
  else run_command c req name st.

Definition pong_message : bytes :=
  EncodeValue (Some (array_value [Some (BulkValue (Some (bs "pong"))); Some (BulkValue (Some []))])).

Definition handleInSubscribe (c : nat) (req : Request) (name : bytes) (st : proxy) : outcome (proxy * action) :=
  let cmd s := bytes_eqb name (bs s) in
  if cmd "RESET"%string then reset_cmd c st
  else if cmd "QUIT"%string then quit_cmd c st
  else if cmd "PING"%string then Ok (upd_hub (writeHubMsgToClient c pong_message) st, ActNone)
  else if cmd "UNSUBSCRIBE"%string || cmd "PUNSUBSCRIBE"%string then Ok (upd_hub (unsubscribe c req) st, ActNone)
  else if cmd "SUBSCRIBE"%string || cmd "PSUBSCRIBE"%string then Ok (hub_subscribe c req st, ActNone)
  else answer_err c (bs "ERR Command not allowed inside a subscription context") st.

Definition dispatchClientRequest (c : nat) (req : Request) (st : proxy) : outcome (proxy * action) :=
  if (length (Args req) =? 0)%nat then Ok (write_direct c (EncodeError (bs "ERR empty command")) st, ActNone) else
  let st := set_counts (numClients st) (maxClients st) (clientIDSeq st) (p_commands st + 1) st in
  let name := Cmd req in
  match state_of c st with
  | stateMulti | stateWatchMulti => handleInMulti c req name st
  | stateSubscribe => handleInSubscribe c req name st
  | stateBlocking =>
      if one_of name ["QUIT"; "RESET"]%string then handleNormal c req name st
      else Ok (buffer_cmd c req st, ActNone)
  | stateWatch | stateNormal => handleNormal c req name st
  end.

(** The buffered commands run in order until one of them asks to close. *)
Fixpoint run_cmds (c : nat) (cmds : list Request) (st : proxy) : outcome proxy :=
  match cmds with
  | [] => Ok st
  | req :: cmds' =>
      '(st, a) ← dispatchClientRequest c req st;
      match a with
      | ActNone => run_cmds c cmds' st
      | ActClose => Ok st
      end
  end.

Definition drainPendingCmds (c : nat) (st : proxy) : outcome proxy :=
  match pendingCmds (ctx_of c st) with
  | [] => Ok st
  | cmds => st ← run_cmds c cmds (upd_ctx c (set_cmds []) st); Ok (upd_loop flushBackendWrites st)
  end.

(** ** Callbacks *)

(** [max > 0 && h.numClients.Load() >= max] *)
Definition limit_reached (st : proxy) : bool := (0 <? maxClients st) && (maxClients st <=? numClients st).

Definition admit_client (c : nat) (st : proxy) : proxy :=
  let id := wrapu64 (clientIDSeq st + 1) in
  let st := set_counts (numClients st + 1) (maxClients st) id (p_commands st) st in
  let st := upd_ctxs <[c := new_ctx id (bytes_eqb (ClientPassword cfg) [])]> st in
  upd_loop (upd_clients <[c := resp_init]>) (to_state c stateNormal st).

Definition onClientOpen (c : nat) (st : proxy) : option bytes * proxy * action :=
  if limit_reached st
  then (Some (EncodeError (bs "ERR max number of clients reached")), st, ActClose)
  else (None, admit_client c st, ActNone).

(** The close callback of a dedicated connection the peer or the proxy closed. *)
Definition onBackendClose (b : nat) (st : proxy) : outcome proxy :=
  match back b st with
  | None => Ok st
  | Some x =>
      let c := b_client x in
      let interrupted := is_back b (blockingBackend (ctx_of c st)) && bool_decide (state_of c st = stateBlocking) in
      let st := upd_ctx c (unlink b) (mark_closed b st) in
      match p_ctx st !! c with
      | None => Ok st
      | Some ctx =>
          if interrupted then
            let st := fill c (blockingSlotIdx ctx)
                        (EncodeError (bs "ERR blocking command interrupted: backend connection closed")) st in
            drainPendingCmds c (to_state c stateNormal st)
          else Ok st
      end
  end.

Definition close_callback (o : option nat) (st : proxy) : outcome proxy :=
  match o with
  | Some b => if (if back b st is Some x then isClosed x else true) then Ok st else onBackendClose b st
  | None => Ok st
  end.

(** The connection's context is gone afterwards.  A rejected client has none. *)
Definition onClientClose (c : nat) (st : proxy) : outcome proxy :=
  let st := set_counts (numClients st - 1) (maxClients st) (clientIDSeq st) (p_commands st) st in
  match p_ctx st !! c with
  | None => Ok st
  | Some x =>
      st ← close_callback (watchBackend x) st;
      st ← close_callback (multiBackend x) st;
      st ← close_callback (blockingBackend x) st;
      let st := if bool_decide (state_of c st = stateSubscribe) then upd_hub (removeClient c) st else st in
      Ok (upd_ctxs (delete c) (upd_loop (upd_clients (delete c)) st))
  end.

Definition set_breq (r : option Request) (x : backendCtx) : backendCtx :=
  set_b (b_client x) (b_addr x) (isClosed x) r (b_pending x) (b_start x) (b_wire x) x.
Definition set_baddr (a : bytes) (x : backendCtx) : backendCtx :=
  set_b (b_client x) a (isClosed x) (pendingBlockingReq x) (b_pending x) (b_start x) (b_wire x) x.

Definition sendBlockingCmd (b c : nat) (req : option Request) (st : proxy) : proxy :=
  match req with
  | Some r => ask_back b c (Args r) (RBlocking r) st
  | None => st
  end.

(** [onBackendOpen] of a dedicated connection. *)
Definition onBackendOpen (b : nat) (st : proxy) : proxy * action :=
  match back b st with
  | None => (st, ActNone)
  | Some x =>
      let c := b_client x in
      match p_ctx st !! c with
      | None => (st, ActClose)
      | Some ctx =>
          if isBlockingConn x then
            let st := upd_ctx c (set_blocking (Some b) (blockingSlotIdx ctx)) st in
            let req := pendingBlockingReq x in
            let st := upd_b b (set_breq None) st in
            (if has_password then authDedicatedConn b c (RAuthThen req) st else sendBlockingCmd b c req st, ActNone)
          else if isMultiConn x then (upd_ctx c (set_multi (Some b)) st, ActNone)
          else
            let st := upd_ctx c (set_watch (watchAddr ctx) (Some b)) st in
            let st := upd_b b (set_baddr (watchAddr ctx)) st in
            let st := if has_password then authDedicatedConn b c RAuth st else st in
            match pendingWatchReq ctx with
            | None => (st, ActNone)
            | Some req =>
                let st := upd_ctx c (set_watch_req None (pendingWatchSlot ctx)) st in
                (ask_back b c (Args req) (RWatchOpen req (pendingWatchSlot ctx)) st, ActNone)
            end
      end
  end.

(** The runnable posted once the connection of a transaction is there.  The connection may
    have closed before it runs: its context is gone, and the type assertion on it panics. *)
Definition multiReady (b : nat) (st : proxy) : outcome proxy :=
  match back b st with
  | Some x =>
      match b_start x, p_ctx st !! b_client x with
      | Some (queue, slot), Some _ =>
          if isClosed x then Panic else
          let c := b_client x in
          let st := if has_password then authDedicatedConn b c RAuth st else st in
          Ok (ask_back b c [bs "MULTI"] (RMulti queue slot) st)
      | _, _ => Ok st
      end
  | None => Ok st
  end.

(** A dial failed after it was registered. *)
Definition dialFailed (b : nat) (msg : bytes) (st : proxy) : outcome proxy :=
  match back b st with
  | None => Ok st
  | Some x =>
      let c := b_client x in
      if isMultiConn x then
        match b_start x with
        | Some (_, slot) => Ok (post_fill c slot (EncodeError (bs "ERR backend connection failed: " ++ msg)) st)
        | None => Ok st
        end
      else
      match p_ctx st !! c with
      | None => Ok st
      | Some ctx =>
          if isBlockingConn x then
            let st := fill c (blockingSlotIdx ctx)
                        (EncodeError (bs "ERR blocking backend connection failed: " ++ msg)) st in
            let st := upd_ctx c (set_blocking None (blockingSlotIdx ctx)) (to_state c stateNormal st) in
            drainPendingCmds c st
          else Ok (fill c (pendingWatchSlot ctx) (EncodeError (bs "ERR backend connection failed: " ++ msg)) st)
      end
  end.

(** ** Replies of dedicated connections *)

Definition handleBlockingResponse (c b : nat) (v : Value) (req : Request) (st : proxy) : outcome proxy :=
  match IsMovedError (Some v), ParseRedirection (Some v) with
  | true, Ok (_, newAddr) =>
      let st := upd_loop trigger_refresh st in
      let st := upd_ctx c (fun x => set_blocking None (blockingSlotIdx x) x) st in
      Ok (dialBlockingBackend c newAddr req (close_conn b st))
  | _, _ =>
      let st := fill c (blockingSlotIdx (ctx_of c st)) (EncodeValue (Some v)) st in
      let st := upd_ctx c (fun x => set_blocking None (blockingSlotIdx x) x) (to_state c stateNormal st) in
      drainPendingCmds c (returnBlockingConn b st)
  end.

(** The queued commands and EXEC follow the reply to MULTI. *)
Definition send_queue (b c : nat) (queue : list Request) (slot : nat) (st : proxy) : proxy :=
  ask_back b c [bs "EXEC"] (RExec slot)
    (foldl (fun st req => ask_back b c (Args req) RIgnore st) st queue).

Definition run_respond (b c : nat) (r : respond) (v : Value) (st : proxy) : outcome proxy :=
  let failed := IsError (Some v) in
  let auth st :=
    let msg := EncodeError (bs "ERR backend auth failed: " ++ Error (Some v)) in
    if failed then
      match p_ctx st !! c with
      | Some ctx => fill c (pendingWatchSlot ctx) msg st
      | None => upd_hub (writeHubMsgToClient c msg) st
      end
    else st in
  match r with
  | RAuth => Ok (auth st)
  | RAuthThen req => let st := auth st in Ok (if failed then st else sendBlockingCmd b c req st)
  | RWatchOpen req slot =>
      if IsMovedError (Some v) then
        let newAddr := match ParseRedirection (Some v) with Ok (_, a) => a | _ => [] end in
        let st := upd_ctx c (fun x => set_watch_req (Some req) slot (set_watch newAddr None x)) st in
        Ok (dialDedicatedBackend c newAddr st)
      else
        let st := if failed then st else to_state c stateWatch st in
        drainPendingCmds c (fill c slot (EncodeValue (Some v)) st)
  | RWatch slot =>
      let st := if failed then st else to_state c stateWatch st in
      Ok (fill c slot (EncodeValue (Some v)) st)
  | RIgnore => Ok st
  | RMulti queue slot =>
      if failed then Ok (fill c slot (EncodeError (bs "ERR failed to start MULTI on backend")) (close_conn b st))
      else Ok (send_queue b c queue slot st)
  | RExec slot => Ok (fill c slot (EncodeValue (Some v)) (close_conn b st))
  | RBlocking req => handleBlockingResponse c b v req st
  end.

Definition pop_respond (b : nat) : proxy -> proxy :=
  upd_b b (fun x => set_b (b_client x) (b_addr x) (isClosed x) (pendingBlockingReq x) (drop 1 (b_pending x))
                      (b_start x) (b_wire x) x).

(** [onBackendTraffic] of a dedicated connection, with the bytes it leaves; the buffer
    of a connection that was closed meanwhile is empty. *)
Fixpoint back_traffic (fuel : nat) (b : nat) (buf : bytes) (st : proxy) : outcome (proxy * bytes * action) :=
  match fuel with
  | O => NoFuel
  | S fuel =>
      match back b st with
      | None => Ok (st, buf, ActClose)
      | Some x =>
          if isClosed x then Ok (st, [], ActNone) else
          match ParseValue buf with
          | Ok None => Ok (st, buf, ActNone)
          | Ok (Some (v, consumed)) =>
              let buf := drop consumed buf in
              match b_pending x with
              | [] => back_traffic fuel b buf st
              | (c, r) :: _ => st ← run_respond b c r v (pop_respond b st); back_traffic fuel b buf st
              end
          | Err _ => Ok (st, buf, ActClose)
          | Panic => Panic
          | NoFuel => NoFuel
          end
      end
  end.

Definition onBackendTraffic (b : nat) (buf : bytes) (st : proxy) : outcome (proxy * bytes * action) :=
  back_traffic (S (length buf)) b buf st.

(** ** Requests of a client *)

Fixpoint client_loop (fuel : nat) (c : nat) (buf : bytes) (st : proxy) : outcome (proxy * bytes * action) :=
  match fuel with
  | O => NoFuel
  | S fuel =>
      match ParseRequest buf with
      | Err e => Ok (write_direct c (EncodeError (bs "ERR Protocol error: " ++ err_msg e)) st, buf, ActClose)
      | Ok None => Ok (st, buf, ActNone)
      | Ok (Some (req, consumed)) =>
          '(st, a) ← dispatchClientRequest c req st;
          match a with
          | ActNone => client_loop fuel c (drop consumed buf) st
          | ActClose => Ok (st, drop consumed buf, ActClose)
          end
      | Panic => Panic
      | NoFuel => NoFuel
      end
  end.

Definition onClientTraffic (c : nat) (buf : bytes) (st : proxy) : outcome (proxy * bytes * action) :=
  match p_ctx st !! c with
  | None => Ok (st, buf, ActClose)
  | Some _ =>
      '(st, rest, a) ← client_loop (S (length buf)) c buf st;
      Ok (upd_loop flushBackendWrites st, rest, a)
  end.

End handlers.
