(* ===== verification/HandlerFacts.v ===== *)
(** * HandlerFacts: the invariant of an event loop

    [loop_ok] puts the invariants of the parts of a loop together: the shared connections
    ([mux_ok]), the hub ([hub_ok]), the authentication of the clients ([auth_ok]) and who
    is connected ([census]).  [astep] is a step for one client, with a hint database that
    shows it of every handler; [istep] and [hstep] are the callbacks of a loop.
    [auth_guard]: a client that has not authenticated reaches no backend, in any state the
    callbacks can lead to.  [loop_invariant]: what holds between two callbacks. *)

From S2P Require Import Prelude GoStd Config Crc16 Value RespParse RespFacts Command Topology RespQueue Mux Router Routing.
From S2P Require Import MuxFacts Hub HubFacts Handler.

(** ** What the operations leave alone *)

(** What the handlers do to the world of the backends: multiplexer, router jobs,
    dedicated connections and hub. *)
Definition backend_view (st : proxy) :=
  (conns (loop_of st), dialing (loop_of st), dials (loop_of st), h_jobs (p_h st), p_back st, p_idle st, p_hub st).

(** Who is authenticated, and the states. *)
Definition auths (st : proxy) : gmap nat bool := authenticated <$> p_ctx st.
Definition sts (st : proxy) : gmap nat clientState := states (p_hub st).

(** Who is connected, under which id, and the counters of the connected clients. *)
Definition ids (st : proxy) : gmap nat Z := c_id <$> p_ctx st.
Definition census (st : proxy) : gmap nat Z * Z * Z := (ids st, numClients st, clientIDSeq st).

Definition keeps_auth (f : clientCtx -> clientCtx) : Prop :=
  forall x, authenticated (f x) = authenticated x /\ c_id (f x) = c_id x.

Lemma fmap_alter_same {A} (g : clientCtx -> A) c f (m : gmap nat clientCtx) :
  (forall x, g (f x) = g x) -> g <$> alter f c m = g <$> m.
Proof.
  intros Hf. apply map_eq. intros i. rewrite !lookup_fmap.
  destruct (decide (i = c)) as [->|Hne]; [|by rewrite lookup_alter_ne].
  rewrite lookup_alter_eq. destruct (m !! c); cbn; [by rewrite Hf|done].
Qed.

Lemma auths_upd_ctx c f st : keeps_auth f -> auths (upd_ctx c f st) = auths st.
Proof. intros Hf. apply fmap_alter_same. apply Hf. Qed.

Lemma census_upd_ctx c f st : (forall x, c_id (f x) = c_id x) -> census (upd_ctx c f st) = census st.
Proof. intros Hf. unfold census, ids. cbn. by rewrite fmap_alter_same. Qed.

(** ** The authentication invariant *)

(** States that only an authenticated client is in. *)
Definition guarded (s : clientState) : bool :=
  match s with stateNormal | stateWatch => false | _ => true end.

Definition auth_inv (a : gmap nat bool) (s : gmap nat clientState) : Prop :=
  forall c, a !! c = Some false -> guarded (default stateNormal (s !! c)) = false.

Definition auth_ok (st : proxy) : Prop := auth_inv (auths st) (sts st).

(** ** The invariant of an event loop

    Besides authentication: the entries of the hub are registered for their clients, and, as far as the
    level asks for it, the shared connections are in order and nothing is left in their
    write buffers. *)

Inductive level := LNone | LMux | LFlushed.

Definition mux_at (l : level) (w : evloop) : Prop :=
  match l with LNone => True | LMux => mux_ok w | LFlushed => mux_ok w /\ flushed w end.

(** What is left of a level while commands run and the write buffers fill. *)
Definition busy (l : level) : level := match l with LFlushed => LMux | l => l end.

Lemma mux_at_same l w w' : conns w' = conns w -> dialing w' = dialing w -> mux_at l w -> mux_at l w'.
Proof. intros Hc Hd. destruct l; cbn; [done|..]; unfold mux_ok, flushed; by rewrite ?Hc, ?Hd. Qed.

Lemma mux_at_busy l w : mux_at l w -> mux_at (busy l) w.
Proof. destruct l; cbn; tauto. Qed.

Lemma mux_at_flush l w : mux_at (busy l) w -> mux_at l (flushBackendWrites w).
Proof. destruct l; cbn; auto using flush_ok, flush_flushed. Qed.

Section handlers.
Context `{GG : GoGlob} `{GU : GoUnicode} (cfg : config) (dial_error : nat -> bytes -> option bytes).
Context (register_ok : bytes -> bool) (remote_addr : nat -> bytes) (pool_conns : bytes -> Z) (stats_text : bytes).

Abbreviation command := (run_command cfg dial_error register_ok remote_addr pool_conns stats_text).
Abbreviation normal := (handleNormal cfg dial_error register_ok remote_addr pool_conns stats_text).
Abbreviation dispatch_request := (dispatchClientRequest cfg dial_error register_ok remote_addr pool_conns stats_text).
Abbreviation cmds_run := (run_cmds cfg dial_error register_ok remote_addr pool_conns stats_text).
Abbreviation drain := (drainPendingCmds cfg dial_error register_ok remote_addr pool_conns stats_text).
Abbreviation back_close := (onBackendClose cfg dial_error register_ok remote_addr pool_conns stats_text).
Abbreviation client_close := (onClientClose cfg dial_error register_ok remote_addr pool_conns stats_text).
Abbreviation respond_to := (run_respond cfg dial_error register_ok remote_addr pool_conns stats_text).
Abbreviation back_read := (onBackendTraffic cfg dial_error register_ok remote_addr pool_conns stats_text).
Abbreviation client_read := (onClientTraffic cfg dial_error register_ok remote_addr pool_conns stats_text).
Abbreviation dial_fails := (dialFailed cfg dial_error register_ok remote_addr pool_conns stats_text).

Section invariant.
Context (who : gmap nat Z * Z * Z).

Record loop_ok (l : level) (st : proxy) : Prop := {
  lo_census : census st = who;
  lo_auth : auth_ok st;
  lo_hub : hub_ok (p_hub st);
  lo_mux : mux_at l (loop_of st);
}.

(** A step for client [c]: nobody's authentication changes, and only the state of [c]
    does, unguarded or for an authenticated client; the rest of the invariant is kept. *)
Definition astep (l : level) (c : nat) (st st' : proxy) : Prop :=
  (auths st' = auths st /\ (forall d, d <> c -> sts st' !! d = sts st !! d) /\
   (sts st' !! c = sts st !! c \/ guarded (default stateNormal (sts st' !! c)) = false \/
    auths st !! c <> Some false)) /\
  (hub_ok (p_hub st) -> hub_ok (p_hub st')) /\
  (mux_at l (loop_of st) -> mux_at l (loop_of st')) /\
  census st' = census st.

Lemma astep_ok l c st st' : astep l c st st' -> loop_ok l st -> loop_ok l st'.
Proof.
  intros ((Ha & Hd & Hc) & Hh & Hm & Hw) [Hcs Hok Hhub Hmux]. split; [by rewrite Hw| |by auto|by auto].
  intros d. rewrite Ha. intros Hf. specialize (Hok d Hf).
  destruct (decide (d = c)) as [->|Hne]; [|by rewrite Hd].
  destruct Hc as [->|[Hg|Hn]]; done.
Qed.

#[global] Instance astep_preorder l c : PreOrder (astep l c).
Proof.
  split; [by intros st; split; [split; [|split; [|left]]|]|].
  intros s1 s2 s3 ((Ha & Hd & Hc) & Hh & Hm & Hw) ((Ha' & Hd' & Hc') & Hh' & Hm' & Hw'). split; [|split_and!; [by auto..|by rewrite Hw']].
  split; [by rewrite Ha'|]. split.
  - intros d Hne. by rewrite Hd', Hd.
  - rewrite Ha in Hc'. destruct Hc' as [->|[Hg|Hn]]; [done| |]; auto.
Qed.

(** Operations that leave the shared connections alone. *)
Definition keeps_conns (f : evloop -> evloop) : Prop :=
  forall w, conns (f w) = conns w /\ dialing (f w) = dialing w.

Lemma reply_now_conns c d h :
  conns (h_loop (reply_now c d h)) = conns (h_loop h) /\ dialing (h_loop (reply_now c d h)) = dialing (h_loop h).
Proof.
  unfold reply_now. destruct (clients (h_loop h) !! c) as [q|]; [|done].
  destruct (writeImmediate d q) as [q' [[slot d']|]]; done.
Qed.

Lemma alloc_conns c h :
  conns (h_loop (snd (alloc c h))) = conns (h_loop h) /\ dialing (h_loop (snd (alloc c h))) = dialing (h_loop h).
Proof.
  unfold alloc. destruct (clients (h_loop h) !! c) as [q|]; [|done]. by destruct (allocResponseSlot q).
Qed.

Lemma submit_conns c j h :
  conns (h_loop (submitToRouter c j h)) = conns (h_loop h) /\ dialing (h_loop (submitToRouter c j h)) = dialing (h_loop h).
Proof. unfold submitToRouter. pose proof (alloc_conns c h). by destruct (alloc c h). Qed.

Section prims.
Context (l : level) (c : nat) (st0 st : proxy) (Hst : astep l c st0 st).

Lemma as_same st' :
  auths st' = auths st -> sts st' = sts st -> subs (p_hub st') = subs (p_hub st) ->
  clientSubs (p_hub st') = clientSubs (p_hub st) -> conns (loop_of st') = conns (loop_of st) ->
  dialing (loop_of st') = dialing (loop_of st) -> census st' = census st -> astep l c st0 st'.
Proof.
  intros Ha Hs H1 H2 H3 H4 H5. etransitivity; [exact Hst|]. split; [split; [done|]; rewrite Hs; auto|].
  split_and!; [by apply hub_ok_same|by apply mux_at_same|done].
Qed.

Lemma as_loop f : keeps_conns f -> astep l c st0 (upd_loop f st).
Proof. intros Hf. destruct (Hf (loop_of st)). by apply as_same. Qed.
Lemma as_b b f : astep l c st0 (upd_b b f st).
Proof. by apply as_same. Qed.
Lemma as_back f : astep l c st0 (upd_back f st).
Proof. by apply as_same. Qed.
Lemma as_idle m r : astep l c st0 (set_idle m r st).
Proof. by apply as_same. Qed.
Lemma as_counts m k : astep l c st0 (set_counts (numClients st) m (clientIDSeq st) k st).
Proof. by apply as_same. Qed.
Lemma as_wi d x : astep l c st0 (wi d x st).
Proof. destruct (reply_now_conns d x (p_h st)). by apply as_same. Qed.
Lemma as_direct d x : astep l c st0 (write_direct d x st).
Proof. by apply as_same. Qed.
Lemma as_fill d i x : astep l c st0 (fill d i x st).
Proof. by apply as_same. Qed.
Lemma as_post d i x : astep l c st0 (post_fill d i x st).
Proof. by apply as_same. Qed.
Lemma as_ask b d args r : astep l c st0 (ask_back b d args r st).
Proof. by apply as_same. Qed.
Lemma as_alloc d : astep l c st0 (snd (alloc_slot d st)).
Proof.
  unfold alloc_slot. destruct (alloc_conns d (p_h st)) as [H1 H2]. destruct (alloc d (p_h st)). by apply as_same.
Qed.
Lemma as_submit d j : astep l c st0 (upd_h (submitToRouter d j) st).
Proof. destruct (submit_conns d j (p_h st)). by apply as_same. Qed.
Lemma as_async d x : astep l c st0 (upd_hub (writeHubMsgToClient d x) st).
Proof. by apply as_same. Qed.

Lemma as_ctx d f : keeps_auth f -> astep l c st0 (upd_ctx d f st).
Proof. intros Hf. apply as_same; [by apply auths_upd_ctx|done..|]. apply census_upd_ctx, Hf. Qed.

Lemma as_state x :
  guarded x = false \/ auths st0 !! c <> Some false -> astep l c st0 (to_state c x st).
Proof.
  intros Hx. etransitivity; [exact Hst|]. split; [|by split_and!; [apply hub_ok_same|..]].
  split; [done|]. unfold sts, to_state. cbn. split.
  - intros d Hne. by rewrite lookup_insert_ne.
  - right. rewrite lookup_insert_eq, (proj1 (proj1 Hst)). tauto.
Qed.

Lemma as_free x : guarded x = false -> astep l c st0 (to_state c x st).
Proof. intros Hx. apply as_state. by left. Qed.

Lemma as_auth x : auths st0 !! c <> Some false -> astep l c st0 (to_state c x st).
Proof. intros Hx. apply as_state. by right. Qed.

End prims.

Lemma unlink_auth b : keeps_auth (unlink b).
Proof.
  intros x. unfold unlink. destruct (is_back b (watchBackend x)); cbn;
    destruct (is_back b (multiBackend x)); cbn; destruct (is_back b (blockingBackend x)); done.
Qed.

Create HintDb astep.
#[local] Hint Resolve as_submit as_loop as_b as_back as_idle as_counts as_wi as_direct as_fill as_post as_ask as_alloc
  as_async as_ctx as_free unlink_auth : astep.
#[local] Hint Extern 1 (astep _ _ ?s ?s) => reflexivity : astep.
#[local] Hint Extern 1 (guarded _ = false) => reflexivity : astep.
#[local] Hint Extern 1 (keeps_conns _) => (intros ?; split; reflexivity) : astep.
#[local] Hint Extern 2 (keeps_auth _) => intros []; split; reflexivity : astep.

Ltac asteps := eauto 20 with astep.

Lemma as_close l c st0 st b : astep l c st0 st -> astep l c st0 (close_conn b st).
Proof. intros H. unfold close_conn, mark_closed. destruct (back b st) as [x|]; [|done]. destruct (isClosed x); asteps. Qed.

Lemma as_close_opt l c st0 st o : astep l c st0 st -> astep l c st0 (close_opt o st).
Proof. intros H. destruct o; [by apply as_close|done]. Qed.
#[local] Hint Resolve as_close as_close_opt : astep.

Lemma as_reset l c st0 st : astep l c st0 st -> astep l c st0 (resetClientState c st).
Proof.
  intros H. unfold resetClientState. cbv zeta. destruct (watchBackend _); asteps.
Qed.

Lemma as_end_tx l c st0 st f : keeps_auth f -> astep l c st0 st -> astep l c st0 (end_tx c f st).
Proof.
  intros Hf H. unfold end_tx. apply as_ctx; [asteps|]. intros x. apply (Hf (set_tx [] false x)).
Qed.

Lemma as_close_tx l c st0 st : astep l c st0 st -> astep l c st0 (close_tx_conns c st).
Proof. intros H. unfold close_tx_conns. cbv zeta. destruct (watchBackend _); asteps. Qed.
#[local] Hint Resolve as_reset as_end_tx as_close_tx : astep.

(** Handlers return a state and an action, or panic. *)
Definition as_res {A} (l : level) (c : nat) (st0 : proxy) (o : outcome (proxy * A)) : Prop :=
  match o with Ok (st', _) => astep l c st0 st' | _ => True end.

Lemma as_answer_err l c st0 st d msg : astep l c st0 st -> as_res l c st0 (answer_err d msg st).
Proof. intros H. by apply as_wi. Qed.
Lemma as_answer_ok l c st0 st d msg : astep l c st0 st -> as_res l c st0 (answer_ok d msg st).
Proof. intros H. by apply as_wi. Qed.
Lemma as_answer_bulk l c st0 st d x : astep l c st0 st -> as_res l c st0 (answer_bulk d x st).
Proof. intros H. by apply as_wi. Qed.
#[local] Hint Resolve as_answer_err as_answer_ok as_answer_bulk : astep.
#[local] Hint Extern 1 (as_res _ _ _ (Ok (_, _))) => (unfold as_res) : astep.

Lemma as_dial l c st0 st addr x : astep l c st0 st -> astep l c st0 (snd (dial_dedicated dial_error addr x st)).
Proof. intros H'. unfold dial_dedicated. destruct (dial_error _ _); cbn; asteps. Qed.

Lemma as_dialDedicated l c st0 st d addr : astep l c st0 st -> astep l c st0 (dialDedicatedBackend dial_error d addr st).
Proof.
  intros H'. unfold dialDedicatedBackend. set (x := mkBack _ _ _ _ _ _ _ _ _).
  pose proof (as_dial l c st0 st addr x H') as Hd. destruct (dial_dedicated _ _ _ _) as [[msg|] st1]; asteps.
Qed.

Lemma as_dialMulti l c st0 st d addr q slot :
  astep l c st0 st -> astep l c st0 (dialMultiBackend dial_error d addr q slot st).
Proof.
  intros H'. unfold dialMultiBackend. set (x := mkBack _ _ _ _ _ _ _ _ _).
  pose proof (as_dial l c st0 st addr x H') as Hd. destruct (dial_dedicated _ _ _ _) as [[msg|] st1]; asteps.
Qed.

Lemma as_dialBlocking l c st0 st addr req :
  astep l c st0 st -> astep l c st0 (dialBlockingBackend dial_error c addr req st).
Proof.
  intros H'. unfold dialBlockingBackend. destruct (pool_pop _ _) as [[[b|] rest] n]; [unfold reuseBlockingConn; asteps|].
  set (x := mkBack _ _ _ _ _ _ _ _ _). set (st1 := set_idle _ _ _).
  pose proof (as_dial l c st0 st1 addr x ltac:(unfold st1; asteps)) as Hd.
  destruct (dial_dedicated _ _ _ _) as [[msg|] st2]; asteps.
Qed.

Lemma as_return l c st0 st b : astep l c st0 st -> astep l c st0 (returnBlockingConn b st).
Proof.
  intros H'. unfold returnBlockingConn, pool_put. destruct (back b st) as [x|]; [|done].
  destruct (b_pending x); [|asteps]. destruct (_ <=? _)%nat; asteps.
Qed.
#[local] Hint Resolve as_dialDedicated as_dialMulti as_dialBlocking as_return : astep.

(** The slot is allocated first. *)
Lemma as_alloc_then {A} l c st0 st d (k : nat -> proxy -> outcome (proxy * A)) :
  astep l c st0 st -> (forall slot st1, astep l c st0 st1 -> as_res l c st0 (k slot st1)) ->
  as_res l c st0 (let '(slot, st1) := alloc_slot d st in k slot st1).
Proof.
  intros H' Hk. pose proof (as_alloc l c st0 st H' d) as Ha. destruct (alloc_slot d st) as [slot st1]. by apply Hk.
Qed.

Lemma as_watch l c st0 st req : astep l c st0 st -> as_res l c st0 (handleWATCH dial_error c req st).
Proof.
  intros H'. unfold handleWATCH. destruct (_ <? _)%nat; [asteps|].
  destruct (state_of c st); try (apply as_answer_err; done);
    (destruct (same_slot _) as [slot|]; [|asteps]; destruct (GetNodeForSlot _ _) as [addr|]; [|asteps];
     apply as_alloc_then; [done|]; intros slotIdx st1 H1; cbv zeta;
     destruct (watchBackend _); [destruct (bytes_eqb _ _)|]; asteps).
Qed.

Lemma as_unwatch l c st0 st : astep l c st0 st -> as_res l c st0 (handleUNWATCH c st).
Proof. intros H'. unfold handleUNWATCH. destruct (watchBackend _); asteps. Qed.

Lemma as_execOn l c st0 st b cl : astep l c st0 st -> as_res l c st0 (execMultiOnDedicatedConn c b cl st).
Proof.
  intros H'. unfold execMultiOnDedicatedConn. apply as_alloc_then; [|intros; asteps].
  destruct cl; asteps.
Qed.

Lemma as_exec l c st0 st : astep l c st0 st -> as_res l c st0 (execMulti dial_error c st).
Proof.
  intros H'. unfold execMulti. cbv zeta. destruct (txErr _); [asteps|].
  destruct (bool_decide _); [destruct (watchBackend _); [by apply as_execOn|]|].
  all: destruct (_ =? _)%nat; [asteps|]; destruct (resolveMultiSlot _ _) as [msg|addr]; [asteps|];
    destruct (multiBackend _); [destruct (bool_decide _); [by apply as_execOn|]|];
    (apply as_alloc_then; [asteps|intros; asteps]).
Qed.

Lemma as_inMulti l c st0 st req name :
  astep l c st0 st -> auths st0 !! c <> Some false -> as_res l c st0 (handleInMulti dial_error c req name st).
Proof.
  intros H' Ha. unfold handleInMulti. destruct (bytes_eqb _ _); [by apply as_exec|].
  destruct (bytes_eqb _ _); [unfold discardMulti; asteps|].
  destruct (bytes_eqb _ _); [destruct (state_of c st); try (apply as_answer_err; exact H');
    apply as_answer_ok, as_ctx; [by apply as_auth|by split]|].
  destruct (bytes_eqb _ _); [asteps|]. destruct (bytes_eqb _ _); [asteps|].
  destruct (bytes_eqb _ _); [unfold reset_cmd; asteps|]. destruct (bytes_eqb _ _); [unfold quit_cmd; asteps|].
  cbv zeta. destruct (GetCmdInfo name); [destruct (IsNotAllowed _)|]; asteps.
Qed.

Lemma as_blocking l c st0 st req :
  astep l c st0 st -> auths st0 !! c <> Some false -> as_res l c st0 (dispatchBlockingCommand dial_error c req st).
Proof.
  intros H' Ha. unfold dispatchBlockingCommand. destruct (extractBlockingKeys req) as [keys| | |]; go_simp; try done.
  destruct (_ =? _)%nat; [asteps|]. destruct (same_slot _) as [slot|]; [|asteps].
  destruct (GetNodeForSlot _ _); [|asteps]. apply as_alloc_then; [done|]. intros slotIdx st1 H1. cbv zeta.
  apply as_dialBlocking, as_ctx; [by apply as_auth|asteps].
Qed.

Lemma as_hub l c st0 st f :
  astep l c st0 st ->
  (forall h, hub_ok h -> hub_ok (f h)) ->
  (forall h, states (f h) = states h \/ (exists x, states (f h) = <[c := x]> (states h) /\
     (guarded x = false \/ auths st0 !! c <> Some false))) ->
  astep l c st0 (upd_hub f st).
Proof.
  intros H' Hh Hf. etransitivity; [exact H'|]. split; [|by split_and!; [apply Hh|..]].
  split; [done|]. unfold sts. cbn.
  destruct (Hf (p_hub st)) as [->|(x & -> & Hx)]; [auto|]. split.
  - intros d Hne. by rewrite lookup_insert_ne.
  - right. rewrite lookup_insert_eq, (proj1 (proj1 H')). cbn. tauto.
Qed.

Lemma states_forward req h : states (forwardToBackend req h) = states h.
Proof. unfold forwardToBackend. by destruct (backendConn h). Qed.
Lemma states_add c ps g h : states (foldl (fun h ch => addSub c ch g h) h ps) = states h.
Proof. revert h. induction ps as [|p ps IH]; intros h; [done|]. cbn. rewrite IH. unfold addSub. by destruct (existsb _ _). Qed.
Lemma states_remove c ps h : states (foldl (fun h ch => removeSub c ch h) h ps) = states h.
Proof. revert h. induction ps as [|p ps IH]; intros h; [done|]. cbn. by rewrite IH. Qed.
Lemma states_write ms h : states (write_all ms h) = states h.
Proof. unfold write_all. revert h. induction ms as [|m ms IH]; intros h; [done|]. cbn [foldl]. by rewrite IH. Qed.

Lemma as_subscribe l c st0 st req :
  astep l c st0 st -> auths st0 !! c <> Some false -> astep l c st0 (hub_subscribe register_ok c req st).
Proof.
  intros H' Ha. apply as_hub; [done|intros h; apply subscribe_ok|]. intros h. right. exists stateSubscribe. split; [|by right].
  unfold subscribe. set (h1 := if _ && _ then _ else _).
  assert (states h1 = <[c := stateSubscribe]> (states h)) as E.
  { unfold h1, dialSharedBackend. destruct (_ && _); [|done].
    destruct (masters _); [|destruct (register_ok _)]; done. }
  clearbody h1. rewrite <- E. set (h2 := foldl _ h1 _).
  assert (states h2 = states h1) as <- by apply states_add. clearbody h2.
  destruct (backendConn h2); [by rewrite states_forward|done].
Qed.

Lemma as_unsubscribe l c st0 st req : astep l c st0 st -> astep l c st0 (upd_hub (unsubscribe c req) st).
Proof.
  intros H'. apply as_hub; [done|intros h; apply unsubscribe_ok|]. intros h. unfold unsubscribe. set (h1 := if (_ =? 1)%nat then _ else _).
  assert (states h1 = states h) as E.
  { unfold h1. destruct (_ =? 1)%nat; [done|]. apply states_remove. }
  clearbody h1. destruct (size _ =? 0)%nat.
  - right. exists stateNormal. split; [|by left].
    destruct (backendConn _); rewrite ?states_forward, ?states_write; cbn; by rewrite E.
  - left. destruct (backendConn _); rewrite ?states_forward, ?states_write; cbn; by rewrite E.
Qed.

Lemma as_inSubscribe l c st0 st req name :
  astep l c st0 st -> auths st0 !! c <> Some false -> as_res l c st0 (handleInSubscribe register_ok c req name st).
Proof.
  intros H' Ha. unfold handleInSubscribe. cbv zeta.
  destruct (bytes_eqb _ _); [unfold reset_cmd; asteps|]. destruct (bytes_eqb _ _); [unfold quit_cmd; asteps|].
  destruct (bytes_eqb _ _); [by apply as_async|]. destruct (_ || _); [by apply as_unsubscribe|].
  destruct (_ || _); [by apply as_subscribe|asteps].
Qed.

(** Changing the authentication of a client in an unguarded state. *)
Lemma auth_change l c a st :
  loop_ok l st -> guarded (state_of c st) = false -> loop_ok l (upd_ctx c (set_auth a) st).
Proof.
  intros [Hw Hok Hh Hm] Hg. split; [by rewrite census_upd_ctx| |done|done].
  intros d. unfold auths, upd_ctx. cbn. rewrite lookup_fmap.
  destruct (decide (d = c)) as [->|Hne]; [intros _; exact Hg|].
  rewrite lookup_alter_ne by done. intros Hd. apply Hok. unfold auths. by rewrite lookup_fmap.
Qed.

Lemma ok_astep l c st st' : loop_ok l st -> astep l c st st' -> loop_ok l st'.
Proof. intros Hok Hs. by eapply astep_ok. Qed.

Lemma auth_wi l c d st : loop_ok l st -> loop_ok l (wi c d st).
Proof. intros Hok. apply (ok_astep l c st _ Hok). asteps. Qed.

Lemma auth_AUTH l c args st :
  loop_ok l st -> guarded (state_of c st) = false ->
  loop_ok l (handleAUTH cfg c args st) /\ state_of c (handleAUTH cfg c args st) = state_of c st.
Proof.
  intros Hok Hg. unfold handleAUTH. destruct (ClientPassword cfg) as [|p0 ps]; [by split; [apply auth_wi|]|].
  destruct args as [|a0 [|a1 [|a2 [|]]]]; try (by split; [apply auth_wi|]); destruct (bytes_eqb _ _);
    (split; [apply auth_wi; by apply auth_change|done]).
Qed.

Lemma auth_name l c n st : loop_ok l st -> loop_ok l (upd_ctx c (set_name n) st).
Proof. apply astep_ok with c. asteps. Qed.

Lemma auth_options l fuel c opts st :
  loop_ok l st -> guarded (state_of c st) = false ->
  match hello_options cfg fuel c opts st with inl st' | inr st' => loop_ok l st' end.
Proof.
  revert opts st. induction fuel as [|fuel IH]; intros opts st Hok Hg; [done|]. cbn [hello_options].
  destruct opts as [|o opts]; [done|]. destruct (bytes_eqb _ _).
  { destruct opts as [|u [|p opts]]; [by apply auth_wi|by apply auth_wi|]. cbv zeta.
    destruct (auth_AUTH l c [bs "AUTH"; u; p] st Hok Hg) as [Hok' Hs'].
    destruct (authenticated _); [|done]. apply IH; [done|by rewrite Hs']. }
  destruct (bytes_eqb _ _); [|by apply IH]. destruct opts as [|n opts]; [by apply auth_wi|].
  apply IH; [by apply auth_name|done].
Qed.

Definition res_ok {A} (l : level) (o : outcome (proxy * A)) : Prop :=
  match o with Ok (st', _) => loop_ok l st' | _ => True end.

Lemma res_astep {A} l c st (o : outcome (proxy * A)) : loop_ok l st -> as_res l c st o -> res_ok l o.
Proof. destruct o as [[st' a]| | |]; try done. intros Hok Hs. by eapply astep_ok. Qed.

Lemma res_err l c msg st : loop_ok l st -> res_ok l (answer_err c msg st).
Proof. intros Hok. by apply auth_wi. Qed.

Lemma auth_HELLO l c req st :
  loop_ok l st -> guarded (state_of c st) = false -> res_ok l (handleHELLO cfg c req st).
Proof.
  intros Hok Hg. unfold handleHELLO. cbv zeta.
  assert (Hf : forall st, loop_ok l st -> res_ok l (if authenticated (ctx_of c st)
    then Ok (wi c (EncodeValue (Some (hello_reply (c_id (ctx_of c st))))) st, ActNone) else answer_err c noauth st)).
  { intros st1 H1. destruct (authenticated _); by apply auth_wi. }
  destruct (drop 1 (Args req)) as [|v opts]; [by apply Hf|]. destruct (bytes_eqb _ _); [by apply auth_wi|].
  destruct (_ && _); [by apply auth_wi|]. pose proof (auth_options l (S (length opts)) c opts st Hok Hg) as Ho.
  destruct (hello_options _ _ _ _ _); [done|by apply Hf].
Qed.

(** Routing keeps the order of the shared connections, not the empty write buffers. *)
Lemma send_groups_ok c slot req name a0 keys gi gs w w' :
  mux_ok w -> send_groups dial_error c slot req name a0 keys gi gs w = Ok w' -> mux_ok w'.
Proof.
  revert gi w. induction gs as [|[s idxs] gs IH]; intros gi w Hok; cbn [send_groups]; [by intros [= <-]|].
  intros (args & _ & H')%outcome_bind_inv. apply outcome_bind_inv in H' as (w1 & Hs & Hr).
  eapply IH; [|exact Hr]. eapply send_ok; [exact Hok| |exact Hs]. split_and!; try done; by eexists.
Qed.

Lemma with_loop_conns w h : h_loop (with_loop w h) = w.
Proof. done. Qed.

Lemma route_ok c req h h' :
  mux_ok (h_loop h) -> routeToBackend dial_error c req h = Ok h' -> mux_ok (h_loop h').
Proof.
  assert (forall w w', conns w' = conns w -> dialing w' = dialing w -> mux_ok w -> mux_ok w') as Hsame
    by (intros w w'; exact (mux_at_same LMux w w')).
  assert (forall d h1, mux_ok (h_loop h1) -> mux_ok (h_loop (reply_now c d h1))) as Hr.
  { intros d h1. destruct (reply_now_conns c d h1). by apply Hsame. }
  assert (forall j h1, mux_ok (h_loop h1) -> mux_ok (h_loop (submitToRouter c j h1))) as Hj.
  { intros j h1. destruct (submit_conns c j h1). by apply Hsame. }
  assert (forall h1, mux_ok (h_loop h1) -> mux_ok (h_loop (snd (alloc c h1)))) as Ha.
  { intros h1. destruct (alloc_conns c h1). by apply Hsame. }
  intros Hok. unfold routeToBackend. destruct (GetFirstKeyAndInfo req) as [[k|] info].
  2:{ destruct (IsNotAllowed info); intros [= <-]; auto. }
  destruct (IsNotAllowed info); [intros [= <-]; auto|]. destruct (IsAllNodes info); [intros [= <-]; auto|].
  destruct (IsMultiKey info).
  { destruct (mux_multi (Cmd req)); [|intros [= <-]; auto]. unfold routeMultiKeyToMux.
    destruct (Args req) as [|a0 args]; [done|]. cbv zeta. destruct (_ =? _)%nat; [intros [= <-]; auto|].
    destruct (unowned _ _); [intros [= <-]; auto|]. specialize (Ha h Hok).
    destruct (alloc c h) as [slotIdx h1]. cbn [snd] in Ha.
    destruct (group_slots _) as [|[s i] [|g gs]].
    2:{ intros (w & Hs & [= <-])%outcome_bind_inv. cbn [h_loop with_loop].
        eapply send_ok; [exact Ha| |exact Hs]. split_and!; try done; by eexists. }
    all: destruct (clients (h_loop h1) !! c) as [q|]; [|by intros [= <-]];
      intros (q' & _ & H')%outcome_bind_inv; apply outcome_bind_inv in H' as (w & Hs & [= <-]); cbn [h_loop with_loop];
      (eapply send_groups_ok; [|exact Hs]); by revert Ha; apply Hsame. }
  cbv zeta. destruct (pickNode _ _ _ _) as [node t]. set (h1 := with_loop _ h).
  assert (mux_ok (h_loop h1)) as Hok1 by (revert Hok; by apply Hsame). clearbody h1.
  destruct node as [addr|]; [|intros [= <-]; auto]. specialize (Ha h1 Hok1).
  destruct (alloc c h1) as [slotIdx h2]. cbn [snd] in Ha.
  intros (w & Hs & [= <-])%outcome_bind_inv. cbn [h_loop with_loop].
  eapply send_ok; [exact Ha| |exact Hs]. split_and!; try done; by eexists.
Qed.

Lemma as_route l c st req h :
  l <> LFlushed -> routeToBackend dial_error c req (p_h st) = Ok h -> astep l c st (upd_h (fun _ => h) st).
Proof.
  intros Hl Hr. split; [by split; [|split; [|left]]|]. split_and!; [done| |done].
  destruct l; [done| |done]. cbn. intros Hok. by eapply route_ok.
Qed.

Lemma as_router l c st j : as_res l c st (via_router c j st).
Proof. unfold via_router. cbn. asteps. Qed.

Lemma as_cluster l c st req : as_res l c st (handleCLUSTER cfg pool_conns c req st).
Proof.
  unfold handleCLUSTER. destruct (Args req) as [|a0 [|a1 rest]]; [asteps..|]. cbv zeta.
  destruct (bytes_eqb _ _); [asteps|]. destruct (one_of _ _); [apply as_router|]. destruct (bytes_eqb _ _); asteps.
Qed.

Lemma as_client l c st req : as_res l c st (handleClientCmd remote_addr c req st).
Proof.
  unfold handleClientCmd. destruct (Args req) as [|a0 [|a1 rest]]; [asteps..|]. cbv zeta.
  destruct (bytes_eqb _ _); [destruct rest as [|nm rest]; [asteps|destruct (_ <? _)%nat; asteps]|].
  destruct (bytes_eqb _ _); [asteps|]. destruct (bytes_eqb _ _); [asteps|].
  destruct (one_of _ _); [asteps|]. destruct (one_of _ _); asteps.
Qed.

Lemma as_proxy l c st req : as_res l c st (handleProxyCmd cfg stats_text c req st).
Proof.
  unfold handleProxyCmd. destruct (Args req) as [|a0 [|a1 rest]]; [asteps..|]. cbv zeta.
  destruct (bytes_eqb _ _).
  { destruct rest as [|act rest]; [asteps|]. destruct (bytes_eqb _ _).
    { destruct rest as [|o rest]; [asteps|]. destruct (bytes_eqb _ _); asteps. }
    destruct (bytes_eqb _ _); [|asteps]. destruct rest as [|o [|v rest]]; [asteps..|].
    destruct (bytes_eqb _ _); [|asteps]. destruct (Atoi v) as [k|]; [destruct (k <? 0)|]; asteps. }
  destruct (bytes_eqb _ _); [asteps|]. destruct (bytes_eqb _ _); [asteps|]. destruct (bytes_eqb _ _); [asteps|].
  destruct (bytes_eqb _ _); [|asteps]. destruct rest as [|act rest]; [asteps|].
  destruct (bytes_eqb _ _); [asteps|]. destruct (bytes_eqb _ _); asteps.
Qed.


(** Every command but AUTH and HELLO is a step for its client, who is authenticated. *)
Lemma as_command l c req name st :
  l <> LFlushed -> auths st !! c <> Some false ->
  bytes_eqb name (bs "HELLO") = false -> bytes_eqb name (bs "AUTH") = false ->
  as_res l c st (command c req name st).
Proof.
  intros Hl Ha Eh Ea. unfold run_command. cbv zeta.
  destruct (bytes_eqb name (bs "QUIT")); [unfold quit_cmd; asteps|].
  destruct (bytes_eqb name (bs "RESET")); [unfold reset_cmd; asteps|].
  destruct (bytes_eqb name (bs "PING")); [destruct (_ =? _)%nat; asteps|].
  destruct (bytes_eqb name (bs "ECHO")); [destruct (negb _); asteps|].
  destruct (bytes_eqb name (bs "SELECT")); [destruct (negb _); [asteps|]; destruct (negb _); asteps|].
  destruct (bytes_eqb name (bs "READONLY")); [destruct (negb _); asteps|].
  destruct (bytes_eqb name (bs "READWRITE")); [destruct (negb _); asteps|].
  rewrite Eh, Ea.
  destruct (bytes_eqb name (bs "CLIENT")); [apply as_client|].
  destruct (bytes_eqb name (bs "INFO")); [apply as_router|].
  destruct (bytes_eqb name (bs "CLUSTER")); [apply as_cluster|].
  destruct (bytes_eqb name (bs "MULTI")).
  { apply as_answer_ok, as_ctx; [apply as_auth; [reflexivity|exact Ha]|by split]. }
  destruct (bytes_eqb name (bs "WATCH")); [apply as_watch; reflexivity|].
  destruct (bytes_eqb name (bs "UNWATCH")); [apply as_unwatch; reflexivity|].
  destruct (bytes_eqb name (bs "DISCARD")); [asteps|]. destruct (bytes_eqb name (bs "EXEC")); [asteps|].
  destruct (_ || _); [apply as_subscribe; [reflexivity|exact Ha]|].
  destruct (one_of name _); [apply as_router|].
  destruct (bytes_eqb name (bs "PROXY")); [apply as_proxy|].
  destruct (bytes_eqb name (bs "BROADCAST")); [apply as_router|].
  destruct (_ || _); [apply as_blocking; [reflexivity|exact Ha]|].
  destruct (routeToBackend _ _ _ _) as [h| | |] eqn:E; go_simp; try exact I. by eapply as_route.
Qed.

Lemma command_ok l c req name st :
  l <> LFlushed -> loop_ok l st -> auths st !! c <> Some false \/ unguarded name = true ->
  guarded (state_of c st) = false \/ one_of name ["QUIT"; "RESET"]%string = true ->
  res_ok l (command c req name st).
Proof.
  intros Hl Hok Ha Hs. destruct (bytes_eqb name (bs "HELLO")) eqn:Eh.
  { apply bytes_eqb_eq in Eh as ->. destruct Hs as [Hs|Hs]; [|vm_compute in Hs; discriminate Hs].
    by apply auth_HELLO. }
  destruct (bytes_eqb name (bs "AUTH")) eqn:Ea.
  { apply bytes_eqb_eq in Ea as ->. destruct Hs as [Hs|Hs]; [|vm_compute in Hs; discriminate Hs].
    by apply auth_AUTH. }
  destruct Ha as [Ha|Hu]; [by eapply res_astep, as_command|].
  unfold unguarded, one_of in Hu. cbn [existsb] in Hu. rewrite Ea, Eh in Hu. cbn [orb] in Hu. rewrite orb_false_r in Hu.
  unfold run_command. cbv zeta.
  destruct (bytes_eqb name (bs "QUIT")); [apply (res_astep l c st _ Hok); unfold quit_cmd; asteps|]. cbn [orb] in Hu.
  apply bytes_eqb_eq in Hu as ->. change (bytes_eqb (bs "PING") (bs "RESET")) with false.
  change (bytes_eqb (bs "PING") (bs "PING")) with true. cbv iota.
  apply (res_astep l c st _ Hok). destruct (_ =? _)%nat; asteps.
Qed.

Lemma lookup_auths c st : auths st !! c = authenticated <$> p_ctx st !! c.
Proof. apply lookup_fmap. Qed.

Lemma auth_ctx_of c st : authenticated (ctx_of c st) = true -> auths st !! c <> Some false.
Proof. unfold ctx_of. rewrite lookup_auths. destruct (p_ctx st !! c); cbn; [congruence|discriminate]. Qed.

Lemma normal_ok l c req name st :
  l <> LFlushed -> loop_ok l st -> guarded (state_of c st) = false \/ one_of name ["QUIT"; "RESET"]%string = true ->
  res_ok l (normal c req name st).
Proof.
  intros Hl Hok Hs. unfold handleNormal. cbv zeta.
  destruct (negb (authenticated (ctx_of c st)) && negb (unguarded name)) eqn:Eg; [by apply res_err|].
  match goal with |- res_ok l (if ?b then _ else _) => destruct b end; [apply (astep_ok l c st); [unfold buffer_cmd; asteps|exact Hok]|].
  apply command_ok; [exact Hl|exact Hok| |exact Hs]. apply andb_false_iff in Eg as [Eg|Eg].
  - left. apply auth_ctx_of. by apply negb_false_iff.
  - right. by apply negb_false_iff.
Qed.

Lemma guarded_auth l c st : loop_ok l st -> guarded (state_of c st) = true -> auths st !! c <> Some false.
Proof. intros [_ Hok _ _] Hg Ha. specialize (Hok c Ha). unfold state_of in Hg. unfold sts in Hok. congruence. Qed.

Lemma dispatch_ok l c req st : l <> LFlushed -> loop_ok l st -> res_ok l (dispatch_request c req st).
Proof.
  intros Hl Hok. unfold dispatchClientRequest. destruct (_ =? _)%nat; [apply (astep_ok l c st); [asteps|exact Hok]|]. cbv zeta.
  set (st1 := set_counts _ _ _ _ _). assert (Hok1 : loop_ok l st1) by (apply (astep_ok l c st); [unfold st1; asteps|exact Hok]). clearbody st1. clear Hok st.
  destruct (state_of c st1) eqn:Es.
  - apply normal_ok; [exact Hl|exact Hok1|left; by rewrite Es].
  - eapply res_astep; [exact Hok1|apply as_inSubscribe; [reflexivity|]]. by apply (guarded_auth l); [|rewrite Es].
  - eapply res_astep; [exact Hok1|apply as_inMulti; [reflexivity|]]. by apply (guarded_auth l); [|rewrite Es].
  - apply normal_ok; [exact Hl|exact Hok1|left; by rewrite Es].
  - eapply res_astep; [exact Hok1|apply as_inMulti; [reflexivity|]]. by apply (guarded_auth l); [|rewrite Es].
  - destruct (one_of _ _) eqn:E; [apply normal_ok; auto|].
    apply (astep_ok l c st1); [unfold buffer_cmd; asteps|exact Hok1].
Qed.

(** ** Callbacks *)


Definition ok_state (l : level) (o : outcome proxy) : Prop := match o with Ok st' => loop_ok l st' | _ => True end.

Lemma run_cmds_ok l c cmds st : l <> LFlushed -> loop_ok l st -> ok_state l (cmds_run c cmds st).
Proof.
  intros Hl. revert st. induction cmds as [|req cmds IH]; intros st Hok; [exact Hok|]. cbn [run_cmds].
  pose proof (dispatch_ok l c req st Hl Hok) as Hd.
  destruct (dispatch_request c req st) as [[st1 []]| | |]; go_simp; try exact I; [by apply IH|exact Hd].
Qed.

Lemma busy_not_flushed l : busy l <> LFlushed.
Proof. by destruct l. Qed.

Lemma loop_ok_busy l st : loop_ok l st -> loop_ok (busy l) st.
Proof. intros [Hw Ha Hh Hm]. split; [done..|by apply mux_at_busy]. Qed.

(** A flush ends what the commands began. *)
Lemma loop_ok_flush l st : loop_ok (busy l) st -> loop_ok l (upd_loop flushBackendWrites st).
Proof. intros [Hw Ha Hh Hm]. split; [done..|by apply mux_at_flush]. Qed.

Lemma drain_ok l c st : loop_ok l st -> ok_state l (drain c st).
Proof.
  intros Hok. unfold drainPendingCmds. destruct (pendingCmds _) as [|req cmds]; [exact Hok|].
  pose proof (run_cmds_ok (busy l) c (req :: cmds) (upd_ctx c (set_cmds []) st) (busy_not_flushed l)) as Hr.
  destruct (cmds_run _ _ _) as [st1| | |]; go_simp; try exact I.
  apply loop_ok_flush, Hr, loop_ok_busy, (astep_ok l c st); [asteps|exact Hok].
Qed.

Lemma back_close_ok l b st : loop_ok l st -> ok_state l (back_close b st).
Proof.
  intros Hok. unfold onBackendClose. destruct (back b st) as [x|]; [|exact Hok]. cbv zeta.
  set (st1 := upd_ctx _ _ _). assert (Hok1 : loop_ok l st1).
  { apply (ok_astep l (b_client x) st); [exact Hok|]. unfold st1, mark_closed. asteps. }
  destruct (p_ctx st1 !! _); [|exact Hok1]. destruct (_ && _); [|exact Hok1].
  apply drain_ok. apply (ok_astep l (b_client x) st1); [exact Hok1|]. asteps.
Qed.

Lemma close_callback_ok l o st : loop_ok l st -> ok_state l (close_callback cfg dial_error register_ok remote_addr pool_conns stats_text o st).
Proof.
  intros Hok. unfold close_callback. destruct o as [b|]; [|exact Hok].
  match goal with |- ok_state l (if ?x then _ else _) => destruct x end; [exact Hok|by apply back_close_ok].
Qed.

Lemma ok_bind l o (k : proxy -> outcome proxy) :
  ok_state l o -> (forall st, loop_ok l st -> ok_state l (k st)) -> ok_state l (o ≫= k).
Proof. intros Ho Hk. destruct o; go_simp; try exact I. by apply Hk. Qed.

Lemma removeClient_states c h : states (removeClient c h) = states h.
Proof. done. Qed.

(** Closing a client without the counter and the context. *)
Lemma close_conns_ok l c x st : loop_ok l st ->
  ok_state l (st ← close_callback cfg dial_error register_ok remote_addr pool_conns stats_text (watchBackend x) st;
    st ← close_callback cfg dial_error register_ok remote_addr pool_conns stats_text (multiBackend x) st;
    st ← close_callback cfg dial_error register_ok remote_addr pool_conns stats_text (blockingBackend x) st;
    Ok (if bool_decide (state_of c st = stateSubscribe) then upd_hub (removeClient c) st else st)).
Proof.
  intros Hok. apply ok_bind; [by apply close_callback_ok|]. intros st2 H2.
  apply ok_bind; [by apply close_callback_ok|]. intros st3 H3.
  apply ok_bind; [by apply close_callback_ok|]. intros st4 [Hw Ha Hh Hm]. cbn [ok_state].
  case_bool_decide; [|done]. split; [done|done|by apply removeClient_ok|done].
Qed.

Lemma auth_back l c st0 b r st : astep l c st0 st -> astep l c st0 (authDedicatedConn cfg b c r st).
Proof. intros H'. unfold authDedicatedConn, b_write, push_respond. asteps. Qed.
Lemma as_sendBlocking l c st0 b r st : astep l c st0 st -> astep l c st0 (sendBlockingCmd b c r st).
Proof. intros H'. destruct r; cbn; asteps. Qed.
#[local] Hint Resolve auth_back as_sendBlocking : astep.

Lemma back_open_ok l b st : loop_ok l st -> loop_ok l (fst (onBackendOpen cfg b st)).
Proof.
  intros Hok. unfold onBackendOpen. destruct (back b st) as [x|]; [|exact Hok].
  destruct (p_ctx st !! b_client x) as [ctx|]; [|exact Hok]. cbv zeta.
  destruct (isBlockingConn x); [apply (ok_astep l (b_client x) st _ Hok); cbn [fst]; destruct (has_password cfg); asteps|].
  destruct (isMultiConn x); [apply (ok_astep l (b_client x) st _ Hok); cbn [fst]; asteps|].
  apply (ok_astep l (b_client x) st _ Hok).
  destruct (has_password cfg); destruct (pendingWatchReq ctx); cbn [fst]; asteps.
Qed.

Lemma multi_ready_ok l b st : loop_ok l st -> ok_state l (multiReady cfg b st).
Proof.
  intros Hok. unfold multiReady. destruct (back b st) as [x|]; [|exact Hok].
  destruct (b_start x) as [[queue slot]|]; [|exact Hok]. destruct (p_ctx st !! b_client x); [|exact Hok].
  destruct (isClosed x); [exact I|]. cbv zeta. cbn [ok_state].
  apply (ok_astep l (b_client x) st _ Hok). destruct (has_password cfg); asteps.
Qed.

Lemma dial_failed_ok l b msg st : loop_ok l st -> ok_state l (dial_fails b msg st).
Proof.
  intros Hok. unfold dialFailed. destruct (back b st) as [x|]; [|exact Hok]. cbv zeta.
  destruct (isMultiConn x).
  { destruct (b_start x) as [[q slot]|]; [|exact Hok]. apply (ok_astep l (b_client x) st _ Hok). asteps. }
  destruct (p_ctx st !! b_client x) as [ctx|]; [|exact Hok].
  destruct (isBlockingConn x); [|apply (ok_astep l (b_client x) st _ Hok); asteps].
  apply drain_ok. apply (ok_astep l (b_client x) st _ Hok). asteps.
Qed.

Lemma send_queue_as l c st0 b q slot st : astep l c st0 st -> astep l c st0 (send_queue b c q slot st).
Proof.
  intros H'. unfold send_queue. apply as_ask. revert st H'. induction q as [|r q IH]; intros st H'; [exact H'|].
  cbn [foldl]. apply IH. by apply as_ask.
Qed.

Lemma respond_ok l b c r v st : loop_ok l st -> ok_state l (respond_to b c r v st).
Proof.
  intros Hok. unfold run_respond. cbv zeta.
  assert (Hauth : forall st, astep l c st (if IsError (Some v) then
      match p_ctx st !! c with
      | Some ctx => fill c (pendingWatchSlot ctx) (EncodeError (bs "ERR backend auth failed: " ++ Error (Some v))) st
      | None => upd_hub (writeHubMsgToClient c (EncodeError (bs "ERR backend auth failed: " ++ Error (Some v)))) st
      end else st)).
  { intros st1. destruct (IsError _); [|reflexivity]. destruct (p_ctx st1 !! c); asteps. }
  destruct r as [|req|req slot|slot| |queue slot|slot|req].
  - by eapply ok_astep.
  - apply (ok_astep l c st _ Hok). destruct (IsError (Some v)) eqn:E; [specialize (Hauth st); by rewrite ?E in Hauth|]. asteps.
  - destruct (IsMovedError _); [apply (ok_astep l c st _ Hok); by apply as_dialDedicated; asteps|].
    apply drain_ok, (ok_astep l c st _ Hok). destruct (IsError _); asteps.
  - apply (ok_astep l c st _ Hok). destruct (IsError _); asteps.
  - exact Hok.
  - destruct (IsError _); apply (ok_astep l c st _ Hok); [asteps|]. by apply send_queue_as.
  - apply (ok_astep l c st _ Hok). asteps.
  - unfold handleBlockingResponse. cbv zeta.
    assert (Hend : ok_state l (drain c (returnBlockingConn b (upd_ctx c (fun x => set_blocking None (blockingSlotIdx x) x)
      (to_state c stateNormal (fill c (blockingSlotIdx (ctx_of c st)) (EncodeValue (Some v)) st)))))).
    { apply drain_ok, (ok_astep l c st _ Hok). asteps. }
    destruct (IsMovedError _); [|exact Hend]. destruct (ParseRedirection _) as [[sl a]| | |]; try exact Hend.
    apply (ok_astep l c st _ Hok). asteps.
Qed.

Lemma back_traffic_ok l fuel b buf st :
  loop_ok l st -> res_ok l (o ← back_traffic cfg dial_error register_ok remote_addr pool_conns stats_text fuel b buf st;
                        Ok (fst (fst o), tt)).
Proof.
  revert buf st. induction fuel as [|fuel IH]; intros buf st Hok; [exact I|]. cbn [back_traffic].
  destruct (back b st) as [x|]; [|exact Hok]. destruct (isClosed x); [exact Hok|].
  destruct (ParseValue buf) as [[[v n]|]| | |]; go_simp; try exact I; try exact Hok.
  destruct (b_pending x) as [|[c r] ps]; [by apply IH|].
  assert (loop_ok l (pop_respond b st)) as Hok' by (apply (ok_astep l c st _ Hok); unfold pop_respond; asteps).
  pose proof (respond_ok l b c r v (pop_respond b st) Hok') as Hr.
  destruct (respond_to b c r v (pop_respond b st)) as [st1| | |]; go_simp; try exact I. by apply IH.
Qed.

Lemma client_loop_ok l fuel c buf st :
  l <> LFlushed -> loop_ok l st -> res_ok l (o ← client_loop cfg dial_error register_ok remote_addr pool_conns stats_text fuel c buf st;
                        Ok (fst (fst o), tt)).
Proof.
  intros Hl. revert buf st. induction fuel as [|fuel IH]; intros buf st Hok; [exact I|]. cbn [client_loop].
  destruct (ParseRequest buf) as [[[req n]|]| | |]; go_simp; try exact I; try exact Hok;
    [|cbn [fst]; apply (ok_astep l c st _ Hok); asteps].
  pose proof (dispatch_ok l c req st Hl Hok) as Hd.
  destruct (dispatch_request c req st) as [[st1 []]| | |]; go_simp; try exact I; [by apply IH|exact Hd].
Qed.

End invariant.

(** ** The event loop

    What gnet, the backends and the goroutine pool can make the loop do; [allowed] limits
    the traffic of the shared connections. *)

Section steps.
Context (allowed : event -> Prop).

(** While clients stay. *)
Inductive istep (st : proxy) : proxy -> Prop :=
| HRead c buf st' rest a : client_read c buf st = Ok (st', rest, a) -> istep st st'
| HBackOpen b : istep st (fst (onBackendOpen cfg b st))
| HBackClose b st' : back_close b st = Ok st' -> istep st st'
| HBackRead b buf st' rest a : back_read b buf st = Ok (st', rest, a) -> istep st st'
| HMultiReady b st' : multiReady cfg b st = Ok st' -> istep st st'
| HDialFailed b msg st' : dial_fails b msg st = Ok st' -> istep st st'
| HMux e w : allowed e -> step dial_error (loop_of st) e = Ok w -> istep st (upd_loop (fun _ => w) st)
| HJob c slot j l1 l2 r :
    h_jobs (p_h st) = l1 ++ (c, slot, j) :: l2 ->
    istep st (post_fill c slot (job_data r) (upd_h (fun h => mkH (h_loop h) (h_mode h) (l1 ++ l2)) st))
| HHubOpen : istep st (upd_hub (onSharedBackendOpen (Username cfg) (Password cfg)) st)
| HHubClose order : istep st (upd_hub (onSharedBackendClose order) st)
| HHubRead order buf h rest cl :
    onSharedBackendTraffic order buf (p_hub st) = Ok (h, rest, cl) -> istep st (upd_hub (fun _ => h) st)
| HHubFailed : istep st (upd_hub dial_failed st)
| HTopology t : istep st (upd_loop (set_topology t) st).

Inductive hstep (st : proxy) : proxy -> Prop :=
| HOpen c : p_ctx st !! c = None -> hstep st (snd (fst (onClientOpen cfg c st)))
| HClose c st' : client_close c st = Ok st' -> hstep st st'
| HStay st' : istep st st' -> hstep st st'.

Inductive reachable (st0 : proxy) : proxy -> Prop :=
| reach_start : reachable st0 st0
| reach_step st st' : reachable st0 st -> hstep st st' -> reachable st0 st'.

Lemma auth_same_sts st st' : auths st' = auths st ->
  (forall d, sts st' !! d = sts st !! d \/ guarded (default stateNormal (sts st' !! d)) = false) ->
  auth_ok st -> auth_ok st'.
Proof.
  intros Ha Hs Hok d. rewrite Ha. intros Hd. destruct (Hs d) as [->|Hg]; [by apply Hok|exact Hg].
Qed.

Lemma notify_states es seen h d :
  states (notify es seen h) !! d = states h !! d \/ states (notify es seen h) !! d = Some stateNormal.
Proof.
  revert seen h. induction es as [|e es IH]; intros seen h; [by left|]. cbn [notify].
  case_decide; [apply IH|].
  match goal with |- context [notify es ?x ?y] => destruct (IH x y) as [->| ->] end; [|by right].
  cbn [states set_state writeHubMsgToClient]. destruct (decide (d = e_client e)) as [->|Hne].
  - right. apply lookup_insert_eq.
  - left. by apply lookup_insert_ne.
Qed.

Lemma hub_open_states u p h : states (onSharedBackendOpen u p h) = states h.
Proof.
  unfold onSharedBackendOpen. cbn. set (h1 := set_wire _ _).
  change (states h) with (states h1). generalize (pendingClients h). clearbody h1. intros l. revert h1.
  induction l as [|pc l IH]; intros h1; [done|]. cbn. by rewrite IH, states_forward.
Qed.

Lemma write_all_app ms1 ms2 h : write_all ms2 (write_all ms1 h) = write_all (ms1 ++ ms2) h.
Proof. unfold write_all. by rewrite foldl_app. Qed.

(** A message of the shared connection is only written to clients. *)
Lemma dispatch_message_writes order v h h' :
  dispatchMessage order v h = Ok h' -> exists ms, h' = write_all ms h.
Proof.
  unfold dispatchMessage. destruct (_ || _); [intros [= <-]; by exists []|].
  destruct (elem _ 0) as [v0| | |]; go_simp; try done. cbv zeta.
  destruct (_ || _); [intros [= <-]; by exists []|]. destruct (_ || _).
  { destruct (elem _ 1) as [v1| | |]; go_simp; try done. intros [= <-]. eauto. }
  destruct (bytes_eqb _ _).
  { destruct (elem _ 1) as [v1| | |]; go_simp; try done. destruct (elem _ 2) as [v2| | |]; go_simp; try done.
    intros [= <-]. rewrite ?write_all_app. eauto. }
  destruct (bytes_eqb _ _); [|intros [= <-]; by exists []]. destruct (_ <? _); [intros [= <-]; by exists []|].
  destruct (elem _ 2) as [v1| | |]; go_simp; try done. destruct (elem _ 3) as [v2| | |]; go_simp; try done.
  intros [= <-]. rewrite ?write_all_app. eauto.
Qed.

Lemma shared_traffic_writes order fuel buf h h' rest cl :
  shared_traffic order fuel buf h = Ok (h', rest, cl) -> exists ms, h' = write_all ms h.
Proof.
  revert buf h. induction fuel as [|fuel IH]; intros buf h; [done|]. cbn [shared_traffic].
  destruct (ParseValue buf) as [[[v n]|]| | |]; try done; try (intros [= <- <- <-]; by exists []).
  destruct (dispatchMessage order v h) as [h1| | |] eqn:E; go_simp; try done.
  intros Hr. destruct (dispatch_message_writes _ _ _ _ E) as [ms1 ->]. destruct (IH _ _ Hr) as [ms2 ->].
  rewrite write_all_app. eauto.
Qed.

Definition level_allows (l : level) : Prop :=
  match l with LNone => True | LMux => False | LFlushed => forall e, allowed e -> event_safe e end.

(** The invariant, whoever is connected. *)
Abbreviation loop_inv l st := (loop_ok (census st) l st).

Lemma loop_ok_inv who l st : loop_ok who l st -> loop_inv l st.
Proof. intros [Hw Ha Hh Hm]. by split. Qed.

Lemma admit_loop_ok l c st : loop_inv l st -> loop_inv l (admit_client cfg c st).
Proof.
  intros [_ Hok Hh Hm]. split; [done| |by revert Hh; apply hub_ok_same|by revert Hm; apply mux_at_same].
  intros d. unfold auths, sts. cbn.
  destruct (decide (d = c)) as [->|Hne]; [by rewrite lookup_insert_eq|].
  rewrite lookup_fmap, !lookup_insert_ne by done. intros Hd. apply Hok. unfold auths. by rewrite lookup_fmap.
Qed.

Lemma open_loop_ok l c st : loop_inv l st -> loop_inv l (snd (fst (onClientOpen cfg c st))).
Proof. intros Hok. unfold onClientOpen. destruct (limit_reached st); [done|by apply admit_loop_ok]. Qed.

Lemma close_loop_ok l c st st' : loop_inv l st -> client_close c st = Ok st' ->
  loop_inv l st' /\ census st' = (delete c (ids st), numClients st - 1, clientIDSeq st).
Proof.
  intros Hok Hc. unfold onClientClose in Hc. cbv zeta in Hc. set (st1 := set_counts _ _ _ _ _) in Hc.
  assert (H1 : loop_inv l st1) by (destruct Hok as [_ ? ? ?]; by split).
  destruct (p_ctx st1 !! c) as [x|] eqn:Ex.
  2:{ injection Hc as <-. split; [done|]. unfold census, st1, ids. cbn.
      rewrite delete_id; [done|]. rewrite lookup_fmap. change (p_ctx st) with (p_ctx st1). by rewrite Ex. }
  pose proof (close_conns_ok (census st1) l c x st1 H1) as Hk.
  destruct (close_callback _ _ _ _ _ _ (watchBackend x) st1) as [st2| | |]; go_simp_all; try done.
  destruct (close_callback _ _ _ _ _ _ (multiBackend x) st2) as [st3| | |]; go_simp_all; try done.
  destruct (close_callback _ _ _ _ _ _ (blockingBackend x) st3) as [st4| | |]; go_simp_all; try done.
  injection Hc as <-. set (st5 := if bool_decide _ then _ else _) in *. clearbody st5. destruct Hk as [Hw Ha Hh Hm].
  split; [split; [done| |done|revert Hm; by apply mux_at_same]|].
  - intros d. unfold auths. cbn. rewrite lookup_fmap. destruct (decide (d = c)) as [->|Hne].
    + by rewrite lookup_delete_eq.
    + rewrite lookup_delete_ne by done. intros Hd. apply Ha. unfold auths. by rewrite lookup_fmap.
  - unfold census in Hw. injection Hw as Hi Hn Hs. unfold census, ids in *. cbn. rewrite fmap_delete, Hi, Hn, Hs. done.
Qed.

Lemma hub_loop_ok who l f st :
  loop_ok who l st -> hub_ok (f (p_hub st)) ->
  (forall d, states (f (p_hub st)) !! d = states (p_hub st) !! d \/
             states (f (p_hub st)) !! d = Some stateNormal) ->
  loop_ok who l (upd_hub f st).
Proof.
  intros [Hw Hok Hh Hm] Hf Hs. split; [done| |done|done]. revert Hok. apply auth_same_sts; [done|].
  intros d. unfold sts. cbn [p_hub upd_hub]. destruct (Hs d) as [->| ->]; auto.
Qed.

Lemma read_loop_ok who l c buf st st' rest a :
  loop_ok who l st -> client_read c buf st = Ok (st', rest, a) -> loop_ok who l st'.
Proof.
  intros Hok E. unfold onClientTraffic in E. destruct (p_ctx st !! c); [|by injection E as <- _ _].
  pose proof (client_loop_ok who (busy l) (S (length buf)) c buf st (busy_not_flushed l) (loop_ok_busy _ _ _ Hok)) as Hr.
  destruct (client_loop _ _ _ _ _ _ _ _ _ _) as [[[st1 r1] a1]| | |]; go_simp_all; try done.
  injection E as <- _ _. by apply loop_ok_flush.
Qed.

Lemma istep_ok who l st st' : level_allows l -> loop_ok who l st -> istep st st' -> loop_ok who l st'.
Proof.
  intros Hl Hok Hs. destruct Hs as [c buf st' rest a E|b|b st' E|b buf st' rest a E|b st' E|b msg st' E|e w He E
    |c slot j l1 l2 r E| |order|order buf h rest cl E| |t].
  - by eapply read_loop_ok.
  - by apply back_open_ok.
  - pose proof (back_close_ok who l b st Hok) as Hr. by rewrite E in Hr.
  - pose proof (back_traffic_ok who l (S (length buf)) b buf st Hok) as Hr. unfold onBackendTraffic in E.
    rewrite E in Hr. go_simp_in Hr. exact Hr.
  - pose proof (multi_ready_ok who l b st Hok) as Hr. by rewrite E in Hr.
  - pose proof (dial_failed_ok who l b msg st Hok) as Hr. by rewrite E in Hr.
  - destruct Hok as [Hw Ha Hh Hm]. split; [done|done|done|]. destruct l; [done|done|]. destruct Hm as [Hm Hf].
    exact (step_ok dial_error _ _ _ Hm Hf (Hl e He) E).
  - apply (ok_astep who l c st _ Hok). apply as_post, (as_same l c st st); done.
  - apply hub_loop_ok; [done|exact (HubFacts.open_ok _ _ _ (lo_hub _ _ _ Hok))|]. intros d. left. by rewrite hub_open_states.
  - apply hub_loop_ok; [done|apply hub_close_ok|]. intros d. unfold onSharedBackendClose. cbn [states set_subs].
    match goal with |- context [notify ?e ?x ?y] => destruct (notify_states e x y d) as [->| ->] end;
      [by left|by right].
  - destruct (shared_traffic_writes _ _ _ _ _ _ _ E) as [ms ->].
    apply hub_loop_ok; [done|exact (write_all_ok _ _ (lo_hub _ _ _ Hok))|]. intros d. left. by rewrite states_write.
  - apply hub_loop_ok; [done|by apply (hub_ok_same (p_hub st)), (lo_hub _ _ _ Hok)|by left].
  - destruct Hok as [Hw Ha Hh Hm]. split; [done|done|done|by revert Hm; apply mux_at_same].
Qed.

Lemma hstep_ok l st st' : level_allows l -> loop_inv l st -> hstep st st' -> loop_inv l st'.
Proof.
  intros Hl Hok [c Hc|c st1 E|st1 E]; [by apply open_loop_ok|by eapply close_loop_ok|].
  eapply loop_ok_inv, istep_ok; eauto.
Qed.

Lemma reachable_ok l st0 st : level_allows l -> loop_inv l st0 -> reachable st0 st -> loop_inv l st.
Proof. intros Hl H'. induction 1; [done|by eapply hstep_ok]. Qed.

End steps.

(** ** The guard *)

Lemma view_wi c d st : backend_view (wi c d st) = backend_view st.
Proof.
  unfold backend_view, wi, reply_now, loop_of. cbn. destruct (clients (h_loop (p_h st)) !! c) as [q|]; [|done].
  destruct (writeImmediate d q) as [q' [[i x]|]]; done.
Qed.

Lemma view_auth c args st : backend_view (handleAUTH cfg c args st) = backend_view st.
Proof.
  unfold handleAUTH. destruct (ClientPassword cfg); [apply view_wi|].
  destruct args as [|a0 [|a1 [|a2 [|]]]]; try apply view_wi; destruct (bytes_eqb _ _);
    by rewrite view_wi.
Qed.

Lemma view_options fuel c opts st :
  match hello_options cfg fuel c opts st with inl st' | inr st' => backend_view st' = backend_view st end.
Proof.
  revert opts st. induction fuel as [|fuel IH]; intros opts st; [done|]. cbn [hello_options].
  destruct opts as [|o opts]; [done|]. destruct (bytes_eqb _ _).
  { destruct opts as [|u [|p opts]]; [apply view_wi..|]. cbv zeta. destruct (authenticated _); [|apply view_auth].
    specialize (IH opts (handleAUTH cfg c [bs "AUTH"; u; p] st)).
    destruct (hello_options _ _ _ _ _); by rewrite IH, view_auth. }
  destruct (bytes_eqb _ _); [|apply IH]. destruct opts as [|n opts]; [apply view_wi|].
  apply (IH opts (upd_ctx c (set_name n) st)).
Qed.

Lemma ok_fst {A B} (x y : A) (a b : B) : Ok (x, a) = Ok (y, b) -> y = x.
Proof. by intros [= -> _]. Qed.

Lemma view_hello c req st st' a : handleHELLO cfg c req st = Ok (st', a) -> backend_view st' = backend_view st.
Proof.
  unfold handleHELLO. cbv zeta.
  assert (Hf : forall st1, backend_view st1 = backend_view st -> (if authenticated (ctx_of c st1)
    then Ok (wi c (EncodeValue (Some (hello_reply (c_id (ctx_of c st1))))) st1, ActNone) else answer_err c noauth st1)
    = Ok (st', a) -> backend_view st' = backend_view st).
  { intros st1 H1. unfold answer_err. destruct (authenticated _); intros ->%ok_fst; by rewrite view_wi. }
  destruct (drop 1 (Args req)) as [|v opts]; [by apply Hf|].
  destruct (bytes_eqb _ _); [intros ->%ok_fst; apply view_wi|].
  destruct (_ && _); [intros ->%ok_fst; apply view_wi|].
  pose proof (view_options (S (length opts)) c opts st) as Ho.
  destruct (hello_options _ _ _ _ _); [by intros ->%ok_fst|by apply Hf].
Qed.

Lemma command_AUTH c req st : command c req (bs "AUTH") st = Ok (handleAUTH cfg c (Args req) st, ActNone).
Proof. reflexivity. Qed.
Lemma command_HELLO c req st : command c req (bs "HELLO") st = handleHELLO cfg c req st.
Proof. reflexivity. Qed.
Lemma command_QUIT c req st : command c req (bs "QUIT") st = quit_cmd c st.
Proof. reflexivity. Qed.
Lemma command_PING c req st : command c req (bs "PING") st
  = if (length (Args req) =? 1)%nat then answer_ok c (bs "PONG") st else answer_bulk c (default [] (Args req !! 1%nat)) st.
Proof. reflexivity. Qed.

Lemma view_normal c req st st' a :
  authenticated (ctx_of c st) = false ->
  normal c req (Cmd req) st = Ok (st', a) -> backend_view st' = backend_view st.
Proof.
  intros Ha. unfold handleNormal. cbv zeta. rewrite Ha. cbn [negb andb].
  destruct (unguarded (Cmd req)) eqn:Eu; cbn [negb]; [|intros ->%ok_fst; apply view_wi].
  match goal with |- (if ?b then _ else _) = _ -> _ => destruct b end; [by intros ->%ok_fst|].
  unfold unguarded, one_of in Eu. cbn [existsb] in Eu. rewrite !orb_true_iff in Eu.
  destruct Eu as [Eu|[Eu|[Eu|[Eu|Eu]]]]; [apply bytes_eqb_eq in Eu; rewrite Eu..|discriminate Eu].
  - rewrite command_AUTH. intros ->%ok_fst. apply view_auth.
  - rewrite command_QUIT. by intros ->%ok_fst.
  - rewrite command_HELLO. apply view_hello.
  - rewrite command_PING. destruct (_ =? _)%nat; intros ->%ok_fst; apply view_wi.
Qed.

End handlers.

(** ** Properties *)

(** What holds of an event loop between its callbacks.  The shared connections: the
    commands of a log were sent on each of them, the requests that wait there are its
    unanswered end, and nothing is left in a write buffer. *)
Definition loop_wires (st : proxy) : Prop :=
  forall addr bc, conns (loop_of st) !! addr = Some bc ->
    writeBuf bc = [] /\
    (exists log n, wire bc = concat (map cmd_bytes log) /\ live bc = drop n log /\ (n <= length log)%nat) /\
    Forall (fun p => skipReply p = true \/ is_request p) (live bc).

(** The hub and the clients: every entry of the hub's tables is registered for its client,
    at most one for a client and a pattern, and the clients without the password are in
    unguarded states. *)
Definition loop_safe (st : proxy) : Prop :=
  hub_ok (p_hub st) /\
  (forall c x, p_ctx st !! c = Some x -> authenticated x = false -> guarded (state_of c st) = false).

Definition loop_sound (st : proxy) : Prop := loop_wires st /\ loop_safe st.

Lemma loop_ok_safe who l st : loop_ok who l st -> loop_safe st.
Proof.
  intros [_ Ha Hh _]. split; [exact Hh|]. intros c x Hx Hu. apply (Ha c). rewrite lookup_auths, Hx. cbn. by rewrite Hu.
Qed.

Lemma loop_ok_sound who st : loop_ok who LFlushed st -> loop_sound st.
Proof.
  intros Hok. split; [|by eapply loop_ok_safe]. destruct Hok as [_ _ _ [[Hc _] Hf]].
  intros addr bc Hb. destruct (Hc addr bc Hb) as (_ & (log & n & Hw & Hl & Hn) & Hq).
  specialize (Hf addr bc Hb). rewrite Hf, app_nil_r in Hw. by eauto 10.
Qed.

(** A process that has served nobody yet: no client, no shared connection, an empty hub. *)
Record fresh (st : proxy) : Prop := {
  fr_ctx : p_ctx st = ∅;
  fr_loop : exists cs t, loop_of st = newBackendMux cs t;
  fr_hub : exists sts, p_hub st = newPubsubHub sts;
}.

Lemma fresh_ok l st : fresh st -> loop_ok (census st) l st.
Proof.
  intros [Hc (cs & t & Hl) (sts & Hh)]. split; [done|..].
  - intros d. unfold auths. by rewrite Hc, fmap_empty, lookup_empty.
  - rewrite Hh. apply hub_ok_new.
  - rewrite Hl. destruct l; [done|..]; apply new_ok.
Qed.

(** C12: a client that has not given the password reaches no backend: in every state the
    event loop can get into, whatever it sends is answered without anything being
    sent, dialled, subscribed or given to the router. *)
Theorem auth_guard `{GoGlob} `{GoUnicode} cfg dial_error register_ok remote_addr pool_conns stats_text st0 st c x req st' a :
  fresh st0 ->
  reachable cfg dial_error register_ok remote_addr pool_conns stats_text (fun _ => True) st0 st ->
  p_ctx st !! c = Some x -> authenticated x = false ->
  dispatchClientRequest cfg dial_error register_ok remote_addr pool_conns stats_text c req st = Ok (st', a) ->
  backend_view st' = backend_view st.
Proof.
  intros H0' Hr Hx Ha Hd.
  assert (Hok : auth_ok st).
  { by eapply (reachable_ok _ _ _ _ _ _ _ LNone), Hr; [|apply fresh_ok]. }
  assert (Hg : guarded (state_of c st) = false).
  { apply (Hok c). rewrite lookup_auths, Hx. cbn. by rewrite Ha. }
  unfold dispatchClientRequest in Hd. destruct (_ =? _)%nat; [by injection Hd as <- _|]. cbv zeta in Hd.
  set (st1 := set_counts _ _ _ _ _) in Hd.
  assert (Hv : backend_view st1 = backend_view st) by reflexivity.
  assert (Hc : authenticated (ctx_of c st1) = false) by (unfold ctx_of, st1; cbn; by rewrite Hx).
  change (state_of c st) with (state_of c st1) in Hg. rewrite <- Hv.
  destruct (state_of c st1); try discriminate Hg; by eapply view_normal.
Qed.

Definition guard_cfg : config := mkConfig (FromArgs [] [WithClientPassword (bs "pw")]) [].
Definition fresh_proxy : proxy :=
  mkProxy (mkH (newBackendMux ∅ NewTopology) ReadModeMasterOnly []) (newPubsubHub ∅) ∅ [] ∅ 0 0 0 0 0.
#[local] Instance guard_text : GoUnicode := ascii_unicode.
#[local] Instance guard_glob : GoGlob := {| filepath_Match := fun _ _ => None |}.
Definition no_errors (_ : nat) (_ : bytes) : option bytes := None.
Definition one_open : proxy := snd (fst (onClientOpen guard_cfg 1 fresh_proxy)).
Definition get_k : Request := mkRequest [bs "GET"; bs "k"] [] (bs "GET").

Lemma fresh_proxy_fresh : fresh fresh_proxy.
Proof. split; [reflexivity|by eexists _, _|by eexists]. Qed.

Lemma auth_guard_witness :
  exists st' a, dispatchClientRequest guard_cfg no_errors (fun _ => true) (fun _ => []) (fun _ => 0) [] 1 get_k one_open
    = Ok (st', a) /\ backend_view st' = backend_view one_open.
Proof.
  eexists _, _. split; [reflexivity|].
  refine (auth_guard guard_cfg no_errors (fun _ => true) (fun _ => []) (fun _ => 0) [] fresh_proxy one_open 1
    (new_ctx 1 false) get_k _ _ _ _ _ _ _).
  - exact fresh_proxy_fresh.
  - eapply reach_step; [apply reach_start|]. apply (HOpen _ _ _ _ _ _ _ fresh_proxy 1). reflexivity.
  - reflexivity.
  - reflexivity.
  - reflexivity.
Defined.

(** The components of one event loop keep each other's invariants: in every state
    that opening and closing clients, their commands, the replies of the shared and the
    dedicated connections, failing dials, finished goroutines, pub/sub messages and new
    topologies lead to (no ASK following a MOVED within one read of a shared
    connection), nothing is left in a write buffer, the bytes sent on every shared
    connection are the commands of a log whose unanswered end is what waits there, every
    entry of the pub/sub hub is registered for its client, and no client without the
    password is in a state that would let it past the guard. *)
Lemma loop_invariant `{GoGlob} `{GoUnicode} cfg dial_error register_ok remote_addr pool_conns stats_text st0 st :
  fresh st0 ->
  reachable cfg dial_error register_ok remote_addr pool_conns stats_text event_safe st0 st ->
  loop_sound st.
Proof.
  intros H0' Hr. eapply loop_ok_sound, reachable_ok, Hr; [by intros e|by apply fresh_ok].
Qed.

(** What a step of the loop leaves, when it returns. *)
Definition after (o : outcome (proxy * bytes * action)) : proxy * bytes * action :=
  match o with Ok r => r | _ => (fresh_proxy, [], ActNone) end.
Definition after_mux (o : outcome evloop) : evloop :=
  match o with Ok w => w | _ => newBackendMux ∅ NewTopology end.

Lemma after_Ok o : match o with Ok _ => true | _ => false end = true ->
  o = Ok (fst (fst (after o)), snd (fst (after o)), snd (after o)).
Proof. by destruct o as [[[]]| | |]. Qed.
Lemma after_mux_Ok o : match o with Ok _ => true | _ => false end = true -> o = Ok (after_mux o).
Proof. by destruct o. Qed.

Definition plain_cfg : config := mkConfig (FromArgs [] []) [].
Definition one_master : Topology := mkTopo (mkSnap ∅ {[HashSlot (bs "k") := bs "a:1"]} [bs "a:1"] 0 []) 0 0 0.
Definition idle_proxy : proxy :=
  mkProxy (mkH (newBackendMux ∅ one_master) ReadModeMasterOnly []) (newPubsubHub ∅) ∅ [] ∅ 0 0 0 0 0.
Definition client_in : proxy := snd (fst (onClientOpen plain_cfg 1 idle_proxy)).
Definition get_sent : outcome (proxy * bytes * action) :=
  onClientTraffic plain_cfg no_errors (fun _ => true) (fun _ => []) (fun _ => 0) [] 1 (EncodeCommandBytes [bs "GET"; bs "k"]) client_in.
Definition asked_once : proxy := fst (fst (after get_sent)).
Definition dialled_once : proxy := upd_loop (fun _ => after_mux (step no_errors (loop_of asked_once) (EOpen (bs "a:1")))) asked_once.

Lemma loop_invariant_witness :
  (match conns (loop_of dialled_once) !! bs "a:1" with
   | Some bc => (length (live bc), wire bc) | None => (0%nat, []) end)
  = (1%nat, EncodeCommandBytes [bs "GET"; bs "k"]) /\ hub_ok (p_hub dialled_once).
Proof.
  split; [by vm_compute|].
  refine (proj1 (proj2 (loop_invariant plain_cfg no_errors (fun _ => true) (fun _ => []) (fun _ => 0) [] idle_proxy
    dialled_once _ _))).
  - split; [reflexivity|by eexists _, _|by eexists].
  - eapply reach_step; [eapply reach_step; [eapply reach_step; [apply reach_start|]|]|].
    + apply (HOpen _ _ _ _ _ _ _ idle_proxy 1). reflexivity.
    + eapply HStay, (HRead _ _ _ _ _ _ _ client_in 1). exact (after_Ok get_sent ltac:(by vm_compute)).
    + apply HStay, (HMux _ _ _ _ _ _ _ asked_once (EOpen (bs "a:1")) _ I), after_mux_Ok. by vm_compute.
Defined.
