(* ===== verification/TxFacts.v ===== *)
(** * TxFacts: transactions and blocking commands, end to end

    [multi_exec] follows EXEC from the client's request through the dial of a dedicated
    connection to the reply; [blocking_defers] shows that the requests that arrive while
    a blocking command waits run after its reply, in order. *)

From S2P Require Import Prelude GoStd Config Crc16 Value RespParse RespFacts Command Topology RespQueue Mux Router Routing.
From S2P Require Import RoutingFacts Hub Handler HandlerFacts.

(** ** One dedicated connection *)

Definition put_back (b : nat) (y : backendCtx) : proxy -> proxy := upd_back <[b := y]>.

(** A connection after one more command was written to it. *)
Definition asked (c : nat) (args : list bytes) (r : respond) (x : backendCtx) : backendCtx :=
  set_b (b_client x) (b_addr x) (isClosed x) (pendingBlockingReq x) (b_pending x ++ [(c, r)]) (b_start x)
    (b_wire x ++ EncodeCommandBytes args) x.

Lemma upd_b_put b f st x : back b st = Some x -> upd_b b f st = put_back b (f x) st.
Proof. intros Hb. unfold upd_b, put_back, upd_back. by rewrite (alter_lookup_insert _ _ _ x Hb). Qed.

Lemma back_put b y st x : back b st = Some x -> back b (put_back b y st) = Some y.
Proof. unfold back. intros Hb. cbn. apply list_lookup_insert_eq. by apply lookup_lt_Some in Hb. Qed.

Lemma put_put b y z st : put_back b z (put_back b y st) = put_back b z st.
Proof. unfold put_back, upd_back. cbn. by rewrite list_insert_insert_eq. Qed.

Lemma ask_back_put b c args r st x : back b st = Some x -> ask_back b c args r st = put_back b (asked c args r x) st.
Proof.
  intros Hb. unfold ask_back, push_respond, b_write. rewrite (upd_b_put _ _ _ _ Hb).
  rewrite (upd_b_put _ _ _ _ (back_put _ _ _ _ Hb)). apply put_put.
Qed.

Definition asked_all (c : nat) (queue : list Request) (x : backendCtx) : backendCtx :=
  foldl (fun x req => asked c (Args req) RIgnore x) x queue.

Lemma send_queue_put b c queue slot st x : back b st = Some x ->
  send_queue b c queue slot st = put_back b (asked c [bs "EXEC"] (RExec slot) (asked_all c queue x)) st.
Proof.
  intros Hb. unfold send_queue.
  assert (Hf : forall st x, back b st = Some x ->
    foldl (fun st req => ask_back b c (Args req) RIgnore st) st queue = put_back b (asked_all c queue x) st).
  { clear. induction queue as [|req queue IH]; intros st x Hb.
    - unfold put_back, upd_back. cbn. rewrite list_insert_id by exact Hb. by destruct st.
    - cbn [foldl asked_all]. rewrite (ask_back_put _ _ _ _ _ _ Hb).
      rewrite (IH _ _ (back_put _ _ _ _ Hb)). apply put_put. }
  rewrite (Hf st x Hb), (ask_back_put _ _ _ _ _ _ (back_put _ _ _ _ Hb)). apply put_put.
Qed.

Lemma asked_all_spec c queue x :
  asked_all c queue x = set_b (b_client x) (b_addr x) (isClosed x) (pendingBlockingReq x)
    (b_pending x ++ map (fun _ => (c, RIgnore)) queue) (b_start x)
    (b_wire x ++ concat (map (fun r => EncodeCommandBytes (Args r)) queue)) x.
Proof.
  revert x. induction queue as [|req queue IH]; intros x; cbn.
  - rewrite !app_nil_r. by destruct x.
  - unfold asked_all in *. cbn. rewrite IH. unfold asked, set_b. cbn. by rewrite <- !app_assoc.
Qed.

Section run.
Context `{GoGlob} `{GoUnicode} (cfg : config) (dial_error : nat -> bytes -> option bytes).
Context (register_ok : bytes -> bool) (remote_addr : nat -> bytes) (pool_conns : bytes -> Z) (stats_text : bytes).

Abbreviation traffic := (back_traffic cfg dial_error register_ok remote_addr pool_conns stats_text).
Abbreviation respond_to := (run_respond cfg dial_error register_ok remote_addr pool_conns stats_text).

Definition popped (x : backendCtx) : backendCtx :=
  set_b (b_client x) (b_addr x) (isClosed x) (pendingBlockingReq x) (drop 1 (b_pending x)) (b_start x) (b_wire x) x.

(** One complete reply is read and given to the oldest waiting closure. *)
Lemma traffic_step fuel b v rest st x c r ps :
  back b st = Some x -> isClosed x = false -> b_pending x = (c, r) :: ps ->
  wf_value v = true -> buffer_ok (EncodeValue (Some v) ++ rest) ->
  traffic (S fuel) b (EncodeValue (Some v) ++ rest) st
  = (st1 ← respond_to b c r (canon v) (put_back b (popped x) st); traffic fuel b rest st1).
Proof.
  intros Hb Hc Hp Hwf Hbuf. cbn [back_traffic]. rewrite Hb, Hc, parse_encode by done.
  cbn [canon_ptr]. rewrite Hp. unfold pop_respond. rewrite (upd_b_put _ _ _ _ Hb). unfold popped.
  rewrite drop_app_length. done.
Qed.

(** The replies to the queued commands are dropped. *)
Lemma traffic_ignored fuel b rs rest st x c ps :
  back b st = Some x -> isClosed x = false -> b_pending x = map (fun _ => (c, RIgnore)) rs ++ ps ->
  Forall (fun v => wf_value v = true) rs -> buffer_ok (concat (map (fun v => EncodeValue (Some v)) rs) ++ rest) ->
  traffic (length rs + fuel) b (concat (map (fun v => EncodeValue (Some v)) rs) ++ rest) st
  = traffic fuel b rest (put_back b (set_b (b_client x) (b_addr x) (isClosed x) (pendingBlockingReq x) ps (b_start x) (b_wire x) x) st).
Proof.
  intros Hb Hc Hp Hwf. revert st x Hb Hc Hp. induction Hwf as [|v rs Hv _ IH]; intros st x Hb Hc Hp Hbuf;
    cbn [map concat length Nat.add app] in *.
  - unfold put_back, upd_back. f_equal. rewrite list_insert_id; [by destruct st|]. rewrite <- Hp.
    unfold back in Hb. rewrite Hb. by destruct x.
  - rewrite <- app_assoc in *. rewrite (traffic_step _ b v _ st x c RIgnore _ Hb Hc Hp Hv Hbuf). cbn [run_respond]. go_simp.
    rewrite (IH _ (popped x)); [by rewrite put_put|by apply back_put with x|done|by unfold popped; cbn; rewrite Hp|].
    unfold buffer_ok in *. rewrite !length_app in *. lia.
Qed.

Lemma close_put b st x : back b st = Some x -> isClosed x = false ->
  exists st1, close_conn b st = st1 /\ back b st1
    = Some (set_b (b_client x) (b_addr x) true (pendingBlockingReq x) (b_pending x) (b_start x) (b_wire x) x) /\
    p_h st1 = p_h st /\ p_hub st1 = p_hub st.
Proof.
  intros Hb Hc. eexists. split; [done|]. unfold close_conn. rewrite Hb, Hc. unfold mark_closed.
  rewrite (upd_b_put _ _ _ _ Hb). split; [|done]. by apply (back_put b _ st x).
Qed.

(** The reply to MULTI makes the queue and EXEC follow. *)
Lemma multi_reply fuel b c queue slot ok st x :
  back b st = Some x -> isClosed x = false -> b_pending x = [(c, RMulti queue slot)] ->
  wf_value ok = true -> IsError (Some ok) = false -> buffer_ok (EncodeValue (Some ok)) ->
  traffic (S (S fuel)) b (EncodeValue (Some ok)) st
  = Ok (put_back b (asked c [bs "EXEC"] (RExec slot) (asked_all c queue (popped x))) st, [], ActNone).
Proof.
  intros Hb Hc Hp Hwf He Hbuf. rewrite <- (app_nil_r (EncodeValue (Some ok))).
  rewrite (traffic_step _ b ok [] st x c _ _ Hb Hc Hp Hwf) by by rewrite app_nil_r.
  cbn [run_respond]. rewrite (proj1 (canon_fields ok Hwf)), He.
  rewrite (send_queue_put _ _ _ _ _ _ (back_put _ _ _ _ Hb)). go_simp. rewrite put_put. cbn [back_traffic].
  rewrite (back_put _ _ _ _ Hb), asked_all_spec. cbn [isClosed asked set_b popped]. by rewrite Hc.
Qed.

(** With a password AUTH goes first on a connection of its own: its bytes, the closure
    that waits for its reply, and the reply. *)
Definition auth_sent : bytes := if has_password cfg then auth_command (Username cfg) (Password cfg) else [].
Definition auth_waits (c : nat) : list (nat * respond) := if has_password cfg then [(c, RAuth)] else [].
Definition auth_reply (v : Value) : bytes := if has_password cfg then EncodeValue (Some v) else [].

Lemma auth_then_multi b c queue slot aok ok st x :
  back b st = Some x -> isClosed x = false -> b_pending x = auth_waits c ++ [(c, RMulti queue slot)] ->
  wf_value aok = true -> IsError (Some aok) = false -> wf_value ok = true -> IsError (Some ok) = false ->
  buffer_ok (auth_reply aok ++ EncodeValue (Some ok)) ->
  traffic (S (length (auth_reply aok ++ EncodeValue (Some ok)))) b (auth_reply aok ++ EncodeValue (Some ok)) st
  = Ok (put_back b (asked c [bs "EXEC"] (RExec slot)
          (asked_all c queue (set_b (b_client x) (b_addr x) (isClosed x) (pendingBlockingReq x) [] (b_start x) (b_wire x) x)))
          st, [], ActNone).
Proof.
  intros Hb Hc Hp Ha Hae Hwf He Hbuf. pose proof (encode_nonempty (Some ok) Hwf) as Hne.
  unfold auth_reply, auth_waits in *. destruct (has_password cfg).
  - pose proof (encode_nonempty (Some aok) Ha) as Hna.
    rewrite (traffic_step _ b aok (EncodeValue (Some ok)) st x c RAuth _ Hb Hc Hp Ha Hbuf). cbn [run_respond].
    rewrite (proj1 (canon_fields aok Ha)), Hae. go_simp. rewrite length_app.
    replace (length (EncodeValue (Some aok)) + length (EncodeValue (Some ok)))%nat
      with (S (S (length (EncodeValue (Some aok)) + length (EncodeValue (Some ok)) - 2))) by lia.
    rewrite (multi_reply _ b c queue slot ok _ (popped x)); [|by eapply back_put|exact Hc|by unfold popped; cbn; rewrite Hp|done..|].
    + rewrite put_put. unfold popped. cbn. by rewrite Hp.
    + unfold buffer_ok in *. rewrite length_app in Hbuf. lia.
  - cbn [app] in *. replace (length (EncodeValue (Some ok))) with (S (length (EncodeValue (Some ok)) - 1)) by lia.
    rewrite (multi_reply _ b c queue slot ok st x) by done. unfold popped. by rewrite Hp.
Qed.

(** The reply to EXEC, after those to the queued commands, fills the slot. *)
Lemma exec_reply b c slot rs v st x :
  back b st = Some x -> isClosed x = false ->
  b_pending x = map (fun _ => (c, RIgnore)) rs ++ [(c, RExec slot)] ->
  Forall (fun v => wf_value v = true) rs -> wf_value v = true ->
  let buf := concat (map (fun v => EncodeValue (Some v)) rs) ++ EncodeValue (Some v) in
  buffer_ok buf ->
  exists st1, traffic (S (length buf)) b buf st = Ok (fill c slot (EncodeValue (Some v)) st1, [], ActNone) /\
    back b st1 = Some (set_b (b_client x) (b_addr x) true (pendingBlockingReq x) [] (b_start x) (b_wire x) x) /\
    p_h st1 = p_h st /\ p_hub st1 = p_hub st.
Proof.
  intros Hb Hc Hp Hwf Hv buf Hbuf. pose proof (encode_nonempty (Some v) Hv) as Hne.
  assert (Hlen : (length rs <= length (concat (map (fun v => EncodeValue (Some v)) rs)))%nat).
  { clear -Hwf. induction Hwf as [|v rs Hv _ IH]; [done|]. cbn [map concat length]. rewrite length_app.
    pose proof (encode_nonempty (Some v) Hv). lia. }
  set (x1 := set_b (b_client x) (b_addr x) (isClosed x) (pendingBlockingReq x) [(c, RExec slot)] (b_start x) (b_wire x) x).
  assert (Hb1 : back b (put_back b x1 st) = Some x1) by by apply (back_put b x1 st x).
  destruct (close_put b (put_back b (popped x1) (put_back b x1 st)) (popped x1)) as (st1 & Hcl & Hb2 & Hh & Hhub);
    [by apply (back_put _ _ _ x1)|done|].
  exists st1. split; [|by rewrite Hh, Hhub].
  replace (S (length buf)) with (length rs + S (S (length buf - length rs - 1)))%nat
    by (unfold buf; rewrite length_app; lia).
  unfold buf at 2. rewrite <- (app_nil_r (EncodeValue (Some v))).
  rewrite (traffic_ignored _ b rs _ st x c _ Hb Hc Hp Hwf) by by rewrite app_nil_r.
  rewrite (traffic_step _ b v [] _ x1 c (RExec slot) [] Hb1 Hc eq_refl Hv).
  2:{ rewrite app_nil_r. unfold buffer_ok in *. unfold buf in Hbuf. rewrite length_app in Hbuf. lia. }
  cbn [run_respond]. rewrite Hcl. go_simp.
  change (EncodeValue (Some (canon v))) with (EncodeValue (Some (canon_ptr (Some v)))). rewrite encode_canon by done.
  cbn [back_traffic]. change (back b (fill c slot ?d st1)) with (back b st1). rewrite Hb2. cbn [isClosed set_b]. by rewrite app_nil_r.
Qed.

(** EXEC of a client in [stateMulti] dials a connection for the transaction. *)
Lemma exec_dials c q st x addr :
  p_ctx st !! c = Some x -> state_of c st = stateMulti -> clients (loop_of st) !! c = Some q ->
  txErr x = false -> multiBackend x = None -> txQueue x <> [] ->
  resolveMultiSlot (txQueue x) (topo_of st) = inr addr ->
  dial_error (length (dials (loop_of st))) addr = None ->
  let slot := (respBase q + length (respQueue q))%nat in
  exists st1, execMulti dial_error c st = Ok (st1, ActNone) /\
    p_back st1 = p_back st ++ [mkBack c addr false true false None [] (Some (txQueue x, slot)) []] /\
    p_ctx st1 !! c = Some (set_tx [] false x) /\ state_of c st1 = stateNormal /\
    clients (loop_of st1) !! c = Some (snd (allocResponseSlot q)).
Proof.
  intros Hx Hs Hq He Hm Hne Hr Hd slot. unfold execMulti. cbv zeta.
  assert (Hctx : ctx_of c st = x) by (unfold ctx_of; by rewrite Hx). rewrite Hctx, He, Hs, Hm, Hr.
  rewrite bool_decide_false by discriminate.
  destruct (txQueue x) as [|r0 queue] eqn:Eq; [done|]. cbn [length Nat.eqb].
  unfold alloc_slot, alloc. cbn [p_h upd_ctx upd_ctxs]. unfold loop_of in Hq, Hd. rewrite Hq. cbn [allocResponseSlot].
  unfold dialMultiBackend, dial_dedicated. cbn. unfold loop_of. cbn. rewrite Hd. eexists. split; [done|]. cbn.
  split; [done|]. split; [by rewrite lookup_alter_eq, Hx|]. split; [unfold state_of; cbn; by rewrite lookup_insert_eq|].
  unfold loop_of. cbn. by rewrite lookup_insert_eq.
Qed.

(** Once the connection is there, MULTI is sent on it. *)
Lemma multi_starts b c st x queue slot addr :
  back b st = Some (mkBack c addr false true false None [] (Some (queue, slot)) []) ->
  p_ctx st !! c = Some x ->
  exists st1, multiReady cfg b (fst (onBackendOpen cfg b st)) = Ok st1 /\
    back b st1 = Some (mkBack c addr false true false None (auth_waits c ++ [(c, RMulti queue slot)]) (Some (queue, slot))
                         (auth_sent ++ EncodeCommandBytes [bs "MULTI"])) /\
    p_h st1 = p_h st /\ p_hub st1 = p_hub st.
Proof.
  intros Hb Hx. unfold onBackendOpen. rewrite Hb. cbn [b_client isBlockingConn isMultiConn]. rewrite Hx. cbn [fst].
  unfold multiReady. change (back b (upd_ctx c (set_multi (Some b)) st)) with (back b st). rewrite Hb.
  cbn [b_client b_start isClosed]. cbn [p_ctx upd_ctx upd_ctxs]. rewrite lookup_alter_eq, Hx.
  cbn [fmap option_fmap option_map].
  set (st0 := upd_ctx c (set_multi (Some b)) st). change (back b st) with (back b st0) in Hb.
  eexists. split; [done|]. unfold auth_waits, auth_sent. destruct (has_password cfg).
  - unfold authDedicatedConn, push_respond, b_write. rewrite (upd_b_put _ _ _ _ Hb).
    rewrite (upd_b_put _ _ _ _ (back_put _ _ _ _ Hb)), put_put.
    rewrite (ask_back_put _ _ _ _ _ _ (back_put _ _ _ _ Hb)), put_put. split; [|done].
    by rewrite (back_put b _ st0 _ Hb).
  - rewrite (ask_back_put b c [bs "MULTI"] _ st0 _ Hb). split; [|done]. by rewrite (back_put b _ st0 _ Hb).
Qed.

End run.

(** The node a transaction is sent to owns the slot of the first key of every command in it. *)
Lemma target_slot_spec queue t0 t :
  target_slot queue t0 = Some t ->
  (forall s, t0 = Some s -> t = Some s) /\
  forall req key, req ∈ queue -> GetFirstKeyFromRequest req = Some key -> t = Some (HashSlot key).
Proof.
  revert t0. induction queue as [|r queue IH]; intros t0 Ht; cbn [target_slot] in Ht.
  { injection Ht as <-. split; [done|]. intros req key Hin. by apply not_elem_of_nil in Hin. }
  destruct (GetFirstKeyFromRequest r) as [k|] eqn:Ek.
  - destruct t0 as [s0|].
    + destruct (Z.eqb_spec (HashSlot k) s0) as [E|]; [|discriminate Ht]. destruct (IH _ Ht) as [H0 H1]. split; [exact H0|].
      intros req key Hin Hk. apply elem_of_cons in Hin as [E'|Hin]; [|by eapply H1]. rewrite E', Ek in Hk.
      injection Hk as <-. rewrite E. by apply H0.
    + destruct (IH _ Ht) as [H0 H1]. split; [intros s E; discriminate E|].
      intros req key Hin Hk. apply elem_of_cons in Hin as [E'|Hin]; [|by eapply H1]. rewrite E', Ek in Hk.
      injection Hk as <-. by apply H0.
  - destruct (IH _ Ht) as [H0 H1]. split; [exact H0|]. intros req key Hin Hk.
    apply elem_of_cons in Hin as [E'|Hin]; [|by eapply H1]. rewrite E', Ek in Hk. discriminate Hk.
Qed.

Lemma resolve_owner queue t addr req key :
  resolveMultiSlot queue t = inr addr -> req ∈ queue -> GetFirstKeyFromRequest req = Some key ->
  GetNodeForSlot (HashSlot key) t = Some addr.
Proof.
  unfold resolveMultiSlot. intros Hr Hin Hk. destruct (target_slot queue None) as [t0|] eqn:Et; [|discriminate Hr].
  destruct (target_slot_spec _ _ _ Et) as [_ Hs]. rewrite (Hs req key Hin Hk) in Hr.
  destruct (GetNodeForSlot (HashSlot key) t); [by injection Hr as ->|discriminate Hr].
Qed.

(** ** Properties *)


#[local] Instance plain_text : GoUnicode := ascii_unicode.
#[local] Instance no_glob : GoGlob := {| filepath_Match := fun _ _ => None |}.

Definition open_cfg : config := mkConfig Default [].
Definition set_req : Request := mkRequest [bs "SET"; bs "1"; bs "x"] [] (bs "SET").
Definition exec_req : Request := mkRequest [bs "EXEC"] [] (bs "EXEC").

(** Client 1 has sent MULTI and SET 1 x. *)
Definition in_multi : proxy :=
  mkProxy (mkH (newBackendMux {[1%nat := resp_init]} RouterMulti.two_slots) ReadModeMasterOnly [])
    (newPubsubHub {[1%nat := stateMulti]})
    {[1%nat := mkCtx 1 true [] [set_req] false [] None None None 0 [] None 0]} [] ∅ 0 1 0 1 2.

(** The backends want a password. *)
Definition backend_cfg : config := mkConfig (FromArgs [] [WithPassword (bs "app") (bs "pw")]) [].


(** ** Deferred commands *)

(** Requests a blocked client can only queue. *)
Definition deferrable (req : Request) : bool :=
  negb (length (Args req) =? 0)%nat && negb (one_of (Cmd req) ["QUIT"; "RESET"]%string).

Definition count_cmds (n : Z) (st : proxy) : proxy :=
  set_counts (numClients st) (maxClients st) (clientIDSeq st) (p_commands st + n) st.

Definition queue_cmds (c : nat) (cmds : list Request) : proxy -> proxy :=
  upd_ctx c (fun x => set_cmds (pendingCmds x ++ cmds) x).

Section defer.
Context `{GoGlob} `{GoUnicode} (cfg : config) (dial_error : nat -> bytes -> option bytes).
Context (register_ok : bytes -> bool) (remote_addr : nat -> bytes) (pool_conns : bytes -> Z) (stats_text : bytes).
Abbreviation cmds_run := (run_cmds cfg dial_error register_ok remote_addr pool_conns stats_text).

Lemma upd_ctx_twice c f g st : upd_ctx c f (upd_ctx c g st) = upd_ctx c (fun x => f (g x)) st.
Proof.
  unfold upd_ctx, upd_ctxs. cbn. f_equal. apply map_eq. intros i. destruct (decide (i = c)) as [->|Hne].
  - rewrite !lookup_alter_eq. by destruct (p_ctx st !! c).
  - by rewrite !lookup_alter_ne.
Qed.

Lemma upd_ctx_ext c f g st x : p_ctx st !! c = Some x -> f x = g x -> upd_ctx c f st = upd_ctx c g st.
Proof.
  intros Hx Hfg. unfold upd_ctx, upd_ctxs. f_equal. apply map_eq. intros i.
  destruct (decide (i = c)) as [->|Hne]; [by rewrite !lookup_alter_eq, Hx; cbn; rewrite Hfg|by rewrite !lookup_alter_ne].
Qed.

Lemma cmds_deferred c cmds st x :
  state_of c st = stateBlocking -> p_ctx st !! c = Some x -> forallb deferrable cmds = true ->
  cmds_run c cmds st = Ok (queue_cmds c cmds (count_cmds (len cmds) st)).
Proof.
  revert st x. induction cmds as [|req cmds IH]; intros st x Hs Hx Hd.
  - cbn [run_cmds]. unfold queue_cmds. cbn [length]. f_equal. destruct st as [h hub ctx bk idle r n m s k].
    unfold upd_ctx, upd_ctxs, count_cmds, set_counts. cbn in *. rewrite Z.add_0_r. f_equal. symmetry. apply map_eq. intros i.
    destruct (decide (i = c)) as [->|Hne]; [|by rewrite lookup_alter_ne].
    rewrite lookup_alter_eq, Hx. cbn. rewrite app_nil_r. by destruct x.
  - cbn [forallb] in Hd. apply andb_prop in Hd as [Hr Hd]. unfold deferrable in Hr. apply andb_prop in Hr as [Hr1 Hr2].
    apply negb_true_iff in Hr1, Hr2. cbn [run_cmds]. unfold dispatchClientRequest. rewrite Hr1. cbv zeta.
    fold (count_cmds 1 st). change (state_of c (count_cmds 1 st)) with (state_of c st). rewrite Hs, Hr2. go_simp.
    rewrite (IH _ (set_cmds (pendingCmds x ++ [req]) x)); [|exact Hs| |exact Hd].
    + unfold queue_cmds, buffer_cmd. f_equal.
      change (count_cmds (len cmds) (upd_ctx c (fun x => set_cmds (pendingCmds x ++ [req]) x) (count_cmds 1 st)))
        with (upd_ctx c (fun x => set_cmds (pendingCmds x ++ [req]) x) (count_cmds (len cmds) (count_cmds 1 st))).
      rewrite upd_ctx_twice. replace (count_cmds (len cmds) (count_cmds 1 st)) with (count_cmds (len (req :: cmds)) st).
      2:{ unfold count_cmds, set_counts. cbn. f_equal. lia. }
      apply (upd_ctx_ext _ _ _ _ x); [exact Hx|]. unfold set_cmds. cbn. by rewrite <- app_assoc.
    + unfold buffer_cmd, upd_ctx. cbn. by rewrite lookup_alter_eq, Hx.
Qed.

Lemma upd_ctx_comm c d f g st : (forall x, f (g x) = g (f x)) -> upd_ctx d f (upd_ctx c g st) = upd_ctx c g (upd_ctx d f st).
Proof.
  intros Hfg. unfold upd_ctx, upd_ctxs. cbn. f_equal. apply map_eq. intros i.
  destruct (decide (i = d)) as [->|Hd], (decide (d = c)) as [->|Hc].
  - rewrite !lookup_alter_eq. destruct (p_ctx st !! c); cbn; [by rewrite Hfg|done].
  - by rewrite lookup_alter_eq, !lookup_alter_ne, lookup_alter_eq by done.
  - by rewrite !lookup_alter_ne by done.
  - rewrite lookup_alter_ne by done. destruct (decide (i = c)) as [->|Hic].
    + by rewrite !lookup_alter_eq, lookup_alter_ne by done.
    + by rewrite !lookup_alter_ne by done.
Qed.

(** Setting [pendingCmds] commutes with what the reply of a blocking command does. *)
Lemma return_comm b c cmds st :
  returnBlockingConn b (queue_cmds c cmds st) = queue_cmds c cmds (returnBlockingConn b st).
Proof.
  assert (Hcl : close_conn b (queue_cmds c cmds st) = queue_cmds c cmds (close_conn b st)).
  { unfold close_conn. change (back b (queue_cmds c cmds st)) with (back b st). destruct (back b st) as [y|]; [|done].
    destruct (isClosed y); [done|]. unfold queue_cmds.
    change (mark_closed b (upd_ctx c ?g st)) with (upd_ctx c g (mark_closed b st)). apply upd_ctx_comm.
    intros x. unfold unlink. destruct (is_back b (watchBackend x)) eqn:E1, (is_back b (multiBackend x)) eqn:E2,
      (is_back b (blockingBackend x)) eqn:E3; cbn; rewrite ?E1, ?E2, ?E3; cbn; rewrite ?E2, ?E3; cbn; rewrite ?E3; done. }
  unfold returnBlockingConn. change (back b (queue_cmds c cmds st)) with (back b st).
  destruct (back b st) as [y|]; [|done]. destruct (b_pending y); [|exact Hcl].
  unfold pool_put. change (p_idle (queue_cmds c cmds st)) with (p_idle st). destruct (_ <=? _)%nat; [exact Hcl|done].
Qed.

(** The state after the reply to a blocking command, before the deferred ones run. *)
Definition after_reply (b c slot : nat) (v : Value) (st : proxy) : proxy :=
  returnBlockingConn b (upd_ctx c (fun x => set_blocking None (blockingSlotIdx x) x)
    (to_state c stateNormal (fill c slot (EncodeValue (Some v)) st))).

Lemma after_reply_cmds b c slot v st x :
  p_ctx st !! c = Some x -> exists y, p_ctx (after_reply b c slot v st) !! c = Some y /\ pendingCmds y = pendingCmds x.
Proof.
  intros Hx. unfold after_reply. set (st1 := upd_ctx _ _ _).
  assert (H1 : exists y, p_ctx st1 !! c = Some y /\ pendingCmds y = pendingCmds x).
  { eexists. unfold st1. cbn. rewrite lookup_alter_eq, Hx. by split. }
  clearbody st1. destruct H1 as (y & Hy & Hp).
  assert (Hcl : exists z, p_ctx (close_conn b st1) !! c = Some z /\ pendingCmds z = pendingCmds x).
  { unfold close_conn. destruct (back b st1) as [w|]; [|eauto]. destruct (isClosed w); [eauto|]. cbn.
    destruct (decide (b_client w = c)) as [->|Hne]; [|rewrite lookup_alter_ne by done; eauto].
    rewrite lookup_alter_eq, Hy. eexists. split; [done|]. rewrite <- Hp. unfold unlink.
    destruct (is_back b (watchBackend y)); cbn; destruct (is_back b (multiBackend y)); cbn;
      destruct (is_back b (blockingBackend y)); done. }
  unfold returnBlockingConn. destruct (back b st1) as [w|]; [|eauto]. destruct (b_pending w); [|exact Hcl].
  unfold pool_put. destruct (_ <=? _)%nat; [exact Hcl|]. cbn. eauto.
Qed.

Lemma queue_drop c cmds st x : p_ctx st !! c = Some x -> pendingCmds x = [] ->
  upd_ctx c (set_cmds []) (queue_cmds c cmds st) = st.
Proof.
  intros Hx Hp. unfold queue_cmds. rewrite upd_ctx_twice. destruct st as [h hub ctx bk idle r n m s k].
  unfold upd_ctx, upd_ctxs. cbn in *. f_equal. apply map_eq. intros i.
  destruct (decide (i = c)) as [->|Hne]; [|by rewrite lookup_alter_ne].
  rewrite lookup_alter_eq, Hx. cbn. f_equal. destruct x. cbn in *. by subst.
Qed.

(** A redirected blocking command is sent to the other node: the requests stay kept and
    the client stays blocked. *)
Lemma redial_keeps c addr rq cmds st x :
  (forall n, dial_error n addr = None) -> p_ctx st !! c = Some x -> pendingCmds x = cmds ->
  let st2 := dialBlockingBackend dial_error c addr rq st in
  (exists y, p_ctx st2 !! c = Some y /\ pendingCmds y = cmds) /\
  state_of c st2 = state_of c st /\ clients (loop_of st2) = clients (loop_of st).
Proof.
  intros Hd Hx Hp st2. unfold st2, dialBlockingBackend. destruct (pool_pop _ _) as [[[b|] rest] n].
  - split; [|done]. cbn. rewrite lookup_alter_eq, Hx. eexists. split; [done|exact Hp].
  - unfold dial_dedicated. rewrite Hd. split; [by exists x|done].
Qed.

Lemma close_conn_keeps b c cmds st :
  (exists x, p_ctx st !! c = Some x /\ pendingCmds x = cmds) ->
  (exists y, p_ctx (close_conn b st) !! c = Some y /\ pendingCmds y = cmds) /\
  state_of c (close_conn b st) = state_of c st /\ loop_of (close_conn b st) = loop_of st.
Proof.
  intros (x & Hx & Hp). unfold close_conn. destruct (back b st) as [w|]; [|by eauto]. destruct (isClosed w); [by eauto|].
  split; [|done]. cbn. destruct (decide (b_client w = c)) as [->|Hne]; [|rewrite lookup_alter_ne by done; eauto].
  rewrite lookup_alter_eq, Hx. eexists. split; [done|]. rewrite <- Hp. unfold unlink.
  destruct (is_back b (watchBackend x)); cbn; destruct (is_back b (multiBackend x)); cbn;
    destruct (is_back b (blockingBackend x)); done.
Qed.

(** A reply that is not a redirection is delivered, and the kept requests run. *)
Lemma blocking_answered b c st x rq v cmds :
  p_ctx st !! c = Some x -> pendingCmds x = [] -> cmds <> [] ->
  match IsMovedError (Some v), ParseRedirection (Some v) with true, Ok _ => False | _, _ => True end ->
  run_respond cfg dial_error register_ok remote_addr pool_conns stats_text b c (RBlocking rq) v (queue_cmds c cmds st)
  = (st2 ← cmds_run c cmds (after_reply b c (blockingSlotIdx x) v st); Ok (upd_loop flushBackendWrites st2)).
Proof.
  intros Hx Hp Hne Hm. cbn [run_respond]. unfold handleBlockingResponse.
  assert (Hslot : blockingSlotIdx (ctx_of c (queue_cmds c cmds st)) = blockingSlotIdx x).
  { unfold ctx_of, queue_cmds, upd_ctx. cbn. by rewrite lookup_alter_eq, Hx. }
  assert (Hq : returnBlockingConn b (upd_ctx c (fun x => set_blocking None (blockingSlotIdx x) x)
      (to_state c stateNormal (fill c (blockingSlotIdx x) (EncodeValue (Some v)) (queue_cmds c cmds st))))
    = queue_cmds c cmds (after_reply b c (blockingSlotIdx x) v st)).
  { unfold after_reply. rewrite <- return_comm. f_equal. unfold queue_cmds.
    change (to_state c stateNormal (fill c (blockingSlotIdx x) (EncodeValue (Some v)) (upd_ctx c ?g st)))
      with (upd_ctx c g (to_state c stateNormal (fill c (blockingSlotIdx x) (EncodeValue (Some v)) st))).
    by apply upd_ctx_comm. }
  assert (Hd : drainPendingCmds cfg dial_error register_ok remote_addr pool_conns stats_text c
      (queue_cmds c cmds (after_reply b c (blockingSlotIdx x) v st))
    = (st2 ← cmds_run c cmds (after_reply b c (blockingSlotIdx x) v st); Ok (upd_loop flushBackendWrites st2))).
  { destruct (after_reply_cmds b c (blockingSlotIdx x) v st x Hx) as (y & Hy & Hpy). rewrite Hp in Hpy.
    unfold drainPendingCmds. unfold ctx_of at 1. unfold queue_cmds at 1. cbn [p_ctx upd_ctx upd_ctxs].
    rewrite lookup_alter_eq, Hy. cbn [fmap option_fmap option_map default pendingCmds set_cmds]. rewrite Hpy. cbn [app].
    destruct cmds as [|req cmds]; [done|]. by rewrite (queue_drop c _ _ y Hy Hpy). }
  destruct (IsMovedError (Some v)); [destruct (ParseRedirection (Some v)) as [[? ?]| | |]; [done|..]|];
    by rewrite Hslot, Hq, Hd.
Qed.

Lemma blocking_moved b c st x rq v cmds slot addr :
  p_ctx st !! c = Some x -> pendingCmds x = [] -> state_of c st = stateBlocking ->
  IsMovedError (Some v) = true -> ParseRedirection (Some v) = Ok (slot, addr) -> (forall n, dial_error n addr = None) ->
  exists st2 y,
    run_respond cfg dial_error register_ok remote_addr pool_conns stats_text b c (RBlocking rq) v (queue_cmds c cmds st)
      = Ok st2 /\
    p_ctx st2 !! c = Some y /\ pendingCmds y = cmds /\ state_of c st2 = stateBlocking /\
    clients (loop_of st2) = clients (loop_of st).
Proof.
  intros Hx Hp Hs Hm Hr Hd. cbn [run_respond]. unfold handleBlockingResponse. rewrite Hm, Hr.
  set (st1 := upd_ctx c _ (upd_loop trigger_refresh (queue_cmds c cmds st))).
  destruct (close_conn_keeps b c cmds st1) as ((y & Hy & Hpy) & Hs1 & Hl1).
  { unfold st1, queue_cmds. cbn. rewrite !lookup_alter_eq, Hx. cbn. rewrite Hp. by eexists. }
  destruct (redial_keeps c addr rq cmds (close_conn b st1) y Hd Hy Hpy) as ((z & Hz & Hpz) & Hs2 & Hc2).
  eexists _, z. split; [done|]. split; [exact Hz|]. split; [exact Hpz|].
  rewrite Hs2, Hs1, Hc2, Hl1. split; [exact Hs|done].
Qed.

End defer.

(** C14: while a blocking command waits, the client's further requests are kept (all but
    QUIT and RESET, which the code handles at once): nothing is sent, dialled, published
    or answered for them.  When the reply comes they run in their order from the state in
    which the reply has been delivered; the one trace of the wait is the counter of
    commands, which has counted each of them already when they were kept and counts them
    again.  When the reply is MOVED the blocking command is sent to the other node, and
    the requests go on waiting. *)
Theorem blocking_defers `{GoGlob} `{GoUnicode} cfg dial_error register_ok remote_addr pool_conns stats_text
    b c st x rq v cmds :
  state_of c st = stateBlocking -> p_ctx st !! c = Some x -> pendingCmds x = [] ->
  forallb deferrable cmds = true -> cmds <> [] ->
  let run := run_cmds cfg dial_error register_ok remote_addr pool_conns stats_text c in
  let reply := run_respond cfg dial_error register_ok remote_addr pool_conns stats_text b c (RBlocking rq) v in
  exists st1,
    run cmds st = Ok st1 /\
    loop_of st1 = loop_of st /\ p_back st1 = p_back st /\ p_hub st1 = p_hub st /\ h_jobs (p_h st1) = h_jobs (p_h st) /\
    p_commands st1 = p_commands st + len cmds /\
    match IsMovedError (Some v), ParseRedirection (Some v) with
    | true, Ok (_, addr) =>
        (forall n, dial_error n addr = None) ->
        exists st2 y, reply st1 = Ok st2 /\ p_ctx st2 !! c = Some y /\ pendingCmds y = cmds /\
          state_of c st2 = stateBlocking /\ clients (loop_of st2) = clients (loop_of st)
    | _, _ =>
        reply st1 = (st2 ← run cmds (after_reply b c (blockingSlotIdx x) v (count_cmds (len cmds) st));
                     Ok (upd_loop flushBackendWrites st2))
    end.
Proof.
  intros Hs Hx Hp Hd Hne run reply. exists (queue_cmds c cmds (count_cmds (len cmds) st)).
  split; [by eapply cmds_deferred|]. do 5 (split; [done|]). unfold reply, run.
  destruct (IsMovedError (Some v)) eqn:Em; [destruct (ParseRedirection (Some v)) as [[slot addr]| | |] eqn:Er|].
  - intros Hde. by apply (blocking_moved _ _ _ _ _ _ b c (count_cmds (len cmds) st) x rq v cmds slot addr).
  - apply blocking_answered; [done..|]. by rewrite Em, Er.
  - apply blocking_answered; [done..|]. by rewrite Em, Er.
  - apply blocking_answered; [done..|]. by rewrite Em, Er.
  - apply blocking_answered; [done..|]. by rewrite Em.
Qed.

(** Client 1 waits for BLPOP 1 0 on connection 0. *)
Definition in_blpop : proxy :=
  mkProxy (mkH (newBackendMux {[1%nat := snd (allocResponseSlot resp_init)]} RouterMulti.two_slots) ReadModeMasterOnly [])
    (newPubsubHub {[1%nat := stateBlocking]})
    {[1%nat := mkCtx 1 true [] [] false [] None None (Some 0%nat) 0 [] None 0]}
    [mkBack 1 (bs "m:1") true false false None [] None []] ∅ 0 1 0 1 1.
Definition blpop_req : Request := mkRequest [bs "BLPOP"; bs "1"; bs "0"] [] (bs "BLPOP").

Definition blpop_reply : Value := array_value [Some (BulkValue (Some (bs "1"))); Some (BulkValue (Some (bs "x")))].

Lemma blocking_defers_witness :
  let run := run_cmds open_cfg MuxFacts.no_dial_error (fun _ => true) (fun _ => []) (fun _ => 0) [] 1 in
  exists st1,
    run [set_req] in_blpop = Ok st1 /\
    loop_of st1 = loop_of in_blpop /\ p_back st1 = p_back in_blpop /\ p_hub st1 = p_hub in_blpop /\
    h_jobs (p_h st1) = h_jobs (p_h in_blpop) /\ p_commands st1 = p_commands in_blpop + 1 /\
    run_respond open_cfg MuxFacts.no_dial_error (fun _ => true) (fun _ => []) (fun _ => 0) [] 0 1 (RBlocking blpop_req)
      blpop_reply st1
    = (st2 ← run [set_req] (after_reply 0 1 0 blpop_reply (count_cmds 1 in_blpop)); Ok (upd_loop flushBackendWrites st2)).
Proof.
  refine (blocking_defers open_cfg MuxFacts.no_dial_error (fun _ => true) (fun _ => []) (fun _ => 0) [] 0 1 in_blpop
    (mkCtx 1 true [] [] false [] None None (Some 0%nat) 0 [] None 0) blpop_req blpop_reply [set_req] _ _ _ _ _).
  - reflexivity.
  - reflexivity.
  - reflexivity.
  - reflexivity.
  - discriminate.
Defined.

(** ** Where the handlers lose track of a request *)

(** What a client has got so far, and whether it still waits for anything. *)
Definition got (c : nat) (o : outcome (proxy * action)) : option (bytes * nat) :=
  match o with
  | Ok (st, _) => (fun q => (out q, length (respQueue q))) <$> clients (loop_of st) !! c
  | _ => None
  end.

(** The reply to a transaction is lost when its connection closes: the close callback
    drops the closures that wait on the connection without filling the slot of EXEC, and
    no task, job or connection is left that owes it anything. *)
Lemma exec_lost_on_close :
  match (st1 ← dispatchClientRequest open_cfg MuxFacts.no_dial_error (fun _ => true) (fun _ => []) (fun _ => 0) [] 1
                 exec_req in_multi;
         st2 ← multiReady open_cfg 0 (fst (onBackendOpen open_cfg 0 (fst st1)));
         onBackendClose open_cfg MuxFacts.no_dial_error (fun _ => true) (fun _ => []) (fun _ => 0) [] 0 st2) with
  | Ok st3 => got 1 (Ok (st3, ActNone)) = Some ([], 1%nat) /\
      tasks (loop_of st3) = [] /\ h_jobs (p_h st3) = [] /\ forallb isClosed (p_back st3) = true
  | _ => False
  end.
Proof. vm_compute. repeat split. Qed.

(** When the connection closes before the function that starts the transaction runs, that
    function panics in the event loop. *)
Lemma multi_start_panics :
  (st1 ← dispatchClientRequest open_cfg MuxFacts.no_dial_error (fun _ => true) (fun _ => []) (fun _ => 0) [] 1
           exec_req in_multi;
   st2 ← onBackendClose open_cfg MuxFacts.no_dial_error (fun _ => true) (fun _ => []) (fun _ => 0) [] 0
           (fst (onBackendOpen open_cfg 0 (fst st1)));
   multiReady open_cfg 0 st2) = Panic.
Proof. by vm_compute. Qed.

(** A deferred request is counted twice: when it is kept and when it runs. *)
Lemma deferred_counted_twice :
  match (st1 ← run_cmds open_cfg MuxFacts.no_dial_error (fun _ => true) (fun _ => []) (fun _ => 0) [] 1 [set_req] in_blpop;
         run_respond open_cfg MuxFacts.no_dial_error (fun _ => true) (fun _ => []) (fun _ => 0) [] 0 1 (RBlocking blpop_req)
           blpop_reply st1) with
  | Ok st2 => p_commands st2 = p_commands in_blpop + 2
  | _ => False
  end.
Proof. by vm_compute. Qed.

(** When the address a blocking command is redirected to cannot be resolved, the client is
    back in the normal state but its deferred requests are not run: they stay kept, and
    requests that arrive later overtake them. *)
Lemma redirect_strands_deferred :
  let no_such_host (_ : nat) (_ : bytes) := Some (bs "ERR failed to resolve") in
  match (st1 ← run_cmds open_cfg no_such_host (fun _ => true) (fun _ => []) (fun _ => 0) [] 1 [set_req] in_blpop;
         run_respond open_cfg no_such_host (fun _ => true) (fun _ => []) (fun _ => 0) [] 0 1 (RBlocking blpop_req)
           (ErrValue (bs "MOVED 9842 m:9")) st1) with
  | Ok st2 => got 1 (Ok (st2, ActNone)) = Some (EncodeError (bs "ERR failed to resolve"), 0%nat) /\
      state_of 1 st2 = stateNormal /\ map Cmd (pendingCmds (ctx_of 1 st2)) = [bs "SET"]
  | _ => False
  end.
Proof. vm_compute. repeat split. Qed.

Definition secret_cfg : config := mkConfig (FromArgs [] [WithClientPassword (bs "pw")]) [].
Definition idle_client (auth : bool) : proxy :=
  mkProxy (mkH (newBackendMux {[1%nat := resp_init]} RouterMulti.two_slots) ReadModeMasterOnly [])
    (newPubsubHub ∅) {[1%nat := new_ctx 1 auth]} [] ∅ 0 1 0 1 0.

(** HELLO with AUTH is answered twice: with OK and with the server's description. *)
Lemma hello_auth_two_replies :
  got 1 (dispatchClientRequest secret_cfg MuxFacts.no_dial_error (fun _ => true) (fun _ => []) (fun _ => 0) [] 1
    (mkRequest (map bs ["HELLO"; "2"; "AUTH"; "default"; "pw"]%string) [] (bs "HELLO")) (idle_client false))
  = Some (EncodeSimpleString (bs "OK") ++ EncodeValue (Some (hello_reply 1)), 0%nat).
Proof. by vm_compute. Qed.

(** BLMPOP with a number of keys near 2^63 panics. *)
Lemma blmpop_overflow_panics :
  dispatchClientRequest open_cfg MuxFacts.no_dial_error (fun _ => true) (fun _ => []) (fun _ => 0) [] 1
    (mkRequest (map bs ["BLMPOP"; "0"; "9223372036854775807"; "1"; "LEFT"]%string) [] (bs "BLMPOP")) (idle_client true)
  = Panic.
Proof. by vm_compute. Qed.

(** The limit of clients can be passed: a rejected connection still lowers the count
    when it closes. *)
Lemma rejected_client_uncounted :
  let st := set_counts 1 1 1 0 (idle_client true) in
  let '(r, st1, a) := onClientOpen open_cfg 2 st in
  (r, a) = (Some (EncodeError (bs "ERR max number of clients reached")), ActClose) /\
  match onClientClose open_cfg MuxFacts.no_dial_error (fun _ => true) (fun _ => []) (fun _ => 0) [] 2 st1 with
  | Ok st2 => numClients st2 = 0 /\ snd (onClientOpen open_cfg 3 st2) = ActNone
  | _ => False
  end.
Proof. vm_compute. repeat split. Qed.

(** RESET ends the subscribe state but not the subscriptions: the hub goes on writing to
    the client, and keeps its entries when the client closes. *)
Lemma reset_leaks_subscription :
  let dispatch args := dispatchClientRequest open_cfg MuxFacts.no_dial_error (fun _ => true) (fun _ => []) (fun _ => 0) [] 1
    (mkRequest (map bs args) [] (default [] (map bs args !! 0%nat))) in
  match (st ← dispatch ["SUBSCRIBE"; "news"]%string (idle_client true);
         st' ← dispatch ["RESET"]%string (fst st);
         onClientClose open_cfg MuxFacts.no_dial_error (fun _ => true) (fun _ => []) (fun _ => 0) [] 1 (fst st')) with
  | Ok st => p_ctx st !! 1%nat = None /\ map e_client (entries_of (bs "news") (subs (p_hub st))) = [1%nat]
  | _ => False
  end.
Proof. vm_compute. split; reflexivity. Qed.
