(* ===== verification/Engine.v ===== *)
(** * Engine: the handler and its event loops

    Model of the part of [pkg/engine/handler.go] that puts several event loops together:
    the handler's maps from a loop to its multiplexer, hub and pool of blocking
    connections ([getMux], [getPubsubHub], [getBlockingPool]), the counters all loops
    share, and gnet's callbacks [OnOpen], [OnClose] and [OnTraffic], which tell clients
    from backends ([isClientConn]).

    A loop runs one callback at a time, and the loops run concurrently: a callback of a
    loop works on the loop's own state and on the shared counters ([enter], [leave]).
    [onClientOpen] reads the number of clients before it adds to it, so it is two steps;
    [estep] interleaves the steps of all loops.

    [engine_invariant]: in every interleaving each loop keeps its invariant, the number of
    clients is right and no two clients have the same id.  [clients_bounded]: how far the
    limit of clients can be passed. *)

From S2P Require Import Prelude GoStd Config Value RespParse Topology RespQueue Mux Router Routing MuxFacts Hub HubFacts.
From S2P Require Import Handler HandlerFacts.

(** ** State *)

(** The contexts of a loop's connections, and its goroutines. *)
Record loopConns := mkConns {
  l_ctx : gmap nat clientCtx;
  l_back : list backendCtx;
  l_jobs : list (nat * nat * job);
}.

(** [opening]: the loops inside [onClientOpen], after the check of the limit. *)
Record ProxyHandler := mkHandler {
  muxes : gmap nat evloop;
  blockingPools : gmap nat (gmap bytes (list nat) * Z);
  pubsubHubs : gmap nat pubsubHub;
  loop_conns : gmap nat loopConns;
  opening : gmap nat nat;
  ph_numClients : Z;
  ph_maxClients : Z;
  ph_clientIDSeq : Z;
  ph_commands : Z;
  ph_muxConnCounts : gmap bytes Z;
  ph_topology : Topology;
  ph_mode : ReadMode;
  ph_booted : bool;
}.

Definition NewProxyHandler (cfg : config) (t : Topology) : ProxyHandler :=
  mkHandler ∅ ∅ ∅ ∅ ∅ 0 (MaxClients cfg) 0 0 ∅ t (ReadMode_ cfg) false.

(** What a loop has not used yet is made when it is asked for. *)
Definition getMux (el : nat) (h : ProxyHandler) : evloop := default (newBackendMux ∅ (ph_topology h)) (muxes h !! el).
Definition getPubsubHub (el : nat) (h : ProxyHandler) : pubsubHub := default (newPubsubHub ∅) (pubsubHubs h !! el).
Definition newBlockingConnPool : gmap bytes (list nat) * Z := (∅, 0).
Definition getBlockingPool (el : nat) (h : ProxyHandler) : gmap bytes (list nat) * Z :=
  default newBlockingConnPool (blockingPools h !! el).
Definition getConns (el : nat) (h : ProxyHandler) : loopConns := default (mkConns ∅ [] []) (loop_conns h !! el).

Definition NumClients (h : ProxyHandler) : Z := ph_numClients h.
Definition SetMaxClients (n : Z) (h : ProxyHandler) : ProxyHandler :=
  mkHandler (muxes h) (blockingPools h) (pubsubHubs h) (loop_conns h) (opening h) (ph_numClients h) n
    (ph_clientIDSeq h) (ph_commands h) (ph_muxConnCounts h) (ph_topology h) (ph_mode h) (ph_booted h).

(** Reuses of idle connections, over all loops. *)
Definition BlockingPoolReuses (h : ProxyHandler) : Z := map_fold (fun _ p n => n + snd p) 0 (blockingPools h).

(** A second boot closes a closed channel. *)
Definition OnBoot (h : ProxyHandler) : outcome ProxyHandler :=
  if ph_booted h then Panic
  else Ok (mkHandler (muxes h) (blockingPools h) (pubsubHubs h) (loop_conns h) (opening h) (ph_numClients h)
    (ph_maxClients h) (ph_clientIDSeq h) (ph_commands h) (ph_muxConnCounts h) (ph_topology h) (ph_mode h) true).

(** ** A callback of a loop *)

(** The state a callback of loop [el] works on. *)
Definition enter (el : nat) (h : ProxyHandler) : proxy :=
  let w := getMux el h in
  let k := getConns el h in
  let p := getBlockingPool el h in
  mkProxy (mkH (mkLoop (conns w) (dialing w) (clients w) (tasks w) (ph_topology h) (ph_muxConnCounts h) (dials w)
                  (refreshes w)) (ph_mode h) (l_jobs k))
    (getPubsubHub el h) (l_ctx k) (l_back k) (fst p) (snd p)
    (ph_numClients h) (ph_maxClients h) (ph_clientIDSeq h) (ph_commands h).

(** What it leaves behind. *)
Definition leave (el : nat) (st : proxy) (h : ProxyHandler) : ProxyHandler :=
  mkHandler (<[el := loop_of st]> (muxes h)) (<[el := (p_idle st, p_reuses st)]> (blockingPools h))
    (<[el := p_hub st]> (pubsubHubs h)) (<[el := mkConns (p_ctx st) (p_back st) (h_jobs (p_h st))]> (loop_conns h))
    (opening h) (numClients st) (maxClients st) (clientIDSeq st) (p_commands st)
    (muxConnCounts (loop_of st)) (topology (loop_of st)) (h_mode (p_h st)) (ph_booted h).

Definition set_opening (f : gmap nat nat -> gmap nat nat) (h : ProxyHandler) : ProxyHandler :=
  mkHandler (muxes h) (blockingPools h) (pubsubHubs h) (loop_conns h) (f (opening h)) (ph_numClients h)
    (ph_maxClients h) (ph_clientIDSeq h) (ph_commands h) (ph_muxConnCounts h) (ph_topology h) (ph_mode h) (ph_booted h).

(** ** gnet's callbacks

    A connection of a loop: accepted for a client, or dialled: a connection of one client,
    the shared one to an address, the one of the hub. *)
Inductive conn :=
| CAccepted (c : nat)
| CDedicated (b : nat)
| CShared (addr : bytes)
| CHub.

Section callbacks.
Context `{GG : GoGlob} `{GU : GoUnicode} (cfg : config) (dial_error : nat -> bytes -> option bytes).
Context (register_ok : bytes -> bool) (remote_addr : nat -> bytes) (pool_conns : bytes -> Z) (stats_text : bytes).
Context (order : submap -> list (bytes * list subEntry)).
Context (LocalAddr : conn -> option bytes).

Definition isClientConn (k : conn) (st : proxy) : bool :=
  let listening := match LocalAddr k with Some a => bytes_eqb a (listenAddr cfg) | None => false end in
  match k with
  | CAccepted c => match p_ctx st !! c with Some _ => true | None => listening end
  | _ => listening
  end.

(** [onBackendOpen] for all kinds of connections; one without a backend's context is
    closed. *)
Definition backend_open (k : conn) (st : proxy) : outcome (proxy * action) :=
  match k with
  | CAccepted _ => Ok (st, ActClose)
  | CShared addr => w ← onOpen addr (loop_of st); Ok (upd_loop (fun _ => w) st, ActNone)
  | CHub => Ok (upd_hub (onSharedBackendOpen (Username cfg) (Password cfg)) st, ActNone)
  | CDedicated b => Ok (onBackendOpen cfg b st)
  end.

(** [None]: a dialled connection is taken for a client, whose context would replace its
    own; excluded by [dialled_elsewhere]. *)
Definition OnOpen (k : conn) (st : proxy) : option (outcome (option bytes * proxy * action)) :=
  if isClientConn k st then
    match k with CAccepted c => Some (Ok (onClientOpen cfg c st)) | _ => None end
  else Some ('(st, a) ← backend_open k st; Ok (None, st, a)).

(** [onClientClose] of a connection without a client's context only counts. *)
Definition OnClose (k : conn) (st : proxy) : outcome proxy :=
  if isClientConn k st then
    match k with
    | CAccepted c => onClientClose cfg dial_error register_ok remote_addr pool_conns stats_text c st
    | _ => Ok (set_counts (numClients st - 1) (maxClients st) (clientIDSeq st) (p_commands st) st)
    end
  else
    match k with
    | CAccepted _ => Ok st
    | CShared addr => Ok (upd_loop (onClose addr) st)
    | CHub => Ok (upd_hub (onSharedBackendClose order) st)
    | CDedicated b => onBackendClose cfg dial_error register_ok remote_addr pool_conns stats_text b st
    end.

Definition OnTraffic (k : conn) (buf : bytes) (st : proxy) : outcome (proxy * bytes * action) :=
  if isClientConn k st then
    match k with
    | CAccepted c => onClientTraffic cfg dial_error register_ok remote_addr pool_conns stats_text c buf st
    | _ => Ok (st, buf, ActClose)
    end
  else
    match k with
    | CAccepted _ => Ok (st, buf, ActClose)
    | CShared addr => '(w, rest, a) ← onTraffic dial_error addr buf (loop_of st); Ok (upd_loop (fun _ => w) st, rest, a)
    | CHub =>
        '(hub, rest, close) ← onSharedBackendTraffic order buf (p_hub st);
        Ok (upd_hub (fun _ => hub) st, rest, if (close : bool) then ActClose else ActNone)
    | CDedicated b => onBackendTraffic cfg dial_error register_ok remote_addr pool_conns stats_text b buf st
    end.

(** ** The loops together

    [allowed] limits the traffic of the shared connections, [keep] the states of the run;
    there are [nloops] loops.  A step counts the clients it admits and the connections
    without a client's context (those that were rejected) it closes. *)

Section engine.
Context (nloops : nat) (allowed : event -> Prop) (keep : ProxyHandler -> Prop).

Definition unknown (k : conn) (st : proxy) : nat :=
  match k with CAccepted c => match p_ctx st !! c with Some _ => 0 | None => 1 end | _ => 0 end.

Definition accepted (k : conn) : bool := match k with CAccepted _ => true | _ => false end.

Definition traffic_allowed (k : conn) (buf : bytes) : Prop :=
  match k with CShared addr => allowed (ETraffic addr buf) | _ => True end.

Inductive estep (h : ProxyHandler) : nat -> nat -> ProxyHandler -> Prop :=
| ECheck el c : (el < nloops)%nat -> opening h !! el = None -> p_ctx (enter el h) !! c = None ->
    isClientConn (CAccepted c) (enter el h) = true -> limit_reached (enter el h) = false ->
    estep h 0 0 (set_opening <[el := c]> h)
| EAdmit el c : opening h !! el = Some c ->
    estep h 1 0 (set_opening (delete el) (leave el (admit_client cfg c (enter el h)) h))
| EDialled el k r st' a : (el < nloops)%nat -> opening h !! el = None -> accepted k = false ->
    (forall addr, k = CShared addr -> allowed (EOpen addr)) ->
    OnOpen k (enter el h) = Some (Ok (r, st', a)) -> estep h 0 0 (leave el st' h)
| EGone el k st' : (el < nloops)%nat -> opening h !! el = None ->
    (forall addr, k = CShared addr -> allowed (EClose addr)) ->
    OnClose k (enter el h) = Ok st' -> estep h 0 (unknown k (enter el h)) (leave el st' h)
| EData el k buf st' rest a : (el < nloops)%nat -> opening h !! el = None -> traffic_allowed k buf ->
    OnTraffic k buf (enter el h) = Ok (st', rest, a) -> estep h 0 0 (leave el st' h)
| EPosted el st' : (el < nloops)%nat -> opening h !! el = None ->
    istep cfg dial_error register_ok remote_addr pool_conns stats_text allowed (enter el h) st' ->
    estep h 0 0 (leave el st' h).

Inductive ereach (h0 : ProxyHandler) : nat -> nat -> ProxyHandler -> Prop :=
| er_start : ereach h0 0 0 h0
| er_step a r h da dr h' : ereach h0 a r h -> estep h da dr h' -> keep h' -> ereach h0 (da + a) (dr + r) h'.

(** Accepted connections have the address of the listener, dialled ones have not. *)
Definition gnet_addrs : Prop :=
  forall k, LocalAddr k = Some (listenAddr cfg) <-> accepted k = true.

(** Connected clients, and loops inside [onClientOpen]. *)
Definition connected (h : ProxyHandler) : nat := sum_list_with (fun el => size (ids (enter el h))) (seq 0 nloops).
Definition opens (h : ProxyHandler) : nat :=
  sum_list_with (fun el => match opening h !! el with Some _ => 1 | None => 0 end)%nat (seq 0 nloops).

(** *** The callbacks are the steps of a loop *)

Abbreviation loop_step := (istep cfg dial_error register_ok remote_addr pool_conns stats_text allowed).

Lemma listening_spec k st : gnet_addrs -> isClientConn k st = accepted k.
Proof.
  intros Hg. specialize (Hg k). unfold isClientConn. revert Hg. destruct k as [c|b|addr|]; cbn [accepted]; intros Hg.
  1:{ destruct (p_ctx st !! c); [done|]. rewrite (proj2 Hg eq_refl). by apply bytes_eqb_eq. }
  all: revert Hg; destruct (LocalAddr _) as [x|]; [|done]; intros Hg; apply not_true_is_false; intros ->%bytes_eqb_eq;
    by apply diff_false_true, Hg.
Qed.

Lemma open_step k st r st' a : gnet_addrs -> accepted k = false ->
  (forall addr, k = CShared addr -> allowed (EOpen addr)) ->
  OnOpen k st = Some (Ok (r, st', a)) -> loop_step st st'.
Proof.
  intros Hg Hk Hs. unfold OnOpen. rewrite listening_spec, Hk by done. unfold backend_open.
  destruct k as [c|b|addr|]; [done|..].
  - destruct (onBackendOpen cfg b st) as [st1 a1] eqn:E. go_simp. intros [= _ <- _].
    change st1 with (fst (st1, a1)). rewrite <- E. apply HBackOpen.
  - destruct (onOpen addr (loop_of st)) as [w| | |] eqn:E; go_simp; try done. intros [= _ <- _].
    by apply (HMux _ _ _ _ _ _ _ st (EOpen addr)); [apply Hs|].
  - go_simp. intros [= _ <- _]. apply HHubOpen.
Qed.

Lemma gone_step k st st' : gnet_addrs -> accepted k = false ->
  (forall addr, k = CShared addr -> allowed (EClose addr)) -> OnClose k st = Ok st' -> loop_step st st'.
Proof.
  intros Hg Hk Hs. unfold OnClose. rewrite listening_spec, Hk by done. destruct k as [c|b|addr|]; [done|..].
  - apply HBackClose.
  - intros [= <-]. apply (HMux _ _ _ _ _ _ _ st (EClose addr)); [by apply Hs|done].
  - intros [= <-]. apply HHubClose.
Qed.

Lemma data_step k buf st st' rest a : gnet_addrs -> traffic_allowed k buf ->
  OnTraffic k buf st = Ok (st', rest, a) -> loop_step st st'.
Proof.
  intros Hg Ht. unfold OnTraffic. rewrite listening_spec by done. destruct k as [c|b|addr|]; cbn [accepted].
  - apply HRead.
  - apply HBackRead.
  - destruct (onTraffic _ _ _ _) as [[[w r1] a1]| | |] eqn:E; go_simp; try done. intros [= <- _ _].
    apply (HMux _ _ _ _ _ _ _ st (ETraffic addr buf)); [done|]. cbn [step]. rewrite E. by go_simp.
  - destruct (onSharedBackendTraffic _ _ _) as [[[w r1] a1]| | |] eqn:E; go_simp; try done. intros [= <- _ _].
    by eapply HHubRead.
Qed.

End engine.
End callbacks.

(** *** Entering and leaving a loop *)

Lemma enter_leave el st h f : enter el (set_opening f (leave el st h)) = st.
Proof.
  unfold enter, getMux, getConns, getBlockingPool, getPubsubHub. cbn. rewrite !lookup_insert_eq. cbn.
  by destruct st as [[[] ? ?] ? ? ? ? ? ? ? ? ?].
Qed.

(** What the other loops keep. *)
Definition same_loop (st st' : proxy) : Prop :=
  p_ctx st' = p_ctx st /\ p_hub st' = p_hub st /\ conns (loop_of st') = conns (loop_of st) /\
  dialing (loop_of st') = dialing (loop_of st).

Lemma enter_other el el' st h f : el <> el' -> same_loop (enter el h) (enter el (set_opening f (leave el' st h))).
Proof.
  intros Hne. unfold same_loop, enter, getMux, getConns, getBlockingPool, getPubsubHub. cbn.
  rewrite !lookup_insert_ne by done. by destruct (muxes h !! el).
Qed.

Lemma same_loop_inv l st st' : same_loop st st' -> loop_ok (census st) l st -> loop_ok (census st') l st'.
Proof.
  intros (Hc & Hh & H1 & H2) [_ Ha Hk Hm]. split; [done|..].
  - revert Ha. unfold auth_ok, auths, sts. by rewrite Hc, Hh.
  - by rewrite Hh.
  - by revert Hm; apply mux_at_same.
Qed.

Lemma same_loop_ids st st' : same_loop st st' -> ids st' = ids st.
Proof. intros (Hc & _). unfold ids. by rewrite Hc. Qed.

(** *** Sums over the loops *)

Lemma sum_ext (f g : nat -> nat) l : (forall j, j ∈ l -> f j = g j) -> sum_list_with f l = sum_list_with g l.
Proof.
  induction l as [|x l IH]; intros H; [done|]. cbn. rewrite (H x) by apply list_elem_of_here.
  rewrite IH; [done|]. intros j Hj. apply H. by apply list_elem_of_further.
Qed.

Lemma sum_update (f g : nat -> nat) i n :
  (i < n)%nat -> (forall j, j <> i -> g j = f j) ->
  (sum_list_with g (seq 0 n) + f i = sum_list_with f (seq 0 n) + g i)%nat.
Proof.
  intros Hi Hj. induction n as [|n IH]; [lia|]. rewrite seq_S, !sum_list_with_app. cbn.
  destruct (decide (i = n)) as [->|Hne].
  - rewrite (sum_ext g f); [lia|]. intros j Hin%elem_of_seq. apply Hj. lia.
  - rewrite (Hj n) by done. specialize (IH ltac:(lia)). lia.
Qed.

(** ** The invariant *)

Section engine_facts.
Context (nloops : nat) (lv : level).

(** [a] clients were admitted, [r] rejected connections closed. *)
Record engine_ok (a r : nat) (h : ProxyHandler) : Prop := {
  eo_loops : forall el, loop_ok (census (enter el h)) lv (enter el h);
  eo_count : ph_numClients h + Z.of_nat r = Z.of_nat (connected nloops h);
  eo_seq : ph_clientIDSeq h = Z.of_nat a;
  eo_ids : forall el c i, ids (enter el h) !! c = Some i -> 1 <= i <= Z.of_nat a;
  eo_unique : forall el c el' c' i, ids (enter el h) !! c = Some i -> ids (enter el' h) !! c' = Some i -> el = el' /\ c = c';
  eo_opening : forall el c, opening h !! el = Some c -> (el < nloops)%nat /\ ids (enter el h) !! c = None;
}.

Lemma ids_leave el st h f el' :
  ids (enter el' (set_opening f (leave el st h))) = if decide (el' = el) then ids st else ids (enter el' h).
Proof.
  case_decide as Hd; [subst; by rewrite enter_leave|]. by apply same_loop_ids, enter_other.
Qed.

Lemma connected_leave el st h f : (el < nloops)%nat ->
  (connected nloops (set_opening f (leave el st h)) + size (ids (enter el h)) = connected nloops h + size (ids st))%nat.
Proof.
  intros He. unfold connected.
  rewrite (sum_update (fun el => size (ids (enter el h))) (fun j => size (ids (enter j (set_opening f (leave el st h))))) el);
    [|done|].
  - by rewrite enter_leave.
  - intros j Hj. by rewrite ids_leave, decide_False.
Qed.

(** A callback that may admit client [c0] under the next id. *)
Lemma leave_engine_ok a a' r r' el c0 st h :
  engine_ok a r h -> (el < nloops)%nat -> loop_ok (census st) lv st ->
  (a <= a')%nat -> clientIDSeq st = Z.of_nat a' ->
  numClients st + Z.of_nat r' + Z.of_nat (size (ids (enter el h)))
  = ph_numClients h + Z.of_nat r + Z.of_nat (size (ids st)) ->
  (forall c i, ids st !! c = Some i ->
     ids (enter el h) !! c = Some i \/ c = c0 /\ i = Z.of_nat a' /\ (a < a')%nat) ->
  engine_ok a' r' (set_opening (delete el) (leave el st h)).
Proof.
  intros [Hl Hn Hs Hi Hu Ho] He Hst Ha Hseq Hnum Hids.
  assert (Hi' : forall el' c i, ids (enter el' (set_opening (delete el) (leave el st h))) !! c = Some i ->
    ids (enter el' h) !! c = Some i \/ el' = el /\ c = c0 /\ i = Z.of_nat a' /\ (a < a')%nat).
  { intros el' c i. rewrite ids_leave. case_decide as Hd; [subst|by left]. intros [?|?]%Hids; auto. }
  split.
  - intros el'. destruct (decide (el' = el)) as [->|Hne]; [by rewrite enter_leave|].
    eapply same_loop_inv, Hl. by apply enter_other.
  - pose proof (connected_leave el st h (delete el) He). cbn [set_opening ph_numClients leave]. lia.
  - exact Hseq.
  - intros el' c i [Hc%Hi|(_ & _ & -> & ?)]%Hi'; lia.
  - intros el1 c1 el2 c2 i [H1|(-> & -> & -> & ?)]%Hi' [H2|(-> & -> & E & ?)]%Hi'; [by eapply Hu| | |done].
    + apply Hi in H1. lia.
    + apply Hi in H2. lia.
  - intros el' c Hc. cbn in Hc. apply lookup_delete_Some in Hc as [Hne Hc]. apply Ho in Hc as [? Hc].
    split; [done|]. by rewrite ids_leave, decide_False.
Qed.

Lemma set_opening_none el h : opening h !! el = None -> set_opening (delete el) h = h.
Proof. intros Ho. unfold set_opening. rewrite delete_id by done. by destruct h. Qed.

Lemma stay_engine_ok a r el st h :
  engine_ok a r h -> (el < nloops)%nat -> opening h !! el = None ->
  loop_ok (census (enter el h)) lv st -> engine_ok a r (leave el st h).
Proof.
  intros Hok He Ho Hst. rewrite <- (set_opening_none el (leave el st h)) by done.
  pose proof (lo_census _ _ _ Hst) as Hc. injection Hc as Hid Hnum Hseq.
  apply (leave_engine_ok a a r r el 0 st h Hok He); [by eapply loop_ok_inv|done| | |].
  - rewrite Hseq. exact (eo_seq _ _ _ Hok).
  - by rewrite Hid, Hnum.
  - intros c i. rewrite Hid. by left.
Qed.

Section runs.
Context `{GG : GoGlob} `{GU : GoUnicode} (cfg : config) (dial_error : nat -> bytes -> option bytes).
Context (register_ok : bytes -> bool) (remote_addr : nat -> bytes) (pool_conns : bytes -> Z) (stats_text : bytes).
Context (order : submap -> list (bytes * list subEntry)) (LocalAddr : conn -> option bytes).
Context (allowed : event -> Prop) (Hallowed : level_allows allowed lv).

Abbreviation engine_step :=
  (estep cfg dial_error register_ok remote_addr pool_conns stats_text order LocalAddr nloops allowed).

Lemma istep_engine_ok a r el st h :
  engine_ok a r h -> (el < nloops)%nat -> opening h !! el = None ->
  istep cfg dial_error register_ok remote_addr pool_conns stats_text allowed (enter el h) st ->
  engine_ok a r (leave el st h).
Proof.
  intros Hok He Ho Hs. apply stay_engine_ok; try done.
  eapply istep_ok; [exact Hallowed|apply Hok|exact Hs].
Qed.

Lemma check_engine_ok a r el c h :
  engine_ok a r h -> (el < nloops)%nat -> p_ctx (enter el h) !! c = None -> engine_ok a r (set_opening <[el := c]> h).
Proof.
  intros [Hl Hn Hs Hi Hu Ho] He Hc. split; [exact Hl|exact Hn|exact Hs|exact Hi|exact Hu|].
  intros el' c' Hel. cbn in Hel. apply lookup_insert_Some in Hel as [[<- <-]|[Hne Hel]]; [|by apply Ho].
  split; [done|]. unfold ids. rewrite lookup_fmap. change (enter el (set_opening <[el := c]> h)) with (enter el h).
  by rewrite Hc.
Qed.

Lemma admit_engine_ok a r el c h :
  Z.of_nat (S a) < 2^64 -> engine_ok a r h -> opening h !! el = Some c ->
  engine_ok (S a) r (set_opening (delete el) (leave el (admit_client cfg c (enter el h)) h)).
Proof.
  intros Hb Hok Hc. destruct (eo_opening _ _ _ Hok el c Hc) as [He Hn].
  assert (Hid : ids (admit_client cfg c (enter el h)) = <[c := Z.of_nat (S a)]> (ids (enter el h))).
  { unfold ids, admit_client. cbn [p_ctx upd_loop upd_h to_state upd_hub upd_ctxs set_counts]. rewrite fmap_insert.
    f_equal. cbn [c_id new_ctx]. change (clientIDSeq (enter el h)) with (ph_clientIDSeq h).
    rewrite (eo_seq _ _ _ Hok). rewrite wrapu64_id; lia. }
  apply (leave_engine_ok a (S a) r r el c _ h Hok He).
  - by apply admit_loop_ok, Hok.
  - lia.
  - cbn [clientIDSeq admit_client upd_loop upd_h to_state upd_hub upd_ctxs set_counts].
    change (clientIDSeq (enter el h)) with (ph_clientIDSeq h).
    rewrite (eo_seq _ _ _ Hok). rewrite wrapu64_id; lia.
  - rewrite Hid, map_size_insert_None by done.
    cbn [numClients admit_client upd_loop upd_h to_state upd_hub upd_ctxs set_counts].
    change (numClients (enter el h)) with (ph_numClients h). lia.
  - intros d i. rewrite Hid. intros [[<- <-]|[_ Hd]]%lookup_insert_Some; [right; lia|by left].
Qed.

Lemma close_engine_ok a r el c st h :
  engine_ok a r h -> (el < nloops)%nat -> opening h !! el = None ->
  onClientClose cfg dial_error register_ok remote_addr pool_conns stats_text c (enter el h) = Ok st ->
  engine_ok a (unknown (CAccepted c) (enter el h) + r) (leave el st h).
Proof.
  intros Hok He Ho Hc. rewrite <- (set_opening_none el (leave el st h)) by done.
  destruct (close_loop_ok cfg dial_error register_ok remote_addr pool_conns stats_text lv c _ _
    (eo_loops _ _ _ Hok el) Hc) as [Hst Hcen]. injection Hcen as Hid Hnum Hseq.
  apply (leave_engine_ok a a r _ el 0 st h Hok He Hst); [done| | |].
  - rewrite Hseq. exact (eo_seq _ _ _ Hok).
  - rewrite Hnum, Hid. change (numClients (enter el h)) with (ph_numClients h). unfold unknown.
    destruct (p_ctx (enter el h) !! c) as [x|] eqn:Ex.
    + assert (is_Some (ids (enter el h) !! c)) as Hs by (unfold ids; rewrite lookup_fmap, Ex; by eexists).
      rewrite map_size_delete_Some by done.
      assert (size (ids (enter el h)) <> 0%nat); [|lia].
      intros Hz%map_size_empty_inv. rewrite Hz, lookup_empty in Hs. by destruct Hs.
    + rewrite delete_id; [lia|]. unfold ids. by rewrite lookup_fmap, Ex.
  - intros d i. rewrite Hid. intros [_ Hd]%lookup_delete_Some. by left.
Qed.

Lemma estep_ok a r h da dr h' :
  gnet_addrs cfg LocalAddr -> Z.of_nat (da + a) < 2^64 -> engine_ok a r h -> engine_step h da dr h' ->
  engine_ok (da + a) (dr + r) h'.
Proof.
  intros Hg Hb Hok Hs. destruct Hs as [el c He Ho Hc _ _|el c Ho|el k x st a' He Ho Hk Hall E|el k st He Ho Hall E
    |el k buf st rest a' He Ho Hall E|el st He Ho E].
  - by apply check_engine_ok.
  - by apply admit_engine_ok.
  - apply istep_engine_ok; try done. by eapply open_step.
  - destruct (accepted k) eqn:Ek.
    + destruct k as [c| | |]; try done. unfold OnClose in E. rewrite listening_spec in E by done. by apply close_engine_ok.
    + replace (unknown k (enter el h)) with 0%nat by (by destruct k). apply istep_engine_ok; try done. by eapply gone_step.
  - apply istep_engine_ok; try done. by eapply data_step.
  - by apply istep_engine_ok.
Qed.

Lemma new_engine_ok t : engine_ok 0 0 (NewProxyHandler cfg t).
Proof.
  assert (He : forall el, ids (enter el (NewProxyHandler cfg t)) = ∅) by (intros el; apply fmap_empty).
  split; try (intros el c i; rewrite He, lookup_empty; discriminate); [|..].
  - intros el. apply fresh_ok. split; [done|by eexists _, _|by eexists].
  - unfold connected. rewrite (sum_ext _ (fun _ => 0%nat)) by (intros el _; by rewrite He, map_size_empty).
    generalize (seq 0 nloops). intros l. by induction l.
  - done.
Qed.

Abbreviation engine_reach keep :=
  (ereach cfg dial_error register_ok remote_addr pool_conns stats_text order LocalAddr nloops allowed keep).

Lemma ereach_ok keep t a r h :
  gnet_addrs cfg LocalAddr -> Z.of_nat a < 2^64 -> engine_reach keep (NewProxyHandler cfg t) a r h -> engine_ok a r h.
Proof.
  intros Hg Hb Hr. induction Hr as [|a r h da dr h' Hr IH Hs _]; [apply new_engine_ok|].
  eapply estep_ok; [done|done| |exact Hs]. apply IH. lia.
Qed.

(** The limit is [m] all the time. *)
Section limit.
Context (m : Z) (Hm : 0 < m).

Lemma opens_le h : (opens nloops h <= nloops)%nat.
Proof.
  unfold opens. rewrite <- (length_seq nloops 0) at 2. generalize (seq 0 nloops). intros l.
  induction l as [|x l IH]; [done|]. cbn. destruct (opening h !! x); lia.
Qed.

Lemma opens_check el c h : (el < nloops)%nat -> opening h !! el = None ->
  opens nloops (set_opening <[el := c]> h) = S (opens nloops h).
Proof.
  intros He Ho. unfold opens.
  pose proof (sum_update (fun el => match opening h !! el with Some _ => 1 | None => 0 end)%nat
    (fun j => match <[el := c]> (opening h) !! j with Some _ => 1 | None => 0 end)%nat el nloops He) as Hs.
  cbv beta in Hs. rewrite lookup_insert_eq, Ho in Hs. cbn [opening set_opening].
  assert (forall n k : nat, (n + 0 = k + 1)%nat -> n = S k) as Hl by lia. apply Hl, Hs.
  intros j Hj. by rewrite lookup_insert_ne.
Qed.

Lemma opens_admit el c st h : (el < nloops)%nat -> opening h !! el = Some c ->
  S (opens nloops (set_opening (delete el) (leave el st h))) = opens nloops h.
Proof.
  intros He Ho. unfold opens.
  pose proof (sum_update (fun el => match opening h !! el with Some _ => 1 | None => 0 end)%nat
    (fun j => match delete el (opening h) !! j with Some _ => 1 | None => 0 end)%nat el nloops He) as Hs.
  cbv beta in Hs. rewrite lookup_delete_eq, Ho in Hs. cbn [opening set_opening leave].
  assert (forall n k : nat, (n + 1 = k + 0)%nat -> S n = k) as Hl by lia. apply Hl, Hs.
  intros j Hj. by rewrite lookup_delete_ne.
Qed.

Definition within (r : nat) (h : ProxyHandler) : Prop :=
  Z.of_nat (connected nloops h) + Z.of_nat (opens nloops h) <= m + Z.of_nat r + Z.of_nat nloops - 1.

Lemma istep_num a r el st h :
  engine_ok a r h ->
  istep cfg dial_error register_ok remote_addr pool_conns stats_text allowed (enter el h) st ->
  numClients st = ph_numClients h.
Proof.
  intros Hok Hs.
  assert (Hst : loop_ok (census (enter el h)) lv st)
    by (eapply istep_ok; [exact Hallowed|apply Hok|exact Hs]).
  pose proof (lo_census _ _ _ Hst) as Hc. by injection Hc as _ Hn _.
Qed.

(** The bound is kept where clients only leave, and restored where there was room. *)
Lemma within_less a r a' dr h h' :
  engine_ok a r h -> engine_ok a' (dr + r) h' -> ph_numClients h' <= ph_numClients h -> opening h' = opening h ->
  within r h -> within (dr + r) h'.
Proof.
  intros Hok Hok' Hn Ho. pose proof (eo_count _ _ _ Hok). pose proof (eo_count _ _ _ Hok').
  unfold within, opens. rewrite Ho. lia.
Qed.

Lemma within_step a r h da dr h' :
  gnet_addrs cfg LocalAddr -> Z.of_nat (da + a) < 2^64 -> engine_ok a r h -> ph_maxClients h = m ->
  engine_step h da dr h' -> within r h -> within (dr + r) h'.
Proof.
  intros Hg Hb Hok Hmax Hs Hw. pose proof (estep_ok _ _ _ _ _ _ Hg Hb Hok Hs) as Hok'.
  destruct Hs as [el c He Ho Hx _ Hl|el c Ho|el k x st a' He Ho Hk Hall E|el k st He Ho Hall E
    |el k buf st rest a' He Ho Hall E|el st He Ho E].
  - pose proof (opens_le (set_opening <[el := c]> h)). pose proof (eo_count _ _ _ Hok). unfold within.
    change (connected nloops (set_opening <[el := c]> h)) with (connected nloops h).
    unfold limit_reached in Hl. change (maxClients (enter el h)) with (ph_maxClients h) in Hl.
    change (numClients (enter el h)) with (ph_numClients h) in Hl. lia.
  - destruct (eo_opening _ _ _ Hok el c Ho) as [He _]. pose proof (eo_count _ _ _ Hok).
    pose proof (opens_admit el c (admit_client cfg c (enter el h)) h He Ho). pose proof (eo_count _ _ _ Hok') as Hc.
    change (ph_numClients (set_opening _ (leave _ (admit_client cfg c (enter el h)) _))) with (ph_numClients h + 1) in Hc.
    unfold within in *. lia.
  - eapply within_less; [exact Hok|exact Hok'| |done|exact Hw].
    eapply open_step, istep_num in E; [|done..]. cbn [ph_numClients leave]. lia.
  - eapply within_less; [exact Hok|exact Hok'| |done|exact Hw]. cbn [ph_numClients leave]. destruct (accepted k) eqn:Ek.
    + destruct k as [c| | |]; try done. unfold OnClose in E. rewrite listening_spec in E by done. cbn [accepted] in E.
      destruct (close_loop_ok _ _ _ _ _ _ lv c _ _ (eo_loops _ _ _ Hok el) E) as [_ Hcen].
      injection Hcen as _ -> _. change (numClients (enter el h)) with (ph_numClients h). lia.
    + eapply gone_step, istep_num in E; [|done..]. lia.
  - eapply within_less; [exact Hok|exact Hok'| |done|exact Hw].
    eapply data_step, istep_num in E; [|done..]. cbn [ph_numClients leave]. lia.
  - eapply within_less; [exact Hok|exact Hok'| |done|exact Hw].
    eapply istep_num in E; [|done..]. cbn [ph_numClients leave]. lia.
Qed.

Lemma ereach_within t a r h :
  gnet_addrs cfg LocalAddr -> Z.of_nat a < 2^64 -> MaxClients cfg = m ->
  engine_reach (fun h => ph_maxClients h = m) (NewProxyHandler cfg t) a r h ->
  within r h /\ ph_maxClients h = m.
Proof.
  intros Hg Hb Hc Hr. induction Hr as [|a r h da dr h' Hr IH Hs Hk].
  - split; [|done]. pose proof (eo_count _ _ _ (new_engine_ok t)) as Hn. unfold within, opens.
    rewrite (sum_ext _ (fun _ => 0%nat)) by (intros el _; cbn; by rewrite lookup_empty).
    assert (forall l : list nat, sum_list_with (fun _ => 0%nat) l = 0%nat) as Hz by (intros l; by induction l).
    rewrite Hz. cbn [ph_numClients NewProxyHandler] in Hn. lia.
  - destruct IH as [Hw Hmax]; [lia|]. split; [|exact Hk].
    eapply within_step; [done| | |exact Hmax|exact Hs|exact Hw]; [exact Hb|].
    eapply ereach_ok; [done| |exact Hr]. lia.
Qed.

End limit.
End runs.
End engine_facts.

(** ** Properties *)

(** C6: several event loops at once, whatever the interleaving of gnet's callbacks, of
    posted functions and of the two halves of opening a client, and whatever the backends
    send: in every loop each entry of the hub is registered for its client and no client
    without the password is past the guard; the number of clients together with the
    rejected connections that were closed is the number of connected clients of all
    loops; and each client has an id of its own between 1 and the number of admitted
    clients.  If moreover no read of a shared connection has an ASK after a MOVED
    ([event_safe]), then on every shared connection of every loop the bytes sent are the
    commands of a log whose unanswered end is what waits there. *)
Theorem engine_invariant `{GoGlob} `{GoUnicode} cfg dial_error register_ok remote_addr pool_conns stats_text order LocalAddr
    nloops allowed keep t a r h :
  gnet_addrs cfg LocalAddr -> Z.of_nat a < 2^64 ->
  ereach cfg dial_error register_ok remote_addr pool_conns stats_text order LocalAddr nloops allowed keep
    (NewProxyHandler cfg t) a r h ->
  (forall el, loop_safe (enter el h)) /\
  NumClients h + Z.of_nat r = Z.of_nat (connected nloops h) /\
  (forall el c i, ids (enter el h) !! c = Some i -> 1 <= i <= Z.of_nat a) /\
  (forall el c el' c' i, ids (enter el h) !! c = Some i -> ids (enter el' h) !! c' = Some i -> el = el' /\ c = c') /\
  ((forall e, allowed e -> event_safe e) -> forall el, loop_wires (enter el h)).
Proof.
  intros Hg Hb Hr. pose proof Hr as Hr0. eapply (ereach_ok nloops LNone) in Hr as [Hl Hn _ Hi Hu _]; [|exact I|done..].
  split; [intros el; by eapply loop_ok_safe|]. split; [done|]. split; [done|]. split; [done|].
  intros Hs el. eapply (ereach_ok nloops LFlushed) in Hr0 as [Hl' _ _ _ _ _]; [|exact Hs|done..].
  by eapply loop_ok_sound.
Qed.

(** C33: while the limit of clients is [m], at most [m] clients are connected, plus one for
    every rejected connection that closed (which lowers the count without having raised
    it), plus one for every event loop but one (the limit is checked before the client is
    counted). *)
Theorem clients_bounded `{GoGlob} `{GoUnicode} cfg dial_error register_ok remote_addr pool_conns stats_text order LocalAddr
    nloops allowed m t a r h :
  gnet_addrs cfg LocalAddr -> Z.of_nat a < 2^64 -> 0 < m -> MaxClients cfg = m ->
  ereach cfg dial_error register_ok remote_addr pool_conns stats_text order LocalAddr nloops allowed
    (fun h => ph_maxClients h = m) (NewProxyHandler cfg t) a r h ->
  Z.of_nat (connected nloops h) <= m + Z.of_nat r + (Z.of_nat nloops - 1).
Proof.
  intros Hg Hb Hm Hc Hr. eapply (ereach_within nloops LNone) in Hr as [Hw _]; [|exact I|done..].
  unfold within in Hw. lia.
Qed.

(** Two loops, a limit of one client: both check before either counts. *)
Definition limit_cfg : config := mkConfig (set_MaxClients 1 Default) (bs "127.0.0.1:7777").
Definition addr_of (k : conn) : option bytes := if accepted k then Some (bs "127.0.0.1:7777") else None.
#[local] Instance engine_text : GoUnicode := ascii_unicode.
#[local] Instance engine_glob : GoGlob := {| filepath_Match := fun _ _ => None |}.
Definition idle_handler : ProxyHandler := NewProxyHandler limit_cfg NewTopology.
Definition both_checked : ProxyHandler := set_opening <[1%nat := 4%nat]> (set_opening <[0%nat := 3%nat]> idle_handler).
Definition one_admitted : ProxyHandler :=
  set_opening (delete 0%nat) (leave 0 (admit_client limit_cfg 3 (enter 0 both_checked)) both_checked).
Definition two_admitted : ProxyHandler :=
  set_opening (delete 1%nat) (leave 1 (admit_client limit_cfg 4 (enter 1 one_admitted)) one_admitted).

Abbreviation two_loops keep :=
  (ereach limit_cfg no_errors (fun _ => true) (fun _ => []) (fun _ => 0) [] map_to_list addr_of 2 (fun _ => True) keep).

Lemma addrs_ok : gnet_addrs limit_cfg addr_of.
Proof. intros k. unfold addr_of. by destruct (accepted k). Qed.

Lemma two_admitted_reach (keep : ProxyHandler -> Prop) :
  (forall h, ph_maxClients h = 1 -> keep h) -> two_loops keep idle_handler 2 0 two_admitted.
Proof.
  intros Hk. refine (er_step _ _ _ _ _ _ _ _ _ _ _ _ 1 0 one_admitted 1 0 _ _ _ _); [|by apply EAdmit|by apply Hk].
  refine (er_step _ _ _ _ _ _ _ _ _ _ _ _ 0 0 both_checked 1 0 _ _ _ _); [|by apply EAdmit|by apply Hk].
  refine (er_step _ _ _ _ _ _ _ _ _ _ _ _ 0 0 (set_opening <[0%nat := 3%nat]> idle_handler) 0 0 _ _ _ _);
    [|by apply ECheck; [lia|..]|by apply Hk].
  refine (er_step _ _ _ _ _ _ _ _ _ _ _ _ 0 0 idle_handler 0 0 _ _ _ _);
    [apply er_start|by apply ECheck; [lia|..]|by apply Hk].
Qed.

Lemma engine_invariant_witness :
  ids (enter 0 two_admitted) !! 3%nat = Some 1 /\ ids (enter 1 two_admitted) !! 4%nat = Some 2 /\
  NumClients two_admitted + Z.of_nat 0 = Z.of_nat (connected 2 two_admitted).
Proof.
  split; [by vm_compute|]. split; [by vm_compute|].
  refine (proj1 (proj2 (engine_invariant limit_cfg no_errors (fun _ => true) (fun _ => []) (fun _ => 0) [] map_to_list addr_of
    2 (fun _ => True) (fun _ => True) NewTopology 2 0 two_admitted _ _ _))).
  - exact addrs_ok.
  - reflexivity.
  - by apply two_admitted_reach.
Defined.

(** The bound is reached: two clients with a limit of one. *)
Lemma clients_bounded_witness :
  Z.of_nat (connected 2 two_admitted) = 2 /\
  Z.of_nat (connected 2 two_admitted) <= 1 + Z.of_nat 0 + (Z.of_nat 2 - 1).
Proof.
  split; [by vm_compute|].
  refine (clients_bounded limit_cfg no_errors (fun _ => true) (fun _ => []) (fun _ => 0) [] map_to_list addr_of
    2 (fun _ => True) 1 NewTopology 2 0 two_admitted _ _ _ _ _).
  - exact addrs_ok.
  - reflexivity.
  - reflexivity.
  - reflexivity.
  - by apply two_admitted_reach.
Defined.
