(* ===== verification/EndToEnd.v ===== *)
(** * EndToEnd: a pipeline from the client's bytes to the client's bytes

    The parts of the common path together: [onClientTraffic] parses and routes the
    commands of a client, the shared connections carry them to the owners of their keys,
    [onTraffic] scans the replies, the response queue writes them in order.
    [pipeline_end_to_end]: a client that sends commands for several nodes in one go gets
    the nodes' replies, byte for byte and in the order of its commands, however the
    replies of the nodes arrive. *)

From S2P Require Import Prelude GoStd Config Crc16 Value RespParse RespFacts RequestFacts Command Topology RespQueue Mux.
From S2P Require Import Router Routing MuxFacts Ledger Hub Handler HandlerFacts Engine.

(** ** Commands the multiplexer carries *)

(** What the parser makes of the encoding of [args]. *)
Definition request_of (args : list bytes) : Request :=
  match args with
  | a :: rest =>
      let cmd := map upper_byte a :: rest in
      mkRequest cmd (EncodeCommandBytes cmd) (map upper_byte a)
  | [] => mkRequest [] [] []
  end.

Definition own_commands : list string :=
  ["QUIT"; "RESET"; "PING"; "ECHO"; "SELECT"; "READONLY"; "READWRITE"; "HELLO"; "AUTH"; "CLIENT"; "INFO"; "CLUSTER";
   "MULTI"; "WATCH"; "UNWATCH"; "DISCARD"; "EXEC"; "SUBSCRIBE"; "PSUBSCRIBE"; "EVAL"; "EVALSHA"; "EVAL_RO"; "EVALSHA_RO";
   "PROXY"; "BROADCAST"]%string.

(** The node a command for one key is sent to when reads go to masters. *)
Definition routed_to (t : Topology) (req : Request) : option bytes :=
  if one_of (Cmd req) own_commands || IsBlocking (GetCmdInfo (Cmd req)) || IsBlockingXREAD req then None
  else match GetFirstKeyAndInfo req with
       | (Some k, info) =>
           if IsNotAllowed info || IsAllNodes info || IsMultiKey info then None else GetNodeForSlot (HashSlot k) t
       | (None, _) => None
       end.

Lemma routed_inv t req addr :
  routed_to t req = Some addr ->
  one_of (Cmd req) own_commands = false /\ IsBlocking (GetCmdInfo (Cmd req)) = false /\ IsBlockingXREAD req = false /\
  exists k info, GetFirstKeyAndInfo req = (Some k, info) /\ IsNotAllowed info = false /\ IsAllNodes info = false /\
    IsMultiKey info = false /\ GetNodeForSlot (HashSlot k) t = Some addr.
Proof.
  unfold routed_to. destruct (one_of _ _ || _ || _) eqn:E; [discriminate|].
  apply orb_false_iff in E as [E E3]. apply orb_false_iff in E as [E1 E2].
  destruct (GetFirstKeyAndInfo req) as [[k|] info]; [|discriminate].
  destruct (IsNotAllowed info || _ || _) eqn:E; [discriminate|].
  apply orb_false_iff in E as [E E6]. apply orb_false_iff in E as [E4 E5].
  intros Hr. split; [exact E1|]. split; [exact E2|]. split; [exact E3|]. exists k, info. auto.
Qed.

(** ** Shares of a list *)

(** What a list of pairs has for [a]. *)
Fixpoint part {A} (a : bytes) (l : list (bytes * A)) : list A :=
  match l with
  | [] => []
  | (b, x) :: l => if bytes_eqb b a then x :: part a l else part a l
  end.

Lemma part_app {A} a (l1 l2 : list (bytes * A)) : part a (l1 ++ l2) = part a l1 ++ part a l2.
Proof. induction l1 as [|[b x] l1 IH]; [done|]. cbn. destruct (bytes_eqb b a); by rewrite IH. Qed.

(** A part whose first element is [x] has it in the list, after elements of other parts. *)
Lemma part_split {A} a (x : A) xs l :
  part a l = x :: xs ->
  exists l1 l2, l = l1 ++ (a, x) :: l2 /\ part a l1 = [] /\ part a l2 = xs.
Proof.
  induction l as [|[b y] l IH]; [done|]. cbn. destruct (bytes_eqb b a) eqn:E.
  - apply bytes_eqb_eq in E as ->. intros [= -> <-]. by exists [], l.
  - intros (l1 & l2 & -> & H1 & H2)%IH. exists ((b, y) :: l1), l2. cbn. by rewrite E.
Qed.

Lemma parts_perm {A} (l1 l2 : list (bytes * A)) : (forall a, part a l1 = part a l2) -> l1 ≡ₚ l2.
Proof.
  revert l2. induction l1 as [|[a x] l1 IH]; intros l2 H.
  - destruct l2 as [|[a x] l2]; [done|]. specialize (H a). cbn in H. by rewrite bytes_eqb_refl in H.
  - pose proof (H a) as Ha. cbn in Ha. rewrite bytes_eqb_refl in Ha. symmetry in Ha.
    destruct (part_split _ _ _ _ Ha) as (k1 & k2 & -> & H1 & H2).
    rewrite <- Permutation_middle. constructor. apply IH. intros b. specialize (H b).
    rewrite part_app in *. cbn in H. destruct (bytes_eqb a b) eqn:E; [|done].
    apply bytes_eqb_eq in E as <-. by rewrite H1, H2.
Qed.

(** Lists of pairs in groups. *)
Definition ungroup {A} (l : list (bytes * list A)) : list (bytes * A) := concat (map (fun g => map (pair (fst g)) (snd g)) l).

Lemma part_ungroup {A} a (l : list (bytes * list A)) : part a (ungroup l) = concat (part a l).
Proof.
  induction l as [|[b xs] l IH]; [done|]. unfold ungroup in *. cbn. rewrite part_app, IH.
  assert (part a (map (pair b) xs) = if bytes_eqb b a then xs else []) as ->.
  { induction xs as [|x xs IHx]; cbn; [by destruct (bytes_eqb b a)|]. rewrite IHx. by destruct (bytes_eqb b a). }
  by destruct (bytes_eqb b a).
Qed.

Lemma ungroup_snd {A} (l : list (bytes * list A)) : map snd (ungroup l) = concat (map snd l).
Proof.
  induction l as [|[b xs] l IH]; [done|]. unfold ungroup in *. cbn. rewrite map_app, IH, map_map. cbn. by rewrite map_id.
Qed.

(** The requests of the pipeline, numbered from [k], with their owners. *)
Fixpoint indexed (k : nat) (owners : list bytes) : list (bytes * nat) :=
  match owners with
  | [] => []
  | o :: owners => (o, k) :: indexed (S k) owners
  end.

Lemma part_indexed_elem k addr owners : part addr (indexed k owners) <> [] -> addr ∈ owners.
Proof.
  revert k. induction owners as [|o owners IH]; intros k; [done|]. cbn. destruct (bytes_eqb o addr) eqn:E.
  - apply bytes_eqb_eq in E as ->. intros _. apply list_elem_of_here.
  - intros Hp%IH. by apply list_elem_of_further.
Qed.

Lemma indexed_snd k owners : map snd (indexed k owners) = seq k (length owners).
Proof. revert k. induction owners as [|o owners IH]; intros k; [done|]. cbn. by rewrite IH. Qed.

Section pipeline.
Context `{GG : GoGlob} `{GU : GoUnicode} (cfg : config) (dial_error : nat -> bytes -> option bytes).
Context (register_ok : bytes -> bool) (remote_addr : nat -> bytes) (pool_conns : bytes -> Z) (stats_text : bytes).
Context (order : submap -> list (bytes * list subEntry)) (LocalAddr : conn -> option bytes).

Abbreviation dispatch_request := (dispatchClientRequest cfg dial_error register_ok remote_addr pool_conns stats_text).
Abbreviation read_loop := (client_loop cfg dial_error register_ok remote_addr pool_conns stats_text).

(** ** The commands go out *)

(** A client that waits for nothing. *)
Record ready_client (c : nat) (st : proxy) : Prop := {
  rc_ctx : exists x, p_ctx st !! c = Some x /\ authenticated x = true /\ pendingWatchReq x = None;
  rc_state : state_of c st = stateNormal;
  rc_mode : h_mode (p_h st) = ReadModeMasterOnly;
}.

Lemma run_command_routes c req st :
  one_of (Cmd req) own_commands = false -> IsBlocking (GetCmdInfo (Cmd req)) = false -> IsBlockingXREAD req = false ->
  run_command cfg dial_error register_ok remote_addr pool_conns stats_text c req (Cmd req) st
  = (h ← routeToBackend dial_error c req (p_h st); Ok (upd_h (fun _ => h) st, ActNone)).
Proof.
  intros Ho Hb Hx. unfold one_of, own_commands in Ho. cbn [existsb] in Ho. rewrite !orb_false_iff in Ho.
  destruct_and! Ho. unfold run_command, one_of. cbv zeta. cbn [existsb].
  repeat match goal with H : bytes_eqb _ _ = false |- _ => rewrite H; clear H end.
  cbn [orb]. by rewrite Hb, Hx.
Qed.

(** The entry of request [i] of the pipeline whose first slot is [b]. *)
Definition entry_of (c b : nat) (cmds : list (list bytes)) (i : nat) : pendingClientReq :=
  mkPending c (b + i) 0 (request_of <$> cmds !! i) false false false 0.

(** A command that the proxy neither answers itself nor defers is routed. *)
Lemma dispatch_route c req st :
  ready_client c st -> Args req <> [] ->
  one_of (Cmd req) own_commands = false -> IsBlocking (GetCmdInfo (Cmd req)) = false -> IsBlockingXREAD req = false ->
  exists st1, p_h st1 = p_h st /\ p_ctx st1 = p_ctx st /\ p_hub st1 = p_hub st /\
    dispatch_request c req st = (h ← routeToBackend dial_error c req (p_h st); Ok (upd_h (fun _ => h) st1, ActNone)).
Proof.
  intros [(x & Hx & Ha & Hw) Hs _] Hargs Eo Eb Ex. unfold dispatchClientRequest.
  destruct (Args req) as [|a0 args] eqn:Eargs; [by destruct Hargs|]. cbn [length Nat.eqb]. cbv zeta.
  set (st1 := set_counts _ _ _ _ _). exists st1. split; [reflexivity|]. split; [reflexivity|]. split; [reflexivity|].
  change (state_of c st1) with (state_of c st). rewrite Hs. unfold handleNormal. cbv zeta.
  assert (ctx_of c st1 = x) as -> by (unfold ctx_of, st1; cbn; by rewrite Hx).
  rewrite Ha, Hw. cbn [negb andb]. rewrite run_command_routes by assumption. reflexivity.
Qed.

Lemma dispatch_routed c req st q addr bc raw :
  ready_client c st -> Args req <> [] -> routed_to (topology (loop_of st)) req = Some addr ->
  clients (loop_of st) !! c = Some q -> conns (loop_of st) !! addr = Some bc -> rawBytes (Some req) = Ok raw ->
  exists st', dispatch_request c req st = Ok (st', ActNone) /\
    p_ctx st' = p_ctx st /\ p_hub st' = p_hub st /\ h_mode (p_h st') = h_mode (p_h st) /\
    topology (loop_of st') = topology (loop_of st) /\ refreshes (loop_of st') = refreshes (loop_of st) /\
    clients (loop_of st') = <[c := snd (allocResponseSlot q)]> (clients (loop_of st)) /\
    conns (loop_of st') = <[addr := push_conn
      [mkPending c (respBase q + length (respQueue q)) 0 (Some req) false false false 0] raw [] bc]> (conns (loop_of st)).
Proof.
  intros Hrc Hargs Hr Hq Hc Hraw. pose proof (rc_mode _ _ Hrc) as Hm.
  apply routed_inv in Hr as (Eo & Eb & Ex & k & info & Ek & E1 & E2 & E3 & Hr).
  destruct (dispatch_route c req st Hrc Hargs Eo Eb Ex) as (st1 & Hh & Hctx & Hhub & Hd). rewrite Hd. clear Hd.
  unfold routeToBackend. rewrite Ek, E1, E2, E3. cbv zeta. rewrite Hm. change (h_loop (p_h st)) with (loop_of st).
  assert (pickNode ReadModeMasterOnly (HashSlot k) (IsRead info && negb (IsWrite info)) (topology (loop_of st))
    = (Some addr, topology (loop_of st))) as ->.
  { unfold pickNode. destruct (_ && _); rewrite Hr; reflexivity. }
  unfold alloc. cbn [h_loop with_loop]. change (clients (set_topology (topology (loop_of st)) (loop_of st)))
    with (clients (loop_of st)). rewrite Hq. cbn [allocResponseSlot].
  unfold send. cbn [h_loop with_loop Mux.req]. change (conns (upd_clients _ _)) with (conns (loop_of st)).
  rewrite Hc, Hraw. go_simp. eexists. split; [reflexivity|]. split; [exact Hctx|]. split; [exact Hhub|].
  split; [exact Hm|]. repeat (split; [reflexivity|]). reflexivity.
Qed.

Lemma ready_same c st st' :
  p_ctx st' = p_ctx st -> p_hub st' = p_hub st -> h_mode (p_h st') = h_mode (p_h st) ->
  ready_client c st -> ready_client c st'.
Proof. intros Hc Hh Hm [Hx Hs Hr]. split; [by rewrite Hc|unfold state_of in *; by rewrite Hh|by rewrite Hm]. Qed.

(** The callback of a client whose bytes are all taken: the commands are flushed to the nodes. *)
Lemma client_read c buf st st0 :
  gnet_addrs cfg LocalAddr -> ready_client c st -> read_loop (S (length buf)) c buf st = Ok (st0, [], ActNone) ->
  OnTraffic cfg dial_error register_ok remote_addr pool_conns stats_text order LocalAddr (CAccepted c) buf st
  = Ok (upd_loop flushBackendWrites st0, [], ActNone).
Proof.
  intros Hg [(x & Hx & _) _ _] Hrun. unfold OnTraffic. rewrite listening_spec by done. cbn [accepted].
  unfold onClientTraffic. rewrite Hx, Hrun. by go_simp.
Qed.

(** The bytes sent for request [i]. *)
Definition sent_bytes (cmds : list (list bytes)) (i : nat) : bytes :=
  match cmds !! i with Some args => Raw (request_of args) | None => [] end.

Lemma request_raw a args : rawBytes (Some (request_of (a :: args))) = Ok (Raw (request_of (a :: args))).
Proof. unfold rawBytes. cbn [request_of Raw Args]. by destruct (_ <? _)%nat. Qed.

Lemma routed_args t args addr : routed_to t (request_of args) = Some addr -> exists a rest, args = a :: rest.
Proof.
  destruct args as [|a rest]; [|eauto]. intros (_ & _ & _ & k & info & Hk & _)%routed_inv. discriminate Hk.
Qed.

Lemma push_push ps1 b1 ps2 b2 bc :
  push_conn ps2 b2 [] (push_conn ps1 b1 [] bc) = push_conn (ps1 ++ ps2) (b1 ++ b2) [] bc.
Proof. unfold push_conn. cbn. by rewrite !app_nil_r, !app_assoc. Qed.

Lemma push_nil bc : push_conn [] [] [] bc = bc.
Proof. unfold push_conn. rewrite !app_nil_r. by destruct bc. Qed.

Definition allocated (n : nat) (q : respState) : respState :=
  mkResp (respQueue q ++ replicate n empty_slot) (respBase q) (out q) (iov q).

Lemma pipeline_sent all b c cmds owners : forall fuel k q st,
  Forall2 (fun args addr => routed_to (topology (loop_of st)) (request_of args) = Some addr) cmds owners ->
  drop k all = cmds -> ready_client c st -> clients (loop_of st) !! c = Some q ->
  (respBase q + length (respQueue q) = b + k)%nat ->
  Forall (fun o => is_Some (conns (loop_of st) !! o)) owners ->
  buffer_ok (concat (map EncodeCommandBytes cmds)) -> (length (concat (map EncodeCommandBytes cmds)) < fuel)%nat ->
  exists st', read_loop fuel c (concat (map EncodeCommandBytes cmds)) st = Ok (st', [], ActNone) /\
    refreshes (loop_of st') = refreshes (loop_of st) /\ clients (loop_of st') !! c = Some (allocated (length cmds) q) /\
    forall addr bc, conns (loop_of st) !! addr = Some bc ->
      conns (loop_of st') !! addr = Some (push_conn (map (entry_of c b all) (part addr (indexed k owners)))
        (concat (map (sent_bytes all) (part addr (indexed k owners)))) [] bc).
Proof.
  revert owners. induction cmds as [|args cmds IH]; intros owners fuel k q st Hr Hd Hrc Hq Hs Ho Hb Hf.
  { apply Forall2_nil_inv_l in Hr as ->. destruct fuel as [|fuel]; [lia|]. exists st. split; [reflexivity|]. split; [done|].
    split; [by rewrite Hq; unfold allocated; rewrite app_nil_r; destruct q|]. intros addr bc Hc. cbn. by rewrite push_nil. }
  apply Forall2_cons_inv_l in Hr as (o & os & Hra & Hrs & ->). apply Forall_cons in Ho as [[bc Hbc] Ho].
  destruct (routed_args _ _ _ Hra) as (a & rest & ->). cbn [map concat] in *.
  destruct fuel as [|fuel]; [lia|]. cbn [client_loop]. rewrite (request_encode a rest _ Hb). cbv zeta.
  fold (request_of (a :: rest)).
  destruct (dispatch_routed c (request_of (a :: rest)) st q o bc (Raw (request_of (a :: rest)))) as
    (st1 & Hdis & H1 & H2 & H3 & H4 & Href & H5 & H6); try assumption; [discriminate|apply request_raw|].
  change (mkRequest _ _ _) with (request_of (a :: rest)). rewrite Hdis. go_simp. rewrite drop_length_app.
  assert (Hk : all !! k = Some (a :: rest)).
  { rewrite <- (Nat.add_0_r k), <- lookup_drop, Hd. done. }
  destruct (IH os fuel (S k) (snd (allocResponseSlot q)) st1) as (st2 & Hrun & Hrf & Hcl & Hconns).
  - by rewrite H4.
  - by rewrite <- Nat.add_1_r, <- drop_drop, Hd.
  - eapply ready_same; [exact H1|exact H2|exact H3|exact Hrc].
  - rewrite H5. apply lookup_insert_eq.
  - cbn. rewrite length_app. cbn. lia.
  - eapply Forall_impl; [exact Ho|]. intros x Hx. rewrite H6. apply lookup_insert_is_Some'. by right.
  - unfold buffer_ok in *. rewrite length_app in Hb. lia.
  - rewrite length_app in Hf. assert (length (EncodeCommandBytes (a :: rest)) <> 0%nat); [|lia].
    rewrite EncodeCommandBytes_eq. cbn. lia.
  - exists st2. split; [exact Hrun|]. split; [by rewrite Hrf|]. split.
    + rewrite Hcl. unfold allocated. cbn. by rewrite <- app_assoc.
    + intros addr bc' Hc'. cbn [indexed part]. destruct (bytes_eqb o addr) eqn:E.
      * apply bytes_eqb_eq in E as <-. rewrite Hbc in Hc'. injection Hc' as <-.
        rewrite (Hconns o (push_conn [entry_of c b all k] (sent_bytes all k) [] bc)).
        -- cbn [map concat]. by rewrite push_push.
        -- rewrite H6, lookup_insert_eq. unfold entry_of, sent_bytes. rewrite Hk, Hs. done.
      * apply Hconns. rewrite H6, lookup_insert_ne; [done|]. intros <-. by rewrite bytes_eqb_refl in E.
Qed.

(** ** The replies come back *)

(** A reply that is no redirection. *)
Definition final (v : Value) : bool :=
  match value_kind (canon v) with ErrorKindMoved | ErrorKindAsk => false | _ => true end.

Lemma final_answer p v : skipReply p = false -> final v = true ->
  decide_reply p (value_kind (canon v)) (value_msg (canon v)) = DAnswer.
Proof. unfold final, decide_reply. intros ->. by destruct (value_kind _). Qed.

(** The entries [E i] of requests of client [c] and what a reply to one of them does to the queue of [c]. *)
Definition entries_for (c : nat) (E : nat -> pendingClientReq) : Prop := forall i, clientConn (E i) = c /\ skipReply (E i) = false.
Definition replies_to (E : nat -> pendingClientReq) (vals : list Value) (js : list nat) : list reply :=
  map (fun i => reply_of (E i) (EncodeValue (vals !! i))) js.

(** The replies with the numbers [js]. *)
Definition reply_bytes (vals : list Value) (js : list nat) : bytes := concat (map EncodeValue (map (fun i => vals !! i) js)).
Definition replies (b : nat) (vals : list Value) (js : list nat) : list reply :=
  map (fun i => RReply (b + i) (EncodeValue (vals !! i))) js.

(** What the connection of [addr] still waits for. *)
Definition waits_for (addr : bytes) (ps : list pendingClientReq) (w : evloop) : Prop :=
  exists bc, conns w !! addr = Some bc /\ head_ok bc /\ live bc = ps.

Lemma dispatch_final addr c E vals js q' : forall rest w q, entries_for c E ->
  Forall (fun i => exists v, vals !! i = Some v /\ final v = true) js ->
  waits_for addr (map E js ++ rest) w -> clients w !! c = Some q ->
  foldM run_reply q (replies_to E vals js) = Ok q' ->
  exists w', foldM (dispatch dial_error addr) w (zip (map E js) (map (fun i => vals !! i) js)) = Ok w' /\
    clients w' !! c = Some q' /\ waits_for addr rest w' /\ forall a, a <> addr -> conns w' !! a = conns w !! a.
Proof.
  induction js as [|i js IH]; intros rest w q HE Hv Hw Hq Hr; [injection Hr as <-; by exists w|].
  apply Forall_cons in Hv as [(v & Hi & Hfin) Hv]. destruct Hw as (bc & Hc & Hh & Hl). cbn [map app zip_with] in *.
  pose proof (live_head _ _ _ Hl) as Hp. rewrite (live_pop bc _ Hp) in Hl. injection Hl as Hl.
  cbn [foldM replies_to map] in *. destruct (run_reply q _) as [q1| | |] eqn:Hq1; try discriminate Hr. go_simp_in Hr.
  unfold dispatch at 2. rewrite Hc, Hi in *. cbn [canon_ptr]. destruct (HE i) as [Hi1 Hi2].
  rewrite (final_answer (E i) v Hi2 Hfin). unfold answer. rewrite Hi1. change (clients (upd_conns _ w)) with (clients w).
  rewrite Hq. unfold reply_of in Hq1. rewrite Hq1. go_simp.
  match goal with |- context [foldM (dispatch dial_error addr) ?w1 _] =>
    destruct (IH rest w1 q1) as (w' & Hf & Hcl & Hwait & Ho) end.
  - exact HE.
  - exact Hv.
  - exists (pop_conn bc). split; [apply lookup_insert_eq|]. split; [by eapply head_ok_pop|exact Hl].
  - apply lookup_insert_eq.
  - exact Hr.
  - exists w'. split; [exact Hf|]. split; [exact Hcl|]. split; [exact Hwait|].
    intros a Ha. rewrite Ho by done. apply lookup_insert_ne. congruence.
Qed.

Lemma waits_flush addr ps w : waits_for addr ps w -> waits_for addr ps (flushBackendWrites (flushWriteAccum w)).
Proof.
  intros (bc & Hc & Hh & Hl). eexists. split; [cbn; rewrite lookup_fmap, Hc; reflexivity|]. by split.
Qed.

(** A connection with nothing outstanding. *)
Definition idle_at (w : evloop) (addr : bytes) : Prop :=
  exists bc, conns w !! addr = Some bc /\ head_ok bc /\ live bc = [] /\ writeBuf bc = [].

(** Requests given to an idle connection, after the flush at the end of the callback. *)
Lemma flushed_idle addr ps bytes w w0 :
  idle_at w addr -> (forall bc, conns w !! addr = Some bc -> conns w0 !! addr = Some (push_conn ps bytes [] bc)) ->
  waits_for addr ps (flushBackendWrites w0) /\
  forall bc, conns w !! addr = Some bc -> wire <$> conns (flushBackendWrites w0) !! addr = Some (wire bc ++ bytes).
Proof.
  intros (bc & Hc & Hh & Hl & Hw) Hs. specialize (Hs bc Hc).
  assert (conns (flushBackendWrites w0) !! addr = Some (mkConn (pending bc ++ ps) (head bc) [] (wire bc ++ bytes))) as Hf.
  { change (conns (flushBackendWrites w0)) with ((fun bc => mkConn (pending bc) (head bc) [] (wire bc ++ writeBuf bc)) <$> conns w0).
    rewrite lookup_fmap, Hs. cbn. by rewrite Hw, app_nil_r. }
  split; [|intros bc' Hc'; rewrite Hc in Hc'; injection Hc' as <-; by rewrite Hf].
  eexists. split; [exact Hf|]. unfold head_ok, live in *. cbn. split; [rewrite length_app; lia|]. by rewrite drop_app_le, Hl.
Qed.

(** One callback with the next replies of a node. *)
Lemma traffic_final addr c E vals js rest w q q' : entries_for c E ->
  js <> [] -> Forall (fun i => exists v, vals !! i = Some v /\ wf_value v = true /\ final v = true) js ->
  buffer_ok (reply_bytes vals js) ->
  waits_for addr (map E (js ++ rest)) w -> clients w !! c = Some q ->
  run_event q (QTraffic (replies_to E vals js)) = Ok q' ->
  exists w', onTraffic dial_error addr (reply_bytes vals js) w = Ok (w', [], ActNone) /\
    clients w' !! c = Some q' /\ waits_for addr (map E rest) w' /\
    forall a ps, a <> addr -> waits_for a ps w -> waits_for a ps w'.
Proof.
  intros HE Hne Hv Hb Hw Hq Hr. rewrite map_app in Hw. cbn [run_event] in Hr.
  destruct (foldM run_reply q _) as [q1| | |] eqn:Hq1; try discriminate Hr. go_simp_in Hr. injection Hr as <-.
  destruct (dispatch_final addr c E vals js q1 (map E rest) w q) as (w1 & Hf & Hcl & Hwait & Ho);
    [done|by eapply Forall_impl; [exact Hv|]; intros i (v & ? & ? & ?); eauto|exact Hw|exact Hq|exact Hq1|].
  exists (flushBackendWrites (flushWriteAccum w1)). split; [|split; [|split]].
  - destruct Hw as (bc & Hc & Hh & Hl). unfold onTraffic. rewrite Hc.
    assert (Hlen : length (reply_bytes vals js) <> 0%nat).
    { destruct js as [|i js]; [done|]. apply Forall_cons in Hv as [(v & Hi & Hwf & _) _]. unfold reply_bytes.
      cbn [map concat]. rewrite length_app, Hi. pose proof (encode_nonempty (Some v) Hwf). lia. }
    rewrite (proj2 (Nat.eqb_neq _ 0)) by done.
    pose proof (traffic_loop_dispatch dial_error (map (fun i => vals !! i) js) (map E js) addr []
      (S (length (reply_bytes vals js))) w) as Ht. unfold reply_bytes in *. rewrite app_nil_r in Ht. rewrite Ht.
    + rewrite Hf. by go_simp.
    + by rewrite !length_map.
    + lia.
    + apply Forall_fmap. eapply Forall_impl; [exact Hv|]. intros i (v & Hi & Hwf & _). cbn. by rewrite Hi.
    + done.
    + by left.
    + by exists bc, (map E rest).
  - cbn. by rewrite lookup_fmap, Hcl.
  - by apply waits_flush.
  - intros a ps Ha (bc & Hc & Hh & Hl). apply waits_flush. exists bc. by rewrite Ho.
Qed.

(** The callbacks of the nodes one after the other: each takes all bytes it is given. *)
Inductive node_reads : list (bytes * bytes) -> proxy -> proxy -> Prop :=
| nr_nil st : node_reads [] st st
| nr_cons addr buf evs st st1 st2 :
    OnTraffic cfg dial_error register_ok remote_addr pool_conns stats_text order LocalAddr
      (CShared addr) buf st = Ok (st1, [], ActNone) ->
    node_reads evs st1 st2 -> node_reads ((addr, buf) :: evs) st st2.

(** The shared connections are the loop's own. *)
Lemma node_read addr buf evs st w st2 :
  gnet_addrs cfg LocalAddr -> onTraffic dial_error addr buf (loop_of st) = Ok (w, [], ActNone) ->
  node_reads evs (upd_loop (fun _ => w) st) st2 -> node_reads ((addr, buf) :: evs) st st2.
Proof.
  intros Hg Ht Hr. econstructor; [|exact Hr]. unfold OnTraffic. rewrite listening_spec by done. cbn [accepted].
  rewrite Ht. by go_simp.
Qed.

(** The replies with the numbers of a turn, as the node sends them. *)
Definition turn (vals : list Value) (ev : bytes * list nat) : bytes * bytes := (fst ev, reply_bytes vals (snd ev)).

Lemma reads_run c E vals q' evs : forall st q, entries_for c E ->
  gnet_addrs cfg LocalAddr -> Forall (fun ev => snd ev <> []) evs ->
  Forall (fun ev => Forall (fun i => exists v, vals !! i = Some v /\ wf_value v = true /\ final v = true) (snd ev)) evs ->
  Forall (fun ev => buffer_ok (reply_bytes vals (snd ev))) evs ->
  (forall addr, concat (part addr evs) <> [] -> waits_for addr (map E (concat (part addr evs))) (loop_of st)) ->
  clients (loop_of st) !! c = Some q ->
  foldM run_event q (map (fun ev => QTraffic (replies_to E vals (snd ev))) evs) = Ok q' ->
  exists st', node_reads (map (turn vals) evs) st st' /\ clients (loop_of st') !! c = Some q'.
Proof.
  induction evs as [|[addr js] evs IH]; intros st q HE Hg Hne Hv Hb Hw Hq Hf.
  { injection Hf as <-. exists st. split; [constructor|done]. }
  apply Forall_cons in Hne as [Hn Hne]. apply Forall_cons in Hv as [Hvj Hv]. apply Forall_cons in Hb as [Hbj Hb].
  cbn [map foldM snd] in *. destruct (run_event q _) as [q1| | |] eqn:Hq1; try discriminate Hf. go_simp_in Hf.
  pose proof (Hw addr) as Ha. cbn [part] in Ha. rewrite bytes_eqb_refl in Ha. cbn [concat] in Ha.
  destruct (traffic_final addr c E vals js (concat (part addr evs)) (loop_of st) q q1) as (w & Ht & Hcl & Hwait & Ho);
    [done|done|done|done|apply Ha; destruct js; done|done|done|].
  destruct (IH (upd_loop (fun _ => w) st) q1) as (st' & Hr & Hc'); [done|done|done|done|done| |exact Hcl|exact Hf|].
  - intros a Hp. change (loop_of (upd_loop (fun _ => w) st)) with w. destruct (decide (a = addr)) as [->|Hna]; [exact Hwait|].
    apply Ho; [done|]. specialize (Hw a). cbn [part] in Hw.
    assert (bytes_eqb addr a = false) as E' by (apply not_true_is_false; intros ->%bytes_eqb_eq; done).
    rewrite E' in Hw. by apply Hw.
  - exists st'. split; [|exact Hc']. by eapply node_read.
Qed.

End pipeline.

(** ** The queue of the client *)

Lemma foldM_run_app q evs1 evs2 :
  foldM run_event q (evs1 ++ evs2) = (q' ← foldM run_event q evs1; foldM run_event q' evs2).
Proof. revert q. induction evs1 as [|ev evs1 IH]; intros q; [by go_simp|]. cbn [app foldM]. destruct (run_event q ev); go_simp; auto. Qed.

Lemma allocs_run n q : foldM run_event q (replicate n QAlloc) = Ok (allocated n q).
Proof.
  revert q. induction n as [|n IH]; intros q; cbn.
  - unfold allocated. rewrite app_nil_r. by destruct q.
  - go_simp. rewrite IH. unfold allocated. cbn. by rewrite <- app_assoc.
Qed.

Lemma plain_allocs n k evs : plain_run k (replicate n QAlloc ++ evs) = plain_run (n + k) evs.
Proof. revert k. induction n as [|n IH]; intros k; [done|]. cbn. rewrite IH. f_equal. lia. Qed.

Lemma issues_traffic {A} (f : A -> list reply) l : sum_list_with issues (map (fun x => QTraffic (f x)) l) = 0%nat.
Proof. by induction l. Qed.

Lemma issues_allocs n evs : sum_list_with issues (replicate n QAlloc ++ evs) = (n + sum_list_with issues evs)%nat.
Proof. induction n as [|n IH]; [done|]. cbn. by rewrite IH. Qed.

Lemma answers_allocs n evs : concat (map ev_answers (replicate n QAlloc ++ evs)) = concat (map ev_answers evs).
Proof. by induction n. Qed.

Lemma replies_plain b vals js : forallb plain_reply (replies b vals js) = true.
Proof. by induction js. Qed.

Lemma replies_answers vals js :
  concat (map reply_answers (replies 0 vals js)) = map (fun i => (i, EncodeValue (vals !! i))) js.
Proof. induction js as [|j js IH]; [done|]. cbn. f_equal. exact IH. Qed.

Lemma replies_rebase b vals js : map (offset_reply b) (replies 0 vals js) = replies b vals js.
Proof. unfold replies. by rewrite map_map. Qed.

Lemma rounds_answers vals rounds :
  concat (map ev_answers (map QTraffic (map (replies 0 vals) rounds)))
  = map (fun i => (i, EncodeValue (vals !! i))) (concat rounds).
Proof.
  induction rounds as [|js rounds IH]; [done|]. cbn [map concat ev_answers]. by rewrite IH, replies_answers, map_app.
Qed.

Lemma rounds_plain n vals rounds :
  Forall (fun i => (i < n)%nat) (concat rounds) -> plain_run n (map QTraffic (map (replies 0 vals) rounds)) = true.
Proof.
  induction rounds as [|js rounds IH]; [done|]. cbn [concat map plain_run]. intros [Hj Hr]%Forall_app.
  rewrite replies_plain, IH by done. cbn [ev_answers andb]. rewrite replies_answers, andb_true_r.
  apply forallb_forall. intros p Hp. apply in_map_iff in Hp as (i & <- & Hi). cbn. apply Nat.ltb_lt.
  apply (proj1 (Forall_forall _ _) Hj). by apply list_elem_of_In.
Qed.

Lemma indexed_replies (vals : list Value) :
  map (fun i => (i, EncodeValue (vals !! i))) (seq 0 (length vals)) = imap pair (map (fun v => EncodeValue (Some v)) vals).
Proof.
  apply list_eq. intros i. rewrite list_lookup_fmap, list_lookup_imap, list_lookup_fmap.
  destruct (vals !! i) as [v|] eqn:E.
  - rewrite lookup_seq_lt by (by apply lookup_lt_Some in E). cbn. by rewrite E.
  - by rewrite lookup_seq_ge by (by apply lookup_ge_None in E).
Qed.

(** The queue after all replies, in whatever rounds they came. *)
Lemma rounds_in_order (vals : list Value) (rounds : list (list nat)) b o :
  concat rounds ≡ₚ seq 0 (length vals) ->
  foldM run_event (allocated (length vals) (mkResp [] b o [])) (map (fun js => QTraffic (replies b vals js)) rounds)
  = Ok (mkResp [] (b + length vals) (o ++ concat (map (fun v => EncodeValue (Some v)) vals)) []).
Proof.
  intros Hp. set (ds := map (fun v => EncodeValue (Some v)) vals).
  assert (Hq : foldM run_event (allocated (length vals) resp_init) (map QTraffic (map (replies 0 vals) rounds))
    = Ok (mkResp [] (length ds) (concat ds) [])).
  { pose proof (answers_in_order (replicate (length vals) QAlloc ++ map QTraffic (map (replies 0 vals) rounds)) ds) as Ha.
    rewrite foldM_run_app, allocs_run in Ha. go_simp_in Ha. apply Ha.
    - rewrite plain_allocs, Nat.add_0_r. apply rounds_plain. rewrite Hp. apply Forall_forall. intros i Hi%elem_of_seq. lia.
    - rewrite issues_allocs, map_map, issues_traffic. unfold ds. rewrite length_map. lia.
    - rewrite answers_allocs, rounds_answers. unfold ds. rewrite <- indexed_replies. by rewrite Hp. }
  apply (offset_rounds b o) in Hq.
  - unfold offset_queue, allocated in *. cbn in *. rewrite Nat.add_0_r, app_nil_r in Hq. unfold ds in Hq at 1. rewrite length_map in Hq.
    rewrite <- Hq, map_map. f_equal. apply map_ext. intros js. by rewrite replies_rebase.
  - apply forallb_forall. intros rs Hrs. apply in_map_iff in Hrs as (js & <- & _). apply replies_plain.
Qed.

(** When every node answers its own commands in order, all commands are answered once. *)
Lemma turns_perm owners (evs : list (bytes * list nat)) :
  (forall addr, concat (part addr evs) = part addr (indexed 0 owners)) ->
  concat (map snd evs) ≡ₚ seq 0 (length owners).
Proof.
  intros Hp. rewrite <- ungroup_snd, <- indexed_snd. apply Permutation_map, parts_perm. intros a. by rewrite part_ungroup.
Qed.

Lemma turns_valid (P : Value -> Prop) vals (evs : list (bytes * list nat)) :
  concat (map snd evs) ≡ₚ seq 0 (length vals) -> Forall P vals ->
  Forall (fun ev => Forall (fun i => exists v, vals !! i = Some v /\ P v) (snd ev)) evs.
Proof.
  intros Hp Hv. apply Forall_forall. intros ev Hev. apply Forall_forall. intros i Hi.
  assert (Hs : i ∈ concat (map snd evs)).
  { apply list_elem_of_In, in_concat. exists (snd ev). split; [|by apply list_elem_of_In].
    apply in_map_iff. exists ev. split; [done|by apply list_elem_of_In]. }
  rewrite Hp in Hs. apply elem_of_seq in Hs. destruct (lookup_lt_is_Some_2 vals i) as [v Hvi]; [lia|].
  exists v. split; [done|]. apply (proj1 (Forall_forall _ _) Hv). by eapply list_elem_of_lookup_2.
Qed.

(** ** Properties *)

(** C1: end to end: a client with nothing outstanding sends commands for keys of several
    nodes in one read.  All bytes are taken; every node gets the encodings of its own
    commands, in order and nothing else, on its shared connection.  When the nodes answer,
    each its own commands in order, in whatever callbacks and however the nodes take
    turns, all their bytes are taken and the client is sent exactly their replies, in the
    order of its commands, with nothing left in its queue. *)
Theorem pipeline_end_to_end `{GoGlob} `{GoUnicode} cfg dial_error register_ok remote_addr pool_conns stats_text order
    LocalAddr c b o cmds owners vals evs st :
  gnet_addrs cfg LocalAddr ->
  ready_client c st -> clients (loop_of st) !! c = Some (mkResp [] b o []) ->
  Forall2 (fun args addr => routed_to (topology (loop_of st)) (request_of args) = Some addr) cmds owners ->
  Forall (idle_at (loop_of st)) owners ->
  buffer_ok (concat (map EncodeCommandBytes cmds)) ->
  length vals = length cmds -> Forall (fun v => wf_value v = true /\ final v = true) vals ->
  (forall addr, concat (part addr evs) = part addr (indexed 0 owners)) ->
  Forall (fun ev => snd ev <> [] /\ buffer_ok (reply_bytes vals (snd ev))) evs ->
  exists st1 st2,
    OnTraffic cfg dial_error register_ok remote_addr pool_conns stats_text order LocalAddr
      (CAccepted c) (concat (map EncodeCommandBytes cmds)) st = Ok (st1, [], ActNone) /\
    (forall addr bc, addr ∈ owners -> conns (loop_of st) !! addr = Some bc ->
       wire <$> conns (loop_of st1) !! addr = Some (wire bc ++ concat (map (sent_bytes cmds) (part addr (indexed 0 owners))))) /\
    node_reads cfg dial_error register_ok remote_addr pool_conns stats_text order LocalAddr (map (turn vals) evs) st1 st2 /\
    clients (loop_of st2) !! c
    = Some (mkResp [] (b + length cmds) (o ++ concat (map (fun v => EncodeValue (Some v)) vals)) []).
Proof.
  intros Hg Hrc Hq Hr Ho Hb Hlen Hv Hparts Hevs.
  destruct (pipeline_sent cfg dial_error register_ok remote_addr pool_conns stats_text cmds b c cmds owners
    (S (length (concat (map EncodeCommandBytes cmds)))) 0 (mkResp [] b o []) st) as (st0 & Hrun & _ & Hcl & Hconns);
    [done|done|done|done|done| |done|lia|].
  { eapply Forall_impl; [exact Ho|]. intros addr (bc & Hc & _). by rewrite Hc. }
  set (st1 := upd_loop flushBackendWrites st0).
  assert (Hflush : forall addr, addr ∈ owners ->
    waits_for addr (map (entry_of c b cmds) (part addr (indexed 0 owners))) (loop_of st1) /\
    forall bc, conns (loop_of st) !! addr = Some bc -> wire <$> conns (loop_of st1) !! addr
      = Some (wire bc ++ concat (map (sent_bytes cmds) (part addr (indexed 0 owners))))).
  { intros addr Ha. apply (flushed_idle addr _ _ (loop_of st) (loop_of st0)); [by eapply Forall_forall in Ho|auto]. }
  pose proof (turns_perm owners evs Hparts) as Hperm. rewrite <- (Forall2_length _ _ _ Hr), <- Hlen in Hperm.
  pose proof (rounds_in_order vals (map snd evs) b o Hperm) as Hround. rewrite map_map, Hlen in Hround.
  edestruct (reads_run cfg dial_error register_ok remote_addr pool_conns stats_text order LocalAddr c (entry_of c b cmds) vals)
    with (evs := evs) (st := st1) as (st2 & Hreads & Hfin); [done|done| | | | |exact Hcl|exact Hround|].
  - by eapply Forall_impl; [exact Hevs|]; intros ev [? _].
  - by apply turns_valid.
  - by eapply Forall_impl; [exact Hevs|]; intros ev [_ ?].
  - intros addr Hp. rewrite Hparts in *. by apply part_indexed_elem, Hflush in Hp as [Hp _].
  - exists st1, st2. split; [|split; [|split; [exact Hreads|exact Hfin]]].
    + by eapply client_read.
    + intros addr bc Ha Hc. by apply Hflush.
Qed.

(** Two nodes, three commands; the second node answers first. *)
Definition path_cfg : config := mkConfig Default (bs "127.0.0.1:7777").
#[local] Instance path_text : GoUnicode := ascii_unicode.
#[local] Instance path_glob : GoGlob := {| filepath_Match := fun _ _ => None |}.
Definition path_topology : Topology :=
  mkTopo (mkSnap ∅ {[HashSlot (bs "1") := bs "m:1"; HashSlot (bs "2") := bs "m:2"]} [] 1 []) 0 0 1.
Definition idle_conn : backendMuxConn := mkConn [] 0 [] (bs "old").
Definition path_loop : evloop :=
  mkLoop {[bs "m:1" := idle_conn; bs "m:2" := idle_conn]} ∅ {[5%nat := mkResp [] 7 (bs "+OK") []]} [] path_topology ∅ [] 0.
Definition path_proxy : proxy :=
  mkProxy (mkH path_loop ReadModeMasterOnly []) (newPubsubHub ∅) {[5%nat := new_ctx 1 true]} [] ∅ 0 1 0 1 0.
Definition path_cmds : list (list bytes) := [[bs "get"; bs "1"]; [bs "SET"; bs "2"; bs "v"]; [bs "GET"; bs "1"]].
Definition path_vals : list Value := [str_value TypeBulkString (bs "x"); str_value TypeSimpleString (bs "OK"); nil_value TypeBulkString].
Definition path_turns : list (bytes * list nat) := [(bs "m:2", [1%nat]); (bs "m:1", [0%nat; 2%nat])].

Lemma pipeline_end_to_end_witness :
  exists st1 st2,
    OnTraffic path_cfg no_errors (fun _ => true) (fun _ => []) (fun _ => 0) [] map_to_list addr_of
      (CAccepted 5) (concat (map EncodeCommandBytes path_cmds)) path_proxy = Ok (st1, [], ActNone) /\
    (forall addr bc, addr ∈ [bs "m:1"; bs "m:2"; bs "m:1"] -> conns path_loop !! addr = Some bc ->
       wire <$> conns (loop_of st1) !! addr
       = Some (wire bc ++ concat (map (sent_bytes path_cmds) (part addr (indexed 0 [bs "m:1"; bs "m:2"; bs "m:1"]))))) /\
    node_reads path_cfg no_errors (fun _ => true) (fun _ => []) (fun _ => 0) [] map_to_list addr_of (map (turn path_vals) path_turns) st1 st2 /\
    clients (loop_of st2) !! 5%nat
    = Some (mkResp [] 10 (bs "+OK" ++ concat (map (fun v => EncodeValue (Some v)) path_vals)) []).
Proof.
  refine (pipeline_end_to_end path_cfg no_errors (fun _ => true) (fun _ => []) (fun _ => 0) [] map_to_list addr_of 5 7
    (bs "+OK") path_cmds [bs "m:1"; bs "m:2"; bs "m:1"] path_vals path_turns path_proxy _ _ _ _ _ _ _ _ _ _).
  - exact addrs_ok.
  - split; [by eexists|reflexivity|reflexivity].
  - reflexivity.
  - repeat constructor; vm_compute; reflexivity.
  - repeat (apply Forall_cons_2; [exists idle_conn; split; [vm_compute; reflexivity|]; split; [apply le_n|by split]|]); apply Forall_nil_2.
  - unfold buffer_ok. vm_compute. discriminate.
  - reflexivity.
  - repeat constructor.
  - intros addr. cbn [path_turns part indexed]. destruct (bytes_eqb (bs "m:1") addr) eqn:E1, (bytes_eqb (bs "m:2") addr) eqn:E2;
      try reflexivity. apply bytes_eqb_eq in E1 as <-. discriminate E2.
  - repeat (apply Forall_cons_2; [split; [discriminate|unfold buffer_ok; vm_compute; discriminate]|]); apply Forall_nil_2.
Defined.
