(* ===== verification/Redirects.v ===== *)
(** * Redirects: a command that is sent on from node to node

    While slots move, a node answers a command with MOVED or ASK and the address of
    another node.  The multiplexer sends the command there ([onTraffic], [send],
    [sendAsk] of [backend_mux.go]), up to [maxMuxRedirects] times, and the client sees the
    last reply only.  [redirects_followed] follows such a chain from the client's bytes to
    the client's bytes. *)

From S2P Require Import Prelude GoStd Config Crc16 Value RespParse RespFacts RequestFacts Command Topology RespQueue Mux.
From S2P Require Import Router Routing MuxFacts Hub Handler HandlerFacts Engine EndToEnd.

(** ** Redirections *)

(** [ASK slot target] or [MOVED slot target]. *)
Record hop := mkHop {
  is_ask : bool;
  hop_slot : Z;
  hop_target : bytes;
}.

Definition hop_msg (h : hop) : bytes :=
  (if is_ask h then bs "ASK" else bs "MOVED") ++ [x20] ++ FormatInt (hop_slot h) ++ [x20] ++ hop_target h.
Definition hop_value (h : hop) : Value := str_value TypeError (hop_msg h).

Definition hop_ok (h : hop) : Prop := int64_range (hop_slot h) /\ (LF ∉ hop_target h).

Lemma FormatInt_no_space n : x20 ∉ FormatInt n.
Proof.
  assert (forall l, forallb is_digit l = true -> x20 ∉ l) as Hd.
  { intros l Hl Hin. rewrite forallb_forall in Hl. by apply list_elem_of_In, Hl in Hin. }
  unfold FormatInt. case_bool; [apply not_elem_of_cons; split; [done|]|]; apply Hd, fmt_digits_digits.
Qed.

Lemma SplitN_first l c r n : (c ∉ l) -> SplitN (l ++ c :: r) c (S (S n)) = l :: SplitN r c (S n).
Proof.
  intros Hc. cbn [SplitN]. rewrite IndexByte_app by done. rewrite take_length_app. f_equal.
  replace (S (length l)) with (length (l ++ [c])) by (rewrite length_app; cbn; lia).
  by rewrite (cons_middle c l r), app_assoc, drop_length_app.
Qed.

(** Neither a space nor a line feed in the first word. *)
Lemma hop_word (a : bool) c : c = x20 \/ c = LF -> c ∉ (if a then bs "ASK" else bs "MOVED").
Proof. intros [-> | ->]; destruct a; apply (bool_decide_unpack _); vm_compute; exact I. Qed.

Lemma hop_parses h : hop_ok h -> parseRedirectionMsg (hop_msg h) = Ok (hop_slot h, hop_target h).
Proof.
  intros [Hs _]. unfold parseRedirectionMsg, parse_redirection, hop_msg. cbn [app].
  rewrite SplitN_first by (apply hop_word; auto).
  rewrite SplitN_first by apply FormatInt_no_space. cbn [SplitN]. by rewrite Atoi_FormatInt.
Qed.

Lemma hop_kind h : value_kind (canon (hop_value h)) = if is_ask h then ErrorKindAsk else ErrorKindMoved.
Proof. unfold hop_value, hop_msg. by destruct (is_ask h). Qed.

Lemma hop_wf h : hop_ok h -> wf_value (hop_value h) = true.
Proof.
  intros [_ Ht]. unfold hop_value. cbn. apply negb_true_iff, not_true_is_false. intros (x & Hx & He)%existsb_exists.
  apply byte_eqb_eq in He as <-. apply list_elem_of_In in Hx. revert Hx. unfold hop_msg.
  rewrite !elem_of_app. intros [Hx|[Hx|[Hx|[Hx|Hx]]]].
  - revert Hx. apply hop_word. auto.
  - by apply list_elem_of_singleton in Hx.
  - revert Hx. apply FormatInt_no_LF.
  - by apply list_elem_of_singleton in Hx.
  - done.
Qed.

(** ** One command and the connections of the nodes *)

(** The bytes [W a] were given to each node [a]; the node [addr] waits for [ps], the
    others for nothing; with [f], all bytes were sent. *)
Definition chain_at (f : bool) (nodes : list bytes) (W : bytes -> bytes) (addr : bytes) (ps : list pendingClientReq)
    (w : evloop) : Prop :=
  forall a, a ∈ nodes -> exists bc, conns w !! a = Some bc /\ head_ok bc /\
    wire bc ++ writeBuf bc = W a /\ (f = true -> writeBuf bc = []) /\
    live bc = if bytes_eqb a addr then ps else [].

Definition give (a : bytes) (b : bytes) (W : bytes -> bytes) : bytes -> bytes :=
  fun x => if bytes_eqb x a then W x ++ b else W x.

Lemma chain_pop f nodes W addr p ps w :
  addr ∈ nodes -> chain_at f nodes W addr (p :: ps) w ->
  exists bc, conns w !! addr = Some bc /\ chain_at f nodes W addr ps (upd_conns <[addr := pop_conn bc]> w).
Proof.
  intros Hin Hc. destruct (Hc addr Hin) as (bc & Hb & Hh & Hw & Hf & Hl). rewrite bytes_eqb_refl in Hl.
  exists bc. split; [exact Hb|]. intros a Ha. cbn. destruct (bytes_eqb a addr) eqn:E.
  - apply bytes_eqb_eq in E as ->. exists (pop_conn bc). rewrite lookup_insert_eq.
    pose proof (live_head _ _ _ Hl) as Hp. rewrite (live_pop bc p Hp) in Hl. injection Hl as Hl.
    split; [done|]. split; [by eapply head_ok_pop|].
    assert (wire (pop_conn bc) = wire bc /\ writeBuf (pop_conn bc) = writeBuf bc) as [-> ->]
      by (unfold pop_conn; by destruct (_ =? _)%nat). done.
  - destruct (Hc a Ha) as (bc' & Hb' & Hr). rewrite E in Hr. exists bc'. rewrite lookup_insert_ne; [done|].
    intros <-. by rewrite bytes_eqb_refl in E.
Qed.

(** Requests are given to a node when all nodes wait for nothing. *)
Lemma chain_push f nodes W addr target ps buf direct w bc :
  target ∈ nodes -> chain_at f nodes W addr [] w -> conns w !! target = Some bc ->
  (direct = [] \/ (buf = [] /\ f = true)) ->
  chain_at (bool_decide (buf = []) && f) nodes (give target (direct ++ buf) W) target ps
    (upd_conns <[target := push_conn ps buf direct bc]> w).
Proof.
  intros Hin Hc Hb Hd a Ha. destruct (Hc a Ha) as (bc' & Hb' & Hh & Hw & Hf & Hl). cbn. unfold give.
  assert (live bc' = []) as Hl' by (rewrite Hl; by destruct (bytes_eqb a addr)).
  destruct (bytes_eqb a target) eqn:E.
  - apply bytes_eqb_eq in E as ->. rewrite Hb in Hb'. injection Hb' as <-. exists (push_conn ps buf direct bc).
    rewrite lookup_insert_eq. split; [done|]. split; [by apply head_ok_push|].
    split; [|split; [|by rewrite live_push, Hl']].
    + cbn. destruct Hd as [-> |[-> ->]]; [by rewrite app_nil_r, app_assoc, Hw|].
      rewrite (Hf eq_refl) in *. by rewrite !app_nil_r in *; rewrite Hw.
    + cbn. intros [->%bool_decide_eq_true Hft]%andb_prop. by rewrite Hf.
  - exists bc'. rewrite lookup_insert_ne by (intros <-; by rewrite bytes_eqb_refl in E).
    split; [done|]. split; [done|]. split; [done|]. split; [|done]. intros [_ Hft]%andb_prop. auto.
Qed.

Lemma chain_flush f nodes W addr ps w :
  chain_at f nodes W addr ps w -> chain_at true nodes W addr ps (flushBackendWrites (flushWriteAccum w)).
Proof.
  intros Hc a Ha. destruct (Hc a Ha) as (bc & Hb & Hh & Hw & Hf & Hl).
  exists (mkConn (pending bc) (head bc) [] (wire bc ++ writeBuf bc)).
  change (conns (flushBackendWrites (flushWriteAccum w))) with
    ((fun bc => mkConn (pending bc) (head bc) [] (wire bc ++ writeBuf bc)) <$> conns w).
  rewrite lookup_fmap, Hb. cbn. rewrite app_nil_r. done.
Qed.

Lemma only_slot b o d : flush_accum (accumulateResponseSlot b d (mkResp [empty_slot] b o [])) = mkResp [] (S b) (o ++ d) [].
Proof.
  unfold accumulateResponseSlot. cbn [respBase]. rewrite Z.sub_diag. change (Z.to_nat 0) with 0%nat.
  change (rel_out 0 _) with false. cbn. unfold flush_accum. cbn. by rewrite app_nil_r, Nat.add_1_r.
Qed.

Section chain.
Context (dial_error : nat -> bytes -> option bytes) (nodes : list bytes).
Context (c b : nat) (req : Request) (raw : bytes) (Hraw : rawBytes (Some req) = Ok raw).

(** The request after [d] redirections; after ASK, ASKING goes before it. *)
Definition at_depth (d : Z) : pendingClientReq := mkPending c b d (Some req) false false false 0.
Definition waiting (asked : bool) (d : Z) : list pendingClientReq :=
  if asked then [ask_sentinel (at_depth d); at_depth d] else [at_depth d].
Definition answers (asked : bool) (ack v : Value) : list (option Value) :=
  if asked then [Some ack; Some v] else [Some v].
Definition answer_bytes (asked : bool) (ack v : Value) : bytes := concat (map EncodeValue (answers asked ack v)).

(** What the loop does with the reply [v]. *)
Definition react (d : Z) (v : Value) (w : evloop) : outcome evloop :=
  match decide_reply (at_depth d) (value_kind (canon v)) (value_msg (canon v)) with
  | DSkip => Ok w
  | DMoved a => send dial_error a (redirected (at_depth d)) (trigger_refresh w)
  | DAsk a => sendAsk dial_error a (redirected (at_depth d)) w
  | DAnswer => answer (at_depth d) (EncodeValue (Some v)) w
  end.

Lemma dispatch_waiting f W addr asked d ack v w :
  addr ∈ nodes -> chain_at f nodes W addr (waiting asked d) w ->
  exists w1, chain_at f nodes W addr [] w1 /\ clients w1 = clients w /\ refreshes w1 = refreshes w /\
    foldM (dispatch dial_error addr) w (zip (waiting asked d) (answers asked ack v)) = react d v w1.
Proof.
  intros Hin Hc.
  assert (Hlast : forall w0, chain_at f nodes W addr [at_depth d] w0 ->
    exists w1, chain_at f nodes W addr [] w1 /\ clients w1 = clients w0 /\ refreshes w1 = refreshes w0 /\
      dispatch dial_error addr w0 (at_depth d, Some v) = react d v w1).
  { intros w0 H0. destruct (chain_pop _ _ _ _ _ _ _ Hin H0) as (bc & Hb & H1). eexists. split; [exact H1|].
    split; [done|]. split; [done|]. unfold dispatch. by rewrite Hb. }
  unfold waiting, answers in *. destruct asked.
  - destruct (chain_pop _ _ _ _ _ _ _ Hin Hc) as (bc & Hb & H1). destruct (Hlast _ H1) as (w1 & H2 & H3 & H4 & H5).
    exists w1. split; [exact H2|]. split; [exact H3|]. split; [exact H4|]. cbn [zip_with foldM].
    assert (dispatch dial_error addr w (ask_sentinel (at_depth d), Some ack) = Ok (upd_conns <[addr := pop_conn bc]> w)) as ->
      by (unfold dispatch; by rewrite Hb).
    go_simp. rewrite H5. by destruct (react d v w1).
  - destruct (Hlast _ Hc) as (w1 & H2 & H3 & H4 & H5). exists w1. split; [exact H2|]. split; [exact H3|].
    split; [exact H4|]. cbn [zip_with foldM]. rewrite H5. by destruct (react d v w1).
Qed.

(** A callback of the node that the request waits at. *)
Lemma traffic_waiting W addr asked d ack v w :
  addr ∈ nodes -> chain_at true nodes W addr (waiting asked d) w -> wf_value ack = true -> wf_value v = true ->
  buffer_ok (answer_bytes asked ack v) ->
  exists w1, chain_at true nodes W addr [] w1 /\ clients w1 = clients w /\ refreshes w1 = refreshes w /\
    onTraffic dial_error addr (answer_bytes asked ack v) w
    = (w2 ← react d v w1; Ok (flushBackendWrites (flushWriteAccum w2), [], ActNone)).
Proof.
  intros Hin Hc Hack Hv Hb. destruct (dispatch_waiting _ _ _ _ _ ack v _ Hin Hc) as (w1 & H1 & H2 & H3 & H4).
  exists w1. split; [exact H1|]. split; [exact H2|]. split; [exact H3|].
  destruct (Hc addr Hin) as (bc & Hbc & Hh & _ & _ & Hl). rewrite bytes_eqb_refl in Hl. unfold onTraffic. rewrite Hbc.
  assert (Hwf : Forall (fun e => wf_ptr e = true) (answers asked ack v)) by (unfold answers; destruct asked; by repeat constructor).
  assert (Hlen : length (answer_bytes asked ack v) <> 0%nat).
  { pose proof (encode_nonempty (Some v) Hv). unfold answer_bytes, answers.
    destruct asked; cbn [map concat]; rewrite !length_app; lia. }
  rewrite (proj2 (Nat.eqb_neq _ 0)) by done.
  pose proof (traffic_loop_dispatch dial_error (answers asked ack v) (waiting asked d) addr []
    (S (length (answer_bytes asked ack v))) w) as Ht. unfold answer_bytes in *. rewrite app_nil_r in Ht.
  rewrite Ht; [|by unfold answers, waiting; destruct asked|lia|done|done|by left|exists bc, []; by rewrite app_nil_r].
  rewrite H4. by destruct (react d v w1).
Qed.

(** A redirection: the request waits at its target. *)
Lemma hop_step W addr asked d ack h w q :
  addr ∈ nodes -> hop_target h ∈ nodes -> hop_ok h -> 0 <= d < maxMuxRedirects ->
  chain_at true nodes W addr (waiting asked d) w -> wf_value ack = true ->
  buffer_ok (answer_bytes asked ack (hop_value h)) ->
  clients w !! c = Some q -> iov q = [] ->
  exists w', onTraffic dial_error addr (answer_bytes asked ack (hop_value h)) w = Ok (w', [], ActNone) /\
    chain_at true nodes (give (hop_target h) ((if is_ask h then askingBytes else []) ++ raw) W) (hop_target h)
      (waiting (is_ask h) (d + 1)) w' /\
    clients w' !! c = Some q /\ refreshes w' = ((if is_ask h then 0 else 1) + refreshes w)%nat.
Proof.
  intros Hin Ht Hh Hd Hc Hack Hb Hq Hi.
  destruct (traffic_waiting W addr asked d ack (hop_value h) w Hin Hc Hack (hop_wf h Hh) Hb) as (w1 & H1 & H2 & H3 & H4).
  destruct (H1 _ Ht) as (bc & Hbc & _). rewrite H4. unfold react, decide_reply. rewrite hop_kind.
  change (value_msg (canon (hop_value h))) with (hop_msg h). rewrite hop_parses by done. cbn [at_depth skipReply depth].
  rewrite (proj2 (Z.ltb_lt _ _)) by lia.
  assert (Hcl : forall w2, clients w2 = clients w1 ->
    clients (flushBackendWrites (flushWriteAccum w2)) !! c = Some q).
  { intros w2 Hw2. cbn. rewrite lookup_fmap, Hw2, H2, Hq. cbn. unfold flush_accum. rewrite Hi, app_nil_r.
    destruct q; cbn in *. by subst. }
  destruct (is_ask h).
  - unfold sendAsk. rewrite Hbc. cbn [Mux.req redirected at_depth]. rewrite Hraw. go_simp.
    eexists. split; [reflexivity|]. split; [|split; [by apply Hcl|by cbn; rewrite H3]].
    pose proof (chain_push true nodes W addr (hop_target h) (waiting true (d + 1)) [] (askingBytes ++ raw) w1 bc Ht H1 Hbc
      (or_intror (conj eq_refl eq_refl))) as Hp. rewrite app_nil_r in Hp. eapply chain_flush, Hp.
  - unfold send. change (conns (trigger_refresh w1)) with (conns w1). rewrite Hbc. cbn [Mux.req redirected at_depth].
    rewrite Hraw. go_simp. eexists. split; [reflexivity|]. split; [|split; [by apply Hcl|by cbn; rewrite H3]].
    eapply chain_flush, (chain_push true nodes W addr (hop_target h) (waiting false (d + 1)) raw [] (trigger_refresh w1) bc Ht H1 Hbc
      (or_introl eq_refl)).
Qed.

(** The last reply: one that is no redirection, or any after the last redirection. *)
Lemma answer_step W addr asked d ack v w o :
  addr ∈ nodes -> final v = true \/ d = maxMuxRedirects ->
  chain_at true nodes W addr (waiting asked d) w -> wf_value ack = true -> wf_value v = true ->
  buffer_ok (answer_bytes asked ack v) -> clients w !! c = Some (mkResp [empty_slot] b o []) ->
  exists w', onTraffic dial_error addr (answer_bytes asked ack v) w = Ok (w', [], ActNone) /\
    chain_at true nodes W addr [] w' /\ refreshes w' = refreshes w /\
    clients w' !! c = Some (mkResp [] (S b) (o ++ EncodeValue (Some v)) []).
Proof.
  intros Hin Hf Hc Hack Hv Hb Hq.
  destruct (traffic_waiting W addr asked d ack v w Hin Hc Hack Hv Hb) as (w1 & H1 & H2 & H3 & H4). rewrite H4. unfold react.
  assert (decide_reply (at_depth d) (value_kind (canon v)) (value_msg (canon v)) = DAnswer) as ->.
  { unfold decide_reply, final in *. cbn. destruct Hf as [Hf| ->]; by destruct (value_kind (canon v)). }
  unfold answer. cbn [at_depth clientConn slotIdx hasFanIn]. rewrite H2, Hq. cbn [run_reply]. go_simp.
  eexists. split; [reflexivity|]. split; [by eapply chain_flush|]. split; [done|].
  cbn. rewrite lookup_fmap, lookup_insert_eq. cbn [fmap option_fmap option_map]. by rewrite only_slot.
Qed.

(** What the nodes send, callback by callback: the redirections one after the other, then
    the last reply; [ack] answers ASKING. *)
Fixpoint chain_turns (addr : bytes) (asked : bool) (ack : Value) (hops : list hop) (v : Value) : list (bytes * bytes) :=
  match hops with
  | [] => [(addr, answer_bytes asked ack v)]
  | h :: hops => (addr, answer_bytes asked ack (hop_value h)) :: chain_turns (hop_target h) (is_ask h) ack hops v
  end.

(** What the nodes are sent for the redirections. *)
Definition hop_sent (h : hop) : bytes * bytes := (hop_target h, (if is_ask h then askingBytes else []) ++ raw).

Definition gives (sent : list (bytes * bytes)) (W : bytes -> bytes) : bytes -> bytes :=
  fold_left (fun W s => give (fst s) (snd s) W) sent W.

Lemma gives_part sent : forall W a, gives sent W a = W a ++ concat (part a sent).
Proof.
  induction sent as [|[x y] sent IH]; intros W a; cbn; [by rewrite app_nil_r|]. unfold gives in IH. rewrite IH. unfold give.
  rewrite (bytes_eqb_sym a x). destruct (bytes_eqb x a); [|done]. cbn. by rewrite <- app_assoc.
Qed.

Definition moved (h : hop) : nat := if is_ask h then 0 else 1.

End chain.

Section follow.
Context `{GG : GoGlob} `{GU : GoUnicode} (cfg : config) (dial_error : nat -> bytes -> option bytes).
Context (register_ok : bytes -> bool) (remote_addr : nat -> bytes) (pool_conns : bytes -> Z) (stats_text : bytes).
Context (order : submap -> list (bytes * list subEntry)) (LocalAddr : conn -> option bytes).
Context (nodes : list bytes) (c b : nat) (o : bytes) (req : Request) (raw : bytes) (Hraw : rawBytes (Some req) = Ok raw).
Context (Haddrs : gnet_addrs cfg LocalAddr).

Abbreviation reads := (node_reads cfg dial_error register_ok remote_addr pool_conns stats_text order LocalAddr).

Lemma chain_run ack v hops : forall W addr asked d st,
  addr ∈ nodes -> Forall (fun h => hop_ok h /\ hop_target h ∈ nodes) hops -> 0 <= d ->
  d + Z.of_nat (length hops) <= maxMuxRedirects -> final v = true \/ d + Z.of_nat (length hops) = maxMuxRedirects ->
  chain_at true nodes W addr (waiting c b req asked d) (loop_of st) -> wf_value ack = true -> wf_value v = true ->
  Forall (fun t => buffer_ok (snd t)) (chain_turns addr asked ack hops v) ->
  clients (loop_of st) !! c = Some (mkResp [empty_slot] b o []) ->
  exists st' last, reads (chain_turns addr asked ack hops v) st st' /\
    chain_at true nodes (gives (map (hop_sent raw) hops) W) last [] (loop_of st') /\
    clients (loop_of st') !! c = Some (mkResp [] (S b) (o ++ EncodeValue (Some v)) []) /\
    refreshes (loop_of st') = (sum_list_with moved hops + refreshes (loop_of st))%nat.
Proof.
  induction hops as [|h hops IH]; intros W addr asked d st Hin Hh Hd Hle Hf Hc Hack Hv Hb Hq; cbn [chain_turns length] in *;
    apply Forall_cons in Hb as [Hb1 Hb]; cbn [snd] in Hb1.
  - rewrite Z.add_0_r in *.
    destruct (answer_step dial_error nodes c b req W addr asked d ack v (loop_of st) o) as (w & Ht & Hc' & Hr & Hq'); try done.
    exists (upd_loop (fun _ => w) st), addr. split; [|done]. eapply node_read; [done|exact Ht|constructor].
  - apply Forall_cons in Hh as [[Hok Htin] Hh].
    destruct (hop_step dial_error nodes c b req raw Hraw W addr asked d ack h (loop_of st) (mkResp [empty_slot] b o []))
      as (w & Ht & Hc' & Hq' & Hr); try done; [lia|].
    destruct (IH (give (hop_target h) ((if is_ask h then askingBytes else []) ++ raw) W) (hop_target h) (is_ask h) (d + 1) (upd_loop (fun _ => w) st) Htin Hh) as (st' & last & Hreads & Hc2 & Hq2 & Hr2);
      [lia|lia|destruct Hf as [?|?]; [by left|right; lia]|exact Hc'|done|done|done|exact Hq'|].
    exists st', last. split; [by eapply node_read|]. split; [exact Hc2|]. split; [exact Hq2|]. rewrite Hr2.
    change (refreshes (loop_of (upd_loop (fun _ => w) st))) with (refreshes w). rewrite Hr. cbn. unfold moved at 2. lia.
Qed.

End follow.

(** The request as the client's callback leaves it at its owner. *)
Lemma first_sent nodes W addr p raw st st0 :
  Forall (idle_at (loop_of st)) nodes ->
  (forall a bc, conns (loop_of st) !! a = Some bc -> W a = wire bc) ->
  (forall a bc, conns (loop_of st) !! a = Some bc ->
     conns (loop_of st0) !! a = Some (push_conn (part a [(addr, p)]) (concat (part a [(addr, raw)])) [] bc)) ->
  chain_at true nodes (give addr raw W) addr [p] (loop_of (upd_loop flushBackendWrites st0)).
Proof.
  intros Hn HW Hs a Ha. destruct (proj1 (Forall_forall _ _) Hn a Ha) as (bc & Hc & Hh & Hl & Hw).
  change (conns (loop_of (upd_loop flushBackendWrites st0))) with
    ((fun bc => mkConn (pending bc) (head bc) [] (wire bc ++ writeBuf bc)) <$> conns (loop_of st0)).
  rewrite lookup_fmap, (Hs a bc Hc). eexists. split; [reflexivity|].
  pose proof (head_ok_push (part a [(addr, p)]) (concat (part a [(addr, raw)])) [] bc Hh) as Hh'.
  pose proof (live_push (part a [(addr, p)]) (concat (part a [(addr, raw)])) [] bc Hh) as Hl'. rewrite Hl in Hl'.
  split; [exact Hh'|]. split; [|split; [done|]].
  - unfold give. cbn. rewrite (HW a bc Hc), Hw, (bytes_eqb_sym addr a). destruct (bytes_eqb a addr); cbn; by rewrite !app_nil_r.
  - unfold live in *. rewrite (bytes_eqb_sym a addr). cbn in Hl' |- *. destruct (bytes_eqb addr a); exact Hl'.
Qed.

(** ** Properties *)

(** C4: redirections end to end: while the cluster moves slots, a client with nothing
    outstanding sends a command.  Its owner answers MOVED or ASK, the node named there
    answers again with MOVED or ASK, and so on, at most [maxMuxRedirects] times; then a node
    gives any other reply, or, after [maxMuxRedirects] redirections, any reply.  The
    command goes to the owner, then once to every node of the chain in turn, after ASK with
    ASKING before it; no node gets another byte; the client is sent the last reply and none
    of the redirections or replies to ASKING, and its queue is empty again; every
    MOVED asks for a refresh of the topology, ASK does not. *)
Theorem redirects_followed `{GoGlob} `{GoUnicode} cfg dial_error register_ok remote_addr pool_conns stats_text order
    LocalAddr nodes c b o args addr ack hops v st :
  gnet_addrs cfg LocalAddr ->
  ready_client c st -> clients (loop_of st) !! c = Some (mkResp [] b o []) ->
  routed_to (topology (loop_of st)) (request_of args) = Some addr -> addr ∈ nodes ->
  Forall (idle_at (loop_of st)) nodes ->
  Forall (fun h => hop_ok h /\ hop_target h ∈ nodes) hops -> Z.of_nat (length hops) <= maxMuxRedirects ->
  final v = true \/ Z.of_nat (length hops) = maxMuxRedirects ->
  wf_value ack = true -> wf_value v = true ->
  buffer_ok (EncodeCommandBytes args) -> Forall (fun t => buffer_ok (snd t)) (chain_turns addr false ack hops v) ->
  exists st1 st2,
    OnTraffic cfg dial_error register_ok remote_addr pool_conns stats_text order LocalAddr
      (CAccepted c) (EncodeCommandBytes args) st = Ok (st1, [], ActNone) /\
    node_reads cfg dial_error register_ok remote_addr pool_conns stats_text order LocalAddr
      (chain_turns addr false ack hops v) st1 st2 /\
    clients (loop_of st2) !! c = Some (mkResp [] (S b) (o ++ EncodeValue (Some v)) []) /\
    (forall a bc, a ∈ nodes -> conns (loop_of st) !! a = Some bc ->
       exists bc', conns (loop_of st2) !! a = Some bc' /\ live bc' = [] /\ writeBuf bc' = [] /\
         wire bc' = wire bc ++ concat (part a ((addr, Raw (request_of args)) :: map (hop_sent (Raw (request_of args))) hops))) /\
    refreshes (loop_of st2) = (sum_list_with moved hops + refreshes (loop_of st))%nat.
Proof.
  intros Hg Hrc Hq Hr Hin Hn Hh Hle Hf Hack Hv Hb Hbs. destruct (routed_args _ _ _ Hr) as (x & rest & ->).
  destruct (pipeline_sent cfg dial_error register_ok remote_addr pool_conns stats_text [x :: rest] b c [x :: rest] [addr]
    (S (length (EncodeCommandBytes (x :: rest)))) 0 (mkResp [] b o []) st) as (st0 & Hrun & Hrf & Hcl & Hconns);
    [by repeat constructor|done|done|done|done| |by cbn; rewrite app_nil_r|cbn; rewrite app_nil_r; lia|].
  { apply Forall_cons_2; [|constructor]. destruct (proj1 (Forall_forall _ _) Hn addr Hin) as (bc & Hc & _). by rewrite Hc. }
  cbn [map concat] in Hrun. rewrite app_nil_r in Hrun. cbn [indexed] in Hconns.
  set (W := fun a => match conns (loop_of st) !! a with Some bc => wire bc | None => [] end).
  set (raw := Raw (request_of (x :: rest))) in *. set (st1 := upd_loop flushBackendWrites st0).
  assert (Hstart : chain_at true nodes (give addr raw W) addr (waiting c b (request_of (x :: rest)) false 0) (loop_of st1)).
  { apply (first_sent nodes W addr _ raw st st0 Hn); [intros a bc Hc; unfold W; by rewrite Hc|]. intros a bc Hc.
    rewrite (Hconns a bc Hc). cbn [part]. unfold entry_of, sent_bytes.
    destruct (bytes_eqb addr a); cbn; by rewrite ?Nat.add_0_r. }
  destruct (chain_run cfg dial_error register_ok remote_addr pool_conns stats_text order LocalAddr nodes c b o
    (request_of (x :: rest)) raw (request_raw x rest) Hg ack v hops (give addr raw W) addr false 0 st1)
    as (st2 & last & Hreads & Hc & Hfin & Href); try done.
  exists st1, st2. split; [|split; [exact Hreads|split; [exact Hfin|split]]].
  - by eapply client_read.
  - intros a bc Ha Hbc. destruct (Hc a Ha) as (bc' & Hbc' & _ & Hw & Hfl & Hl). exists bc'. split; [exact Hbc'|].
    split; [rewrite Hl; by destruct (bytes_eqb a last)|]. split; [by apply Hfl|].
    rewrite (Hfl eq_refl), app_nil_r in Hw. rewrite Hw.
    change (gives (map (hop_sent raw) hops) (give addr raw W)) with (gives ((addr, raw) :: map (hop_sent raw) hops) W).
    rewrite gives_part. unfold W. by rewrite Hbc.
  - rewrite Href. f_equal. exact Hrf.
Qed.

#[local] Existing Instances path_text path_glob.

(** A command moved on, then asked for elsewhere, then answered at the first node. *)
Definition chain_hops : list hop := [mkHop false 12182 (bs "m:2"); mkHop true 12182 (bs "m:1")].
Definition chain_last : Value := str_value TypeBulkString (bs "x").
Definition chain_ack : Value := str_value TypeSimpleString (bs "OK").

Lemma redirects_followed_witness :
  exists st1 st2,
    OnTraffic path_cfg no_errors (fun _ => true) (fun _ => []) (fun _ => 0) [] map_to_list addr_of
      (CAccepted 5) (EncodeCommandBytes [bs "get"; bs "1"]) path_proxy = Ok (st1, [], ActNone) /\
    node_reads path_cfg no_errors (fun _ => true) (fun _ => []) (fun _ => 0) [] map_to_list addr_of
      (chain_turns (bs "m:1") false chain_ack chain_hops chain_last) st1 st2 /\
    clients (loop_of st2) !! 5%nat = Some (mkResp [] 8 (bs "+OK" ++ EncodeValue (Some chain_last)) []) /\
    (forall a bc, a ∈ [bs "m:1"; bs "m:2"] -> conns path_loop !! a = Some bc ->
       exists bc', conns (loop_of st2) !! a = Some bc' /\ live bc' = [] /\ writeBuf bc' = [] /\
         wire bc' = wire bc ++ concat (part a ((bs "m:1", Raw (request_of [bs "get"; bs "1"]))
           :: map (hop_sent (Raw (request_of [bs "get"; bs "1"]))) chain_hops))) /\
    refreshes (loop_of st2) = 1%nat.
Proof.
  refine (redirects_followed path_cfg no_errors (fun _ => true) (fun _ => []) (fun _ => 0) [] map_to_list addr_of
    [bs "m:1"; bs "m:2"] 5 7 (bs "+OK") [bs "get"; bs "1"] (bs "m:1") chain_ack chain_hops chain_last path_proxy
    _ _ _ _ _ _ _ _ _ _ _ _ _).
  - exact addrs_ok.
  - split; [by eexists|reflexivity|reflexivity].
  - reflexivity.
  - vm_compute. reflexivity.
  - apply list_elem_of_here.
  - repeat (apply Forall_cons_2; [exists idle_conn; split; [vm_compute; reflexivity|]; split; [apply le_n|by split]|]); apply Forall_nil_2.
  - repeat (apply Forall_cons_2; [split; [split; [by vm_compute|apply (bool_decide_unpack _); vm_compute; exact I]
      |apply (bool_decide_unpack _); vm_compute; exact I]|]); apply Forall_nil_2.
  - vm_compute. discriminate.
  - left. reflexivity.
  - reflexivity.
  - reflexivity.
  - unfold buffer_ok. vm_compute. discriminate.
  - repeat (apply Forall_cons_2; [unfold buffer_ok; vm_compute; discriminate|]); apply Forall_nil_2.
Defined.
