(* ===== verification/AskOrder.v ===== *)
(** * AskOrder: a redirection that overtakes another one

    [sendAsk] writes ASKING and its command to the connection at once, [send] puts its
    command into the write buffer, which is flushed at the end of the callback.  When one
    read of a connection has a MOVED and then an ASK to the same node, the commands reach
    that node in another order than their requests are queued in.  [ask_overtakes] follows
    the mistake to the clients; it is why [engine_invariant] and [mux_fifo] need
    [event_safe] for the order on the wire. *)

From S2P Require Import Prelude GoStd Config Crc16 Value RespParse RespFacts RequestFacts Command Topology RespQueue Mux.
From S2P Require Import Router Routing MuxFacts Ledger Hub Handler HandlerFacts Engine EndToEnd Redirects.

(** A request whose reply goes to a slot of its own, and which may be redirected. *)
Definition single (p : pendingClientReq) : Prop :=
  skipReply p = false /\ hasFanIn p = false /\ 0 <= depth p < maxMuxRedirects.

(** The reply of a single request in its client's queue. *)
Definition filled (p : pendingClientReq) (raw : bytes) : gmap nat respState -> gmap nat respState :=
  alter (accumulateResponseSlot (slotIdx p) raw) (clientConn p).

Section order.
Context (dial_error : nat -> bytes -> option bytes).

Lemma answer_filled p raw w : hasFanIn p = false -> answer p raw w = Ok (upd_clients (filled p raw) w).
Proof.
  intros Hf. unfold answer, filled. rewrite Hf. destruct (clients w !! clientConn p) as [q|] eqn:E; cbn [run_reply]; go_simp.
  - unfold upd_clients. do 2 f_equal. apply map_eq. intros i. destruct (decide (i = clientConn p)) as [->|Hne].
    + by rewrite lookup_insert_eq, lookup_alter_eq, E.
    + by rewrite lookup_insert_ne, lookup_alter_ne.
  - unfold upd_clients. destruct w as [cn dl cl ts tp mc ds rf]. cbn in *. do 2 f_equal. apply map_eq. intros i.
    destruct (decide (i = clientConn p)) as [->|Hne]; [by rewrite lookup_alter_eq, E|by rewrite lookup_alter_ne].
Qed.

(** What the loop does with each kind of reply of a single request. *)
Lemma dispatch_hop addr p h bc w :
  conns w !! addr = Some bc -> single p -> hop_ok h ->
  dispatch dial_error addr w (p, Some (hop_value h))
  = if is_ask h then sendAsk dial_error (hop_target h) (redirected p) (upd_conns <[addr := pop_conn bc]> w)
    else send dial_error (hop_target h) (redirected p) (trigger_refresh (upd_conns <[addr := pop_conn bc]> w)).
Proof.
  intros Hc (Hs & _ & Hd) Hh. unfold dispatch. rewrite Hc. cbn [canon_ptr]. rewrite hop_kind.
  change (value_msg (canon (hop_value h))) with (hop_msg h). unfold decide_reply.
  rewrite Hs, (proj2 (Z.ltb_lt _ _)) by lia. rewrite hop_parses by done. by destruct (is_ask h).
Qed.

Lemma dispatch_filled addr p v bc w :
  conns w !! addr = Some bc -> skipReply p = false -> hasFanIn p = false -> final v = true ->
  dispatch dial_error addr w (p, Some v)
  = Ok (upd_clients (filled p (EncodeValue (Some v))) (upd_conns <[addr := pop_conn bc]> w)).
Proof.
  intros Hc Hs Hf Hv. unfold dispatch. rewrite Hc. cbn [canon_ptr]. rewrite final_answer by done. by apply answer_filled.
Qed.

Lemma dispatch_skipped addr p e bc w :
  conns w !! addr = Some bc -> skipReply p = true ->
  dispatch dial_error addr w (p, e) = Ok (upd_conns <[addr := pop_conn bc]> w).
Proof. intros Hc Hs. unfold dispatch, decide_reply. by rewrite Hc, Hs. Qed.

(** The read with the two redirections. *)
Lemma redirect_read addr t w bc bt p1 p2 more h1 h2 r1 r2 :
  addr <> t -> conns w !! addr = Some bc -> head_ok bc -> live bc = p1 :: p2 :: more ->
  conns w !! t = Some bt -> head_ok bt -> live bt = [] -> writeBuf bt = [] ->
  single p1 -> single p2 -> rawBytes (req p1) = Ok r1 -> rawBytes (req p2) = Ok r2 ->
  hop_ok h1 -> is_ask h1 = false -> hop_target h1 = t -> hop_ok h2 -> is_ask h2 = true -> hop_target h2 = t ->
  buffer_ok (concat (map EncodeValue [Some (hop_value h1); Some (hop_value h2)])) ->
  exists w1 bt1,
    onTraffic dial_error addr (concat (map EncodeValue [Some (hop_value h1); Some (hop_value h2)])) w = Ok (w1, [], ActNone) /\
    conns w1 !! t = Some bt1 /\ head_ok bt1 /\ wire bt1 = wire bt ++ askingBytes ++ r2 ++ r1 /\
    live bt1 = [redirected p1; ask_sentinel (redirected p2); redirected p2] /\
    clients w1 = flush_accum <$> clients w.
Proof.
  intros Hne Ha Hh Hl Ht Hht Hlt Hwt H1 H2 Hr1 Hr2 Hh1 Hk1 Ht1 Hh2 Hk2 Ht2 Hb.
  pose proof (traffic_delivers dial_error addr bc [p1; p2] more [Some (hop_value h1); Some (hop_value h2)] [] w Ha Hh Hl
    eq_refl) as Hd. rewrite app_nil_r in Hd. rewrite Hd; clear Hd; [|by repeat (constructor; [by apply hop_wf|])|exact Hb|by left].
  cbn [zip_with foldM]. rewrite (dispatch_hop addr p1 h1 bc w Ha H1 Hh1), Hk1, Ht1.
  unfold send. cbn [conns trigger_refresh upd_conns]. rewrite lookup_insert_ne by done. rewrite Ht.
  cbn [redirected req]. rewrite Hr1. go_simp.
  set (w1 := upd_conns _ _). assert (Ha1 : conns w1 !! addr = Some (pop_conn bc)).
  { unfold w1. cbn. rewrite lookup_insert_ne by done. apply lookup_insert_eq. }
  assert (Hp : pending bc !! head bc = Some p1) by by eapply live_head.
  rewrite (dispatch_hop addr p2 h2 (pop_conn bc) w1 Ha1 H2 Hh2), Hk2, Ht2.
  unfold sendAsk. cbn [conns upd_conns]. rewrite lookup_insert_ne by done.
  assert (Ht1' : conns w1 !! t = Some (push_conn [redirected p1] r1 [] bt)) by apply lookup_insert_eq.
  rewrite Ht1'. cbn [redirected req]. rewrite Hr2. go_simp. eexists _, _. split; [done|].
  split; [cbn; rewrite lookup_fmap, lookup_insert_eq; done|]. split; [|split; [|split]].
  - unfold head_ok in *. cbn. rewrite !length_app. lia.
  - cbn. rewrite Hwt. cbn. rewrite !app_nil_r. by rewrite <- !app_assoc.
  - unfold live in *. cbn. rewrite drop_app_le by (rewrite length_app; unfold head_ok in Hht; lia).
    rewrite drop_app_le by exact Hht. by rewrite Hlt.
  - done.
Qed.

(** The read with the replies, in the order in which the commands were sent. *)
Lemma crossed_read t w bt p1 p2 ack v1 v2 :
  conns w !! t = Some bt -> head_ok bt ->
  live bt = [redirected p1; ask_sentinel (redirected p2); redirected p2] ->
  single p1 -> single p2 -> final ack = true -> final v1 = true ->
  wf_value ack = true -> wf_value v1 = true -> wf_value v2 = true ->
  buffer_ok (concat (map EncodeValue [Some ack; Some v2; Some v1])) ->
  exists w2,
    onTraffic dial_error t (concat (map EncodeValue [Some ack; Some v2; Some v1])) w = Ok (w2, [], ActNone) /\
    clients w2 = flush_accum <$> filled p2 (EncodeValue (Some v1)) (filled p1 (EncodeValue (Some ack)) (clients w)).
Proof.
  intros Ht Hh Hl (Hs1 & Hf1 & _) (Hs2 & Hf2 & _) Ha Hv Hw1 Hw2 Hw3 Hb.
  pose proof (traffic_delivers dial_error t bt [redirected p1; ask_sentinel (redirected p2); redirected p2] []
    [Some ack; Some v2; Some v1] [] w Ht Hh Hl eq_refl) as Hd.
  rewrite app_nil_r in Hd. rewrite Hd; clear Hd; [|by repeat (constructor; [done|])|exact Hb|by left].
  cbn [zip_with foldM].
  rewrite (dispatch_filled t (redirected p1) ack bt w Ht) by done. go_simp.
  set (w1 := upd_clients _ _). assert (Ht1 : conns w1 !! t = Some (pop_conn bt)) by apply lookup_insert_eq.
  rewrite (dispatch_skipped t _ (Some v2) _ w1 Ht1) by done. go_simp.
  set (w2 := upd_conns _ _). assert (Ht2 : conns w2 !! t = Some (pop_conn (pop_conn bt))) by apply lookup_insert_eq.
  rewrite (dispatch_filled t (redirected p2) v1 _ w2 Ht2) by done. go_simp. by eexists.
Qed.

End order.

(** ** Properties *)

(** C39: an ASK redirection overtakes a MOVED redirection of the same read, and replies
    reach the wrong requests.  Two requests wait on a connection, the node [t] is idle,
    and one read brings a MOVED to [t] for the first and an ASK to [t] for the second:
    ASKING and the second command are written at once and reach [t] before the first
    command, although the first request is queued first.  So when [t] answers what it
    was sent, in order, the client of the first request is given the reply to ASKING,
    the client of the second the reply to the first, and the reply to the second is
    dropped. *)
Theorem ask_overtakes dial_error addr t w bc bt p1 p2 more h1 h2 r1 r2 ack v1 v2 :
  addr <> t -> conns w !! addr = Some bc -> head_ok bc -> live bc = p1 :: p2 :: more ->
  conns w !! t = Some bt -> head_ok bt -> live bt = [] -> writeBuf bt = [] ->
  single p1 -> single p2 -> rawBytes (req p1) = Ok r1 -> rawBytes (req p2) = Ok r2 ->
  hop_ok h1 -> is_ask h1 = false -> hop_target h1 = t -> hop_ok h2 -> is_ask h2 = true -> hop_target h2 = t ->
  final ack = true -> final v1 = true -> Forall (fun v => wf_value v = true) [ack; v1; v2] ->
  let redirections := concat (map EncodeValue [Some (hop_value h1); Some (hop_value h2)]) in
  let replies := concat (map EncodeValue [Some ack; Some v2; Some v1]) in
  buffer_ok redirections -> buffer_ok replies ->
  exists w1 w2 bt1,
    onTraffic dial_error addr redirections w = Ok (w1, [], ActNone) /\
    conns w1 !! t = Some bt1 /\ wire bt1 = wire bt ++ askingBytes ++ r2 ++ r1 /\
    onTraffic dial_error t replies w1 = Ok (w2, [], ActNone) /\
    clients w2 = flush_accum <$> filled p2 (EncodeValue (Some v1))
                                   (filled p1 (EncodeValue (Some ack)) (flush_accum <$> clients w)).
Proof.
  intros Hne Ha Hh Hl Ht Hht Hlt Hwt H1 H2 Hr1 Hr2 Hh1 Hk1 Ht1 Hh2 Hk2 Ht2 Hack Hv1 Hwf redirections replies Hb1 Hb2.
  destruct (redirect_read dial_error addr t w bc bt p1 p2 more h1 h2 r1 r2) as (w1 & bt1 & Hr & Hbt & Hhd & Hw & Hlv & Hc);
    [done..|].
  apply Forall_cons in Hwf as [W1 Hwf]. apply Forall_cons in Hwf as [W2 Hwf]. apply Forall_cons in Hwf as [W3 _].
  destruct (crossed_read dial_error t w1 bt1 p1 p2 ack v1 v2) as (w2 & Hr2' & Hc2); [done..|].
  exists w1, w2, bt1. split; [exact Hr|]. split; [exact Hbt|]. split; [exact Hw|]. split; [exact Hr2'|]. by rewrite Hc2, Hc.
Qed.

(** Clients 1 and 2 sent GET x and GET y to [a:1]; [b:2] has answered client 1 before. *)
Definition ask_clients : gmap nat respState :=
  {[1%nat := snd (allocResponseSlot (snd (allocResponseSlot resp_init))); 2%nat := snd (allocResponseSlot resp_init)]}.
Definition ask_events : list event :=
  [EClient [(bs "b:2", client_req 1 0 "w"); (bs "a:1", client_req 1 1 "x"); (bs "a:1", client_req 2 0 "y")];
   EOpen (bs "a:1"); EOpen (bs "b:2"); ETraffic (bs "b:2") (EncodeValue (Some (str_value TypeBulkString (bs "W"))))].
Definition ask_run : evloop := ran (run no_dial_error (newBackendMux ask_clients NewTopology) ask_events).
Definition ask_conn : backendMuxConn :=
  mkConn [client_req 1 1 "x"; client_req 2 0 "y"] 0 []
    (EncodeCommandBytes [bs "GET"; bs "x"] ++ EncodeCommandBytes [bs "GET"; bs "y"]).
Definition ask_target : backendMuxConn := mkConn [] 0 [] (EncodeCommandBytes [bs "GET"; bs "w"]).

Lemma ask_overtakes_witness :
  run no_dial_error (newBackendMux ask_clients NewTopology) ask_events = Ok ask_run /\
  exists w1 w2 bt1,
    onTraffic no_dial_error (bs "a:1") (EncodeError (bs "MOVED 1 b:2") ++ EncodeError (bs "ASK 2 b:2")) ask_run
      = Ok (w1, [], ActNone) /\
    conns w1 !! bs "b:2" = Some bt1 /\
    wire bt1 = EncodeCommandBytes [bs "GET"; bs "w"] ++ askingBytes ++ EncodeCommandBytes [bs "GET"; bs "y"]
                 ++ EncodeCommandBytes [bs "GET"; bs "x"] /\
    onTraffic no_dial_error (bs "b:2") (concat (map EncodeValue [Some OKValue; Some (str_value TypeBulkString (bs "Y"));
      Some (str_value TypeBulkString (bs "X"))])) w1 = Ok (w2, [], ActNone) /\
    clients w2 = flush_accum <$> filled (client_req 2 0 "y") (EncodeValue (Some (str_value TypeBulkString (bs "X"))))
      (filled (client_req 1 1 "x") (EncodeValue (Some OKValue)) (flush_accum <$> clients ask_run)).
Proof.
  split; [vm_compute; reflexivity|].
  refine (ask_overtakes no_dial_error (bs "a:1") (bs "b:2") ask_run ask_conn ask_target (client_req 1 1 "x") (client_req 2 0 "y")
    [] (mkHop false 1 (bs "b:2")) (mkHop true 2 (bs "b:2")) _ _ OKValue (str_value TypeBulkString (bs "X"))
    (str_value TypeBulkString (bs "Y")) _ _ _ _ _ _ _ _ _ _ _ _ _ _ _ _ _ _ _ _ _ _ _).
  - discriminate.
  - vm_compute. reflexivity.
  - unfold head_ok. cbn. lia.
  - reflexivity.
  - vm_compute. reflexivity.
  - unfold head_ok. cbn. lia.
  - reflexivity.
  - reflexivity.
  - by repeat split.
  - by repeat split.
  - reflexivity.
  - reflexivity.
  - split; [by vm_compute|apply (bool_decide_unpack _); vm_compute; exact I].
  - reflexivity.
  - reflexivity.
  - split; [by vm_compute|apply (bool_decide_unpack _); vm_compute; exact I].
  - reflexivity.
  - reflexivity.
  - reflexivity.
  - reflexivity.
  - repeat constructor.
  - unfold buffer_ok. vm_compute. discriminate.
  - unfold buffer_ok. vm_compute. discriminate.
Defined.
