(* ===== verification/FanOut.v ===== *)
(** * FanOut: a multi-key command from the client's bytes to the client's bytes

    MGET, MSET, DEL, UNLINK, EXISTS and TOUCH over keys of several slots: the command is
    split ([routeMultiKeyToMux]), the parts go to the owners of their slots on the shared
    connections, the replies fill the fan-in of the client's slot, and the merged reply
    is written.  [mget_end_to_end], [parts_end_to_end]: this from [OnTraffic] of the client
    to [OnTraffic] of the last node, in whatever turns the nodes answer. *)

From S2P Require Import Prelude GoStd Config Crc16 Value RespParse RespFacts RequestFacts Command Topology RespQueue Mux.
From S2P Require Import Router RouterMulti Routing MuxFacts RoutingFacts Hub Handler HandlerFacts Engine EndToEnd.

(** ** Commands that are split *)

Lemma multi_names name : mux_multi name = true ->
  name ∈ [bs "MGET"; bs "MSET"; bs "DEL"; bs "UNLINK"; bs "EXISTS"; bs "TOUCH"].
Proof. intros (n & Hn & ->%bytes_eqb_eq)%existsb_exists. by apply list_elem_of_In. Qed.

(** The multiplexer's multi-key commands are routed, and by [routeMultiKeyToMux]. *)
Lemma multi_plain name : mux_multi name = true ->
  one_of name own_commands = false /\ IsBlocking (GetCmdInfo name) = false /\ bytes_eqb name (bs "XREAD") || bytes_eqb name (bs "XREADGROUP") = false /\
  exists i, GetCmdInfo name = Some i /\ FirstKey (Keys i) = 1 /\
    IsNotAllowed (Some i) = false /\ IsAllNodes (Some i) = false /\ IsMultiKey (Some i) = true.
Proof.
  intros Hn%multi_names.
  assert (forallb (fun n => negb (one_of n own_commands) && negb (IsBlocking (GetCmdInfo n)) &&
    negb (bytes_eqb n (bs "XREAD") || bytes_eqb n (bs "XREADGROUP")) &&
    match GetCmdInfo n with
    | Some i => (FirstKey (Keys i) =? 1) && negb (IsNotAllowed (Some i)) && negb (IsAllNodes (Some i)) && IsMultiKey (Some i)
    | None => false
    end) [bs "MGET"; bs "MSET"; bs "DEL"; bs "UNLINK"; bs "EXISTS"; bs "TOUCH"] = true) as Hall by (vm_compute; reflexivity).
  rewrite forallb_forall in Hall. apply list_elem_of_In, Hall in Hn. destruct (GetCmdInfo name) as [i|].
  - rewrite !andb_true_iff, !negb_true_iff in Hn. destruct_and! Hn. split; [assumption|]. split; [assumption|]. split; [assumption|].
    exists i. split; [reflexivity|]. split; [by apply Z.eqb_eq|]. auto.
  - rewrite andb_false_r in Hn. discriminate Hn.
Qed.

Lemma routes_multi `{GoUnicode} dial_error c req st :
  mux_multi (Cmd req) = true -> (2 <= length (Args req))%nat ->
  routeToBackend dial_error c req st = routeMultiKeyToMux dial_error c req (Cmd req) st.
Proof.
  intros Hm Hl. destruct (multi_plain _ Hm) as (_ & _ & _ & i & Hi & Hf & H1 & H2 & H3).
  unfold routeToBackend, GetFirstKeyAndInfo. rewrite (proj2 (Nat.eqb_neq _ _)) by lia. rewrite Hi. cbv zeta. rewrite Hf.
  change (1 <=? 0) with false. rewrite (proj2 (Z.leb_gt _ _)) by lia. cbn [orb]. change (Z.to_nat 1) with 1%nat.
  destruct (lookup_lt_is_Some_2 (Args req) 1) as [k ->]; [lia|]. by rewrite H1, H2, H3, Hm.
Qed.

(** ** The parts on the connections *)

Definition bytes_of (p : pendingClientReq) : bytes := match rawBytes (req p) with Ok b => b | _ => [] end.

Lemma send_all_conns dial_error rs : forall w,
  Forall (fun r => is_Some (conns w !! fst r) /\ is_Some (req (snd r))) rs ->
  exists w', send_all dial_error rs w = Ok w' /\ clients w' = clients w /\
    forall addr bc, conns w !! addr = Some bc ->
      conns w' !! addr = Some (push_conn (part addr rs) (concat (map bytes_of (part addr rs))) [] bc).
Proof.
  induction rs as [|[o p] rs IH]; intros w Hrs.
  { exists w. split; [done|]. split; [done|]. intros addr bc Hc. cbn. by rewrite push_nil. }
  apply Forall_cons in Hrs as [[[bo Ho] [r Hr]] Hrs]. cbn [fst snd] in *.
  set (w1 := upd_conns <[o := push_conn [p] (bytes_of p) [] bo]> w).
  assert (send dial_error o p w = Ok w1) as Hs.
  { unfold send, w1, bytes_of. by rewrite Ho, Hr. }
  destruct (IH w1) as (w' & Hf & Hcl & Hconns).
  { eapply Forall_impl; [exact Hrs|]. intros x [Hx ?]. split; [|done]. cbn. apply lookup_insert_is_Some'. by right. }
  exists w'. split; [|split; [exact Hcl|]].
  - unfold send_all in *. cbn [foldM fst snd]. rewrite Hs. by go_simp.
  - intros addr bc Hc. cbn [part]. destruct (bytes_eqb o addr) eqn:E.
    + apply bytes_eqb_eq in E as ->. rewrite Ho in Hc. injection Hc as ->.
      rewrite (Hconns addr (push_conn [p] (bytes_of p) [] bc)) by apply lookup_insert_eq. by rewrite push_push.
    + apply Hconns. cbn. rewrite lookup_insert_ne; [done|]. intros <-. by rewrite bytes_eqb_refl in E.
Qed.

Lemma part_map {A B} (f : A -> B) a l : part a (map (fun x => (fst x, f (snd x))) l) = map f (part a l).
Proof. induction l as [|[x y] l IH]; [done|]. cbn. destruct (bytes_eqb x a); cbn; by rewrite IH. Qed.

Lemma indexed_elem x owners : forall k, x ∈ indexed k owners -> fst x ∈ owners.
Proof.
  induction owners as [|o owners IH]; intros k Hx; [by apply not_elem_of_nil in Hx|]. apply elem_of_cons in Hx as [->|Hx]; [apply list_elem_of_here|].
  by eapply list_elem_of_further, IH.
Qed.

Lemma owned_groups t gs owners :
  Forall2 (fun (g : Z * list nat) addr => GetNodeForSlot (fst g) t = Some addr) gs owners -> unowned t gs = None.
Proof.
  intros Ho. unfold unowned. destruct (List.find _ gs) as [g|] eqn:E; [|done]. exfalso.
  apply find_some in E as [Hin Hnone]. apply list_elem_of_In, list_elem_of_lookup in Hin as [i Hi].
  destruct (Forall2_lookup_l _ _ _ _ _ Ho Hi) as (addr & _ & Hx). by rewrite Hx in Hnone.
Qed.

Section served.
Context `{GG : GoGlob} `{GU : GoUnicode} (cfg : config) (dial_error : nat -> bytes -> option bytes).
Context (register_ok : bytes -> bool) (remote_addr : nat -> bytes) (pool_conns : bytes -> Z) (stats_text : bytes).
Context (order : submap -> list (bytes * list subEntry)) (LocalAddr : conn -> option bytes).

(** The command [name l], its groups by slot, and the arguments of its part [j]. *)
Context (name : bytes) (l : list bytes).
Definition groups_of : list (Z * list nat) := group_slots (map fst (items name l)).
Definition part_args (j : nat) : list bytes :=
  name :: unitems name (pick_items (items name l) (default [] (snd <$> groups_of !! j))).
Definition part_entry (c b j : nat) : pendingClientReq :=
  mkPending c b 0 (Some (mkRequest (part_args j) [] name)) false false true j.

Lemma parts_indexed t c b rq owners : Cmd rq = name -> forall gs k,
  drop k groups_of = gs -> Forall2 (fun g addr => GetNodeForSlot (fst g) t = Some addr) gs owners ->
  imap (fun j g => part_send t c b rq name name (items name l) (k + j) g) gs
  = map (fun x => (fst x, part_entry c b (snd x))) (indexed k owners).
Proof.
  intros Hn gs k Hd Ho. revert k Hd. induction Ho as [|g addr gs owners Hg _ IH]; intros k Hd; [done|].
  cbn [imap indexed map fst snd]. f_equal.
  - assert (groups_of !! k = Some g) as Hk by (by rewrite <- (Nat.add_0_r k), <- lookup_drop, Hd).
    unfold part_send, part_entry, part_args. by rewrite Hg, Hk, Hn, Nat.add_0_r.
  - rewrite <- (IH (S k)); [|by rewrite <- Nat.add_1_r, <- drop_drop, Hd]. apply imap_ext. intros j x _. cbn. f_equal. lia.
Qed.

Definition fan_slot : fanInState :=
  mkFanIn (len groups_of) 0 (replicate (length groups_of) (mkSub 0 [])) (merge_of name (map snd groups_of) (length (items name l))).

Abbreviation dispatch_request := (dispatchClientRequest cfg dial_error register_ok remote_addr pool_conns stats_text).
Abbreviation read_loop := (client_loop cfg dial_error register_ok remote_addr pool_conns stats_text).

(** The command is dispatched: one slot with a fan-in, and each part at the owner of its slot. *)
Lemma dispatch_multi c b o rq owners st :
  Cmd rq = name -> Args rq = name :: l -> mux_multi name = true -> args_paired name l -> ready_client c st ->
  clients (loop_of st) !! c = Some (mkResp [] b o []) -> (2 <= length groups_of)%nat ->
  Forall2 (fun g addr => GetNodeForSlot (fst g) (topology (loop_of st)) = Some addr) groups_of owners ->
  Forall (fun o => is_Some (conns (loop_of st) !! o)) owners ->
  exists st', dispatch_request c rq st = Ok (st', ActNone) /\
    clients (loop_of st') !! c = Some (mkResp [mkSlot false [] (Some fan_slot)] b o []) /\
    forall addr bc, conns (loop_of st) !! addr = Some bc ->
      conns (loop_of st') !! addr = Some (push_conn (map (part_entry c b) (part addr (indexed 0 owners)))
        (concat (map (fun j => EncodeCommandBytes (part_args j)) (part addr (indexed 0 owners)))) [] bc).
Proof.
  intros Hn Ha Hm Hp Hrc Hq Hg Ho Hcs.
  assert (length l <> 0%nat) as Hl.
  { intros El%length_zero_iff_nil. assert (groups_of = []) as E; [|rewrite E in Hg; cbn in Hg; lia].
    unfold groups_of, items. rewrite El. by destruct (is_mset name). }
  destruct (multi_plain _ Hm) as (Ho1 & Ho2 & Ho3 & _).
  destruct (dispatch_route cfg dial_error register_ok remote_addr pool_conns stats_text c rq st Hrc)
    as (st1 & Hh & _ & _ & Hd); [by rewrite Ha|by rewrite Hn|by rewrite Hn|unfold IsBlockingXREAD; by rewrite Hn, Ho3|].
  rewrite Hd, routes_multi, Hn; [|by rewrite Hn|rewrite Ha; cbn; lia]. clear Hd.
  rewrite (multi_run dial_error c (mkResp [] b o []) (p_h st) Hq rq name name l groups_of Ha Hp eq_refl
    (owned_groups _ _ _ Ho) Hg).
  cbn [respQueue respBase out iov length]. rewrite Nat.add_0_r.
  assert (imap (part_send (topology (h_loop (p_h st))) c b rq name name (items name l)) groups_of
    = map (fun x => (fst x, part_entry c b (snd x))) (indexed 0 owners)) as ->
    by exact (parts_indexed (topology (loop_of st)) c b rq owners Hn groups_of 0 eq_refl Ho).
  cbn [app]. fold fan_slot.
  set (rs := map _ (indexed 0 owners)). set (w1 := upd_clients _ _).
  destruct (send_all_conns dial_error rs w1) as (w & Hs & Hcl & Hconns).
  { unfold rs. apply Forall_fmap, Forall_forall. intros [addr j] Hin. split; [|by eexists].
    change (conns w1) with (conns (loop_of st)). apply (proj1 (Forall_forall _ _) Hcs). by apply indexed_elem in Hin. }
  rewrite Hs. go_simp. eexists. split; [reflexivity|]. split.
  - change (clients w !! c = Some (mkResp [mkSlot false [] (Some fan_slot)] b o [])). rewrite Hcl. apply lookup_insert_eq.
  - intros addr bc Hc. specialize (Hconns addr bc Hc). unfold rs in Hconns. rewrite (part_map (part_entry c b)), map_map in Hconns.
    exact Hconns.
Qed.

Lemma one_command a c st st0 :
  buffer_ok (EncodeCommandBytes (a :: l)) -> dispatch_request c (request_of (a :: l)) st = Ok (st0, ActNone) ->
  read_loop (S (length (EncodeCommandBytes (a :: l)))) c (EncodeCommandBytes (a :: l)) st = Ok (st0, [], ActNone).
Proof.
  intros Hb Hd. rewrite <- (app_nil_r (EncodeCommandBytes _)) in Hb |- *. cbn [client_loop]. rewrite (request_encode a l [] Hb).
  change (mkRequest _ _ _) with (request_of (a :: l)). cbv zeta. rewrite Hd. go_simp. rewrite drop_length_app.
  rewrite EncodeCommandBytes_eq. reflexivity.
Qed.

(** From the client's bytes to the merged reply. *)
Lemma multi_served a c b o owners vals m evs st :
  map upper_byte a = name -> mux_multi name = true -> args_paired name l ->
  gnet_addrs cfg LocalAddr -> ready_client c st -> clients (loop_of st) !! c = Some (mkResp [] b o []) ->
  (2 <= length groups_of)%nat ->
  Forall2 (fun g addr => GetNodeForSlot (fst g) (topology (loop_of st)) = Some addr) groups_of owners ->
  Forall (idle_at (loop_of st)) owners -> buffer_ok (EncodeCommandBytes (a :: l)) ->
  length vals = length groups_of -> Forall (fun v => wf_value v = true /\ final v = true) vals ->
  merge_of name (map snd groups_of) (length (items name l)) (parts_of vals) = Ok m ->
  (forall addr, concat (part addr evs) = part addr (indexed 0 owners)) ->
  Forall (fun ev => snd ev <> [] /\ buffer_ok (reply_bytes vals (snd ev))) evs ->
  exists st1 st2 q,
    OnTraffic cfg dial_error register_ok remote_addr pool_conns stats_text order LocalAddr
      (CAccepted c) (EncodeCommandBytes (a :: l)) st = Ok (st1, [], ActNone) /\
    (forall addr bc, addr ∈ owners -> conns (loop_of st) !! addr = Some bc ->
       wire <$> conns (loop_of st1) !! addr
       = Some (wire bc ++ concat (map (fun j => EncodeCommandBytes (part_args j)) (part addr (indexed 0 owners))))) /\
    node_reads cfg dial_error register_ok remote_addr pool_conns stats_text order LocalAddr (map (turn vals) evs) st1 st2 /\
    clients (loop_of st2) !! c = Some q /\ respQueue q = [] /\ out q = o ++ m /\ iov q = [].
Proof.
  intros Hname Hm Hp Hg Hrc Hq Hn Ho Hidle Hb Hlen Hv Hmerge Hparts Hevs.
  destruct (dispatch_multi c b o (request_of (a :: l)) owners st) as (st0 & Hd & Hcl & Hconns); try assumption;
    [by cbn; rewrite Hname|eapply Forall_impl; [exact Hidle|]; intros x (bc & Hc & _); by rewrite Hc|].
  pose proof (one_command a c st st0 Hb Hd) as Hrun.
  set (st1 := upd_loop flushBackendWrites st0).
  assert (Hflush : forall addr, addr ∈ owners ->
    waits_for addr (map (part_entry c b) (part addr (indexed 0 owners))) (loop_of st1) /\
    forall bc, conns (loop_of st) !! addr = Some bc -> wire <$> conns (loop_of st1) !! addr
      = Some (wire bc ++ concat (map (fun j => EncodeCommandBytes (part_args j)) (part addr (indexed 0 owners))))).
  { intros addr Ha. apply (flushed_idle addr _ _ (loop_of st) (loop_of st0)); [by eapply Forall_forall in Hidle|auto]. }
  pose proof (turns_perm owners evs Hparts) as Hperm. rewrite <- (Forall2_length _ _ _ Ho), <- Hlen in Hperm.
  destruct (fan_in_run (mkResp [] b o []) (merge_of name (map snd groups_of) (length (items name l))) (length vals)
    (fun j => EncodeValue (vals !! j)) m (map snd evs)) as (q & Hfold & Hq1 & Hq2 & Hq3);
    [done|done|lia|by rewrite parts_of_seq|done|].
  cbn [foldM run_event respBase respQueue length] in Hfold. rewrite (surjective_pairing (allocResponseSlot _)) in Hfold.
  change (fst (allocResponseSlot (mkResp [] b o []))) with (b + 0)%nat in Hfold.
  rewrite (setFanIn_new (mkResp [] b o [])) in Hfold. go_simp_in Hfold. rewrite Hlen, Nat.add_0_r, map_map in Hfold.
  edestruct (reads_run cfg dial_error register_ok remote_addr pool_conns stats_text order LocalAddr c (part_entry c b) vals)
    with (evs := evs) (st := st1) as (st2 & Hreads & Hfin); [done|done| | | | |exact Hcl|exact Hfold|].
  - by eapply Forall_impl; [exact Hevs|]; intros ev [? _].
  - by apply turns_valid.
  - by eapply Forall_impl; [exact Hevs|]; intros ev [_ ?].
  - intros addr Ha. rewrite Hparts in *. by apply part_indexed_elem, Hflush in Ha as [Ha _].
  - exists st1, st2, q. split; [by eapply client_read|]. split; [intros addr bc Ha; by apply Hflush|]. auto.
Qed.

End served.

(** ** MGET *)

Lemma mget_keys keys : map fst (items (bs "MGET") keys) = keys.
Proof. unfold items. change (is_mset (bs "MGET")) with false. cbv iota. rewrite map_map. apply map_id. Qed.

Lemma mget_groups keys : groups_of (bs "MGET") keys = group_slots keys.
Proof. unfold groups_of. by rewrite mget_keys. Qed.

(** The arguments of part [j] and the reply of the node that has the keys' values. *)
Definition mget_args (keys : list bytes) (j : nat) : list bytes :=
  bs "MGET" :: pick keys (default [] (snd <$> group_slots keys !! j)).
Definition mget_vals (keys : list bytes) (val : bytes -> option Value) : list Value :=
  map (fun g => array_value (map val (pick keys (snd g)))) (group_slots keys).

Lemma mget_part_args keys j : part_args (bs "MGET") keys j = mget_args keys j.
Proof.
  unfold part_args, mget_args. rewrite mget_groups. f_equal. unfold unitems. change (is_mset (bs "MGET")) with false. cbv iota.
  by rewrite <- pick_fst, mget_keys.
Qed.

Lemma mget_vals_parts keys val :
  parts_of (mget_vals keys val) = imap (fun j g => mkSub j (mget_part keys val (snd g))) (group_slots keys).
Proof. unfold parts_of, mget_vals. rewrite imap_fmap. done. Qed.

Lemma mget_vals_ok keys val :
  forallb (fun k => wf_ptr (val k)) keys = true ->
  Forall (fun v => wf_value v = true /\ final v = true) (mget_vals keys val).
Proof.
  intros Hwf. apply Forall_fmap, Forall_forall. intros g _. split; [|reflexivity]. cbn. apply forallb_forall.
  intros e (k & <- & Hk)%in_map_iff. apply (key_wf keys val Hwf), (pick_in keys (snd g)). by apply list_elem_of_In.
Qed.

(** ** Properties *)

(** C10: MGET end to end: a client with nothing outstanding sends MGET for keys of
    several slots.  Every node is sent an MGET with its own keys for each slot it owns, in
    order and nothing else; when the nodes answer with the values of the keys they were
    asked for, in whatever callbacks and turns, all bytes are taken and the client is
    sent exactly the array of the values in the order of its keys, with nothing left in
    its queue. *)
Theorem mget_end_to_end `{GoGlob} `{GoUnicode} cfg dial_error register_ok remote_addr pool_conns stats_text order
    LocalAddr c b o a keys owners val evs st :
  map upper_byte a = bs "MGET" -> (2 <= length (group_slots keys))%nat ->
  gnet_addrs cfg LocalAddr -> ready_client c st -> clients (loop_of st) !! c = Some (mkResp [] b o []) ->
  Forall2 (fun g addr => GetNodeForSlot (fst g) (topology (loop_of st)) = Some addr) (group_slots keys) owners ->
  Forall (idle_at (loop_of st)) owners -> buffer_ok (EncodeCommandBytes (a :: keys)) ->
  forallb (fun k => wf_ptr (val k)) keys = true ->
  Forall (fun g => buffer_ok (mget_part keys val (snd g))) (group_slots keys) ->
  (forall addr, concat (part addr evs) = part addr (indexed 0 owners)) ->
  Forall (fun ev => snd ev <> [] /\ buffer_ok (reply_bytes (mget_vals keys val) (snd ev))) evs ->
  exists st1 st2 q,
    OnTraffic cfg dial_error register_ok remote_addr pool_conns stats_text order LocalAddr
      (CAccepted c) (EncodeCommandBytes (a :: keys)) st = Ok (st1, [], ActNone) /\
    (forall addr bc, addr ∈ owners -> conns (loop_of st) !! addr = Some bc ->
       wire <$> conns (loop_of st1) !! addr
       = Some (wire bc ++ concat (map (fun j => EncodeCommandBytes (mget_args keys j)) (part addr (indexed 0 owners))))) /\
    node_reads cfg dial_error register_ok remote_addr pool_conns stats_text order LocalAddr
      (map (turn (mget_vals keys val)) evs) st1 st2 /\
    clients (loop_of st2) !! c = Some q /\ respQueue q = [] /\
    out q = o ++ EncodeValue (Some (array_value (map val keys))) /\ iov q = [].
Proof.
  intros Ha Hn Hg Hrc Hq Ho Hidle Hb Hwf Hbs Hparts Hevs.
  destruct (multi_served cfg dial_error register_ok remote_addr pool_conns stats_text order LocalAddr (bs "MGET") keys
    a c b o owners (mget_vals keys val) (EncodeValue (Some (array_value (map val keys)))) evs st)
    as (st1 & st2 & q & H1 & H2 & H3); rewrite ?mget_groups; try assumption.
  - reflexivity.
  - discriminate.
  - apply length_map.
  - by apply mget_vals_ok.
  - rewrite mget_vals_parts, <- (length_map fst (items _ _)), mget_keys. by apply mget_merge_run.
  - exists st1, st2, q. split; [exact H1|]. split; [|exact H3]. intros addr bc Hin Hc. rewrite (H2 addr bc Hin Hc).
    do 3 f_equal. apply map_ext. intros j. by rewrite mget_part_args.
Qed.

(** C11: MSET, DEL, UNLINK, EXISTS and TOUCH end to end: a client with nothing outstanding
    sends such a command for keys of several slots.  Every node is sent one command for
    each slot it owns, with the slot's keys (MSET: and their values) and nothing else;
    when the nodes answer, in whatever callbacks and turns, the client is sent the error
    of the first part (in the order of its keys) that has one, otherwise OK (MSET) or the
    sum of the parts' integers, with nothing left in its queue. *)
Theorem parts_end_to_end `{GoGlob} `{GoUnicode} cfg dial_error register_ok remote_addr pool_conns stats_text order
    LocalAddr c b o name a l owners vals evs st :
  map upper_byte a = name -> mux_multi name = true -> bytes_eqb name (bs "MGET") = false -> args_paired name l ->
  (2 <= length (groups_of name l))%nat ->
  gnet_addrs cfg LocalAddr -> ready_client c st -> clients (loop_of st) !! c = Some (mkResp [] b o []) ->
  Forall2 (fun g addr => GetNodeForSlot (fst g) (topology (loop_of st)) = Some addr) (groups_of name l) owners ->
  Forall (idle_at (loop_of st)) owners -> buffer_ok (EncodeCommandBytes (a :: l)) ->
  length vals = length (groups_of name l) -> replies_ok vals -> Forall (fun v => final v = true) vals ->
  (forall addr, concat (part addr evs) = part addr (indexed 0 owners)) ->
  Forall (fun ev => snd ev <> [] /\ buffer_ok (reply_bytes vals (snd ev))) evs ->
  exists st1 st2 q,
    OnTraffic cfg dial_error register_ok remote_addr pool_conns stats_text order LocalAddr
      (CAccepted c) (EncodeCommandBytes (a :: l)) st = Ok (st1, [], ActNone) /\
    (forall addr bc, addr ∈ owners -> conns (loop_of st) !! addr = Some bc ->
       wire <$> conns (loop_of st1) !! addr
       = Some (wire bc ++ concat (map (fun j => EncodeCommandBytes (part_args name l j)) (part addr (indexed 0 owners))))) /\
    node_reads cfg dial_error register_ok remote_addr pool_conns stats_text order LocalAddr (map (turn vals) evs) st1 st2 /\
    clients (loop_of st2) !! c = Some q /\ respQueue q = [] /\ out q = o ++ merged_parts name vals /\ iov q = [].
Proof.
  intros Ha Hm Hnm Hp Hn Hg Hrc Hq Ho Hidle Hb Hlen Hok Hfin Hparts Hevs.
  apply (multi_served cfg dial_error register_ok remote_addr pool_conns stats_text order LocalAddr name l
    a c b o owners vals (merged_parts name vals) evs st); try assumption.
  - apply Forall_forall. intros v Hv. split; [by eapply Forall_forall in Hok as [? _]|by eapply Forall_forall in Hfin].
  - by apply parts_merge.
Qed.

(** Three keys of two slots at two nodes; the second node answers first. *)
#[local] Existing Instances path_text path_glob.
Definition three_keys : list bytes := map bs ["1"; "2"; "1"]%string.
Definition stored (k : bytes) : option Value := if bytes_eqb k (bs "1") then Some (BulkValue (Some (bs "x"))) else None.
Definition part_turns : list (bytes * list nat) := [(bs "m:2", [1%nat]); (bs "m:1", [0%nat])].

Lemma part_turns_own addr : concat (part addr part_turns) = part addr (indexed 0 [bs "m:1"; bs "m:2"]).
Proof.
  cbn [part_turns part indexed]. destruct (bytes_eqb (bs "m:1") addr) eqn:E1, (bytes_eqb (bs "m:2") addr) eqn:E2; try reflexivity.
  apply bytes_eqb_eq in E1 as <-. discriminate E2.
Qed.

Lemma path_idle : Forall (idle_at (loop_of path_proxy)) [bs "m:1"; bs "m:2"].
Proof.
  repeat (apply Forall_cons_2; [exists idle_conn; split; [vm_compute; reflexivity|]; split; [apply le_n|by split]|]); apply Forall_nil_2.
Qed.

Lemma mget_end_to_end_witness :
  exists st1 st2 q,
    OnTraffic path_cfg no_errors (fun _ => true) (fun _ => []) (fun _ => 0) [] map_to_list addr_of
      (CAccepted 5) (EncodeCommandBytes (bs "mget" :: three_keys)) path_proxy = Ok (st1, [], ActNone) /\
    (forall addr bc, addr ∈ [bs "m:1"; bs "m:2"] -> conns path_loop !! addr = Some bc ->
       wire <$> conns (loop_of st1) !! addr = Some (wire bc ++ concat (map (fun j => EncodeCommandBytes (mget_args three_keys j))
         (part addr (indexed 0 [bs "m:1"; bs "m:2"]))))) /\
    node_reads path_cfg no_errors (fun _ => true) (fun _ => []) (fun _ => 0) [] map_to_list addr_of
      (map (turn (mget_vals three_keys stored)) part_turns) st1 st2 /\
    clients (loop_of st2) !! 5%nat = Some q /\ respQueue q = [] /\
    out q = bs "+OK" ++ EncodeValue (Some (array_value [stored (bs "1"); None; stored (bs "1")])) /\ iov q = [].
Proof.
  refine (mget_end_to_end path_cfg no_errors (fun _ => true) (fun _ => []) (fun _ => 0) [] map_to_list addr_of 5 7
    (bs "+OK") (bs "mget") three_keys [bs "m:1"; bs "m:2"] stored part_turns path_proxy _ _ _ _ _ _ _ _ _ _ _ _).
  - reflexivity.
  - vm_compute. lia.
  - exact addrs_ok.
  - split; [by eexists|reflexivity|reflexivity].
  - reflexivity.
  - repeat constructor; vm_compute; reflexivity.
  - exact path_idle.
  - unfold buffer_ok. vm_compute. discriminate.
  - reflexivity.
  - repeat constructor; vm_compute; discriminate.
  - exact part_turns_own.
  - repeat (apply Forall_cons_2; [split; [discriminate|unfold buffer_ok; vm_compute; discriminate]|]); apply Forall_nil_2.
Defined.

Lemma parts_end_to_end_witness :
  exists st1 st2 q,
    OnTraffic path_cfg no_errors (fun _ => true) (fun _ => []) (fun _ => 0) [] map_to_list addr_of
      (CAccepted 5) (EncodeCommandBytes (bs "del" :: three_keys)) path_proxy = Ok (st1, [], ActNone) /\
    (forall addr bc, addr ∈ [bs "m:1"; bs "m:2"] -> conns path_loop !! addr = Some bc ->
       wire <$> conns (loop_of st1) !! addr = Some (wire bc ++ concat (map (fun j => EncodeCommandBytes (part_args (bs "DEL") three_keys j))
         (part addr (indexed 0 [bs "m:1"; bs "m:2"]))))) /\
    node_reads path_cfg no_errors (fun _ => true) (fun _ => []) (fun _ => 0) [] map_to_list addr_of
      (map (turn [IntValue 1; IntValue 4]) part_turns) st1 st2 /\
    clients (loop_of st2) !! 5%nat = Some q /\ respQueue q = [] /\ out q = bs "+OK" ++ (bs ":5" ++ CRLF) /\ iov q = [].
Proof.
  refine (parts_end_to_end path_cfg no_errors (fun _ => true) (fun _ => []) (fun _ => 0) [] map_to_list addr_of 5 7
    (bs "+OK") (bs "DEL") (bs "del") three_keys [bs "m:1"; bs "m:2"] [IntValue 1; IntValue 4] part_turns path_proxy
    _ _ _ _ _ _ _ _ _ _ _ _ _ _ _ _).
  - reflexivity.
  - reflexivity.
  - reflexivity.
  - discriminate.
  - vm_compute. lia.
  - exact addrs_ok.
  - split; [by eexists|reflexivity|reflexivity].
  - reflexivity.
  - repeat constructor; vm_compute; reflexivity.
  - exact path_idle.
  - unfold buffer_ok. vm_compute. discriminate.
  - vm_compute. reflexivity.
  - repeat constructor; vm_compute; discriminate.
  - repeat constructor.
  - exact part_turns_own.
  - repeat (apply Forall_cons_2; [split; [discriminate|unfold buffer_ok; vm_compute; discriminate]|]); apply Forall_nil_2.
Defined.
