(* ===== verification/Server.v ===== *)
(** * Server: the parts put together

    Model of [pkg/server/server.go].  [New] makes the topology manager, the pool managers
    and the router from the configuration and hooks the removal of the pools of a node on
    its disappearance from the cluster; [Start] loads the topology and finds the address
    to listen on; [Stop] closes everything.  The event engine ([gnet.Run]), its goroutine
    pool and [net.Listen] are arguments: what they return.

    [removed_nodes_closed]: a refresh closes and forgets the connections to the nodes that
    disappeared, and touches no others. *)

From stdpp Require Import sorting.
From S2P Require Import Prelude GoStd Config Value RespParse RespStream Pool Pipeline Topology TopoManager.

(** [sv_mode] is the router's read mode, [sv_maxClients] the handler's limit. *)
Record Server := mkServer {
  sv_cfg : Config;
  sv_topo : tmanager;
  sv_pools : Pool.Manager;
  sv_pipes : PipelinedManager;
  sv_mode : ReadMode;
  sv_maxClients : Z;
  sv_addr : bytes;
  sv_stopped : bool;
}.

(** [router.New]: the read mode is set afterwards. *)
Definition router_New (pools : Pool.Manager) : PipelinedManager :=
  NewPipelinedManager (m_username pools) (m_password pools) 16.

(** [handler] is the result of making the goroutine pool in [NewProxyHandler]. *)
Definition New (cfg : Config) (handler : option goerror) : outcome Server :=
  match Config.EntryPoints cfg with
  | [] => Err (Errorf (bs "no cluster entry points configured"))
  | eps =>
      let topoMgr := NewManager eps (Username cfg) (Password cfg) in
      let poolMgr := Pool.NewManager (Username cfg) (Password cfg) (PoolSize cfg) in
      match handler with
      | Some e => Err (Errorf (bs "create proxy handler: create goroutine pool: " ++ err_msg e))
      | None => Ok (mkServer cfg topoMgr poolMgr (router_New poolMgr) (ReadMode_ cfg) (MaxClients cfg) [] false)
      end
  end.

Definition with_topo (t : tmanager) (s : Server) : Server :=
  mkServer (sv_cfg s) t (sv_pools s) (sv_pipes s) (sv_mode s) (sv_maxClients s) (sv_addr s) (sv_stopped s).
Definition with_pools (p : Pool.Manager) (q : PipelinedManager) (s : Server) : Server :=
  mkServer (sv_cfg s) (sv_topo s) p q (sv_mode s) (sv_maxClients s) (sv_addr s) (sv_stopped s).
Definition with_addr (a : bytes) (s : Server) : Server :=
  mkServer (sv_cfg s) (sv_topo s) (sv_pools s) (sv_pipes s) (sv_mode s) (sv_maxClients s) a (sv_stopped s).
Definition mark_stopped (s : Server) : Server :=
  mkServer (sv_cfg s) (sv_topo s) (sv_pools s) (sv_pipes s) (sv_mode s) (sv_maxClients s) (sv_addr s) true.

(** The hook of [New]. *)
Definition node_removed (removedAddrs : list bytes) (s : Server) : Server :=
  foldl (fun s addr => with_pools (RemovePool addr (sv_pools s)) (pm_RemovePool addr (sv_pipes s)) s) s removedAddrs.

(** A refresh of the topology, with the calls of the hook it makes. *)
Definition server_refresh (it : iteration) (net : bytes -> goerror + node_conn) (s : Server) : outcome Server :=
  m ← net_refresh it net (sv_topo s);
  let calls := drop (length (removedHooks (tm_core (sv_topo s)))) (removedHooks m) in
  Ok (foldl (fun s removed => node_removed removed s) (with_topo (with_core m (sv_topo s)) s) calls).

(** The number of event loops. *)
Definition num_loops (cfg : Config) (ncpu : Z) : Z :=
  if Workers cfg <=? 0 then if 8 <? ncpu then 8 else ncpu else Workers cfg.

(** [listen] is what [net.Listen] gives for an address, [boot] what the engine reports:
    the error of [gnet.Run], or that it booted. *)
Definition Start (it : iteration) (net : bytes -> goerror + node_conn) (listen : bytes -> goerror + bytes)
    (boot : option goerror) (s : Server) : outcome Server :=
  s ← match TopoManager.Start (sv_topo s) with
      | None => Ok s
      | Some t =>
          match server_refresh it net (with_topo t s) with
          | Ok s => Ok (with_topo (at_phase PSelect (sv_topo s)) s)
          | Err e => Err (Errorf (bs "cluster topology init: initial topology load failed: " ++ err_msg e))
          | Panic => Panic
          | NoFuel => NoFuel
          end
      end;
  let addr := Config.Addr (sv_cfg s) in
  match listen addr with
  | inl e => Err (Errorf (bs "listen " ++ addr ++ bs ": " ++ err_msg e))
  | inr a =>
      match boot with
      | Some e => Err e
      | None => Ok (with_addr a s)
      end
  end.

(** [Router.Close], [Manager.Stop] of the topology, [Manager.Close] of the pools. *)
Definition Stop (s : Server) : outcome Server :=
  let s := mark_stopped s in
  let s := with_pools (sv_pools s) (pm_Close (sv_pipes s)) s in
  t ← TopoManager.Stop (sv_topo s);
  let s := with_topo t s in
  Ok (with_pools (Manager_Close (sv_pools s)) (sv_pipes s) s).

Definition Addr (s : Server) : bytes :=
  match sv_addr s with [] => Config.Addr (sv_cfg s) | a => a end.

(** ** Removal of several keys of a registry *)

Section registry_facts.
Context {P : Type} `{Closer P}.
Implicit Types (r : poolRegistry P) (ks : list bytes).

Definition remove_keys ks r : poolRegistry P := foldl (fun r k => remove k r) r ks.

Lemma remove_lookup k k' r :
  pools (remove k r) !! k' = if decide (k = k') then None else pools r !! k'.
Proof.
  unfold remove. destruct (pools r !! k) eqn:E; cbn; case_decide as Hk; subst.
  - by rewrite lookup_delete_eq.
  - by rewrite lookup_delete_ne.
  - done.
  - done.
Qed.

Lemma remove_closed k r p : p ∈ closed_pools r -> p ∈ closed_pools (remove k r).
Proof. unfold remove. destruct (pools r !! k); cbn; [|done]. intros. apply elem_of_app. by left. Qed.

Lemma remove_keys_lookup ks r k :
  pools (remove_keys ks r) !! k = if decide (k ∈ ks) then None else pools r !! k.
Proof.
  revert r. induction ks as [|k' ks IH]; intros r; cbn [remove_keys foldl].
  { by rewrite decide_False by apply not_elem_of_nil. }
  fold (remove_keys ks (remove k' r)). rewrite IH, remove_lookup.
  destruct (decide (k ∈ ks)) as [Hin|Hin].
  - by rewrite decide_True by (apply elem_of_cons; by right).
  - destruct (decide (k' = k)) as [->|Hne].
    + by rewrite decide_True by (apply elem_of_cons; by left).
    + rewrite decide_False; [done|]. apply not_elem_of_cons. split; [congruence|done].
Qed.

Lemma remove_keys_closed ks r p : p ∈ closed_pools r -> p ∈ closed_pools (remove_keys ks r).
Proof. revert r. induction ks as [|k ks IH]; intros r Hp; [done|]. by apply IH, remove_closed. Qed.

Lemma remove_keys_closes ks r k p :
  k ∈ ks -> pools r !! k = Some p -> close_pool p ∈ closed_pools (remove_keys ks r).
Proof.
  revert r. induction ks as [|k' ks IH]; intros r Hin Hp; [by apply elem_of_nil in Hin|].
  cbn [remove_keys foldl]. fold (remove_keys ks (remove k' r)).
  destruct (decide (k' = k)) as [->|Hne].
  - apply remove_keys_closed. unfold remove. rewrite Hp. cbn. apply elem_of_app. right. by apply list_elem_of_singleton.
  - apply IH; [|by rewrite remove_lookup, decide_False]. apply elem_of_cons in Hin as [->|?]; done.
Qed.

End registry_facts.

(** The two keys of an address. *)
Definition addr_keys (addrs : list bytes) : list bytes := concat (map (fun a => [a; a ++ ro_suffix]) addrs).

Lemma addr_keys_elem k addrs : k ∈ addr_keys addrs <-> exists a, a ∈ addrs /\ (k = a \/ k = a ++ ro_suffix).
Proof.
  unfold addr_keys. induction addrs as [|a addrs IH]; cbn [map concat].
  - split; [by intros ?%elem_of_nil|]. intros (a & Ha & _). by apply elem_of_nil in Ha.
  - cbn [app]. rewrite !elem_of_cons, IH. split.
    + intros [->|[->|(b & Hb & Hk)]]; [exists a|exists a|exists b]; rewrite elem_of_cons; auto.
    + intros (b & [->|Hb]%elem_of_cons & Hk); [destruct Hk as [->| ->]; auto|right; right; eauto].
Qed.

Lemma node_removed_pools addrs s :
  reg (sv_pools (node_removed addrs s)) = remove_keys (addr_keys addrs) (reg (sv_pools s)) /\
  pm_reg (sv_pipes (node_removed addrs s)) = remove_keys (addr_keys addrs) (pm_reg (sv_pipes s)) /\
  sv_topo (node_removed addrs s) = sv_topo s.
Proof.
  revert s. induction addrs as [|a addrs IH]; intros s; [done|].
  change (node_removed (a :: addrs) s) with
    (node_removed addrs (with_pools (RemovePool a (sv_pools s)) (pm_RemovePool a (sv_pipes s)) s)).
  destruct (IH (with_pools (RemovePool a (sv_pools s)) (pm_RemovePool a (sv_pipes s)) s)) as (-> & -> & ->). done.
Qed.

(** What a refresh does to the server: the topology is the manager's, and the pools lose
    the keys of the addresses that are gone. *)
Lemma server_refresh_inv it net s s' :
  iteration_ok it -> snap_ok (snap (topo (tm_core (sv_topo s)))) -> server_refresh it net s = Ok s' ->
  printable (nodes (snap (topo (tm_core (sv_topo s))))) -> printable (nodes (snap (topo (tm_core (sv_topo s'))))) ->
  exists gone,
    (forall a, a ∈ gone <-> is_Some (nodes (snap (topo (tm_core (sv_topo s)))) !! a) /\
                            nodes (snap (topo (tm_core (sv_topo s')))) !! a = None) /\
    reg (sv_pools s') = remove_keys (addr_keys gone) (reg (sv_pools s)) /\
    pm_reg (sv_pipes s') = remove_keys (addr_keys gone) (pm_reg (sv_pipes s)).
Proof.
  intros Hit Hs H P1 P2. unfold server_refresh in H.
  apply outcome_bind_inv in H as (m & Hm & H). injection H as <-.
  assert (forall calls x, sv_topo (foldl (fun s removed => node_removed removed s) x calls) = sv_topo x) as Ht.
  { induction calls as [|r calls IH]; intros x; [done|]. cbn [foldl]. rewrite IH. apply node_removed_pools. }
  rewrite Ht in P2 |- *. cbn [sv_topo with_topo tm_core with_core] in P2 |- *.
  destruct (refresh_hooks _ _ _ _ _ _ Hit Hs Hm P1 P2) as (gone & Hg & ->).
  exists gone. split; [exact Hg|]. rewrite drop_length_app.
  destruct gone as [|a gone]; cbn [length Nat.ltb Nat.leb foldl]; [done|].
  destruct (node_removed_pools (a :: gone) (with_topo (with_core m (sv_topo s)) s)) as (-> & -> & _). done.
Qed.

(** ** Properties *)

(** C34: when a refresh finds that nodes have left the cluster, the server closes the
    connection pools and the pipelined connections to them, for writes and for reads
    from replicas, and forgets them, so that the next request to such an address opens
    new connections; the pools of all other addresses are left as they are. *)
Theorem removed_nodes_closed eps u p it net s s' :
  mreach eps u p (sv_topo s) -> iteration_ok it -> server_refresh it net s = Ok s' ->
  let old := nodes (snap (topo (tm_core (sv_topo s)))) in
  let new := nodes (snap (topo (tm_core (sv_topo s')))) in
  printable old -> printable new ->
  (forall a k, is_Some (old !! a) -> new !! a = None -> k = a \/ k = a ++ ro_suffix ->
     pools (reg (sv_pools s')) !! k = None /\ pools (pm_reg (sv_pipes s')) !! k = None /\
     (forall q, pools (reg (sv_pools s)) !! k = Some q -> Close q ∈ closed_pools (reg (sv_pools s'))) /\
     (forall q, pools (pm_reg (sv_pipes s)) !! k = Some q ->
        PipelinedPool_Close q ∈ closed_pools (pm_reg (sv_pipes s')))) /\
  (forall k, (forall a, is_Some (old !! a) -> new !! a = None -> k <> a /\ k <> a ++ ro_suffix) ->
     pools (reg (sv_pools s')) !! k = pools (reg (sv_pools s)) !! k /\
     pools (pm_reg (sv_pipes s')) !! k = pools (pm_reg (sv_pipes s)) !! k).
Proof.
  intros [Hs _ _]%tinv_reach Hit Hr old new P1 P2.
  destruct (server_refresh_inv it net s s' Hit Hs Hr P1 P2) as (gone & Hg & Ep & Eq).
  split.
  - intros a k Ha Hn Hk.
    assert (k ∈ addr_keys gone) as Hin by (apply addr_keys_elem; exists a; split; [by apply Hg|done]).
    rewrite Ep, Eq, !remove_keys_lookup, !decide_True by done. split_and!; [done|done|intros q Hq..].
    + by apply (remove_keys_closes (P := Pool) _ _ k).
    + by apply (remove_keys_closes (P := PipelinedPool) _ _ k).
  - intros k Hk. rewrite Ep, Eq, !remove_keys_lookup.
    assert (k ∉ addr_keys gone) as Hin.
    { intros (a & Ha & [Hka|Hka])%addr_keys_elem; apply Hg in Ha as [Ha1 Ha2];
        destruct (Hk a Ha1 Ha2); congruence. }
    by rewrite !decide_False.
Qed.

(** ** A run: a replica leaves the cluster *)

Definition printable_b (ns : nodemap) : bool :=
  forallb (fun an => bool_decide (x7c ∉ an.1) &&
    forallb (fun r => (- 2^63 <=? r.1) && (r.1 <? 2^63) && (- 2^63 <=? r.2) && (r.2 <? 2^63)) (Slots an.2))
    (map_to_list ns).

Lemma printable_b_ok ns : printable_b ns = true -> printable ns.
Proof.
  intros H a n Hn. unfold printable_b in H. rewrite forallb_forall in H.
  specialize (H (a, n)). cbn [fst snd] in H.
  apply elem_of_map_to_list, list_elem_of_In, H, andb_true_iff in Hn as [Ha Hr].
  split; [by apply bool_decide_eq_true in Ha|].
  rewrite forallb_forall in Hr. apply Forall_forall. intros r Hin%list_elem_of_In%Hr.
  bool_arith. split; split; lia.
Qed.

Definition one_left : bytes := bs "07c3 127.0.0.1:7000@17000 myself,master - 0 0 1 connected 0-2 5".

Definition answer_with (reply a : bytes) : goerror + node_conn :=
  inr (mkNodeConn (mkReader [] EOF) (mkReader (EncodeValue (Some (BulkValue (Some reply)))) EOF) None).

Definition started : tmanager :=
  mkTM (tm_core (NewManager [bs "127.0.0.1:7000"] [] [])) [] [] true false false PStart false.

Definition gone_addr : bytes := bs "127.0.0.1:7001".
Definition old_pool : Pool := Pool.New (mkOptions gone_addr [] [] 20 0 0 true).

(** The server after its start, with a pool of read-only connections to the replica. *)
Definition serving (m : Topology.Manager) : Server :=
  mkServer Default (at_phase PSelect (with_core m started))
    (Pool.mkManager (mkRegistry {[ gone_addr ++ ro_suffix := old_pool ]} []) [] [] 20)
    (NewPipelinedManager [] [] 16) ReadModeMasterSlave 0 [] false.

Lemma removed_nodes_closed_witness :
  exists s s', server_refresh plain_iteration (answer_with one_left) s = Ok s' /\
    pools (reg (sv_pools s)) !! (gone_addr ++ ro_suffix) = Some old_pool /\
    pools (reg (sv_pools s')) !! (gone_addr ++ ro_suffix) = None /\
    Close old_pool ∈ closed_pools (reg (sv_pools s')).
Proof.
  assert (iteration_ok plain_iteration) as Hit by (split; intros; apply range_of_keys).
  assert ((match net_refresh plain_iteration (answer_with nodes_reply) started with
    | Ok m => match server_refresh plain_iteration (answer_with one_left) (serving m) with
        | Ok s' => printable_b (nodes (snap (topo m))) && printable_b (nodes (snap (topo (tm_core (sv_topo s'))))) &&
            match nodes (snap (topo m)) !! gone_addr, nodes (snap (topo (tm_core (sv_topo s')))) !! gone_addr with
            | Some _, None => true | _, _ => false end
        | _ => false end
    | _ => false end) = true) as Hc by by vm_compute.
  destruct (net_refresh plain_iteration (answer_with nodes_reply) started) as [m| | |] eqn:E; [|discriminate Hc..].
  destruct (server_refresh plain_iteration (answer_with one_left) (serving m)) as [s'| | |] eqn:E'; [|discriminate Hc..].
  apply andb_true_iff in Hc as [[Hp1 Hp2]%andb_true_iff Hc].
  assert (mreach [bs "127.0.0.1:7000"] [] [] (sv_topo (serving m))) as Hr.
  { apply mr_step with started; [|exact (ms_start_ok plain_iteration (answer_with nodes_reply) started m eq_refl Hit E)].
    apply mr_step with (NewManager [bs "127.0.0.1:7000"] [] []); [apply mr_init|by apply ms_start]. }
  destruct (removed_nodes_closed _ _ _ plain_iteration (answer_with one_left) (serving m) s' Hr Hit E'
    (printable_b_ok _ Hp1) (printable_b_ok _ Hp2)) as [Hgone _].
  destruct (Hgone gone_addr (gone_addr ++ ro_suffix)) as (H1 & _ & H3 & _).
  - cbn [serving sv_topo at_phase with_core tm_core]. destruct (nodes (snap (topo m)) !! gone_addr) as [n|]; [by exists n|discriminate Hc].
  - cbn [serving sv_topo at_phase with_core tm_core]. destruct (nodes (snap (topo m)) !! gone_addr) as [n|]; [|discriminate Hc].
    destruct (nodes (snap (topo (tm_core (sv_topo s')))) !! gone_addr); [discriminate Hc|reflexivity].
  - by right.
  - exists (serving m), s'. split; [exact E'|]. split; [apply lookup_singleton_eq|]. split; [exact H1|].
    apply H3. apply lookup_singleton_eq.
Defined.

(** The second [Stop] closes a closed channel. *)
Lemma stop_twice_panics s s' : Stop s = Ok s' -> Stop s' = Panic.
Proof.
  unfold Stop, TopoManager.Stop. cbn [sv_topo with_pools mark_stopped]. case_bool; [done|]. by intros [= <-].
Qed.

(** After [Stop] no pool is left and every pool that was there is closed. *)
Lemma stop_closes s s' :
  Stop s = Ok s' ->
  (forall k, pools (reg (sv_pools s')) !! k = None /\ pools (pm_reg (sv_pipes s')) !! k = None) /\
  (forall k q, pools (reg (sv_pools s)) !! k = Some q -> Close q ∈ closed_pools (reg (sv_pools s'))) /\
  (forall k q, pools (pm_reg (sv_pipes s)) !! k = Some q -> PipelinedPool_Close q ∈ closed_pools (pm_reg (sv_pipes s'))) /\
  sv_cfg s' = sv_cfg s /\ tm_done (sv_topo s') = true /\ sv_stopped s' = true.
Proof.
  unfold Stop, TopoManager.Stop. cbn [sv_topo with_pools mark_stopped]. case_bool; [done|]. intros [= <-].
  split_and!; [done| | |done..]; intros k q Hq; cbn; apply elem_of_app; right;
    (apply list_elem_of_fmap; exists (k, q); split; [done|]; by apply elem_of_map_to_list).
Qed.

(** The number of event loops is positive on a machine with a processor, and at most 8
    unless the configuration asks for more. *)
Lemma num_loops_bounds cfg ncpu :
  0 < ncpu -> 0 < num_loops cfg ncpu /\ (Workers cfg <= 8 -> num_loops cfg ncpu <= 8).
Proof. intros Hn. unfold num_loops. repeat case_bool; lia. Qed.
