(* ===== verification/Service.v ===== *)
(** * Service: what happens to the server between its start and its stop

    The requests the event loops hand to the router ([Router.Execute] and the like) get
    connection pools and pipelined connections from the managers, which make them on first
    use ([pkg/router/router.go], [execOnNodeOnce] and [execBatchOnNode]); goroutines move
    inside the pools, the loops of the pipelined connections take turns, and the topology
    manager refreshes, which removes the pools of the nodes that left.  [serve_step] is the
    relation of these, one action after the other.

    [Server.Stop] closes the pipelined connections and waits for their loops
    ([pipeConn.close] receives from [done]): [loop_fate] follows a loop from the closing of
    its channel on, and [wait_loops] is the waiting for all of them. *)

From S2P Require Import Prelude GoStd Config Value RespParse RespStream Pool Pipeline Topology TopoManager Server.

(** [sc_threads] are the goroutines inside the pool of a key, [sc_blocked] the pipelined
    connections (key and number) whose loop is in a turn that does not end. *)
Record service := mkService {
  sc_server : Server;
  sc_threads : gmap bytes (list thread);
  sc_blocked : list (bytes * nat);
}.

Definition at_start (s : Server) : service := mkService s ∅ [].

(** ** The end of a loop *)

(** What the network and the clock give a turn. *)
Record turn := mkTurn {
  t_now : Z;
  t_later : Z;
  t_net : goerror + Reader * option nat;
}.

Inductive fate := Ended | Never | Died.

(** The loop of a connection whose channel is closed makes the turns [ts] and then none
    that ends. *)
Fixpoint loop_fate (ts : list turn) (pc : pipeConn) : fate :=
  match ts with
  | [] => Never
  | t :: ts =>
      match loop_turn (t_now t) (t_later t) (t_net t) pc with
      | Ok (Some (inr _)) => Ended
      | Ok (Some (inl pc)) => loop_fate ts pc
      | Ok None => Never
      | Err _ | Panic | NoFuel => Died
      end
  end.

(** [close] of the connection number [i] of the pool under [key]: the send on [done] comes
    with the end of the loop. *)
Definition close_fate (blocked : list (bytes * nat)) (turns : bytes -> nat -> list turn) (key : bytes) (i : nat) (pc : pipeConn) : fate :=
  if bool_decide ((key, i) ∈ blocked) then Never else loop_fate (turns key i) (close_chan pc).

(** The connections are closed one after the other: the first loop that does not end
    decides. *)
Fixpoint wait_all (fs : list fate) : fate :=
  match fs with
  | [] => Ended
  | Ended :: fs => wait_all fs
  | f :: _ => f
  end.

Definition wait_loops (c : service) (turns : bytes -> nat -> list turn) : fate :=
  wait_all (concat (map (fun kp => imap (close_fate (sc_blocked c) turns (fst kp)) (pp_conns (snd kp)))
    (map_to_list (pools (pm_reg (sv_pipes (sc_server c))))))).

(** ** The actions while the server serves *)

Definition registry_key (readonly : bool) (addr : bytes) : bytes := if readonly then addr ++ ro_suffix else addr.

(** [poolMgr.GetPool(addr)] or [poolMgr.GetReadonlyPool(addr)] *)
Definition use_pool (readonly : bool) (addr : bytes) (s : Server) : Server :=
  with_pools (snd (if readonly then GetReadonlyPool addr (sv_pools s) else GetPool addr (sv_pools s))) (sv_pipes s) s.

(** [pipeMgr.GetPool(addr)] or [pipeMgr.GetReadonlyPool(addr)] *)
Definition use_pipe (readonly : bool) (addr : bytes) (s : Server) : PipelinedPool * Server :=
  let '(pp, q) := if readonly then pm_GetReadonlyPool addr (sv_pipes s) else pm_GetPool addr (sv_pipes s) in
  (pp, with_pools (sv_pools s) q s).

Definition put_pool (key : bytes) (p : Pool) (s : Server) : Server :=
  let m := sv_pools s in
  with_pools (set_reg (mkRegistry (<[key := p]> (pools (reg m))) (closed_pools (reg m))) m) (sv_pipes s) s.

Definition put_pipe (key : bytes) (pp : PipelinedPool) (s : Server) : Server :=
  let m := sv_pipes s in
  with_pools (sv_pools s) (pm_set (mkRegistry (<[key := pp]> (pools (pm_reg m))) (closed_pools (pm_reg m))) m) s.

Definition set_pipe_conn (i : nat) (pc : pipeConn) (pp : PipelinedPool) : PipelinedPool :=
  mkPipelined (pp_size pp) (<[i := pc]> (pp_conns pp)) (pp_idx pp).

(** The goroutines of the pools that are still there. *)
Definition threads_of (ts : gmap bytes (list thread)) (s : Server) : gmap bytes (list thread) :=
  filter (fun kt => is_Some (pools (reg (sv_pools s)) !! fst kt)) ts.

(** The loops of the pools that the step from [s] to [s'] removed come to their end: the
    removal waits for them. *)
Definition removal_returns (blocked : list (bytes * nat)) (turns : bytes -> nat -> list turn) (s s' : Server) : Prop :=
  forall key pp i pc,
    pools (pm_reg (sv_pipes s)) !! key = Some pp -> pools (pm_reg (sv_pipes s')) !! key = None ->
    pp_conns pp !! i = Some pc -> close_fate blocked turns key i pc = Ended.

(** A request gets a pool and calls [Get]; a goroutine moves inside its pool; a request is
    put into the channel of a pipelined connection; the loop of one takes a turn, or one
    that does not end; the topology manager makes a step that removes no node; it refreshes
    and removes the pools of the nodes that left. *)
Inductive serve_step : service -> service -> Prop :=
| sv_get readonly addr s ts bl :
    serve_step (mkService s ts bl)
      (mkService (use_pool readonly addr s)
         (<[registry_key readonly addr := default [] (ts !! registry_key readonly addr) ++ [TGet]]> ts) bl)
| sv_thread now key i p p' t t' l s ts bl :
    pools (reg (sv_pools s)) !! key = Some p -> ts !! key = Some l -> l !! i = Some t -> tstep now p t p' t' ->
    serve_step (mkService s ts bl) (mkService (put_pool key p' s) (<[key := <[i := t']> l]> ts) bl)
| sv_do readonly addr data i id pp pp' s s' ts bl :
    use_pipe readonly addr s = (pp, s') -> Do_send data pp = Ok (Some (i, id, pp')) ->
    serve_step (mkService s ts bl) (mkService (put_pipe (registry_key readonly addr) pp' s') ts bl)
| sv_turn t key i pp pc pc' s ts bl :
    pools (pm_reg (sv_pipes s)) !! key = Some pp -> pp_conns pp !! i = Some pc -> (key, i) ∉ bl ->
    loop_turn (t_now t) (t_later t) (t_net t) pc = Ok (Some (inl pc')) ->
    serve_step (mkService s ts bl) (mkService (put_pipe key (set_pipe_conn i pc' pp) s) ts bl)
| sv_block_read k t key i pp pc pc' held s ts bl :
    pools (pm_reg (sv_pipes s)) !! key = Some pp -> pp_conns pp !! i = Some pc -> (key, i) ∉ bl ->
    stall_read k (t_now t) (t_net t) pc = Some (pc', held) ->
    serve_step (mkService s ts bl) (mkService (put_pipe key (set_pipe_conn i pc' pp) s) ts ((key, i) :: bl))
| sv_block_early t key i pp pc pc' held s ts bl :
    pools (pm_reg (sv_pipes s)) !! key = Some pp -> pp_conns pp !! i = Some pc -> (key, i) ∉ bl ->
    stall_early (t_now t) pc = Some (pc', held) ->
    serve_step (mkService s ts bl) (mkService (put_pipe key (set_pipe_conn i pc' pp) s) ts ((key, i) :: bl))
| sv_manager t s ts bl :
    mstep (sv_topo s) t -> tm_done t = tm_done (sv_topo s) -> tm_ctx t = tm_ctx (sv_topo s) ->
    removedHooks (tm_core t) = removedHooks (tm_core (sv_topo s)) ->
    serve_step (mkService s ts bl) (mkService (with_topo t s) ts bl)
| sv_refresh it net turns s s' ts bl :
    tm_phase (sv_topo s) = PRefresh -> iteration_ok it -> server_refresh it net s = Ok s' ->
    removal_returns bl turns s s' ->
    serve_step (mkService s ts bl)
      (mkService (with_topo (at_phase PSelect (sv_topo s')) s') (threads_of ts s') bl).

Inductive serve_reach (s : Server) : service -> Prop :=
| se_start : serve_reach s (at_start s)
| se_step c c' : serve_reach s c -> serve_step c c' -> serve_reach s c'.

(** ** What serving leaves as it is *)

(** The settings of the server and of its parts, and whether it was told to end. *)
Definition standing (s : Server) :=
  (sv_cfg s, sv_mode s, sv_maxClients s,
   (m_username (sv_pools s), m_password (sv_pools s), m_maxSize (sv_pools s)),
   (pm_username (sv_pipes s), pm_password (sv_pipes s), pm_size (sv_pipes s)),
   (tm_done (sv_topo s), tm_ctx (sv_topo s))).

Lemma node_removed_keeps addrs : forall s,
  standing (node_removed addrs s) = standing s /\ sv_addr (node_removed addrs s) = sv_addr s /\
  tm_phase (sv_topo (node_removed addrs s)) = tm_phase (sv_topo s).
Proof.
  induction addrs as [|a addrs IH]; intros s; [done|].
  destruct (IH (with_pools (RemovePool a (sv_pools s)) (pm_RemovePool a (sv_pipes s)) s)) as (E1 & E2 & E3).
  unfold node_removed in *. cbn [foldl]. rewrite E1, E2, E3. done.
Qed.

Lemma refresh_keeps it net s s' : server_refresh it net s = Ok s' ->
  standing s' = standing s /\ sv_addr s' = sv_addr s.
Proof.
  intros (m & _ & H)%outcome_bind_inv. injection H as <-.
  generalize (drop (length (removedHooks (tm_core (sv_topo s)))) (removedHooks m)). intros calls.
  set (s1 := with_topo _ s). change (standing s) with (standing s1). change (sv_addr s) with (sv_addr s1).
  clearbody s1. revert s1. induction calls as [|r calls IH]; intros s1; [done|]. cbn [foldl].
  destruct (IH (node_removed r s1)) as (-> & ->). destruct (node_removed_keeps r s1) as (-> & -> & _). done.
Qed.

Lemma use_pool_keeps ro addr s :
  standing (use_pool ro addr s) = standing s /\ sv_addr (use_pool ro addr s) = sv_addr s.
Proof.
  unfold use_pool, GetReadonlyPool, GetPool, getOrCreate. cbv zeta.
  destruct ro; destruct (pools (reg (sv_pools s)) !! _); split; reflexivity.
Qed.

Lemma use_pipe_keeps ro addr s pp s' : use_pipe ro addr s = (pp, s') ->
  standing s' = standing s /\ sv_addr s' = sv_addr s.
Proof.
  unfold use_pipe, pm_GetReadonlyPool, pm_GetPool, getOrCreate. cbv zeta.
  destruct ro; destruct (pools (pm_reg (sv_pipes s)) !! _); intros [= _ <-]; split; reflexivity.
Qed.

Lemma serve_keeps s c : serve_reach s c ->
  standing (sc_server c) = standing s /\ sv_addr (sc_server c) = sv_addr s.
Proof.
  induction 1 as [|c c' _ [IH1 IH2] Hstep]; [done|]. rewrite <- IH1, <- IH2. clear IH1 IH2.
  destruct Hstep as [ro addr s0 ts bl|now key i p p' t t' l s0 ts bl _ _ _ _|ro addr data i id pp pp' s0 s1 ts bl Hu _|
    t key i pp pc pc' s0 ts bl _ _ _ _|k t key i pp pc pc' held s0 ts bl _ _ _ _|t key i pp pc pc' held s0 ts bl _ _ _ _|
    t s0 ts bl _ Hd Hc _|it net turns s0 s1 ts bl _ _ Hr _]; cbn [sc_server]; try done.
  - apply use_pool_keeps.
  - destruct (use_pipe_keeps _ _ _ _ _ Hu) as [<- <-]. done.
  - unfold standing. cbn [sv_cfg sv_mode sv_maxClients sv_pools sv_pipes sv_topo with_topo sv_addr]. by rewrite Hd, Hc.
  - destruct (refresh_keeps _ _ _ _ Hr) as [<- <-]. done.
Qed.

(** ** The wait for the loops *)

Lemma wait_all_ended fs : wait_all fs = Ended <-> Forall (fun f => f = Ended) fs.
Proof.
  induction fs as [|f fs IH]; cbn [wait_all]; [by split|]. rewrite Forall_cons, <- IH.
  destruct f; split; [by split|by intros [_ ?]|done|by intros [? _]|done|by intros [? _]].
Qed.

(** [Stop] gets past the pipelined connections when the loop of each of them ends. *)
Lemma wait_loops_ended c turns :
  wait_loops c turns = Ended <->
  forall key pp i pc, pools (pm_reg (sv_pipes (sc_server c))) !! key = Some pp -> pp_conns pp !! i = Some pc ->
    close_fate (sc_blocked c) turns key i pc = Ended.
Proof.
  unfold wait_loops. rewrite wait_all_ended, Forall_concat, Forall_map, Forall_forall. split.
  - intros H key pp i pc Hk Hi. specialize (H (key, pp)). cbn [fst snd] in H.
    rewrite Forall_lookup in H. apply (H (proj2 (elem_of_map_to_list _ _ _) Hk) i). by rewrite list_lookup_imap, Hi.
  - intros H [key pp] Hk%elem_of_map_to_list. cbn [fst snd]. apply Forall_lookup. intros i f Hf. rewrite list_lookup_imap in Hf.
    destruct (pp_conns pp !! i) as [pc|] eqn:Ei; [|discriminate Hf]. injection Hf as <-. by apply (H key pp).
Qed.

(** A loop with less than a batch of requests ends at once, whatever the network does; the
    requests are dropped. *)
Lemma short_loop_ends t ts pc : (length (reqCh pc) < maxBatch)%nat -> loop_fate (t :: ts) (close_chan pc) = Ended.
Proof.
  intros Hl. cbn [loop_fate]. unfold loop_turn. cbn [reqCh close_chan ch_closed set_chan]. destruct (reqCh pc) as [|r rs] eqn:E; [done|].
  rewrite <- E in Hl |- *. rewrite take_ge by lia. apply Nat.ltb_lt in Hl. rewrite Hl. done.
Qed.

(** [Stop] does not return while a loop is in a turn that does not end. *)
Lemma silent_node_hangs_stop c turns key pp i pc :
  pools (pm_reg (sv_pipes (sc_server c))) !! key = Some pp -> pp_conns pp !! i = Some pc -> (key, i) ∈ sc_blocked c ->
  wait_loops c turns <> Ended.
Proof.
  intros Hk Hi Hb Hw. rewrite wait_loops_ended in Hw. specialize (Hw key pp i pc Hk Hi).
  unfold close_fate in Hw. by rewrite bool_decide_true in Hw.
Qed.

(** ** A server at work: a request on its way through a pipelined connection, another one
    waiting for a connection of a pool *)

Definition busy (addr data : bytes) (s : Server) : service :=
  let '(pp, s1) := use_pipe false addr s in
  match Do_send data pp with
  | Ok (Some (_, _, pp)) =>
      mkService (use_pool false addr (put_pipe (registry_key false addr) pp s1))
        (<[registry_key false addr := default [] ((∅ : gmap bytes (list thread)) !! registry_key false addr) ++ [TGet]]> ∅) []
  | _ => at_start s
  end.

Lemma busy_reach addr data s : serve_reach s (busy addr data s).
Proof.
  unfold busy. destruct (use_pipe false addr s) as [pp s1] eqn:Eu.
  destruct (Do_send data pp) as [[[[i id] pp']|]| | |] eqn:Ed; [|apply se_start..].
  eapply se_step; [|apply sv_get]. eapply se_step; [apply se_start|]. by apply (sv_do _ _ _ _ _ _ _ _ _ _ _ Eu Ed).
Qed.
