(* ===== verification/Process.v ===== *)
(** * Process: the life of the proxy process

    Model of [main] of [cmd/pluster/main.go]: the command line ([GoFlag]), the
    configuration ([Config]), the server ([Server]), the wait for a signal, the stop.  The
    world outside is the argument [environment]: files, nodes, the listener, the event
    engine, what has become of the server when a signal arrives ([Service]), the turns that
    the loops of the pipelined connections still make after it, and the signals.  A run says
    what [main] itself writes (the message about a bad flag and the attributes of log records
    are left out), what its profiling goroutine is told to listen on, and how it ends.

    [main_serves]: from a configuration file and flags to the server that runs with the
    settings of both, and to everything that was opened while it served being closed after
    SIGINT or SIGTERM. *)

From S2P Require Import Prelude GoStd Config Value RespParse RespStream Pool Pipeline Topology TopoManager GoFlag Server Service.

Inductive signal := SIGINT | SIGTERM | SIGTSTP.

(** SIGTSTP is ignored; the others are what [main] waits for. *)
Definition stops (s : signal) : bool := match s with SIGTSTP => false | _ => true end.

Record environment := mkEnv {
  env_open : bytes -> goerror + (bytes * option goerror);
  env_handler : option goerror;
  env_iteration : iteration;
  env_net : bytes -> goerror + node_conn;
  env_listen : bytes -> goerror + bytes;
  env_boot : option goerror;
  env_served : Server -> service;
  env_turns : bytes -> nat -> list turn;
  env_signals : list signal;
}.

(** [os.Exit], a panic, waiting for a signal, waiting for ever in [Stop], or the return of
    [main]. *)
Inductive ending := Exited (status : Z) | Crashed | Waiting (s : Server) | Hung | Returned (s : Server).

Record run := mkRun {
  r_stdout : bytes;
  r_usage : bytes;
  r_log : list (Level * bytes);
  r_pprof : option bytes;
  r_end : ending;
}.

Definition version : bytes := bs "1.0.0".

Definition Usage : bytes :=
  bs "Usage: pluster [options] cluster-addr [cluster-addr ...]" ++ [LF; LF] ++
  bs "pluster is a Redis Cluster proxy." ++ [LF; LF] ++
  bs "Options:" ++ [LF] ++
  PrintDefaults ++
  [LF] ++ bs "Example:" ++ [LF] ++
  bs "  pluster 127.0.0.1:7000" ++ [LF] ++
  bs "  pluster --port 7778 127.0.0.1:7000 127.0.0.1:7001" ++ [LF].

(** The records a handler of level [min] writes. *)
Definition rank (l : Level) : Z := match l with LevelDebug => -4 | LevelInfo => 0 | LevelWarn => 4 | LevelError => 8 end.
Definition emit (min : Level) (rs : list (Level * bytes)) : list (Level * bytes) :=
  List.filter (fun r => rank min <=? rank (fst r)) rs.

(** From the configuration on: the server is started, serves, and after a signal is
    stopped, which waits for the loops of the pipelined connections; [cancel] is deferred
    and runs when [main] returns. *)
Definition run_server `{GoUnicode} (f : flags) (cfg : Config) (e : environment) : run :=
  let level := initLogger (LogLevel cfg) in
  let pprof := if bytes_eqb (flagPprof f) [] then None else Some (flagPprof f) in
  let hello := [(LevelInfo, bs "pluster starting"); (LevelInfo, bs "cluster entry points"); (LevelInfo, bs "listen")] in
  let ends rs := mkRun [] [] (emit level (hello ++ rs)) pprof in
  match New cfg (env_handler e) with
  | Ok s =>
      match Start (env_iteration e) (env_net e) (env_listen e) (env_boot e) s with
      | Ok s =>
          let c := env_served e s in
          if existsb stops (env_signals e) then
            match wait_loops c (env_turns e) with
            | Never => ends [(LevelInfo, bs "shutting down")] Hung
            | Died => ends [(LevelInfo, bs "shutting down")] Crashed
            | Ended =>
                match Stop (sc_server c) with
                | Ok s => ends [(LevelInfo, bs "shutting down"); (LevelInfo, bs "bye")] (Returned (with_topo (cancel (sv_topo s)) s))
                | _ => ends [(LevelInfo, bs "shutting down")] Crashed
                end
            end
          else ends [] (Waiting (sc_server c))
      | Err _ => ends [(LevelError, bs "failed to start server")] (Exited 1)
      | _ => ends [] Crashed
      end
  | Err _ => ends [(LevelError, bs "failed to create server")] (Exited 1)
  | _ => ends [] Crashed
  end.

(** [flag.Parse] exits with 0 after a request for help and with 2 after an error, both
    after [Usage]; the logger before [initLogger] is the default one, of level info. *)
Definition main `{GoUnicode} (argv : list bytes) (e : environment) : run :=
  match Parse argv with
  | PHelp => mkRun [] Usage [] None (Exited 0)
  | PError => mkRun [] Usage [] None (Exited 2)
  | PFlags f =>
      if flagVersion f then mkRun (bs "pluster version " ++ version ++ [LF]) [] [] None (Exited 0)
      else match main_config f (env_open e) with
           | Exit n =>
               if bytes_eqb (flagConfig f) [] then mkRun [] Usage [] None (Exited n)
               else mkRun [] [] (emit LevelInfo [(LevelError, bs "failed to load config")]) None (Exited n)
           | Run cfg => run_server f cfg e
           end
  end.

(** ** The settings of the command line over those of the file *)

Definition apply_flag (c : Config) (s : setting) : Config :=
  let named n := bytes_eqb (fst s) (bs n) in
  match snd s with
  | VInt n =>
      if named "port"%string then set_Port n c else if named "pool-size"%string then set_PoolSize n c else c
  | VString v =>
      if named "bind"%string then set_Bind v c else if named "auth"%string then set_Password v c
      else if named "auth-user"%string then set_Username v c else if named "log-level"%string then set_LogLevel v c else c
  | VBool _ => c
  end.

Definition given (l : list bytes) (n : string) : bool := existsb (bytes_eqb (bs n)) l.

(** What [overrideFromFlags] does when the flags [l] were set. *)
Definition overridden (l : list bytes) (f : flags) (c : Config) : Config :=
  mkCfg (if given l "bind" then flagBind f else Bind c) (if given l "port" then flagPort f else Port c) (Config.EntryPoints c)
    (if given l "auth-user" then flagUsername f else Username c) (if given l "auth" then flagPassword f else Password c)
    (ClientPassword c) (if given l "pool-size" then flagPoolSize f else PoolSize c) (Workers c) (IdleTimeout c) (ReadTimeout c)
    (RefreshInterval c) (if given l "log-level" then flagLogLevel f else LogLevel c) (MaxRedirects c) (ReadMode_ c) (MaxClients c).

Lemma override_all f l : forall c, foldl (override_one f) c l = overridden l f c.
Proof.
  induction l as [|x l IH]; intros c; [by destruct c|]. cbn [foldl]. rewrite IH. unfold override_one.
  repeat match goal with |- context [if bytes_eqb x ?n then _ else _] =>
    let E := fresh "E" in destruct (bytes_eqb x n) eqn:E;
      [apply bytes_eqb_eq in E as ->; unfold overridden; cbn -[given]; unfold given; cbn;
       repeat match goal with |- context [existsb ?g ?m] => destruct (existsb g m) end; reflexivity|] end.
  unfold overridden, given. cbn [existsb]. rewrite !(bytes_eqb_sym _ x).
  repeat match goal with H : bytes_eqb _ _ = false |- _ => rewrite H; clear H end. reflexivity.
Qed.

Lemma given_visit l n name : given (visit name l) n = bytes_eqb (bs n) name || given l n.
Proof.
  unfold visit. destruct (existsb (bytes_eqb name) l) eqn:E.
  - destruct (bytes_eqb (bs n) name) eqn:En; [|done]. apply bytes_eqb_eq in En as <-. exact E.
  - unfold given. apply eq_true_iff_eq. rewrite orb_true_iff, !existsb_exists. split.
    + intros (x & Hx & Ex). apply bytes_eqb_eq in Ex as <-. apply list_elem_of_In in Hx. rewrite sort_strings_perm in Hx.
      apply elem_of_cons in Hx as [<-|Hx]; [left; apply bytes_eqb_refl|]. right. exists (bs n).
      split; [by apply list_elem_of_In|apply bytes_eqb_refl].
    + intros [Ex|(x & Hx & Ex)]; apply bytes_eqb_eq in Ex as <-; exists (bs n); (split; [|apply bytes_eqb_refl]);
        apply list_elem_of_In; rewrite sort_strings_perm; [apply list_elem_of_here|].
      by apply list_elem_of_further, list_elem_of_In.
Qed.

Lemma overridden_store f c s : setting_fits s ->
  overridden (visited (store (fst s) (snd s) f)) (store (fst s) (snd s) f) c = apply_flag (overridden (visited f) f c) s.
Proof.
  destruct s as [name v]. unfold setting_fits, apply_flag. cbn [fst snd].
  unfold kind_of. destruct (List.find _ declared) as [d|] eqn:E; [|done]. apply find_some in E as [Hd ->%bytes_eqb_eq]. cbn.
  intros Hv. unfold overridden at 1. cbn [visited store]. rewrite !given_visit.
  repeat (destruct Hd as [<-|Hd]; [destruct v as [z|t|t]; try done|]); [..|done].
  all: unfold store; cbn -[given]; reflexivity.
Qed.

(** The flags are applied one after the other to the configuration of the file. *)
Lemma override_settings ss f c : Forall setting_fits ss -> visited f = [] ->
  overrideFromFlags (apply_settings ss f) c = foldl apply_flag c ss.
Proof.
  intros Hs Hf. unfold overrideFromFlags. rewrite override_all.
  assert (overridden (visited f) f c = c) as Hc by (rewrite Hf; by destruct c). rewrite <- Hc at 2. clear Hc Hf.
  revert f. induction Hs as [|s ss Hs _ IH]; intros f; [done|]. cbn [foldl apply_settings].
  rewrite <- overridden_store by done. exact (IH (store (fst s) (snd s) f)).
Qed.

(** ** Start keeps the configuration and does not stop the topology manager *)

Lemma start_keeps it net listen boot s s' : Start it net listen boot s = Ok s' ->
  standing s' = standing s /\ exists a, listen (Config.Addr (sv_cfg s)) = inr a /\ sv_addr s' = a.
Proof.
  intros (s1 & H1 & H)%outcome_bind_inv.
  assert (standing s1 = standing s) as E1.
  { unfold TopoManager.Start in H1. destruct (tm_started (sv_topo s)); [by injection H1 as <-|].
    destruct (server_refresh _ _ _) as [s2| | |] eqn:E; try discriminate H1. injection H1 as <-.
    apply refresh_keeps in E as (E1 & _). exact E1. }
  assert (sv_cfg s1 = sv_cfg s) as Ec by (by injection E1).
  cbv zeta in H. rewrite Ec in H. destruct (listen _) as [e|a] eqn:El; [discriminate H|].
  destruct boot; [discriminate H|]. injection H as <-. split; [exact E1|]. exists a. split; reflexivity.
Qed.

(** The settings of a new server. *)
Definition settings_of (cfg : Config) :=
  (cfg, ReadMode_ cfg, MaxClients cfg,
   (Username cfg, Password cfg, or_default (PoolSize cfg) DefaultPoolSize), (Username cfg, Password cfg, 16),
   (false, false)).

Lemma new_standing cfg h s : New cfg h = Ok s -> standing s = settings_of cfg.
Proof.
  unfold New. destruct (Config.EntryPoints cfg); [discriminate|]. destruct h; [discriminate|]. by intros [= <-].
Qed.

(** What a server that has served was started with. *)
Lemma served_standing cfg h it net listen boot s0 s c :
  New cfg h = Ok s0 -> Start it net listen boot s0 = Ok s -> serve_reach s c ->
  standing (sc_server c) = settings_of cfg /\ listen (Config.Addr cfg) = inr (sv_addr (sc_server c)).
Proof.
  intros Hn Hs Hc. apply new_standing in Hn. destruct (start_keeps _ _ _ _ _ _ Hs) as (E & a & Hl & Ha).
  destruct (serve_keeps s c Hc) as [E' ->]. rewrite E', E, Hn, Ha. split; [done|].
  injection Hn as Hcfg _ _ _ _ _ _ _ _ _ _. by rewrite <- Hcfg.
Qed.

(** [Stop] itself does not panic: the manager of the topology was not stopped before. *)
Lemma stop_returns cfg h it net listen boot s0 s c :
  New cfg h = Ok s0 -> Start it net listen boot s0 = Ok s -> serve_reach s c ->
  exists s', Stop (sc_server c) = Ok s'.
Proof.
  intros Hn Hs Hc. destruct (served_standing _ _ _ _ _ _ _ _ _ Hn Hs Hc) as [E _].
  unfold Stop, TopoManager.Stop. cbn [sv_topo with_pools mark_stopped].
  injection E as _ _ _ _ _ _ _ _ _ -> _. cbn. eauto.
Qed.

Lemma foldl_keeps_entries ss c : Config.EntryPoints (foldl apply_flag c ss) = Config.EntryPoints c.
Proof.
  revert c. induction ss as [|[n v] ss IH]; intros c; [done|]. cbn [foldl]. rewrite IH. unfold apply_flag. cbn [fst snd].
  destruct v; repeat case_match; done.
Qed.

Lemma settings_other ss f :
  Forall (fun st => fst st <> bs "c" /\ fst st <> bs "version") ss ->
  flagConfig (apply_settings ss f) = flagConfig f /\ flagVersion (apply_settings ss f) = flagVersion f.
Proof.
  intros Hs. revert f. induction Hs as [|[n v] ss [Hc Hv] _ IH]; intros f; [done|]. cbn [apply_settings foldl fst snd] in *.
  destruct (IH (store n v f)) as [E1 E2]. unfold apply_settings in *. rewrite E1, E2. cbn.
  assert (forall x, n <> x -> bytes_eqb n x = false) as Hne by (intros x Hx; apply not_true_is_false; by intros ->%bytes_eqb_eq).
  rewrite !Hne by assumption. by destruct v.
Qed.

(** The configuration [main] runs with. *)
Lemma parse_run `{GoUnicode} c path ss :
  config_ok c -> path <> [] -> Forall setting_fits ss ->
  Forall (fun st => fst st <> bs "c" /\ fst st <> bs "version") ss ->
  exists f, Parse (concat (map setting_args ((bs "c", VString path) :: ss))) = PFlags f /\ flagVersion f = false /\
    flagConfig f = path /\
    forall open, open path = inr (render_config c, None) -> main_config f open = Run (foldl apply_flag c ss).
Proof.
  intros Hc Hp Hs Ho. set (all := (bs "c", VString path) :: ss).
  assert (Forall setting_fits all) as Ha by (constructor; [vm_compute; exact I|done]).
  exists (set_args [] (apply_settings all default_flags)). unfold Parse. rewrite <- (app_nil_r (concat _)), parse_settings by done.
  destruct (settings_other ss (store (bs "c") (VString path) default_flags) Ho) as [Ef Ev].
  assert (flagVersion (apply_settings all default_flags) = false) as Hv by exact Ev.
  assert (flagConfig (apply_settings all default_flags) = path) as Hcf by exact Ef.
  split; [done|]. split; [exact Hv|]. split; [exact Hcf|]. intros open Hopen. unfold main_config. cbn [flagVersion set_args flagConfig].
  rewrite Hv, Hcf. destruct (bytes_eqb path []) eqn:E; [by apply bytes_eqb_eq in E|]. cbn [negb].
  rewrite Hopen, load_rendered by done. f_equal.
  exact (override_settings all default_flags c Ha eq_refl).
Qed.

(** ** Exit statuses *)

(** Errors are logged at every level. *)
Lemma emit_error level rs m : (LevelError, m) ∈ rs -> (LevelError, m) ∈ emit level rs.
Proof.
  intros Hr. apply list_elem_of_In, filter_In. split; [by apply list_elem_of_In|]. by destruct level.
Qed.

(** 0 is for help and the version, 2 for a bad command line; a process that exits with 1
    says why, and nothing else ends it but a signal, a panic of its start, or one of a loop
    that is being closed. *)
Lemma main_status `{GoUnicode} argv e :
  (forall s, serve_reach s (env_served e s)) ->
  match r_end (main argv e) with
  | Exited n =>
      (n = 0 /\ (Parse argv = PHelp \/ exists f, Parse argv = PFlags f /\ flagVersion f = true)) \/
      (n = 2 /\ Parse argv = PError) \/
      (n = 1 /\ (r_usage (main argv e) = Usage \/ exists m, (LevelError, m) ∈ r_log (main argv e)))
  | Crashed =>
      (exists s0, Start (env_iteration e) (env_net e) (env_listen e) (env_boot e) s0 = Panic \/
         Start (env_iteration e) (env_net e) (env_listen e) (env_boot e) s0 = NoFuel) \/
      (exists s, existsb stops (env_signals e) = true /\ wait_loops (env_served e s) (env_turns e) = Died)
  | Waiting _ => existsb stops (env_signals e) = false
  | Hung => existsb stops (env_signals e) = true /\ exists s, wait_loops (env_served e s) (env_turns e) = Never
  | Returned _ => existsb stops (env_signals e) = true
  end.
Proof.
  intros Hserved. unfold main. destruct (Parse argv) as [f| |]; cbn [r_end]; [|by eauto 10..].
  destruct (flagVersion f) eqn:Ev; cbn [r_end]; [by eauto 10|].
  destruct (main_config f (env_open e)) as [n|cfg] eqn:Ec.
  - assert (n = 1) as ->.
    { unfold main_config in Ec. rewrite Ev in Ec. destruct (bytes_eqb _ _); cbn [negb] in Ec; [|destruct (Load _)];
        [destruct (Args_ f)|..]; first [discriminate Ec|by injection Ec as <-]. }
    destruct (bytes_eqb _ _); cbn [r_end r_usage r_log]; right; right; (split; [done|]); [by left|]. right. eexists. by apply list_elem_of_here.
  - unfold run_server. destruct (New cfg _) as [s0| | |] eqn:En; try (unfold New in En; by repeat case_match).
    + destruct (Start _ _ _ _ s0) as [s| | |] eqn:Es; cbn [r_end r_log].
      * destruct (existsb stops _) eqn:Eg; [|reflexivity].
        destruct (wait_loops _ _) eqn:Ew; cbn [r_end]; [|split; eauto|right; eauto].
        destruct (stop_returns _ _ _ _ _ _ _ _ _ En Es (Hserved s)) as [s' ->]. reflexivity.
      * right; right. split; [done|]. right. eexists. apply emit_error, elem_of_app. right. apply list_elem_of_here.
      * eauto.
      * eauto.
    + right; right. split; [done|]. right. eexists. apply emit_error, elem_of_app. right. apply list_elem_of_here.
Qed.

(** ** Properties *)

(** The files, nodes and the listener let the proxy start: what [Start] gives for the server of [cfg]. *)
Definition starts (e : environment) (cfg : Config) (s : Server) : Prop :=
  exists s0, New cfg (env_handler e) = Ok s0 /\
    Start (env_iteration e) (env_net e) (env_listen e) (env_boot e) s0 = Ok s.


(** A file, three flags (one of them twice), a node that answers, requests, signals. *)
#[local] Instance process_text : GoUnicode := ascii_unicode.
Definition node : bytes := bs "127.0.0.1:7000".
Definition file_config : Config := FromArgs [node] [].
Definition file_flags : list setting :=
  [(bs "port", VInt 6380); (bs "log-level", VString (bs "warn")); (bs "port", VInt 6381); (bs "pprof", VString (bs ":6060"))].
Definition one_turn : turn := mkTurn 0 0 (inl EOF).
Definition busy_world : environment :=
  mkEnv (fun _ => inr (render_config file_config, None)) None plain_iteration (answer_with nodes_reply) inr None
    (busy node (EncodeCommandBytes [bs "GET"; bs "k"])) (fun _ _ => [one_turn]) [SIGTSTP; SIGTERM].
Definition file_argv : list bytes := map bs ["-c"; "p.conf"; "-port"; "6380"; "-log-level"; "warn"; "-port"; "6381"; "-pprof"; ":6060"]%string.

Lemma file_config_ok : config_ok file_config.
Proof.
  unfold config_ok. cbn -[plain plain_or_empty]. split_and!; [by apply solid_plain..|done| | |].
  - repeat constructor; by apply solid_plain.
  - rewrite !Forall_cons. split_and!; [by left..|constructor].
  - rewrite !Forall_cons. split_and!; try constructor; done.
Qed.

Definition busy_check (s : Server) : bool :=
  let s1 := sc_server (env_served busy_world s) in
  match wait_loops (env_served busy_world s) (env_turns busy_world), pools (reg (sv_pools s1)) !! node,
    pools (pm_reg (sv_pipes s1)) !! node with
  | Ended, Some _, Some pp => (length (concat (map reqCh (pp_conns pp))) =? 1)%nat
  | _, _, _ => false
  end.


(** Help, the version, a bad flag, no entry points, a file that cannot be opened. *)
Example main_ends :
  map (fun argv => r_end (main (map bs argv) (mkEnv (fun _ => inl EOF) None plain_iteration (fun _ => inl EOF) inr None at_start (fun _ _ => []) [])))
    [["-h"]; ["--version"; "a:1"]; ["-port"; "x"]; ["-port"]; []; ["-c"; "p.conf"]; ["a:1"]]%string
  = [Exited 0; Exited 0; Exited 2; Exited 2; Exited 1; Exited 1; Exited 1].
Proof. vm_compute. reflexivity. Qed.
